(* ===== verification/_CoqProject ===== *)
-Q . S2P
Prelude.v
RustStd.v
Net.v
SmtpCommand.v
SmtpStream.v
SmtpSession.v
SmtpSafety.v
SmtpDialogue.v
SmtpServer.v
StorageError.v
Content.v
MailParser.v
Locator.v
Prepared.v
Query.v
Database.v
Store.v
Repo.v
Tables.v
RepoWrites.v
Instances.v
RepoProperties.v
RepoReads.v
Attachments.v
Reclaim.v
Schema.v
OldDb.v
Fingerprint.v
MigrateDisk.v
MigrateBuild.v
Migrate.v
MigrateRestore.v
MigrateWork.v
MigrateCopies.v
MigrateChecks.v
MigrateLogic.v
MigrateLucky.v
MigrateStates.v
MigrateBatches.v
MigrateTarget.v
MigrateSafe.v
MigrateRecovery.v
MigrateServed.v
MigrateRestored.v
MigrateProperties.v
Startup.v
Restart.v
AppState.v
Ingest.v
IngestProperties.v
Healthy.v
Retention.v
Consumer.v
Lifecycle.v
Origin.v
Host.v
WebSocket.v
Config.v
Version.v
AssertMode.v
Handlers.v
Headers.v
Router.v
TuiState.v
TuiApp.v
TuiLists.v
TuiSafety.v
TuiPreview.v
TuiReplay.v
TuiPump.v
TuiText.v
TuiLayout.v
Release.v
Api.v
Serve.v
Downgrade.v
EndToEnd.v
ApiProperties.v
