(* ===== verification/Prelude.v ===== *)
(** * RustMail: a verification library

    RustMail captures the mail a program under development sends. An SMTP server
    ([crates/rustmail-smtp]) accepts it and hands each message over a queue to the
    server process ([crates/rustmail-server]), whose consumer stores it in a SQLite
    database ([crates/rustmail-storage]), answers the SMTP session that waits for
    the verdict and announces the message to the clients of the HTTP and WebSocket
    API ([crates/rustmail-api]), one of which is the terminal client
    ([crates/rustmail-tui]). This library models those five crates as pure
    functions and step relations in the shape of the source and proves what makes
    them correct. File and function names are those under [src/crates/].

    ** The files

    - Foundations. [Prelude]: results, list and option lemmas, the hint database
      and the tactics of the library. [RustStd]: the operations of the Rust
      standard library on UTF-8 bytes and on machine integers.
    - SMTP, [rustmail-smtp/src]. [SmtpCommand]: the replies and the parsing of one
      command line. [SmtpStream]: the buffered reader with [read_line_untimed],
      [drain_data] and [receive_data]. [SmtpSession]: the state machine of
      [Session::handle] with [STARTTLS], [AUTH] and [deliver]. [SmtpSafety]: its
      properties. [SmtpDialogue]: whole conversations with it. [SmtpServer]: the
      accept loop of [server.rs].
    - Storage, [rustmail-storage/src]. [StorageError] is [error.rs], [Content]
      [content.rs], [Locator] [locator.rs], [Prepared] [prepared.rs], [Query]
      [query.rs] and the rows of [models.rs]. [Database]: the tables of
      [schema.rs] and each SQL statement of [repo.rs] as a function of them.
      [Store]: connections, transactions, faults, rival writers, [retry_on_lock].
      [Repo]: each method of [MessageRepository]. [Tables], [RepoWrites],
      [RepoProperties], [RepoReads], [Attachments]: what they guarantee.
      [Instances]: concrete stand-ins for the libraries. [Reclaim] is
      [reclaim.rs], [Schema] the schema check of [schema.rs].
    - Older databases, [rustmail-storage/src/migrate]. [OldDb]: their rows.
      [Fingerprint] is [fingerprint.rs]. [MigrateDisk]: files with their side
      files, renames, SQLite connections and the script of what goes wrong.
      [MigrateBuild] is [build.rs], [Migrate] the steps of [migrate.rs],
      [MigrateRestore] [restore.rs]. [MigrateWork], [MigrateCopies],
      [MigrateChecks]: what one batch and the checks compute. [MigrateLogic]: a
      program logic with a crash condition, [MigrateLucky]: one for runs nothing
      goes wrong in. [MigrateStates], [MigrateBatches], [MigrateTarget],
      [MigrateSafe]: the states the disk goes through. [MigrateRecovery],
      [MigrateServed], [MigrateRestored], [MigrateProperties]: the properties.
      [Startup]: opening the store when the server starts, on an older database;
      [Restart]: on a current one or on none. [Downgrade]: [run_restore_backup],
      from an older database to a server that takes mail and back.
    - The server, [rustmail-server/src/main.rs]. [Ingest]: [process_batch] and the
      functions under it; [IngestProperties] and [Healthy]: what they guarantee.
      [Retention]: [run_retention_tick]. [Consumer]: [next_batch] and the loop
      around it. [Lifecycle]: [run_serve] once it serves, with the webhooks and the
      stop. [Config]: the settings and their checks. [Serve]: [run_serve] up to
      there, to the state of the API and the SMTP configuration. [Version]: the
      version a build reports. [AssertMode]:
      [run_assert].
    - The API, [rustmail-api/src]. [AppState]: [state.rs]. [Net]: the address
      parser of the standard library. [Origin] is [origin.rs], [Host] [host.rs],
      [WebSocket] [ws.rs]. [Handlers], [Headers] and [Release]: [handlers.rs];
      [ApiProperties]: what they guarantee. [Router]: the layers of [lib.rs] and
      [static_files.rs]. [Api]: the routes, and a request through all of it.
      [EndToEnd]: from the SMTP socket to the answer of the API.
    - The terminal client, [rustmail-tui/src]. [TuiState]: the data of [app.rs] and
      [api.rs]. [TuiApp]: every event handler of [App]. [TuiLists], [TuiSafety],
      [TuiPreview], [TuiReplay]: what they guarantee. [TuiPump]: the event loop of
      [event.rs]. [TuiText], [TuiLayout]: [ui/], what is drawn and where.

    ** How the state corresponds to the code

    A session ([SmtpSession.Session]) is the struct of the source with, in place of
    its socket, its channel and its clock, the script each answers from; replies
    and hand-offs are logged in the order they happen. Every statement of the
    repository runs in a world ([Store.World]) of the committed tables, the tables
    of an open transaction and a script of what happens around the statement: a
    fault, contention, the commit of a rival writer. The migration and the restore
    run in a disk ([MigrateDisk.Disk]) of files with a script of mishaps: an error
    or a kill at any operation, a stop, another holder of the lock. The theorems
    hold for every script, hence for every interleaving and every fault.
    [AppState.App] adds to the world the events broadcast and the verdicts sent,
    each with the tables committed when it left; [Consumer.own] and
    [Consumer.others] interleave sessions, API requests, the consumer and a stop,
    [Lifecycle.turn] adds webhooks and the shutdown, [WebSocket] all connections at
    once. Asynchronous Rust code is a state monad whose result may be an error, in
    the order of its [await]s. The terminal client is the struct [App] and a
    function of it for each event; a task that is spawned is the request it makes.

    ** What the theorems show

    - A session ends on every input; [250] is answered for a message exactly when
      the consumer reported it stored; nothing said before [STARTTLS] survives it;
      the [DATA] loop computes the meaning of the bytes ([SmtpStream], a
      specification on the whole byte string), however the network cut them, and a
      dot-stuffed message arrives unchanged, at every limit but the three largest of
      64 bits ([SmtpStream.usable]); sessions, commands, recipients and sizes are
      bounded. A client that follows the protocol gets all its mail
      through, and what it was told is accepted the API serves byte for byte.
    - A delivery is answered exactly once and truthfully, in the order of arrival,
      and announced exactly when it is stored; a stop answers everyone, cut off by
      its deadline or not; webhooks follow the storage, ten at a time; a healthy
      store takes every message; an assert run tells the truth.
    - Whatever fails, the tables stay consistent with each other, a batch is stored
      whole or not at all, and each write refines its abstract relation
      ([RepoWrites]): deletions remove exactly what they name, retention and
      trimming exactly what the policy says, for hours that fit [i64]. Stored mail
      and its attachments read back as they were received. Listings, counts, pages and assertions agree.
    - A database file is either brought to the current schema or left alone; the
      reclaim loop ends. A migration or a restore that is interrupted anywhere, any
      number of times, loses nothing, and one undisturbed run ends it, also when an
      older rustmail wrote to the database in between, but for a restore whose
      forerunner was killed over an open file; the migrated store serves every older
      message byte for byte and every attachment as the older file held it; a server started on an older
      database serves its mail, and one started on a current database that database;
      going back gives the older database back and keeps the mail taken since;
      settings are refused before the database is touched, the webhook's after it was
      opened.
    - Every request is answered with the security headers and leaves a consistent
      store, and only four routes write to it; a release goes to the configured
      relay only; a browser is answered only at an address or under the names
      configured, and a page opens a WebSocket only from the server's own authority or a
      configured origin; a client that follows the cursors sees every message once; an
      update announces what it changed; a subscriber gets the events in order or is
      disconnected.
    - The terminal client stays well formed, its list tracks the mailbox through
      snapshots and announcements in any order, its preview follows the cursor, it
      loses no frame without marking the list stale, and a click selects the row
      that is drawn under it; the cases in which they do not are left out by the
      theorems' hypotheses and shown by Examples of [TuiReplay], [TuiPreview] and
      [TuiLayout].

    ** Fuel and bounds

    The loops whose recursion is not structural take fuel. The DATA loop is run
    with [SmtpStream.fuel_of], which exceeds the bytes and chunks left, and
    [SmtpStream.receive_data_refines] shows that it then answers; a session's
    fuel is handled the same way by [SmtpSafety.session_terminates]. The retry
    loop recurses on the attempts the source allows, the release of pages on the
    free pages ([Reclaim.reclaim_terminates]). The copy of a migration recurses on
    the rows left and the scan of the fingerprint on the pages, and
    [Migrate.resolve_loop] goes round at most three times; that a run always has a
    result is part of the theorems of [MigrateProperties] and [Startup]. Integers
    that can wrap are kept at their width ([RustStd]); where the code's arithmetic
    wraps, an [Example] or a lemma of [SmtpStream], [Config], [Retention] or
    [TuiLayout] shows it.

    ** What stands outside

    The libraries are classes, with the laws of their documentation in classes of
    their own: [Content.Zstd], [Prepared.Json], [MailParser.MailParser] (its
    base64 decoders in [MailParser.MailParserLaws]),
    [Repo.Sqlite] (full-text search and [LIKE]), [Repo.Platform] (identifiers and
    the clock) with [Healthy.UlidLaw], [Retention.Pager] and [Retention.Calendar],
    [MigrateDisk.Machine] (the cores and the clock), [Config.UrlParser],
    [Config.Rustls], [Origin.HeaderText], [Headers.HeaderParser],
    [WebSocket.Interval], [Router.Assets], [Api.Axum] (the paths and methods a route takes) and
    [Api.Extract] (what is made of a query or a body), [Release.Lettre],
    [TuiApp.Frames] (the JSON of a frame), [TuiText.Widths], [TuiText.Html] and
    [TuiLayout.Layout] (ratatui's layout).
    [Instances] and the witnesses give concrete ones that satisfy the laws. A
    statement of SQLite is atomic, and the triggers and cascades of the schema are
    part of the statement that fires them. The channels between sessions and
    consumer are those of tokio ([EndToEnd.joined]), and so is the broadcast channel,
    which holds a number of frames for its slowest receiver ([WebSocket.recv]). The [sqlite:] URL made of the
    path of a database is taken to name that path.

    Not modelled: sockets, TLS, logging and process signals, which are I/O; the
    delay of a full delivery queue (a hand-off is taken or refused at once); the
    parsing of the command line by clap; the compression and tracing layers of
    the API; the progress lines of a migration
    and the Windows variants of its permission helpers; the terminal's events as
    crossterm delivers them, colours and what ratatui paints; generators and tests
    ([locator_fuzz.rs], [migrate/tests.rs]), which are no part of the program.
    Programs that write to the older database under the lock a migration holds on
    it are in the model ([MigrateDisk.meddling]), but SQLite keeps them out, and
    the theorems are about disks without them. An older rustmail that is started
    between two runs is taken to leave a database of the same schema with a
    fingerprint of its own: the fingerprint has 64 bits, and
    [Fingerprint.flag_edit_changes_fingerprint] says which edits always change it.
*)

From Stdlib Require Export ZArith Lia Ascii String.
From Stdlib Require Export Sorted.
From stdpp Require Export base tactics numbers list option strings gmap sets sorting.
#[global] Open Scope nat_scope.
#[global] Open Scope list_scope.

(** ** Record update

    [r <| f := v |>] is [r] with [v] in the field [f]. A record that is updated this
    way has an [Eta] instance, its constructor applied to its own fields; the
    setter of a field replaces that field's projection in it. *)

Class Eta (R : Type) := eta : R → R.
Class Setter {R T : Type} (f : R → T) := set_field : (T → T) → R → R.
#[global] Arguments set_field {R T} f {_} _ _ /.
Ltac field_setter :=
  match goal with
  | |- @Setter ?R ?T ?f =>
    let i := constr:(_ : Eta R) in
    let e := eval red in i in
    match eval pattern f in e with
    | ?g _ => let t := eval cbv beta in (λ (u : T → T) (r : R), g (λ r0, u (f r0)) r) in exact t
    end
  end.
#[export] Hint Extern 1 (Setter _) => field_setter : typeclass_instances.
Notation "r <| f := v |>" := (set_field f (λ _, v) r) (at level 8, f at next level, left associativity, format "r  <| f  :=  v |>") : stdpp_scope.

(** ** Results: Rust's [Result<A, E>]. *)

Inductive result (E A : Type) : Type :=
| Ok (a : A)
| Err (e : E).
Arguments Ok {E A} a.
Arguments Err {E A} e.

#[export] Instance result_eq_dec {E A} `{EqDecision E, EqDecision A} : EqDecision (result E A).
Proof. solve_decision. Defined.

Definition result_bind {E A B} (f : A → result E B) (r : result E A) : result E B :=
  match r with Ok a => f a | Err e => Err e end.
Definition result_map {E A B} (f : A → B) (r : result E A) : result E B :=
  match r with Ok a => Ok (f a) | Err e => Err e end.
#[export] Instance result_mret {E} : MRet (result E) := λ A a, Ok a.
#[export] Instance result_mbind {E} : MBind (result E) := λ A B f r, result_bind f r.
#[export] Instance result_fmap {E} : FMap (result E) := λ A B f r, result_map f r.

Definition map_err {E F A} (f : E → F) (r : result E A) : result F A :=
  match r with Ok a => Ok a | Err e => Err (f e) end.
Definition ok {E A} (r : result E A) : option A :=
  match r with Ok a => Some a | Err _ => None end.
Definition ok_or {E A} (e : E) (o : option A) : result E A :=
  match o with Some a => Ok a | None => Err e end.
Definition is_ok {E A} (r : result E A) : bool :=
  match r with Ok _ => true | Err _ => false end.

(** ** Effects: a state and error monad whose [None] is an exhausted fuel.

    A method of the source that takes [&mut self] and returns a [Result] is a
    value of [M S E A]: it maps the state it starts in to its result and the
    state it leaves, which an error does not roll back. *)

Definition M (S E A : Type) : Type := S → option (result E A * S).

#[export] Instance M_mret {S E} : MRet (M S E) := λ A a s, Some (Ok a, s).
#[export] Instance M_mbind {S E} : MBind (M S E) := λ A B f c s,
  match c s with
  | Some (Ok a, s') => f a s'
  | Some (Err e, s') => Some (Err e, s')
  | None => None
  end.
Definition fail {S E A} (e : E) : M S E A := λ s, Some (Err e, s).
Definition gets {S E A} (f : S → A) : M S E A := λ s, Some (Ok (f s), s).
Definition modify {S E} (f : S → S) : M S E unit := λ s, Some (Ok tt, f s).

(** Total correctness: from [s] the computation answers, and its answer and the
    state it leaves satisfy [Q]. *)
Definition wp {S E A} (c : M S E A) (Q : result E A → S → Prop) (s : S) : Prop :=
  ∃ r s', c s = Some (r, s') ∧ Q r s'.
Definition hoare {S E A} (P : S → Prop) (c : M S E A) (Q : result E A → S → Prop) : Prop :=
  ∀ s, P s → wp c Q s.

Section wp.
Context {S E : Type}.
Implicit Types s : S.

Lemma wp_mono {A} (c : M S E A) (Q Q' : result E A → S → Prop) s :
  wp c Q' s → (∀ r s', Q' r s' → Q r s') → wp c Q s.
Proof. intros (r & s' & Hc & HQ) HQQ. exists r, s'. auto. Qed.
Lemma wp_bind {A B} (c : M S E A) (k : A → M S E B) (Q : result E B → S → Prop) s :
  wp c (λ r s', match r with Ok a => wp (k a) Q s' | Err e => Q (Err e) s' end) s →
  wp (c ≫= k) Q s.
Proof.
  intros ([a|e] & s1 & Hc & H); unfold wp, mbind, M_mbind; rewrite Hc; [done|].
  by exists (Err e), s1.
Qed.
(** Composition with a specification of the first part. *)
Lemma wp_seq {A B} P R (c : M S E A) (k : A → M S E B) (Q : result E B → S → Prop) s :
  hoare P c R → P s →
  (∀ r s', R r s' → match r with Ok a => wp (k a) Q s' | Err e => Q (Err e) s' end) →
  wp (c ≫= k) Q s.
Proof. intros Hc Hs Hk. apply wp_bind. eapply wp_mono; [by apply Hc|done]. Qed.
Lemma wp_ret {A} (a : A) (Q : result E A → S → Prop) s : Q (Ok a) s → wp (mret a) Q s.
Proof. by exists (Ok a), s. Qed.
Lemma wp_gets {A B} (f : S → A) (k : A → M S E B) (Q : result E B → S → Prop) s :
  wp (k (f s)) Q s → wp (gets f ≫= k) Q s.
Proof. intros H. apply wp_bind. by exists (Ok (f s)), s. Qed.
Lemma wp_modify {B} (f : S → S) (k : unit → M S E B) (Q : result E B → S → Prop) s :
  wp (k tt) Q (f s) → wp (modify f ≫= k) Q s.
Proof. intros H. apply wp_bind. by exists (Ok tt), (f s). Qed.
Lemma wp_elim {A} (c : M S E A) (Q : result E A → S → Prop) s r s' :
  wp c Q s → c s = Some (r, s') → Q r s'.
Proof. intros (r1 & s1 & Hc & HQ) Hc'. congruence. Qed.
Lemma hoare_conseq {A} P P' (c : M S E A) Q Q' :
  hoare P' c Q' → (∀ s, P s → P' s) → (∀ r s, Q' r s → Q r s) → hoare P c Q.
Proof. intros H HP HQ s Hs. eapply wp_mono; [by apply H, HP|done]. Qed.
End wp.

(** ** Bytes and strings

    A Rust [Vec<u8>] is a list of 8-bit characters. A Rust [str] is one too: its
    UTF-8 encoding, so that [len], byte offsets and slices mean what they mean
    in the source. *)

Abbreviation bytes := (list ascii).
Definition lit (s : string) : bytes := list_ascii_of_string s.
Declare Scope bytes_scope.
Delimit Scope bytes_scope with bytes.
Notation "'b#' s" := (lit s%string) (at level 1, format "b# s") : bytes_scope.
#[global] Open Scope bytes_scope.

Definition CR : ascii := "013"%char.
Definition LF : ascii := "010"%char.
Definition crlf : bytes := [CR; LF].

Definition byte_val (c : ascii) : N := N_of_ascii c.

(** ** Machine integers *)

Definition U16_MAX : Z := 65535.
Definition U32_MAX : Z := 4294967295.
Definition U64_MAX : Z := 18446744073709551615.
Definition I64_MAX : Z := 9223372036854775807.
Definition I64_MIN : Z := -9223372036854775808.

Definition in_i64 (z : Z) : Prop := (I64_MIN ≤ z ≤ I64_MAX)%Z.
(** The [saturating_*] operations of [i64]. *)
Definition sat_i64 (z : Z) : Z := Z.max I64_MIN (Z.min I64_MAX z).
(** The [saturating_*] operations of [u64]. *)
Definition sat_u64 (z : Z) : Z := Z.max 0 (Z.min U64_MAX z).
(** [as u64] of an [i64], and the wrap-around of unchecked [u64] arithmetic. *)
Definition wrap_u64 (z : Z) : Z := (z mod 2 ^ 64)%Z.
(** The wrap-around of unchecked [i64] arithmetic. *)
Definition wrap_i64 (z : Z) : Z := ((z + 2 ^ 63) mod 2 ^ 64 - 2 ^ 63)%Z.

Lemma sat_i64_in z : in_i64 (sat_i64 z).
Proof. unfold in_i64, sat_i64, I64_MIN, I64_MAX. lia. Qed.
Lemma sat_i64_id z : in_i64 z → sat_i64 z = z.
Proof. unfold in_i64, sat_i64. lia. Qed.

(** ** Lemmas on lists the components share *)

Section lists.
Context {A : Type}.
Implicit Types l k : list A.

Lemma drop_app_len l k : drop (length l) (l ++ k) = k.
Proof. by rewrite drop_app_length. Qed.
Lemma take_app_len l k : take (length l) (l ++ k) = l.
Proof. by rewrite take_app_length. Qed.
Lemma nil_length_inv' l : length l = 0 → l = [].
Proof. by destruct l. Qed.
Lemma last_take_length l k : l `prefix_of` k → l = take (length l) k.
Proof. intros [m ->]. by rewrite take_app_length. Qed.

Lemma filter_all (P : A → Prop) `{∀ x, Decision (P x)} l :
  Forall P l → filter P l = l.
Proof. induction 1; [done|]. rewrite filter_cons_True; congruence. Qed.
Lemma filter_none (P : A → Prop) `{∀ x, Decision (P x)} l :
  Forall (λ x, ¬ P x) l → filter P l = [].
Proof. induction 1; [done|]. by rewrite filter_cons_False. Qed.
End lists.
(** An element of a list without duplicate keys is known by its key. *)
Lemma NoDup_key_inj {A K} (f : A → K) l x y : NoDup (map f l) → x ∈ l → y ∈ l → f x = f y → x = y.
Proof.
  induction l as [|z l IH]; intros Hnd Hx Hy Heq; [by apply elem_of_nil in Hx|].
  simpl in Hnd. inversion_clear Hnd as [|? ? Hz Hnd'].
  assert (Hin : ∀ u, u ∈ l → f u ∈ map f l) by (intros u Hu; by apply list_elem_of_fmap_2).
  apply elem_of_cons in Hx as [->|Hx], Hy as [->|Hy]; [done| | |by apply IH].
  - rewrite Heq in Hz. by apply Hin in Hy.
  - rewrite <- Heq in Hz. by apply Hin in Hx.
Qed.

(** ** Tactics *)

(** Splits a boolean conjunction, disjunction or negation of the context. *)
Ltac bools :=
  repeat match goal with
  | H : andb _ _ = true |- _ => apply andb_true_iff in H; destruct H
  | H : orb _ _ = false |- _ => apply orb_false_iff in H; destruct H
  | H : negb _ = true |- _ => apply negb_true_iff in H
  | H : negb _ = false |- _ => apply negb_false_iff in H
  end.

(** Case analysis on the scrutinee of every match of the goal, keeping equations. *)
Ltac cases := repeat (case_match; simplify_eq/=).

#[global] Create HintDb rustmail.
#[export] Hint Resolve sat_i64_in : rustmail.
