(* ===== verification/RustStd.v ===== *)
(** The operations of the Rust standard library the program uses on strings,
    byte slices and integers, on the UTF-8 bytes of a [str]. An operation the
    source calls with an ASCII pattern works byte by byte, which is what the
    library does on UTF-8; white space and lossy decoding are the Unicode ones. *)
From S2P Require Import Prelude.

(** ** Characters *)

Definition byte_in (lo hi : N) (c : ascii) : bool :=
  (lo <=? byte_val c)%N && (byte_val c <=? hi)%N.
Definition is_ascii_digit : ascii → bool := byte_in 48 57.
Definition is_ascii_uppercase : ascii → bool := byte_in 65 90.
Definition is_ascii_lowercase : ascii → bool := byte_in 97 122.
Definition is_ascii_alphabetic (c : ascii) : bool :=
  is_ascii_uppercase c || is_ascii_lowercase c.
Definition is_ascii_alphanumeric (c : ascii) : bool :=
  is_ascii_alphabetic c || is_ascii_digit c.
Definition is_ascii (c : ascii) : bool := (byte_val c <? 128)%N.
(** [u8::is_ascii_whitespace]: space, tab, LF, form feed and CR. *)
Definition is_ascii_whitespace (c : ascii) : bool :=
  existsb (Ascii.eqb c) ["032"; "009"; "010"; "012"; "013"]%char.

Definition to_upper (c : ascii) : ascii :=
  if is_ascii_lowercase c then ascii_of_N (byte_val c - 32) else c.
Definition to_lower (c : ascii) : ascii :=
  if is_ascii_uppercase c then ascii_of_N (byte_val c + 32) else c.
Definition to_ascii_uppercase : bytes → bytes := map to_upper.
Definition to_ascii_lowercase : bytes → bytes := map to_lower.

Fixpoint beqb (a b : bytes) : bool :=
  match a, b with
  | [], [] => true
  | x :: a, y :: b => Ascii.eqb x y && beqb a b
  | _, _ => false
  end.
Definition eq_ignore_ascii_case (a b : bytes) : bool :=
  beqb (to_ascii_lowercase a) (to_ascii_lowercase b).

(** ** Prefixes, suffixes, searching and splitting *)

Fixpoint strip_prefix (p s : bytes) : option bytes :=
  match p, s with
  | [], _ => Some s
  | x :: p, y :: s => if Ascii.eqb x y then strip_prefix p s else None
  | _ :: _, [] => None
  end.
Definition starts_with (p s : bytes) : bool :=
  match strip_prefix p s with Some _ => true | None => false end.
Definition strip_suffix (p s : bytes) : option bytes :=
  match strip_prefix (rev p) (rev s) with Some r => Some (rev r) | None => None end.
Definition ends_with (p s : bytes) : bool :=
  match strip_suffix p s with Some _ => true | None => false end.

Fixpoint find (c : ascii) (s : bytes) : option nat :=
  match s with
  | [] => None
  | x :: s => if Ascii.eqb x c then Some 0 else S <$> find c s
  end.
Fixpoint rfind (c : ascii) (s : bytes) : option nat :=
  match s with
  | [] => None
  | x :: s =>
    match rfind c s with
    | Some i => Some (S i)
    | None => if Ascii.eqb x c then Some 0 else None
    end
  end.
Definition contains (c : ascii) (s : bytes) : bool := existsb (Ascii.eqb c) s.

(** [&s[lo..hi]] for bounds the source has checked. *)
Definition slice (lo hi : nat) (s : bytes) : bytes := take (hi - lo) (drop lo s).

Definition split_once (c : ascii) (s : bytes) : option (bytes * bytes) :=
  match find c s with
  | Some i => Some (take i s, drop (S i) s)
  | None => None
  end.
Definition rsplit_once (c : ascii) (s : bytes) : option (bytes * bytes) :=
  match rfind c s with
  | Some i => Some (take i s, drop (S i) s)
  | None => None
  end.
(** [split] on a predicate: always at least one piece. *)
Fixpoint split_on (p : ascii → bool) (s : bytes) : list bytes :=
  match s with
  | [] => [[]]
  | x :: s =>
    if p x then [] :: split_on p s
    else match split_on p s with
         | w :: ws => (x :: w) :: ws
         | [] => [[x]]
         end
  end.
Definition split (c : ascii) : bytes → list bytes := split_on (λ x, Ascii.eqb x c).
(** [splitn(n, c)]: at most [n] pieces, the last one unsplit. *)
Fixpoint splitn (n : nat) (c : ascii) (s : bytes) : list bytes :=
  match n with
  | 0 => []
  | 1 => [s]
  | S n =>
    match split_once c s with
    | Some (w, rest) => w :: splitn n c rest
    | None => [s]
    end
  end.
Fixpoint join (sep : bytes) (ws : list bytes) : bytes :=
  match ws with
  | [] => []
  | [w] => w
  | w :: ws => w ++ sep ++ join sep ws
  end.

(** [split_ascii_whitespace]: the non-empty runs between ASCII white space. *)
Definition nonempty (s : bytes) : bool := match s with [] => false | _ => true end.
Definition split_ascii_whitespace (s : bytes) : list bytes :=
  List.filter nonempty (split_on is_ascii_whitespace s).

(** ** White space: [char::is_whitespace], by its UTF-8 encodings *)

Definition whitespace : list bytes :=
  [["009"]; ["010"]; ["011"]; ["012"]; ["013"]; ["032"];
   ["194"; "133"]; ["194"; "160"]; ["225"; "154"; "128"];
   ["226"; "128"; "128"]; ["226"; "128"; "129"]; ["226"; "128"; "130"];
   ["226"; "128"; "131"]; ["226"; "128"; "132"]; ["226"; "128"; "133"];
   ["226"; "128"; "134"]; ["226"; "128"; "135"]; ["226"; "128"; "136"];
   ["226"; "128"; "137"]; ["226"; "128"; "138"]; ["226"; "128"; "168"];
   ["226"; "128"; "169"]; ["226"; "128"; "175"]; ["226"; "129"; "159"];
   ["227"; "128"; "128"]]%char.

(** The first of [ws] that is a prefix of [s], taken off it. *)
Definition strip_any (ws : list bytes) (s : bytes) : option bytes :=
  match list_find (λ w, starts_with w s = true) ws with
  | Some (_, w) => strip_prefix w s
  | None => None
  end.
Fixpoint trim_while (fuel : nat) (ws : list bytes) (s : bytes) : bytes :=
  match fuel with
  | 0 => s
  | S fuel => match strip_any ws s with Some r => trim_while fuel ws r | None => s end
  end.
(** Each round takes at least a byte off, so the length is fuel enough. *)
Definition trim_start (s : bytes) : bytes := trim_while (length s) whitespace s.
Definition trim_end (s : bytes) : bytes :=
  rev (trim_while (length s) (map (@rev ascii) whitespace) (rev s)).
Definition trim (s : bytes) : bytes := trim_end (trim_start s).

(** [split_whitespace]: the non-empty runs between Unicode white space. *)
Fixpoint words (fuel : nat) (cur s : bytes) : list bytes :=
  match fuel, s with
  | S fuel, x :: s' =>
    match strip_any whitespace s with
    | Some r => rev cur :: words fuel [] r
    | None => words fuel (x :: cur) s'
    end
  | _, _ => [rev cur]
  end.
Definition split_whitespace (s : bytes) : list bytes :=
  List.filter nonempty (words (length s) [] s).

(** ** Lossy UTF-8 decoding: [String::from_utf8_lossy] *)

Definition is_cont : ascii → bool := byte_in 128 191.
Definition second_ok (lead second : ascii) : bool :=
  let v := byte_val lead in
  if (v =? 224)%N then byte_in 160 191 second
  else if (v =? 237)%N then byte_in 128 159 second
  else if (v =? 240)%N then byte_in 144 191 second
  else if (v =? 244)%N then byte_in 128 143 second
  else is_cont second.
(** Whether the bytes at the front of [lead :: rest] are a whole character,
    and how many bytes of [rest] belong to it or to the invalid sequence. *)
Definition decode (lead : ascii) (rest : bytes) : bool * nat :=
  let get i p := match rest !! i with Some c => p c | None => false end in
  if is_ascii lead then (true, 0)
  else if byte_in 194 223 lead then if get 0 is_cont then (true, 1) else (false, 0)
  else if byte_in 224 239 lead then
    if get 0 (second_ok lead) then if get 1 is_cont then (true, 2) else (false, 1)
    else (false, 0)
  else if byte_in 240 244 lead then
    if get 0 (second_ok lead) then
      if get 1 is_cont then if get 2 is_cont then (true, 3) else (false, 2)
      else (false, 1)
    else (false, 0)
  else (false, 0).
Definition replacement : bytes := ["239"; "191"; "189"]%char.
(** The characters of [s], an invalid sequence replaced by U+FFFD. *)
Fixpoint chars_lossy (fuel : nat) (s : bytes) : list bytes :=
  match fuel, s with
  | S fuel, c :: s =>
    let '(valid, n) := decode c s in
    (if valid then c :: take n s else replacement) :: chars_lossy fuel (drop n s)
  | _, _ => []
  end.
Definition from_utf8_lossy (s : bytes) : bytes := concat (chars_lossy (length s) s).
(** [chars], each as its UTF-8 bytes. *)
Definition chars (s : bytes) : list bytes := chars_lossy (length s) s.

(** ** Integer parsing: [str::parse] *)

Module IntErrorKind.
Inductive t := Empty | InvalidDigit | PosOverflow | NegOverflow.
#[export] Instance eq_dec : EqDecision t.
Proof. solve_decision. Defined.
End IntErrorKind.
Export (hints) IntErrorKind.

Definition digit_val (c : ascii) : Z := Z.of_N (byte_val c) - 48.
Fixpoint parse_pos (max acc : Z) (s : bytes) : result IntErrorKind.t Z :=
  match s with
  | [] => Ok acc
  | c :: s =>
    if is_ascii_digit c then
      let n := (acc * 10 + digit_val c)%Z in
      if (n <=? max)%Z then parse_pos max n s else Err IntErrorKind.PosOverflow
    else Err IntErrorKind.InvalidDigit
  end.
Fixpoint parse_neg (min acc : Z) (s : bytes) : result IntErrorKind.t Z :=
  match s with
  | [] => Ok acc
  | c :: s =>
    if is_ascii_digit c then
      let n := (acc * 10 - digit_val c)%Z in
      if (min <=? n)%Z then parse_neg min n s else Err IntErrorKind.NegOverflow
    else Err IntErrorKind.InvalidDigit
  end.
(** [parse::<uN>()] with largest value [max]. *)
Definition parse_unsigned (max : Z) (s : bytes) : result IntErrorKind.t Z :=
  match s with
  | [] => Err IntErrorKind.Empty
  | ["+"] | ["-"] => Err IntErrorKind.InvalidDigit
  | "+" :: s => parse_pos max 0 s
  | _ => parse_pos max 0 s
  end%char.
Definition parse_u64 := parse_unsigned U64_MAX.
Definition parse_u16 := parse_unsigned U16_MAX.
(** [parse::<iN>()] with smallest value [min] and largest [max]. *)
Definition parse_signed (min max : Z) (s : bytes) : result IntErrorKind.t Z :=
  match s with
  | [] => Err IntErrorKind.Empty
  | ["+"] | ["-"] => Err IntErrorKind.InvalidDigit
  | "+" :: s => parse_pos max 0 s
  | "-" :: s => parse_neg min 0 s
  | _ => parse_pos max 0 s
  end%char.
Definition parse_i64 := parse_signed I64_MIN I64_MAX.
Definition parse_i32 := parse_signed (-2147483648) 2147483647.
(** [parse::<bool>()]. *)
Definition parse_bool (s : bytes) : option bool :=
  if beqb s b#"true" then Some true else if beqb s b#"false" then Some false else None.

(** [to_string] of an unsigned integer. *)
Fixpoint digits (fuel : nat) (n : N) : bytes :=
  match fuel with
  | 0 => []
  | S fuel =>
    (if (n <? 10)%N then [] else digits fuel (n / 10)) ++ [ascii_of_N (48 + n mod 10)]
  end.
(** A number of [k] bits has at most [k] decimal digits. *)
Definition display_N (n : N) : bytes := digits (S (N.size_nat n)) n.
Definition display_Z (z : Z) : bytes :=
  if (z <? 0)%Z then "-"%char :: display_N (Z.to_N (- z)) else display_N (Z.to_N z).

(** ** Laws *)

Lemma beqb_spec a b : beqb a b = true ↔ a = b.
Proof.
  revert b; induction a as [|x a IH]; intros [|y b]; simpl; try done.
  rewrite andb_true_iff, IH, Ascii.eqb_eq. naive_solver.
Qed.
Lemma beqb_refl a : beqb a a = true.
Proof. by apply beqb_spec. Qed.
Lemma beqb_false a b : beqb a b = false ↔ a ≠ b.
Proof. rewrite <- not_true_iff_false, beqb_spec. done. Qed.

Lemma strip_prefix_spec p s r : strip_prefix p s = Some r ↔ s = p ++ r.
Proof.
  revert s; induction p as [|x p IH]; intros s; simpl; [naive_solver|].
  destruct s as [|y s]; [done|].
  destruct (Ascii.eqb_spec x y) as [->|]; [rewrite IH; naive_solver|].
  naive_solver.
Qed.
Lemma starts_with_spec p s : starts_with p s = true ↔ ∃ r, s = p ++ r.
Proof.
  unfold starts_with. destruct (strip_prefix p s) as [r|] eqn:E.
  - apply strip_prefix_spec in E. naive_solver.
  - split; [done|]. intros [r Hr]. apply strip_prefix_spec in Hr. congruence.
Qed.
Lemma strip_suffix_spec p s r : strip_suffix p s = Some r ↔ s = r ++ p.
Proof.
  unfold strip_suffix. destruct (strip_prefix (rev p) (rev s)) as [t|] eqn:E.
  - apply strip_prefix_spec in E. apply (f_equal (@rev ascii)) in E.
    rewrite rev_app_distr, !rev_involutive in E. subst s.
    split; [naive_solver|]. intros H%app_inv_tail. by subst r.
  - split; [done|]. intros ->. rewrite rev_app_distr in E.
    assert (strip_prefix (rev p) (rev p ++ rev r) = Some (rev r)) by by apply strip_prefix_spec.
    congruence.
Qed.
Lemma ends_with_spec p s : ends_with p s = true ↔ ∃ r, s = r ++ p.
Proof.
  unfold ends_with. destruct (strip_suffix p s) as [r|] eqn:E.
  - apply strip_suffix_spec in E. naive_solver.
  - split; [done|]. intros [r Hr]. apply strip_suffix_spec in Hr. congruence.
Qed.

Lemma find_Some c s i :
  find c s = Some i ↔ ∃ a b, s = a ++ c :: b ∧ i = length a ∧ c ∉ a.
Proof.
  revert i; induction s as [|x s IH]; intros i; simpl.
  { split; [done|]. by intros ([|??] & ? & ? & ?). }
  destruct (Ascii.eqb_spec x c) as [->|Hne].
  - split.
    + intros [= <-]. exists [], s. split_and!; try done. apply not_elem_of_nil.
    + intros ([|y a] & b & E & -> & Hn); [done|]. simplify_eq/=. set_solver.
  - rewrite fmap_Some. split.
    + intros (j & (a & b & -> & -> & Hn)%IH & ->). exists (x :: a), b. set_solver.
    + intros ([|y a] & b & E & -> & Hn); simplify_eq/=.
      exists (length a). split; [|done]. apply IH. exists a, b. set_solver.
Qed.
Lemma find_None c s : find c s = None ↔ c ∉ s.
Proof.
  induction s as [|x s IH]; simpl; [split; [intros _; apply not_elem_of_nil|done]|].
  destruct (Ascii.eqb_spec x c) as [->|Hne]; [set_solver|].
  rewrite fmap_None, IH. set_solver.
Qed.
Lemma split_once_spec c s a b : split_once c s = Some (a, b) ↔ s = a ++ c :: b ∧ c ∉ a.
Proof.
  unfold split_once. destruct (find c s) as [i|] eqn:E.
  - apply find_Some in E as (p & q & -> & -> & Hn).
    rewrite take_app_length, drop_app_ge by lia.
    replace (S (length p) - length p) with 1 by lia. simpl. rewrite drop_0.
    split; [naive_solver|]. intros [Heq Hn'].
    assert (∀ (p a q b : bytes), p ++ c :: q = a ++ c :: b → c ∉ p → c ∉ a → p = a ∧ q = b)
      as Hinj.
    { clear. induction p as [|x p IH]; intros [|y a] q b; simpl; intros; simplify_eq; set_solver. }
    by destruct (Hinj p a q b) as [-> ->].
  - apply find_None in E. split; [done|]. intros [-> _]. set_solver.
Qed.
Lemma split_once_None c s : split_once c s = None ↔ c ∉ s.
Proof. unfold split_once. rewrite <- find_None. by destruct (find c s). Qed.

Lemma contains_spec c s : contains c s = true ↔ c ∈ s.
Proof.
  unfold contains. rewrite existsb_exists. setoid_rewrite Ascii.eqb_eq.
  rewrite list_elem_of_In. naive_solver.
Qed.

#[export] Hint Rewrite beqb_spec starts_with_spec ends_with_spec contains_spec : rustmail.

(** *** Integers print and parse back *)

Lemma digit_char n : (n < 10)%N → is_ascii_digit (ascii_of_N (48 + n)) = true ∧ digit_val (ascii_of_N (48 + n)) = Z.of_N n.
Proof.
  intros Hn. unfold is_ascii_digit, byte_in, digit_val, byte_val. rewrite N_ascii_embedding by lia.
  rewrite andb_true_iff, !N.leb_le. lia.
Qed.
Lemma parse_pos_digits fuel n max s : (n < 10 ^ N.of_nat fuel)%N → (Z.of_N n ≤ max)%Z →
  parse_pos max 0 (digits fuel n ++ s) = parse_pos max (Z.of_N n) s.
Proof.
  revert n s. induction fuel as [|fuel IH]; intros n s Hn Hmax; cbn [digits].
  { simpl in Hn. by replace n with 0%N by lia. }
  assert (Hmod : (n mod 10 < 10)%N) by (apply N.mod_lt; lia).
  assert (Hdm := N.div_mod n 10 ltac:(lia)).
  assert (Hstep : ∀ acc, (acc * 10 + Z.of_N (n mod 10) = Z.of_N n)%Z →
    parse_pos max acc ([ascii_of_N (48 + n mod 10)] ++ s) = parse_pos max (Z.of_N n) s).
  { intros acc Hacc. cbn [app parse_pos]. destruct (digit_char _ Hmod) as [-> ->].
    rewrite Hacc. by rewrite (proj2 (Z.leb_le _ _)). }
  assert (Hz : Z.of_N n = (10 * Z.of_N (n / 10) + Z.of_N (n mod 10))%Z) by (rewrite Hdm at 1; lia).
  rewrite <- app_assoc. destruct (N.ltb_spec n 10) as [Hlt|Hge].
  { apply Hstep. rewrite N.mod_small by done. lia. } rewrite IH; [apply Hstep; lia| |].
  - rewrite Nat2N.inj_succ, N.pow_succ_r' in Hn. apply N.Div0.div_lt_upper_bound. lia.
  - clear Hstep IH Hn. generalize dependent (n mod 10)%N. generalize (n / 10)%N. intros; lia.
Qed.
Lemma size_nat_bound n : (n < 10 ^ N.of_nat (S (N.size_nat n)))%N.
Proof.
  assert (Hs : (n < 2 ^ N.of_nat (N.size_nat n))%N).
  { destruct n as [|p]; [simpl; lia|]. simpl. induction p as [p IH|p IH|]; simpl Pos.size_nat;
      rewrite ?Nat2N.inj_succ, ?N.pow_succ_r'; try lia. }
  rewrite Nat2N.inj_succ, N.pow_succ_r'.
  assert ((2 ^ N.of_nat (N.size_nat n) ≤ 10 ^ N.of_nat (N.size_nat n))%N) by (apply N.pow_le_mono_l; lia).
  lia.
Qed.
Lemma display_N_head n : ∃ c s, display_N n = c :: s ∧ is_ascii_digit c = true.
Proof.
  unfold display_N. generalize (N.size_nat n). intros f. revert n. induction f as [|f IH]; intros n; cbn [digits].
  - assert (Hm : (n mod 10 < 10)%N) by (apply N.mod_lt; lia).
    destruct (n <? 10)%N; eexists _, []; by (split; [done|apply digit_char]).
  - assert (Hm : (n mod 10 < 10)%N) by (apply N.mod_lt; lia). destruct (n <? 10)%N.
    + eexists _, []. by split; [|apply digit_char].
    + destruct (IH (n / 10)%N) as (c & s & Heq & Hc). cbn [digits] in Heq. rewrite Heq. by eexists _, _.
Qed.
Lemma digits_digits f n : forallb is_ascii_digit (digits f n) = true.
Proof.
  revert n. induction f as [|f IH]; intros n; cbn [digits]; [done|]. rewrite forallb_app, andb_true_iff.
  assert (Hm : (n mod 10 < 10)%N) by (apply N.mod_lt; lia). split.
  - destruct (n <? 10)%N; [done|apply IH].
  - cbn [forallb]. by destruct (digit_char _ Hm) as [-> _].
Qed.
(** [parse] reads back what [to_string] prints, up to the type's largest value. *)
Lemma parse_display max n : (Z.of_N n ≤ max)%Z → parse_unsigned max (display_N n) = Ok (Z.of_N n).
Proof.
  intros Hn. assert (Hp := parse_pos_digits (S (N.size_nat n)) n max [] (size_nat_bound n) Hn).
  rewrite app_nil_r in Hp. fold (display_N n) in Hp. cbn [parse_pos] in Hp. rewrite <- Hp.
  destruct (display_N_head n) as (c & s & -> & Hc). unfold parse_unsigned.
  destruct c as [[] [] [] [] [] [] [] []]; try done; by destruct s.
Qed.

(** ** Splitting and trimming *)

Lemma split_on_app p w x s :
  forallb (λ c, negb (p c)) w = true → p x = true → split_on p (w ++ x :: s) = w :: split_on p s.
Proof.
  intros Hw Hx. induction w as [|c w IH]; simpl; [by rewrite Hx|].
  apply andb_true_iff in Hw as [Hc Hw]. apply negb_true_iff in Hc. by rewrite Hc, IH.
Qed.
Lemma split_on_none p w : forallb (λ c, negb (p c)) w = true → split_on p w = [w].
Proof.
  intros Hw. induction w as [|c w IH]; simpl; [done|].
  apply andb_true_iff in Hw as [Hc Hw]. apply negb_true_iff in Hc. by rewrite Hc, IH.
Qed.

(** The printable ASCII characters but the space; none begins a white space or is
    the last byte of one. *)
Definition visible : ascii → bool := byte_in 33 126.
Definition blank (c : ascii) : bool := bool_decide (c ∈ ["009"; LF; CR; " "]%char).
(** A text that trimming leaves alone. *)
Definition framed (s : bytes) : Prop :=
  (∃ c, head s = Some c ∧ visible c = true) ∧ ∃ c, last s = Some c ∧ visible c = true.

Lemma strip_any_visible ws c s :
  forallb (λ w, match w with x :: _ => negb (visible x) | [] => false end) ws = true →
  visible c = true → strip_any ws (c :: s) = None.
Proof.
  intros Hws Hc. unfold strip_any.
  replace (list_find _ ws) with (@None (nat * bytes)); [done|]. symmetry. apply list_find_None.
  rewrite forallb_forall in Hws. apply Forall_forall. intros w Hw%list_elem_of_In. specialize (Hws _ Hw).
  destruct w as [|x w]; [done|]. intros (r & [= -> _])%starts_with_spec. by rewrite Hc in Hws.
Qed.
Lemma trim_while_visible ws fuel c s :
  forallb (λ w, match w with x :: _ => negb (visible x) | [] => false end) ws = true →
  visible c = true → trim_while fuel ws (c :: s) = c :: s.
Proof. intros Hws Hc. destruct fuel; simpl; [done|]. by rewrite strip_any_visible. Qed.

Lemma strip_any_blank c s : blank c = true →
  strip_any whitespace (c :: s) = Some s ∧ strip_any (map (@rev ascii) whitespace) (c :: s) = Some s.
Proof.
  intros Hc%bool_decide_eq_true_1.
  repeat (apply elem_of_cons in Hc as [->|Hc]; [by split|]). by apply elem_of_nil in Hc.
Qed.
Lemma trim_while_blanks ws fuel pre s :
  (∀ c s, blank c = true → strip_any ws (c :: s) = Some s) →
  forallb blank pre = true → length pre ≤ fuel →
  trim_while fuel ws (pre ++ s) = trim_while (fuel - length pre) ws s.
Proof.
  intros Hws. revert fuel. induction pre as [|c pre IH]; intros fuel Hp Hf; simpl; [by rewrite Nat.sub_0_r|].
  apply andb_true_iff in Hp as [Hc Hp]. destruct fuel as [|fuel]; simpl in *; [lia|].
  rewrite Hws by done. apply IH; [done|lia].
Qed.

(** Blanks around a text that starts and ends with a visible character are taken
    off. *)
Lemma trim_blanks pre s post :
  forallb blank pre = true → forallb blank post = true → framed s → trim (pre ++ s ++ post) = s.
Proof.
  intros Hpre Hpost [(c & Hc & Hvc) (d & Hd & Hvd)]. unfold trim, trim_start.
  assert (Hs : trim_while (length (pre ++ s ++ post)) whitespace (pre ++ s ++ post) = s ++ post).
  { rewrite trim_while_blanks; [|by apply strip_any_blank|done|rewrite length_app; lia].
    destruct s as [|x s]; simplify_eq/=. by apply trim_while_visible. }
  rewrite Hs. unfold trim_end. rewrite rev_app_distr.
  rewrite trim_while_blanks; [|by apply strip_any_blank| |rewrite length_rev, length_app; lia].
  - destruct (rev s) as [|x r] eqn:Hr.
    { apply (f_equal (@rev _)) in Hr. rewrite rev_involutive in Hr. by subst. }
    assert (x = d) as ->.
    { apply (f_equal (@rev _)) in Hr. rewrite rev_involutive in Hr. subst s. simpl in Hd.
      by rewrite last_snoc in Hd; simplify_eq. }
    rewrite trim_while_visible by done. by rewrite <- Hr, rev_involutive.
  - rewrite forallb_forall in Hpost |- *. intros x Hx. apply Hpost. by apply in_rev.
Qed.
Lemma trim_framed s : framed s → trim s = s.
Proof. intros Hs. rewrite <- (app_nil_r s) at 1. by apply (trim_blanks [] s []). Qed.

(** Trimming ends where no white space is left, so that trimming again does
    nothing. *)
Lemma strip_any_None ws s : strip_any ws s = None ↔ Forall (λ w, starts_with w s = false) ws.
Proof.
  unfold strip_any. rewrite Forall_forall. split.
  - intros Hs w Hw. apply not_true_iff_false. intros Hp. destruct (list_find _ ws) as [[i x]|] eqn:Hf.
    + apply list_find_Some in Hf as (_ & [r Hr]%starts_with_spec & _). apply strip_prefix_spec in Hr. congruence.
    + apply list_find_None in Hf. rewrite Forall_forall in Hf. by apply (Hf w).
  - intros Hs. destruct (list_find _ ws) as [[i x]|] eqn:Hf; [|done].
    apply list_find_Some in Hf as (Hi & Hx & _). apply list_elem_of_lookup_2, Hs in Hi. congruence.
Qed.
Lemma strip_any_Some ws s r : strip_any ws s = Some r → ∃ w, w ∈ ws ∧ s = w ++ r.
Proof.
  unfold strip_any. destruct (list_find _ ws) as [[i x]|] eqn:Hf; [|done]. intros Hs%strip_prefix_spec.
  apply list_find_Some in Hf as (Hi & _). exists x. split; [by eapply list_elem_of_lookup_2|done].
Qed.
Lemma trim_while_suffix fuel ws s : ∃ p, s = p ++ trim_while fuel ws s.
Proof.
  revert s. induction fuel as [|fuel IH]; intros s; simpl; [by exists []|].
  destruct (strip_any ws s) as [r|] eqn:Hs; [|by exists []]. apply strip_any_Some in Hs as (w & _ & ->).
  destruct (IH r) as [p Hp]. exists (w ++ p). by rewrite <- app_assoc, <- Hp.
Qed.
Lemma trim_while_stops fuel ws s : [] ∉ ws → length s ≤ fuel → strip_any ws (trim_while fuel ws s) = None.
Proof.
  intros Hws. revert s. induction fuel as [|fuel IH]; intros s Hs; simpl.
  - destruct s; [|simpl in Hs; lia]. apply strip_any_None, Forall_forall. intros w Hw. by destruct w.
  - destruct (strip_any ws s) as [r|] eqn:Hr; [|done]. apply IH. apply strip_any_Some in Hr as (w & Hw & ->).
    rewrite length_app in Hs. destruct w; [done|]. simpl in Hs. lia.
Qed.
Lemma trim_while_fixed fuel ws s : strip_any ws s = None → trim_while fuel ws s = s.
Proof. intros Hs. destruct fuel; simpl; [done|]. by rewrite Hs. Qed.
Lemma trim_idem s : trim (trim s) = trim s.
Proof.
  assert (Hw : [] ∉ whitespace ∧ [] ∉ map (@rev ascii) whitespace) by (split; apply (bool_decide_unpack _); vm_compute; exact I).
  destruct Hw as [Hw Hwr]. unfold trim at 2 3. unfold trim_end.
  set (t := trim_start s). set (u := trim_while (length t) (map (@rev ascii) whitespace) (rev t)).
  assert (Ht : strip_any whitespace t = None) by by apply trim_while_stops.
  assert (Hu : strip_any (map (@rev ascii) whitespace) u = None) by (apply trim_while_stops; [done|by rewrite length_rev]).
  assert (Hpre : ∃ k, t = rev u ++ k).
  { destruct (trim_while_suffix (length t) (map (@rev ascii) whitespace) (rev t)) as [p Hp]. fold u in Hp.
    exists (rev p). by rewrite <- rev_app_distr, <- Hp, rev_involutive. }
  unfold trim. assert (Hs : trim_start (rev u) = rev u).
  { apply trim_while_fixed, strip_any_None. apply strip_any_None in Ht. rewrite Forall_forall in Ht |- *. intros w Hin.
    specialize (Ht w Hin). apply not_true_iff_false. intros [r Hr]%starts_with_spec. destruct Hpre as [k Hk].
    apply not_true_iff_false in Ht. apply Ht, starts_with_spec. exists (r ++ k). by rewrite Hk, Hr, app_assoc. }
  rewrite Hs. unfold trim_end. by rewrite rev_involutive, trim_while_fixed.
Qed.

(** The first word of a text. *)
Lemma words_visible w fuel cur s :
  forallb visible w = true → length w ≤ fuel →
  words fuel cur (w ++ s) = words (fuel - length w) (rev w ++ cur) s.
Proof.
  revert fuel cur. induction w as [|c w IH]; intros fuel cur Hw Hf; simpl; [by rewrite Nat.sub_0_r|].
  apply andb_true_iff in Hw as [Hc Hw]. destruct fuel as [|fuel]; simpl in *; [lia|].
  rewrite strip_any_visible by done. rewrite IH by (done || lia). by rewrite <- app_assoc.
Qed.
Lemma first_word w s : w ≠ [] → forallb visible w = true → (s = [] ∨ ∃ c r, s = c :: r ∧ blank c = true) →
  ∃ ws, split_whitespace (w ++ s) = w :: ws.
Proof.
  intros Hne Hw Hs. unfold split_whitespace. rewrite words_visible by (done || rewrite length_app; lia).
  rewrite app_nil_r, length_app. replace (length w + length s - length w) with (length s) by lia.
  assert (Hnw : nonempty (rev (rev w)) = true) by (rewrite rev_involutive; by destruct w).
  destruct Hs as [->|(c & r & -> & Hc)]; simpl.
  - rewrite Hnw, rev_involutive. by eexists.
  - destruct (strip_any_blank c r Hc) as [-> _]. simpl. rewrite Hnw, rev_involutive. by eexists.
Qed.

(** ** Hexadecimal *)

Definition hex_digit (n : N) : ascii := ascii_of_N (if (n <? 10)%N then 48 + n else 87 + n)%N.
(** [format!("{byte:02x}")]. *)
Definition hex_byte (c : ascii) : bytes := [hex_digit (byte_val c / 16)%N; hex_digit (byte_val c mod 16)%N].
Lemma hex_digit_inj a b : (a < 16)%N → (b < 16)%N → hex_digit a = hex_digit b → a = b.
Proof.
  intros Ha Hb Heq. unfold hex_digit in Heq. apply (f_equal N_of_ascii) in Heq.
  destruct (N.ltb_spec a 10), (N.ltb_spec b 10);
    rewrite !N_ascii_embedding in Heq by lia; lia.
Qed.
Lemma byte_nibbles c : (byte_val c / 16 < 16)%N ∧ (byte_val c mod 16 < 16)%N.
Proof.
  pose proof (N_ascii_bounded c). unfold byte_val. split; [|apply N.mod_lt; lia].
  apply N.Div0.div_lt_upper_bound. lia.
Qed.
Lemma hex_inj a b : concat (map hex_byte a) = concat (map hex_byte b) → a = b.
Proof.
  revert b. induction a as [|x a IH]; intros [|y b] Heq; try done. cbn in Heq. injection Heq as H1 H2 Heq.
  pose proof (byte_nibbles x) as [? ?]. pose proof (byte_nibbles y) as [? ?].
  apply hex_digit_inj in H1, H2; [|done..]. f_equal; [|by apply IH].
  assert (Hb : byte_val x = byte_val y).
  { rewrite (N.div_mod' (byte_val x) 16), (N.div_mod' (byte_val y) 16). congruence. }
  unfold byte_val in Hb. apply (f_equal ascii_of_N) in Hb. by rewrite !ascii_N_embedding in Hb.
Qed.
