(* ===== verification/Net.v ===== *)
(** [std::net::IpAddr]: its parser, as the standard library writes it, and the
    address tests the program uses. *)
From S2P Require Import Prelude RustStd.

(** An IPv4 address by its four octets, an IPv6 address by its eight segments. *)
Inductive IpAddr := V4 (octets : list N) | V6 (segments : list N).

(** [char::to_digit]. *)
Definition to_digit (radix : N) (c : ascii) : option N :=
  let d :=
    if is_ascii_digit c then Some (byte_val c - 48)%N
    else if byte_in 97 122 c then Some (byte_val c - 87)%N
    else if byte_in 65 90 c then Some (byte_val c - 55)%N
    else None in
  match d with Some n => if (n <? radix)%N then Some n else None | None => None end.

(** A parser takes a prefix off the input, or fails and takes nothing. *)
Abbreviation parser A := (bytes → option (A * bytes)).

Fixpoint read_digits (radix : N) (max : nat) (acc : N) (count : nat) (s : bytes) : option (N * nat * bytes) :=
  match s with
  | [] => Some (acc, count, s)
  | c :: s' =>
    match to_digit radix c with
    | None => Some (acc, count, s)
    | Some d => if max <? S count then None else read_digits radix max (acc * radix + d) (S count) s'
    end
  end.
Definition read_number (radix : N) (max_digits : nat) (allow_zero_prefix : bool) (max : N) : parser N := λ s,
  match read_digits radix max_digits 0 0 s with
  | None => None
  | Some (n, count, rest) =>
    if count =? 0 then None
    else if negb allow_zero_prefix && starts_with ["0"%char] s && (1 <? count) then None
    else if (n <=? max)%N then Some (n, rest) else None
  end.
Definition read_separator {A} (sep : ascii) (index : nat) (inner : parser A) : parser A := λ s,
  if index =? 0 then inner s
  else match s with c :: s => if Ascii.eqb c sep then inner s else None | [] => None end.

Fixpoint read_octets (n index : nat) : parser (list N) := λ s,
  match n with
  | 0 => Some ([], s)
  | S n =>
    match read_separator "." index (read_number 10 3 false 255) s with
    | None => None
    | Some (o, s) =>
      match read_octets n (S index) s with Some (os, s) => Some (o :: os, s) | None => None end
    end
  end.
Definition read_ipv4_addr : parser (list N) := read_octets 4 0.

(** The groups from [index] to [limit], [n] of them, and whether they end with
    an embedded IPv4 address. *)
Fixpoint read_groups (n index limit : nat) (s : bytes) : list N * bool * bytes :=
  match n with
  | 0 => ([], false, s)
  | S n =>
    match (if index <? limit - 1 then read_separator ":" index read_ipv4_addr s else None) with
    | Some ([one; two; three; four], rest) => ([one * 256 + two; three * 256 + four]%N, true, rest)
    | _ =>
      match read_separator ":" index (read_number 16 4 true 65535) s with
      | None => ([], false, s)
      | Some (group, rest) =>
        let '(groups, ipv4, rest) := read_groups n (S index) limit rest in (group :: groups, ipv4, rest)
      end
    end
  end.
Definition read_ipv6_addr : parser (list N) := λ s,
  let '(head, head_ipv4, s1) := read_groups 8 0 8 s in
  if length head =? 8 then Some (head, s1)
  else if head_ipv4 then None
  else match s1 with
       | ":"%char :: ":"%char :: s2 =>
         let limit := 8 - (length head + 1) in
         let '(tail, _, s3) := read_groups limit 0 limit s2 in
         Some (head ++ replicate (8 - length head - length tail) 0%N ++ tail, s3)
       | _ => None
       end.

(** [str::parse::<IpAddr>]. *)
Definition parse_ip (s : bytes) : option IpAddr :=
  match (match read_ipv4_addr s with
         | Some (o, rest) => Some (V4 o, rest)
         | None => match read_ipv6_addr s with Some (g, rest) => Some (V6 g, rest) | None => None end
         end) with
  | Some (ip, []) => Some ip
  | _ => None
  end.

(** ** Address tests *)

Definition octet (i : nat) (o : list N) : N := nth i o 0%N.
Definition v4_is_private (o : list N) : bool :=
  ((octet 0 o =? 10) || ((octet 0 o =? 172) && (16 <=? octet 1 o) && (octet 1 o <=? 31))
   || ((octet 0 o =? 192) && (octet 1 o =? 168)))%N.
Definition v4_is_loopback (o : list N) : bool := (octet 0 o =? 127)%N.
Definition v4_is_link_local (o : list N) : bool := ((octet 0 o =? 169) && (octet 1 o =? 254))%N.
Definition v4_is_broadcast (o : list N) : bool := bool_decide (o = [255; 255; 255; 255]%N).
Definition v4_is_unspecified (o : list N) : bool := bool_decide (o = [0; 0; 0; 0]%N).
Definition v6_is_loopback (g : list N) : bool := bool_decide (g = [0; 0; 0; 0; 0; 0; 0; 1]%N).
Definition v6_is_unspecified (g : list N) : bool := bool_decide (g = [0; 0; 0; 0; 0; 0; 0; 0]%N).
Definition to_ipv4_mapped (g : list N) : option (list N) :=
  match g with
  | [0; 0; 0; 0; 0; 65535; ab; cd]%N => Some [ab / 256; ab mod 256; cd / 256; cd mod 256]%N
  | _ => None
  end.

Example ip_v4 : parse_ip b#"192.168.0.255" = Some (V4 [192; 168; 0; 255]%N). Proof. reflexivity. Qed.
Example ip_octal : parse_ip b#"010.0.0.1" = None. Proof. reflexivity. Qed.
Example ip_large : parse_ip b#"256.0.0.1" = None. Proof. reflexivity. Qed.
Example ip_v6 : parse_ip b#"fe80::1" = Some (V6 [65152; 0; 0; 0; 0; 0; 0; 1]%N). Proof. reflexivity. Qed.
Example ip_mapped : parse_ip b#"::ffff:10.0.0.1" = Some (V6 [0; 0; 0; 0; 0; 65535; 2560; 1]%N).
Proof. reflexivity. Qed.
Example ip_bracketed : parse_ip b#"[::1]" = None. Proof. reflexivity. Qed.
Example ip_two_gaps : parse_ip b#"1::2::3" = None. Proof. reflexivity. Qed.

(** ** What an address is spelled with *)

Definition ip_char (c : ascii) : bool :=
  match to_digit 16 c with Some _ => true | None => existsb (Ascii.eqb c) ["."; ":"]%char end.

(** The parser takes a prefix of such characters. *)
Definition spelled {A} (p : parser A) : Prop :=
  ∀ s a rest, p s = Some (a, rest) → ∃ pre, s = pre ++ rest ∧ forallb ip_char pre = true.

Lemma to_digit_ip_char radix c d : (radix ≤ 16)%N → to_digit radix c = Some d → ip_char c = true.
Proof.
  unfold ip_char, to_digit. intros Hr.
  destruct (if is_ascii_digit c then _ else _) as [n|]; [|done].
  destruct (N.ltb_spec n radix); [|done]. by rewrite (proj2 (N.ltb_lt n 16)) by lia.
Qed.
Lemma read_digits_spelled radix max acc count s n k rest : (radix ≤ 16)%N →
  read_digits radix max acc count s = Some (n, k, rest) →
  ∃ pre, s = pre ++ rest ∧ forallb ip_char pre = true.
Proof.
  intros Hr. revert acc count. induction s as [|c s IH]; intros acc count; cbn [read_digits].
  - intros [= <- <- <-]. by exists [].
  - destruct (to_digit radix c) as [d|] eqn:Hd; [|intros [= <- <- <-]; by exists []].
    destruct (max <? S count); [done|]. intros (pre & -> & Hp)%IH. exists (c :: pre). split; [done|].
    simpl. by rewrite (to_digit_ip_char _ _ _ Hr Hd).
Qed.
Lemma read_number_spelled radix k z max : (radix ≤ 16)%N → spelled (read_number radix k z max).
Proof.
  intros Hr s n rest. unfold read_number. destruct (read_digits _ _ _ _ _) as [[[m j] r]|] eqn:Hd; [|done].
  repeat case_match; try done. intros [= <- <-]. by eapply read_digits_spelled.
Qed.
Lemma read_separator_spelled {A} sep i (p : parser A) : ip_char sep = true → spelled p →
  spelled (read_separator sep i p).
Proof.
  intros Hsep Hp s a rest. unfold read_separator. destruct (i =? 0); [apply Hp|].
  destruct s as [|c s]; [done|]. destruct (Ascii.eqb_spec c sep) as [->|]; [|done].
  intros (pre & -> & Hpre)%Hp. exists (sep :: pre). simpl. by rewrite Hsep.
Qed.
Lemma read_octets_spelled n i : spelled (read_octets n i).
Proof.
  revert i. induction n as [|n IH]; intros i s a rest; cbn [read_octets]; [intros [= <- <-]; by exists []|].
  destruct (read_separator _ _ _ _) as [[o s1]|] eqn:Ho; [|done].
  destruct (read_octets n (S i) s1) as [[os s2]|] eqn:Hos; [|done]. intros [= <- <-].
  apply read_separator_spelled in Ho as (p1 & -> & H1); [|done|by apply read_number_spelled].
  apply IH in Hos as (p2 & -> & H2). exists (p1 ++ p2). by rewrite <- app_assoc, forallb_app, H1, H2.
Qed.
Lemma read_groups_spelled n i limit s gs v rest : read_groups n i limit s = (gs, v, rest) →
  ∃ pre, s = pre ++ rest ∧ forallb ip_char pre = true.
Proof.
  revert i s gs v rest. induction n as [|n IH]; intros i s gs v rest; cbn [read_groups].
  { intros [= <- <- <-]. by exists []. }
  assert (Hgroup : match read_separator ":" i (read_number 16 4 true 65535) s with
      | None => ([], false, s)
      | Some (group, rest) =>
        let '(groups, ipv4, rest) := read_groups n (S i) limit rest in (group :: groups, ipv4, rest)
      end = (gs, v, rest) → ∃ pre, s = pre ++ rest ∧ forallb ip_char pre = true).
  { destruct (read_separator _ _ _ _) as [[g s1]|] eqn:Hg; [|intros [= <- <- <-]; by exists []].
    destruct (read_groups n (S i) limit s1) as [[gs1 v1] s2] eqn:Hgs. intros [= <- <- <-].
    apply read_separator_spelled in Hg as (p1 & -> & H1); [|done|by apply read_number_spelled].
    apply IH in Hgs as (p2 & -> & H2). exists (p1 ++ p2). by rewrite <- app_assoc, forallb_app, H1, H2. }
  destruct (if i <? limit - 1 then _ else None) as [[os s1]|] eqn:Ho; [|exact Hgroup].
  destruct (i <? limit - 1); [|done].
  apply read_separator_spelled in Ho as (p1 & -> & H1); [|done|apply read_octets_spelled].
  destruct os as [|one [|two [|three [|four [|]]]]]; try exact Hgroup. intros [= <- <- <-]. by exists p1.
Qed.
Lemma read_ipv6_spelled : spelled read_ipv6_addr.
Proof.
  intros s g rest. unfold read_ipv6_addr.
  destruct (read_groups 8 0 8 s) as [[head v] s1] eqn:Hh. apply read_groups_spelled in Hh as (p1 & -> & H1).
  destruct (length head =? 8); [intros [= <- <-]; by exists p1|]. destruct v; [done|].
  destruct s1 as [|c1 [|c2 s2]]; try done; [by destruct c1 as [[] [] [] [] [] [] [] []]|].
  destruct (Ascii.eqb_spec c1 ":") as [->|Hn1]; [|by destruct c1 as [[] [] [] [] [] [] [] []]].
  destruct (Ascii.eqb_spec c2 ":") as [->|Hn2]; [|by destruct c2 as [[] [] [] [] [] [] [] []]].
  destruct (read_groups _ 0 _ s2) as [[tl v2] s3] eqn:Ht. apply read_groups_spelled in Ht as (p2 & -> & H2).
  intros [= <- <-]. exists (p1 ++ ":"%char :: ":"%char :: p2). split; [by rewrite <- app_assoc|].
  by rewrite forallb_app, H1.
Qed.
(** Whatever parses as an address is spelled with hexadecimal digits, dots and
    colons. *)
Lemma parse_ip_spelled s ip : parse_ip s = Some ip → forallb ip_char s = true.
Proof.
  unfold parse_ip. destruct (read_ipv4_addr s) as [[o [|c r]]|] eqn:H4; try done.
  - intros _. apply read_octets_spelled in H4 as (pre & -> & Hp). by rewrite app_nil_r.
  - destruct (read_ipv6_addr s) as [[g [|c r]]|] eqn:H6; try done.
    intros _. apply read_ipv6_spelled in H6 as (pre & -> & Hp). by rewrite app_nil_r.
Qed.

(** ** Dotted quads *)

(** Four decimal numbers to 255, without leading zeros. *)
Definition dotted_quad (s : bytes) : Prop :=
  ∃ a b c d : N, (a ≤ 255)%N ∧ (b ≤ 255)%N ∧ (c ≤ 255)%N ∧ (d ≤ 255)%N ∧
    s = join ["."%char] (map display_N [a; b; c; d]).

Lemma read_digits_prefix radix max acc count s n k rest :
  read_digits radix max acc count s = Some (n, k, rest) →
  ∃ pre, s = pre ++ rest ∧ k = count + length pre ∧ Forall (λ c, is_Some (to_digit radix c)) pre ∧
    read_digits radix max acc count pre = Some (n, k, []).
Proof.
  revert acc count. induction s as [|c s IH]; intros acc count; cbn [read_digits].
  { intros [= <- <- <-]. exists []. split_and!; [done|simpl; lia|constructor|done]. }
  destruct (to_digit radix c) as [d|] eqn:Hd; [|intros [= <- <- <-]; exists []; split_and!; [done|simpl; lia|constructor|done]].
  destruct (max <? S count) eqn:Hm; [done|]. intros (pre & -> & -> & Hpre & Hrun)%IH. exists (c :: pre).
  split_and!; [done|simpl; lia|by constructor|]. cbn [read_digits]. by rewrite Hd, Hm.
Qed.
Lemma read_digits_app radix max acc count s n k rest :
  read_digits radix max acc count s = Some (n, k, []) → (∀ c, head rest = Some c → to_digit radix c = None) →
  read_digits radix max acc count (s ++ rest) = Some (n, k, rest).
Proof.
  intros Hs Hrest. revert acc count Hs. induction s as [|c s IH]; intros acc count; cbn [read_digits app].
  { intros [= <- <-]. destruct rest as [|c rest]; [done|]. cbn [read_digits]. by rewrite Hrest. }
  destruct (to_digit radix c); [|done]. destruct (max <? S count); [done|]. apply IH.
Qed.
Lemma read_digits_max radix max s : ∀ acc count n k, count ≤ max →
  read_digits radix max acc count s = Some (n, k, []) → count + length s ≤ max.
Proof.
  induction s as [|c s IH]; intros acc count n k Hc; simpl; [lia|]. destruct (to_digit radix c); [|done].
  destruct (Nat.ltb_spec max (S count)) as [|Hle]; [done|]. intros Hr%IH; lia.
Qed.
(** Every text of at most three digits is the number's own, unless it begins with
    a zero, and every octet has such a text. *)
Definition three_digits : list bytes :=
  let ds := map (λ n, ascii_of_nat (48 + n)) (seq 0 10) in
  let more l := flat_map (λ s, map (λ d, d :: s) ds) l in
  more [[]] ++ more (more [[]]) ++ more (more (more [[]])).
Lemma three_digits_read : forallb (λ s,
  match read_number 10 3 false 255 s with Some (n, []) => beqb s (display_N n) && (n <=? 255)%N | _ => true end) three_digits = true.
Proof. vm_compute. reflexivity. Qed.
Lemma octets_read : forallb (λ n,
  match read_digits 10 3 0 0 (display_N (N.of_nat n)) with
  | Some (m, count, []) => (m =? N.of_nat n)%N && negb (count =? 0) &&
      negb (starts_with ["0"%char] (display_N (N.of_nat n)) && (1 <? count))
  | _ => false
  end) (seq 0 256) = true.
Proof. vm_compute. reflexivity. Qed.
Lemma decimal_digit c : is_Some (to_digit 10 c) → c ∈ map (λ n, ascii_of_nat (48 + n)) (seq 0 10).
Proof.
  intros [d Hd]. assert (Hb : match to_digit 10 c with Some _ => existsb (Ascii.eqb c) (map (λ n, ascii_of_nat (48 + n)) (seq 0 10)) | None => true end = true)
    by (by destruct c as [[] [] [] [] [] [] [] []]).
  rewrite Hd in Hb. apply existsb_exists in Hb as (x & Hx & ->%Ascii.eqb_eq). by apply list_elem_of_In.
Qed.
Lemma three_digits_all s : Forall (λ c, is_Some (to_digit 10 c)) s → 0 < length s ≤ 3 → s ∈ three_digits.
Proof.
  intros Hs Hlen. assert (Hmore : ∀ c t l, is_Some (to_digit 10 c) → t ∈ l →
    c :: t ∈ flat_map (λ s, map (λ d, d :: s) (map (λ n, ascii_of_nat (48 + n)) (seq 0 10))) l).
  { intros c t l Hc Ht. apply list_elem_of_In, in_flat_map. exists t. split; [by apply list_elem_of_In|].
    apply list_elem_of_In, (list_elem_of_fmap_2 (λ d, d :: t)), decimal_digit, Hc. }
  unfold three_digits. rewrite !elem_of_app.
  destruct s as [|c1 [|c2 [|c3 [|]]]]; simpl in Hlen; try lia; rewrite ?Forall_cons in Hs; destruct_and?.
  - left. apply Hmore; [done|left].
  - right. left. apply Hmore; [done|]. apply Hmore; [done|left].
  - right. right. do 2 (apply Hmore; [done|]). apply Hmore; [done|left].
Qed.
Lemma starts_with_one c x s t : starts_with [c] (x :: s) = starts_with [c] (x :: t).
Proof. unfold starts_with. cbn [strip_prefix]. by destruct (Ascii.eqb c x). Qed.
Lemma read_octet s n rest : read_number 10 3 false 255 s = Some (n, rest) → (n ≤ 255)%N ∧ s = display_N n ++ rest.
Proof.
  unfold read_number. destruct (read_digits 10 3 0 0 s) as [[[m k] r]|] eqn:Hd; [|done].
  destruct (read_digits_prefix _ _ _ _ _ _ _ _ Hd) as (pre & -> & Hk & Hpre & Hrun).
  destruct (Nat.eqb_spec k 0) as [|Hk0]; [done|]. destruct (negb false && _ && _) eqn:Hz; [done|].
  destruct (N.leb_spec m 255); [|done]. intros [= -> ->]. split; [done|]. f_equal.
  assert (Hlen : length pre ≤ 3).
  { by apply read_digits_max in Hrun; [|lia]. }
  assert (Hin : pre ∈ three_digits) by (apply three_digits_all; [done|simpl in Hk; lia]).
  pose proof three_digits_read as Hall. rewrite forallb_forall in Hall.
  specialize (Hall pre (proj1 (list_elem_of_In _ _) Hin)). unfold read_number in Hall. rewrite Hrun in Hall.
  rewrite (proj2 (Nat.eqb_neq k 0)) in Hall by done.
  replace (negb false && starts_with ["0"%char] pre && (1 <? k)) with false in Hall.
  - rewrite (proj2 (N.leb_le n 255)) in Hall by done. by apply andb_true_iff in Hall as [Hb%beqb_spec _].
  - symmetry. destruct pre as [|c pre]; [done|]. by rewrite (starts_with_one _ _ pre (pre ++ rest)).
Qed.
Lemma octet_reads n rest : (n ≤ 255)%N → (∀ c, head rest = Some c → to_digit 10 c = None) →
  read_number 10 3 false 255 (display_N n ++ rest) = Some (n, rest).
Proof.
  intros Hn Hrest. pose proof octets_read as Hall. rewrite forallb_forall in Hall.
  specialize (Hall (N.to_nat n) ltac:(apply in_seq; lia)). rewrite N2Nat.id in Hall. unfold read_number.
  destruct (read_digits 10 3 0 0 (display_N n)) as [[[m k] [|]]|] eqn:Hd; try done.
  rewrite (read_digits_app _ _ _ _ _ _ _ rest Hd) by done.
  apply andb_true_iff in Hall as [[->%N.eqb_eq Hk%negb_true_iff]%andb_true_iff Hz%negb_true_iff].
  rewrite Hk, (proj2 (N.leb_le n 255)) by done. destruct (display_N_head n) as (c & s & Hs & _). rewrite Hs in Hz |- *.
  cbn [negb andb app]. by rewrite (starts_with_one _ _ (s ++ rest) s), Hz.
Qed.
Lemma read_ipv4_iff s o : read_ipv4_addr s = Some (o, []) ↔
  ∃ a b c d : N, o = [a; b; c; d] ∧ (a ≤ 255)%N ∧ (b ≤ 255)%N ∧ (c ≤ 255)%N ∧ (d ≤ 255)%N ∧
    s = join ["."%char] (map display_N [a; b; c; d]).
Proof.
  unfold read_ipv4_addr. split.
  - cbn [read_octets read_separator Nat.eqb].
    destruct (read_number _ _ _ _ s) as [[a s1]|] eqn:Ha; [|done]. apply read_octet in Ha as [Ha ->].
    destruct s1 as [|x s1]; [done|]. destruct (Ascii.eqb_spec x ".") as [->|]; [|done].
    destruct (read_number _ _ _ _ s1) as [[b s2]|] eqn:Hb; [|done]. apply read_octet in Hb as [Hb ->].
    destruct s2 as [|x s2]; [done|]. destruct (Ascii.eqb_spec x ".") as [->|]; [|done].
    destruct (read_number _ _ _ _ s2) as [[c s3]|] eqn:Hc; [|done]. apply read_octet in Hc as [Hc ->].
    destruct s3 as [|x s3]; [done|]. destruct (Ascii.eqb_spec x ".") as [->|]; [|done].
    destruct (read_number _ _ _ _ s3) as [[d s4]|] eqn:Hd; [|done]. apply read_octet in Hd as [Hd ->].
    intros [= <- ->]. exists a, b, c, d. by rewrite app_nil_r.
  - intros (a & b & c & d & -> & Ha & Hb & Hc & Hd & ->). cbn [map join app].
    cbn [read_octets read_separator Nat.eqb].
    do 3 (rewrite octet_reads by (try done; by intros ? [= <-]); cbv beta iota; change (Ascii.eqb "." ".") with true; cbv iota).
    rewrite <- (app_nil_r (display_N d)). by rewrite octet_reads.
Qed.

(** No IPv6 address is spelled without a colon. *)
Lemma read_groups_first n limit s : 1 < limit →
  read_groups (S n) 0 limit s =
    match read_ipv4_addr s with
    | Some ([one; two; three; four], rest) => ([one * 256 + two; three * 256 + four]%N, true, rest)
    | _ =>
      match read_number 16 4 true 65535 s with
      | None => ([], false, s)
      | Some (group, rest) =>
        let '(groups, ipv4, rest) := read_groups n 1 limit rest in (group :: groups, ipv4, rest)
      end
    end.
Proof. intros Hl. cbn [read_groups]. by rewrite (proj2 (Nat.ltb_lt 0 (limit - 1))) by lia. Qed.
Lemma read_groups_no_colon n i limit s : ":"%char ∉ s → read_groups n (S i) limit s = ([], false, s).
Proof.
  intros Hs. destruct n as [|n]; [done|]. cbn [read_groups]. unfold read_separator. cbn [Nat.eqb].
  assert (Hno : match s with c :: s' => if Ascii.eqb c ":" then Some s' else None | [] => None end = None).
  { destruct s as [|c s]; [done|]. destruct (Ascii.eqb_spec c ":") as [->|]; [|done]. by destruct Hs; left. }
  destruct s as [|c s]; [by destruct (S i <? limit - 1)|]. destruct (Ascii.eqb c ":"); [done|].
  by destruct (S i <? limit - 1).
Qed.
Lemma read_ipv6_colon s g rest : read_ipv6_addr s = Some (g, rest) → ":"%char ∈ s.
Proof.
  intros Hr. destruct (decide (":"%char ∈ s)) as [|Hs]; [done|]. exfalso. unfold read_ipv6_addr in Hr.
  assert (Hhead : ∃ head v s1, read_groups 8 0 8 s = (head, v, s1) ∧ length head ≤ 2 ∧ ":"%char ∉ s1).
  { rewrite read_groups_first by lia.
    assert (Hgroup : ∃ head v s1, match read_number 16 4 true 65535 s with
        | None => ([], false, s)
        | Some (group, rest) => let '(groups, ipv4, rest) := read_groups 7 1 8 rest in (group :: groups, ipv4, rest)
        end = (head, v, s1) ∧ length head ≤ 2 ∧ ":"%char ∉ s1).
    { destruct (read_number _ _ _ _ s) as [[x r]|] eqn:Hx; [|exists [], false, s; split; [reflexivity|]; split; [simpl; lia|exact Hs]].
      apply read_number_spelled in Hx as (pre & -> & _); [|done].
      assert (Hr' : ":"%char ∉ r) by (intros Hin; apply Hs, elem_of_app; by right). rewrite read_groups_no_colon by exact Hr'.
      exists [x], false, r. split; [reflexivity|]. split; [simpl; lia|exact Hr']. }
    destruct (read_ipv4_addr s) as [[o r]|] eqn:Ho; [|exact Hgroup].
    apply read_octets_spelled in Ho as (pre & -> & _).
    assert (Hr' : ":"%char ∉ r) by (intros Hin; apply Hs, elem_of_app; by right).
    destruct o as [|a [|b [|c [|d [|]]]]]; try exact Hgroup. do 3 eexists. split; [reflexivity|]. split; [simpl; lia|exact Hr']. }
  destruct Hhead as (head & v & s1 & Hg & Hl & Hs1). rewrite Hg in Hr.
  destruct (Nat.eqb_spec (length head) 8); [lia|]. destruct v; [done|].
  destruct s1 as [|c s1]; [done|]. destruct (Ascii.eqb_spec c ":") as [->|Hc]; [by destruct Hs1; left|].
  by destruct c as [[] [] [] [] [] [] [] []].
Qed.
Lemma parse_ip_name s : ":"%char ∉ s → is_Some (parse_ip s) ↔ dotted_quad s.
Proof.
  intros Hs. unfold parse_ip, dotted_quad. split.
  - destruct (read_ipv4_addr s) as [[o [|x r]]|] eqn:H4; [|by intros [? ?]|].
    + intros _. apply read_ipv4_iff in H4 as (a & b & c & d & _ & H). by exists a, b, c, d.
    + destruct (read_ipv6_addr s) as [[g r]|] eqn:H6; [|by intros [? ?]]. by apply read_ipv6_colon in H6.
  - intros (a & b & c & d & H). rewrite (proj2 (read_ipv4_iff s [a; b; c; d])); [done|]. by exists a, b, c, d.
Qed.
