(* ===== verification/SmtpCommand.v ===== *)
(** Reading one SMTP command line: the reply texts and the pure functions of
    [crates/rustmail-smtp/src/session.rs] that look at a line without touching
    the session. *)
From S2P Require Import Prelude RustStd.

(** ** Replies and limits *)

Definition OK : bytes := b#"250 OK" ++ crlf.
Definition LOCAL_ERROR : bytes :=
  b#"451 Requested action aborted: local error in processing" ++ crlf.
Definition DATA_START : bytes := b#"354 Start mail input; end with <CRLF>.<CRLF>" ++ crlf.
Definition QUIT_RESPONSE : bytes := b#"221 Bye" ++ crlf.
Definition RSET_OK : bytes := b#"250 Reset OK" ++ crlf.
Definition UNKNOWN_CMD : bytes := b#"500 Unknown command" ++ crlf.
Definition BAD_SEQUENCE : bytes := b#"503 Bad sequence of commands" ++ crlf.
Definition STARTTLS_READY : bytes := b#"220 Ready to start TLS" ++ crlf.
Definition SIZE_EXCEEDED : bytes :=
  b#"552 5.3.4 Message size exceeds fixed maximum message size" ++ crlf.
Definition SIZE_MALFORMED : bytes := b#"501 5.5.4 Malformed SIZE parameter" ++ crlf.
Definition SIZE_PARAM : bytes := b#"SIZE=".
Definition MAX_LINE_LENGTH : nat := 4096.
Definition MAX_LOGGED_VERB_CHARS : nat := 8.
Definition DATA_TERMINATOR : bytes := "."%char :: crlf.
Definition MAX_RECIPIENTS : nat := 100.
Definition MAX_COMMANDS_PER_TRANSACTION : nat := 1000.

(** ** Line functions *)

Definition redact_auth (cmd : bytes) : bytes :=
  if (11 <? length cmd) && eq_ignore_ascii_case (take 10 cmd) b#"AUTH PLAIN"
  then b#"AUTH PLAIN [REDACTED]" else cmd.

(** The value of a [SIZE=] parameter, its name in any case. *)
Definition size_value (param : bytes) : option bytes :=
  if (length SIZE_PARAM <=? length param)
     && eq_ignore_ascii_case (take (length SIZE_PARAM) param) SIZE_PARAM
  then Some (drop (length SIZE_PARAM) param) else None.

Fixpoint find_map {A B} (f : A → option B) (l : list A) : option B :=
  match l with
  | [] => None
  | x :: l => match f x with Some y => Some y | None => find_map f l end
  end.

Definition declared_size_refusal (line : bytes) (max_message_size : nat) : option bytes :=
  match find_map size_value (drop 1 (split_ascii_whitespace line)) with
  | None => None
  | Some value =>
    match parse_u64 value with
    | Ok size => if (size <=? Z.of_nat max_message_size)%Z then None else Some SIZE_EXCEEDED
    | Err IntErrorKind.PosOverflow => Some SIZE_EXCEEDED
    | Err _ => Some SIZE_MALFORMED
    end
  end.

Definition is_data_terminator (line : bytes) : bool :=
  let trimmed :=
    match strip_suffix crlf line with
    | Some l => l
    | None => match strip_suffix [LF] line with Some l => l | None => line end
    end in
  beqb trimmed b#".".

Definition command_verb (line : bytes) : bytes :=
  let verb := default [] (head (split_ascii_whitespace line)) in
  concat (take MAX_LOGGED_VERB_CHARS (chars verb)).

Definition extract_address (line : bytes) : bytes :=
  let plain :=
    trim (match split_once ":"%char line with Some (_, r) => r | None => [] end) in
  match find "<"%char line, find ">"%char line with
  | Some lt, Some gt => if lt <? gt then slice (lt + 1) gt line else plain
  | _, _ => plain
  end.

(** ** Lemmas *)

Lemma find_app_l c s t i : find c s = Some i → find c (s ++ t) = Some i.
Proof.
  rewrite !find_Some. intros (a & b & -> & -> & Hn). exists a, (b ++ t).
  by rewrite <- app_assoc.
Qed.
Lemma find_skip c s t : c ∉ s → find c (s ++ c :: t) = Some (length s).
Proof. intros. apply find_Some. eauto. Qed.

(** The terminating dot, alone on a line that ends in LF or CRLF or that the
    end of input cuts short. *)
Lemma is_data_terminator_spec line :
  is_data_terminator line = true ↔
  line = b#"." ∨ line = b#"." ++ [LF] ∨ line = DATA_TERMINATOR.
Proof.
  unfold is_data_terminator.
  destruct (strip_suffix crlf line) as [l|] eqn:E1.
  { apply strip_suffix_spec in E1 as ->. rewrite beqb_spec. split; [intros ->; auto|].
    intros [H|[H|H]]; apply (f_equal (@rev ascii)) in H; rewrite rev_app_distr in H; simplify_eq/=.
    apply (f_equal (@rev ascii)) in H. by rewrite rev_involutive in H. }
  destruct (strip_suffix [LF] line) as [l|] eqn:E2.
  { apply strip_suffix_spec in E2 as ->. rewrite beqb_spec. split; [intros ->; auto|].
    intros [H|[H|H]].
    - apply (f_equal (@rev ascii)) in H; rewrite rev_app_distr in H; simplify_eq/=.
    - by apply (app_inv_tail [LF] l b#".").
    - rewrite H in E1. discriminate E1. }
  rewrite beqb_spec. split; [by auto|]. intros [H|[->| ->]]; [done|discriminate..].
Qed.

Lemma is_data_terminator_length line : is_data_terminator line = true → length line ≤ 3.
Proof. intros [->|[->| ->]]%is_data_terminator_spec; simpl; lia. Qed.
