(* ===== verification/SmtpStream.v ===== *)
(** The byte stream of one SMTP connection: the buffered reader and the loops
    of [crates/rustmail-smtp/src/session.rs] that read from it
    ([read_line_untimed], [drain_data], [receive_data]), and their meaning on
    the bytes the peer sends, however the network split them. *)
From S2P Require Import Prelude RustStd SmtpCommand.

Inductive SessionError :=
| Io | MessageTooLarge | LineTooLong | TlsUpgrade | Timeout | StreamClosed.
#[export] Instance SessionError_eq_dec : EqDecision SessionError.
Proof. solve_decision. Defined.

(** ** The buffered reader *)

(** What the connection gives the next time it is read: bytes, a failed read,
    or nothing until the deadline around the read fires. An empty chunk is the
    end of the stream, as the end of the list is. *)
Inductive rx := Chunk (d : bytes) | ReadError | Stall.

Record BufReader := { buffer : bytes; incoming : list rx }.

Definition fill_buf (r : BufReader) : result SessionError bytes * BufReader :=
  match buffer r with
  | _ :: _ => (Ok (buffer r), r)
  | [] =>
    match incoming r with
    | [] => (Ok [], r)
    | Chunk [] :: _ => (Ok [], r)
    | Chunk d :: l => (Ok d, {| buffer := d; incoming := l |})
    | ReadError :: _ => (Err Io, r)
    | Stall :: _ => (Err Timeout, r)
    end
  end.
Definition consume (n : nat) (r : BufReader) : BufReader :=
  {| buffer := drop n (buffer r); incoming := incoming r |}.

(** The bytes up to and including the first newline, or all of them. *)
Definition taken (available : bytes) : nat :=
  match find LF available with Some pos => pos + 1 | None => length available end.

(** ** Reading one line *)

Fixpoint read_line_untimed (fuel : nat) (r : BufReader) (buf : bytes) (max_len : nat)
    : option (result SessionError nat * bytes * BufReader) :=
  match fuel with
  | 0 => None
  | S fuel =>
    match fill_buf r with
    | (Err e, r) => Some (Err e, buf, r)
    | (Ok [], r) => Some (Ok (length buf), buf, r)
    | (Ok available, r) =>
      let buf := buf ++ take (taken available) available in
      let r := consume (taken available) r in
      if max_len <? length buf then Some (Err LineTooLong, buf, r)
      else match find LF available with
           | Some _ => Some (Ok (length buf), buf, r)
           | None => read_line_untimed fuel r buf max_len
           end
    end
  end.

(** ** Discarding a refused message *)

Fixpoint drain_data (fuel : nat) (r : BufReader) (line_head : bytes) (mid_line : bool)
    : option (result SessionError unit * BufReader) :=
  match fuel with
  | 0 => None
  | S fuel =>
    match fill_buf r with
    | (Err e, r) => Some (Err e, r)
    | (Ok [], r) => Some (Err Io, r)
    | (Ok available, r) =>
      let head_room := length DATA_TERMINATOR - length line_head in
      let line_head := line_head ++ take (Nat.min (taken available) head_room) available in
      let r := consume (taken available) r in
      match find LF available with
      | Some _ =>
        if negb mid_line && is_data_terminator line_head then Some (Ok tt, r)
        else drain_data fuel r [] false
      | None => drain_data fuel r line_head mid_line
      end
    end
  end.

(** What is left to read: every loop below shrinks it, so it is fuel enough. *)
Definition event_weight (e : rx) : nat :=
  match e with Chunk d => S (length d) | _ => 1 end.
Definition weight (r : BufReader) : nat :=
  length (buffer r) + sum_list_with event_weight (incoming r).
Definition fuel_of (r : BufReader) : nat := S (weight r).

(** ** The DATA phase *)

Definition unstuff (line : bytes) : bytes :=
  if starts_with b#".." line then drop 1 line else line.

(** How long the next line may be. [saturating_sub] stops at zero; the addition
    after it is a plain [usize] one, which wraps at 64 bits in a release build. *)
Definition line_budget (max_message_size len : nat) : nat :=
  Z.to_nat (wrap_u64 (Z.of_nat (max_message_size - len) + Z.of_nat (length DATA_TERMINATOR))).

(** [receive_data] without the envelope: the bytes of the message. *)
Fixpoint receive_data (fuel : nat) (r : BufReader) (data : bytes) (max_message_size : nat)
    : option (result SessionError (option bytes) * BufReader) :=
  match fuel with
  | 0 => None
  | S fuel =>
    let budget := line_budget max_message_size (length data) in
    match read_line_untimed (fuel_of r) r [] budget with
    | None => None
    | Some (Err LineTooLong, line_buf, r) =>
      match drain_data (fuel_of r) r [] (negb (ends_with [LF] line_buf)) with
      | None => None
      | Some (Err e, r) => Some (Err e, r)
      | Some (Ok _, r) => Some (Err MessageTooLarge, r)
      end
    | Some (Err e, _, r) => Some (Err e, r)
    | Some (Ok bytes_read, line_buf, r) =>
      if bytes_read =? 0 then Some (Ok None, r)
      else if is_data_terminator line_buf then Some (Ok (Some data), r)
      else if max_message_size <? length data + length line_buf then
        match drain_data (fuel_of r) r [] false with
        | None => None
        | Some (Err e, r) => Some (Err e, r)
        | Some (Ok _, r) => Some (Err MessageTooLarge, r)
        end
      else receive_data fuel r (data ++ unstuff line_buf) max_message_size
    end
  end.

(** ** The stream as the peer wrote it *)

Inductive ending := AtEof | AtError | AtStall.
Definition end_error (e : ending) : SessionError :=
  match e with AtStall => Timeout | _ => Io end.

Fixpoint flat_events (l : list rx) : bytes * ending :=
  match l with
  | [] => ([], AtEof)
  | Chunk [] :: _ => ([], AtEof)
  | Chunk d :: l => let '(s, e) := flat_events l in (d ++ s, e)
  | ReadError :: _ => ([], AtError)
  | Stall :: _ => ([], AtStall)
  end.
(** The bytes still to be read and how the stream ends after them. *)
Definition flat (r : BufReader) : bytes * ending :=
  let '(s, e) := flat_events (incoming r) in (buffer r ++ s, e).

Definition cut_line (s : bytes) : option (bytes * bytes) :=
  match find LF s with
  | Some i => Some (take (S i) s, drop (S i) s)
  | None => None
  end.

(** The reference for [drain_data]: what follows the next terminating dot. *)
Fixpoint skip_message (fuel : nat) (s : bytes) : option bytes :=
  match fuel with
  | 0 => None
  | S fuel =>
    match cut_line s with
    | Some (line, rest) => if is_data_terminator line then Some rest else skip_message fuel rest
    | None => None
    end
  end.

(** The reference for [receive_data]: it cuts lines off one byte string and
    knows nothing of chunks, budgets or partly read lines. *)
Fixpoint message_of (fuel : nat) (s : bytes) (e : ending) (data : bytes) (max : nat)
    : result SessionError (option bytes) * bytes :=
  match fuel with
  | 0 => (Err (end_error e), [])
  | S fuel =>
    match cut_line s with
    | Some (line, rest) =>
      if is_data_terminator line then (Ok (Some data), rest)
      else if max <? length data + length line then
        match skip_message (S (length rest)) rest with
        | Some rest => (Err MessageTooLarge, rest)
        | None => (Err (end_error e), [])
        end
      else message_of fuel rest e (data ++ unstuff line) max
    | None =>
      (match e with
       | AtEof =>
         if decide (s = []) then Ok None
         else if is_data_terminator s then Ok (Some data)
         else if max <? length data + length s then Err Io else Ok None
       | _ => Err (end_error e)
       end, [])
    end
  end.

(** A limit at which no budget wraps: all of them but the three largest. *)
Definition usable (max_message_size : nat) : Prop :=
  (Z.of_nat max_message_size + Z.of_nat (length DATA_TERMINATOR) ≤ U64_MAX)%Z.

(** What the code does of [message_of] at any limit: a line over its budget is
    refused before it is looked at. *)
Fixpoint message_within (fuel : nat) (s : bytes) (e : ending) (data : bytes) (max : nat)
    : result SessionError (option bytes) * bytes :=
  match fuel with
  | 0 => (Err (end_error e), [])
  | S fuel =>
    match cut_line s with
    | Some (line, rest) =>
      if negb (line_budget max (length data) <? length line) && is_data_terminator line
      then (Ok (Some data), rest)
      else if (line_budget max (length data) <? length line) || (max <? length data + length line) then
        match skip_message (S (length rest)) rest with
        | Some rest => (Err MessageTooLarge, rest)
        | None => (Err (end_error e), [])
        end
      else message_within fuel rest e (data ++ unstuff line) max
    | None =>
      (match e with
       | AtEof =>
         if decide (s = []) then Ok None
         else if line_budget max (length data) <? length s then Err Io
         else if is_data_terminator s then Ok (Some data)
         else if max <? length data + length s then Err Io else Ok None
       | _ => Err (end_error e)
       end, [])
    end
  end.

(** ** Lemmas: cutting lines *)

Lemma cut_line_Some s line rest :
  cut_line s = Some (line, rest) ↔ ∃ a, line = a ++ [LF] ∧ LF ∉ a ∧ s = line ++ rest.
Proof.
  unfold cut_line. destruct (find LF s) as [i|] eqn:E.
  - apply find_Some in E as (a & b & -> & -> & Hn).
    rewrite (take_app_ge a), (drop_app_ge a) by lia.
    replace (S (length a) - length a) with 1 by lia. simpl. rewrite take_0, drop_0. split.
    + intros. simplify_eq. exists a. by rewrite <- app_assoc.
    + intros (a' & -> & Hn' & Heq). rewrite <- app_assoc in Heq. simpl in Heq.
      assert (split_once LF (a' ++ LF :: rest) = Some (a', rest)) as H1 by by apply split_once_spec.
      assert (split_once LF (a' ++ LF :: rest) = Some (a, b)) as H2
        by (rewrite <- Heq; by apply split_once_spec).
      congruence.
  - apply find_None in E. split; [done|]. intros (a & -> & _ & ->). set_solver.
Qed.
Lemma cut_line_None s : cut_line s = None ↔ LF ∉ s.
Proof. rewrite <- find_None. unfold cut_line. by destruct (find LF s). Qed.
Lemma cut_line_app a s : LF ∉ a →
  cut_line (a ++ s) = match cut_line s with Some (l, r) => Some (a ++ l, r) | None => None end.
Proof.
  intros Ha. destruct (cut_line s) as [[l r]|] eqn:E.
  - apply cut_line_Some in E as (b & -> & Hb & ->). apply cut_line_Some.
    exists (a ++ b). rewrite <- !app_assoc. set_solver.
  - apply cut_line_None in E. apply cut_line_None. set_solver.
Qed.
Lemma cut_line_length s line rest :
  cut_line s = Some (line, rest) → length s = length line + length rest ∧ 0 < length line.
Proof. intros (a & -> & _ & ->)%cut_line_Some. rewrite !length_app. simpl. lia. Qed.

(** ** Lemmas: the reader *)

(** Either the stream has ended, and the reader is where it was, or it offers
    a non-empty run of bytes that [flat] starts with. *)
Lemma fill_buf_spec r :
  (∃ e, flat r = ([], e) ∧
    fill_buf r = (match e with AtEof => Ok [] | _ => Err (end_error e) end, r)) ∨
  (∃ available r', available ≠ [] ∧ fill_buf r = (Ok available, r') ∧
    buffer r' = available ∧ flat r' = flat r ∧ weight r' ≤ weight r).
Proof.
  destruct r as [[|c b] l]; unfold fill_buf, flat, weight; simpl.
  - destruct l as [|[[|c d]| |] l]; simpl.
    + left. exists AtEof. done.
    + left. exists AtEof. done.
    + right. exists (c :: d), {| buffer := c :: d; incoming := l |}. simpl.
      split_and!; try done; [|lia]. by destruct (flat_events l).
    + left. exists AtError. done.
    + left. exists AtStall. done.
  - right. exists (c :: b), {| buffer := c :: b; incoming := l |}. by simpl.
Qed.

Lemma flat_consume r n s e :
  n ≤ length (buffer r) → flat r = (s, e) → flat (consume n r) = (drop n s, e).
Proof.
  unfold flat, consume; simpl. destruct (flat_events (incoming r)) as [t e'].
  intros Hn [= <- <-]. by rewrite drop_app_le.
Qed.
Lemma weight_consume r n :
  n ≤ length (buffer r) → weight (consume n r) + n = weight r.
Proof. unfold weight, consume; simpl. rewrite length_drop. lia. Qed.
Lemma flat_buffer r s e : flat r = (s, e) → ∃ t, s = buffer r ++ t.
Proof. unfold flat. destruct (flat_events (incoming r)). naive_solver. Qed.

Lemma taken_spec a :
  taken a ≤ length a ∧ (a ≠ [] → 0 < taken a) ∧
  match find LF a with
  | Some _ => ∃ p, take (taken a) a = p ++ [LF] ∧ LF ∉ p
  | None => take (taken a) a = a ∧ LF ∉ a
  end.
Proof.
  unfold taken. destruct (find LF a) as [i|] eqn:E.
  - apply find_Some in E as (p & q & -> & -> & Hn). rewrite length_app; simpl.
    split_and!; [lia|lia|]. exists p.
    rewrite (take_app_ge p) by lia. replace (length p + 1 - length p) with 1 by lia.
    simpl. by rewrite take_0.
  - split_and!; [done| |by rewrite take_ge|by apply find_None].
    destruct a; simpl; [done|lia].
Qed.

(** One turn of a reading loop: the stream has ended, or the reader gives up to
    the end of the current line and what it gave is gone from [flat]. *)
Lemma read_turn r s e : flat r = (s, e) →
  (s = [] ∧ fill_buf r = (match e with AtEof => Ok [] | _ => Err (end_error e) end, r)) ∨
  (∃ c av r', fill_buf r = (Ok (c :: av), r') ∧
    let available := c :: av in
    let n := taken available in
    let r'' := consume n r' in
    let p := take n available in
    s = p ++ fst (flat r'') ∧ snd (flat r'') = e ∧ weight r'' < weight r ∧ p ≠ [] ∧
    match find LF available with
    | Some _ => cut_line s = Some (p, fst (flat r'')) ∧ (∃ q, p = q ++ [LF] ∧ LF ∉ q)
    | None => p = available ∧ LF ∉ p
    end).
Proof.
  intros Hf. destruct (fill_buf_spec r) as [(e' & Hf' & Hb)|(av & r' & Hne & Hb & Hbuf & Hfl & Hw)].
  - left. rewrite Hf' in Hf. by simplify_eq.
  - right. destruct av as [|c av]; [done|]. exists c, av, r'. split; [done|]. intros available n r'' p.
    rewrite Hf in Hfl. destruct (flat_buffer _ _ _ Hfl) as [t ->]. rewrite Hbuf in *.
    destruct (taken_spec (c :: av)) as (Hle & Hpos & Htk).
    assert (flat r'' = (drop n ((c :: av) ++ t), e)) as Hfr
      by (apply flat_consume; [by rewrite Hbuf|done]).
    rewrite drop_app_le in Hfr by done. rewrite Hfr. simpl fst. simpl snd.
    assert (weight r'' + n = weight r') as Hwc by (apply weight_consume; by rewrite Hbuf).
    assert (0 < n) by (by apply Hpos).
    assert (available ++ t = p ++ drop n available ++ t) as Hsplit
      by (unfold p; by rewrite app_assoc, take_drop).
    split_and!; [done|done|lia| |].
    + unfold p. intros Hnil%(f_equal length). rewrite length_take in Hnil. simpl in *. lia.
    + fold available n p in Htk.
      destruct (find LF available) eqn:Efind.
      * destruct Htk as (q & Hq & Hqn). split; [|by eauto].
        apply cut_line_Some. exists q. split_and!; done.
      * destruct Htk as [Hq Hqn]. split; [done|]. by rewrite Hq.
Qed.

(** ** Reading a line, on the flat stream *)

(** What [read_line_untimed] can answer on a stream [s] that ends in [e], with
    [buf] already read of the line: the whole line, a last line without a
    newline, a line cut as soon as it is too long, or the stream's failure. *)
Inductive line_read (s : bytes) (e : ending) (buf : bytes) (max : nat) :
    result SessionError nat → bytes → bytes → Prop :=
| line_whole line rest : cut_line s = Some (line, rest) → length (buf ++ line) ≤ max →
    line_read s e buf max (Ok (length (buf ++ line))) (buf ++ line) rest
| line_last : LF ∉ s → e = AtEof → (s = [] ∨ length (buf ++ s) ≤ max) →
    line_read s e buf max (Ok (length (buf ++ s))) (buf ++ s) []
| line_long p q : s = p ++ q → p ≠ [] → max < length (buf ++ p) →
    LF ∉ p ∨ cut_line s = Some (p, q) →
    line_read s e buf max (Err LineTooLong) (buf ++ p) q
| line_failed buf' : LF ∉ s → e ≠ AtEof →
    line_read s e buf max (Err (end_error e)) buf' [].

Lemma line_read_app p s e buf max res b rest :
  LF ∉ p → p ≠ [] → length (buf ++ p) ≤ max →
  line_read s e (buf ++ p) max res b rest → line_read (p ++ s) e buf max res b rest.
Proof.
  intros Hp Hne Hlen [line rest' Hc Hl|Hn He Hl|p' q -> Hne' Hl Hor|buf' Hn He].
  - rewrite <- app_assoc in *. apply line_whole; [|done]. by rewrite cut_line_app, Hc.
  - rewrite <- app_assoc in *. apply line_last; [set_solver|done|right].
    destruct Hl as [->|]; [by rewrite app_nil_r|done].
  - rewrite <- app_assoc in *.
    apply (line_long _ _ _ _ (p ++ p') q); [by rewrite app_assoc|by destruct p|done|].
    destruct Hor as [?|Hc]; [left; set_solver|right]. by rewrite cut_line_app, Hc.
  - apply line_failed; [set_solver|done].
Qed.

Lemma read_line_spec fuel r buf max s e : weight r < fuel → flat r = (s, e) →
  ∃ res b r', read_line_untimed fuel r buf max = Some (res, b, r') ∧
    snd (flat r') = e ∧ weight r' ≤ weight r ∧
    (s ≠ [] → res ≠ Err (end_error e) → weight r' < weight r) ∧
    line_read s e buf max res b (fst (flat r')).
Proof.
  revert r buf s. induction fuel as [|fuel IH]; intros r buf s Hw Hf; [lia|].
  destruct (read_turn _ _ _ Hf)
    as [[-> Hb]|(c & av & r1 & Hb & Hs & He & Hwt & Hne & Hfind)]; simpl; rewrite Hb.
  - destruct e; repeat eexists; try rewrite Hf; try done; simpl; try lia.
    2,3: by apply line_failed; [apply not_elem_of_nil|].
    rewrite <- (app_nil_r buf). rewrite app_nil_r at 1. by apply line_last; [apply not_elem_of_nil| |left].
  - set (n := taken (c :: av)) in *. set (r2 := consume n r1) in *.
    set (p := take n (c :: av)) in *.
    destruct (Nat.ltb_spec max (length (buf ++ p))) as [Hlong|Hlong].
    { repeat eexists; [done|lia|lia|]. eapply line_long; [done..|].
      destruct (find LF (c :: av)); naive_solver. }
    destruct (find LF (c :: av)) as [i|] eqn:Efind.
    + destruct Hfind as [Hcut _]. repeat eexists; [done|lia|lia|].
      by apply line_whole.
    + destruct Hfind as [_ Hp].
      destruct (IH r2 (buf ++ p) (fst (flat r2))) as (res & b & r' & Hr & He' & Hw' & _ & Hlr);
        [lia|by rewrite <- He; destruct (flat r2)|].
      rewrite Hr. repeat eexists; [done|lia|lia|].
      rewrite Hs. by apply line_read_app.
Qed.

(** ** Draining, on the flat stream *)

(** The reference for one call of [drain_data], [pre] being what it has seen of
    the current line. *)
Fixpoint drain_flat (fuel : nat) (s pre : bytes) (mid_line : bool) : option bytes :=
  match fuel with
  | 0 => None
  | S fuel =>
    match cut_line s with
    | Some (line, rest) =>
      if negb mid_line && is_data_terminator (pre ++ line) then Some rest
      else drain_flat fuel rest [] false
    | None => None
    end
  end.

Lemma drain_flat_app fuel p s pre mid : LF ∉ p →
  drain_flat fuel (p ++ s) pre mid = drain_flat fuel s (pre ++ p) mid.
Proof.
  intros Hp. destruct fuel as [|fuel]; simpl; [done|]. rewrite cut_line_app by done.
  destruct (cut_line s) as [[line rest]|]; [|done]. by rewrite <- app_assoc.
Qed.
Lemma drain_flat_fuel f1 f2 s pre mid : length s < f1 → length s < f2 →
  drain_flat f1 s pre mid = drain_flat f2 s pre mid.
Proof.
  revert f2 s pre mid. induction f1 as [|f1 IH]; intros [|f2] s pre mid H1 H2; try lia.
  simpl. destruct (cut_line s) as [[line rest]|] eqn:E; [|done].
  apply cut_line_length in E as [Hl Hp]. case_match; [done|]. apply IH; lia.
Qed.
Lemma drain_flat_skip fuel s : drain_flat fuel s [] false = skip_message fuel s.
Proof.
  revert s. induction fuel as [|fuel IH]; intros s; simpl; [done|].
  destruct (cut_line s) as [[line rest]|]; [|done]. simpl. case_match; [done|]. apply IH.
Qed.
Lemma drain_flat_length fuel s pre mid rest :
  drain_flat fuel s pre mid = Some rest → length rest < length s.
Proof.
  revert s pre mid. induction fuel as [|fuel IH]; intros s pre mid; simpl; [done|].
  destruct (cut_line s) as [[line rest']|] eqn:E; [|done].
  apply cut_line_length in E as [Hl Hp]. case_match; intros H'; simplify_eq; [lia|].
  apply IH in H'. lia.
Qed.

(** Three bytes of a line that ends in a newline tell whether it is the dot. *)
Lemma terminator_head line :
  (∃ q, line = q ++ [LF] ∧ LF ∉ q) →
  is_data_terminator (take 3 line) = is_data_terminator line.
Proof.
  intros (q & -> & Hq). destruct (decide (length (q ++ [LF]) ≤ 3)) as [|Hl].
  { by rewrite take_ge. }
  rewrite length_app in Hl; simpl in Hl.
  transitivity false; [|symmetry].
  - apply not_true_iff_false. intros H%is_data_terminator_spec.
    rewrite take_app_le in H by lia.
    destruct q as [|a [|b [|c q]]]; simpl in *; try lia. destruct H as [?|[?|H]]; simplify_eq/=.
    unfold DATA_TERMINATOR, crlf in H. simplify_eq.
    apply Hq, list_elem_of_In. simpl. auto.
  - apply not_true_iff_false. intros H%is_data_terminator_length.
    rewrite length_app in H; simpl in H. lia.
Qed.

Lemma drain_data_spec fuel r pre mid s e :
  weight r < fuel → flat r = (s, e) → LF ∉ pre →
  ∃ res r', drain_data fuel r (take 3 pre) mid = Some (res, r') ∧
    weight r' ≤ weight r ∧
    match drain_flat (S (length s)) s pre mid with
    | Some rest => res = Ok tt ∧ flat r' = (rest, e)
    | None => res = Err (end_error e)
    end.
Proof.
  revert r pre mid s. induction fuel as [|fuel IH]; intros r pre mid s Hw Hf Hpre; [lia|].
  destruct (read_turn _ _ _ Hf)
    as [[-> Hb]|(c & av & r1 & Hb & Hs & He & Hwt & Hne & Hfind)]; cbn [drain_data]; rewrite Hb.
  { destruct e; eexists _, r; by split_and!. }
  change (length DATA_TERMINATOR) with 3.
  assert (take 3 pre ++ take (taken (c :: av) `min` (3 - length (take 3 pre))) (c :: av) =
    take 3 (pre ++ take (taken (c :: av)) (c :: av))) as ->.
  { rewrite take_app, take_take, length_take. f_equal. apply f_equal2; [lia|done]. }
  set (n := taken (c :: av)) in *. set (r2 := consume n r1) in *.
  set (p := take n (c :: av)) in *.
  assert (flat r2 = (fst (flat r2), e)) as Hf2 by (rewrite <- He; by destruct (flat r2)).
  assert (length (fst (flat r2)) < length s) as Hshort.
  { rewrite Hs, length_app. destruct p; [done|simpl; lia]. }
  destruct (find LF (c :: av)) as [i|] eqn:Efind.
  - destruct Hfind as [Hcut (q & Hq & Hqn)].
    rewrite terminator_head by (exists (pre ++ q); rewrite Hq, app_assoc; set_solver).
    cbn [drain_flat]. rewrite Hcut.
    destruct (negb mid && is_data_terminator (pre ++ p)) eqn:Ed.
    + eexists _, r2. split_and!; [done|lia|done|done].
    + destruct (IH r2 [] false (fst (flat r2))) as (res & r' & Hd & Hw' & Hres);
        [lia|done|apply not_elem_of_nil|].
      change (take 3 []) with (@nil ascii) in Hd. exists res, r'. split_and!; [done|lia|].
      by rewrite (drain_flat_fuel (length s) (S (length (fst (flat r2))))) by lia.
  - destruct Hfind as [_ Hp].
    destruct (IH r2 (pre ++ p) mid (fst (flat r2))) as (res & r' & Hd & Hw' & Hres);
      [lia|done|set_solver|].
    exists res, r'. split_and!; [done|lia|].
    replace (drain_flat (S (length s)) s pre mid)
      with (drain_flat (S (length s)) (p ++ fst (flat r2)) pre mid) by (by rewrite <- Hs).
    rewrite drain_flat_app by done.
    by rewrite (drain_flat_fuel (S (length s)) (S (length (fst (flat r2))))) by lia.
Qed.

(** ** The DATA phase, on the flat stream *)

(** The answers after which the session goes on reading commands. *)
Definition settled (res : result SessionError (option bytes)) : Prop :=
  match res with Ok _ | Err MessageTooLarge => True | Err _ => False end.

Lemma message_within_fuel f1 f2 s e data max : length s < f1 → length s < f2 →
  message_within f1 s e data max = message_within f2 s e data max.
Proof.
  revert f2 s data. induction f1 as [|f1 IH]; intros [|f2] s data H1 H2; try lia.
  simpl. destruct (cut_line s) as [[line rest]|] eqn:E; [|done].
  apply cut_line_length in E as [Hl Hp]. do 2 (case_match; [done|]). apply IH; lia.
Qed.

Lemma ends_with_newline p : (∃ q, p = q ++ [LF]) → ends_with [LF] p = true.
Proof. by rewrite ends_with_spec. Qed.
Lemma not_ends_with_newline p : LF ∉ p → ends_with [LF] p = false.
Proof. intros Hp. apply not_true_iff_false. rewrite ends_with_spec. intros [q ->]. set_solver. Qed.

Lemma not_terminator line : 3 < length line → is_data_terminator line = false.
Proof. intros Hl. apply not_true_iff_false. intros H%is_data_terminator_length. lia. Qed.

(** Draining after a line was cut short, or after a whole line that is too long,
    skips what the reference skips. *)
Lemma drain_after_long s e data max fuel p q :
  s = p ++ q → p ≠ [] → line_budget max (length data) < length p →
  LF ∉ p ∨ cut_line s = Some (p, q) → length s < fuel →
  message_within fuel s e data max =
    match drain_flat (S (length q)) q [] (negb (ends_with [LF] p)) with
    | Some rest => (Err MessageTooLarge, rest)
    | None => (Err (end_error e), [])
    end.
Proof.
  intros -> Hne Hlong Hor Hfuel. destruct fuel as [|fuel]; [lia|]. cbn [message_within].
  assert (Hbig : ∀ l, line_budget max (length data) <? length (p ++ l) = true).
  { intros l. apply Nat.ltb_lt. rewrite length_app. lia. }
  destruct Hor as [Hp|Hcut].
  - rewrite not_ends_with_newline by done. cbn [negb drain_flat andb].
    rewrite cut_line_app by done.
    destruct (cut_line q) as [[l rest]|] eqn:Eq; rewrite Hbig; simpl negb; cbn [andb orb].
    + apply cut_line_length in Eq as [Hl Hpos].
      rewrite <- drain_flat_skip. by rewrite (drain_flat_fuel (length q) (S (length rest))) by lia.
    + destruct (decide (p ++ q = [])) as [H|_]; [by destruct p|].
      by destruct e.
  - rewrite Hcut. specialize (Hbig []). rewrite app_nil_r in Hbig. rewrite Hbig. simpl negb. cbn [andb orb].
    apply cut_line_Some in Hcut as (a & -> & _). rewrite ends_with_newline by eauto.
    simpl negb. by rewrite drain_flat_skip.
Qed.

Lemma receive_data_spec fuel r data max s e : weight r < fuel → flat r = (s, e) →
  ∃ res r', receive_data fuel r data max = Some (res, r') ∧ weight r' ≤ weight r ∧
    res = fst (message_within (S (length s)) s e data max) ∧
    (settled res → flat r' = (snd (message_within (S (length s)) s e data max), e)).
Proof.
  revert r data s. induction fuel as [|fuel IH]; intros r data s Hw Hf; [lia|].
  cbn [receive_data].
  destruct (read_line_spec (fuel_of r) r [] (line_budget max (length data)) s e)
    as (res & b & r1 & Hr & He & Hw1 & Hdec & Hlr); [unfold fuel_of; lia|done|].
  rewrite Hr. destruct (flat r1) as [rest1 e1] eqn:Hf1. simpl in He, Hlr. subst e1.
  assert (Hdrain := λ mid, drain_data_spec (fuel_of r1) r1 [] mid rest1 e
    (Nat.lt_succ_diag_r _) Hf1 (not_elem_of_nil _)).
  change (take 3 []) with (@nil ascii) in Hdrain.
  destruct Hlr as [line rest Hcut Hlen|Hn -> Hlen|p q Hs Hne Hlong Hor|b' Hn Hne];
    rewrite ?app_nil_l in *.
  - assert (Hpos := cut_line_length _ _ _ Hcut). destruct Hpos as [Hls Hpos].
    rewrite (proj2 (Nat.eqb_neq _ _)) by lia. cbn [message_within].
    rewrite Hcut, (proj2 (Nat.ltb_ge _ (length line)) Hlen). simpl negb. cbn [andb orb].
    destruct (is_data_terminator line); [eauto 6|].
    destruct (Nat.ltb_spec max (length data + length line)) as [Hbig|Hfit].
    + destruct (Hdrain false) as (dres & r2 & Hd & Hw2 & Hm). rewrite Hd.
      rewrite <- drain_flat_skip.
      destruct (drain_flat _ _ _ _) as [rest'|].
      * destruct Hm as [-> Hfl]. repeat eexists; [lia|done].
      * subst dres. repeat eexists; [lia|]. by destruct e.
    + destruct (IH r1 (data ++ unstuff line) rest) as (res & r2 & Hrec & Hw2 & Hm);
        [|done|].
      { assert (weight r1 < weight r); [|lia]. apply Hdec; [by intros ->|done]. }
      exists res, r2. split_and!; [done|lia|..];
        rewrite (message_within_fuel (length s) (S (length rest))) by lia; by destruct Hm.
  - cbn [message_within]. rewrite (proj2 (cut_line_None s)) by done.
    destruct (decide (s = [])) as [->|Hne]; [simpl; eauto 6|].
    destruct Hlen as [?|Hlen]; [done|]. rewrite (proj2 (Nat.ltb_ge (line_budget max (length data)) (length s)) Hlen).
    rewrite (proj2 (Nat.eqb_neq _ _)) by (by destruct s).
    destruct (is_data_terminator s); [eauto 6|].
    destruct (Nat.ltb_spec max (length data + length s)) as [Hbig|Hfit].
    + destruct (Hdrain false) as (dres & r2 & Hd & Hw2 & Hm). rewrite Hd.
      simpl in Hm. subst dres. repeat eexists; [lia|done].
    + destruct (IH r1 (data ++ unstuff s) []) as (res & r2 & Hrec & Hw2 & Hm & Hfl);
        [|done|].
      { assert (weight r1 < weight r); [|lia]. by apply Hdec. }
      simpl in Hm, Hfl. exists res, r2. split_and!; [done|lia|done|done].
  - rewrite (drain_after_long _ e data max _ p q) by (done || lia).
    destruct (Hdrain (negb (ends_with [LF] p))) as (dres & r2 & Hd & Hw2 & Hm). rewrite Hd.
    destruct (drain_flat _ _ _ _) as [rest'|].
    + destruct Hm as [-> Hfl]. repeat eexists; [lia|done].
    + subst dres. repeat eexists; [lia|]. by destruct e.
  - cbn [message_within]. rewrite (proj2 (cut_line_None s)) by done.
    destruct e; [done|..]; repeat eexists; try lia; done.
Qed.

(** ** The budget *)

Lemma line_budget_usable max len : usable max → line_budget max len = max - len + 3.
Proof.
  unfold usable, line_budget, wrap_u64, U64_MAX. change (length DATA_TERMINATOR) with 3. intros Hmax.
  rewrite Z.mod_small by lia. lia.
Qed.
(** The budget of a usable limit refuses no line that the size check does not. *)
Lemma message_within_usable fuel s e data max : usable max →
  message_within fuel s e data max = message_of fuel s e data max.
Proof.
  intros Hmax. revert s data. induction fuel as [|fuel IH]; intros s data; [done|].
  cbn [message_within message_of]. rewrite line_budget_usable by done.
  destruct (cut_line s) as [[line rest]|].
  - destruct (Nat.ltb_spec (max - length data + 3) (length line)) as [Hlong|_]; simpl negb; cbn [andb orb].
    + by rewrite not_terminator, (proj2 (Nat.ltb_lt _ _)) by lia.
    + case_match; [done|]. case_match; [done|]. apply IH.
  - destruct e; [|done..]. destruct (decide (s = [])); [done|].
    destruct (Nat.ltb_spec (max - length data + 3) (length s)); [|done].
    by rewrite not_terminator, (proj2 (Nat.ltb_lt _ _)) by lia.
Qed.
Lemma receive_data_usable fuel r max s e : usable max → weight r < fuel → flat r = (s, e) →
  ∃ res r', receive_data fuel r [] max = Some (res, r') ∧
    res = fst (message_of (S (length s)) s e [] max) ∧
    (settled res → flat r' = (snd (message_of (S (length s)) s e [] max), e)).
Proof.
  intros Hmax Hw Hf. destruct (receive_data_spec fuel r [] max s e Hw Hf) as (res & r' & Hr & _ & Hres).
  rewrite message_within_usable in Hres by done. eauto.
Qed.

(** At one of the three largest limits the budget wraps to the two bytes that are
    past it, and the data read so far never leaves them. *)
Lemma line_budget_wraps max len : (Z.of_nat max ≤ U64_MAX)%Z → (Z.of_nat len ≤ Z.of_nat max - (U64_MAX - 2))%Z →
  (Z.of_nat (line_budget max len) = Z.of_nat max - (U64_MAX - 2) - Z.of_nat len)%Z.
Proof.
  unfold line_budget, wrap_u64, U64_MAX. change (length DATA_TERMINATOR) with 3. intros Hmax Hlen.
  rewrite <- (Z.mod_unique_pos _ (2 ^ 64) 1 (Z.of_nat max - 18446744073709551613 - Z.of_nat len)) by lia. lia.
Qed.
Lemma message_within_wraps fuel s e data max raw : (Z.of_nat max ≤ U64_MAX)%Z →
  (Z.of_nat (length data) ≤ Z.of_nat max - (U64_MAX - 2))%Z →
  fst (message_within fuel s e data max) = Ok (Some raw) → length raw ≤ 2.
Proof.
  intros Hmax. revert s data. induction fuel as [|fuel IH]; intros s data Hd; cbn [message_within]; [done|].
  assert (Hb := line_budget_wraps max (length data) Hmax Hd). unfold U64_MAX in Hmax.
  destruct (cut_line s) as [[line rest]|].
  - destruct (Nat.ltb_spec (line_budget max (length data)) (length line)) as [|Hline]; simpl negb; cbn [andb orb].
    { by case_match. }
    case_match; [intros [= <-]; unfold U64_MAX in *; lia|]. case_match; [by case_match|].
    apply IH. rewrite length_app. assert (length (unstuff line) ≤ length line); [|lia].
    unfold unstuff. case_match; [rewrite length_drop; lia|done].
  - destruct e; simpl; [|done..]. repeat case_match; [done..| |done|done]. intros [= <-]. unfold U64_MAX in *; lia.
Qed.

(** ** Properties *)

(** C5: refinement. [receive_data] always answers. At every limit but the three
    largest of 64 bits it answers what the reference [message_of] computes from the
    bytes the peer sent and the way the stream ended: the budget on a line, the
    line cut as soon as it is too long and the drain that resumes in the middle of
    it change nothing, and after a message, a refusal or a disconnect it leaves
    exactly the bytes the reference leaves. At those three limits the budget
    wraps, and it takes no message of more than two bytes, whatever the peer sends. *)
Theorem receive_data_refines r max_message_size :
  let '(s, e) := flat r in
  let '(res, rest) := message_of (S (length s)) s e [] max_message_size in
  ∃ answer r', receive_data (fuel_of r) r [] max_message_size = Some (answer, r') ∧
    (usable max_message_size → answer = res ∧ (settled res → flat r' = (rest, e))) ∧
    (¬ usable max_message_size ∧ (Z.of_nat max_message_size ≤ U64_MAX)%Z →
       ∀ raw, answer = Ok (Some raw) → length raw ≤ 2).
Proof.
  destruct (flat r) as [s e] eqn:Hf.
  destruct (receive_data_spec (fuel_of r) r [] max_message_size s e) as (res & r' & Hr & _ & Hres & Hs);
    [unfold fuel_of; lia|done|].
  destruct (message_of _ _ _ _ _) as [res' rest] eqn:Hm. exists res, r'. split_and!; [done|..].
  - intros Hmax. rewrite message_within_usable, Hm in Hres, Hs by done. by simpl in *; subst.
  - intros [Hmax Hbound] raw ->. eapply message_within_wraps; [done| |by symmetry].
    unfold usable in Hmax. change (length DATA_TERMINATOR) with 3 in Hmax. simpl. lia.
Qed.

(** Whether a message is accepted, what it holds and what is left
    to read after it do not depend on how the network split the bytes. *)
Theorem receive_data_chunking r1 r2 max_message_size :
  flat r1 = flat r2 →
  ∃ res r1' r2',
    receive_data (fuel_of r1) r1 [] max_message_size = Some (res, r1') ∧
    receive_data (fuel_of r2) r2 [] max_message_size = Some (res, r2') ∧
    (settled res → flat r1' = flat r2').
Proof.
  intros Heq. destruct (flat r2) as [s e] eqn:Hf.
  destruct (receive_data_spec (fuel_of r1) r1 [] max_message_size s e) as (res1 & r1' & H1 & _ & -> & Hs1);
    [unfold fuel_of; lia|done|].
  destruct (receive_data_spec (fuel_of r2) r2 [] max_message_size s e) as (res2 & r2' & H2 & _ & -> & Hs2);
    [unfold fuel_of; lia|done|].
  do 3 eexists. split_and!; [done|done|]. intros Hs. by rewrite Hs1, Hs2.
Qed.
Lemma receive_data_chunking_witness :
  let r1 := {| buffer := b#"a"; incoming := [Chunk (crlf ++ b#"."); Chunk crlf] |} in
  let r2 := {| buffer := []; incoming := [Chunk (b#"a" ++ crlf ++ b#"." ++ crlf)] |} in
  ∃ res r1' r2',
    receive_data (fuel_of r1) r1 [] 10 = Some (res, r1') ∧
    receive_data (fuel_of r2) r2 [] 10 = Some (res, r2') ∧
    (settled res → flat r1' = flat r2').
Proof. apply receive_data_chunking. reflexivity. Defined.

Lemma message_within_bounded fuel s e data max raw :
  length data ≤ max → fst (message_within fuel s e data max) = Ok (Some raw) → length raw ≤ max.
Proof.
  revert s data. induction fuel as [|fuel IH]; intros s data Hd; simpl; [done|].
  destruct (cut_line s) as [[line rest]|].
  - case_match; [naive_solver|]. rewrite orb_comm.
    destruct (Nat.ltb_spec max (length data + length line)) as [|Hfit]; cbn [orb].
    + by case_match.
    + case_match; [by case_match|]. apply IH. rewrite length_app. unfold unstuff. case_match; [|lia].
      rewrite length_drop. lia.
  - destruct e; simpl; [|done..]. repeat case_match; naive_solver.
Qed.

(** A message the DATA phase accepts is never longer than
    [max_message_size]. *)
Theorem receive_data_bounded fuel r max_message_size raw r' :
  weight r < fuel →
  receive_data fuel r [] max_message_size = Some (Ok (Some raw), r') →
  length raw ≤ max_message_size.
Proof.
  intros Hf Hr. destruct (flat r) as [s e] eqn:Hfl.
  destruct (receive_data_spec fuel r [] max_message_size s e) as (res & r1 & Hr1 & _ & Hres & _); [done|done|].
  apply (message_within_bounded (S (length s)) s e []); [simpl; lia|]. congruence.
Qed.
Lemma receive_data_bounded_witness :
  let r := {| buffer := b#"..a" ++ crlf ++ b#"." ++ crlf; incoming := [] |} in
  length (b#".a" ++ crlf) ≤ 5.
Proof.
  apply (receive_data_bounded 100 {| buffer := b#"..a" ++ crlf ++ b#"." ++ crlf; incoming := [] |}
    5 _ {| buffer := []; incoming := [] |}); [vm_compute; lia|reflexivity].
Defined.

(** The client's side of transparency (RFC 5321, section 4.5.2). *)
Definition stuff (line : bytes) : bytes := if starts_with b#"." line then "."%char :: line else line.
Definition is_line (line : bytes) : Prop := ∃ a, line = a ++ [LF] ∧ LF ∉ a.

Lemma unstuff_stuff line : unstuff (stuff line) = line.
Proof.
  unfold unstuff, stuff. destruct (starts_with b#"." line) eqn:E.
  - apply starts_with_spec in E as [r ->]. done.
  - destruct (starts_with b#".." line) eqn:E2; [|done].
    apply starts_with_spec in E2 as [r ->]. discriminate E.
Qed.
Lemma stuff_line line : is_line line → is_line (stuff line).
Proof.
  intros (a & -> & Ha). unfold stuff. case_match; [|by exists a].
  exists ("."%char :: a). split; [done|]. apply not_elem_of_cons. done.
Qed.
Lemma stuff_not_terminator line : is_line line → is_data_terminator (stuff line) = false.
Proof.
  intros (a & -> & Ha). apply not_true_iff_false. intros H%is_data_terminator_spec.
  unfold stuff in H. destruct (starts_with b#"." (a ++ [LF])) eqn:E.
  - apply starts_with_spec in E as [r E]. rewrite E in H. by destruct H as [H|[H|H]].
  - destruct H as [H|[H|H]]; rewrite H in E; discriminate E.
Qed.
Lemma stuff_length line : length (stuff line) ≤ S (length line).
Proof. unfold stuff. case_match; simpl; lia. Qed.

Lemma message_of_stuffed lines rest e data max fuel :
  Forall is_line lines → length data + length (concat lines) < max →
  let s := concat (map stuff lines) ++ DATA_TERMINATOR ++ rest in
  length s < fuel →
  message_of fuel s e data max = (Ok (Some (data ++ concat lines)), rest).
Proof.
  intros Hl. revert data fuel. induction Hl as [|line lines Hline Hlines IH];
    intros data fuel Hsz s Hfuel; destruct fuel as [|fuel]; try lia; cbn [message_of].
  - unfold s. rewrite app_nil_r. done.
  - assert (Hcut : cut_line s = Some (stuff line,
      concat (map stuff lines) ++ DATA_TERMINATOR ++ rest)).
    { apply cut_line_Some. destruct (stuff_line _ Hline) as (a & Ha & Hn). exists a.
      split_and!; [done..|]. unfold s. simpl. by rewrite <- app_assoc. }
    rewrite Hcut, stuff_not_terminator by done. apply cut_line_length in Hcut as [Hls Hpos].
    simpl in Hsz. rewrite length_app in Hsz. assert (Hst := stuff_length line).
    destruct (Nat.ltb_spec max (length data + length (stuff line))); [lia|].
    rewrite unstuff_stuff. rewrite IH; [|rewrite length_app; lia|lia].
    by rewrite <- app_assoc.
Qed.

Lemma stuffed_received r lines rest e max_message_size : usable max_message_size →
  Forall is_line lines → length (concat lines) < max_message_size →
  flat r = (concat (map stuff lines) ++ DATA_TERMINATOR ++ rest, e) →
  ∃ r', receive_data (fuel_of r) r [] max_message_size = Some (Ok (Some (concat lines)), r') ∧
    flat r' = (rest, e).
Proof.
  intros Hmax Hl Hsz Hf.
  destruct (receive_data_usable (fuel_of r) r max_message_size _ e Hmax (Nat.lt_succ_diag_r _) Hf)
    as (res & r' & Hr & Hres & Hs).
  rewrite message_of_stuffed in Hres, Hs by (done || lia). subst res.
  exists r'. split; [done|]. by apply Hs.
Qed.

(** C6: round trip. A client that doubles the leading dots of its lines and ends
    them with the terminating dot has its message stored byte for byte, whatever
    follows it on the connection is left there, and no split of the bytes by the
    network changes that. The limit is above the message and is not one of the
    three largest of 64 bits, at which the budget wraps. *)
Theorem data_transparency r lines rest e max_message_size :
  (Z.of_nat max_message_size + 3 ≤ U64_MAX)%Z →
  Forall is_line lines →
  length (concat lines) < max_message_size →
  flat r = (concat (map stuff lines) ++ DATA_TERMINATOR ++ rest, e) →
  ∃ r', receive_data (fuel_of r) r [] max_message_size = Some (Ok (Some (concat lines)), r') ∧
    flat r' = (rest, e).
Proof. apply stuffed_received. Qed.
Lemma data_transparency_witness :
  let lines := [b#".dot" ++ crlf; b#"plain" ++ crlf] in
  let r := {| buffer := b#"..d";
              incoming := [Chunk (b#"ot" ++ [CR]); Chunk ([LF] ++ b#"plain" ++ crlf);
                           Chunk (DATA_TERMINATOR ++ b#"QUIT")] |} in
  ∃ r', receive_data (fuel_of r) r [] 14 = Some (Ok (Some (concat lines)), r') ∧
    flat r' = (b#"QUIT", AtEof).
Proof.
  apply (data_transparency _ [b#".dot" ++ crlf; b#"plain" ++ crlf] b#"QUIT" AtEof 14); [done|..].
  - repeat constructor; [exists (b#".dot" ++ [CR])|exists (b#"plain" ++ [CR])];
      (split; [reflexivity|by apply find_None]).
  - vm_compute. lia.
  - reflexivity.
Defined.

(** The size check counts a stuffed dot that the stored message does not have:
    a message of exactly the limit is refused when its last line starts with a
    dot, and accepted otherwise. *)
Example stuffed_dot_counts :
  let refused := {| buffer := b#"..a" ++ [LF] ++ DATA_TERMINATOR; incoming := [] |} in
  let accepted := {| buffer := b#"aa" ++ [LF] ++ DATA_TERMINATOR; incoming := [] |} in
  fst <$> receive_data (fuel_of refused) refused [] 3 = Some (Err MessageTooLarge) ∧
  fst <$> receive_data (fuel_of accepted) accepted [] 3 = Some (Ok (Some (b#"aa" ++ [LF]))).
Proof. split; reflexivity. Qed.

(** The three largest limits refuse an ordinary message of five bytes. *)
Example wrapped_budget_refuses max :
  let r := {| buffer := b#"hello" ++ crlf ++ DATA_TERMINATOR; incoming := [] |} in
  ¬ usable max → (Z.of_nat max ≤ U64_MAX)%Z →
  fst <$> receive_data (fuel_of r) r [] max = Some (Err MessageTooLarge).
Proof.
  intros r Hmax Hbound. unfold usable in Hmax. change (length DATA_TERMINATOR) with 3 in Hmax.
  assert (Hb := line_budget_wraps max 0 Hbound ltac:(simpl; lia)). unfold U64_MAX in *.
  assert (line_budget max 0 = 0 ∨ line_budget max 0 = 1 ∨ line_budget max 0 = 2) as Hor by lia.
  unfold fuel_of at 1. cbn [receive_data]. change (length (@nil ascii)) with 0.
  by destruct Hor as [->|[->| ->]].
Qed.

(** A peer that disconnects right after a dot that no newline follows has its
    message accepted. *)
Example lone_dot_at_eof :
  let r := {| buffer := b#"a" ++ [LF] ++ b#"."; incoming := [] |} in
  fst <$> receive_data (fuel_of r) r [] 10 = Some (Ok (Some (b#"a" ++ [LF]))).
Proof. reflexivity. Qed.
