(* ===== verification/SmtpSession.v ===== *)
(** One SMTP session: the state machine of [Session::handle] in
    [crates/rustmail-smtp/src/session.rs], with the message types of
    [message.rs]. The connection, the consumer of the deliveries and the TLS
    handshake answer from scripts in the state, and every reply and hand-off is
    recorded in the order it happens. *)
From S2P Require Import Prelude RustStd SmtpCommand SmtpStream.

(** ** Messages and deliveries ([message.rs]) *)

Record ReceivedMessage := { sender : bytes; recipients : list bytes; raw : bytes }.
#[export] Instance ReceivedMessage_eq_dec : EqDecision ReceivedMessage.
Proof. solve_decision. Defined.

Inductive DeliveryOutcome := Stored | Rejected.
#[export] Instance DeliveryOutcome_eq_dec : EqDecision DeliveryOutcome.
Proof. solve_decision. Defined.

(** What becomes of one hand-off: the queue is closed, or the verdict channel
    gives an answer, is dropped unanswered or stays silent past
    [STORE_ACK_TIMEOUT]. *)
Inductive handoff :=
| ChannelClosed
| Verdict (o : DeliveryOutcome)
| AckDropped
| AckTimedOut.
#[export] Instance handoff_eq_dec : EqDecision handoff.
Proof. solve_decision. Defined.

(** ** The session and its surroundings *)

Inductive Layer := Plain | Tls.
#[export] Instance Layer_eq_dec : EqDecision Layer.
Proof. solve_decision. Defined.

Inductive tx := TxOk | TxError | TxStall.
(** A handshake that succeeds carries what is read through it afterwards. *)
Inductive tls_accept := TlsOk (decrypted : list rx) | TlsFailed | TlsStall.

Inductive event :=
| Command (line : bytes)
| Replied (response : bytes)
| Submitted (m : ReceivedMessage) (h : handoff)
| Upgraded.

Record Session := {
  stream : option (Layer * BufReader);
  max_message_size : nat;
  tls : bool;
  greeted : bool;
  mail_from : option bytes;
  rcpt_to : list bytes;
  (* the surroundings *)
  writes : list tx;
  handoffs : list handoff;
  handshakes : list tls_accept;
  trace : list event;
}.

Definition set_stream st s :=
  {| stream := st; max_message_size := max_message_size s; tls := tls s; greeted := greeted s;
     mail_from := mail_from s; rcpt_to := rcpt_to s; writes := writes s; handoffs := handoffs s;
     handshakes := handshakes s; trace := trace s |}.
Definition set_greeted g s :=
  {| stream := stream s; max_message_size := max_message_size s; tls := tls s; greeted := g;
     mail_from := mail_from s; rcpt_to := rcpt_to s; writes := writes s; handoffs := handoffs s;
     handshakes := handshakes s; trace := trace s |}.
Definition set_envelope from to s :=
  {| stream := stream s; max_message_size := max_message_size s; tls := tls s; greeted := greeted s;
     mail_from := from; rcpt_to := to; writes := writes s; handoffs := handoffs s;
     handshakes := handshakes s; trace := trace s |}.
Definition set_scripts w h t s :=
  {| stream := stream s; max_message_size := max_message_size s; tls := tls s; greeted := greeted s;
     mail_from := mail_from s; rcpt_to := rcpt_to s; writes := w; handoffs := h;
     handshakes := t; trace := trace s |}.
Definition log (e : event) s :=
  {| stream := stream s; max_message_size := max_message_size s; tls := tls s; greeted := greeted s;
     mail_from := mail_from s; rcpt_to := rcpt_to s; writes := writes s; handoffs := handoffs s;
     handshakes := handshakes s; trace := trace s ++ [e] |}.

Definition new (incoming : list rx) (max_message_size : nat) (tls : bool)
    (writes : list tx) (handoffs : list handoff) (handshakes : list tls_accept) : Session :=
  {| stream := Some (Plain, {| buffer := []; incoming := incoming |});
     max_message_size := max_message_size; tls := tls; greeted := false;
     mail_from := None; rcpt_to := []; writes := writes; handoffs := handoffs;
     handshakes := handshakes; trace := [] |}.

Abbreviation SM := (M Session SessionError).

(** Runs a reading loop on the stream, which [stream_mut] gives. *)
Definition on_stream {A} (f : BufReader → option (result SessionError A * BufReader)) : SM A :=
  λ s, match stream s with
       | None => Some (Err StreamClosed, s)
       | Some (l, r) =>
         match f r with
         | None => None
         | Some (res, r) => Some (res, set_stream (Some (l, r)) s)
         end
       end.

(** A reply goes out whole, or its error ends the session. *)
Definition write (response : bytes) : SM unit := λ s,
  match stream s with
  | None => Some (Err StreamClosed, s)
  | Some _ =>
    let rest := set_scripts (tail (writes s)) (handoffs s) (handshakes s) s in
    match writes s with
    | TxError :: _ => Some (Err Io, rest)
    | TxStall :: _ => Some (Err Timeout, rest)
    | _ => Some (Ok tt, log (Replied response) rest)
    end
  end.

(** ** Reading a command *)

Definition read_bounded_line_raw : SM (nat * bytes) :=
  on_stream (λ r,
    match read_line_untimed (fuel_of r) r [] MAX_LINE_LENGTH with
    | None => None
    | Some (Ok n, buf, r) => Some (Ok (n, buf), r)
    | Some (Err e, _, r) => Some (Err e, r)
    end).
Definition read_bounded_line : SM (nat * bytes) :=
  p ← read_bounded_line_raw;
  let '(bytes_read, raw) := p in
  if bytes_read =? 0 then mret (0, [])
  else let s := from_utf8_lossy raw in mret (length s, s).

(** ** The transaction *)

Definition reset_transaction : SM unit := modify (set_envelope None []).
Definition reset_after_starttls : SM unit := modify (set_greeted false);; reset_transaction.
Definition tls_active (s : Session) : bool :=
  match stream s with Some (Tls, _) => true | _ => false end.

Definition ehlo_response (s : Session) : bytes :=
  b#"250-rustmail" ++ crlf ++ b#"250-SIZE " ++ display_N (N.of_nat (max_message_size s)) ++ crlf ++
  b#"250-8BITMIME" ++ crlf ++ b#"250-PIPELINING" ++ crlf ++
  (if tls s && negb (tls_active s) then b#"250-STARTTLS" ++ crlf else []) ++
  b#"250-AUTH PLAIN LOGIN" ++ crlf ++ b#"250 HELP" ++ crlf.

(** ** STARTTLS *)

Definition upgrade_to_tls : SM unit := λ s,
  match stream s with
  | None => Some (Err StreamClosed, s)
  | Some (layer, r) =>
    match buffer r with
    | _ :: _ => Some (Err TlsUpgrade, s)
    | [] =>
      if negb (tls s) then Some (Err TlsUpgrade, s)
      else
        let s := set_stream None s in
        match layer with
        | Tls => Some (Err TlsUpgrade, s)
        | Plain =>
          let rest := set_scripts (writes s) (handoffs s) (tail (handshakes s)) s in
          match handshakes s with
          | TlsOk decrypted :: _ =>
            reset_after_starttls
              (log Upgraded
                (set_stream (Some (Tls, {| buffer := []; incoming := decrypted |})) rest))
          | TlsStall :: _ => Some (Err Timeout, rest)
          | _ => Some (Err TlsUpgrade, rest)
          end
        end
    end
  end.

(** ** AUTH: every attempt is accepted *)

Definition AUTH_OK : bytes := b#"235 2.7.0 Authentication successful" ++ crlf.
Definition handle_auth_plain (line : bytes) : SM unit :=
  match splitn 3 " "%char line with
  | [_; _; _ :: _] => write AUTH_OK
  | _ =>
    write (b#"334" ++ crlf);;
    read_bounded_line;;
    write AUTH_OK
  end.
Definition handle_auth_login : SM unit :=
  write (b#"334 VXNlcm5hbWU6" ++ crlf);;
  read_bounded_line;;
  write (b#"334 UGFzc3dvcmQ6" ++ crlf);;
  read_bounded_line;;
  write AUTH_OK.

(** ** DATA *)

(** [receive_data] with the envelope the session holds. *)
Definition receive_message : SM (option ReceivedMessage) :=
  max ← gets max_message_size;
  data ← on_stream (λ r, receive_data (fuel_of r) r [] max);
  from ← gets mail_from;
  to ← gets rcpt_to;
  mret ((λ raw, {| sender := default [] from; recipients := to; raw := raw |}) <$> data).

(** What the session answers for a hand-off. *)
Definition verdict_reply (h : handoff) : bytes :=
  match h with
  | Verdict Stored => OK
  | ChannelClosed | Verdict Rejected | AckDropped | AckTimedOut => LOCAL_ERROR
  end.
(** An exhausted script is a closed queue. *)
Definition deliver (message : ReceivedMessage) : SM unit :=
  h ← gets (λ s, default ChannelClosed (head (handoffs s)));
  modify (λ s, log (Submitted message h)
                 (set_scripts (writes s) (tail (handoffs s)) (handshakes s) s));;
  write (verdict_reply h).

(** The [DATA] branch after its [354]; the answer says whether the command
    count restarts. *)
Definition receive_and_deliver : SM bool :=
  λ s,
    match receive_message s with
    | None => None
    | Some (Ok message, s) =>
      (match message with Some m => deliver m | None => mret tt end;;
       reset_transaction;;
       mret true) s
    | Some (Err MessageTooLarge, s) =>
      (write (b#"552 Message exceeds maximum size" ++ crlf);; mret false) s
    | Some (Err e, s) => Some (Err e, s)
    end.
Definition handle_data : SM bool := write DATA_START;; receive_and_deliver.

(** ** One command *)

(** The body of the loop of [handle] after a line is read. [None] is the
    [return Ok(())] of [QUIT]; otherwise the command count to go on with. *)
Definition dispatch (trimmed : bytes) (command_count : nat) : SM (option nat) :=
  let upper := to_ascii_uppercase trimmed in
  let go : SM (option nat) := mret (Some command_count) in
  s ← gets id;
  if starts_with b#"EHLO" upper || starts_with b#"HELO" upper then
    modify (set_greeted true);;
    reset_transaction;;
    ehlo ← gets ehlo_response;
    write ehlo;; go
  else if beqb upper b#"STARTTLS" then
    (if negb (tls s) then write (b#"454 TLS not available due to temporary reason" ++ crlf)
     else if tls_active s then write BAD_SEQUENCE
     else write STARTTLS_READY;; upgrade_to_tls);; go
  else if starts_with b#"MAIL FROM:" upper then
    (if negb (greeted s) then write BAD_SEQUENCE
     else match declared_size_refusal trimmed (max_message_size s) with
          | Some refusal => write refusal
          | None =>
            modify (set_envelope (Some (extract_address trimmed)) []);; write OK
          end);; go
  else if starts_with b#"RCPT TO:" upper then
    (match mail_from s with
     | None => write BAD_SEQUENCE
     | Some from =>
       if MAX_RECIPIENTS <=? length (rcpt_to s) then write (b#"452 Too many recipients" ++ crlf)
       else
         modify (set_envelope (Some from) (rcpt_to s ++ [extract_address trimmed]));;
         write OK
     end);; go
  else if beqb upper b#"DATA" then
    match mail_from s, rcpt_to s with
    | Some _, _ :: _ =>
      restart ← handle_data;
      mret (Some (if restart : bool then 0 else command_count))
    | _, _ => write BAD_SEQUENCE;; go
    end
  else if beqb upper b#"QUIT" then write QUIT_RESPONSE;; mret None
  else if beqb upper b#"RSET" then reset_transaction;; write RSET_OK;; go
  else if starts_with b#"AUTH PLAIN" upper then handle_auth_plain trimmed;; go
  else if starts_with b#"AUTH LOGIN" upper then handle_auth_login;; go
  else if starts_with b#"AUTH" upper then
    write (b#"504 Unrecognized authentication type" ++ crlf);; go
  else if beqb upper b#"NOOP" then write OK;; go
  else write UNKNOWN_CMD;; go.

(** One turn of the loop of [handle]; [None] is its [return Ok(())]. *)
Definition handle_turn (command_count : nat) : SM (option nat) :=
  p ← read_bounded_line;
  let '(bytes_read, line) := p in
  if bytes_read =? 0 then mret None
  else
    let command_count := command_count + 1 in
    modify (log (Command line));;
    if MAX_COMMANDS_PER_TRANSACTION <? command_count then
      write (b#"421 Too many commands" ++ crlf);; mret None
    else dispatch (trim line) command_count.

Fixpoint handle_loop (fuel : nat) (command_count : nat) : SM unit :=
  match fuel with
  | 0 => λ _, None
  | S fuel =>
    next ← handle_turn command_count;
    match next with None => mret tt | Some count => handle_loop fuel count end
  end.

(** Everything the session can still read, in the clear and through TLS. *)
Definition handshake_weight (t : tls_accept) : nat :=
  match t with TlsOk l => sum_list_with event_weight l | _ => 0 end.
Definition input_weight (s : Session) : nat :=
  match stream s with Some (_, r) => weight r | None => 0 end +
  sum_list_with handshake_weight (handshakes s).

Definition handle : SM unit := λ s,
  (write (b#"220 rustmail ESMTP ready" ++ crlf);; handle_loop (S (input_weight s)) 0) s.
