(* ===== verification/SmtpSafety.v ===== *)
(** What an SMTP session guarantees: the properties of [SmtpSession.handle]. *)
From S2P Require Import Prelude RustStd SmtpCommand SmtpStream SmtpSession.

(** ** The invariant *)

(** The events since the connection was last upgraded to TLS. *)
Definition since_upgrade (t : list event) : list event :=
  fold_left (λ acc e, match e with Upgraded => [] | _ => acc ++ [e] end) t [].
(** The peer sent, since then, a command that starts with [verb]; [f] of its
    trimmed line is [a]. *)
Definition issued (verb : bytes) (f : bytes → bytes) (a : bytes) (t : list event) : Prop :=
  ∃ line, Command line ∈ since_upgrade t ∧
    starts_with verb (to_ascii_uppercase (trim line)) = true ∧ f (trim line) = a.
Definition issued_from := issued b#"MAIL FROM:" extract_address.
Definition issued_to := issued b#"RCPT TO:" extract_address.
Definition said_hello (t : list event) : Prop :=
  issued b#"EHLO" (λ _, []) [] t ∨ issued b#"HELO" (λ _, []) [] t.

(** The envelope: recipients only after a sender, a sender only after a
    greeting, and all three from commands of the connection as it is now. *)
Record envelope_ok (s : Session) : Prop := {
  few_recipients : length (rcpt_to s) ≤ MAX_RECIPIENTS;
  sender_first : mail_from s = None → rcpt_to s = [];
  greeting_first : mail_from s ≠ None → greeted s = true;
  greeting_issued : greeted s = true → said_hello (trace s);
  sender_issued : ∀ a, mail_from s = Some a → issued_from a (trace s);
  recipients_issued : Forall (λ a, issued_to a (trace s)) (rcpt_to s);
}.

(** Each hand-off is answered by the very next event, as its outcome demands. *)
Fixpoint acknowledged (t : list event) : Prop :=
  match t with
  | [] => True
  | Submitted _ h :: t' =>
    match t' with [] => True | e :: _ => e = Replied (verdict_reply h) end ∧ acknowledged t'
  | _ :: t' => acknowledged t'
  end.
Definition pending (t : list event) : option handoff :=
  match last t with Some (Submitted _ h) => Some h | _ => None end.

Definition submission_ok (max : nat) (e : event) : Prop :=
  match e with
  | Submitted m _ =>
    recipients m ≠ [] ∧ length (recipients m) ≤ MAX_RECIPIENTS ∧ length (raw m) ≤ max
  | _ => True
  end.

(** The envelope of each message came from commands the peer sent before it on
    the same side of a TLS upgrade, a greeting among them. *)
Definition authentic (t : list event) : Prop :=
  ∀ pre m h post, t = pre ++ Submitted m h :: post →
    said_hello pre ∧ issued_from (sender m) pre ∧ Forall (λ a, issued_to a pre) (recipients m).

Definition commands (t : list event) : nat :=
  length (List.filter (λ e, match e with Command _ => true | _ => false end) t).
Definition submissions (t : list event) : nat :=
  length (List.filter (λ e, match e with Submitted _ _ => true | _ => false end) t).
Definition MAX_TURNS : nat := MAX_COMMANDS_PER_TRANSACTION + 1.
#[local] Arguments MAX_TURNS : simpl never.
#[local] Arguments MAX_COMMANDS_PER_TRANSACTION : simpl never.
#[local] Arguments Nat.mul : simpl never.

(** What holds throughout, with at most [w] left to read and the commands of
    the transaction under way counted by [n]. *)
Record J (max w n : nat) (s : Session) : Prop := {
  J_max : max_message_size s = max;
  J_envelope : envelope_ok s;
  J_acknowledged : acknowledged (trace s);
  J_submissions : Forall (submission_ok max) (trace s);
  J_authentic : authentic (trace s);
  J_weight : input_weight s ≤ w;
  J_commands : commands (trace s) ≤ MAX_TURNS * submissions (trace s) + n;
}.
(** The same between two commands, when no hand-off awaits its reply. *)
Definition K (max w n : nat) (s : Session) : Prop := J max w n s ∧ pending (trace s) = None.

(** After an operation: an error may leave a hand-off unanswered. *)
Definition post {A} (max w n : nat) (r : result SessionError A) (s : Session) : Prop :=
  match r with Ok _ => K max w n s | Err _ => J max w n s end.

(** *** Traces that grow by one event *)

Lemma acknowledged_snoc t e :
  acknowledged t → (∀ h, pending t = Some h → e = Replied (verdict_reply h)) →
  acknowledged (t ++ [e]).
Proof.
  induction t as [|x t IH]; simpl; intros Ht He; [by destruct e|].
  assert (∀ h, pending t = Some h → e = Replied (verdict_reply h)) as He'.
  { intros h Hh. apply He. unfold pending in *. by destruct t. }
  destruct x; simpl in *; auto. destruct Ht as [Hn Ht]. split; [|by auto].
  destruct t; simpl; [by apply (He h)|done].
Qed.
Lemma pending_snoc t e :
  pending (t ++ [e]) = match e with Submitted _ h => Some h | _ => None end.
Proof. unfold pending. by rewrite last_snoc. Qed.
Lemma commands_snoc t e :
  commands (t ++ [e]) = commands t + match e with Command _ => 1 | _ => 0 end.
Proof. unfold commands. rewrite List.filter_app, length_app. by destruct e. Qed.
Lemma submissions_snoc t e :
  submissions (t ++ [e]) = submissions t + match e with Submitted _ _ => 1 | _ => 0 end.
Proof. unfold submissions. rewrite List.filter_app, length_app. by destruct e. Qed.

Lemma acknowledged_app pre m h post :
  acknowledged (pre ++ Submitted m h :: post) →
  match post with [] => True | e :: _ => e = Replied (verdict_reply h) end.
Proof. induction pre as [|[] pre IH]; simpl; naive_solver. Qed.

Lemma since_upgrade_snoc t e :
  since_upgrade (t ++ [e]) = match e with Upgraded => [] | _ => since_upgrade t ++ [e] end.
Proof. unfold since_upgrade. rewrite fold_left_app. by destruct e. Qed.
Lemma issued_snoc verb f a t e :
  e ≠ Upgraded → issued verb f a t → issued verb f a (t ++ [e]).
Proof.
  intros He (line & Hin & ?). exists line. split; [|done]. rewrite since_upgrade_snoc.
  destruct e; (done || by apply elem_of_app; left).
Qed.
Lemma said_hello_snoc t e : e ≠ Upgraded → said_hello t → said_hello (t ++ [e]).
Proof. intros ? [|]; [left|right]; by apply issued_snoc. Qed.
Lemma authentic_snoc t e :
  authentic t →
  match e with
  | Submitted m _ =>
    said_hello t ∧ issued_from (sender m) t ∧ Forall (λ a, issued_to a t) (recipients m)
  | _ => True
  end → authentic (t ++ [e]).
Proof.
  intros Ht He pre m h post Heq. destruct post as [|x post _] using rev_ind.
  - apply app_inj_tail in Heq as [-> ->]. done.
  - rewrite app_comm_cons, app_assoc in Heq. apply app_inj_tail in Heq as [-> _]. by eapply Ht.
Qed.
Lemma envelope_ok_log e s : e ≠ Upgraded → envelope_ok s → envelope_ok (log e s).
Proof.
  intros He []. constructor; simpl; try done.
  - intros. by apply said_hello_snoc; auto.
  - intros. apply issued_snoc; [done|]. by apply sender_issued0.
  - eapply Forall_impl; [done|]. intros. by apply issued_snoc.
Qed.

(** ** Primitive operations *)

Lemma J_mono max w n w' n' s : w ≤ w' → n ≤ n' → J max w n s → J max w' n' s.
Proof. intros ?? []. constructor; (done || lia). Qed.
Lemma K_mono max w n w' n' s : w ≤ w' → n ≤ n' → K max w n s → K max w' n' s.
Proof. intros ?? []. split; [by eapply J_mono|done]. Qed.
Lemma K_J max w n s : K max w n s → J max w n s.
Proof. by intros []. Qed.
#[local] Hint Resolve K_J : rustmail.

(** Anything that leaves the trace, the limit and the input alone. *)
Lemma K_envelope max w n g from to s :
  K max w n s → envelope_ok (set_envelope from to (set_greeted g s)) →
  K max w n (set_envelope from to (set_greeted g s)).
Proof. intros [[] ?] ?. split; [|done]. by constructor. Qed.
Lemma set_greeted_id s : set_greeted (greeted s) s = s.
Proof. by destruct s. Qed.

Lemma K_scripts max w n wr h s : K max w n s → K max w n (set_scripts wr h (handshakes s) s).
Proof. intros [[] ?]. split; [|done]. constructor; try done. by destruct J_envelope0; constructor. Qed.

(** The one way [J] grows by an event. *)
Lemma J_log max w n n' e s :
  J max w n s → e ≠ Upgraded →
  (∀ h, pending (trace s) = Some h → e = Replied (verdict_reply h)) →
  submission_ok max e →
  match e with
  | Submitted m _ =>
    issued_from (sender m) (trace s) ∧ Forall (λ a, issued_to a (trace s)) (recipients m) ∧
    said_hello (trace s)
  | _ => True
  end →
  match e with Command _ => n < n' | Submitted _ _ => n ≤ MAX_TURNS | _ => n ≤ n' end →
  J max w n' (log e s).
Proof.
  intros [] He Hp Hs Ha Hn. constructor; simpl; try done.
  - by apply envelope_ok_log.
  - by apply acknowledged_snoc.
  - apply Forall_app; split; [done|]. by constructor.
  - apply authentic_snoc; [done|]. destruct e; naive_solver.
  - rewrite commands_snoc, submissions_snoc. destruct e; lia.
Qed.
Lemma K_log max w n n' e s :
  match e with Replied _ => n ≤ n' | Command _ => n < n' | _ => False end →
  K max w n s → K max w n' (log e s).
Proof.
  intros He [HJ Hp]. split; simpl.
  - apply (J_log max w n); [done|by destruct e|by rewrite Hp|by destruct e..].
  - simpl. rewrite pending_snoc. by destruct e.
Qed.

Lemma write_spec max w n r : hoare (K max w n) (write r) (post max w n).
Proof.
  intros s HK. unfold wp, write. destruct (stream s); [|eexists _, _; split; [done|by apply K_J]].
  assert (HS := λ wr, K_scripts max w n wr (handoffs s) s HK).
  destruct (writes s) as [|[] ?]; eexists _, _; (split; [done|]); simpl.
  1,2: by apply (K_log max w n). all: by apply K_J.
Qed.

(** The one reply that answers a hand-off. *)
Lemma write_verdict max w n h :
  hoare (λ s, J max w n s ∧ pending (trace s) = Some h) (write (verdict_reply h)) (post max w n).
Proof.
  intros s [HJ Hp]. unfold wp, write. destruct (stream s); [|by eexists _, _].
  assert (HJ' : ∀ wr, J max w n (set_scripts wr (handoffs s) (handshakes s) s)).
  { intros wr. destruct HJ. constructor; try done. by destruct J_envelope0; constructor. }
  assert (HK : ∀ wr, K max w n (log (Replied (verdict_reply h))
    (set_scripts wr (handoffs s) (handshakes s) s))).
  { intros wr. split; simpl; [|by rewrite pending_snoc].
    apply (J_log max w n); try done. simpl. intros h'. rewrite Hp. by intros [= ->]. }
  destruct (writes s) as [|[] ?]; eexists _, _; (split; [done|]); simpl; by auto.
Qed.

(** *** Reading *)

(** A loop on the stream leaves everything else alone; [Q] relates the reader
    it found to its answer and the reader it left, and [F] holds of the envelope. *)
Lemma on_stream_spec {A} (F : option bytes → list bytes → Prop) max w n (f : BufReader → option (result SessionError A * BufReader))
    (Q : BufReader → result SessionError A → BufReader → Prop) :
  (∀ r, ∃ res r', f r = Some (res, r') ∧ weight r' ≤ weight r ∧ Q r res r') →
  hoare (λ s, K max w n s ∧ F (mail_from s) (rcpt_to s)) (on_stream f)
    (λ res s, (K max w n s ∧ F (mail_from s) (rcpt_to s)) ∧
      (res = Err StreamClosed ∨
       ∃ l r r', stream s = Some (l, r') ∧ Q r res r' ∧
         weight r ≤ w ∧ K max (w - (weight r - weight r')) n s)).
Proof.
  intros Hf s [HK HF]. unfold wp, on_stream. destruct (stream s) as [[l r]|] eqn:Es; [|by eexists _, _; eauto].
  destruct (Hf r) as (res & r' & -> & Hw & HQ). do 2 eexists. split; [done|].
  assert (HK' : K max (w - (weight r - weight r')) n (set_stream (Some (l, r')) s)).
  { destruct HK as [[] Hp]. split; [|done]. constructor; try done.
    - by destruct J_envelope0; constructor.
    - unfold input_weight in *. rewrite Es in J_weight0. simpl. lia. }
  split; [split; [eapply K_mono; [| |exact HK']; lia|done]|]. right. exists l, r, r'. split_and!; try done.
  destruct HK as [[] _]. unfold input_weight in *. rewrite Es in J_weight0. lia.
Qed.

Lemma read_bounded_line_spec max w n :
  hoare (K max w n) read_bounded_line (λ res s,
    K max w n s ∧
    match res with Ok (k, _) => k = 0 ∨ (0 < w ∧ K max (w - 1) n s) | Err _ => True end).
Proof.
  intros s HK. unfold read_bounded_line, read_bounded_line_raw.
  eapply wp_seq; [apply (on_stream_spec (λ _ _, True) max w n _ (λ r res r',
      match res with Ok (k, _) => k = 0 ∨ weight r' < weight r | Err _ => True end))|done|].
  - intros r. destruct (flat r) as [t e] eqn:Hf.
    destruct (read_line_spec (fuel_of r) r [] MAX_LINE_LENGTH t e)
      as (res & b & r' & -> & _ & Hw & Hdec & Hlr); [unfold fuel_of; lia|done|].
    destruct res as [k|]; repeat eexists; try done.
    destruct (decide (t = [])) as [->|]; [left|right; by apply Hdec].
    inversion Hlr as [? ? [? _]%cut_line_length| | |]; [|done]. simplify_eq/=. lia.
  - intros [[k b]|e] s' [[HK' _] Hor]; [|done].
    destruct (Nat.eqb_spec k 0) as [->|Hk]; apply wp_ret; simpl; [by auto|].
    destruct Hor as [|(l & r & r' & _ & [|Hlt] & Hw & HK'')]; [done..|].
    split; [done|]. right. split; [lia|]. eapply K_mono; [| |exact HK'']; lia.
Qed.

Definition at_eof (s : Session) : Prop := ∃ l r, stream s = Some (l, r) ∧ flat r = ([], AtEof).

Lemma read_at_eof max w n :
  hoare (λ s, K max w n s ∧ at_eof s) read_bounded_line
    (λ res s, K max w n s ∧ res = Ok (0, [])).
Proof.
  intros s [HK (l & r & Es & Hf)]. exists (Ok (0, [])), (set_stream (Some (l, r)) s).
  split.
  - unfold read_bounded_line, read_bounded_line_raw, on_stream, mbind, M_mbind. rewrite Es.
    destruct (fill_buf_spec r) as [(e & Hf' & Hb)|(av & r' & Hne & Hb & Hbuf & Hf' & _)].
    + rewrite Hf in Hf'. simplify_eq. cbn. by rewrite Hb.
    + rewrite Hf in Hf'. destruct (flat_buffer _ _ _ Hf') as [t Ht]. rewrite Hbuf in Ht.
      by destruct av.
  - split; [|done]. destruct HK as [[] Hp]. split; [|done]. constructor; try done.
    + by destruct J_envelope0; constructor.
    + unfold input_weight in *. by rewrite Es in J_weight0.
Qed.

(** ** The DATA phase *)

Lemma message_within_none fuel s e data max : length s < fuel →
  fst (message_within fuel s e data max) = Ok None →
  e = AtEof ∧ snd (message_within fuel s e data max) = [].
Proof.
  revert s data. induction fuel as [|fuel IH]; intros s data Hl; [lia|]. cbn [message_within].
  destruct (cut_line s) as [[line rest]|] eqn:Hc.
  - apply cut_line_length in Hc. case_match; [done|]. case_match; [by case_match|].
    apply IH. lia.
  - by destruct e.
Qed.

(** A message the session may hand over. *)
Definition addressed (max : nat) (m : ReceivedMessage) (s : Session) : Prop :=
  (∀ h, submission_ok max (Submitted m h)) ∧ issued_from (sender m) (trace s) ∧
  Forall (λ a, issued_to a (trace s)) (recipients m) ∧ said_hello (trace s).

Lemma receive_message_spec max w n :
  hoare (λ s, K max w n s ∧ (mail_from s ≠ None ∧ rcpt_to s ≠ [])) receive_message
    (λ res s, K max w n s ∧
      match res with
      | Ok (Some m) => addressed max m s
      | Ok None => at_eof s
      | Err _ => True
      end).
Proof.
  intros s [HK HF]. assert (max_message_size s = max) as Hmax by apply HK.
  destruct (on_stream_spec (λ from to, from ≠ None ∧ to ≠ []) max w n
    (λ r, receive_data (fuel_of r) r [] max)
    (λ r res r', match res with
      | Ok (Some raw) => length raw ≤ max
      | Ok None => flat r' = ([], AtEof)
      | Err _ => True
      end)) with (s := s) as (res & s1 & Hrun & [HK1 HF1] & Hres); [|done|].
  { intros r. destruct (flat r) as [t e] eqn:Hf.
    destruct (receive_data_spec (fuel_of r) r [] max t e) as (res & r' & Hr & Hw & Hres & Hfl);
      [unfold fuel_of; lia|done|].
    exists res, r'. split_and!; [done|done|]. destruct res as [[raw|]|]; [| |done].
    - by apply (message_within_bounded (S (length t)) t e []); [simpl; lia|].
    - destruct (message_within_none (S (length t)) t e [] max) as [-> Hnil]; [lia|done|].
      rewrite Hfl by done. by rewrite Hnil. }
  unfold wp, receive_message, mbind, M_mbind, gets. rewrite Hmax, Hrun.
  destruct res as [data|e]; eexists _, s1; (split; [done|]); (split; [done|]); simpl; [|done].
  destruct Hres as [|(l & r & r' & Es & HQ & _)]; [done|]. destruct data as [raw|]; simpl; [|by exists l, r'].
  destruct HK1 as [[? [] _ _ _ _ _] _], HF1 as [Hfrom Hto]. split_and!; simpl.
  - intros h. by split_and!.
  - destruct (mail_from s1) as [a|]; [|done]. by apply sender_issued0.
  - done.
  - by auto.
Qed.

(** A delivered message closes the account of the commands spent on it. *)
Lemma deliver_spec max w n m : n ≤ MAX_TURNS →
  hoare (λ s, K max w n s ∧ addressed max m s) (deliver m) (post max w 0).
Proof.
  intros Hn s [[HJ Hp] (Hok & Hfrom & Hto & Hhello)]. unfold deliver. apply wp_gets, wp_modify.
  apply write_verdict. split; simpl; [|by rewrite pending_snoc].
  apply (J_log max w n); try done.
  - destruct HJ. constructor; try done. by destruct J_envelope0; constructor.
  - simpl. by rewrite Hp.
Qed.

Lemma K_reset max w n s : K max w n s → K max w n (set_envelope None [] s).
Proof.
  intros HK. rewrite <- (set_greeted_id s) at 1. apply K_envelope; [done|].
  destruct HK as [[_ [] _ _ _ _ _] _]. constructor; simpl; try done; lia.
Qed.

(** What a turn leaves for the next one. *)
Definition ready (max w n : nat) (s : Session) : Prop :=
  (K max w n s ∧ n ≤ MAX_COMMANDS_PER_TRANSACTION) ∨ (K max w MAX_TURNS s ∧ at_eof s).

Lemma receive_and_deliver_spec max w n : n ≤ MAX_COMMANDS_PER_TRANSACTION →
  hoare (λ s, K max w n s ∧ (mail_from s ≠ None ∧ rcpt_to s ≠ [])) receive_and_deliver
    (λ r s, match r with
            | Ok true => ready max w 0 s
            | Ok false => K max w n s
            | Err _ => J max w n s
            end).
Proof.
  intros Hn s Hs. unfold wp, receive_and_deliver.
  destruct (receive_message_spec max w n s Hs) as (res & s1 & -> & HK & Hres).
  assert (n ≤ MAX_TURNS) by (unfold MAX_TURNS; lia).
  destruct res as [[m|]|e].
  - eapply wp_seq; [by apply (deliver_spec max w n)|by split|].
    intros [[]|e] s' HK'; [|by eapply J_mono; [| |exact HK']; lia].
    apply wp_modify, wp_ret. left. split; [by apply K_reset|lia].
  - eexists _, _. split; [done|]. right. split; [|destruct Hres as (l & r & ? & ?); by exists l, r].
    apply K_reset. eapply K_mono; [| |exact HK]; lia.
  - destruct e; try (eexists _, _; split; [done|by apply K_J]).
    eapply wp_seq; [apply write_spec|done|]. intros [[]|e] s' HK'; [by apply wp_ret|done].
Qed.

Lemma handle_data_spec max w n : n ≤ MAX_COMMANDS_PER_TRANSACTION →
  hoare (λ s, K max w n s ∧ (mail_from s ≠ None ∧ rcpt_to s ≠ [])) handle_data
    (λ r s, match r with
            | Ok true => ready max w 0 s
            | Ok false => K max w n s
            | Err _ => J max w n s
            end).
Proof.
  intros Hn s [HK HF]. unfold handle_data. apply wp_bind.
  destruct (write_spec max w n DATA_START s HK) as (r & s1 & Hw & HP).
  exists r, s1. split; [done|]. destruct r as [[]|]; [|done].
  apply (receive_and_deliver_spec max w n Hn). split; [done|].
  unfold write in Hw. repeat case_match; simplify_eq; done.
Qed.

(** ** STARTTLS and AUTH *)

Lemma upgrade_to_tls_spec max w n : hoare (K max w n) upgrade_to_tls (post max w n).
Proof.
  intros s HK. assert (HJ := HK). destruct HJ as [[] Hp].
  assert (Hkeep : ∀ st h', match st with Some (_, r) => weight r | None => 0 end +
      sum_list_with handshake_weight h' ≤ input_weight s →
      J max w n (set_scripts (writes s) (handoffs s) h' (set_stream st s))).
  { intros st h' Hle. constructor; try done.
    - by destruct J_envelope0; constructor.
    - unfold input_weight in *. simpl. lia. }
  unfold wp, upgrade_to_tls. unfold input_weight in Hkeep, J_weight0.
  destruct (stream s) as [[layer r]|] eqn:Es; [|eexists _, _; split; [done|apply HK]].
  destruct (buffer r) eqn:Eb; [|eexists _, _; split; [done|apply HK]].
  destruct (tls s); simpl; [|eexists _, _; split; [done|apply HK]].
  destruct layer; [|eexists _, _; split; [done|]; simpl;
    specialize (Hkeep None (handshakes s)); simpl in Hkeep;
    assert (set_scripts (writes s) (handoffs s) (handshakes s) (set_stream None s)
      = set_stream None s) as <- by done; apply Hkeep; lia].
  destruct (handshakes s) as [|[decrypted| |] hs] eqn:Eh; simpl in *;
    (eexists _, _; split; [done|]); simpl; try (apply (Hkeep None); simpl; lia).
  destruct (Hkeep (Some (Tls, {| buffer := []; incoming := decrypted |})) hs) as [];
    [unfold weight; simpl; lia|].
  split; [|simpl; by rewrite pending_snoc].
  constructor; simpl in *; try done.
  - constructor; simpl; (done || lia || by apply Forall_nil).
  - apply acknowledged_snoc; [done|]. by rewrite Hp.
  - apply Forall_app; split; [done|]. by repeat constructor.
  - by apply authentic_snoc.
  - rewrite commands_snoc, submissions_snoc. lia.
Qed.

Lemma ignore_line_spec {A} max w n (k : SM A) Q :
  hoare (K max w n) k Q → (∀ e s, J max w n s → Q (Err e) s) →
  hoare (K max w n) (read_bounded_line;; k) Q.
Proof.
  intros Hk HQ s HK. eapply wp_seq; [apply read_bounded_line_spec|done|].
  intros [[? ?]|e] s' [HK' _]; [by apply Hk|by apply HQ, K_J].
Qed.
Lemma write_then {A} max w n r (k : SM A) Q :
  hoare (K max w n) k Q → (∀ e s, J max w n s → Q (Err e) s) →
  hoare (K max w n) (write r;; k) Q.
Proof.
  intros Hk HQ s HK. eapply wp_seq; [apply write_spec|done|].
  intros [[]|e] s' HK'; [by apply Hk|by apply HQ].
Qed.
#[local] Hint Resolve write_spec upgrade_to_tls_spec : rustmail.

Lemma handle_auth_plain_spec max w n line :
  hoare (K max w n) (handle_auth_plain line) (post max w n).
Proof.
  unfold handle_auth_plain. repeat case_match; try apply write_spec;
    (apply write_then; [|done]; apply ignore_line_spec; [|done]; apply write_spec).
Qed.
Lemma handle_auth_login_spec max w n : hoare (K max w n) handle_auth_login (post max w n).
Proof.
  unfold handle_auth_login.
  do 2 (apply write_then; [|done]; apply ignore_line_spec; [|done]). apply write_spec.
Qed.
#[local] Hint Resolve handle_auth_plain_spec handle_auth_login_spec : rustmail.

(** ** One command *)

(** The command being answered, its trimmed line [trimmed]. *)
Definition current (trimmed : bytes) (s : Session) : Prop :=
  ∃ line, Command line ∈ since_upgrade (trace s) ∧ trimmed = trim line.

Lemma greet_spec max w n trimmed s :
  K max w n s → current trimmed s →
  starts_with b#"EHLO" (to_ascii_uppercase trimmed) ||
    starts_with b#"HELO" (to_ascii_uppercase trimmed) = true →
  K max w n (set_envelope None [] (set_greeted true s)).
Proof.
  intros HK (line & Hin & ->) Hv. apply K_envelope; [done|].
  constructor; simpl; (done || lia || (by apply Forall_nil) || idtac).
  intros _. apply orb_true_iff in Hv as [|]; [left|right]; by exists line.
Qed.
Lemma mail_from_spec max w n trimmed s :
  K max w n s → current trimmed s → greeted s = true →
  starts_with b#"MAIL FROM:" (to_ascii_uppercase trimmed) = true →
  K max w n (set_envelope (Some (extract_address trimmed)) [] s).
Proof.
  intros HK (line & Hin & ->) Hg Hv. rewrite <- (set_greeted_id s) at 1. apply K_envelope; [done|].
  destruct HK as [[_ [] _ _ _ _ _] _].
  constructor; simpl; (done || lia || (by apply Forall_nil) || idtac).
  intros a [= <-]. by exists line.
Qed.
Lemma rcpt_to_spec max w n trimmed from s :
  K max w n s → current trimmed s → mail_from s = Some from →
  length (rcpt_to s) < MAX_RECIPIENTS →
  starts_with b#"RCPT TO:" (to_ascii_uppercase trimmed) = true →
  K max w n (set_envelope (Some from) (rcpt_to s ++ [extract_address trimmed]) s).
Proof.
  intros HK (line & Hin & ->) Hf Hl Hv. rewrite <- (set_greeted_id s) at 1. apply K_envelope; [done|].
  destruct HK as [[_ [] _ _ _ _ _] _].
  constructor; simpl; try done.
  - rewrite length_app. simpl. lia.
  - intros _. apply greeting_first0. by rewrite Hf.
  - intros a [= <-]. by apply sender_issued0.
  - apply Forall_app; split; [done|]. constructor; [|done]. by exists line.
Qed.

(** What one command leaves: the count to go on with, the end of the session,
    or an error. *)
Definition turn_post (max w n : nat) (r : result SessionError (option nat)) (s : Session) : Prop :=
  match r with
  | Ok None => K max w n s
  | Ok (Some count) => ready max w count s
  | Err _ => J max w n s
  end.

Lemma then_go {A} max w n (c : SM A) : n ≤ MAX_COMMANDS_PER_TRANSACTION →
  ∀ s, wp c (post max w n) s → wp (c;; mret (Some n)) (turn_post max w n) s.
Proof.
  intros Hn s Hc. apply wp_bind. eapply wp_mono; [done|]. intros [a|e] s' H; [|done].
  apply wp_ret. by left.
Qed.

Lemma dispatch_spec max w n trimmed : n ≤ MAX_COMMANDS_PER_TRANSACTION →
  hoare (λ s, K max w n s ∧ current trimmed s) (dispatch trimmed n) (turn_post max w n).
Proof.
  intros Hn s [HK Hc]. unfold dispatch. apply wp_gets. unfold id.
  assert (Hgo := λ A (c : SM A), then_go max w n c Hn).
  assert (Hw := λ r, write_spec max w n r).
  destruct (_ || _) eqn:Hehlo.
  { apply wp_modify, wp_modify, wp_gets, Hgo, Hw. by apply (greet_spec max w n trimmed). }
  destruct (beqb _ b#"STARTTLS").
  { apply Hgo. destruct (tls s); simpl; [|by apply Hw]. destruct (tls_active s); [by apply Hw|].
    apply (write_then max w n); [apply upgrade_to_tls_spec|done|done]. }
  destruct (starts_with b#"MAIL FROM:" _) eqn:Hmail.
  { apply Hgo. destruct (greeted s) eqn:Hg; simpl; [|by apply Hw].
    destruct (declared_size_refusal _ _); [by apply Hw|].
    apply wp_modify, Hw. by apply mail_from_spec. }
  destruct (starts_with b#"RCPT TO:" _) eqn:Hrcpt.
  { apply Hgo. destruct (mail_from s) as [from|] eqn:Hf; [|by apply Hw].
    destruct (Nat.leb_spec MAX_RECIPIENTS (length (rcpt_to s))); [by apply Hw|].
    apply wp_modify, Hw. by apply rcpt_to_spec. }
  destruct (beqb _ b#"DATA").
  { destruct (mail_from s) eqn:Hf, (rcpt_to s) eqn:Ht; try (by apply Hgo, Hw).
    eapply wp_seq; [by apply (handle_data_spec max w n)|split; [done|by rewrite Hf, Ht]|].
    intros [[]|e] s' H; [apply wp_ret; done|apply wp_ret; by left|done]. }
  destruct (beqb _ b#"QUIT").
  { apply wp_bind. eapply wp_mono; [by apply Hw|]. intros [[]|e] s' H; [by apply wp_ret|done]. }
  destruct (beqb _ b#"RSET").
  { apply wp_modify, Hgo, Hw. by apply K_reset. }
  destruct (starts_with b#"AUTH PLAIN" _); [by apply Hgo, handle_auth_plain_spec|].
  destruct (starts_with b#"AUTH LOGIN" _); [by apply Hgo, handle_auth_login_spec|].
  destruct (starts_with b#"AUTH" _); [by apply Hgo, Hw|].
  destruct (beqb _ b#"NOOP"); by apply Hgo, Hw.
Qed.

(** ** The loop *)

Lemma since_upgrade_command line t : Command line ∈ since_upgrade (t ++ [Command line]).
Proof. rewrite since_upgrade_snoc. apply elem_of_app. right. by apply list_elem_of_singleton. Qed.

Lemma handle_turn_spec max w n : n ≤ MAX_COMMANDS_PER_TRANSACTION →
  hoare (K max w n) (handle_turn n)
    (λ r s, match r with
            | Ok None => K max w MAX_TURNS s
            | Ok (Some count) => ∃ w', w' < w ∧ ready max w' count s
            | Err _ => J max w MAX_TURNS s
            end).
Proof.
  intros Hn s HK. unfold handle_turn. eapply wp_seq; [apply (read_bounded_line_spec max w n)|done|].
  assert (n + 1 ≤ MAX_TURNS) by (unfold MAX_TURNS; lia).
  intros [[k line]|e] s' [HK' Hk]; [|apply K_J; eapply K_mono; [| |done]; lia].
  destruct (Nat.eqb_spec k 0) as [->|Hne]; [apply wp_ret; eapply K_mono; [| |done]; lia|].
  destruct Hk as [?|[Hw HK1]]; [done|]. apply wp_modify.
  assert (HK2 : K max (w - 1) (n + 1) (log (Command line) s')) by (apply (K_log max _ n); [lia|done]).
  destruct (Nat.ltb_spec MAX_COMMANDS_PER_TRANSACTION (n + 1)) as [|Hle].
  - apply wp_bind. eapply wp_mono; [by apply (write_spec max (w - 1) (n + 1))|].
    intros [[]|e] s2 H2; [apply wp_ret; eapply K_mono; [| |done]; lia|].
    eapply J_mono; [| |done]; lia.
  - eapply wp_mono; [apply (dispatch_spec max (w - 1) (n + 1)); [done|]|].
    { split; [done|]. exists line. split; [|done]. apply since_upgrade_command. }
    intros [[count|]|e] s2 H2.
    + exists (w - 1). split; [lia|done].
    + eapply K_mono; [| |exact H2]; lia.
    + eapply J_mono; [| |exact H2]; lia.
Qed.

(** A session whose peer is gone ends at the next read. *)
Lemma handle_turn_eof max w n c :
  hoare (λ s, K max w n s ∧ at_eof s) (handle_turn c) (λ r s, r = Ok None ∧ K max w n s).
Proof.
  intros s Hs. unfold handle_turn. eapply wp_seq; [apply (read_at_eof max w n)|done|].
  intros r s' [HK ->]. by apply wp_ret.
Qed.

(** The session's promise when it is over. *)
Definition finished (max w : nat) (r : result SessionError unit) (s : Session) : Prop :=
  J max w MAX_TURNS s ∧ (r = Ok tt → pending (trace s) = None).

Lemma handle_loop_spec max w fuel count : w < fuel →
  hoare (ready max w count) (handle_loop fuel count) (finished max w).
Proof.
  revert w count. induction fuel as [|fuel IH]; intros w count Hf s Hs; [lia|].
  cbn [handle_loop]. destruct Hs as [[HK Hn]|[HK Hend]].
  - eapply wp_seq; [by apply (handle_turn_spec max w count)|done|].
    intros [[c|]|e] s' H.
    + destruct H as (w' & Hlt & H). eapply wp_mono; [apply (IH w'); [lia|done]|].
      intros r s2 [HJ Hp]. split; [|done]. eapply J_mono; [| |done]; lia.
    + apply wp_ret. split; [by apply K_J|]. intros _. apply H.
    + split; [done|]. discriminate.
  - eapply wp_seq; [apply (handle_turn_eof max w MAX_TURNS)|done|].
    intros r s' [-> HK']. apply wp_ret. split; [by apply K_J|]. intros _. apply HK'.
Qed.

Lemma handle_spec max w : hoare (λ s, K max w 0 s ∧ w = input_weight s) handle (finished max w).
Proof.
  intros s [HK Hw]. unfold handle. apply wp_bind. rewrite <- Hw.
  eapply wp_mono; [by apply (write_spec max w 0)|]. intros [[]|e] s' H.
  - apply (handle_loop_spec max w); [lia|]. left. split; [done|lia].
  - split; [|discriminate]. eapply J_mono; [| |exact H]; lia.
Qed.

Lemma new_spec incoming max tls wr h t :
  let s := new incoming max tls wr h t in K max (input_weight s) 0 s.
Proof.
  split; [|done]. constructor; simpl; try done; try lia.
  - constructor; simpl; (done || lia || by apply Forall_nil).
  - intros [|? ?] m h' p Heq; discriminate Heq.
Qed.

Lemma session_spec incoming max tls wr h t r s' :
  handle (new incoming max tls wr h t) = Some (r, s') →
  ∃ w, finished max w r s'.
Proof.
  intros Hr. eexists. eapply wp_elim; [|done]. eapply handle_spec. split; [apply new_spec|done].
Qed.

(** ** Properties *)

(** C2: termination. Whatever the peer sends, however the connection, the
    consumer and the handshake behave, and wherever each of them stops, a
    session ends: the loop of [handle] reads at least a byte of a finite input
    on every turn that goes on. *)
Theorem session_terminates incoming max_message_size tls writes handoffs handshakes :
  ∃ r s, handle (new incoming max_message_size tls writes handoffs handshakes) = Some (r, s).
Proof.
  destruct (handle_spec max_message_size _ _
    (conj (new_spec incoming max_message_size tls writes handoffs handshakes) eq_refl))
    as (r & s & Hr & _). by exists r, s.
Qed.

(** C3: safety. A message handed to the consumer is answered by the very next
    thing the session does: [250 OK] when the consumer reported it stored, and
    [451] when it refused it, dropped it, was gone or never answered. Only a
    session that ends in an error, its connection lost, leaves one unanswered. *)
Theorem deliveries_answered incoming max_message_size tls writes handoffs handshakes r s :
  handle (new incoming max_message_size tls writes handoffs handshakes) = Some (r, s) →
  ∀ pre m h post, trace s = pre ++ Submitted m h :: post →
    (post = [] ∧ ∃ e, r = Err e) ∨
    ∃ post', post = Replied (match h with Verdict Stored => OK | _ => LOCAL_ERROR end) :: post'.
Proof.
  intros (w & [] & Hp)%session_spec pre m h post Ht. rewrite Ht in J_acknowledged0.
  apply acknowledged_app in J_acknowledged0. destruct post as [|e post].
  - left. split; [done|]. destruct r as [[]|e]; [|by eexists]. specialize (Hp eq_refl).
    rewrite Ht, pending_snoc in Hp. done.
  - right. exists post. rewrite J_acknowledged0. by destruct h as [|[]| |].
Qed.

(** C4: safety. The envelope of every message handed over comes from what the
    peer sent before it and, when the connection was upgraded, after the
    upgrade: its sender is the address of a [MAIL FROM] command, each recipient
    that of a [RCPT TO] command, and a greeting came too. Nothing a plaintext
    peer injected before [STARTTLS] reaches a message received under TLS. *)
Theorem deliveries_authentic incoming max_message_size tls writes handoffs handshakes r s :
  handle (new incoming max_message_size tls writes handoffs handshakes) = Some (r, s) →
  ∀ pre m h post, trace s = pre ++ Submitted m h :: post →
    said_hello pre ∧ issued_from (sender m) pre ∧ Forall (λ a, issued_to a pre) (recipients m).
Proof. intros (w & [] & _)%session_spec. exact J_authentic0. Qed.

(** C8: bounds. Every message handed over has between 1 and [MAX_RECIPIENTS]
    recipients and at most [max_message_size] bytes. *)
Theorem deliveries_bounded incoming max_message_size tls writes handoffs handshakes r s :
  handle (new incoming max_message_size tls writes handoffs handshakes) = Some (r, s) →
  ∀ m h, Submitted m h ∈ trace s →
    0 < length (recipients m) ≤ MAX_RECIPIENTS ∧ length (raw m) ≤ max_message_size.
Proof.
  intros (w & [] & _)%session_spec m h Hin.
  rewrite Forall_forall in J_submissions0. destruct (J_submissions0 _ Hin) as (Hne & ? & ?).
  destruct (recipients m); [done|]. simpl in *. split; [|done]. lia.
Qed.

(** The command limit: over a whole session the peer gets at most
    [MAX_COMMANDS_PER_TRANSACTION] commands answered, and one refused, for each
    message it delivers and for the time after the last. *)
Theorem commands_bounded incoming max_message_size tls writes handoffs handshakes r s :
  handle (new incoming max_message_size tls writes handoffs handshakes) = Some (r, s) →
  commands (trace s) ≤ (MAX_COMMANDS_PER_TRANSACTION + 1) * (1 + submissions (trace s)).
Proof. intros (w & [] & _)%session_spec. unfold MAX_TURNS in *. lia. Qed.

(** A session that is offered TLS, upgrades and delivers two messages. *)
Definition example_session : Session :=
  new [Chunk (b#"EHLO a" ++ crlf); Chunk (b#"STARTTLS" ++ crlf)] 100 true []
    [Verdict Stored; AckDropped]
    [TlsOk [Chunk (b#"EHLO a" ++ crlf ++ b#"MAIL FROM:<a@x>" ++ crlf ++ b#"RCPT TO:<b@y>" ++ crlf);
            Chunk (b#"DATA" ++ crlf ++ b#"hi" ++ crlf ++ b#"." ++ crlf);
            Chunk (b#"MAIL FROM:<a@x>" ++ crlf ++ b#"RCPT TO:<b@y>" ++ crlf ++ b#"DATA" ++ crlf);
            Chunk (b#"ho" ++ crlf ++ b#"." ++ crlf ++ b#"QUIT" ++ crlf)]].
Definition example_end : Session :=
  match handle example_session with Some (_, s) => s | None => example_session end.
Definition example_message (body : bytes) : ReceivedMessage :=
  {| sender := b#"a@x"; recipients := [b#"b@y"]; raw := body ++ crlf |}.

Lemma example_handle : handle example_session = Some (Ok tt, example_end).
Proof. vm_compute. reflexivity. Qed.
(** Its first hand-off is its fifteenth event. *)
Lemma example_handoff :
  trace example_end =
    take 14 (trace example_end) ++ Submitted (example_message b#"hi") (Verdict Stored) ::
    drop 15 (trace example_end).
Proof. vm_compute. reflexivity. Qed.

Lemma deliveries_answered_witness :
  let post := drop 15 (trace example_end) in
  (post = [] ∧ ∃ e, @Ok SessionError unit tt = Err e) ∨ ∃ post', post = Replied OK :: post'.
Proof. exact (deliveries_answered _ _ _ _ _ _ _ _ example_handle _ _ _ _ example_handoff). Defined.
Lemma deliveries_authentic_witness :
  let pre := take 14 (trace example_end) in
  said_hello pre ∧ issued_from b#"a@x" pre ∧ Forall (λ a, issued_to a pre) [b#"b@y"].
Proof. exact (deliveries_authentic _ _ _ _ _ _ _ _ example_handle _ _ _ _ example_handoff). Defined.
Lemma deliveries_bounded_witness : 0 < 1 ≤ MAX_RECIPIENTS ∧ 4 ≤ 100.
Proof.
  apply (deliveries_bounded _ _ _ _ _ _ _ _ example_handle (example_message b#"hi") (Verdict Stored)).
  rewrite example_handoff. apply elem_of_app. right. left.
Defined.
Lemma commands_bounded_witness :
  commands (trace example_end) ≤ (MAX_COMMANDS_PER_TRANSACTION + 1) * (1 + submissions (trace example_end)).
Proof. exact (commands_bounded _ _ _ _ _ _ _ _ example_handle). Defined.

(** An upgrade that succeeds leaves nothing of the plaintext session:
    the buffer held no byte the client pipelined behind [STARTTLS], the
    handshake is the only source of what is read from then on, and the greeting
    and the transaction are forgotten. *)
Theorem upgrade_forgets_plaintext s s' :
  upgrade_to_tls s = Some (Ok tt, s') →
  ∃ unread decrypted rest,
    stream s = Some (Plain, {| buffer := []; incoming := unread |}) ∧
    handshakes s = TlsOk decrypted :: rest ∧
    stream s' = Some (Tls, {| buffer := []; incoming := decrypted |}) ∧
    greeted s' = false ∧ mail_from s' = None ∧ rcpt_to s' = [].
Proof.
  unfold upgrade_to_tls. destruct (stream s) as [[layer [buf unread]]|]; [|done]. simpl.
  destruct buf; [|done]. destruct (tls s); [|done]. destruct layer; [|done]. simpl.
  destruct (handshakes s) as [|[decrypted| |] rest]; [done| |done|done]. intros [= <-].
  by exists unread, decrypted, rest.
Qed.
Lemma upgrade_forgets_plaintext_witness :
  let s := new [Chunk b#"x"] 100 true [] [] [TlsOk [Chunk b#"y"]] in
  ∃ s' unread decrypted rest,
    stream s = Some (Plain, {| buffer := []; incoming := unread |}) ∧
    handshakes s = TlsOk decrypted :: rest ∧
    stream s' = Some (Tls, {| buffer := []; incoming := decrypted |}) ∧
    greeted s' = false ∧ mail_from s' = None ∧ rcpt_to s' = [].
Proof. eexists. apply upgrade_forgets_plaintext. reflexivity. Defined.
