(* ===== verification/SmtpDialogue.v ===== *)
(** A whole conversation with [Session::handle] of
    [crates/rustmail-smtp/src/session.rs]: what a client that follows the protocol
    sends, and that the session takes every mail of it. *)
From S2P Require Import Prelude RustStd SmtpCommand SmtpStream SmtpSession.

(** ** The client *)

(** One mail: its envelope, its lines as the client wants them stored, and whether
    [MAIL FROM] declares its size. *)
Record Mail := {
  from : bytes;
  to : list bytes;
  lines : list bytes;
  declares_size : bool;
}.
Definition content (m : Mail) : bytes := concat (lines m).
Definition as_received (m : Mail) : ReceivedMessage :=
  {| sender := from m; recipients := to m; raw := content m |}.

Definition HELLO (name : bytes) : bytes := b#"EHLO " ++ name.
Definition MAIL_FROM (m : Mail) : bytes :=
  b#"MAIL FROM:<" ++ from m ++ b#">" ++
  (if declares_size m then b#" SIZE=" ++ display_N (N.of_nat (length (content m))) else []).
Definition RCPT_TO (address : bytes) : bytes := b#"RCPT TO:<" ++ address ++ b#">".
Definition envelope_commands (m : Mail) : list bytes := MAIL_FROM m :: map RCPT_TO (to m) ++ [b#"DATA"].

Definition on_wire (command : bytes) : bytes := command ++ crlf.
(** The dots are doubled and the terminating one follows. *)
Definition mail_on_wire (m : Mail) : bytes :=
  concat (map on_wire (envelope_commands m)) ++ concat (map stuff (lines m)) ++ DATA_TERMINATOR.
Definition conversation (name : bytes) (mails : list Mail) : bytes :=
  on_wire (HELLO name) ++ concat (map mail_on_wire mails) ++ on_wire b#"QUIT".

(** What the client has to respect: addresses and names of visible characters,
    lines that end, and the limits of the session. *)
Definition address (a : bytes) : bool :=
  forallb (λ c, visible c && negb (Ascii.eqb c "<") && negb (Ascii.eqb c ">")) a.
Definition fits_line (command : bytes) : Prop := length (on_wire command) ≤ MAX_LINE_LENGTH.
Definition host_name (name : bytes) : Prop := name ≠ [] ∧ forallb visible name = true ∧ fits_line (HELLO name).
Record sendable (max : nat) (m : Mail) : Prop := {
  send_addresses : Forall (λ a, address a = true) (from m :: to m);
  send_recipients : 0 < length (to m) ≤ MAX_RECIPIENTS;
  send_short : Forall fits_line (envelope_commands m);
  send_lines : Forall is_line (lines m);
  send_size : length (content m) < max;
  send_u64 : (Z.of_nat max ≤ U64_MAX)%Z;
}.

(** ** What the session then does *)

Definition mail_events (m : Mail) (h : handoff) : list event :=
  [Command (on_wire (MAIL_FROM m)); Replied OK] ++
  flat_map (λ a, [Command (on_wire (RCPT_TO a)); Replied OK]) (to m) ++
  [Command (on_wire b#"DATA"); Replied DATA_START; Submitted (as_received m) h; Replied (verdict_reply h)].
Definition GREETING : bytes := b#"220 rustmail ESMTP ready" ++ crlf.

(** ** Reading a command *)

Lemma decode_ascii c s : is_ascii c = true → decode c s = (true, 0).
Proof. intros Hc. unfold decode. by rewrite Hc. Qed.
Lemma lossy_ascii s : forallb is_ascii s = true → from_utf8_lossy s = s.
Proof.
  unfold from_utf8_lossy. induction s as [|c s IH]; intros Hs; simpl in *; [done|].
  apply andb_true_iff in Hs as [Hc Hs]. rewrite decode_ascii by done. simpl. rewrite drop_0. f_equal. by apply IH.
Qed.
Lemma visible_ascii c : visible c = true → is_ascii c = true.
Proof. unfold visible, byte_in, is_ascii. rewrite andb_true_iff, !N.leb_le, N.ltb_lt. lia. Qed.

(** A line of printable characters that neither begins nor ends with a space. *)
Definition command (c : bytes) : Prop := forallb (λ x, visible x || Ascii.eqb x " ") c = true ∧ framed c ∧ fits_line c.
Lemma command_ascii c : command c → forallb is_ascii (on_wire c) = true.
Proof.
  intros [Hc _]. unfold on_wire. rewrite forallb_app. apply andb_true_iff. split; [|done].
  rewrite forallb_forall in Hc |- *. intros x Hx. specialize (Hc x Hx). apply orb_true_iff in Hc as [?|Hc].
  - by apply visible_ascii.
  - by apply Ascii.eqb_eq in Hc as ->.
Qed.
Lemma command_no_newline c : command c → LF ∉ c.
Proof. intros [Hc _] Hin%list_elem_of_In. rewrite forallb_forall in Hc. by specialize (Hc LF Hin). Qed.
Lemma cut_command c rest : command c → cut_line (on_wire c ++ rest) = Some (on_wire c, rest).
Proof.
  intros Hc. apply cut_line_Some. exists (c ++ [CR]). split_and!; [unfold on_wire; by rewrite <- app_assoc| |done].
  intros [Hin|Hin]%elem_of_app; [by eapply command_no_newline|]. by apply list_elem_of_singleton in Hin.
Qed.
Lemma line_read_command c rest e res b rest' : command c →
  line_read (on_wire c ++ rest) e [] MAX_LINE_LENGTH res b rest' →
  res = Ok (length (on_wire c)) ∧ b = on_wire c ∧ rest' = rest.
Proof.
  intros Hc Hread. assert (Hcut := cut_command c rest Hc). destruct Hc as (_ & _ & Hfits). unfold fits_line in Hfits.
  inversion Hread as [line rest1 Hcut' Hlen|Hn|p q Hs Hne Hlong Hor|buf' Hn]; subst; simpl in *.
  - rewrite Hcut in Hcut'. by simplify_eq.
  - apply cut_line_None in Hn. congruence.
  - destruct Hor as [Hn|Hcut']; [|rewrite Hcut in Hcut'; simplify_eq; lia].
    assert (Hp : p `prefix_of` on_wire c).
    { destruct (prefix_weak_total p (on_wire c) (on_wire c ++ rest)) as [?|[k Hk]]; [by rewrite Hs; eexists|by exists rest|done|].
      destruct Hn. rewrite Hk. unfold on_wire. rewrite !elem_of_app. left. right. by right; left. }
    apply prefix_length in Hp. lia.
  - apply cut_line_None in Hn. congruence.
Qed.
Lemma read_command r c rest e : command c → flat r = (on_wire c ++ rest, e) →
  ∃ r', flat r' = (rest, e) ∧
    read_line_untimed (fuel_of r) r [] MAX_LINE_LENGTH = Some (Ok (length (on_wire c)), on_wire c, r').
Proof.
  intros Hc Hf. destruct (read_line_spec (fuel_of r) r [] MAX_LINE_LENGTH _ e (Nat.lt_succ_diag_r _) Hf)
    as (res & b & r' & Hrun & He & _ & _ & Hread).
  destruct (line_read_command _ _ _ _ _ _ Hc Hread) as (-> & -> & Hrest).
  exists r'. split; [|done]. destruct (flat r'). simpl in *. by subst.
Qed.

Lemma spaced_visible s : forallb visible s = true → forallb (λ x, visible x || Ascii.eqb x " ") s = true.
Proof. rewrite !forallb_forall. intros Hs c Hc. by rewrite (Hs c Hc). Qed.
Lemma address_visible a : address a = true → forallb visible a = true.
Proof.
  unfold address. rewrite !forallb_forall. intros Ha c Hc. specialize (Ha c Hc).
  by apply andb_true_iff in Ha as [[? _]%andb_true_iff _].
Qed.
Lemma digits_visible s : forallb is_ascii_digit s = true → forallb visible s = true.
Proof.
  rewrite !forallb_forall. intros Hs c Hc. specialize (Hs c Hc). unfold is_ascii_digit, visible, byte_in in *.
  rewrite !andb_true_iff, !N.leb_le in *. lia.
Qed.
(** Texts that begin and end with a visible character. *)
Lemma framed_text x pre s : visible x = true → s ≠ [] → forallb visible s = true → framed (x :: pre ++ s).
Proof.
  intros Hx Hne Hs. split; [by exists x|]. destruct s as [|c s _] using rev_ind; [done|].
  exists c. rewrite app_assoc, app_comm_cons, last_snoc. split; [done|].
  rewrite forallb_app in Hs. simpl in Hs. by apply andb_true_iff in Hs as [_ [? _]%andb_true_iff].
Qed.
Lemma rcpt_command a : address a = true → fits_line (RCPT_TO a) → command (RCPT_TO a).
Proof.
  intros Ha Hfit. split_and!; [|by apply (framed_text "R" (b#"CPT TO:<" ++ a) b#">")|done].
  unfold RCPT_TO. rewrite !forallb_app. by rewrite (spaced_visible a (address_visible a Ha)).
Qed.
Lemma size_visible n : forallb visible (display_N n) = true.
Proof. apply digits_visible, digits_digits. Qed.
Lemma mail_command m : address (from m) = true → fits_line (MAIL_FROM m) → command (MAIL_FROM m).
Proof.
  intros Ha Hfit. split_and!; [| |done]; unfold MAIL_FROM.
  - rewrite !forallb_app, (spaced_visible _ (address_visible _ Ha)). destruct (declares_size m); [|done].
    by rewrite forallb_app, (spaced_visible _ (size_visible _)).
  - destruct (declares_size m); [|by apply (framed_text "M" (b#"AIL FROM:<" ++ from m) b#">")].
    replace (_ ++ _) with ("M"%char :: (b#"AIL FROM:<" ++ from m ++ b#"> SIZE=") ++ display_N (N.of_nat (length (content m))))
      by by rewrite <- !app_assoc.
    apply framed_text; [done| |apply size_visible].
    destruct (display_N_head (N.of_nat (length (content m)))) as (c & s & -> & _). done.
Qed.
Lemma hello_command name : host_name name → command (HELLO name).
Proof.
  intros (Hne & Hv & Hfit). split_and!; [|by apply (framed_text "E" b#"HLO ")|done].
  unfold HELLO. by rewrite forallb_app, (spaced_visible _ Hv).
Qed.
Lemma word_command c : forallb visible c = true → c ≠ [] → fits_line c → command c.
Proof.
  intros Hv Hne Hfit. split_and!; [by apply spaced_visible| |done]. destruct c as [|x c]; [done|].
  apply andb_true_iff in Hv as Hxc. destruct Hxc as [Hx Hc].
  destruct c as [|y c]; [split; by exists x|]. by apply (framed_text x [] (y :: c)).
Qed.

(** ** The session between two commands *)

Section dialogue.
Variable max : nat.
Variable tls : bool.
Variable handshakes : list tls_accept.

(** The session of a client that was answered everything so far. *)
Definition talking (greeted : bool) (r : BufReader) (envelope : option (bytes * list bytes)) (hs : list handoff)
    (said : list event) : Session :=
  {| stream := Some (Plain, r); max_message_size := max; SmtpSession.tls := tls; greeted := greeted;
     mail_from := fst <$> envelope; rcpt_to := default [] (snd <$> envelope);
     writes := []; handoffs := hs; SmtpSession.handshakes := handshakes; trace := said |}.

(** One turn: the line is read, and its command run. *)
Lemma turn_command c rest e r g env hs said count : command c → flat r = (on_wire c ++ rest, e) →
  count < MAX_COMMANDS_PER_TRANSACTION →
  ∃ r', flat r' = (rest, e) ∧
    handle_turn count (talking g r env hs said) =
      dispatch c (count + 1) (talking g r' env hs (said ++ [Command (on_wire c)])).
Proof.
  intros Hc Hf Hcount. destruct (read_command r c rest e Hc Hf) as (r' & Hf' & Hrun). exists r'. split; [done|].
  assert (Hraw : read_bounded_line_raw (talking g r env hs said) = Some (Ok (length (on_wire c), on_wire c), talking g r' env hs said)).
  { unfold read_bounded_line_raw, on_stream. cbn [stream talking]. by rewrite Hrun. }
  assert (Hline : read_bounded_line (talking g r env hs said) = Some (Ok (length (on_wire c), on_wire c), talking g r' env hs said)).
  { unfold read_bounded_line, mbind, M_mbind. rewrite Hraw. cbn beta iota.
    rewrite lossy_ascii by by apply command_ascii. unfold on_wire. rewrite length_app. by destruct (_ =? 0) eqn:Hz; [apply Nat.eqb_eq in Hz; simpl in Hz; lia|]. }
  unfold handle_turn, mbind, M_mbind. rewrite Hline. cbn beta iota.
  assert (Hz : length (on_wire c) =? 0 = false) by (apply Nat.eqb_neq; unfold on_wire; rewrite length_app; simpl; lia).
  rewrite Hz, (proj2 (Nat.ltb_ge _ _)) by lia. cbn [modify].
  change (trim (on_wire c)) with (trim ([] ++ c ++ crlf)).
  by rewrite (trim_blanks [] c crlf) by (done || apply Hc).
Qed.

(** ** The commands *)

Definition EHLO_REPLY : bytes := ehlo_response (new [] max tls [] [] handshakes).

Lemma dispatch_hello name n g r env hs said :
  dispatch (HELLO name) n (talking g r env hs said) =
    Some (Ok (Some n), talking true r None hs (said ++ [Replied EHLO_REPLY])).
Proof. reflexivity. Qed.

Lemma address_closes a : address a = true → ">"%char ∉ a.
Proof.
  unfold address. rewrite forallb_forall. intros Ha Hin%list_elem_of_In. specialize (Ha _ Hin).
  by rewrite andb_false_r in Ha.
Qed.
(** The brackets of a command frame its address. *)
Lemma bracketed verb a rest : address a = true → "<"%char ∉ verb → ">"%char ∉ verb →
  extract_address (verb ++ "<"%char :: a ++ ">"%char :: rest) = a.
Proof.
  intros Ha Hlt Hgt. unfold extract_address. rewrite find_skip by done.
  assert (Hfind : find ">" (verb ++ "<"%char :: a ++ ">"%char :: rest) = Some (length verb + 1 + length a)).
  { replace (verb ++ _) with ((verb ++ "<"%char :: a) ++ ">"%char :: rest) by by rewrite <- app_assoc.
    rewrite find_skip; [rewrite length_app; simpl; f_equal; lia|].
    intros [Hin|[[=]|Hin]%elem_of_cons]%elem_of_app; [done|]. by apply (address_closes a). }
  rewrite Hfind, (proj2 (Nat.ltb_lt _ _)) by lia. unfold slice.
  replace (length verb + 1 + length a - (length verb + 1)) with (length a) by lia.
  rewrite drop_app, drop_ge by lia. replace (length verb + 1 - length verb) with 1 by lia. simpl. apply take_app_length.
Qed.

Lemma visible_word s : forallb visible s = true → forallb (λ c, negb (is_ascii_whitespace c)) s = true.
Proof.
  rewrite !forallb_forall. intros Hs c Hc. specialize (Hs c Hc). destruct (is_ascii_whitespace c) eqn:Hw; [|done].
  by destruct c as [[] [] [] [] [] [] [] []].
Qed.

(** A size declared as it is, or not at all, is no reason to refuse. *)
Lemma size_accepted m : sendable max m → declared_size_refusal (MAIL_FROM m) max = None.
Proof.
  intros [Haddr _ _ _ Hsize Hmax]. apply Forall_cons in Haddr as [Ha _]. unfold declared_size_refusal, split_ascii_whitespace.
  assert (Hfrom : forallb (λ c, negb (is_ascii_whitespace c)) (b#"FROM:<" ++ from m ++ b#">") = true).
  { apply visible_word. rewrite !forallb_app. by rewrite (address_visible (from m)). }
  unfold MAIL_FROM. destruct (declares_size m).
  - replace (_ ++ _) with (b#"MAIL" ++ " "%char :: (b#"FROM:<" ++ from m ++ b#">") ++ " "%char :: SIZE_PARAM ++ display_N (N.of_nat (length (content m))))
      by (rewrite <- !app_assoc; done).
    assert (Hsize' : forallb visible (SIZE_PARAM ++ display_N (N.of_nat (length (content m)))) = true).
    { rewrite forallb_app. apply andb_true_iff. split; [done|apply size_visible]. }
    rewrite split_on_app, split_on_app, split_on_none by (done || by apply visible_word).
    change (find_map size_value _) with (Some (display_N (N.of_nat (length (content m))))). cbn beta iota.
    unfold parse_u64. rewrite parse_display by lia.
    by rewrite (proj2 (Z.leb_le _ _)) by lia.
  - rewrite app_nil_r. replace (_ ++ _) with (b#"MAIL" ++ " "%char :: (b#"FROM:<" ++ from m ++ b#">")) by done.
    by rewrite split_on_app, split_on_none.
Qed.

Lemma dispatch_mail m n r env hs said : sendable max m →
  dispatch (MAIL_FROM m) n (talking true r env hs said) =
    Some (Ok (Some n), talking true r (Some (from m, [])) hs (said ++ [Replied OK])).
Proof.
  intros Hm. trans ((match declared_size_refusal (MAIL_FROM m) max with
    | Some refusal => write refusal
    | None => modify (set_envelope (Some (extract_address (MAIL_FROM m))) []);; write OK
    end;; mret (Some n) : SM (option nat)) (talking true r env hs said)); [done|].
  rewrite size_accepted by done. destruct Hm as [[Ha _]%Forall_cons _ _ _ _ _].
  replace (extract_address (MAIL_FROM m)) with (from m); [done|].
  symmetry. unfold MAIL_FROM. apply (bracketed b#"MAIL FROM:"); [done|by apply find_None..].
Qed.
Lemma dispatch_rcpt a n r f l hs said : address a = true → length l < MAX_RECIPIENTS →
  dispatch (RCPT_TO a) n (talking true r (Some (f, l)) hs said) =
    Some (Ok (Some n), talking true r (Some (f, l ++ [a])) hs (said ++ [Replied OK])).
Proof.
  intros Ha Hl. trans ((((if MAX_RECIPIENTS <=? length l then write (b#"452 Too many recipients" ++ crlf)
    else modify (set_envelope (Some f) (l ++ [extract_address (RCPT_TO a)]));; write OK);; mret (Some n)) : SM (option nat))
    (talking true r (Some (f, l)) hs said)); [done|].
  rewrite (proj2 (Nat.leb_gt _ _)) by done. replace (extract_address (RCPT_TO a)) with a; [done|].
  symmetry. apply (bracketed b#"RCPT TO:"); [done|by apply find_None..].
Qed.
Lemma dispatch_data ls n r f l h hs said rest e :
  usable max → l ≠ [] → Forall is_line ls → length (concat ls) < max →
  flat r = (concat (map stuff ls) ++ DATA_TERMINATOR ++ rest, e) →
  ∃ r', flat r' = (rest, e) ∧
    dispatch b#"DATA" n (talking true r (Some (f, l)) (h :: hs) said) =
      Some (Ok (Some 0), talking true r' None hs (said ++ [Replied DATA_START;
        Submitted {| sender := f; recipients := l; raw := concat ls |} h; Replied (verdict_reply h)])).
Proof.
  intros Hmax Hl Hls Hsize Hf. destruct (stuffed_received r ls rest e max Hmax Hls Hsize Hf) as (r' & Hrun & Hf').
  exists r'. split; [done|]. destruct l as [|a l]; [done|].
  trans (((restart ← receive_and_deliver; mret (Some (if restart : bool then 0 else n))) : SM (option nat))
    (talking true r (Some (f, a :: l)) (h :: hs) (said ++ [Replied DATA_START]))); [done|].
  assert (Hrec : receive_message (talking true r (Some (f, a :: l)) (h :: hs) (said ++ [Replied DATA_START])) =
    Some (Ok (Some {| sender := f; recipients := a :: l; raw := concat ls |}),
      talking true r' (Some (f, a :: l)) (h :: hs) (said ++ [Replied DATA_START]))).
  { unfold receive_message, on_stream, mbind, M_mbind, gets. cbn [stream max_message_size talking]. by rewrite Hrun. }
  unfold receive_and_deliver, mbind, M_mbind. rewrite Hrec.
  change (said ++ [Replied DATA_START; ?x; ?y]) with (said ++ [Replied DATA_START] ++ [x] ++ [y]). rewrite !app_assoc. done.
Qed.

(** ** The loop *)

(** [k] turns of the loop, from one count of commands to another. *)
Definition turns (k count count' : nat) (s s' : Session) : Prop :=
  ∀ fuel, handle_loop (k + fuel) count s = handle_loop fuel count' s'.
Lemma turns_trans k1 k2 c1 c2 c3 s1 s2 s3 :
  turns k1 c1 c2 s1 s2 → turns k2 c2 c3 s2 s3 → turns (k1 + k2) c1 c3 s1 s3.
Proof. intros H1 H2 fuel. by rewrite <- Nat.add_assoc, H1. Qed.
Lemma turns_one count count' s s' : handle_turn count s = Some (Ok (Some count'), s') → turns 1 count count' s s'.
Proof. intros Hrun fuel. simpl. unfold mbind at 1, M_mbind at 1. by rewrite Hrun. Qed.

(** One command that is answered without reading on. *)
Lemma turn_of c rest e r g env hs said count g' env' hs' : command c → flat r = (on_wire c ++ rest, e) →
  count < MAX_COMMANDS_PER_TRANSACTION →
  (∀ r said, dispatch c (count + 1) (talking g r env hs said) =
    Some (Ok (Some (count + 1)), talking g' r env' hs' (said ++ [Replied OK]))) →
  ∃ r', flat r' = (rest, e) ∧
    turns 1 count (count + 1) (talking g r env hs said)
      (talking g' r' env' hs' (said ++ [Command (on_wire c); Replied OK])).
Proof.
  intros Hc Hf Hcount Hrun. destruct (turn_command c rest e r g env hs said count Hc Hf Hcount) as (r' & Hf' & Hturn).
  exists r'. split; [done|]. apply turns_one. rewrite Hturn, Hrun. by rewrite <- app_assoc.
Qed.

Lemma recipients_taken ads : ∀ r f l hs said count rest e,
  Forall (λ a, address a = true) ads → Forall fits_line (map RCPT_TO ads) →
  length l + length ads ≤ MAX_RECIPIENTS → count + length ads ≤ MAX_COMMANDS_PER_TRANSACTION →
  flat r = (concat (map on_wire (map RCPT_TO ads)) ++ rest, e) →
  ∃ r', flat r' = (rest, e) ∧
    turns (length ads) count (count + length ads) (talking true r (Some (f, l)) hs said)
      (talking true r' (Some (f, l ++ ads)) hs
        (said ++ flat_map (λ a, [Command (on_wire (RCPT_TO a)); Replied OK]) ads)).
Proof.
  induction ads as [|a ads IH]; intros r f l hs said count rest e Ha Hfit Hl Hcount Hf; cbn [map concat flat_map length] in *.
  { exists r. split; [done|]. rewrite !app_nil_r, Nat.add_0_r. by intros fuel. }
  apply Forall_cons in Ha as [Ha Hads]. apply Forall_cons in Hfit as [Hfit Hfits]. rewrite <- app_assoc in Hf.
  destruct (turn_of (RCPT_TO a) (concat (map on_wire (map RCPT_TO ads)) ++ rest) e r true (Some (f, l)) hs said count true (Some (f, l ++ [a])) hs) as (r1 & Hf1 & Ht1);
    [by apply rcpt_command|done|lia|intros; apply dispatch_rcpt; [done|lia]|].
  destruct (IH r1 f (l ++ [a]) hs (said ++ [Command (on_wire (RCPT_TO a)); Replied OK]) (count + 1) rest e) as (r2 & Hf2 & Ht2);
    [done|done|rewrite length_app; simpl; lia|lia|done|].
  exists r2. split; [done|]. rewrite <- !app_assoc in Ht2. replace (count + S (length ads)) with (count + 1 + length ads) by lia.
  by apply (turns_trans 1 (length ads) _ _ _ _ _ _ Ht1 Ht2).
Qed.

Definition mail_turns (m : Mail) : nat := 1 + (length (to m) + 1).
Lemma mail_taken m r h hs said count rest e :
  usable max → sendable max m → count ≤ 1 → flat r = (mail_on_wire m ++ rest, e) →
  ∃ r', flat r' = (rest, e) ∧
    turns (mail_turns m) count 0 (talking true r None (h :: hs) said)
      (talking true r' None hs (said ++ mail_events m h)).
Proof.
  intros Husable Hm Hcount Hf. destruct (send_recipients _ _ Hm) as [Hpos Hmax].
  destruct (proj1 (Forall_cons _ _ _) (send_addresses _ _ Hm)) as [Hfrom Hto].
  destruct (proj1 (Forall_cons _ _ _) (send_short _ _ Hm)) as [Hfit [Hfits Hdata]%Forall_app].
  unfold mail_on_wire, envelope_commands in Hf. cbn [map concat] in Hf. rewrite map_app, concat_app, <- !app_assoc in Hf.
  destruct (turn_of (MAIL_FROM m) (concat (map on_wire (map RCPT_TO (to m))) ++ concat (map on_wire [b#"DATA"]) ++
      concat (map stuff (lines m)) ++ DATA_TERMINATOR ++ rest) e r true None (h :: hs) said count true (Some (from m, [])) (h :: hs))
    as (r1 & Hf1 & Ht1); [by apply mail_command|done|unfold MAX_COMMANDS_PER_TRANSACTION; lia|by intros; apply dispatch_mail|].
  destruct (recipients_taken (to m) r1 (from m) [] (h :: hs) (said ++ [Command (on_wire (MAIL_FROM m)); Replied OK]) (count + 1)
      (on_wire b#"DATA" ++ concat (map stuff (lines m)) ++ DATA_TERMINATOR ++ rest) e) as (r2 & Hf2 & Ht2);
    [done|done|done|unfold MAX_COMMANDS_PER_TRANSACTION, MAX_RECIPIENTS in *; lia|done|].
  set (said2 := (said ++ [Command (on_wire (MAIL_FROM m)); Replied OK]) ++
    flat_map (λ a, [Command (on_wire (RCPT_TO a)); Replied OK]) (to m)) in *.
  destruct (turn_command b#"DATA" _ e r2 true (Some (from m, to m)) (h :: hs) said2 (count + 1 + length (to m))
    ltac:(by apply word_command; inversion_clear Hdata) Hf2) as (r3 & Hf3 & Hturn);
    [unfold MAX_COMMANDS_PER_TRANSACTION, MAX_RECIPIENTS in *; lia|].
  destruct (dispatch_data (lines m) (count + 1 + length (to m) + 1) r3 (from m) (to m) h hs
      (said2 ++ [Command (on_wire b#"DATA")]) rest e) as (r4 & Hf4 & Hdisp);
    [done|by destruct (to m); simpl in *; [lia|]|apply Hm|apply Hm|done|].
  exists r4. split; [done|]. rewrite Hdisp in Hturn. apply turns_one in Hturn.
  assert (Ht := turns_trans _ _ _ _ _ _ _ _ Ht1 (turns_trans _ _ _ _ _ _ _ _ Ht2 Hturn)).
  unfold said2 in Ht. rewrite <- !app_assoc in Ht. exact Ht.
Qed.
Definition all_turns (mails : list Mail) : nat := sum_list_with mail_turns mails.
Lemma mails_taken mails : ∀ r hs more said count rest e,
  usable max → Forall (sendable max) mails → length hs = length mails → count ≤ 1 →
  flat r = (concat (map mail_on_wire mails) ++ rest, e) →
  ∃ r' count', flat r' = (rest, e) ∧ count' ≤ 1 ∧
    turns (all_turns mails) count count' (talking true r None (hs ++ more) said)
      (talking true r' None more (said ++ concat (zip_with mail_events mails hs))).
Proof.
  induction mails as [|m mails IH]; intros r hs more said count rest e Husable Hms Hlen Hcount Hf.
  { destruct hs; [|done]. exists r, count. rewrite app_nil_r. by split_and!. }
  destruct hs as [|h hs]; [done|]. injection Hlen as Hlen. apply Forall_cons in Hms as [Hm Hms].
  cbn [map concat] in Hf. rewrite <- app_assoc in Hf.
  destruct (mail_taken m r h (hs ++ more) said count _ e Husable Hm Hcount Hf) as (r1 & Hf1 & Ht1).
  destruct (IH r1 hs more (said ++ mail_events m h) 0 rest e Husable Hms Hlen (Nat.le_0_l 1) Hf1) as (r2 & c2 & Hf2 & Hc2 & Ht2).
  exists r2, c2. split_and!; [done|done|]. rewrite <- app_assoc in Ht2. by eapply turns_trans.
Qed.

(** There is a byte for every turn, hence fuel. *)
Lemma wire_length cs : length cs ≤ length (concat (map on_wire cs)).
Proof.
  induction cs as [|c cs IH]; cbn [map concat length]; [done|].
  change (on_wire c) with (c ++ crlf). rewrite !length_app. simpl. lia.
Qed.
Lemma turns_length mails : all_turns mails ≤ length (concat (map mail_on_wire mails)).
Proof.
  induction mails as [|m mails IH]; [done|]. cbn [map concat]. change (all_turns (m :: mails)) with (mail_turns m + all_turns mails).
  assert (Hm : mail_turns m ≤ length (mail_on_wire m)); [|rewrite length_app; lia].
  unfold mail_on_wire. rewrite length_app. assert (Hl := wire_length (envelope_commands m)).
  unfold envelope_commands in Hl at 1. cbn [length] in Hl. rewrite length_app, length_map in Hl. unfold mail_turns. simpl in *. lia.
Qed.
Lemma flat_weight l : length (fst (flat_events l)) ≤ sum_list_with event_weight l.
Proof.
  induction l as [|[[|c d]| |] l IH]; simpl; try lia. destruct (flat_events l) as [s e]. simpl in *. rewrite length_app. lia.
Qed.

(** The conversation, turn by turn. *)
Lemma conversation_run name mails hs more incoming rest e :
  usable max → host_name name → Forall (sendable max) mails → length hs = length mails →
  flat_events incoming = (conversation name mails ++ rest, e) →
  ∃ r, flat r = (rest, e) ∧ handle (new incoming max tls [] (hs ++ more) handshakes) =
    Some (Ok tt, talking true r None more
      ([Replied GREETING; Command (on_wire (HELLO name)); Replied EHLO_REPLY] ++
       concat (zip_with mail_events mails hs) ++ [Command (on_wire b#"QUIT"); Replied QUIT_RESPONSE])).
Proof.
  intros Husable Hname Hms Hlen Hf. set (r := {| buffer := []; incoming := incoming |}).
  unfold conversation in Hf. rewrite <- !app_assoc in Hf.
  assert (Hflat : flat r = (on_wire (HELLO name) ++ concat (map mail_on_wire mails) ++ on_wire b#"QUIT" ++ rest, e))
    by (unfold flat, r; simpl; by rewrite Hf).
  destruct (turn_command (HELLO name) _ e r false None (hs ++ more) [Replied GREETING] 0 (hello_command _ Hname) Hflat)
    as (r1 & Hf1 & Hturn); [unfold MAX_COMMANDS_PER_TRANSACTION; lia|].
  rewrite dispatch_hello in Hturn. apply turns_one in Hturn.
  destruct (mails_taken mails r1 hs more (([Replied GREETING] ++ [Command (on_wire (HELLO name))]) ++ [Replied EHLO_REPLY])
    1 (on_wire b#"QUIT" ++ rest) e Husable Hms Hlen (le_n 1) Hf1) as (r2 & c2 & Hf2 & Hc2 & Hmails).
  set (said2 := (([Replied GREETING] ++ [Command (on_wire (HELLO name))]) ++ [Replied EHLO_REPLY]) ++
    concat (zip_with mail_events mails hs)) in *.
  destruct (turn_command b#"QUIT" _ e r2 true None more said2 c2 ltac:(by apply word_command; vm_compute; [..|lia]) Hf2)
    as (r3 & Hf3 & Hquit); [unfold MAX_COMMANDS_PER_TRANSACTION; lia|].
  change (dispatch b#"QUIT" (c2 + 1) (talking true r3 None more (said2 ++ [Command (on_wire b#"QUIT")]))) with
    (Some (Ok None : result SessionError (option nat),
      talking true r3 None more ((said2 ++ [Command (on_wire b#"QUIT")]) ++ [Replied QUIT_RESPONSE]))) in Hquit.
  exists r3. split; [done|].
  assert (Hall := turns_trans _ _ _ _ _ _ _ _ Hturn Hmails).
  set (s0 := talking false r None (hs ++ more) [Replied GREETING]) in *.
  change (handle _) with (handle_loop (S (input_weight s0)) 0 s0).
  assert (Hfuel : ∃ k, S (input_weight s0) = 1 + all_turns mails + S k).
  { exists (input_weight s0 - S (all_turns mails)). assert (Hw := flat_weight incoming). rewrite Hf in Hw.
    cbn [fst] in Hw. rewrite !length_app in Hw. assert (Hl := turns_length mails).
    assert (2 ≤ length (on_wire (HELLO name))) by (unfold on_wire; rewrite length_app; simpl; lia).
    assert (sum_list_with event_weight incoming ≤ input_weight s0) by (unfold input_weight, weight; simpl; lia). lia. }
  destruct Hfuel as [k ->]. rewrite Hall. cbn [handle_loop]. unfold mbind, M_mbind. rewrite Hquit.
  unfold said2. by rewrite <- !app_assoc.
Qed.

(** C7: functional. A client that follows the protocol gets every mail through:
    whatever the network does to the bytes, the session reads each command, hands
    every mail over as it was written, dots included, answers each with the
    consumer's verdict, in order, and ends well on [QUIT], with nothing
    left of a transaction and nothing read of what follows. The mails are below
    the session's limit, which is not one of the three largest of 64 bits, at which
    the budget of a line wraps. *)
Theorem mail_goes_through name mails hs more incoming rest e :
  (Z.of_nat max + 3 ≤ U64_MAX)%Z →
  host_name name → Forall (sendable max) mails → length hs = length mails →
  flat_events incoming = (conversation name mails ++ rest, e) →
  ∃ s, handle (new incoming max tls [] (hs ++ more) handshakes) = Some (Ok tt, s) ∧
    trace s = [Replied GREETING; Command (on_wire (HELLO name)); Replied EHLO_REPLY] ++
      concat (zip_with mail_events mails hs) ++ [Command (on_wire b#"QUIT"); Replied QUIT_RESPONSE] ∧
    (flat <$> (snd <$> stream s)) = Some (rest, e) ∧ mail_from s = None ∧ rcpt_to s = [] ∧ handoffs s = more.
Proof.
  intros Husable Hname Hms Hlen Hf.
  destruct (conversation_run name mails hs more incoming rest e Husable Hname Hms Hlen Hf) as (r & Hr & Hrun).
  eexists. split; [exact Hrun|]. simpl. by rewrite Hr.
Qed.
End dialogue.

(** ** A conversation *)

Definition first_mail : Mail :=
  {| from := b#"ann@example.com"; to := [b#"bob@example.com"; b#"eve@example.com"];
     lines := [b#"Subject: dots" ++ crlf; crlf; b#".one" ++ crlf; b#"." ++ crlf]; declares_size := true |}.
Definition second_mail : Mail :=
  {| from := []; to := [b#"bob@example.com"]; lines := [b#"again" ++ [LF]]; declares_size := false |}.
(** The bytes in pieces of seven. *)
Fixpoint pieces (fuel : nat) (s : bytes) : list rx :=
  match fuel, s with
  | S fuel, _ :: _ => Chunk (take 7 s) :: pieces fuel (drop 7 s)
  | _, _ => []
  end.
Definition example_wire : bytes := conversation b#"client.test" [first_mail; second_mail].

Lemma lines_end ls : forallb (λ l, match rev l with c :: r => Ascii.eqb c LF && negb (contains LF r) | [] => false end) ls = true →
  Forall is_line ls.
Proof.
  rewrite forallb_forall. intros Hls. apply Forall_forall. intros l Hl%list_elem_of_In. specialize (Hls l Hl).
  destruct (rev l) as [|c r] eqn:Hr; [done|]. apply andb_true_iff in Hls as [->%Ascii.eqb_eq Hn%negb_true_iff].
  exists (rev r). split; [by rewrite <- (rev_involutive l), Hr|]. intros Hin%list_elem_of_In%in_rev%list_elem_of_In.
  apply contains_spec in Hin. congruence.
Qed.
Lemma fits_by cs : forallb (λ c, length (on_wire c) <=? MAX_LINE_LENGTH) cs = true → Forall fits_line cs.
Proof. rewrite forallb_forall. intros Hc. apply Forall_forall. intros c Hin%list_elem_of_In. by apply Nat.leb_le, Hc. Qed.
Lemma addresses_by l : forallb address l = true → Forall (λ a, address a = true) l.
Proof. rewrite forallb_forall. intros Hc. apply Forall_forall. intros c Hin%list_elem_of_In. by apply Hc. Qed.
Lemma example_sendable : Forall (sendable 1000) [first_mail; second_mail].
Proof.
  rewrite !Forall_cons. split_and!; [| |apply Forall_nil_2]; split;
    first [apply addresses_by; by vm_compute|apply fits_by; by vm_compute|apply lines_end; by vm_compute
          |split; [apply Nat.ltb_lt|apply Nat.leb_le]; by vm_compute|apply Nat.ltb_lt; by vm_compute|apply Z.leb_le; by vm_compute].
Qed.
Lemma mail_goes_through_witness :
  ∃ s, handle (new (pieces 200 example_wire) 1000 false [] ([Verdict Stored; AckTimedOut] ++ []) []) = Some (Ok tt, s) ∧
    trace s = [Replied GREETING; Command (on_wire (HELLO b#"client.test")); Replied (EHLO_REPLY 1000 false [])] ++
      concat (zip_with mail_events [first_mail; second_mail] [Verdict Stored; AckTimedOut]) ++
      [Command (on_wire b#"QUIT"); Replied QUIT_RESPONSE] ∧
    (flat <$> (snd <$> stream s)) = Some ([], AtEof) ∧ mail_from s = None ∧ rcpt_to s = [] ∧ handoffs s = [].
Proof.
  apply (mail_goes_through 1000 false [] b#"client.test" [first_mail; second_mail] [Verdict Stored; AckTimedOut] []
    (pieces 200 example_wire) [] AtEof).
  - by apply Z.leb_le; vm_compute.
  - split_and!; [done|done|apply Nat.leb_le; by vm_compute].
  - exact example_sendable.
  - done.
  - vm_compute. reflexivity.
Defined.
