(* ===== verification/SmtpServer.v ===== *)
(** The SMTP accept loop: [SmtpServer::serve] of
    [crates/rustmail-smtp/src/server.rs], as the steps it takes for each thing
    that can happen to it. *)
From S2P Require Import Prelude RustStd Net SmtpCommand SmtpStream SmtpSession.

Definition MAX_CONCURRENT_SESSIONS : nat := 100.
#[global] Arguments MAX_CONCURRENT_SESSIONS : simpl never.
(** Durations are in milliseconds. *)
Definition ACCEPT_BACKOFF_INITIAL : nat := 10.
Definition ACCEPT_BACKOFF_MAX : nat := 1000.

Record SmtpServerConfig := { host : IpAddr; port : nat; config_max_message_size : nat; config_tls : bool }.
Definition default_config : SmtpServerConfig :=
  {| host := V4 [127; 0; 0; 1]%N; port := 1025; config_max_message_size := 10 * 1024 * 1024;
     config_tls := false |}.

Definition next_accept_backoff (current : nat) : nat := (current * 2) `min` ACCEPT_BACKOFF_MAX.

(** The loop's own state: the permits its sessions hold and the pause before the
    next retry. *)
Record Listener := { active : nat; accept_backoff : nat }.
Definition listening : Listener := {| active := 0; accept_backoff := ACCEPT_BACKOFF_INITIAL |}.

(** What happens to the loop, and what it does about it. *)
Inductive occurrence := Accepted (c : list rx) | AcceptFailed | SessionOver.
Inductive action := Spawned (s : Session) | Refused (response : bytes) | Slept (ms : nat) | Released.

Definition TOO_MANY : bytes := b#"421 Service not available, too many connections" ++ crlf.

(** A session is over at most once for each one spawned: its permit is dropped
    when its task is. *)
Definition serve_step (cfg : SmtpServerConfig) (o : occurrence) (l : Listener) : option (action * Listener) :=
  match o with
  | Accepted c =>
    let l := {| active := active l; accept_backoff := ACCEPT_BACKOFF_INITIAL |} in
    if active l <? MAX_CONCURRENT_SESSIONS then
      Some (Spawned (new c (config_max_message_size cfg) (config_tls cfg) [] [] []),
            {| active := S (active l); accept_backoff := accept_backoff l |})
    else Some (Refused TOO_MANY, l)
  | AcceptFailed =>
    Some (Slept (accept_backoff l),
          {| active := active l; accept_backoff := next_accept_backoff (accept_backoff l) |})
  | SessionOver =>
    match active l with
    | 0 => None
    | S n => Some (Released, {| active := n; accept_backoff := accept_backoff l |})
    end
  end.

Fixpoint serve (cfg : SmtpServerConfig) (os : list occurrence) (l : Listener) : option (list action * Listener) :=
  match os with
  | [] => Some ([], l)
  | o :: os =>
    '(a, l) ← serve_step cfg o l;
    '(acts, l) ← serve cfg os l;
    Some (a :: acts, l)
  end.

(** ** Laws *)

Definition is_accepted (o : occurrence) : bool := match o with Accepted _ => true | _ => false end.
Definition spawned (acts : list action) : nat :=
  length (List.filter (λ a, match a with Spawned _ => true | _ => false end) acts).
Definition released (acts : list action) : nat :=
  length (List.filter (λ a, match a with Released => true | _ => false end) acts).

Lemma serve_step_bound cfg o l a l' :
  serve_step cfg o l = Some (a, l') →
  active l ≤ MAX_CONCURRENT_SESSIONS → active l' ≤ MAX_CONCURRENT_SESSIONS.
Proof.
  destruct l as [n b]. destruct o; simpl.
  - destruct (Nat.ltb_spec n MAX_CONCURRENT_SESSIONS); intros [= <- <-]; simpl; lia.
  - by intros [= <- <-].
  - destruct n; intros [= <- <-]; simpl; lia.
Qed.

Lemma serve_active cfg os l acts l' :
  serve cfg os l = Some (acts, l') → active l + spawned acts = active l' + released acts.
Proof.
  revert l acts. induction os as [|o os IH]; intros l acts H; simpl in H; [by simplify_eq/=|].
  destruct (serve_step cfg o l) as [[a l1]|] eqn:Ho; [|done]. simpl in H.
  destruct (serve cfg os l1) as [[acts1 l2]|] eqn:Hs; [|done]. simplify_eq/=.
  apply IH in Hs. unfold spawned, released in *. unfold serve_step in Ho.
  destruct l as [k b]; simpl in *.
  destruct o; [destruct (_ <? _)| |destruct k]; simplify_eq/=; lia.
Qed.

(** [n] failures in a row, from the pause [b]. *)
Lemma backoff_iter n b :
  0 < b → Nat.iter n next_accept_backoff (b `min` ACCEPT_BACKOFF_MAX) = (b * 2 ^ n) `min` ACCEPT_BACKOFF_MAX.
Proof.
  intros Hb. unfold next_accept_backoff, ACCEPT_BACKOFF_MAX. induction n as [|n IH]; simpl; [lia|].
  rewrite IH. simpl. lia.
Qed.

Lemma serve_app cfg os1 os2 l :
  serve cfg (os1 ++ os2) l =
    '(a1, l1) ← serve cfg os1 l; '(a2, l2) ← serve cfg os2 l1; Some (a1 ++ a2, l2).
Proof.
  revert l. induction os1 as [|o os1 IH]; intros l; simpl.
  - by destruct (serve cfg os2 l) as [[? ?]|].
  - destruct (serve_step cfg o l) as [[a l1]|]; simpl; [|done]. rewrite IH.
    destruct (serve cfg os1 l1) as [[a1 l2]|]; simpl; [|done].
    by destruct (serve cfg os2 l2) as [[a2 l3]|].
Qed.

Lemma serve_failures cfg n b active :
  serve cfg (replicate n AcceptFailed) {| active := active; accept_backoff := b |} =
    Some (map (λ i, Slept (Nat.iter i next_accept_backoff b)) (seq 0 n),
          {| active := active; accept_backoff := Nat.iter n next_accept_backoff b |}).
Proof.
  revert b. induction n as [|n IH]; intros b; simpl; [done|]. rewrite IH. simpl.
  assert (Hit : ∀ i, Nat.iter i next_accept_backoff (next_accept_backoff b)
    = next_accept_backoff (Nat.iter i next_accept_backoff b)).
  { induction i; simpl; congruence. }
  rewrite Hit. do 3 f_equal. rewrite <- seq_shift, map_map. apply map_ext. intros i. simpl. by rewrite Hit.
Qed.

(** ** Properties *)

(** C9: safety. However connections come, fail and end, at most
    [MAX_CONCURRENT_SESSIONS] sessions run at once, and a connection is refused
    with [421] exactly when that many are running. *)
Theorem sessions_bounded cfg os acts l c :
  serve cfg os listening = Some (acts, l) →
  spawned acts ≤ released acts + MAX_CONCURRENT_SESSIONS ∧
  ∃ a l', serve_step cfg (Accepted c) l = Some (a, l') ∧
    (a = Refused TOO_MANY ↔ spawned acts = released acts + MAX_CONCURRENT_SESSIONS).
Proof.
  intros H.
  assert (Hb : active l ≤ MAX_CONCURRENT_SESSIONS).
  { assert (Hgen : ∀ os l0 acts, serve cfg os l0 = Some (acts, l) →
      active l0 ≤ MAX_CONCURRENT_SESSIONS → active l ≤ MAX_CONCURRENT_SESSIONS);
      [|apply (Hgen _ _ _ H); simpl; lia].
    clear. induction os as [|o os IH]; intros l0 acts H Hl; simpl in H; [by simplify_eq|].
    destruct (serve_step cfg o l0) as [[a l1]|] eqn:Ho; [|done]. simpl in H.
    destruct (serve cfg os l1) as [[acts1 l2]|] eqn:Hs; [|done]. simplify_eq/=.
    eapply IH; [done|]. by eapply serve_step_bound. }
  apply serve_active in H. simpl in H. split; [lia|].
  unfold serve_step. simpl.
  destruct (Nat.ltb_spec (active l) MAX_CONCURRENT_SESSIONS); (do 2 eexists; split; [done|]);
    (split; [done || lia|]); [lia|done].
Qed.
Lemma sessions_bounded_witness :
  let acts := fst (default ([], listening) (serve default_config [Accepted []; SessionOver] listening)) in
  spawned acts ≤ released acts + MAX_CONCURRENT_SESSIONS ∧
  ∃ a l', serve_step default_config (Accepted []) listening = Some (a, l') ∧
    (a = Refused TOO_MANY ↔ spawned acts = released acts + MAX_CONCURRENT_SESSIONS).
Proof. apply (sessions_bounded default_config [Accepted []; SessionOver]). reflexivity. Defined.

(** After a connection was accepted, the [i]th accept failure in
    a row (from zero) makes the loop pause ten milliseconds doubled [i] times
    and never more than a second. *)
Theorem backoff_doubles cfg c l n :
  ∃ a l', serve cfg (Accepted c :: replicate n AcceptFailed) l =
    Some (a :: map (λ i, Slept ((10 * 2 ^ i) `min` 1000)) (seq 0 n), l') ∧
    accept_backoff l' = (10 * 2 ^ n) `min` 1000.
Proof.
  assert (Heq : ∀ i, Nat.iter i next_accept_backoff ACCEPT_BACKOFF_INITIAL = (10 * 2 ^ i) `min` 1000).
  { intros i. apply (backoff_iter i 10). lia. }
  assert (Hmap : map (λ i, Slept (Nat.iter i next_accept_backoff ACCEPT_BACKOFF_INITIAL)) (seq 0 n)
    = map (λ i, Slept ((10 * 2 ^ i) `min` 1000)) (seq 0 n)).
  { apply map_ext. intros i. by rewrite Heq. }
  change (map _ (seq 0 n)) with (map (λ i, Slept ((10 * 2 ^ i) `min` 1000)) (seq 0 n)).
  rewrite <- Hmap. cbn [serve serve_step active].
  destruct (_ <? _); cbn [mbind option_bind]; rewrite serve_failures; eexists _, _;
    (split; [done|]); apply Heq.
Qed.
