(* ===== verification/StorageError.v ===== *)
(** The errors of the storage layer and what they say about the store:
    [crates/rustmail-storage/src/error.rs]. *)
From S2P Require Import Prelude RustStd.

(** [sqlx::Error] as far as the program tells its cases apart. *)
Inductive sqlx_error :=
| DatabaseError (code : option bytes)
| Configuration | SqlxIo | SqlxTls | Protocol | PoolTimedOut | PoolClosed | WorkerCrashed
| OtherSqlx.
#[export] Instance sqlx_error_eq_dec : EqDecision sqlx_error.
Proof. solve_decision. Defined.

(** Why a migration or a restore refused the files it found. A path is its bytes;
    the texts that are only shown are left out of [BackupInvalid] and
    [NotAnInterruptedRestore]. *)
Inductive MigrationRefusal :=
| AmbiguousBackup (database : bytes) (schema : Z) (backup : bytes) (migrating : option bytes)
| StrayMigrationCopy (database migrating : bytes)
| BackupChanged (database backup migrating : bytes)
| FileInUse (database file : bytes)
| SourceUnstable (database : bytes)
| UnknownState (database database_state : bytes) (backups : list bytes) (migrating migrating_state : bytes).
#[export] Instance MigrationRefusal_eq_dec : EqDecision MigrationRefusal.
Proof. solve_decision. Defined.
Inductive RestoreRefusal :=
| NotMigrated (database database_state : bytes)
| NoBackup (database backup : bytes)
| BackupInvalid (backup : bytes) (schema : Z)
| MigrationCopyPresent (database migrating : bytes)
| RestoreFileInUse (database file : bytes)
| CheckpointBusy (database : bytes)
| KeptNameTaken (kept : bytes)
| NotAnInterruptedRestore (database backup : bytes).
#[export] Instance RestoreRefusal_eq_dec : EqDecision RestoreRefusal.
Proof. solve_decision. Defined.

(** The errors of the repository, the schema check, the migration and a restore. *)
Inductive StorageError :=
| Database (e : sqlx_error)
| NotFound (id : bytes)
| NewerSchema (found supported : Z)
| LegacySchema (found supported : Z)
| AttachmentCorrupt (message_id attachment_id : bytes)
    (transfer_encoding expected_size actual_size : option Z)
| ContentCorrupt (message_id : bytes)
| Compress
| DecodeAborted
| UnrecognizedSchema (found : Z) (tables : list bytes)
| MigrationLocked (lock_path : bytes)
| MigrationRefused (why : MigrationRefusal)
| RestoreRefused (why : RestoreRefusal)
| MigrationVerifyFailed (database target check expected found : bytes)
| MigrationDiskFull (database : bytes) (needed_bytes : Z)
| MigrationIo (action path : bytes)
| MigrationTaskAborted.
#[export] Instance StorageError_eq_dec : EqDecision StorageError.
Proof. solve_decision. Defined.

Definition SQLITE_BUSY : Z := 5.
Definition SQLITE_LOCKED : Z := 6.
Definition SQLITE_NOMEM : Z := 7.
Definition SQLITE_READONLY : Z := 8.
Definition SQLITE_IOERR : Z := 10.
Definition SQLITE_CORRUPT : Z := 11.
Definition SQLITE_FULL : Z := 13.
Definition SQLITE_CANTOPEN : Z := 14.
Definition SQLITE_NOTADB : Z := 26.
Definition PRIMARY_CODE_MASK : Z := 255.

Definition sqlite_primary_code (e : StorageError) : option Z :=
  match e with
  | Database (DatabaseError code) =>
    code ← code;
    code ← ok (parse_i32 code);
    Some (Z.land code PRIMARY_CODE_MASK)
  | _ => None
  end.

Definition store_wide_codes : list Z :=
  [SQLITE_BUSY; SQLITE_LOCKED; SQLITE_NOMEM; SQLITE_READONLY; SQLITE_IOERR; SQLITE_CORRUPT;
   SQLITE_FULL; SQLITE_CANTOPEN; SQLITE_NOTADB].
Definition one_of (codes : list Z) (code : option Z) : bool :=
  match code with Some c => existsb (Z.eqb c) codes | None => false end.

Definition is_store_wide (e : StorageError) : bool :=
  match e with
  | Database (Configuration | SqlxIo | SqlxTls | Protocol | PoolTimedOut | PoolClosed | WorkerCrashed) =>
    true
  | _ => one_of store_wide_codes (sqlite_primary_code e)
  end.

(** [is_retryable_lock] of [repo.rs]. *)
Definition is_retryable_lock (e : StorageError) : bool :=
  one_of [SQLITE_BUSY; SQLITE_LOCKED] (sqlite_primary_code e).

(** A constraint refused a row. *)
Definition CONSTRAINT : StorageError := Database (DatabaseError (Some b#"19")).

(** ** Laws *)

Lemma one_of_incl l k code : (∀ c, c ∈ l → c ∈ k) → one_of l code = true → one_of k code = true.
Proof.
  intros Hlk. destruct code as [c|]; simpl; [|done]. rewrite !existsb_exists.
  intros (x & Hin & ->%Z.eqb_eq). exists x. split; [|apply Z.eqb_refl].
  apply list_elem_of_In, Hlk. by apply list_elem_of_In.
Qed.

(** A contended write is one every other write would meet too. *)
Lemma retryable_store_wide e : is_retryable_lock e = true → is_store_wide e = true.
Proof.
  intros H. unfold is_store_wide.
  assert (one_of store_wide_codes (sqlite_primary_code e) = true) as Hw.
  { revert H. apply one_of_incl. intros c Hc. unfold store_wide_codes. set_solver. }
  destruct e as [[]| | | | | | | | | | | | | | |]; (done || exact Hw).
Qed.
Lemma constraint_not_store_wide : is_store_wide CONSTRAINT = false.
Proof. reflexivity. Qed.
