(* ===== verification/Content.v ===== *)
(** A message's stored content: [crates/rustmail-storage/src/content.rs]. The
    zstd library is a class of its functions, with the laws its documentation
    states in a class of their own. *)
From S2P Require Import Prelude RustStd StorageError.

(** The functions of the zstd crate the program calls. *)
Class Zstd := {
  (* [zstd::bulk::compress] at [RAW_COMPRESSION_LEVEL] *)
  zstd_compress : bytes → option bytes;
  (* [zstd_safe::get_frame_content_size]: an unreadable header is [Err] *)
  zstd_content_size : bytes → result unit (option Z);
  (* [zstd::bulk::decompress] with its capacity *)
  zstd_decompress : bytes → nat → option bytes;
  (* a streaming decoder, [take(max)], [read_to_end] *)
  zstd_read_prefix : bytes → nat → option bytes;
}.
(** A frame [bulk::compress] wrote declares its content size and decompresses to
    what it was made from. *)
Class ZstdLaws `{Zstd} : Prop := {
  zstd_declares raw frame :
    zstd_compress raw = Some frame → zstd_content_size frame = Ok (Some (Z.of_nat (length raw)));
  zstd_restores raw frame n :
    zstd_compress raw = Some frame → length raw ≤ n → zstd_decompress frame n = Some raw;
  zstd_streams raw frame n :
    zstd_compress raw = Some frame → zstd_read_prefix frame n = Some (take n raw);
}.

Section content.
Context `{Zstd}.

Definition compress (raw : bytes) : result StorageError bytes := ok_or Compress (zstd_compress raw).

Definition decompress (frame : bytes) (size : Z) (message_id : bytes) : result StorageError bytes :=
  let corrupt := Err (ContentCorrupt message_id) in
  if (size <? 0)%Z then corrupt
  else
    let capacity := Z.to_nat size in
    match zstd_content_size frame with
    | Ok (Some declared) =>
      if (declared =? Z.of_nat capacity)%Z then
        match zstd_decompress frame capacity with
        | Some raw => if length raw =? capacity then Ok raw else corrupt
        | None => corrupt
        end
      else corrupt
    | Ok None => corrupt
    | Err _ => corrupt
    end.

Definition decompress_prefix (frame : bytes) (max_bytes : nat) (message_id : bytes)
    : result StorageError bytes :=
  ok_or (ContentCorrupt message_id) (zstd_read_prefix frame max_bytes).

(** Whatever the frame and the recorded size, only that many bytes are served. *)
Lemma decompress_length frame size id raw :
  decompress frame size id = Ok raw → Z.of_nat (length raw) = size.
Proof.
  unfold decompress. destruct (Z.ltb_spec size 0); [done|].
  destruct (zstd_content_size frame) as [[d|]|]; try done. destruct (d =? _)%Z; [|done].
  destruct (zstd_decompress frame _) as [r|]; [|done].
  destruct (Nat.eqb_spec (length r) (Z.to_nat size)); [|done]. intros [= <-]. lia.
Qed.
Lemma decompress_error frame size id e :
  decompress frame size id = Err e → e = ContentCorrupt id.
Proof.
  unfold decompress. destruct (_ <? _)%Z; [by intros [= <-]|].
  destruct (zstd_content_size frame) as [[d|]|]; try (by intros [= <-]).
  destruct (d =? _)%Z; [|by intros [= <-]].
  destruct (zstd_decompress frame _) as [r|]; [|by intros [= <-]].
  destruct (_ =? _); by intros [= <-].
Qed.

Context `{!ZstdLaws}.

Lemma decompress_compress raw frame id :
  compress raw = Ok frame → decompress frame (Z.of_nat (length raw)) id = Ok raw.
Proof.
  unfold compress, decompress. destruct (zstd_compress raw) as [f|] eqn:Hc; simpl; [|done].
  intros [= <-]. destruct (Z.ltb_spec (Z.of_nat (length raw)) 0); [lia|].
  rewrite (zstd_declares _ _ Hc), Nat2Z.id, Z.eqb_refl.
  by rewrite (zstd_restores _ _ _ Hc), Nat.eqb_refl by done.
Qed.
Lemma decompress_prefix_compress raw frame n id :
  compress raw = Ok frame → decompress_prefix frame n id = Ok (take n raw).
Proof.
  unfold compress, decompress_prefix. destruct (zstd_compress raw) as [f|] eqn:Hc; simpl; [|done].
  intros [= <-]. by rewrite (zstd_streams _ _ _ Hc).
Qed.
End content.

(** A store that keeps its content as it is, to instantiate the laws with. *)
Module PlainZstd.
#[export] Instance plain : Zstd := {|
  zstd_compress raw := Some raw;
  zstd_content_size frame := Ok (Some (Z.of_nat (length frame)));
  zstd_decompress frame n := if length frame <=? n then Some frame else None;
  zstd_read_prefix frame n := Some (take n frame);
|}.
#[export] Instance plain_laws : ZstdLaws.
Proof.
  split; intros raw frame; simpl; intros.
  - by simplify_eq.
  - simplify_eq. by rewrite leb_correct.
  - by simplify_eq.
Qed.
End PlainZstd.
