(* ===== verification/MailParser.v ===== *)
(** What the program reads of the mail-parser crate: a parsed message as the
    fields its accessors return, and the decoders of its transfer encodings. The
    parser and the decoders themselves are parameters. *)
From S2P Require Import Prelude RustStd.

Inductive Encoding := EncNone | EncQuotedPrintable | EncBase64.
#[export] Instance Encoding_eq_dec : EqDecision Encoding.
Proof. solve_decision. Defined.

(** [PartType], a nested message by the header and end offsets of its root part,
    if it has one. *)
Inductive PartType :=
| PtText | PtHtml | PtBinary | PtInlineBinary | PtMessage (root : option (Z * Z)) | PtMultipart.
#[export] Instance PartType_eq_dec : EqDecision PartType.
Proof. solve_decision. Defined.

(** [ContentType]: type and subtype. *)
Record ContentType := { ctype : bytes; subtype : option bytes }.

Record MessagePart := {
  body : PartType;
  part_content_type : option ContentType;
  part_content_id : option bytes;
  attachment_name : option bytes;
  is_encoding_problem : bool;
  encoding : Encoding;
  offset_body : Z;
  offset_end : Z;
  (* [MessagePart::contents] *)
  contents : bytes;
}.

(** [mail_parser::Message]; the attachments are indices of its parts. *)
Record ParsedMessage := {
  subject : option bytes;
  body_text : option bytes;
  body_html : option bytes;
  attachment_ids : list nat;
  parts : list MessagePart;
}.

Class MailParser := {
  parse_message : bytes → option ParsedMessage;
  quoted_printable_decode : bytes → option bytes;
  base64_decode : bytes → option bytes;
}.

(** ** The laws of its base64 decoders *)

Definition BASE64_ALPHABET : bytes :=
  b#"ABCDEFGHIJKLMNOPQRSTUVWXYZabcdefghijklmnopqrstuvwxyz0123456789+/".
(** Nothing but base64, its padding and white space. *)
Definition clean_base64 (s : bytes) : bool :=
  forallb (λ c, existsb (Ascii.eqb c) (BASE64_ALPHABET ++ ["="; " "; "009"; CR; LF]%char)) s.
(** What so many characters decode to: four to three bytes, and what is left of a
    four only when a padding character closes it. *)
Definition whole_quanta (n : nat) : nat := 3 * (n / 4).
Definition padded_quanta (n : nat) : nat :=
  whole_quanta n + match n mod 4 with 0 => 0 | 1 | 2 => 1 | _ => 2 end.
Fixpoint quanta (runs : list nat) : nat :=
  match runs with
  | [] => 0
  | [n] => whole_quanta n
  | n :: runs => padded_quanta n + quanta runs
  end.
(** The runs between padding characters, white space left out. *)
Definition base64_len (s : bytes) : nat :=
  quanta (map length (split "=" (List.filter (λ c, negb (existsb (Ascii.eqb c) [" "; "009"; CR; LF]%char)) s))).

(** The decoder of a slice takes everything clean, and decodes it to that length.
    The one inside the parser may skip other characters, but on a part that is clean
    it is in step with it: the same length means the same bytes. Offsets are [u32]. *)
Class MailParserLaws `{MailParser} : Prop := {
  base64_decodes s : clean_base64 s = true → ∃ d, base64_decode s = Some d ∧ length d = base64_len s;
  offsets_unsigned raw msg part :
    parse_message raw = Some msg → part ∈ parts msg → (0 ≤ offset_body part)%Z;
  base64_in_step raw msg part d :
    parse_message raw = Some msg → part ∈ parts msg → body part ≠ PtMessage None →
    encoding part = EncBase64 → is_encoding_problem part = false →
    (offset_body part ≤ offset_end part ≤ Z.of_nat (length raw))%Z →
    let s := slice (Z.to_nat (offset_body part)) (Z.to_nat (offset_end part)) raw in
    clean_base64 s = true → base64_decode s = Some d → length d = length (contents part) → d = contents part;
}.
