(* ===== verification/Locator.v ===== *)
(** Attachments served from the raw message instead of stored twice:
    [crates/rustmail-storage/src/locator.rs]. *)
From S2P Require Import Prelude RustStd MailParser.

Definition BASE64_QUANTUM_CHARS : nat := 4.
Definition BASE64_QUANTUM_BYTES : nat := 3.

Inductive TransferEncoding := Identity | QuotedPrintable | Base64.
#[export] Instance TransferEncoding_eq_dec : EqDecision TransferEncoding.
Proof. solve_decision. Defined.

Definition code (e : TransferEncoding) : Z :=
  match e with Identity => 0 | QuotedPrintable => 1 | Base64 => 2 end.
Definition from_code (c : Z) : option TransferEncoding :=
  match c with 0 => Some Identity | 1 => Some QuotedPrintable | 2 => Some Base64 | _ => None end%Z.
Definition of_encoding (e : Encoding) : TransferEncoding :=
  match e with
  | EncNone => Identity | EncQuotedPrintable => QuotedPrintable | EncBase64 => Base64
  end.

Record Locator := { offset : nat; len : nat; loc_encoding : TransferEncoding }.
#[export] Instance Locator_eq_dec : EqDecision Locator.
Proof. solve_decision. Defined.

(** [raw.get(start..end)]. *)
Definition get_range (start stop : nat) (raw : bytes) : option bytes :=
  if (start <=? stop) && (stop <=? length raw) then Some (slice start stop raw) else None.

(** [PartType::Message] with no parts has no contents. *)
Definition part_contents (part : MessagePart) : bytes :=
  match body part with PtMessage None => [] | _ => contents part end.

Definition body_range (part : MessagePart) (e : TransferEncoding) : option (nat * nat) :=
  range ← match body part, e with
          | PtMessage root, Identity => root
          | _, _ => Some (offset_body part, offset_end part)
          end;
  let '(start, stop) := range in
  if (start <=? stop)%Z then Some (Z.to_nat start, Z.to_nat stop) else None.

(** A character of the base64 alphabet. *)
Definition is_base64 (c : ascii) : bool :=
  is_ascii_alphanumeric c || Ascii.eqb c "+" || Ascii.eqb c "/".
(** White space between them. *)
Definition is_base64_gap (c : ascii) : bool := existsb (Ascii.eqb c) [" "; "009"; CR; LF]%char.

Fixpoint predicted_base64_len_from (decoded_len pending_chars : nat) (body : bytes) : option nat :=
  match body with
  | [] => Some decoded_len
  | byte :: body =>
    if is_base64 byte then
      let pending_chars := (pending_chars + 1) mod BASE64_QUANTUM_CHARS in
      predicted_base64_len_from
        (if pending_chars =? 0 then decoded_len + BASE64_QUANTUM_BYTES else decoded_len)
        pending_chars body
    else if Ascii.eqb byte "=" then
      predicted_base64_len_from
        (decoded_len + match pending_chars with 1 | 2 => 1 | 3 => 2 | _ => 0 end) 0 body
    else if is_base64_gap byte then predicted_base64_len_from decoded_len pending_chars body
    else None
  end.
Definition predicted_base64_len (body : bytes) : option nat := predicted_base64_len_from 0 0 body.

Section decoders.
Context `{MailParser}.

Definition decode_body (e : TransferEncoding) (body : bytes) : option bytes :=
  match e with
  | Identity => Some body
  | QuotedPrintable => quoted_printable_decode body
  | Base64 => base64_decode body
  end.

Definition is_binary_or_message (p : PartType) : bool :=
  match p with PtBinary | PtInlineBinary | PtMessage _ => true | _ => false end.

Definition locate (raw : bytes) (part : MessagePart) : option Locator :=
  match is_binary_or_message (body part), part_content_type part, is_encoding_problem part with
  | true, Some _, false =>
    let e := of_encoding (encoding part) in
    '(start, stop) ← body_range part e;
    slice ← get_range start stop raw;
    let contents := part_contents part in
    let decodes_to_contents :=
      match e with
      | Identity => beqb slice contents
      | QuotedPrintable =>
        match quoted_printable_decode slice with Some d => beqb d contents | None => false end
      | Base64 => bool_decide (predicted_base64_len slice = Some (length contents))
      end in
    if decodes_to_contents
    then Some {| offset := start; len := stop - start; loc_encoding := e |}
    else None
  | _, _, _ => None
  end.
End decoders.

(** ** Laws *)

Lemma from_code_code e : from_code (code e) = Some e.
Proof. by destruct e. Qed.
Lemma code_from_code c e : from_code c = Some e → c = code e.
Proof. unfold from_code. intros H. by repeat (case_match; simplify_eq). Qed.

Lemma get_range_spec start stop raw s :
  get_range start stop raw = Some s ↔
  start ≤ stop ≤ length raw ∧ s = take (stop - start) (drop start raw).
Proof.
  unfold get_range, slice.
  destruct (Nat.leb_spec start stop), (Nat.leb_spec stop (length raw)); simpl; naive_solver lia.
Qed.

(** A located part is the slice its locator names, and what that slice decodes to
    is what the parser produced, its length in any case. *)
Lemma locate_spec `{MailParser} raw part l :
  locate raw part = Some l →
  ∃ s, get_range (offset l) (offset l + len l) raw = Some s ∧
    loc_encoding l = of_encoding (encoding part) ∧
    match loc_encoding l with
    | Base64 => predicted_base64_len s = Some (length (part_contents part))
    | e => decode_body e s = Some (part_contents part)
    end.
Proof.
  unfold locate. destruct (is_binary_or_message _), (part_content_type part), (is_encoding_problem part);
    try done.
  destruct (body_range _ _) as [[start stop]|]; simpl; [|done].
  destruct (get_range start stop raw) as [s|] eqn:Hs; simpl; [|done]. intros Hl.
  assert (Hr := Hs). apply get_range_spec in Hr as [[? ?] _].
  exists s. destruct (encoding part); simpl in *.
  - destruct (beqb s (part_contents part)) eqn:E; [|done]. simplify_eq/=.
    apply beqb_spec in E as ->. by replace (start + (stop - start)) with stop by lia.
  - destruct (quoted_printable_decode s) as [d|] eqn:Ed; [|done].
    destruct (beqb d (part_contents part)) eqn:E; [|done]. simplify_eq/=.
    apply beqb_spec in E as ->. by replace (start + (stop - start)) with stop by lia.
  - destruct (bool_decide_reflect (predicted_base64_len s = Some (length (part_contents part))));
      [|done]. simplify_eq/=. by replace (start + (stop - start)) with stop by lia.
Qed.

(** ** Base64 *)

(** The standard encoder (RFC 4648), with padding. *)
Definition b64char (n : N) : ascii :=
  if (n <? 26)%N then ascii_of_N (65 + n)
  else if (n <? 52)%N then ascii_of_N (71 + n)
  else if (n <? 62)%N then ascii_of_N (n - 4)
  else if (n =? 62)%N then "+"%char else "/"%char.
Fixpoint base64_encode (data : bytes) : bytes :=
  match data with
  | a :: b :: c :: data =>
    let n := (byte_val a * 65536 + byte_val b * 256 + byte_val c)%N in
    b64char (n / 262144) :: b64char (n / 4096 mod 64) :: b64char (n / 64 mod 64) ::
    b64char (n mod 64) :: base64_encode data
  | [a; b] =>
    let n := (byte_val a * 65536 + byte_val b * 256)%N in
    [b64char (n / 262144); b64char (n / 4096 mod 64); b64char (n / 64 mod 64); "="%char]
  | [a] =>
    let n := (byte_val a * 65536)%N in
    [b64char (n / 262144); b64char (n / 4096 mod 64); "="; "="]%char
  | [] => []
  end.

Lemma b64char_alphabet n : (n < 64)%N → is_base64 (b64char n) = true.
Proof.
  intros Hn. assert (Hall : forallb (λ k, is_base64 (b64char (N.of_nat k))) (seq 0 64) = true)
    by (vm_compute; reflexivity).
  rewrite forallb_forall in Hall. specialize (Hall (N.to_nat n)). rewrite N2Nat.id in Hall.
  apply Hall, in_seq. lia.
Qed.
Lemma byte_val_lt c : (byte_val c < 256)%N.
Proof. unfold byte_val. apply N_ascii_bounded. Qed.

Lemma predicted_char d p c s : is_base64 c = true → p < 4 →
  predicted_base64_len_from d p (c :: s) =
    predicted_base64_len_from (if p =? 3 then d + 3 else d) (if p =? 3 then 0 else S p) s.
Proof.
  intros Hc Hp. cbn [predicted_base64_len_from]. rewrite Hc.
  unfold BASE64_QUANTUM_CHARS, BASE64_QUANTUM_BYTES.
  by destruct p as [|[|[|[|p]]]]; [..|lia].
Qed.

Lemma predicted_gap d p c s : is_base64_gap c = true →
  predicted_base64_len_from d p (c :: s) = predicted_base64_len_from d p s.
Proof.
  intros Hg. cbn [predicted_base64_len_from].
  unfold is_base64_gap in Hg. simpl in Hg. repeat (apply orb_true_iff in Hg as [Hg|Hg]);
    try (apply Ascii.eqb_eq in Hg as ->; reflexivity). done.
Qed.
Lemma predicted_strip d p s :
  predicted_base64_len_from d p s =
    predicted_base64_len_from d p (List.filter (λ c, negb (is_base64_gap c)) s).
Proof.
  revert d p. induction s as [|c s IH]; intros d p; [done|]. cbn [List.filter].
  destruct (is_base64_gap c) eqn:Hg; cbn [negb]; [by rewrite predicted_gap|].
  cbn [predicted_base64_len_from]. rewrite Hg. repeat (case_match; [done|]). done.
Qed.
Ltac quantum_char :=
  rewrite predicted_char;
    [|apply b64char_alphabet; auto; apply N.Div0.div_lt_upper_bound; lia|simpl; lia].

Lemma predicted_encode d data :
  predicted_base64_len_from d 0 (base64_encode data) = Some (d + length data).
Proof.
  revert d. induction data as [data IH] using (induction_ltof1 _ (@length ascii)). intros d.
  assert (H64 : ∀ n, (n mod 64 < 64)%N) by (intros; by apply N.mod_lt).
  destruct data as [|a [|b [|c data]]]; cbn [base64_encode];
    [simpl; f_equal; lia|assert (Ha := byte_val_lt a)..].
  - do 2 quantum_char.
    simpl; f_equal; lia.
  - assert (Hb := byte_val_lt b). do 3 quantum_char.
    simpl; f_equal; lia.
  - assert (Hb := byte_val_lt b). assert (Hc := byte_val_lt c). do 4 quantum_char.
    simpl Nat.eqb. cbn [base64_encode]. rewrite IH; [simpl; f_equal; lia|unfold ltof; simpl; lia].
Qed.

(** The prediction is the length that the decoders have on clean text, and there is
    none of any other. *)
Lemma clean_char c :
  existsb (Ascii.eqb c) (BASE64_ALPHABET ++ ["="; " "; "009"; CR; LF]%char) =
    is_base64 c || Ascii.eqb c "=" || is_base64_gap c.
Proof. by destruct c as [[] [] [] [] [] [] [] []]. Qed.
Definition runs_of (s : bytes) : list nat :=
  map length (split "=" (List.filter (λ c, negb (is_base64_gap c)) s)).
Lemma runs_nonempty s : runs_of s ≠ [].
Proof.
  unfold runs_of, split. induction (List.filter _ s) as [|c s' IH]; simpl; [done|].
  destruct (Ascii.eqb c "="); [done|]. by destruct (split_on _ s').
Qed.
Lemma runs_char c s : is_base64 c = true →
  ∃ n l, runs_of s = n :: l ∧ runs_of (c :: s) = S n :: l.
Proof.
  intros Hc. assert (is_base64_gap c = false ∧ Ascii.eqb c "=" = false) as [Hg Hp]
    by (by destruct c as [[] [] [] [] [] [] [] []]).
  pose proof (runs_nonempty s) as Hne. unfold runs_of, split in *. cbn [List.filter]. rewrite Hg. cbn [negb split_on]. rewrite Hp.
  destruct (split_on _ _) as [|x l]; [done|]. by exists (length x), (map length l).
Qed.
Lemma quanta_four n l : quanta (4 + n :: l) = 3 + quanta (n :: l).
Proof.
  assert (Hw : whole_quanta (4 + n) = 3 + whole_quanta n).
  { unfold whole_quanta. replace (4 + n) with (n + 1 * 4) by lia. rewrite Nat.div_add by lia. lia. }
  destruct l as [|m l]; cbn [quanta]; [done|]. unfold padded_quanta. rewrite Hw.
  replace (4 + n) with (n + 1 * 4) by lia. rewrite Nat.Div0.mod_add. lia.
Qed.
Lemma predicted_from_clean d p s : p < 4 →
  predicted_base64_len_from d p s =
    if clean_base64 s then match runs_of s with [] => None | n :: l => Some (d + quanta (p + n :: l)) end else None.
Proof.
  revert d p. induction s as [|c s IH]; intros d p Hp.
  { simpl. f_equal. unfold whole_quanta. rewrite Nat.div_small by lia. lia. }
  unfold clean_base64. cbn [forallb]. rewrite clean_char. fold (clean_base64 s).
  destruct (is_base64 c) eqn:Hc.
  { destruct (runs_char c s Hc) as (n & l & Hs & ->). rewrite predicted_char, IH by (first [done | destruct (p =? 3) eqn:E; [lia|apply Nat.eqb_neq in E; lia]]).
    rewrite Hs. simpl orb. cbn [andb]. destruct (clean_base64 s); [|done].
    destruct (Nat.eqb_spec p 3) as [->|Hne]; [|by replace (S p + n) with (p + S n) by lia].
    replace (3 + S n) with (4 + n) by lia. rewrite quanta_four. f_equal. rewrite Nat.add_0_l. lia. }
  cbn [predicted_base64_len_from]. rewrite Hc. destruct (Ascii.eqb_spec c "=") as [->|Hne].
  { change (runs_of ("="%char :: s)) with (0 :: runs_of s). rewrite IH by lia. simpl orb. cbn [andb].
    destruct (clean_base64 s); [|done]. pose proof (runs_nonempty s). destruct (runs_of s) as [|n l]; [done|].
    rewrite Nat.add_0_r. change (quanta (p :: n :: l)) with (padded_quanta p + quanta (n :: l)).
    f_equal. unfold padded_quanta, whole_quanta. rewrite Nat.div_small, Nat.mod_small by lia.
    destruct p as [|[|[|[|]]]]; simpl; lia. }
  destruct (is_base64_gap c) eqn:Hg; [|done]. rewrite IH by done.
  assert (runs_of (c :: s) = runs_of s) as -> by (unfold runs_of; cbn [List.filter]; by rewrite Hg).
  by destruct (clean_base64 s).
Qed.
Lemma predicted_base64_len_spec s n :
  predicted_base64_len s = Some n ↔ clean_base64 s = true ∧ n = base64_len s.
Proof.
  unfold predicted_base64_len. rewrite predicted_from_clean by lia. change (base64_len s) with (quanta (runs_of s)).
  pose proof (runs_nonempty s). destruct (clean_base64 s), (runs_of s); naive_solver.
Qed.

(** ** Properties *)

(** The length [locate] compares with the parser's is right for
    every standard base64 body: encode any data, break the text into lines or
    indent it in any way, and the predicted length is the data's. *)
Theorem predicted_base64_len_encode data body :
  List.filter (λ c, negb (is_base64_gap c)) body = base64_encode data →
  predicted_base64_len body = Some (length data).
Proof. intros Hb. unfold predicted_base64_len. by rewrite predicted_strip, Hb, predicted_encode. Qed.
Lemma predicted_base64_len_encode_witness :
  predicted_base64_len (b#"aG" ++ crlf ++ b#" Vs" ++ crlf ++ b#"bG8=" ++ crlf) = Some (length b#"hello").
Proof. apply predicted_base64_len_encode. vm_compute. reflexivity. Defined.
