(* ===== verification/Prepared.v ===== *)
(** Captured mail parsed into the rows it is stored as:
    [crates/rustmail-storage/src/prepared.rs], the bodies of [content.rs] and
    the JSON arrays of [models.rs]. *)
From S2P Require Import Prelude RustStd StorageError Content MailParser Locator.

(** JSON arrays of strings, by serde_json and by SQLite's [json_each]. *)
Class Json := {
  json_to_string : list bytes → bytes;
  json_from_str : bytes → option (list bytes);
  json_each : bytes → list bytes;
}.
Class JsonLaws `{Json} : Prop := {
  json_empty : json_to_string [] = b#"[]";
  json_reads_back l : json_from_str (json_to_string l) = Some l;
  json_each_reads l : json_each (json_to_string l) = l;
}.

(** How a stored array leaves as JSON, and how it is read back ([models.rs]). *)
Definition serialize_json_string_as_array `{Json} (json_str : bytes) : list bytes :=
  default [] (json_from_str json_str).
Definition deserialize_array_as_json_string `{Json} (items : list bytes) : bytes := json_to_string items.

(** ** Bodies *)

Record Bodies := { text : option bytes; html : option bytes }.
Definition bodies_of (parsed : ParsedMessage) : Bodies :=
  {| text := body_text parsed; html := body_html parsed |}.
Definition bodies_parse `{MailParser} (raw : bytes) : Bodies :=
  match parse_message raw with
  | Some parsed => bodies_of parsed
  | None => {| text := None; html := None |}
  end.

(** ** Attachments *)

Inductive AttachmentStorage := Located (l : Locator) | Inline (content : bytes).
Record PreparedAttachment := {
  filename : option bytes;
  content_type : option bytes;
  content_id : option bytes;
  att_size : nat;
  storage : AttachmentStorage;
}.

Definition mime_type (ct : ContentType) : bytes :=
  match subtype ct with Some s => ctype ct ++ b#"/" ++ s | None => ctype ct end.

(** The parts of a message worth a row: the declared attachments and the inline
    binary parts, in message order, the empty ones left out. *)
Definition is_stored_part (attachment_ids : list nat) (idx : nat) (part : MessagePart) : bool :=
  (bool_decide (idx ∈ attachment_ids) || match body part with PtInlineBinary => true | _ => false end)
  && nonempty (part_contents part).
Definition stored_part_refs (parsed : ParsedMessage) : list MessagePart :=
  map snd (List.filter (λ p, is_stored_part (attachment_ids parsed) (fst p) (snd p))
    (imap pair (parts parsed))).

Section prepared.
Context `{MailParser, Zstd, Json}.

Definition stored_part (raw : bytes) (part : MessagePart) : PreparedAttachment :=
  {| filename := attachment_name part;
     content_type := mime_type <$> part_content_type part;
     content_id := part_content_id part;
     att_size := length (part_contents part);
     storage := match locate raw part with
                | Some l => Located l
                | None => Inline (part_contents part)
                end |}.
Definition stored_parts (parsed : ParsedMessage) (raw : bytes) : list PreparedAttachment :=
  map (stored_part raw) (stored_part_refs parsed).

(** ** Messages *)

Record PreparedMessage := {
  p_sender : bytes;
  recipients_json : bytes;
  p_subject : option bytes;
  text_body : option bytes;
  size : nat;
  compressed_raw : bytes;
  has_attachments : bool;
  attachments : list PreparedAttachment;
}.

Definition parse (sender : bytes) (recipients : list bytes) (raw : bytes)
    : result StorageError PreparedMessage :=
  let '(subject, text_body, has_attachments, attachments) :=
    match parse_message raw with
    | Some parsed =>
      (subject parsed, text (bodies_of parsed), 0 <? length (attachment_ids parsed),
       stored_parts parsed raw)
    | None => (None, None, false, [])
    end in
  frame ← compress raw;
  mret {| p_sender := sender; recipients_json := json_to_string recipients; p_subject := subject;
          text_body := text_body; size := length raw; compressed_raw := frame;
          has_attachments := has_attachments; attachments := attachments |}.

(** Parsing never drops a message: only zstd can refuse it. *)
Lemma parse_spec sender recipients raw :
  match compress raw with
  | Ok frame => ∃ p, parse sender recipients raw = Ok p ∧ p_sender p = sender ∧
      recipients_json p = json_to_string recipients ∧ size p = length raw ∧ compressed_raw p = frame
  | Err e => parse sender recipients raw = Err e
  end.
Proof.
  unfold parse. destruct (match parse_message raw with Some _ => _ | None => _ end) as [[[? ?] ?] ?].
  destruct (compress raw); simpl; [eexists; split; [done|]|]; done.
Qed.
End prepared.
