(* ===== verification/Query.v ===== *)
(** Listing queries: the rows, filters and pages of
    [crates/rustmail-storage/src/query.rs] and [models.rs], with the SQL clauses
    they append read as functions of the rows. *)
From S2P Require Import Prelude RustStd.

(** A row of [messages]. *)
Record MessageRecord := {
  seq : Z;
  id : bytes;
  m_sender : bytes;
  m_recipients : bytes;
  m_subject : option bytes;
  m_size : Z;
  m_has_attachments : bool;
  is_read : bool;
  is_starred : bool;
  tags : bytes;
  created_at : bytes;
}.
#[export] Instance MessageRecord_eq_dec : EqDecision MessageRecord.
Proof. solve_decision. Defined.

(** [SUMMARY_COLUMNS]: every column but [seq]. *)
Record MessageSummary := {
  s_id : bytes; s_sender : bytes; s_recipients : bytes; s_subject : option bytes; s_size : Z;
  s_has_attachments : bool; s_is_read : bool; s_is_starred : bool; s_tags : bytes;
  s_created_at : bytes;
}.
#[export] Instance MessageSummary_eq_dec : EqDecision MessageSummary.
Proof. solve_decision. Defined.
Definition summary (m : MessageRecord) : MessageSummary :=
  {| s_id := id m; s_sender := m_sender m; s_recipients := m_recipients m; s_subject := m_subject m;
     s_size := m_size m; s_has_attachments := m_has_attachments m; s_is_read := is_read m;
     s_is_starred := is_starred m; s_tags := tags m; s_created_at := created_at m |}.

Record MessageFilter := {
  starred : bool;
  unread : bool;
  with_attachments : bool;
  filter_tags : list bytes;
}.
#[export] Instance MessageFilter_eq_dec : EqDecision MessageFilter.
Proof. solve_decision. Defined.
Definition no_filter : MessageFilter :=
  {| starred := false; unread := false; with_attachments := false; filter_tags := [] |}.
Definition filter_is_empty (f : MessageFilter) : bool := bool_decide (f = no_filter).

(** [message_tags]: a tag and the message that carries it. *)
Abbreviation tag_rows := (gset (bytes * Z)).

(** [push_filter]: the conditions of the [WHERE] clause. *)
Definition passes (f : MessageFilter) (message_tags : tag_rows) (m : MessageRecord) : bool :=
  (negb (starred f) || is_starred m) &&
  (negb (unread f) || negb (is_read m)) &&
  (negb (with_attachments f) || m_has_attachments m) &&
  match filter_tags f with
  | [] => true
  | wanted => existsb (λ tag, bool_decide ((tag, seq m) ∈ message_tags)) wanted
  end.

Inductive PageStart := Offset (n : Z) | Before (cursor : Z).

(** SQLite takes a negative [LIMIT] as none and a negative [OFFSET] as zero. *)
Definition sql_limit {A} (n : Z) (l : list A) : list A :=
  if (n <? 0)%Z then l else take (Z.to_nat n) l.
Definition sql_offset {A} (n : Z) (l : list A) : list A := drop (Z.to_nat n) l.

(** [push_page], on the rows in ascending order of their sequence numbers. *)
Definition page (start : PageStart) (limit : Z) (rows : list MessageRecord) : list MessageRecord :=
  match start with
  | Before bound => sql_limit limit (rev (List.filter (λ m, (seq m <? bound)%Z) rows))
  | Offset n => sql_limit limit (sql_offset n (rev rows))
  end.

(** ** Laws *)

Lemma passes_empty f message_tags m : filter_is_empty f = true → passes f message_tags m = true.
Proof. unfold filter_is_empty. by intros ->%bool_decide_eq_true. Qed.

Definition ascending (rows : list MessageRecord) : Prop :=
  StronglySorted (λ a b, (seq a < seq b)%Z) rows.

Lemma ascending_app a b :
  ascending (a ++ b) ↔ ascending a ∧ ascending b ∧
    ∀ x y, x ∈ a → y ∈ b → (seq x < seq y)%Z.
Proof.
  unfold ascending. split.
  - intros H. split_and!; [by eapply StronglySorted_app_1_l|by eapply StronglySorted_app_1_r|].
    intros x y. apply (StronglySorted_app_1_elem_of (λ a b, (seq a < seq b)%Z)). done.
  - intros (Ha & Hb & H). induction Ha as [|x a Ha IH Hx]; [done|]. simpl. constructor.
    + apply IH. set_solver.
    + apply Forall_app. split; [done|]. apply Forall_forall. set_solver.
Qed.
Lemma ascending_filter p rows : ascending rows → ascending (List.filter p rows).
Proof.
  unfold ascending. induction 1 as [|x rows Hr IH Hx]; simpl; [constructor|].
  destruct (p x); [|done]. constructor; [done|].
  rewrite Forall_forall in *. intros y Hy. apply Hx.
  apply list_elem_of_In in Hy. apply filter_In in Hy as [? _]. by apply list_elem_of_In.
Qed.

(** In an ascending listing the rows before a row are those with smaller numbers. *)
Lemma filter_before a x b :
  ascending (a ++ x :: b) →
  List.filter (λ m, (seq m <? seq x)%Z) (a ++ x :: b) = a.
Proof.
  intros (_ & Hb & Hab)%ascending_app. rewrite List.filter_app. cbn [List.filter].
  rewrite Z.ltb_irrefl.
  assert (Ha : List.filter (λ m, (seq m <? seq x)%Z) a = a).
  { assert (∀ y, y ∈ a → (seq y < seq x)%Z) as Hy by set_solver. clear Hab.
    induction a as [|y a IH]; [done|]. cbn [List.filter].
    assert (seq y < seq x)%Z as Hlt by set_solver. rewrite (proj2 (Z.ltb_lt _ _) Hlt).
    rewrite IH by set_solver. done. }
  assert (Hbn : List.filter (λ m, (seq m <? seq x)%Z) b = []).
  { inversion_clear Hb as [|? ? _ Hx]. clear Hab Ha. induction Hx as [|y b Hy _ IH]; [done|].
    cbn [List.filter]. destruct (Z.ltb_spec (seq y) (seq x)); [lia|done]. }
  rewrite Ha, Hbn. apply app_nil_r.
Qed.

(** The page before the last row of a page goes on where that page ended. *)
Lemma page_next limit rows a x b :
  ascending rows → rev rows = a ++ x :: b → page (Before (seq x)) limit rows = sql_limit limit b.
Proof.
  intros Hr Heq. unfold page. f_equal.
  assert (Hrows : rows = rev b ++ x :: rev a).
  { rewrite <- (rev_involutive rows), Heq, rev_app_distr. simpl. by rewrite <- app_assoc. }
  rewrite Hrows in *. rewrite filter_before by done. apply rev_involutive.
Qed.
