(* ===== verification/Database.v ===== *)
(** The tables of [crates/rustmail-storage/src/schema.rs] and the SQL statements
    of [repo.rs] as functions of them: a statement succeeds and leaves new
    tables, or a constraint refuses it. Foreign keys cascade, the triggers keep
    [message_tags], and nothing but explicit statements touches the full-text
    index. *)
From S2P Require Import Prelude RustStd StorageError Prepared Query.

(** ** Tables *)

(** A row of the contentless index, by its [rowid]. *)
Record FtsRow := {
  f_subject : option bytes; f_text_body : option bytes; f_sender : bytes; f_recipients : bytes;
}.
#[export] Instance FtsRow_eq_dec : EqDecision FtsRow.
Proof. solve_decision. Defined.

Record AttachmentRecord := {
  a_id : bytes;
  message_seq : Z;
  a_filename : option bytes;
  a_content_type : option bytes;
  a_content_id : option bytes;
  a_size : option Z;
  raw_offset : option Z;
  raw_len : option Z;
  transfer_encoding : option Z;
  a_content : option bytes;
}.
#[export] Instance AttachmentRecord_eq_dec : EqDecision AttachmentRecord.
Proof. solve_decision. Defined.

(** [messages] and [attachments] are in the order of their rowids. *)
Record Tables := {
  messages : list MessageRecord;
  message_content : gmap Z bytes;
  messages_fts : gmap Z FtsRow;
  attachments : list AttachmentRecord;
  message_tags : gset (bytes * Z);
}.
Definition empty_tables : Tables :=
  {| messages := []; message_content := ∅; messages_fts := ∅; attachments := []; message_tags := ∅ |}.

Definition seqs (t : Tables) : gset Z := list_to_set (map seq (messages t)).
(** The rowid SQLite gives the next row: one past the largest, from 1. *)
Definition next_seq (t : Tables) : Z :=
  match last (messages t) with Some m => seq m + 1 | None => 1 end.

(** ** Statements *)

Abbreviation stmt A := (Tables → result StorageError (A * Tables)).

Section statements.
Context `{Json}.

(** The rows the triggers write for a message. *)
Definition tag_set (s : Z) (tags : bytes) : gset (bytes * Z) :=
  list_to_set (map (λ tag, (tag, s)) (json_each tags)).

Definition with_seq (s : Z) (m : MessageRecord) : MessageRecord :=
  {| seq := s; id := id m; m_sender := m_sender m; m_recipients := m_recipients m;
     m_subject := m_subject m; m_size := m_size m; m_has_attachments := m_has_attachments m;
     is_read := is_read m; is_starred := is_starred m; tags := tags m; created_at := created_at m |}.

(** [INSERT INTO messages]: the new row's [seq]; [id] is [UNIQUE]. The row's own
    [seq] is ignored. *)
Definition insert_message (m : MessageRecord) : stmt Z := λ t,
  let s := next_seq t in
  let m := with_seq s m in
  if existsb (λ x, beqb (id x) (id m)) (messages t) then Err CONSTRAINT
  else Ok (s, {| messages := messages t ++ [m]; message_content := message_content t;
                 messages_fts := messages_fts t; attachments := attachments t;
                 message_tags := if beqb (tags m) b#"[]" then message_tags t
                                 else message_tags t ∪ tag_set s (tags m) |}).

(** [INSERT INTO message_content]: [seq] is the primary key and references [messages]. *)
Definition insert_content (s : Z) (raw : bytes) : stmt unit := λ t,
  if bool_decide (s ∈ seqs t ∧ message_content t !! s = None)
  then Ok (tt, {| messages := messages t; message_content := <[s := raw]> (message_content t);
                  messages_fts := messages_fts t; attachments := attachments t;
                  message_tags := message_tags t |})
  else Err CONSTRAINT.

(** The two [CHECK]s of [attachments]. *)
Definition attachment_ok (a : AttachmentRecord) : Prop :=
  (a_content a = None ↔ raw_offset a ≠ None) ∧
  match raw_offset a with
  | None => True
  | Some o => (0 ≤ o)%Z ∧ (∃ l, raw_len a = Some l ∧ (0 ≤ l)%Z) ∧
      ∃ c, transfer_encoding a = Some c ∧ (0 ≤ c ≤ 2)%Z
  end.
Definition attachment_okb (a : AttachmentRecord) : bool :=
  match a_content a, raw_offset a with
  | Some _, None => true
  | None, Some o =>
    (0 <=? o)%Z && match raw_len a with Some l => (0 <=? l)%Z | None => false end &&
    match transfer_encoding a with Some c => (0 <=? c)%Z && (c <=? 2)%Z | None => false end
  | _, _ => false
  end.
Definition insert_attachment (a : AttachmentRecord) : stmt unit := λ t,
  if bool_decide (message_seq a ∈ seqs t) && attachment_okb a
     && negb (existsb (λ x, beqb (a_id x) (a_id a)) (attachments t))
  then Ok (tt, {| messages := messages t; message_content := message_content t;
                  messages_fts := messages_fts t; attachments := attachments t ++ [a];
                  message_tags := message_tags t |})
  else Err CONSTRAINT.

(** [INSERT INTO messages_fts ... VALUES], all rows or none. *)
Fixpoint fts_put (rows : list (Z * FtsRow)) (fts : gmap Z FtsRow) : option (gmap Z FtsRow) :=
  match rows with
  | [] => Some fts
  | (s, r) :: rows =>
    match fts !! s with Some _ => None | None => fts_put rows (<[s := r]> fts) end
  end.
Definition insert_fts (rows : list (Z * FtsRow)) : stmt unit := λ t,
  match fts_put rows (messages_fts t) with
  | Some fts => Ok (tt, {| messages := messages t; message_content := message_content t;
                           messages_fts := fts; attachments := attachments t;
                           message_tags := message_tags t |})
  | None => Err CONSTRAINT
  end.

(** [DELETE FROM messages WHERE p RETURNING id], with the cascades. *)
Definition delete_messages (p : MessageRecord → bool) : stmt (list bytes) := λ t,
  let gone : gset Z := list_to_set (map seq (List.filter p (messages t))) in
  Ok (map id (List.filter p (messages t)),
      {| messages := List.filter (λ m, negb (p m)) (messages t);
         message_content := filter (λ kv, kv.1 ∉ gone) (message_content t);
         messages_fts := messages_fts t;
         attachments := List.filter (λ a, bool_decide (message_seq a ∉ gone)) (attachments t);
         message_tags := filter (λ x, x.2 ∉ gone) (message_tags t) |}).

(** [DELETE FROM messages_fts WHERE rowid IN keys]. *)
Definition delete_fts (keys : Tables → gset Z) : stmt unit := λ t,
  Ok (tt, {| messages := messages t; message_content := message_content t;
             messages_fts := filter (λ kv, kv.1 ∉ keys t) (messages_fts t);
             attachments := attachments t; message_tags := message_tags t |}).

(** The keys of the messages that satisfy a condition. *)
Definition seqs_where (p : MessageRecord → bool) (t : Tables) : gset Z :=
  list_to_set (map seq (List.filter p (messages t))).

(** [UPDATE messages SET ... WHERE id = ?], the count of rows it changed; a
    [None] leaves its column alone. *)
Definition updated (r s : option bool) (tg : option bytes) (m : MessageRecord) : MessageRecord :=
  {| seq := seq m; id := id m; m_sender := m_sender m; m_recipients := m_recipients m;
     m_subject := m_subject m; m_size := m_size m; m_has_attachments := m_has_attachments m;
     is_read := default (is_read m) r; is_starred := default (is_starred m) s;
     tags := default (tags m) tg; created_at := created_at m |}.
(** The update trigger, which fires for a row whose [tags] changed. *)
Definition retagged (m m' : MessageRecord) (ts : gset (bytes * Z)) : gset (bytes * Z) :=
  if beqb (tags m) (tags m') then ts
  else filter (λ x, x.2 ≠ seq m) ts ∪ tag_set (seq m) (tags m').
Definition update_messages (i : bytes) (f : MessageRecord → MessageRecord) : stmt nat := λ t,
  let hit m := beqb (id m) i in
  Ok (length (List.filter hit (messages t)),
      {| messages := map (λ m, if hit m then f m else m) (messages t);
         message_content := message_content t; messages_fts := messages_fts t;
         attachments := attachments t;
         message_tags := fold_left (λ ts m, if hit m then retagged m (f m) ts else ts)
                           (messages t) (message_tags t) |}).

(** A [DELETE] of a whole child table, and FTS5's ['delete-all']. *)
Definition clear_content : stmt unit := λ t,
  Ok (tt, {| messages := messages t; message_content := ∅; messages_fts := messages_fts t;
             attachments := attachments t; message_tags := message_tags t |}).
Definition clear_attachments : stmt unit := λ t,
  Ok (tt, {| messages := messages t; message_content := message_content t;
             messages_fts := messages_fts t; attachments := []; message_tags := message_tags t |}).
Definition clear_tags : stmt unit := λ t,
  Ok (tt, {| messages := messages t; message_content := message_content t;
             messages_fts := messages_fts t; attachments := attachments t; message_tags := ∅ |}).
Definition clear_fts : stmt unit := λ t,
  Ok (tt, {| messages := messages t; message_content := message_content t; messages_fts := ∅;
             attachments := attachments t; message_tags := message_tags t |}).

(** ** Well-formedness *)

(** The rows of the ordinary tables agree with one another. *)
Record rows_wf (t : Tables) : Prop := {
  wf_ascending : ascending (messages t);
  wf_ids : NoDup (map id (messages t));
  wf_content : dom (message_content t) = seqs t;
  wf_attachments : Forall (λ a, message_seq a ∈ seqs t ∧ attachment_ok a) (attachments t);
  wf_tags tag s :
    (tag, s) ∈ message_tags t ↔ ∃ m, m ∈ messages t ∧ seq m = s ∧ tag ∈ json_each (tags m);
}.
(** A whole store: every message indexed, and nothing else. *)
Definition wf (t : Tables) : Prop := rows_wf t ∧ dom (messages_fts t) = seqs t.
End statements.
