(* ===== verification/Store.v ===== *)
(** Running statements against a database that fails, that other connections
    write to and that contends: the pools and transactions the methods of
    [crates/rustmail-storage/src/repo.rs] use, and its [retry_on_lock]. *)
From S2P Require Import Prelude RustStd StorageError Prepared Query Database.

(** What the retry loop reads from the clock: whether the deadline is still
    ahead, and the sub-second noise the jitter is made of. *)
Record tick := { in_time : bool; subsec_nanos : N }.

(** The database and its surroundings. A statement meets the next fault of the
    script, and just before a write takes its lock the other connections commit
    the next of the [rivals]. *)
Record World := {
  db : Tables;
  faults : list (option sqlx_error);
  rivals : list (Tables → Tables);
  clock : list tick;
  minted : nat;
  slept : list N;
}.
Abbreviation DB := (M World StorageError).

Definition set_db t w :=
  {| db := t; faults := faults w; rivals := rivals w; clock := clock w; minted := minted w; slept := slept w |}.
Definition set_faults f w :=
  {| db := db w; faults := f; rivals := rivals w; clock := clock w; minted := minted w; slept := slept w |}.
Definition set_rivals t r w :=
  {| db := t; faults := faults w; rivals := r; clock := clock w; minted := minted w; slept := slept w |}.
Definition set_clock c s w :=
  {| db := db w; faults := faults w; rivals := rivals w; clock := c; minted := minted w; slept := s |}.

(** Meets the next fault. *)
Definition roll : DB unit := λ w,
  let w' := set_faults (tail (faults w)) w in
  match faults w with
  | Some e :: _ => Some (Err (Database e), w')
  | _ => Some (Ok tt, w')
  end.
(** One statement: a fault or a refusal leaves the tables alone. *)
Definition apply_stmt {A} (s : stmt A) : DB A := λ w,
  match s (db w) with
  | Ok (a, t) => Some (Ok a, set_db t w)
  | Err e => Some (Err e, w)
  end.
Definition exec {A} (s : stmt A) : DB A := roll;; apply_stmt s.
Definition query {A} (f : Tables → A) : DB A := exec (λ t, Ok (f t, t)).

(** The other connections' commits up to the moment the write lock is ours. *)
Definition lock : DB unit := λ w,
  match rivals w with
  | r :: rs => Some (Ok tt, set_rivals (r (db w)) rs w)
  | [] => Some (Ok tt, w)
  end.

(** [begin], the body, [commit]; dropped before it committed, the transaction
    rolls back. *)
Definition or_rollback {A} (body : DB A) : DB A := λ w,
  match body w with
  | Some (Err e, w') => Some (Err e, set_db (db w) w')
  | r => r
  end.
Definition transaction {A} (body : DB A) : DB A :=
  roll;; lock;; or_rollback (a ← body; roll;; mret a).
(** A transaction whose body may return early: then it is dropped, uncommitted. *)
Definition commit_or_drop {A} (none : A) (body : DB (option A)) : DB A := λ w,
  match body w with
  | Some (Ok (Some a), w') => (roll;; mret a) w'
  | Some (Ok None, w') => Some (Ok none, set_db (db w) w')
  | Some (Err e, w') => Some (Err e, w')
  | None => None
  end.
Definition transaction_if {A} (none : A) (body : DB (option A)) : DB A :=
  roll;; lock;; or_rollback (commit_or_drop none body).
(** A statement that is a transaction of its own. *)
Definition autocommit {A} (s : stmt A) : DB A := lock;; exec s.

(** ** Retrying a contended write *)

Definition WRITE_ATTEMPTS : nat := 5.
(** Durations are in nanoseconds. *)
Definition WRITE_RETRY_BASE_DELAY : N := 20000000.
Definition U32_LIMIT : N := 4294967295.
(** [2_u32.saturating_pow(attempt)]. *)
Definition saturating_pow2 (attempt : nat) : N := N.min U32_LIMIT (2 ^ N.of_nat attempt).
Definition backoff (attempt : nat) : N := WRITE_RETRY_BASE_DELAY * saturating_pow2 attempt.
Definition jitter (nanos bound : N) : N := nanos mod N.max 1 bound.

Definition now : DB tick := λ w,
  let t := default {| in_time := true; subsec_nanos := 0 |} (head (clock w)) in
  Some (Ok t, set_clock (tail (clock w)) (slept w) w).
Definition sleep (nanos : N) : DB unit := modify (λ w, set_clock (clock w) (slept w ++ [nanos]) w).

Fixpoint retry_from {A} (fuel attempt : nat) (op : DB A) : DB A :=
  match fuel with
  | 0 => λ _, None
  | S fuel => λ w,
    match op w with
    | Some (Err e, w) =>
      if is_retryable_lock e && (attempt + 1 <? WRITE_ATTEMPTS) then
        (t ← now;
         if in_time t then
           sleep (backoff attempt + jitter (subsec_nanos t) (backoff attempt))%N;;
           retry_from fuel (attempt + 1) op
         else fail e) w
      else Some (Err e, w)
    | r => r
    end
  end.
(** The attempt limit stops the loop before the fuel does. *)
Definition retry_on_lock {A} (op : DB A) : DB A := retry_from WRITE_ATTEMPTS 0 op.

(** ** Atomicity *)

(** Nothing but the other connections' commits, and faults met on the way,
    separates the two. *)
Definition quiet (w w' : World) : Prop :=
  (∃ k, db w' = fold_left (λ t r, r t) (take k (rivals w)) (db w) ∧ rivals w' = drop k (rivals w)) ∧
  faults w' `suffix_of` faults w.
(** The statements of one transaction ran between the two. *)
Definition locked (w w' : World) : Prop := rivals w' = rivals w ∧ faults w' `suffix_of` faults w.
(** A fault of the database between the two is the error. *)
Definition blamed (e : StorageError) (w : World) : Prop := ∃ x, e = Database x ∧ Some x ∈ faults w.

#[export] Instance quiet_refl : Reflexive quiet.
Proof. intros w. split; [by exists 0|done]. Qed.
#[export] Instance quiet_trans : Transitive quiet.
Proof.
  intros w1 w2 w3 [(k1 & Hd1 & Hr1) Hf1] [(k2 & Hd2 & Hr2) Hf2]. split; [exists (k1 + k2); split|].
  - rewrite Hd2, Hd1, Hr1, <- fold_left_app. by rewrite <- take_take_drop.
  - by rewrite Hr2, Hr1, drop_drop.
  - by etrans.
Qed.
#[export] Instance locked_refl : Reflexive locked.
Proof. done. Qed.
#[export] Instance locked_trans : Transitive locked.
Proof. intros w1 w2 w3 [Hr1 Hf1] [Hr2 Hf2]. split; [congruence|by etrans]. Qed.
Lemma quiet_same w w' : db w' = db w → locked w w' → quiet w w'.
Proof. intros ? [? ?]. split; [by exists 0|done]. Qed.
Lemma blamed_suffix e w w' : faults w' `suffix_of` faults w → blamed e w' → blamed e w.
Proof. intros [k Hk] (x & -> & Hx). exists x. split; [done|]. rewrite Hk. apply elem_of_app. by right. Qed.
Lemma blamed_locked e w w' : locked w w' → blamed e w' → blamed e w.
Proof. intros [_ ?]. by apply blamed_suffix. Qed.
Lemma blamed_quiet e w w' : quiet w w' → blamed e w' → blamed e w.
Proof. intros [_ ?]. by apply blamed_suffix. Qed.
#[export] Hint Resolve blamed_locked blamed_quiet quiet_same : rustmail.

Abbreviation effect A := (A → Tables → Tables → Prop).
Abbreviation refusal := (StorageError → Tables → Prop).

(** What an operation promises whatever fails: it answers, and either it did all
    of [R], on the tables as the other connections left them, or nothing, because
    the database failed or because of what [E] says of those tables. *)
Definition atomic_at {A} (op : DB A) (R : effect A) (E : refusal) (w : World) : Prop :=
  wp op (λ r w', ∃ w0, quiet w w0 ∧ locked w0 w' ∧
    match r with
    | Ok a => R a (db w0) (db w')
    | Err e => db w' = db w0 ∧ (blamed e w ∨ E e (db w0))
    end) w.
Definition atomic {A} (op : DB A) (R : effect A) (E : refusal) : Prop := ∀ w, atomic_at op R E w.

(** What the body of a transaction promises: the rivals are locked out. *)
Definition body_spec {A} (body : DB A) (R : effect A) (E : refusal) : Prop :=
  ∀ w, wp body (λ r w', locked w w' ∧
    match r with Ok a => R a (db w) (db w') | Err e => blamed e w ∨ E e (db w) end) w.

(** No refusal of its own. *)
Definition never : refusal := λ _ _, False.

Lemma roll_spec Q w :
  (∀ r w', db w' = db w → locked w w' →
    match r with Ok _ => True | Err e => blamed e w end → Q r w') → wp roll Q w.
Proof.
  intros HQ. unfold wp, roll. destruct (faults w) as [|[e|] fs] eqn:Hf; eexists _, _; (split; [done|]);
    (apply HQ; [done|split; [done|]; simpl; rewrite Hf|]); try done; try (by apply suffix_cons_r).
  exists e. split; [done|]. rewrite Hf. by left.
Qed.

Lemma exec_spec {A} (s : stmt A) w Q :
  (∀ r w', locked w w' →
    match r with
    | Ok a => s (db w) = Ok (a, db w')
    | Err e => db w' = db w ∧ (blamed e w ∨ s (db w) = Err e)
    end → Q r w') → wp (exec s) Q w.
Proof.
  intros HQ. unfold exec. apply wp_bind, roll_spec. intros [[]|e] w1 Hd Hl He; simpl in *.
  - unfold wp, apply_stmt. rewrite Hd. destruct (s (db w)) as [[a t]|e] eqn:Hs;
      eexists _, _; (split; [done|]); apply HQ; simpl; auto.
  - apply HQ; auto.
Qed.

Lemma body_exec_eq {A} (s : stmt A) :
  body_spec (exec s) (λ a t t', s t = Ok (a, t')) (λ e t, s t = Err e).
Proof. intros w. apply exec_spec. intros [a|e] w' Hl Hs; split; naive_solver. Qed.
Lemma body_bind {A B} (c : DB A) (k : A → DB B) R1 R2 E1 E2 :
  body_spec c R1 E1 → (∀ a, body_spec (k a) (R2 a) (E2 a)) →
  body_spec (c ≫= k) (λ b t t', ∃ a t1, R1 a t t1 ∧ R2 a b t1 t')
    (λ e t, E1 e t ∨ ∃ a t1, R1 a t t1 ∧ E2 a e t1).
Proof.
  intros Hc Hk w. apply wp_bind. eapply wp_mono; [apply Hc|].
  intros [a|e] w1 [Hl1 HR1]; [|split; [done|]; destruct HR1; auto].
  eapply wp_mono; [apply (Hk a)|]. intros [b|e] w2 [Hl2 HR2];
    (split; [by apply (locked_trans w w1 w2)|]); [by eauto|].
  destruct HR2 as [Hb|HE]; [left; by eapply blamed_locked|eauto 6].
Qed.
(** Parts that refuse for the same reasons, whatever the tables. *)
Lemma body_seq {A B} (P : StorageError → Prop) (c : DB A) (k : A → DB B) R1 R2 :
  body_spec c R1 (λ e _, P e) → (∀ a, body_spec (k a) (R2 a) (λ e _, P e)) →
  body_spec (c ≫= k) (λ b t t', ∃ a t1, R1 a t t1 ∧ R2 a b t1 t') (λ e _, P e).
Proof.
  intros Hc Hk w. eapply wp_mono; [exact (body_bind c k R1 R2 _ _ Hc Hk w)|].
  intros [b|e] w' [Hl HR]; (split; [done|]); [done|]. destruct HR as [|[|(a & t1 & _ & ?)]]; auto.
Qed.
Lemma body_exec {A} (P : StorageError → Prop) (s : stmt A) :
  (∀ t e, s t = Err e → P e) → body_spec (exec s) (λ a t t', s t = Ok (a, t')) (λ e _, P e).
Proof.
  intros HP w. eapply wp_mono; [apply body_exec_eq|]. intros [a|e] w' [Hl HR]; (split; [done|]); [done|].
  destruct HR; eauto.
Qed.
Lemma body_ret {A} (a : A) E : body_spec (mret a) (λ b t t', b = a ∧ t' = t) E.
Proof. intros w. by apply wp_ret. Qed.
Lemma body_fail {A} e : body_spec (fail e : DB A) (λ _ _ _, False) (λ e' _, e' = e).
Proof. intros w. eexists _, _. split; [done|]. split; [done|]. by right. Qed.
Lemma body_weaken {A} (c : DB A) (R R' : effect A) (E E' : refusal) :
  body_spec c R E → (∀ a t t', R a t t' → R' a t t') → (∀ e t, E e t → E' e t) → body_spec c R' E'.
Proof.
  intros Hc HR HE w. eapply wp_mono; [apply Hc|]. intros [a|e] w' [Hr Hq]; split; naive_solver.
Qed.
Lemma body_effect {A} (c : DB A) (R R' : effect A) (E : refusal) :
  body_spec c R E → (∀ a t t', R a t t' → R' a t t') → body_spec c R' E.
Proof. intros. by eapply body_weaken. Qed.

Lemma lock_spec w Q : (∀ w', quiet w w' → Q (Ok tt) w') → wp lock Q w.
Proof.
  intros HQ. unfold wp, lock. destruct (rivals w) as [|r rs] eqn:Hr; eexists _, _; (split; [done|]); apply HQ.
  - reflexivity.
  - split; [exists 1; by rewrite Hr|done].
Qed.

(** What follows the start of a transaction starts from where the rivals left. *)
Lemma begin_spec {A} (body : DB A) (R : effect A) E w :
  (∀ w', quiet w w' → wp body (λ r w2, locked w' w2 ∧
    match r with
    | Ok a => R a (db w') (db w2)
    | Err e => db w2 = db w' ∧ (blamed e w' ∨ E e (db w'))
    end) w') →
  atomic_at (roll;; lock;; body) R E w.
Proof.
  intros Hb. apply wp_bind, roll_spec. intros [[]|e] w1 Hd Hl He.
  2: { exists w. by split_and!; [..|left]. }
  apply wp_bind, lock_spec. intros w2 Hq2.
  assert (Hq : quiet w w2) by (transitivity w1; auto with rustmail).
  eapply wp_mono; [by apply Hb|]. intros [a|e] w3 [Hl3 HR]; exists w2; split_and!; try done.
  - apply HR.
  - destruct HR as [_ [|]]; [left; by eapply blamed_quiet|by right].
Qed.

Lemma transaction_atomic {A} (body : DB A) R E : body_spec body R E → atomic (transaction body) R E.
Proof.
  intros Hb w. apply begin_spec. intros w2 Hq. clear w Hq.
  destruct (Hb w2) as (r & w3 & Hrun & Hl3 & HR). unfold wp, or_rollback, mbind, M_mbind. rewrite Hrun.
  destruct r as [a|e]; [|by eexists _, _].
  destruct (roll_spec (λ r w', db w' = db w3 ∧ locked w3 w' ∧
    match r with Ok _ => True | Err e => blamed e w3 end) w3) as (r & w4 & -> & Hd4 & Hl4 & He4); [by auto|].
  destruct r as [[]|e]; eexists _, _; (split; [done|]); simpl.
  - split; [by etrans|]. by rewrite Hd4.
  - split; [by apply (locked_trans w2 w3 w4)|]. split; [done|]. left. by eapply blamed_locked.
Qed.

Lemma transaction_if_atomic {A} (none : A) (body : DB (option A)) R E :
  body_spec body R E →
  atomic (transaction_if none body) (λ a t t',
    R (Some a) t t' ∨ (a = none ∧ t' = t ∧ ∃ t1, R None t t1)) E.
Proof.
  intros Hb w. apply begin_spec. intros w2 Hq. clear w Hq.
  destruct (Hb w2) as (r & w3 & Hrun & Hl3 & HR). unfold wp, or_rollback, commit_or_drop. rewrite Hrun.
  destruct r as [[a|]|e]; [| |by eexists _, _].
  - destruct (roll_spec (λ r w', db w' = db w3 ∧ locked w3 w' ∧
      match r with Ok _ => True | Err e => blamed e w3 end) w3) as (r & w4 & Hroll & Hd4 & Hl4 & He4); [by auto|].
    unfold mbind, M_mbind. rewrite Hroll.
    destruct r as [[]|e]; eexists _, _; (split; [done|]); simpl.
    + split; [by etrans|]. left. by rewrite Hd4.
    + split; [by apply (locked_trans w2 w3 w4)|]. split; [done|]. left. by eapply blamed_locked.
  - eexists _, _. split; [done|]. simpl. split; [done|]. right. eauto.
Qed.

Lemma autocommit_atomic {A} (s : stmt A) :
  atomic (autocommit s) (λ a t t', s t = Ok (a, t')) (λ e t, s t = Err e).
Proof.
  intros w. unfold autocommit. apply wp_bind, lock_spec. intros w1 Hq.
  apply exec_spec. intros [a|e] w2 Hl Hs; exists w1; split_and!; try done; [apply Hs|].
  destruct Hs as [_ [|]]; [left; by eapply blamed_quiet|by right].
Qed.

(** A read in front changes nothing; its answer may decide against the write. *)
Lemma atomic_after_query {A B} (f : Tables → A) (k : A → DB B) R E :
  (∀ w, atomic_at (k (f (db w))) R E w) → atomic (query f ≫= k) R E.
Proof.
  intros Hk w. unfold query. apply wp_bind, exec_spec. intros [a|e] w1 Hl Hs.
  - injection Hs as <- Hd. rewrite Hd.
    assert (Hq1 : quiet w w1) by (by apply quiet_same).
    eapply wp_mono; [apply Hk|]. intros r w2 (w0 & Hq & Hl2 & Hw). exists w0.
    split_and!; [by etrans|done|]. destruct r as [b|e]; [done|]. destruct Hw as [? [|]]; split; auto.
    left. by eapply blamed_quiet.
  - destruct Hs as [Hd Hs]. exists w1. split_and!; try done; [by apply quiet_same|].
    left. by destruct Hs as [|?].
Qed.
Lemma atomic_ret {A} (a : A) (R : effect A) E w : R a (db w) (db w) → atomic_at (mret a) R E w.
Proof. intros HR. apply wp_ret. by exists w. Qed.

Lemma atomic_weaken {A} (op : DB A) (R R' : effect A) (E E' : refusal) w :
  atomic_at op R E w → (∀ a t t', R a t t' → R' a t t') → (∀ e t, E e t → E' e t) → atomic_at op R' E' w.
Proof.
  intros Ho HR HE. eapply wp_mono; [apply Ho|]. intros [a|e] w' (w0 & Hq & Hr & Hw);
    exists w0; split_and!; naive_solver.
Qed.

(** *** The retry loop keeps what one attempt promises *)

Lemma now_spec Q w : (∀ t w', db w' = db w → locked w w' → Q (Ok t) w') → wp now Q w.
Proof. intros HQ. unfold wp, now. eexists _, _. split; [done|]. by apply HQ. Qed.

Lemma retry_atomic {A} fuel attempt (op : DB A) R E :
  WRITE_ATTEMPTS ≤ fuel + attempt → 0 < fuel → atomic op R E → atomic (retry_from fuel attempt op) R E.
Proof.
  intros Hf Hpos Ho. revert attempt Hf. induction fuel as [|fuel IH]; intros attempt Hf w; [lia|].
  unfold atomic_at, wp. cbn [retry_from]. destruct (Ho w) as (r & w1 & Hrun & Hw1). rewrite Hrun.
  destruct r as [a|e]; [by eexists _, _|].
  destruct (is_retryable_lock e); simpl; [|by eexists _, _].
  destruct (Nat.ltb_spec (attempt + 1) WRITE_ATTEMPTS) as [Hlt|]; [|by eexists _, _].
  destruct Hw1 as (w0 & Hq & Hl & Hd & HE).
  assert (Hq1 : quiet w w1) by (transitivity w0; [done|by apply quiet_same]).
  apply wp_bind, now_spec. intros t w2 Hd2 Hl2.
  assert (Hq2 : quiet w w2) by (transitivity w1; [done|by apply quiet_same]).
  destruct (in_time t).
  - apply wp_modify. eapply wp_mono; [apply IH; lia|]. intros r w3 (w4 & Hq4 & Hl4 & Hw4).
    assert (Hq24 : quiet w2 w4) by apply Hq4. exists w4. split_and!; [by etrans|done|].
    destruct r as [a|e']; [done|]. destruct Hw4 as [? [Hb|]]; split; auto. left.
    by apply (blamed_quiet _ _ _ Hq2).
  - eexists _, _. split; [done|]. exists w2. split_and!; [done|done|done|]. rewrite Hd2, Hd. auto.
Qed.
Lemma retry_on_lock_atomic {A} (op : DB A) R E : atomic op R E → atomic (retry_on_lock op) R E.
Proof. intros Ho. apply retry_atomic; [done|unfold WRITE_ATTEMPTS; lia|done]. Qed.
