(* ===== verification/Repo.v ===== *)
(** The message repository: [MessageRepository] of
    [crates/rustmail-storage/src/repo.rs]. Each method runs its statements in
    the order of the source, on the writer or the readers, inside the transaction
    and the retry loop the source puts around them. *)
From S2P Require Import Prelude RustStd StorageError Content MailParser Locator Prepared Query Database Store.

(** FTS5's [MATCH] of a query with an indexed row, and SQLite's [LIKE] of a
    pattern with a text, its escape character being the backslash. *)
Class Sqlite := {
  fts_match : bytes → FtsRow → bool;
  like : bytes → bytes → bool;
}.
(** The [n]th ULID minted and the clock reading formatted then, Rust's Unicode
    tables ([char::is_alphanumeric] beyond ASCII and [str::to_lowercase]). *)
Class Platform := {
  ulid : nat → bytes;
  timestamp : nat → bytes;
  alphanumeric : bytes → bool;
  to_lowercase : bytes → bytes;
}.

(** [LIKE] as SQLite documents it, its escape character the backslash: [%] stands
    for any text, an escaped character for itself, and letters of ASCII match in
    either case. *)
Definition like_special : list ascii := ["%"; "_"; "\"]%char.
Class LikeLaws `{Sqlite} : Prop := {
  like_empty s : like [] s = beqb s [];
  like_percent p s : like ("%"%char :: p) s = true ↔ ∃ a b, s = a ++ b ∧ like p b = true;
  like_escaped c p s :
    like ("\"%char :: c :: p) s =
      match s with d :: s => Ascii.eqb (to_lower c) (to_lower d) && like p s | [] => false end;
  like_plain c p s : c ∉ like_special →
    like (c :: p) s =
      match s with d :: s => Ascii.eqb (to_lower c) (to_lower d) && like p s | [] => false end;
}.
(** [str::to_lowercase] of ASCII text. *)
Class LowercaseLaw `{Platform} : Prop :=
  lowercase_ascii s : forallb is_ascii s = true → to_lowercase s = to_ascii_lowercase s.

Definition FTS_ROWS_PER_STATEMENT : nat := 1000.

(** [slice::chunks]. *)
Fixpoint chunks {A} (fuel n : nat) (l : list A) : list (list A) :=
  match fuel, l with
  | S fuel, _ :: _ => take n l :: chunks fuel n (drop n l)
  | _, _ => []
  end.

(** Byte order, which is how SQLite compares text. *)
Fixpoint bytes_ltb (a b : bytes) : bool :=
  match a, b with
  | _, [] => false
  | [], _ :: _ => true
  | x :: a, y :: b =>
    (byte_val x <? byte_val y)%N || ((byte_val x =? byte_val y)%N && bytes_ltb a b)
  end.

Section repo.
Context `{Json, Zstd, MailParser, Sqlite, Platform}.

Definition mint : DB bytes := λ w,
  Some (Ok (ulid (minted w)),
        {| db := db w; faults := faults w; rivals := rivals w; clock := clock w;
           minted := S (minted w); slept := slept w |}).
Definition stamp : DB bytes := gets (λ w, timestamp (minted w)).

Fixpoint for_each {A} (f : A → DB unit) (l : list A) : DB unit :=
  match l with [] => mret tt | x :: l => f x;; for_each f l end.

(** ** Inserting *)

Definition attachment_record (a_id : bytes) (s : Z) (a : PreparedAttachment) : AttachmentRecord :=
  let locator := match storage a with Located l => Some l | Inline _ => None end in
  {| a_id := a_id; message_seq := s; a_filename := filename a; a_content_type := content_type a;
     a_content_id := content_id a; a_size := Some (Z.of_nat (att_size a));
     raw_offset := (λ l, Z.of_nat (offset l)) <$> locator;
     raw_len := (λ l, Z.of_nat (len l)) <$> locator;
     transfer_encoding := (λ l, code (loc_encoding l)) <$> locator;
     a_content := match storage a with Inline c => Some c | Located _ => None end |}.

(** The row of a message, its [seq] still to be given. *)
Definition message_record (id now : bytes) (p : PreparedMessage) : MessageRecord :=
  {| seq := 0; id := id; m_sender := p_sender p; m_recipients := recipients_json p;
     m_subject := p_subject p; m_size := Z.of_nat (size p); m_has_attachments := has_attachments p;
     is_read := false; is_starred := false; tags := b#"[]"; created_at := now |}.

Definition insert_rows_in (p : PreparedMessage) : DB (Z * MessageSummary) :=
  now ← stamp;
  id ← mint;
  s ← exec (insert_message (message_record id now p));
  exec (insert_content s (compressed_raw p));;
  for_each (λ a, a_id ← mint; exec (insert_attachment (attachment_record a_id s a)))
    (Prepared.attachments p);;
  mret (s, summary (message_record id now p)).

Definition fts_row (p : PreparedMessage) : FtsRow :=
  {| f_subject := p_subject p; f_text_body := text_body p; f_sender := p_sender p;
     f_recipients := recipients_json p |}.
Definition index_in (rows : list (Z * PreparedMessage)) : DB unit :=
  exec (insert_fts (map (λ '(s, p), (s, fts_row p)) rows)).

Fixpoint insert_each (ps : list PreparedMessage) : DB (list (Z * MessageSummary)) :=
  match ps with
  | [] => mret []
  | p :: ps => x ← insert_rows_in p; xs ← insert_each ps; mret (x :: xs)
  end.
Definition insert_all_in (ps : list PreparedMessage) : DB (list MessageSummary) :=
  xs ← insert_each ps;
  let indexed := zip (map fst xs) ps in
  for_each index_in (chunks (length indexed) FTS_ROWS_PER_STATEMENT indexed);;
  mret (map snd xs).

Definition insert_batch_once (ps : list PreparedMessage) : DB (list MessageSummary) :=
  transaction (insert_all_in ps).
Definition insert_batch (ps : list PreparedMessage) : DB (list MessageSummary) :=
  retry_on_lock (insert_batch_once ps).
(** [remove(0)] of the one summary. *)
Definition insert_prepared (p : PreparedMessage) : DB (option MessageSummary) :=
  retry_on_lock (xs ← transaction (insert_all_in [p]); mret (head xs)).
Definition insert (sender : bytes) (recipients : list bytes) (raw : bytes) : DB (option MessageSummary) :=
  match parse sender recipients raw with
  | Ok p => insert_prepared p
  | Err e => fail e
  end.

(** ** Listing, searching and counting *)

Definition list_page (f : MessageFilter) (start : PageStart) (limit : Z) : DB (list MessageSummary) :=
  query (λ t, map summary (page start limit (List.filter (passes f (message_tags t)) (messages t)))).
Definition list_messages (limit offset : Z) : DB (list MessageSummary) :=
  list_page no_filter (Offset offset) limit.

(** The characters a query keeps. *)
Definition fts_char (c : bytes) : bool :=
  match c with
  | [b] => is_ascii_alphanumeric b || existsb (Ascii.eqb b) [" "; "@"; "."; "-"; "+"; "_"]%char
  | _ => alphanumeric c
  end.
Definition sanitize_fts_query (q : bytes) : option bytes :=
  let sanitized := concat (List.filter fts_char (chars q)) in
  match trim sanitized with
  | [] => None
  | _ => Some ("034"%char :: sanitized ++ ["034"%char])
  end.

(** Whether the index has a row for a message and the query matches it. *)
Definition matches (quoted : bytes) (fts : gmap Z FtsRow) (m : MessageRecord) : bool :=
  match fts !! seq m with Some r => fts_match quoted r | None => false end.

Definition search_page (q : bytes) (f : MessageFilter) (start : PageStart) (limit : Z)
    : DB (list MessageSummary) :=
  match sanitize_fts_query q with
  | None => mret []
  | Some quoted =>
    query (λ t, map summary (page start limit
      (List.filter (λ m, matches quoted (messages_fts t) m && passes f (message_tags t) m) (messages t))))
  end.
Definition search (q : bytes) (limit offset : Z) : DB (list MessageSummary) :=
  search_page q no_filter (Offset offset) limit.

Definition cursor (i : bytes) : DB Z :=
  row ← query (λ t, head (map seq (List.filter (λ m, beqb (id m) i) (messages t))));
  match row with Some s => mret s | None => fail (NotFound i) end.

Definition search_count (q : bytes) : DB Z :=
  match sanitize_fts_query q with
  | None => mret 0%Z
  | Some quoted =>
    query (λ t, Z.of_nat (base.size (filter (λ kv, fts_match quoted kv.2 = true) (messages_fts t))))
  end.
Definition search_count_filtered (q : bytes) (f : MessageFilter) : DB Z :=
  if filter_is_empty f then search_count q
  else match sanitize_fts_query q with
       | None => mret 0%Z
       | Some quoted =>
         query (λ t, Z.of_nat (length
           (List.filter (λ m, matches quoted (messages_fts t) m && passes f (message_tags t) m) (messages t))))
       end.

Definition count : DB Z := query (λ t, Z.of_nat (length (messages t))).
Definition count_filtered (f : MessageFilter) : DB Z :=
  if filter_is_empty f then count
  else query (λ t, Z.of_nat (length (List.filter (passes f (message_tags t)) (messages t)))).

(** [replace(c, "\c")]. *)
Definition escape_char (c : ascii) (s : bytes) : bytes :=
  flat_map (λ x, if Ascii.eqb x c then ["\"%char; x] else [x]) s.
Definition escape_like (s : bytes) : bytes :=
  escape_char "_" (escape_char "%" (escape_char "\" s)).
Definition like_pattern (needle : bytes) : bytes :=
  ("%" :: escape_like (to_lowercase needle) ++ ["%"])%char.
(** [LOWER(column) LIKE pattern]; [LOWER] folds ASCII, and a [NULL] is no match. *)
Definition column_matches (column : option bytes) (needle : option bytes) : bool :=
  match needle with
  | None => true
  | Some n => match column with
              | Some c => like (like_pattern n) (to_ascii_lowercase c)
              | None => false
              end
  end.
Definition count_matching (subject sender recipient : option bytes) : DB Z :=
  query (λ t, Z.of_nat (length (List.filter (λ m,
    column_matches (m_subject m) subject && column_matches (Some (m_sender m)) sender &&
    column_matches (Some (m_recipients m)) recipient) (messages t)))).

(** ** Reading one message *)

Record Message := { msg : MessageSummary; m_text_body : option bytes; m_html_body : option bytes }.
(** [MessageRow::into_message]. *)
Definition into_message (m : MessageRecord) (raw : bytes) : result StorageError Message :=
  source ← decompress raw (m_size m) (id m);
  mret {| msg := summary m; m_text_body := text (bodies_parse source);
          m_html_body := html (bodies_parse source) |}.

(** [messages JOIN message_content], the row of an [id]. *)
Definition content_row (i : bytes) (t : Tables) : option (MessageRecord * bytes) :=
  head (omap (λ m, raw ← message_content t !! seq m; Some (m, raw))
          (List.filter (λ m, beqb (id m) i) (messages t))).
Definition lift {A} (r : result StorageError A) : DB A :=
  match r with Ok a => mret a | Err e => fail e end.

Definition get (i : bytes) : DB Message :=
  row ← query (content_row i);
  match row with
  | Some (m, raw) => lift (into_message m raw)
  | None => fail (NotFound i)
  end.
Definition get_raw (i : bytes) : DB bytes :=
  row ← query (content_row i);
  match row with
  | Some (m, frame) => lift (decompress frame (m_size m) i)
  | None => fail (NotFound i)
  end.
Definition get_raw_prefix (i : bytes) (max_bytes : Z) : DB bytes :=
  row ← query (content_row i);
  match row with
  | Some (_, frame) => lift (decompress_prefix frame (Z.to_nat (Z.max 0 max_bytes)) i)
  | None => fail (NotFound i)
  end.

(** ** Attachments *)

Record AttachmentSummary := {
  as_id : bytes; as_message_id : bytes; as_filename : option bytes; as_content_type : option bytes;
  as_content_id : option bytes; as_size : option Z;
}.
Record Attachment := { att : AttachmentSummary; att_content : bytes }.
Definition attachment_summary (message_id : bytes) (a : AttachmentRecord) : AttachmentSummary :=
  {| as_id := a_id a; as_message_id := message_id; as_filename := a_filename a;
     as_content_type := a_content_type a; as_content_id := a_content_id a; as_size := a_size a |}.

(** A row with the source of its message, which only a located one loads. *)
Record AttachmentRow := {
  row : AttachmentRecord;
  row_message_id : bytes;
  raw_size : Z;
  row_compressed_raw : option bytes;
}.

(** [raw.get(offset..offset.checked_add(len)?)] of the stored integers. *)
Definition located_body (raw : bytes) (o l : option Z) : option bytes :=
  match o, l with
  | Some o, Some l =>
    if (0 <=? o)%Z && (0 <=? l)%Z && (o + l <=? U64_MAX)%Z
    then get_range (Z.to_nat o) (Z.to_nat (o + l)) raw else None
  | _, _ => None
  end.

(** [AttachmentRow::into_attachment]. *)
Definition into_attachment (r : AttachmentRow) : result StorageError Attachment :=
  raw ← match row_compressed_raw r with
        | Some frame => result_map Some (decompress frame (raw_size r) (row_message_id r))
        | None => Ok None
        end;
  let a := row r in
  let content : result (option Z) bytes :=
    match a_content a, raw with
    | Some c, None => Ok c
    | None, Some raw =>
      let decoded :=
        e ← transfer_encoding a ≫= from_code;
        b ← located_body raw (raw_offset a) (raw_len a);
        decode_body e b in
      match decoded with
      | Some d =>
        if bool_decide (a_size a = Some (Z.of_nat (length d))) then Ok d
        else Err (Some (Z.of_nat (length d)))
      | None => Err None
      end
    | _, _ => Err None
    end in
  match content with
  | Ok c => Ok {| att := attachment_summary (row_message_id r) a; att_content := c |}
  | Err actual => Err (AttachmentCorrupt (row_message_id r) (a_id a) (transfer_encoding a) (a_size a) actual)
  end.

(** The rows of a message's attachments that satisfy a condition, in order, as
    [ATTACHMENT_ROW_COLUMNS] selects them. *)
Definition attachment_rows (message_id : bytes) (p : AttachmentRecord → bool) (t : Tables)
    : list AttachmentRow :=
  omap (λ a,
    if p a then
      m ← head (List.filter (λ m, beqb (id m) message_id && (seq m =? message_seq a)%Z) (messages t));
      frame ← message_content t !! seq m;
      Some {| row := a; row_message_id := id m; raw_size := m_size m;
              row_compressed_raw := match raw_offset a with None => None | Some _ => Some frame end |}
    else None) (Database.attachments t).

Definition get_attachments (message_id : bytes) : DB (list AttachmentSummary) :=
  query (λ t, omap (λ a,
    m ← head (List.filter (λ m, beqb (id m) message_id && (seq m =? message_seq a)%Z) (messages t));
    Some (attachment_summary (id m) a)) (Database.attachments t)).
Definition get_attachment (message_id attachment_id : bytes) : DB Attachment :=
  rows ← query (attachment_rows message_id (λ a, beqb (a_id a) attachment_id));
  match rows with r :: _ => lift (into_attachment r) | [] => fail (NotFound attachment_id) end.
Definition get_attachment_by_content_id (message_id cid : bytes) : DB Attachment :=
  rows ← query (attachment_rows message_id (λ a, bool_decide (a_content_id a = Some cid)));
  match rows with r :: _ => lift (into_attachment r) | [] => fail (NotFound cid) end.

(** ** Updating and deleting *)

Definition update_messages_op (i : bytes) (read starred : option bool) (tags : option (list bytes)) : DB nat :=
  retry_on_lock (autocommit (update_messages i (updated read starred (json_to_string <$> tags)))).
Definition update_message (i : bytes) (read starred : option bool) (tags : option (list bytes)) : DB unit :=
  n ← update_messages_op i read starred tags;
  if n =? 0 then fail (NotFound i) else mret tt.

Definition has_id (i : bytes) (m : MessageRecord) : bool := beqb (id m) i.
Definition delete (i : bytes) : DB unit :=
  transaction (
    exec (delete_fts (seqs_where (has_id i)));;
    ids ← exec (delete_messages (has_id i));
    match ids with [] => fail (NotFound i) | _ => mret tt end).

Definition delete_all_once : DB nat :=
  transaction (
    exec clear_fts;; exec clear_content;; exec clear_attachments;; exec clear_tags;;
    ids ← exec (delete_messages (λ _, true));
    mret (length ids)).
Definition delete_all : DB nat := retry_on_lock delete_all_once.

Definition older_than (cutoff : bytes) (m : MessageRecord) : bool := bytes_ltb (created_at m) cutoff.
Definition delete_older_than_once (cutoff : bytes) : DB (list bytes) :=
  has_match ← query (λ t, existsb (older_than cutoff) (messages t));
  if has_match : bool then
    transaction (
      exec (delete_fts (seqs_where (older_than cutoff)));;
      exec (delete_messages (older_than cutoff)))
  else mret [].
Definition delete_older_than (cutoff : bytes) : DB (list bytes) :=
  retry_on_lock (delete_older_than_once cutoff).

(** The [seq] [max] rows below the newest. *)
Definition trim_threshold (max : Z) (t : Tables) : option Z :=
  head (map seq (sql_offset max (rev (messages t)))).
Definition trim_to_max_once (max : Z) : DB (list bytes) :=
  n ← query (λ t, Z.of_nat (length (messages t)));
  if (n <=? max)%Z then mret []
  else
    transaction_if [] (
      threshold ← query (trim_threshold max);
      match threshold with
      | None => mret None
      | Some th =>
        exec (delete_fts (λ t, filter (λ s, (s ≤ th)%Z) (dom (messages_fts t))));;
        ids ← exec (delete_messages (λ m, (seq m <=? th)%Z));
        mret (Some ids)
      end).
Definition trim_to_max (max : Z) : DB (list bytes) := retry_on_lock (trim_to_max_once max).
End repo.
