(* ===== verification/Tables.v ===== *)
(** What each statement of [Database] preserves: the invariants of the tables. *)
From S2P Require Import Prelude RustStd StorageError Prepared Query Database.

Lemma seqs_elem t s : s ∈ seqs t ↔ ∃ m, m ∈ messages t ∧ seq m = s.
Proof.
  unfold seqs. rewrite elem_of_list_to_set. rewrite list_elem_of_fmap. naive_solver.
Qed.
Lemma elem_of_filter_b {A} (p : A → bool) (l : list A) x : x ∈ List.filter p l ↔ x ∈ l ∧ p x = true.
Proof. rewrite !list_elem_of_In. apply filter_In. Qed.

Lemma ascending_inj rows m m' :
  ascending rows → m ∈ rows → m' ∈ rows → seq m = seq m' → m = m'.
Proof.
  intros Hr. induction Hr as [|x rows Hr IH Hx]; [set_solver|]. rewrite Forall_forall in Hx.
  intros [->|Hm]%elem_of_cons [->|Hm']%elem_of_cons He; [done| | |by apply IH].
  - specialize (Hx _ Hm'). lia.
  - specialize (Hx _ Hm). lia.
Qed.

(** The next number is past every number in use. *)
Lemma next_seq_above t m : ascending (messages t) → m ∈ messages t → (seq m < next_seq t)%Z.
Proof.
  unfold next_seq. intros Hasc Hm. destruct (messages t) as [|x l _] using rev_ind; [set_solver|].
  rewrite last_snoc. apply ascending_app in Hasc as (_ & _ & H).
  apply elem_of_app in Hm as [Hm|Hm].
  - specialize (H m x Hm). set_solver by lia.
  - apply list_elem_of_singleton in Hm as ->. lia.
Qed.
Lemma next_seq_fresh t : ascending (messages t) → next_seq t ∉ seqs t.
Proof.
  intros Hasc (m & Hm & He)%seqs_elem. assert (Hlt := next_seq_above t m Hasc Hm). lia.
Qed.

Section tables.
Context `{Json}.

(** ** Deleting *)

Section delete.
Context (p : MessageRecord → bool) (t t' : Tables) (ids : list bytes).
Context (Hwf : rows_wf t) (Hdel : delete_messages p t = Ok (ids, t')).

Lemma delete_messages_rows :
  messages t' = List.filter (λ m, negb (p m)) (messages t) ∧
  ids = map id (List.filter p (messages t)) ∧ messages_fts t' = messages_fts t.
Proof. unfold delete_messages in Hdel. by simplify_eq. Qed.

(** A key survives exactly when its row did. *)
Lemma delete_messages_seqs s : s ∈ seqs t' ↔ s ∈ seqs t ∧ s ∉ seqs_where p t.
Proof.
  destruct delete_messages_rows as (Hm & _ & _). rewrite !seqs_elem, Hm. unfold seqs_where.
  rewrite elem_of_list_to_set, list_elem_of_fmap. setoid_rewrite elem_of_filter_b. split.
  - intros (m & [Hin Hp] & <-). split; [by eauto|]. intros (m' & He & Hin' & Hp').
    assert (m = m') as <- by (eapply ascending_inj; [apply Hwf|done..]). by rewrite Hp' in Hp.
  - intros [(m & Hin & <-) Hn]. exists m. split_and!; [done| |done].
    destruct (p m) eqn:Hp; [|done]. destruct Hn. by exists m.
Qed.

Lemma delete_messages_wf : rows_wf t'.
Proof.
  assert (Hs := delete_messages_seqs). destruct delete_messages_rows as (Hm & _ & _).
  assert (Hsw : seqs_where p t = list_to_set (map seq (List.filter p (messages t)))) by done.
  unfold delete_messages in Hdel. injection Hdel as _ Ht'. destruct Hwf as [Hasc Hids Hcont Hatt Htags]. constructor.
  - rewrite Hm. by apply ascending_filter.
  - rewrite Hm. clear -Hids. induction (messages t) as [|m l IH]; simpl; [done|].
    apply NoDup_cons in Hids as [Hn Hd]. destruct (p m); simpl; [by apply IH|].
    apply NoDup_cons. split; [|by apply IH]. intros Hin. apply Hn.
    apply list_elem_of_fmap in Hin as (x & -> & Hx). apply elem_of_filter_b in Hx as [Hx _].
    apply list_elem_of_fmap. by exists x.
  - apply set_eq. intros s. rewrite Hs, <- Hcont. rewrite <- Ht'. simpl.
    rewrite !elem_of_dom. unfold is_Some. setoid_rewrite map_lookup_filter_Some. simpl.
    rewrite Hsw. naive_solver.
  - rewrite <- Ht'. simpl. apply Forall_forall. intros a [Ha Hg]%elem_of_filter_b.
    apply bool_decide_eq_true in Hg. rewrite Forall_forall in Hatt.
    destruct (Hatt a Ha) as [Hin Hok]. split; [|done].
    rewrite Ht'. by apply Hs.
  - intros tag s. rewrite <- Ht' at 1. simpl. rewrite elem_of_filter, Htags. simpl. rewrite Hm.
    rewrite <- Hsw. setoid_rewrite elem_of_filter_b. split.
    + intros [Hn (m & Hin & He & Htag)]. exists m. split_and!; [done| |done..].
      destruct (p m) eqn:Hp; [|done]. destruct Hn. subst s. unfold seqs_where.
      apply elem_of_list_to_set, list_elem_of_fmap. exists m. split; [done|]. by apply elem_of_filter_b.
    + intros (m & [Hin Hp] & He & Htag). split; [|by exists m]. subst s.
      assert (seq m ∈ seqs t') as [_ Hn]%Hs; [|done]. apply seqs_elem. exists m. split; [|done].
      rewrite Hm. by apply elem_of_filter_b.
Qed.
End delete.

(** ** Inserting *)

Lemma insert_row_wf t t' m raw ats :
  rows_wf t → id m ∉ map id (messages t) → json_each (tags m) = [] →
  messages t' = messages t ++ [with_seq (next_seq t) m] →
  message_content t' = <[next_seq t := raw]> (message_content t) →
  Database.attachments t' = Database.attachments t ++ ats →
  Forall (λ a, message_seq a = next_seq t ∧ attachment_ok a) ats →
  message_tags t' = message_tags t → rows_wf t'.
Proof.
  intros [Hasc Hids Hcont Hatt Htags] Hid Hj Hm Hc Ha Hok Ht.
  assert (Hs : ∀ s, s ∈ seqs t' ↔ s ∈ seqs t ∨ s = next_seq t).
  { intros s. rewrite !seqs_elem, Hm. setoid_rewrite elem_of_app. setoid_rewrite list_elem_of_singleton.
    split; [intros (x & [?| ->] & <-); eauto|]. intros [(x & ? & <-)| ->]; [eauto|].
    exists (with_seq (next_seq t) m). split; [by right|done]. }
  constructor.
  - rewrite Hm. apply ascending_app. split_and!; [done|by repeat constructor|].
    intros x y Hx ->%list_elem_of_singleton. by apply next_seq_above.
  - rewrite Hm, map_app. apply NoDup_app. split_and!; [done| |apply NoDup_singleton].
    intros x Hx. simpl. intros ->%list_elem_of_singleton. by apply Hid.
  - apply set_eq. intros s. rewrite Hc, dom_insert, elem_of_union, elem_of_singleton, Hcont, Hs.
    naive_solver.
  - rewrite Ha. apply Forall_app. split.
    + eapply Forall_impl; [done|]. intros a [? ?]. split; [|done]. apply Hs. by left.
    + eapply Forall_impl; [done|]. intros a [-> ?]. split; [|done]. apply Hs. by right.
  - intros tag s. rewrite Ht, Htags, Hm. setoid_rewrite elem_of_app.
    setoid_rewrite list_elem_of_singleton. split; [intros (x & ? & ?); exists x; eauto|].
    intros (x & [?| ->] & Hx & Hin); [eauto|]. simpl in Hin. rewrite Hj in Hin. set_solver.
Qed.

(** ** Updating *)

Lemma retag_spec hit f l ts tag s :
  ascending l → (∀ m, seq (f m) = seq m) →
  (tag, s) ∈ fold_left (λ ts m, if hit m : bool then retagged m (f m) ts else ts) l ts ↔
  (∃ m, m ∈ l ∧ hit m = true ∧ seq m = s ∧ tags m ≠ tags (f m) ∧ tag ∈ json_each (tags (f m))) ∨
  ((tag, s) ∈ ts ∧ ¬ ∃ m, m ∈ l ∧ hit m = true ∧ seq m = s ∧ tags m ≠ tags (f m)).
Proof.
  intros Hl Hf. revert ts. induction Hl as [|x l Hl IH Hx]; intros ts; simpl; [set_solver|].
  rewrite Forall_forall in Hx. rewrite IH.
  assert (Hset : ∀ s' tg, (tag, s) ∈ tag_set s' tg ↔ s = s' ∧ tag ∈ json_each tg).
  { intros s' tg. unfold tag_set. rewrite elem_of_list_to_set, list_elem_of_fmap. naive_solver. }
  setoid_rewrite elem_of_cons.
  destruct (hit x) eqn:Hh; unfold retagged; [destruct (beqb (tags x) (tags (f x))) eqn:Hb|].
  - apply beqb_spec in Hb. naive_solver.
  - apply beqb_false in Hb. rewrite elem_of_union, elem_of_filter, Hset. simpl. split.
    + intros [(m & ? & ?)|[[[? ?]|[-> ?]] Hn]]; [left; naive_solver| |left; exists x; naive_solver].
      right. split; [done|]. naive_solver.
    + intros [(m & [->|Hm] & ? & <- & ? & ?)|[Hin Hn]].
      * right. split; [by right|]. intros (m' & Hm' & _ & He & _). specialize (Hx _ Hm'). lia.
      * left. naive_solver.
      * right. split; [left|naive_solver]. split; [|done]. intros ->. apply Hn. exists x. naive_solver.
  - split.
    + intros [(m & ? & ?)|[? Hn]]; [left; naive_solver|]. right. split; [done|].
      intros (m & [->|?] & Hm & ?); [by rewrite Hh in Hm|naive_solver].
    + intros [(m & [->|?] & Hm & ?)|[? Hn]]; [by rewrite Hh in Hm|left; naive_solver|].
      right. naive_solver.
Qed.

Lemma retagged_wf hit f t :
  rows_wf t → (∀ m, seq (f m) = seq m) → (∀ m, id (f m) = id m) →
  let t' :=
    {| messages := map (λ m, if hit m : bool then f m else m) (messages t);
       message_content := message_content t; messages_fts := messages_fts t;
       Database.attachments := Database.attachments t;
       message_tags := fold_left (λ ts m, if hit m then retagged m (f m) ts else ts)
                         (messages t) (message_tags t) |} in
  rows_wf t' ∧ seqs t' = seqs t.
Proof.
  intros [Hasc Hids Hcont Hatt Htags] Hfs Hfi.
  assert (Hseq : map seq (map (λ m, if hit m then f m else m) (messages t)) = map seq (messages t)).
  { rewrite map_map. apply map_ext. intros m. destruct (hit m); auto. }
  assert (Hid : map id (map (λ m, if hit m then f m else m) (messages t)) = map id (messages t)).
  { rewrite map_map. apply map_ext. intros m. destruct (hit m); auto. }
  assert (Hs : ∀ ms c ft a tgs, map seq ms = map seq (messages t) →
    seqs {| messages := ms; message_content := c; messages_fts := ft; Database.attachments := a;
            message_tags := tgs |} = seqs t) by (intros; unfold seqs; simpl; congruence).
  split; [|by apply Hs]. constructor; simpl.
  - unfold ascending. clear -Hasc Hfs. induction Hasc as [|m l Hl IH Hm]; simpl; constructor; [done|].
    apply Forall_map. eapply Forall_impl; [done|]. intros x Hx.
    simpl. destruct (hit m), (hit x); by rewrite ?Hfs.
  - rewrite <- Hid in Hids. exact Hids.
  - by rewrite Hs.
  - by rewrite Hs.
  - intros tag q. rewrite retag_spec, Htags by done. setoid_rewrite list_elem_of_fmap. split.
    + intros [(m & Hm & Hh & <- & Hne & Htag)|[(m & Hm & <- & Htag) Hn]].
      * exists (f m). split_and!; [|by auto|done]. exists m. by rewrite Hh.
      * exists (if hit m then f m else m). split_and!; [by eauto|destruct (hit m); auto|].
        destruct (hit m) eqn:Hh; [|done]. destruct (decide (tags m = tags (f m))) as [<-|]; [done|].
        destruct Hn. by exists m.
    + intros (m' & (m & -> & Hm) & <- & Htag). destruct (hit m) eqn:Hh; [rewrite Hfs|].
      * destruct (decide (tags m = tags (f m))) as [Heq|Hne]; [|left; by exists m].
        right. split; [exists m; rewrite Heq; done|]. intros (m2 & Hm2 & _ & He & Hne2).
        assert (m2 = m) as -> by (by eapply ascending_inj). done.
      * right. split; [by exists m|]. intros (m2 & Hm2 & Hh2 & He & _).
        assert (m2 = m) as -> by (by eapply ascending_inj). by rewrite Hh in Hh2.
Qed.
Lemma update_messages_wf i r s tg n t t' :
  rows_wf t → update_messages i (updated r s tg) t = Ok (n, t') →
  rows_wf t' ∧ seqs t' = seqs t ∧ messages_fts t' = messages_fts t.
Proof.
  intros Hwf Hup. unfold update_messages in Hup. injection Hup as _ <-.
  by destruct (retagged_wf (λ m, beqb (id m) i) (updated r s tg) t Hwf).
Qed.
End tables.
