(* ===== verification/RepoWrites.v ===== *)
(** What the writing methods of the repository promise: each is atomic, does what
    its abstract relation says and keeps the tables consistent. *)
From S2P Require Import Prelude RustStd StorageError Content MailParser Locator Prepared Query Database Store Repo Tables.

Section writes.
Context `{Json, Zstd, MailParser, Sqlite, Platform}.

(** ** Abstract relations: what a write does to the tables *)

(** One more message, last in order, with its content and attachments. *)
Definition row_stored (p : PreparedMessage) (x : Z * MessageSummary) (t t' : Tables) : Prop :=
  ∃ i now ats, let s := next_seq t in
    i ∉ map id (messages t) ∧ x = (s, summary (message_record i now p)) ∧
    messages t' = messages t ++ [with_seq s (message_record i now p)] ∧
    message_content t' = <[s := compressed_raw p]> (message_content t) ∧
    messages_fts t' = messages_fts t ∧
    Database.attachments t' = Database.attachments t ++ ats ∧
    Forall2 (λ a r, r = attachment_record (a_id r) s a ∧ attachment_ok r) (Prepared.attachments p) ats ∧
    message_tags t' = message_tags t.

(** The same for a list, one after the other. *)
Fixpoint rows_stored (ps : list PreparedMessage) (xs : list (Z * MessageSummary)) (t t' : Tables) : Prop :=
  match ps with
  | [] => xs = [] ∧ t' = t
  | p :: ps => ∃ x xs' t1, xs = x :: xs' ∧ row_stored p x t t1 ∧ rows_stored ps xs' t1 t'
  end.

(** A batch: the rows, and then an index row for each. *)
Definition batch_stored (ps : list PreparedMessage) (sums : list MessageSummary) (t t' : Tables) : Prop :=
  ∃ xs t1, rows_stored ps xs t t1 ∧ sums = map snd xs ∧
    messages t' = messages t1 ∧ message_content t' = message_content t1 ∧
    Database.attachments t' = Database.attachments t1 ∧ message_tags t' = message_tags t1 ∧
    fts_put (zip (map fst xs) (map fts_row ps)) (messages_fts t) = Some (messages_fts t').

Lemma attachment_okb_spec a : attachment_okb a = true → attachment_ok a.
Proof.
  unfold attachment_okb, attachment_ok.
  destruct (a_content a), (raw_offset a) as [o|]; try done; intros Hb; bools.
  destruct (raw_len a) as [l|]; [|done]. destruct (transfer_encoding a) as [c|]; [|done]. bools.
  split; [done|]. split_and!; [lia|exists l; split; [done|lia]|exists c; split; [done|lia]].
Qed.

Lemma body_mint E : body_spec mint (λ _ t t', t' = t) E.
Proof. intros w. by eexists _, _. Qed.
Lemma body_stamp E : body_spec stamp (λ _ t t', t' = t) E.
Proof. intros w. by eexists _, _. Qed.

(** A constraint is all that refuses an insert: an id taken, or a check. *)
Definition constrained (e : StorageError) : Prop := e = CONSTRAINT.
Lemma insert_constrained :
  (∀ m t e, insert_message m t = Err e → constrained e) ∧
  (∀ s raw t e, insert_content s raw t = Err e → constrained e) ∧
  (∀ a t e, insert_attachment a t = Err e → constrained e) ∧
  (∀ rows t e, insert_fts rows t = Err e → constrained e).
Proof.
  unfold constrained, insert_message, insert_content, insert_attachment, insert_fts.
  split_and!; intros; by case_match; simplify_eq.
Qed.

Lemma body_attachments s atts :
  body_spec (for_each (λ a, a_id ← mint; exec (insert_attachment (attachment_record a_id s a))) atts)
    (λ _ t t', ∃ ats,
      messages t' = messages t ∧ message_content t' = message_content t ∧
      messages_fts t' = messages_fts t ∧ message_tags t' = message_tags t ∧
      Database.attachments t' = Database.attachments t ++ ats ∧
      Forall2 (λ a r, r = attachment_record (a_id r) s a ∧ attachment_ok r) atts ats)
    (λ e _, constrained e).
Proof.
  induction atts as [|a atts IH]; cbn [for_each].
  - eapply body_effect; [apply body_ret|]. intros _ t t' [_ ->]. exists []. by rewrite app_nil_r.
  - eapply body_effect.
    { apply (body_seq constrained); [|intros u; exact IH].
      apply (body_seq constrained); [apply body_mint|]. intros i. apply body_exec, insert_constrained. }
    intros v t t' (u & t1 & (i & t0 & -> & Hi) & ats & Hm & Hc & Hf & Ht & Ha & Hall).
    unfold insert_attachment in Hi. destruct (_ && _) eqn:Hok; [|done]. simplify_eq/=. bools.
    exists (attachment_record i s a :: ats). split_and!; try done.
    + by rewrite Ha, <- app_assoc.
    + constructor; [|done]. split; [done|]. by apply attachment_okb_spec.
Qed.

Lemma insert_rows_in_spec p : body_spec (insert_rows_in p) (row_stored p) (λ e _, constrained e).
Proof.
  unfold insert_rows_in. eapply body_effect.
  { apply (body_seq constrained); [apply body_stamp|]. intros now.
    apply (body_seq constrained); [apply body_mint|]. intros i.
    apply (body_seq constrained); [apply body_exec, insert_constrained|]. intros s.
    apply (body_seq constrained); [apply body_exec, insert_constrained|]. intros u.
    apply (body_seq constrained); [apply body_attachments|]. intros u2. apply body_ret. }
  intros x t t' (now & ? & -> & i & ? & -> & s & t1 & G1 & u2 & t2 & G2 & u3 & t3 & G3 & -> & ->).
  destruct G3 as (ats & Hm & Hc & Hf & Ht & Ha & Hall).
  unfold insert_message in G1. destruct (existsb _ _) eqn:Hex; [done|]. simpl in G1. simplify_eq.
  unfold insert_content in G2. destruct (bool_decide _) eqn:Hbd; [|done]. simplify_eq/=.
  exists i, now, ats. split_and!; try done. intros Hin. apply list_elem_of_fmap in Hin as (m & -> & Hm').
  apply not_true_iff_false in Hex. apply Hex, existsb_exists. exists m.
  split; [by apply list_elem_of_In|apply beqb_refl].
Qed.

Lemma insert_each_spec ps : body_spec (insert_each ps) (rows_stored ps) (λ e _, constrained e).
Proof.
  induction ps as [|p ps IH]; cbn [insert_each rows_stored]; [apply body_ret|].
  eapply body_effect.
  { apply (body_seq constrained); [apply insert_rows_in_spec|]. intros x.
    apply (body_seq constrained); [apply IH|]. intros xs. apply body_ret. }
  intros xs t t' (x & t1 & Hx & xs' & t2 & Hxs & -> & ->). by exists x, xs', t1.
Qed.

Lemma fts_put_app a b fts : fts_put (a ++ b) fts = fts_put a fts ≫= fts_put b.
Proof.
  revert fts. induction a as [|[s r] a IH]; intros fts; simpl; [done|].
  destruct (fts !! s); simpl; [done|]. apply IH.
Qed.
Lemma concat_chunks {A} fuel n (l : list A) : 0 < n → length l ≤ fuel → concat (chunks fuel n l) = l.
Proof.
  intros Hn. revert l. induction fuel as [|fuel IH]; intros [|x l]; simpl; intros Hl; try done; [lia|].
  rewrite IH; [|rewrite length_drop; simpl; lia]. apply take_drop.
Qed.

Lemma index_chunks cs :
  body_spec (for_each index_in cs) (λ _ t t',
    messages t' = messages t ∧ message_content t' = message_content t ∧
    Database.attachments t' = Database.attachments t ∧ message_tags t' = message_tags t ∧
    fts_put (map (λ '(s, p), (s, fts_row p)) (concat cs)) (messages_fts t) = Some (messages_fts t'))
    (λ e _, constrained e).
Proof.
  induction cs as [|c cs IH]; cbn [for_each concat].
  - eapply body_effect; [apply body_ret|]. by intros _ t t' [_ ->].
  - eapply body_effect.
    { apply (body_seq constrained); [|intros u; exact IH]. apply body_exec, insert_constrained. }
    intros v t t' (u & t1 & G1 & Hm & Hc & Ha & Ht & Hf). unfold insert_fts in G1.
    destruct (fts_put _ _) as [fts|] eqn:Hput; [|done]. simplify_eq/=. split_and!; try done.
    rewrite map_app, fts_put_app, Hput. exact Hf.
Qed.

Lemma rows_stored_fts ps xs t t' : rows_stored ps xs t t' →
  messages_fts t' = messages_fts t ∧ length xs = length ps.
Proof.
  revert xs t. induction ps as [|p ps IH]; intros xs t; simpl; [by intros [-> ->]|].
  intros (x & xs' & t1 & -> & (i & now & ats & Hrow) & [Hf Hl]%IH). destruct Hrow as (_&_&_&_&Hf1&_).
  split; [congruence|simpl; lia].
Qed.

Lemma insert_all_in_spec ps : body_spec (insert_all_in ps) (batch_stored ps) (λ e _, constrained e).
Proof.
  unfold insert_all_in. eapply body_effect.
  { apply (body_seq constrained); [apply insert_each_spec|]. intros xs.
    apply (body_seq constrained); [apply index_chunks|]. intros u. apply body_ret. }
  intros sums t t' (xs & t1 & Hrows & u & t2 & (Hm & Hc & Ha & Ht & Hf) & -> & ->).
  destruct (rows_stored_fts _ _ _ _ Hrows) as [Hfts Hlen].
  exists xs, t1. split_and!; try done.
  rewrite concat_chunks in Hf by (unfold FTS_ROWS_PER_STATEMENT; lia). rewrite <- Hfts, <- Hf. f_equal.
  clear. revert xs. induction ps as [|p ps IH]; intros [|x xs]; simpl; [done..|]. by rewrite IH.
Qed.

Lemma insert_batch_atomic ps : atomic (insert_batch ps) (batch_stored ps) (λ e _, constrained e).
Proof. apply retry_on_lock_atomic, transaction_atomic, insert_all_in_spec. Qed.
Lemma insert_prepared_atomic p :
  atomic (insert_prepared p) (λ o t t', ∃ sums, o = head sums ∧ batch_stored [p] sums t t')
    (λ e _, constrained e).
Proof.
  apply retry_on_lock_atomic. intros w0. apply wp_bind.
  eapply wp_mono; [apply (transaction_atomic _ _ _ (insert_all_in_spec [p]))|].
  intros [sums|e] w1 Hw; [|done]. apply wp_ret. destruct Hw as (w2 & Hq & Hl & HR). exists w2.
  split_and!; [done|done|]. by exists sums.
Qed.

(** ** What the relations say *)

Lemma fts_put_spec rows fts fts' : fts_put rows fts = Some fts' →
  ∀ s r, fts' !! s = Some r ↔ fts !! s = Some r ∨ (s, r) ∈ rows.
Proof.
  revert fts. induction rows as [|[s0 r0] rows IH]; intros fts Hput s r; simpl in Hput.
  - simplify_eq. set_solver.
  - destruct (fts !! s0) eqn:Hs; [done|]. rewrite (IH _ Hput), elem_of_cons.
    rewrite lookup_insert_Some. split; [intros [[[-> ->]|[? ?]]|?]; auto|].
    intros [Hr|[Heq|?]]; [|simplify_eq; auto|auto]. left. right. split; [congruence|done].
Qed.
Lemma fts_put_dom rows fts fts' : fts_put rows fts = Some fts' →
  dom fts' = dom fts ∪ list_to_set (map fst rows).
Proof.
  intros Hput. apply set_eq. intros s.
  rewrite elem_of_union, elem_of_list_to_set, list_elem_of_fmap, !elem_of_dom. unfold is_Some.
  setoid_rewrite (fts_put_spec _ _ _ Hput). split.
  - intros (r & [?|?]); [left; eauto|right]. by exists (s, r).
  - intros [(r & ?)|([s' r] & -> & ?)]; eauto.
Qed.

Context `{!JsonLaws}.

Lemma json_each_empty : json_each b#"[]" = [].
Proof. rewrite <- json_empty. apply json_each_reads. Qed.

(** A stored message's row and its content. *)
Definition stored_as (p : PreparedMessage) (t : Tables) (m : MessageRecord) : Prop :=
  (∃ i now, m = with_seq (seq m) (message_record i now p)) ∧
  message_content t !! seq m = Some (compressed_raw p).

Lemma row_stored_wf p x t t' : rows_wf t → row_stored p x t t' →
  rows_wf t' ∧ next_seq t' = (next_seq t + 1)%Z ∧
  ∃ m, messages t' = messages t ++ [m] ∧ x = (seq m, summary m) ∧ seq m = next_seq t ∧
    stored_as p t' m ∧ (∀ s, s ≠ next_seq t → message_content t' !! s = message_content t !! s).
Proof.
  intros Hwf (i & now & ats & Hid & -> & Hm & Hc & Hf & Ha & Hall & Ht). split_and!.
  - eapply (insert_row_wf t t' (message_record i now p)); [exact Hwf| |exact json_each_empty|exact Hm|exact Hc|exact Ha| |exact Ht]; [done|].
    clear -Hall. induction Hall as [|a r l k [-> ?] _ IH]; constructor; auto.
  - unfold next_seq at 1. by rewrite Hm, last_snoc.
  - eexists. split_and!; [exact Hm|done|done| |].
    + split; [by eexists _, _|]. rewrite Hc. simpl. by rewrite lookup_insert_eq.
    + intros s Hs. rewrite Hc. by rewrite lookup_insert_ne.
Qed.

Lemma rows_stored_spec ps xs t t' : rows_wf t → rows_stored ps xs t t' →
  rows_wf t' ∧
  ∃ ms, messages t' = messages t ++ ms ∧ xs = map (λ m, (seq m, summary m)) ms ∧
    map seq ms = seqZ (next_seq t) (Z.of_nat (length ps)) ∧
    Forall2 (λ p m, stored_as p t' m) ps ms ∧
    (∀ s, (s < next_seq t)%Z → message_content t' !! s = message_content t !! s).
Proof.
  revert xs t. induction ps as [|p ps IH]; intros xs t Hwf; simpl.
  - intros [-> ->]. split; [done|]. exists []. rewrite app_nil_r. split_and!; (done || constructor).
  - intros (x & xs' & t1 & -> & Hrow & Hrest).
    destruct (row_stored_wf _ _ _ _ Hwf Hrow) as (Hwf1 & Hn & m & Hm & -> & Hsm & Hst & Hc).
    destruct (IH _ _ Hwf1 Hrest) as (Hwf' & ms & Hm' & -> & Hseq & Hall & Hc').
    split; [done|]. exists (m :: ms). split_and!.
    + by rewrite Hm', Hm, <- app_assoc.
    + done.
    + simpl. rewrite Hseq, Hsm, Hn, (seqZ_cons (next_seq t)) by lia. f_equal. f_equal; lia.
    + constructor; [|done]. destruct Hst as [? Hst]. split; [done|]. by rewrite Hc' by lia.
    + intros s Hs. rewrite Hc', Hc by lia. done.
Qed.

(** A batch extends a consistent store and leaves it consistent. *)
Lemma batch_stored_spec ps sums t t' : wf t → batch_stored ps sums t t' →
  wf t' ∧
  ∃ ms, messages t' = messages t ++ ms ∧ map summary ms = sums ∧
    map seq ms = seqZ (next_seq t) (Z.of_nat (length ps)) ∧
    Forall2 (λ p m, stored_as p t' m ∧ messages_fts t' !! seq m = Some (fts_row p)) ps ms ∧
    (∀ s, (s < next_seq t)%Z → message_content t' !! s = message_content t !! s).
Proof.
  intros [Hwf Hfts] (xs & t1 & Hrows & -> & Hm & Hc & Ha & Ht & Hput).
  destruct (rows_stored_spec _ _ _ _ Hwf Hrows) as (Hwf1 & ms & Hm1 & -> & Hseq & Hall & Hc1).
  assert (Hs : seqs t' = seqs t1) by (unfold seqs; by rewrite Hm).
  rewrite map_map in Hput. simpl in Hput.
  assert (Hlen : length ps = length ms) by (by eapply Forall2_length).
  split; [split|].
  - destruct Hwf1. constructor; by rewrite ?Hm, ?Hc, ?Ha, ?Ht, ?Hs.
  - rewrite (fts_put_dom _ _ _ Hput), Hfts, Hs. unfold seqs. rewrite Hm1, map_app, list_to_set_app_L.
    f_equal. f_equal. clear -Hlen. revert ms Hlen.
    induction ps as [|p ps IH]; intros [|m ms] Hlen; simplify_eq/=; [done|]. f_equal. by apply IH.
  - exists ms. rewrite Hm. split_and!; try done.
    + by rewrite map_map.
    + assert (Hidx : Forall2 (λ p m, messages_fts t' !! seq m = Some (fts_row p)) ps ms).
      { apply Forall2_same_length_lookup. split; [done|]. intros i p m Hp Hmi.
        apply (fts_put_spec _ _ _ Hput). right. apply list_elem_of_lookup. exists i.
        rewrite lookup_zip_with, !list_lookup_fmap, Hp, Hmi. done. }
      clear -Hall Hidx Hc. induction Hall as [|p m ps ms Hp _ IH]; inversion Hidx; subst; constructor; auto.
      split; [|done]. destruct Hp. split; [done|]. by rewrite Hc.
    + intros s Hsl. by rewrite Hc, Hc1.
Qed.

(** ** Deletes *)

(** The messages that satisfy [p] are gone, from every table. *)
Definition removed (p : MessageRecord → bool) (ids : list bytes) (t t' : Tables) : Prop :=
  messages t' = List.filter (λ m, negb (p m)) (messages t) ∧
  ids = map id (List.filter p (messages t)) ∧
  (∀ s, message_content t' !! s = if decide (s ∈ seqs t') then message_content t !! s else None) ∧
  wf t'.

Lemma delete_both_wf keys p ids t t1 t' :
  wf t → (∀ s, s ∈ seqs t → s ∈ keys t ↔ s ∈ seqs_where p t) →
  delete_fts keys t = Ok (tt, t1) → delete_messages p t1 = Ok (ids, t') → removed p ids t t'.
Proof.
  intros [Hwf Hfts] Hk Hdf Hdm. unfold delete_fts in Hdf. injection Hdf as Ht1.
  assert (Hm1 : messages t1 = messages t) by (by rewrite <- Ht1).
  assert (Hc1 : message_content t1 = message_content t) by (by rewrite <- Ht1).
  assert (Hs1 : seqs t1 = seqs t) by (unfold seqs; by rewrite Hm1).
  assert (Hf1 : messages_fts t1 = filter (λ kv, kv.1 ∉ keys t) (messages_fts t)) by (by rewrite <- Ht1).
  assert (Hwf1 : rows_wf t1) by (destruct Hwf; rewrite <- Ht1; by constructor).
  assert (Hwf' := delete_messages_wf _ _ _ _ Hwf1 Hdm).
  destruct (delete_messages_rows _ _ _ _ Hdm) as (Hm & Hids & Hf).
  assert (Hs := delete_messages_seqs _ _ _ _ Hwf1 Hdm).
  assert (Hsw : seqs_where p t1 = seqs_where p t) by (unfold seqs_where; by rewrite Hm1).
  split_and!; [by rewrite Hm, Hm1|by rewrite Hids, Hm1| |split; [done|]].
  - intros s. destruct Hwf' as [_ _ Hcont' _ _]. destruct (decide (s ∈ seqs t')) as [Hin|Hin].
    + unfold delete_messages in Hdm. injection Hdm as _ Ht'.
      assert (Hct : message_content t' = filter (λ kv, kv.1 ∉ seqs_where p t1) (message_content t1))
        by (by rewrite <- Ht').
      rewrite Hct, Hc1. destruct (message_content t !! s) as [x|] eqn:Hx.
      * apply map_lookup_filter_Some. split; [done|]. simpl. by apply Hs in Hin as [_ ?].
      * apply map_lookup_filter_None. by left.
    + apply not_elem_of_dom. by rewrite Hcont'.
  - apply set_eq. intros s. rewrite Hf, Hf1, Hs, Hs1, Hsw, <- Hfts, !elem_of_dom. unfold is_Some.
    setoid_rewrite map_lookup_filter_Some. simpl. split.
    + intros (x & Hx & Hn). split; [by eauto|]. intros Hin. apply Hn, Hk; [|done].
      rewrite <- Hfts. by apply elem_of_dom.
    + intros [[x Hx] Hn]. exists x. split; [done|]. intros Hin. apply Hn, Hk; [|done].
      rewrite <- Hfts. by apply elem_of_dom.
Qed.

Lemma seqs_where_sub p t s : s ∈ seqs_where p t ↔ ∃ m, m ∈ messages t ∧ p m = true ∧ seq m = s.
Proof.
  unfold seqs_where. rewrite elem_of_list_to_set, list_elem_of_fmap.
  setoid_rewrite elem_of_filter_b. naive_solver.
Qed.

Lemma filter_ids_nodup i l : NoDup (map id l) →
  List.filter (has_id i) l = [] ∨ map id (List.filter (has_id i) l) = [i].
Proof.
  induction l as [|m l IH]; simpl; [by left|]. intros [Hn Hd]%NoDup_cons.
  destruct (has_id i m) eqn:Hi; [|by apply IH]. right. simpl. apply beqb_spec in Hi. f_equal; [done|].
  destruct (List.filter (has_id i) l) as [|y k] eqn:Hf; [done|]. exfalso.
  assert (y ∈ List.filter (has_id i) l) as [Hy He]%elem_of_filter_b by (rewrite Hf; by left).
  apply beqb_spec in He. apply Hn. apply list_elem_of_fmap. exists y. by rewrite Hi.
Qed.
Lemma filter_id_none i l : List.filter (has_id i) l = [] ↔ i ∉ map id l.
Proof.
  induction l as [|m l IH]; simpl; [split; [set_solver|done]|]. rewrite not_elem_of_cons, <- IH.
  unfold has_id at 1. destruct (beqb (id m) i) eqn:Hi.
  - apply beqb_spec in Hi. split; [done|]. by intros [? _].
  - apply beqb_false in Hi. naive_solver.
Qed.

(** Nothing refuses a delete but the want of the message. *)
Definition absent (i : bytes) : refusal := λ e t, e = NotFound i ∧ i ∉ map id (messages t).

Lemma delete_atomic i :
  atomic (delete i) (λ _ t t', wf t → removed (has_id i) [i] t t') (absent i).
Proof.
  assert (Htail : ∀ ids : list bytes, body_spec
    (match ids with [] => fail (NotFound i) | _ => mret tt end : DB unit)
    (λ _ t t', ids ≠ [] ∧ t' = t) (λ e _, e = NotFound i ∧ ids = [])).
  { intros [|x ids].
    - eapply body_weaken; [apply body_fail|done|]. by intros e t ->.
    - eapply body_weaken; [apply (body_ret _ never)|by intros ? ? ? [_ ->]|done]. }
  unfold delete. apply transaction_atomic. eapply body_weaken.
  { apply (body_bind _ _ _ _ _ _ (body_exec_eq _) (λ u, body_bind _ _ _ _ _ _ (body_exec_eq _) Htail)). }
  - intros _ t t' ([] & t1 & Hf & ids & t2 & Hm & Hne & ->) Hwf.
    assert (Hrem : removed (has_id i) ids t t2) by (by eapply delete_both_wf).
    destruct Hrem as (Hm' & -> & Hrest). split_and!; [done| |by apply Hrest..].
    destruct (filter_ids_nodup i (messages t)) as [Hnil| ->]; [by destruct Hwf as [[]]| |done].
    by rewrite Hnil in Hne.
  - intros e t [Hf|([] & t1 & Hf & [Hm|(ids & t2 & Hm & -> & ->)])]; [done..|]. split; [done|].
    unfold delete_fts in Hf. unfold delete_messages in Hm. injection Hf as <-. injection Hm as Hm _.
    apply filter_id_none. simpl in Hm. by destruct (List.filter (has_id i) (messages t)).
Qed.

Lemma removed_none p t : wf t → List.filter p (messages t) = [] → removed p [] t t.
Proof.
  intros Hwf Hp. split_and!; [|by rewrite Hp| |done].
  - clear -Hp. induction (messages t) as [|m l IH]; simpl in *; [done|].
    destruct (p m); simpl; [done|]. by rewrite <- IH.
  - intros s. destruct (decide (s ∈ seqs t)) as [|Hn]; [done|]. apply not_elem_of_dom.
    destruct Hwf as [[_ _ -> _ _] _]. done.
Qed.

Lemma delete_older_than_atomic cutoff :
  atomic (delete_older_than cutoff) (λ ids t t', wf t → removed (older_than cutoff) ids t t') never.
Proof.
  unfold delete_older_than, delete_older_than_once. apply retry_on_lock_atomic, atomic_after_query.
  intros w. destruct (existsb _ _) eqn:Hex.
  - eapply atomic_weaken; [|intros ids t t' HR; exact HR|intros e t HE; exact HE].
    apply transaction_atomic. eapply body_weaken.
    { apply (body_bind _ _ _ _ _ _ (body_exec_eq _) (λ _, body_exec_eq _)). }
    + intros ids t t' ([] & t1 & Hf & Hm) Hwf. by eapply delete_both_wf.
    + by intros e t [?|([] & t1 & _ & ?)].
  - apply atomic_ret. intros Hwf. apply removed_none; [done|]. clear -Hex.
    induction (messages (db w)) as [|m l IH]; simpl in *; [done|].
    apply orb_false_iff in Hex as [-> ?]. by apply IH.
Qed.

(** The rows [trim_to_max] keeps: the newest [max]. *)
Lemma trim_threshold_spec max t th :
  ascending (messages t) → trim_threshold max t = Some th →
  List.filter (λ m, negb (seq m <=? th)%Z) (messages t) =
    drop (length (messages t) - Z.to_nat max) (messages t).
Proof.
  intros Hasc. unfold trim_threshold, sql_offset.
  destruct (drop (Z.to_nat max) (rev (messages t))) as [|x rest] eqn:Hd; simpl; [done|].
  intros [= <-].
  assert (Hsplit : messages t = rev rest ++ x :: rev (take (Z.to_nat max) (rev (messages t)))).
  { rewrite <- (rev_involutive (messages t)) at 1. rewrite <- (take_drop (Z.to_nat max) (rev (messages t))) at 1.
    rewrite Hd, rev_app_distr. simpl. by rewrite <- app_assoc. }
  assert (Hlen := f_equal length Hd). rewrite length_drop, length_rev in Hlen. simpl in Hlen.
  set (new := rev (take (Z.to_nat max) (rev (messages t)))) in *.
  rewrite Hsplit in Hasc |- *. apply ascending_app in Hasc as (_ & Hx & Hlt).
  assert (Hold : List.filter (λ m, negb (seq m <=? seq x)%Z) (rev rest) = []).
  { assert (∀ m, m ∈ rev rest → (seq m < seq x)%Z) as Hr by (intros; apply Hlt; [done|by left]).
    clear -Hr. induction (rev rest) as [|m l IH]; [done|]. cbn [List.filter].
    assert (seq m < seq x)%Z by (apply Hr; by left). rewrite (proj2 (Z.leb_le _ _)) by lia.
    simpl. apply IH. intros. apply Hr. by right. }
  assert (Hnew : List.filter (λ m, negb (seq m <=? seq x)%Z) new = new).
  { inversion_clear Hx as [|? ? _ Hn]. clear -Hn. induction Hn as [|m l Hm _ IH]; [done|].
    cbn [List.filter]. destruct (Z.leb_spec (seq m) (seq x)); [lia|]. simpl. by rewrite IH. }
  rewrite List.filter_app. cbn [List.filter]. rewrite Z.leb_refl. simpl. rewrite Hold, Hnew. simpl.
  rewrite length_app. simpl. rewrite cons_middle, app_assoc.
  assert (Hn : length new = Z.to_nat max).
  { unfold new. rewrite length_rev, length_take, length_rev. lia. }
  rewrite Hn, length_rev. replace (length rest + S (Z.to_nat max) - Z.to_nat max) with (length (rev rest ++ [x])).
  - by rewrite drop_app_length.
  - rewrite length_app, length_rev. simpl. lia.
Qed.

(** What is left after a trim to [max]. *)
Definition trimmed (max : Z) (ids : list bytes) (t t' : Tables) : Prop :=
  (∃ p, removed p ids t t') ∧
  messages t' = drop (length (messages t) - Z.to_nat max) (messages t).

Lemma trimmed_none max t : wf t → length (messages t) ≤ Z.to_nat max → trimmed max [] t t.
Proof.
  intros Hwf Hl. split; [exists (λ _, false); apply removed_none; [done|]|].
  - clear. by induction (messages t).
  - by replace (length (messages t) - Z.to_nat max) with 0 by lia.
Qed.

Lemma trim_body_spec max :
  body_spec (
    threshold ← query (trim_threshold max);
    match threshold with
    | None => mret None
    | Some th =>
      exec (delete_fts (λ t, filter (λ s, (s ≤ th)%Z) (dom (messages_fts t))));;
      ids ← exec (delete_messages (λ m, (seq m <=? th)%Z));
      mret (Some ids)
    end) (λ r t t', wf t → trimmed max (default [] r) t t' ∧ (r = None → t' = t)) never.
Proof.
  eapply body_effect.
  { apply (body_seq (λ _, False)); [by apply body_exec|]. intros [th|].
    - instantiate (1 := λ th r t t', match th with
        | None => r = None ∧ t' = t
        | Some th => ∃ ids t1, delete_fts (λ t, filter (λ s, (s ≤ th)%Z) (dom (messages_fts t))) t = Ok (tt, t1) ∧
            delete_messages (λ m, (seq m <=? th)%Z) t1 = Ok (ids, t') ∧ r = Some ids
        end).
      eapply body_effect.
      { apply (body_seq (λ _, False)); [by apply body_exec|]. intros u.
        apply (body_seq (λ _, False)); [by apply body_exec|]. intros ids. apply body_ret. }
      intros r t t' ([] & t1 & Hf & ids & t2 & Hm & -> & ->). by exists ids, t1.
    - apply body_ret. }
  intros r t t' (th & t1 & Hq & Hrest) Hwf. injection Hq as <- <-.
  destruct (trim_threshold max t) as [th|] eqn:Hth.
  - destruct Hrest as (ids & t2 & Hf & Hm & ->). split; [|done].
    assert (Hrem : removed (λ m, (seq m <=? th)%Z) ids t t').
    { eapply delete_both_wf; [done| |exact Hf|exact Hm]. intros s Hs. rewrite elem_of_filter, seqs_where_sub.
      destruct Hwf as [_ ->]. split; [|intros (m & Hm' & Hle & <-); split; [by apply Z.leb_le|done]].
      intros [Hle _]. apply seqs_elem in Hs as (m & ? & <-). exists m. split_and!; try done. by apply Z.leb_le. }
    split; [by eexists|]. destruct Hrem as [-> _]. apply trim_threshold_spec; [|done]. by destruct Hwf as [[]].
  - destruct Hrest as [-> ->]. split; [|done]. apply trimmed_none; [done|].
    unfold trim_threshold, sql_offset in Hth.
    destruct (drop (Z.to_nat max) (rev (messages t))) eqn:Hd; [|done].
    apply (f_equal length) in Hd. rewrite length_drop, length_rev in Hd. simpl in Hd. lia.
Qed.

Lemma trim_to_max_atomic max :
  atomic (trim_to_max max) (λ ids t t', wf t → trimmed max ids t t') never.
Proof.
  unfold trim_to_max, trim_to_max_once. apply retry_on_lock_atomic, atomic_after_query. intros w.
  destruct (Z.leb_spec (Z.of_nat (length (messages (db w)))) max).
  { apply atomic_ret. intros Hwf. apply trimmed_none; [done|lia]. }
  eapply atomic_weaken; [apply (transaction_if_atomic [] _ _ _ (trim_body_spec max))| |done].
  intros ids t t' [HR|(-> & -> & t1 & HR)] Hwf; [by apply HR|].
  destruct (HR Hwf) as [Htr Heq]. by rewrite Heq in Htr by done.
Qed.

Lemma delete_all_atomic :
  atomic delete_all (λ n t t', n = length (messages t) ∧ t' = empty_tables) never.
Proof.
  unfold delete_all, delete_all_once. apply retry_on_lock_atomic, transaction_atomic. eapply body_effect.
  { do 4 (apply (body_seq (λ _, False)); [by apply body_exec|]; intros ?).
    apply (body_seq (λ _, False)); [by apply body_exec|]. intros ids. apply body_ret. }
  intros n t t' ([] & t1 & G1 & [] & t2 & G2 & [] & t3 & G3 & [] & t4 & G4 & ids & t5 & G5 & -> & ->).
  unfold clear_fts, clear_content, clear_attachments, clear_tags, delete_messages in *. simplify_eq/=.
  assert (Hall : List.filter (λ _ : MessageRecord, true) (messages t) = messages t).
  { clear. induction (messages t) as [|m l IH]; simpl; [done|]. by rewrite IH. }
  assert (Hnone : List.filter (λ _ : MessageRecord, negb true) (messages t) = []).
  { clear. by induction (messages t) as [|m l IH]. }
  split; [by rewrite length_map, Hall|]. unfold empty_tables. simpl in Hnone.
  rewrite Hnone, map_filter_empty. done.
Qed.

(** The row of one message changed in the fields given, its tag rows following. *)
Definition changed (i : bytes) (read starred : option bool) (tg : option bytes) (t t' : Tables) : Prop :=
  messages t' = map (λ m, if has_id i m then updated read starred tg m else m) (messages t) ∧
  message_content t' = message_content t ∧ messages_fts t' = messages_fts t ∧
  Database.attachments t' = Database.attachments t ∧ (wf t → wf t').

Lemma update_message_atomic i read starred tags :
  atomic (update_messages_op i read starred tags) (λ n t t',
    n = length (List.filter (has_id i) (messages t)) ∧
    changed i read starred (json_to_string <$> tags) t t') never.
Proof.
  unfold update_messages_op. apply retry_on_lock_atomic. intros w.
  eapply atomic_weaken; [apply autocommit_atomic| |done]. intros n t t' Hup.
  assert (Hwf' := λ Hwf, update_messages_wf _ _ _ _ _ _ _ Hwf Hup).
  unfold update_messages in Hup. injection Hup as <- <-. split; [done|]. split_and!; try done.
  intros [Hwf Hfts]. destruct (Hwf' Hwf) as (? & Hs & Hf). split; [done|]. by rewrite Hs, Hf.
Qed.
End writes.
