(* ===== verification/Instances.v ===== *)
(** Concrete stand-ins for the code outside the repository, to show that the
    laws the development assumes of it can hold and to run the definitions on
    examples: a JSON-like array printer, a parser that reads no mail, a search
    for whole fields and a [LIKE] matcher. *)
From S2P Require Import Prelude RustStd MailParser Prepared Query Database Repo.

(** Each string by its characters, every one marked, and an end mark. *)
Definition print_string (s : bytes) : bytes := flat_map (λ c, ["1"; c]%char) s ++ ["0"%char].
Definition print_array (l : list bytes) : bytes := "["%char :: concat (map print_string l) ++ ["]"%char].
Fixpoint read_strings (fuel : nat) (cur : bytes) (s : bytes) : option (list bytes) :=
  match fuel with
  | 0 => None
  | S fuel =>
    match s with
    | "1"%char :: c :: s => read_strings fuel (cur ++ [c]) s
    | "0"%char :: s => cons cur <$> read_strings fuel [] s
    | ["]"%char] => Some []
    | _ => None
    end
  end.
Definition read_array (s : bytes) : option (list bytes) :=
  match s with "["%char :: s => read_strings (S (length s)) [] s | _ => None end.

Lemma read_print_string fuel cur s rest : 2 * length s + length rest < fuel →
  ∃ fuel', length rest < fuel' ∧
    read_strings (S fuel) cur (print_string s ++ rest) = cons (cur ++ s) <$> read_strings fuel' [] rest.
Proof.
  revert fuel cur. induction s as [|c s IH]; intros fuel cur Hf.
  - exists fuel. rewrite app_nil_r. split; [simpl in Hf; lia|done].
  - simpl in Hf. destruct fuel as [|fuel]; [lia|].
    destruct (IH fuel (cur ++ [c])) as (f & Hlt & Heq); [simpl; lia|]. exists f. split; [done|].
    rewrite <- app_assoc in Heq. simpl in Heq. rewrite <- Heq. done.
Qed.
Lemma print_string_length s : length (print_string s) = 2 * length s + 1.
Proof. unfold print_string. rewrite length_app. induction s; simpl in *; lia. Qed.
Lemma read_print_array l : read_array (print_array l) = Some l.
Proof.
  unfold read_array, print_array.
  assert (∀ fuel, length (concat (map print_string l) ++ ["]"%char]) < fuel →
    read_strings fuel [] (concat (map print_string l) ++ ["]"%char]) = Some l) as H; [|apply H; lia].
  induction l as [|s l IH]; intros fuel Hf; simpl in *.
  - destruct fuel; [lia|done].
  - rewrite <- app_assoc in *. rewrite length_app, print_string_length in Hf.
    destruct fuel as [|fuel]; [lia|].
    destruct (read_print_string fuel [] s (concat (map print_string l) ++ ["]"%char])) as (f & Hlt & ->); [lia|].
    by rewrite IH.
Qed.

#[export] Instance plain_json : Json := {|
  json_to_string := print_array;
  json_from_str := read_array;
  json_each s := default [] (read_array s);
|}.
#[export] Instance plain_json_laws : JsonLaws.
Proof.
  split; [done|apply read_print_array|]. intros l.
  change (default [] (read_array (print_array l)) = l). by rewrite read_print_array.
Qed.

#[export] Instance no_mail : MailParser := {|
  parse_message _ := None;
  quoted_printable_decode s := Some s;
  base64_decode s := Some s;
|}.

(** SQLite's [LIKE], by recursion on the pattern. *)
Fixpoint any_suffix (f : bytes → bool) (s : bytes) : bool :=
  f s || match s with [] => false | _ :: s => any_suffix f s end.
Fixpoint like_match (p : bytes) (s : bytes) : bool :=
  match p with
  | [] => beqb s []
  | x :: p' =>
    if Ascii.eqb x "%" then any_suffix (like_match p') s
    else if Ascii.eqb x "_" then match s with [] => false | _ :: s => like_match p' s end
    else if Ascii.eqb x "\" then
      match p' with
      | c :: p'' => match s with
                    | d :: s => Ascii.eqb (to_lower c) (to_lower d) && like_match p'' s
                    | [] => false
                    end
      | [] => false
      end
    else match s with
         | d :: s => Ascii.eqb (to_lower x) (to_lower d) && like_match p' s
         | [] => false
         end
  end.

#[export] Instance plain_sqlite : Sqlite := {|
  fts_match q r := bool_decide (q = "034"%char :: f_sender r ++ ["034"%char]);
  like := like_match;
|}.

#[export] Instance plain_platform : Platform := {|
  ulid n := replicate (S n) "0"%char;
  timestamp n := b#"2026-01-01T00:00:00Z";
  alphanumeric _ := false;
  to_lowercase := to_ascii_lowercase;
|}.

#[export] Instance plain_like_laws : LikeLaws.
Proof.
  split.
  - done.
  - intros p s. change (any_suffix (like_match p) s = true ↔ ∃ a b, s = a ++ b ∧ like_match p b = true).
    induction s as [|c s IH]; simpl; rewrite ?orb_false_r, ?orb_true_iff, ?IH.
    + split; [intros; by exists [], []|]. by intros ([|??] & b & Heq & ?); simplify_eq/=.
    + split.
      * intros [?|(a & b & -> & ?)]; [by exists [], (c :: s)|by exists (c :: a), b].
      * intros ([|d a] & b & Heq & ?); simplify_eq/=; [by left|right; by exists a, b].
  - intros c p s. destruct s; done.
  - intros c p s Hn. assert (Ascii.eqb c "%" = false ∧ Ascii.eqb c "_" = false ∧ Ascii.eqb c "\" = false)
      as (H1 & H2 & H3) by (rewrite !Ascii.eqb_neq; set_solver).
    simpl. by rewrite H1, H2, H3.
Qed.
#[export] Instance plain_lowercase_law : LowercaseLaw.
Proof. done. Qed.
