(* ===== verification/RepoProperties.v ===== *)
(** What the message repository guarantees. *)
From S2P Require Import Prelude RustStd StorageError Content MailParser Locator Prepared Query Database Store Repo Tables RepoWrites Instances.

(** A consistent store whose other connections keep it so. *)
Definition sound `{Json} (w : World) : Prop :=
  wf (db w) ∧ Forall (λ r : Tables → Tables, ∀ t, wf t → wf (r t)) (rivals w).

Section soundness.
Context `{Json, Zstd, MailParser, Sqlite, Platform, !JsonLaws}.

Lemma sound_quiet w w' : sound w → quiet w w' → sound w'.
Proof.
  intros [Hwf Hr] [(k & Hd & Hr') _]. split; [|by rewrite Hr'; apply Forall_drop].
  rewrite Hd. assert (Hk := Forall_take _ k _ Hr). clear Hd. generalize dependent (db w).
  induction Hk as [|r l Hrl _ IH]; intros t Ht; simpl; [done|]. apply IH. by apply Hrl.
Qed.

(** An atomic operation whose effect keeps a consistent store consistent. *)
Lemma atomic_sound {A} (op : DB A) R E :
  atomic op R E → (∀ a t t', R a t t' → wf t → wf t') →
  ∀ w, sound w → wp op (λ _ w', sound w') w.
Proof.
  intros Ho HR w Hs. eapply wp_mono; [apply Ho|]. intros r w' (w0 & Hq & [Hr _] & Hd).
  destruct (sound_quiet _ _ Hs Hq) as [Hwf Hrs]. split; [|by rewrite Hr].
  destruct r as [a|e]; [by eapply HR|]. by destruct Hd as [-> _].
Qed.
(** What it answers from a consistent store: [R] and [E] hold of consistent tables. *)
Lemma atomic_run {A} (op : DB A) R E w :
  atomic op R E → sound w → ∃ r w' w0, op w = Some (r, w') ∧ quiet w w0 ∧ wf (db w0) ∧
    match r with
    | Ok a => R a (db w0) (db w')
    | Err e => db w' = db w0 ∧ (blamed e w ∨ E e (db w0))
    end.
Proof.
  intros Ho Hs. destruct (Ho w) as (r & w' & Hrun & w0 & Hq & _ & HR). exists r, w', w0.
  split_and!; try done. by destruct (sound_quiet _ _ Hs Hq).
Qed.

(** The writes a client can ask for. *)
Inductive request :=
| InsertBatch (ps : list PreparedMessage)
| UpdateMessage (i : bytes) (read starred : option bool) (tags : option (list bytes))
| Delete (i : bytes)
| DeleteAll
| DeleteOlderThan (cutoff : bytes)
| TrimToMax (max : Z).

Definition perform (q : request) : DB unit :=
  match q with
  | InsertBatch ps => insert_batch ps;; mret tt
  | UpdateMessage i read starred tags => update_message i read starred tags
  | Delete i => delete i
  | DeleteAll => delete_all;; mret tt
  | DeleteOlderThan cutoff => delete_older_than cutoff;; mret tt
  | TrimToMax max => trim_to_max max;; mret tt
  end.
(** One after the other, whether or not they fail. *)
Fixpoint perform_all (qs : list request) (w : World) : option World :=
  match qs with
  | [] => Some w
  | q :: qs => match perform q w with Some (_, w) => perform_all qs w | None => None end
  end.

Lemma empty_wf : wf empty_tables.
Proof.
  split; [constructor|]; simpl; try (by constructor); try done.
  - intros tag s. rewrite elem_of_empty. split; [done|]. intros (m & Hm & _). set_solver.
Qed.

Lemma sound_then {A B} (op : DB A) (k : A → DB B) w :
  wp op (λ _ w', sound w') w → (∀ a w, sound w → wp (k a) (λ _ w', sound w') w) →
  wp (op ≫= k) (λ _ w', sound w') w.
Proof. intros Ho Hk. apply wp_bind. eapply wp_mono; [done|]. intros [a|e] w' Hs; auto. Qed.

Lemma perform_sound q w : sound w → wp (perform q) (λ _ w', sound w') w.
Proof.
  intros Hs.
  assert (Hret : ∀ A (a : A) w, sound w → wp (mret a : DB A) (λ _ w', sound w') w)
    by (intros; by apply wp_ret).
  destruct q; simpl.
  - apply sound_then; [|auto].
    eapply atomic_sound; [apply insert_batch_atomic| |done].
    intros a t t' HR Hwf. by apply (batch_stored_spec ps a t t').
  - apply sound_then; [eapply atomic_sound; [apply update_message_atomic| |done]|].
    + intros a t t' [_ HR]. apply HR.
    + intros n w1 Hs1. destruct (n =? 0); [by eexists _, _|auto].
  - eapply atomic_sound; [apply delete_atomic| |done]. intros a t t' HR Hwf. by apply HR.
  - apply sound_then; [|auto]. eapply atomic_sound; [apply delete_all_atomic| |done].
    intros a t t' [_ ->] _. apply empty_wf.
  - apply sound_then; [|auto]. eapply atomic_sound; [apply delete_older_than_atomic| |done].
    intros a t t' HR Hwf. by apply HR.
  - apply sound_then; [|auto]. eapply atomic_sound; [apply trim_to_max_atomic| |done].
    intros a t t' HR Hwf. by destruct (HR Hwf) as [[p HR'] _]; apply HR'.
Qed.

(** ** Properties of the writes *)

(** C23: invariant. Whatever sequence of inserts, updates and deletes runs, with
    whatever statements failing, connections contending and other writers
    committing in between, the store stays consistent: the index, the content,
    the attachments and the tag rows are those of the stored messages, ids are
    unique and arrival order is strict. *)
Theorem store_stays_consistent qs w :
  sound w → ∃ w', perform_all qs w = Some w' ∧ wf (db w').
Proof.
  revert w. induction qs as [|q qs IH]; intros w Hs; simpl; [exists w; split; [done|apply Hs]|].
  destruct (perform_sound q w Hs) as (r & w1 & -> & Hs1). by apply IH.
Qed.

(** C24: safety. A batch is stored whole or not at all, whatever fails on the way
    and however often the write is retried. When it is stored, its messages come
    after every other in the order given, each with its own summary, content and
    index row. When it is not, the store holds what the other connections left,
    and the error is a fault of the database or a constraint. *)
Theorem insert_batch_all_or_nothing ps w :
  sound w → ∃ r w' w0, insert_batch ps w = Some (r, w') ∧ quiet w w0 ∧
    match r with
    | Err e => db w' = db w0 ∧ (blamed e w ∨ e = CONSTRAINT)
    | Ok sums => ∃ ms, messages (db w') = messages (db w0) ++ ms ∧ map summary ms = sums ∧
        map seq ms = seqZ (next_seq (db w0)) (Z.of_nat (length ps)) ∧
        Forall2 (λ p m, stored_as p (db w') m ∧ messages_fts (db w') !! seq m = Some (fts_row p)) ps ms
    end.
Proof.
  intros Hs.
  destruct (atomic_run _ _ _ w (insert_batch_atomic ps) Hs) as (r & w' & w0 & Hrun & Hq & Hwf & HR).
  exists r, w', w0. split_and!; [done|done|]. destruct r as [sums|e]; [|done].
  destruct (batch_stored_spec ps sums (db w0) (db w') Hwf HR) as (_ & ms & ? & ? & ? & ? & _). by exists ms.
Qed.

(** Trimming keeps exactly the newest [max] messages, in order,
    and reports the ids of the others; only a fault of the database keeps it from
    doing so, and then nothing is deleted. *)
Theorem trim_keeps_newest max w :
  sound w → ∃ r w' w0, trim_to_max max w = Some (r, w') ∧ quiet w w0 ∧
    match r with
    | Err e => db w' = db w0 ∧ blamed e w
    | Ok ids =>
        messages (db w') = drop (length (messages (db w0)) - Z.to_nat max) (messages (db w0)) ∧
        map id (messages (db w0)) ≡ₚ ids ++ map id (messages (db w'))
    end.
Proof.
  intros Hs. destruct (atomic_run _ _ _ w (trim_to_max_atomic max) Hs) as (r & w' & w0 & Hrun & Hq & Hwf & HR).
  exists r, w', w0. split_and!; [done|done|]. destruct r as [ids|e]; [|by destruct HR as [? [|[]]]].
  destruct (HR Hwf) as [(p & Hm & Hids & _) Hd]. split; [done|].
  rewrite Hids, Hm, <- map_app. apply fmap_Permutation. clear.
  induction (messages (db w0)) as [|m l IH]; simpl; [done|].
  destruct (p m); simpl; [by rewrite IH at 1|]. rewrite IH at 1. by rewrite Permutation_middle.
Qed.

(** Retention deletes exactly the messages created before the
    cutoff, and reports their ids; only a fault of the database keeps it from
    doing so, and then nothing is deleted. *)
Theorem delete_older_than_exact cutoff w :
  sound w → ∃ r w' w0, delete_older_than cutoff w = Some (r, w') ∧ quiet w w0 ∧
    match r with
    | Err e => db w' = db w0 ∧ blamed e w
    | Ok ids =>
        messages (db w') = List.filter (λ m, negb (bytes_ltb (created_at m) cutoff)) (messages (db w0)) ∧
        ids = map id (List.filter (λ m, bytes_ltb (created_at m) cutoff) (messages (db w0)))
    end.
Proof.
  intros Hs. destruct (atomic_run _ _ _ w (delete_older_than_atomic cutoff) Hs)
    as (r & w' & w0 & Hrun & Hq & Hwf & HR).
  exists r, w', w0. split_and!; [done|done|]. destruct r as [ids|e]; [|by destruct HR as [? [|[]]]].
  by destruct (HR Hwf) as (Hm & Hids & _).
Qed.

(** Deleting a message removes its row and its content and those of no
    other. A delete that fails removes nothing, and fails because the database
    did or because no message has the id. *)
Theorem delete_one i w :
  sound w → ∃ r w' w0, delete i w = Some (r, w') ∧ quiet w w0 ∧
    match r with
    | Err e => db w' = db w0 ∧ (blamed e w ∨ e = NotFound i ∧ i ∉ map id (messages (db w0)))
    | Ok _ => i ∈ map id (messages (db w0)) ∧
        messages (db w') = List.filter (λ m, negb (beqb (id m) i)) (messages (db w0)) ∧
        (∀ s, s ∈ seqs (db w') → message_content (db w') !! s = message_content (db w0) !! s)
    end.
Proof.
  intros Hs. destruct (atomic_run _ _ _ w (delete_atomic i) Hs) as (r & w' & w0 & Hrun & Hq & Hwf & HR).
  exists r, w', w0. split_and!; [done|done|]. destruct r as [[]|e]; [|done].
  destruct (HR Hwf) as (Hm & Hids & Hc & _). split_and!; [|done|].
  - assert (i ∈ map id (List.filter (has_id i) (messages (db w0)))) as Hi by (rewrite <- Hids; by left).
    apply list_elem_of_fmap in Hi as (m & -> & [Hm' _]%elem_of_filter_b). apply list_elem_of_fmap. by exists m.
  - intros s Hin. rewrite Hc. by destruct (decide _).
Qed.
End soundness.

(** ** A store to run the theorems on *)

Definition calm (t : Tables) : World :=
  {| db := t; faults := []; rivals := []; clock := []; minted := 0; slept := [] |}.
Lemma calm_sound t : wf t → sound (calm t).
Proof. by split; [|constructor]. Qed.

Definition example_mail (subject : bytes) : PreparedMessage :=
  {| p_sender := b#"a@x"; recipients_json := json_to_string [b#"b@y"]; p_subject := Some subject;
     text_body := None; size := 2; compressed_raw := b#"hi"; has_attachments := false;
     Prepared.attachments := [] |}.
(** Two messages stored, the first write having met a locked database. *)
Definition contended : World :=
  {| db := empty_tables; faults := [Some (DatabaseError (Some b#"5"))]; rivals := []; clock := [];
     minted := 0; slept := [] |}.
Lemma contended_sound : sound contended.
Proof. split; [apply empty_wf|constructor]. Qed.

Lemma store_stays_consistent_witness :
  ∃ w', perform_all [InsertBatch [example_mail b#"one"; example_mail b#"two"]; TrimToMax 1; Delete b#"0"]
          contended = Some w' ∧ wf (db w').
Proof. apply store_stays_consistent, contended_sound. Defined.
Lemma insert_batch_all_or_nothing_witness :
  let ps := [example_mail b#"one"; example_mail b#"two"] in
  ∃ r w' w0, insert_batch ps contended = Some (r, w') ∧ quiet contended w0 ∧
    match r with
    | Err e => db w' = db w0 ∧ (blamed e contended ∨ e = CONSTRAINT)
    | Ok sums => ∃ ms, messages (db w') = messages (db w0) ++ ms ∧ map summary ms = sums ∧
        map seq ms = seqZ (next_seq (db w0)) (Z.of_nat (length ps)) ∧
        Forall2 (λ p m, stored_as p (db w') m ∧ messages_fts (db w') !! seq m = Some (fts_row p)) ps ms
    end.
Proof. apply insert_batch_all_or_nothing, contended_sound. Defined.
Lemma trim_keeps_newest_witness :
  ∃ r w' w0, trim_to_max 1 contended = Some (r, w') ∧ quiet contended w0 ∧
    match r with
    | Err e => db w' = db w0 ∧ blamed e contended
    | Ok ids => messages (db w') = drop (length (messages (db w0)) - 1) (messages (db w0)) ∧
        map id (messages (db w0)) ≡ₚ ids ++ map id (messages (db w'))
    end.
Proof. apply (trim_keeps_newest 1), contended_sound. Defined.
Lemma delete_older_than_exact_witness :
  ∃ r w' w0, delete_older_than b#"2026" contended = Some (r, w') ∧ quiet contended w0 ∧
    match r with
    | Err e => db w' = db w0 ∧ blamed e contended
    | Ok ids =>
        messages (db w') = List.filter (λ m, negb (bytes_ltb (created_at m) b#"2026")) (messages (db w0)) ∧
        ids = map id (List.filter (λ m, bytes_ltb (created_at m) b#"2026") (messages (db w0)))
    end.
Proof. apply delete_older_than_exact, contended_sound. Defined.
Lemma delete_one_witness :
  ∃ r w' w0, delete b#"0" contended = Some (r, w') ∧ quiet contended w0 ∧
    match r with
    | Err e => db w' = db w0 ∧ (blamed e contended ∨ e = NotFound b#"0" ∧ b#"0" ∉ map id (messages (db w0)))
    | Ok _ => b#"0" ∈ map id (messages (db w0)) ∧
        messages (db w') = List.filter (λ m, negb (beqb (id m) b#"0")) (messages (db w0)) ∧
        (∀ s, s ∈ seqs (db w') → message_content (db w') !! s = message_content (db w0) !! s)
    end.
Proof. apply delete_one, contended_sound. Defined.
