(* ===== verification/RepoReads.v ===== *)
(** What the reading methods of the repository answer: stored mail reads back,
    pages join up, counts agree with listings, patterns match what they say. *)
From S2P Require Import Prelude RustStd StorageError Content MailParser Locator Prepared Query Database Store Repo Tables RepoWrites Instances RepoProperties.

(** A read of a database that does not fail. *)
Lemma query_calm {A} (f : Tables → A) w : faults w = [] → query f w = Some (Ok (f (db w)), w).
Proof.
  intros Hf. unfold query, exec, roll, apply_stmt, mbind, M_mbind. rewrite Hf. simpl.
  by destruct w; simpl in *; subst.
Qed.
Lemma query_bind_calm {A B} (f : Tables → A) (k : A → DB B) w :
  faults w = [] → (query f ≫= k) w = k (f (db w)) w.
Proof. intros Hf. unfold mbind, M_mbind. by rewrite query_calm. Qed.

Section reads.
Context `{Json, Zstd, MailParser, Sqlite, Platform, !JsonLaws}.

(** ** Reading back what was stored *)

Lemma filter_by_id l m : NoDup (map id l) → m ∈ l → List.filter (λ x, beqb (id x) (id m)) l = [m].
Proof.
  induction l as [|x l IH]; simpl; [set_solver|]. intros [Hn Hd]%NoDup_cons [->|Hm]%elem_of_cons.
  - rewrite beqb_refl. f_equal. by apply filter_id_none.
  - destruct (beqb (id x) (id m)) eqn:Hb; [|by apply IH]. apply beqb_spec in Hb.
    destruct Hn. apply list_elem_of_fmap. by exists m.
Qed.
Lemma content_row_stored t m raw : wf t → m ∈ messages t → message_content t !! seq m = Some raw →
  content_row (id m) t = Some (m, raw).
Proof.
  intros [[_ Hids _ _ _] _] Hm Hraw. unfold content_row. rewrite filter_by_id by done. simpl.
  by rewrite Hraw.
Qed.

(** An insert that succeeded left one message more, consistent with its summary. *)
Lemma insert_prepared_spec p w sum w' : sound w → insert_prepared p w = Some (Ok (Some sum), w') →
  wf (db w') ∧ faults w' `suffix_of` faults w ∧
  ∃ m, m ∈ messages (db w') ∧ summary m = sum ∧ stored_as p (db w') m.
Proof.
  intros Hs Hrun.
  destruct (insert_prepared_atomic p w) as (r & w1 & Hrun1 & w0 & Hq & [Hr Hf] & HR). rewrite Hrun in Hrun1. simplify_eq.
  destruct HR as (sums & Hhead & HR). destruct (sound_quiet _ _ Hs Hq) as [Hwf _].
  destruct (batch_stored_spec _ _ _ _ Hwf HR) as (Hwf' & ms & Hm & Hsum & _ & Hall & _).
  split_and!; [done|by etrans; [|apply Hq]|]. inversion Hall as [|? m ? ms' [Hst _] Hnil]; subst.
  inversion Hnil; subst. simpl in Hhead. exists m. split_and!; [|congruence|done].
  rewrite Hm. apply elem_of_app. right. by left.
Qed.

(** A row stored for a message gives its bytes back, and its envelope. *)
Lemma row_reads_back `{!ZstdLaws} sender recipients raw p m w n :
  wf (db w) → faults w = [] → parse sender recipients raw = Ok p → m ∈ messages (db w) → stored_as p (db w) m →
  get_raw (id m) w = Some (Ok raw, w) ∧ get_raw_prefix (id m) n w = Some (Ok (take (Z.to_nat n) raw), w) ∧
  m_size m = Z.of_nat (length raw) ∧ m_sender m = sender ∧ json_from_str (m_recipients m) = Some recipients ∧
  ∃ full, get (id m) w = Some (Ok full, w) ∧ msg full = summary m.
Proof.
  intros Hwf Hf Hparse Hm [(i & now & Hrow) Hcont]. assert (Hp := parse_spec sender recipients raw).
  destruct (compress raw) as [frame|e] eqn:Hc; [|by rewrite Hp in Hparse].
  destruct Hp as (p' & Hp & Hsend & Hrec & Hsize & Hframe). rewrite Hp in Hparse. simplify_eq.
  assert (Hcr := content_row_stored _ _ _ Hwf Hm Hcont).
  assert (Hsz : m_size m = Z.of_nat (length raw)) by (rewrite Hrow; simpl; by rewrite Hsize).
  unfold get_raw, get_raw_prefix, get, into_message. rewrite !query_bind_calm, Hcr by done.
  rewrite Hsz, !(decompress_compress _ _ _ Hc), (decompress_prefix_compress _ _ _ _ Hc).
  split_and!; try done.
  - by replace (Z.to_nat (Z.max 0 n)) with (Z.to_nat n) by lia.
  - by rewrite Hrow.
  - rewrite Hrow. simpl. rewrite Hrec. apply json_reads_back.
  - by eexists.
Qed.

(** C25: roundtrip. A message that was accepted reads back byte for byte: its raw
    source whole, any prefix of it, and the summary with the size it has, as long
    as zstd decompresses what it compressed. *)
Theorem stored_mail_reads_back `{!ZstdLaws} sender recipients raw w sum w' n :
  sound w → faults w = [] →
  insert sender recipients raw w = Some (Ok (Some sum), w') →
  get_raw (s_id sum) w' = Some (Ok raw, w') ∧
  get_raw_prefix (s_id sum) n w' = Some (Ok (take (Z.to_nat n) raw), w') ∧
  s_size sum = Z.of_nat (length raw) ∧ s_sender sum = sender ∧
  json_from_str (s_recipients sum) = Some recipients ∧
  ∃ m, get (s_id sum) w' = Some (Ok m, w') ∧ msg m = sum.
Proof.
  intros Hs Hf Hins. unfold insert in Hins. destruct (parse sender recipients raw) as [p|e] eqn:Hp; [|done].
  destruct (insert_prepared_spec p w sum w' Hs Hins) as (Hwf & Hsuf & m & Hm & <- & Hst).
  rewrite Hf in Hsuf. apply suffix_nil_inv in Hsuf.
  by apply (row_reads_back sender recipients raw p m w' n).
Qed.

(** ** Pages *)

(** The messages a listing goes through, newest first. *)
Definition listing (f : MessageFilter) (t : Tables) : list MessageRecord :=
  rev (List.filter (passes f (message_tags t)) (messages t)).

(** Paging by cursor or by offset goes through a listing without a
    gap or a repetition: after the message [x] comes exactly what follows it,
    newest first and up to the limit, and nothing else is in the pages. *)
Theorem pages_join f limit w a x b :
  sound w → faults w = [] → listing f (db w) = a ++ x :: b → (0 ≤ limit)%Z →
  cursor (id x) w = Some (Ok (seq x), w) ∧
  list_page f (Before (seq x)) limit w = Some (Ok (map summary (take (Z.to_nat limit) b)), w) ∧
  list_page f (Offset (Z.of_nat (S (length a)))) limit w =
    Some (Ok (map summary (take (Z.to_nat limit) b)), w).
Proof.
  intros [Hwf _] Hf Hl Hlim. unfold cursor, list_page. rewrite query_bind_calm, !query_calm by done.
  assert (Hx : x ∈ messages (db w)).
  { assert (x ∈ listing f (db w)) as Hin by (rewrite Hl; apply elem_of_app; right; by left).
    unfold listing in Hin. rewrite list_elem_of_In, <- in_rev, <- list_elem_of_In in Hin. by apply elem_of_filter_b in Hin as [? _]. }
  assert (Hlim' : ∀ A (l : list A), sql_limit limit l = take (Z.to_nat limit) l).
  { intros A l. unfold sql_limit. by destruct (Z.ltb_spec limit 0); [lia|]. }
  split_and!.
  - rewrite filter_by_id; [done|apply Hwf|done].
  - rewrite (page_next limit _ a x b); [by rewrite Hlim'|apply ascending_filter, Hwf|done].
  - unfold page, sql_offset. unfold listing in Hl. rewrite Hl, Hlim', Nat2Z.id.
    rewrite cons_middle, app_assoc, drop_app_length'; [done|]. rewrite length_app. simpl. lia.
Qed.

(** ** Counts *)

Lemma matches_rows quoted t : wf t →
  base.size (filter (λ kv, fts_match quoted kv.2 = true) (messages_fts t)) =
    length (List.filter (matches quoted (messages_fts t)) (messages t)).
Proof.
  intros [[Hasc Hids _ _ _] Hdom]. rewrite <- size_dom.
  assert (Hnd : NoDup (map seq (List.filter (matches quoted (messages_fts t)) (messages t)))).
  { apply (ascending_filter (matches quoted (messages_fts t))) in Hasc. clear -Hasc.
    induction Hasc as [|m l Hl IH Hm]; simpl; constructor; [|done]. rewrite Forall_forall in Hm.
    intros (y & He & Hy)%list_elem_of_fmap. specialize (Hm y Hy). lia. }
  rewrite <- (length_map seq), <- (size_list_to_set (C := gset Z)) by done. f_equal.
  apply set_eq. intros s. rewrite elem_of_dom, elem_of_list_to_set, list_elem_of_fmap. unfold is_Some.
  setoid_rewrite map_lookup_filter_Some. setoid_rewrite elem_of_filter_b. unfold matches. simpl. split.
  - intros (r & Hr & Hmatch).
    assert (s ∈ seqs t) as (m & Hm & <-)%seqs_elem by (rewrite <- Hdom; apply elem_of_dom; by exists r).
    exists m. by rewrite Hr.
  - intros (m & -> & Hm & Hmatch). destruct (messages_fts t !! seq m) as [r|]; [|done]. by exists r.
Qed.

(** The count of a search is the length of its listing, although
    it is taken on the index alone, without a filter and with one. *)
Theorem search_count_agrees q f w :
  sound w → faults w = [] →
  ∃ sums, search_page q f (Offset 0) (-1) w = Some (Ok sums, w) ∧
    search_count_filtered q f w = Some (Ok (Z.of_nat (length sums)), w).
Proof.
  intros [Hwf _] Hf. unfold search_count_filtered, search_count, search_page.
  assert (Hpage : ∀ p, length (map summary (page (Offset 0) (-1) (List.filter p (messages (db w)))))
    = length (List.filter p (messages (db w)))).
  { intros p. rewrite length_map. unfold page.
    assert (Hall : ∀ l : list MessageRecord, sql_limit (-1) (sql_offset 0 l) = l) by done.
    by rewrite Hall, length_rev. }
  destruct (sanitize_fts_query q) as [quoted|]; [|exists []; by destruct (filter_is_empty f)].
  rewrite query_calm by done. eexists. split; [done|]. rewrite Hpage.
  destruct (filter_is_empty f) eqn:He; rewrite query_calm by done; [|done].
  rewrite matches_rows by done. do 4 f_equal. f_equal. apply List.filter_ext. intros m.
  by rewrite (passes_empty _ _ _ He), andb_true_r.
Qed.

(** ** Tags *)

Definition tagged (tag : bytes) : MessageFilter :=
  {| starred := false; unread := false; with_attachments := false; filter_tags := [tag] |}.

(** After its tags are set, a message is found by exactly the tags
    it was given, and its other fields are as they were. *)
Theorem tags_filter_follows_update i tags w w' tag m :
  sound w → update_message i None None (Some tags) w = Some (Ok tt, w') →
  m ∈ messages (db w') → id m = i →
  (passes (tagged tag) (message_tags (db w')) m = true ↔ tag ∈ tags) ∧
  json_from_str (Query.tags m) = Some tags.
Proof.
  intros Hs Hup Hm Hi. unfold update_message in Hup.
  destruct (update_message_atomic i None None (Some tags) w) as (r & w1 & Hrun & w0 & Hq & _ & HR).
  unfold mbind, M_mbind in Hup. rewrite Hrun in Hup. destruct r as [n|e]; [|done].
  destruct (n =? 0); [done|]. unfold mret, M_mret in Hup. injection Hup as ->.
  destruct HR as (_ & Hmsg & _ & _ & _ & Hwf). destruct (sound_quiet _ _ Hs Hq) as [Hwf0 _].
  destruct (Hwf Hwf0) as [[Hasc _ _ _ Htags] _].
  assert (Htag : Query.tags m = json_to_string tags).
  { rewrite Hmsg in Hm. apply list_elem_of_fmap in Hm as (m0 & -> & Hm0). simpl in *.
    destruct (has_id i m0) eqn:Hb; [done|]. by apply beqb_false in Hb. }
  split; [|rewrite Htag; apply json_reads_back].
  unfold passes, tagged. simpl. rewrite orb_false_r, bool_decide_eq_true, Htags. split.
  - intros (m' & Hm' & He & Hin). assert (m' = m) as -> by (by eapply ascending_inj).
    by rewrite Htag, json_each_reads in Hin.
  - intros Hin. exists m. by rewrite Htag, json_each_reads.
Qed.

(** ** Patterns *)

Definition escape_one (c : ascii) : bytes := if bool_decide (c ∈ like_special) then ["\"%char; c] else [c].
(** The three replacements, one after the other, escape each character once. *)
Lemma escape_like_chars s : escape_like s = flat_map escape_one s.
Proof.
  unfold escape_like, escape_char. induction s as [|c s IH]; simpl; [done|]. rewrite !flat_map_app, IH.
  f_equal. clear. unfold escape_one, like_special.
  destruct (Ascii.eqb_spec c "\") as [->|H1]; [done|]. simpl. rewrite !app_nil_r.
  destruct (Ascii.eqb_spec c "%") as [->|H2]; [done|]. simpl.
  destruct (Ascii.eqb_spec c "_") as [->|H3]; [done|]. simpl.
  rewrite bool_decide_eq_false_2; [done|]. set_solver.
Qed.

Context `{!LikeLaws}.

Lemma like_escaped_text n p s :
  like (flat_map escape_one n ++ p) s = true ↔
  ∃ a b, s = a ++ b ∧ to_ascii_lowercase a = to_ascii_lowercase n ∧ like p b = true.
Proof.
  revert s. induction n as [|c n IH]; intros s; simpl.
  - split; [intros; by exists [], s|]. by intros (a & b & -> & ->%map_eq_nil & ?).
  - rewrite <- app_assoc.
    assert (Hstep : like (escape_one c ++ flat_map escape_one n ++ p) s =
      match s with d :: s => Ascii.eqb (to_lower c) (to_lower d) && like (flat_map escape_one n ++ p) s | [] => false end).
    { unfold escape_one. destruct (bool_decide_reflect (c ∈ like_special)); simpl;
        [apply like_escaped|by apply like_plain]. }
    rewrite Hstep. destruct s as [|d s].
    + split; [done|]. by intros ([|? ?] & b & ? & ? & ?).
    + rewrite andb_true_iff, Ascii.eqb_eq, IH. split.
      * intros [Hd (a & b & -> & Ha & Hb)]. exists (d :: a), b. simpl. by rewrite Hd, Ha.
      * intros ([|d' a] & b & Heq & Ha & Hb); simplify_eq/=. split; [done|]. by exists a, b.
Qed.

(** A needle of ASCII text, whatever [LIKE] characters it holds,
    matches a column exactly when the column contains it, letters compared
    without regard to case. *)
Theorem needle_is_substring `{!LowercaseLaw} needle text :
  forallb is_ascii needle = true →
  column_matches (Some text) (Some needle) = true ↔
  ∃ a b c, text = a ++ b ++ c ∧ to_ascii_lowercase b = to_ascii_lowercase needle.
Proof.
  intros Hascii. unfold column_matches, like_pattern. rewrite escape_like_chars, (lowercase_ascii _ Hascii).
  assert (Hlow : ∀ s, to_ascii_lowercase (to_ascii_lowercase s) = to_ascii_lowercase s).
  { intros s. unfold to_ascii_lowercase. rewrite map_map. apply map_ext. intros c.
    destruct c as [[] [] [] [] [] [] [] []]; reflexivity. }
  rewrite like_percent. setoid_rewrite like_escaped_text. setoid_rewrite like_percent.
  setoid_rewrite like_empty. setoid_rewrite beqb_spec. rewrite Hlow. split.
  - intros (a & b & Hab & n & c & -> & Hn & _).
    unfold to_ascii_lowercase in Hab. apply map_eq_app in Hab as (a' & b' & -> & _ & Hb').
    apply map_eq_app in Hb' as (n' & c' & -> & Hn' & _). exists a', n', c'. split; [done|].
    rewrite <- Hlow. unfold to_ascii_lowercase in *. by rewrite Hn', Hn.
  - intros (a & b & c & -> & Hb). unfold to_ascii_lowercase. rewrite !map_app.
    exists (map to_lower a), (map to_lower b ++ map to_lower c). split; [done|].
    exists (map to_lower b), (map to_lower c). split_and!; [done|transitivity (to_ascii_lowercase b); [apply Hlow|exact Hb]|].
    exists (map to_lower c), []. by rewrite app_nil_r.
Qed.
End reads.

(** ** What a search query can say *)

Definition quote : ascii := "034"%char.
Lemma decode_high lead rest n :
  decode lead rest = (true, S n) → Forall (λ c, is_ascii c = false) (lead :: take (S n) rest).
Proof.
  assert (Hc : ∀ c, is_cont c = true → is_ascii c = false).
  { intros c. unfold is_cont, is_ascii, byte_in. rewrite andb_true_iff, !N.leb_le, N.ltb_ge. lia. }
  assert (Hs : ∀ c, second_ok lead c = true → is_ascii c = false).
  { intros c. unfold second_ok. repeat case_match; auto;
      unfold is_ascii, byte_in; rewrite andb_true_iff, !N.leb_le, N.ltb_ge; lia. }
  unfold decode. destruct (is_ascii lead) eqn:Hl; [done|].
  destruct rest as [|a [|b [|c rest]]]; simpl;
    repeat (match goal with |- context [if ?x then _ else _] => destruct x eqn:? end); intros; simplify_eq/=;
    repeat constructor; auto.
Qed.
Lemma kept_chars `{Platform} fuel s c :
  c ∈ chars_lossy fuel s → fts_char c = true → quote ∉ c.
Proof.
  revert s. induction fuel as [|fuel IH]; intros [|x s]; simpl; try (by intros ?%elem_of_nil).
  destruct (decode x s) as [valid n] eqn:Hd. intros [->|Hin]%elem_of_cons Hk; [|by eapply IH].
  destruct valid; [|by apply not_elem_of_cons; split; [|apply not_elem_of_cons; split;
    [|apply not_elem_of_cons; split; [|apply not_elem_of_nil]]]].
  destruct n as [|n].
  - simpl in *. intros Hq%list_elem_of_singleton. subst x. vm_compute in Hk. discriminate Hk.
  - apply decode_high in Hd. rewrite Forall_forall in Hd. intros Hq. by apply Hd in Hq.
Qed.

(** A search query reaches the index as one quoted phrase: whatever
    the user typed, no quote inside ends the phrase early, so no operator of the
    query language gets through. *)
Theorem search_is_one_phrase `{Platform} query quoted :
  sanitize_fts_query query = Some quoted → ∃ phrase, quoted = quote :: phrase ++ [quote] ∧ quote ∉ phrase.
Proof.
  unfold sanitize_fts_query. destruct (trim _); [done|]. intros [= <-]. eexists. split; [done|].
  intros (w & Hw & Hq)%list_elem_of_In%in_concat. apply list_elem_of_In in Hw, Hq.
  apply elem_of_filter_b in Hw as [Hin Hk]. by apply (kept_chars _ _ _ Hin Hk).
Qed.
Lemma search_is_one_phrase_witness :
  ∃ phrase, quote :: b#"a OR b" ++ [quote] = quote :: phrase ++ [quote] ∧ quote ∉ phrase.
Proof.
  apply (search_is_one_phrase (b#"a" ++ [quote] ++ b#" OR b" ++ [quote] ++ b#"*")). vm_compute. reflexivity.
Defined.

(** ** Retrying *)

Lemma backoff_positive a : (0 < backoff a)%N.
Proof.
  unfold backoff, saturating_pow2, WRITE_RETRY_BASE_DELAY, U32_LIMIT.
  assert (2 ^ N.of_nat a ≠ 0)%N by (apply N.pow_nonzero; lia). lia.
Qed.
Lemma backoff_unsaturated a : a < 5 → backoff a = (WRITE_RETRY_BASE_DELAY * 2 ^ N.of_nat a)%N.
Proof. intros Ha. do 5 (destruct a as [|a]; [reflexivity|]). lia. Qed.

Section retry.
Context {A : Type} (op : DB A).
Context (Hop : ∀ w r w', op w = Some (r, w') → slept w' = slept w ∧ clock w' = clock w).

(** The waits of a retry loop that starts at [attempt]. *)
Definition waits (attempt : nat) (l : list N) : Prop :=
  attempt + length l < WRITE_ATTEMPTS ∧
  ∀ i d, l !! i = Some d → (backoff (attempt + i) ≤ d < 2 * backoff (attempt + i))%N.

Lemma retry_from_waits fuel attempt w r w' :
  attempt < WRITE_ATTEMPTS → retry_from fuel attempt op w = Some (r, w') →
  ∃ l, slept w' = slept w ++ l ∧ waits attempt l ∧
    match r with
    | Err e => is_retryable_lock e = false ∨ attempt + length l + 1 = WRITE_ATTEMPTS ∨
        Exists (λ t, in_time t = false) (clock w)
    | Ok _ => True
    end.
Proof.
  revert attempt w. induction fuel as [|fuel IH]; intros attempt w Ha; cbn [retry_from]; [done|].
  assert (Hnil : waits attempt []) by (split; [simpl; lia|done]).
  destruct (op w) as [[[a|e] w1]|] eqn:Hrun; [|apply Hop in Hrun as [Hs Hc]|done].
  { intros [= <- <-]. apply Hop in Hrun as [-> _]. exists []. by rewrite app_nil_r. }
  destruct (is_retryable_lock e) eqn:He; simpl.
  2: { intros [= <- <-]. exists []. rewrite app_nil_r. auto. }
  destruct (Nat.ltb_spec (attempt + 1) WRITE_ATTEMPTS) as [Hlt|Hge].
  2: { intros [= <- <-]. exists []. rewrite app_nil_r. split_and!; [done|done|]. right. left. simpl. lia. }
  unfold now, mbind, M_mbind. rewrite Hc. set (t := default _ (head (clock w))).
  destruct (in_time t) eqn:Ht.
  - unfold sleep, modify. intros Hrest. apply IH in Hrest as (l & Hsl & [Hl Hw] & Hr); [|lia]. simpl in Hsl.
    eexists (_ :: l). rewrite Hsl, Hs, <- app_assoc. split_and!; [done| |].
    + split; [simpl; lia|]. intros [|i] d; cbn [lookup list_lookup].
      * intros [= <-]. rewrite Nat.add_0_r. assert (Hb := backoff_positive attempt). unfold jitter.
        assert (Hj : (subsec_nanos t mod N.max 1 (backoff attempt) < N.max 1 (backoff attempt))%N)
          by (apply N.mod_lt; lia).
        revert Hj. generalize (subsec_nanos t mod N.max 1 (backoff attempt))%N. intros j Hj.
        rewrite N.max_r in Hj by lia. split; [apply N.le_add_r|lia].
      * intros Hd. replace (attempt + S i) with (attempt + 1 + i) by lia. by apply Hw.
    + destruct r as [a|e']; [done|]. simpl in *. destruct Hr as [|[|Hex]]; [by left|right; left; lia|].
      right. right. destruct (clock w); [by apply Exists_nil in Hex|by right].
  - unfold fail. intros [= <- <-]. exists []. simpl. rewrite app_nil_r. split_and!; [done|done|].
    right. right. unfold t in Ht. destruct (clock w) as [|t0 c]; [done|]. by left.
Qed.

(** A contended write is attempted at most five times, the waits
    between the attempts double from twenty milliseconds with less than as much
    again of jitter, and the loop gives up on contention only when the attempts
    or the time budget ran out. *)
Theorem retry_is_bounded w r w' :
  retry_on_lock op w = Some (r, w') →
  ∃ l, slept w' = slept w ++ l ∧ length l ≤ 4 ∧
    (∀ i d, l !! i = Some d → (20000000 * 2 ^ N.of_nat i ≤ d < 2 * (20000000 * 2 ^ N.of_nat i))%N) ∧
    (∀ e, r = Err e → is_retryable_lock e = true →
       length l = 4 ∨ Exists (λ t, in_time t = false) (clock w)).
Proof.
  intros (l & Hs & [Hl Hw] & Hr)%retry_from_waits; [|unfold WRITE_ATTEMPTS; lia].
  unfold WRITE_ATTEMPTS in *. exists l. split_and!; [done|lia| |].
  - intros i d Hd. assert (i < length l) by (by eapply lookup_lt_Some). specialize (Hw i d Hd).
    rewrite Nat.add_0_l, backoff_unsaturated in Hw by lia. done.
  - intros e -> He. rewrite He in Hr. destruct Hr as [|[|]]; [done|left; lia|by right].
Qed.
End retry.
Lemma retry_is_bounded_witness :
  let op : DB unit := fail (Database (DatabaseError (Some b#"5"))) in
  let w := set_clock [{| in_time := true; subsec_nanos := 7 |}] [] (calm empty_tables) in
  ∃ r w' l, slept w' = slept w ++ l ∧ length l ≤ 4 ∧
    (∀ i d, l !! i = Some d → (20000000 * 2 ^ N.of_nat i ≤ d < 2 * (20000000 * 2 ^ N.of_nat i))%N) ∧
    (∀ e, r = @Err _ unit e → is_retryable_lock e = true →
       length l = 4 ∨ Exists (λ t, in_time t = false) (clock w)).
Proof.
  intros op w. destruct (retry_on_lock op w) as [[r w']|] eqn:Hr; [|vm_compute in Hr; discriminate Hr].
  exists r, w'. apply (retry_is_bounded op) in Hr; [exact Hr|]. by intros ? ? ? [= <- <-].
Defined.

(** ** Witnesses *)

Import PlainZstd.

Definition stored_world : World :=
  match insert b#"a@x" [b#"b@y"] b#"hi" (calm empty_tables) with Some (_, w) => w | None => calm empty_tables end.
Definition stored_summary : MessageSummary := summary (message_record b#"0" b#"2026-01-01T00:00:00Z"
  {| p_sender := b#"a@x"; recipients_json := json_to_string [b#"b@y"]; p_subject := None; text_body := None;
     size := 2; compressed_raw := b#"hi"; has_attachments := false; Prepared.attachments := [] |}).
Lemma stored_mail_reads_back_witness :
  get_raw b#"0" stored_world = Some (Ok b#"hi", stored_world) ∧
  get_raw_prefix b#"0" 1 stored_world = Some (Ok b#"h", stored_world) ∧
  s_size stored_summary = 2%Z ∧ s_sender stored_summary = b#"a@x" ∧
  json_from_str (s_recipients stored_summary) = Some [b#"b@y"] ∧
  ∃ m, get b#"0" stored_world = Some (Ok m, stored_world) ∧ msg m = stored_summary.
Proof.
  apply (stored_mail_reads_back b#"a@x" [b#"b@y"] b#"hi" (calm empty_tables) stored_summary stored_world 1).
  - apply calm_sound, empty_wf.
  - reflexivity.
  - vm_compute. reflexivity.
Defined.

Definition two_stored : World :=
  match insert_batch [example_mail b#"one"; example_mail b#"two"] (calm empty_tables) with
  | Some (_, w) => w
  | None => calm empty_tables
  end.
Lemma two_stored_sound : sound two_stored.
Proof.
  assert (Hs : sound (calm empty_tables)) by apply calm_sound, empty_wf.
  destruct (perform_sound (InsertBatch [example_mail b#"one"; example_mail b#"two"]) _ Hs) as (r & w & Hrun & Hw).
  assert (Heq : w = two_stored); [|by rewrite <- Heq].
  unfold perform, mbind, M_mbind in Hrun. unfold two_stored.
  destruct (insert_batch _ _) as [[[?|?] ?]|]; unfold mret, M_mret in Hrun; congruence.
Qed.
(** Its messages, the newest first. *)
Definition newest : list MessageRecord := listing no_filter (db two_stored).
Definition nth_newest (n : nat) : MessageRecord :=
  nth n newest (message_record [] [] (example_mail [])).
Lemma pages_join_witness :
  cursor b#"00" two_stored = Some (Ok 2%Z, two_stored) ∧
  list_page no_filter (Before 2) 5 two_stored = Some (Ok [summary (nth_newest 1)], two_stored) ∧
  list_page no_filter (Offset 1) 5 two_stored = Some (Ok [summary (nth_newest 1)], two_stored).
Proof.
  apply (pages_join no_filter 5 two_stored [] (nth_newest 0) [nth_newest 1]).
  - apply two_stored_sound.
  - reflexivity.
  - vm_compute. reflexivity.
  - discriminate.
Defined.
Lemma search_count_agrees_witness :
  ∃ sums, search_page b#"a@x" no_filter (Offset 0) (-1) two_stored = Some (Ok sums, two_stored) ∧
    search_count_filtered b#"a@x" no_filter two_stored = Some (Ok (Z.of_nat (length sums)), two_stored).
Proof. apply search_count_agrees; [apply two_stored_sound|reflexivity]. Defined.
Definition retagged_world : World :=
  match update_message b#"00" None None (Some [b#"ci"]) two_stored with Some (_, w) => w | None => two_stored end.
Definition retagged_message : MessageRecord :=
  nth 1 (messages (db retagged_world)) (message_record [] [] (example_mail [])).
Lemma tags_filter_follows_update_witness :
  (passes (tagged b#"ci") (message_tags (db retagged_world)) retagged_message = true ↔ b#"ci" ∈ [b#"ci"]) ∧
  json_from_str (Query.tags retagged_message) = Some [b#"ci"].
Proof.
  apply (tags_filter_follows_update b#"00" [b#"ci"] two_stored).
  - apply two_stored_sound.
  - vm_compute. reflexivity.
  - vm_compute. right. left.
  - vm_compute. reflexivity.
Defined.
Lemma needle_is_substring_witness :
  column_matches (Some b#"Save 50%_now") (Some b#"50%_NOW") = true ↔
  ∃ a b c, b#"Save 50%_now" = a ++ b ++ c ∧ to_ascii_lowercase b = to_ascii_lowercase b#"50%_NOW".
Proof. apply needle_is_substring. reflexivity. Defined.
