(* ===== verification/Attachments.v ===== *)
(** Serving an attachment: what a part stored at ingest reads back as. *)
From S2P Require Import Prelude RustStd StorageError Content MailParser Locator Prepared Query Database Store Repo Tables Instances.
Import PlainZstd.
#[local] Arguments located_body : simpl never.

Section serve.
Context `{MailParser, !MailParserLaws, Zstd, !ZstdLaws}.

(** The row of a part, as a query loads it. *)
Definition stored_row (message_id a_id : bytes) (s : Z) (raw frame : bytes) (part : MessagePart) : AttachmentRow :=
  let a := attachment_record a_id s (stored_part raw part) in
  {| row := a; row_message_id := message_id; raw_size := Z.of_nat (length raw);
     row_compressed_raw := match raw_offset a with None => None | Some _ => Some frame end |}.

Lemma located_body_spec raw o l :
  (Z.of_nat (length raw) ≤ U64_MAX)%Z → o + l ≤ length raw →
  located_body raw (Some (Z.of_nat o)) (Some (Z.of_nat l)) = get_range o (o + l) raw.
Proof.
  intros Hmax Hle. unfold located_body.
  rewrite (proj2 (Z.leb_le 0 _)), (proj2 (Z.leb_le 0 _)), (proj2 (Z.leb_le _ U64_MAX)) by lia.
  simpl. by rewrite Nat2Z.id, <- Nat2Z.inj_add, Nat2Z.id.
Qed.

(** The slice of a located base64 part. *)
Lemma located_base64 raw part l s :
  (0 ≤ offset_body part)%Z → encoding part = EncBase64 → locate raw part = Some l →
  get_range (offset l) (offset l + len l) raw = Some s →
  is_encoding_problem part = false ∧ (offset_body part ≤ offset_end part ≤ Z.of_nat (length raw))%Z ∧
  s = slice (Z.to_nat (offset_body part)) (Z.to_nat (offset_end part)) raw.
Proof.
  intros Hpos Henc Hl Hs. unfold locate in Hl. rewrite Henc in Hl.
  destruct (is_binary_or_message _), (part_content_type part), (is_encoding_problem part); try done. simpl in Hl.
  assert (Hrange : body_range part Base64 =
    if (offset_body part <=? offset_end part)%Z then Some (Z.to_nat (offset_body part), Z.to_nat (offset_end part)) else None)
    by (unfold body_range; by destruct (body part)).
  rewrite Hrange in Hl. destruct (Z.leb_spec (offset_body part) (offset_end part)) as [Hle|]; [|done]. cbn [mbind option_bind] in Hl.
  destruct (get_range _ _ raw) as [s'|] eqn:Hs'; [|done]. cbn [mbind option_bind] in Hl. case_bool_decide; [|done]. injection Hl as <-. cbn [offset len] in Hs.
  apply get_range_spec in Hs' as [[Hle1 Hle2] _].
  replace (Z.to_nat (offset_body part) + (Z.to_nat (offset_end part) - Z.to_nat (offset_body part))) with (Z.to_nat (offset_end part)) in Hs by lia.
  apply get_range_spec in Hs as [_ ->]. split_and!; [done|lia|lia|done].
Qed.
(** What a located part's slice decodes to is what the parser made of it. *)
Lemma located_decodes raw msg part l :
  parse_message raw = Some msg → part ∈ parts msg → part_contents part ≠ [] → locate raw part = Some l →
  ∃ s, get_range (offset l) (offset l + len l) raw = Some s ∧ decode_body (loc_encoding l) s = Some (part_contents part).
Proof.
  intros Hmsg Hpart Hne Hl. destruct (locate_spec _ _ _ Hl) as (s & Hs & He & Hd). exists s. split; [done|].
  destruct (loc_encoding l) eqn:Henc; [done|done|].
  assert (Hb : encoding part = EncBase64) by (by destruct (encoding part)).
  destruct (located_base64 raw part l s) as (Hok & Hrange & ->); [by eapply offsets_unsigned|done..|].
  apply predicted_base64_len_spec in Hd as [Hclean Hlen].
  destruct (base64_decodes _ Hclean) as (d & Hdec & Hd). simpl. rewrite Hdec. f_equal.
  assert (Hbody : body part ≠ PtMessage None) by (intros Hn; unfold part_contents in Hne; by rewrite Hn in Hne).
  assert (Hc : part_contents part = contents part) by (unfold part_contents; by destruct (body part) as [| | | |[]|]).
  rewrite Hc in *. eapply base64_in_step; try done. by rewrite Hd.
Qed.
Lemma stored_part_listed msg part : part ∈ stored_part_refs msg → part ∈ parts msg ∧ part_contents part ≠ [].
Proof.
  unfold stored_part_refs. intros ((idx & part') & -> & Hin)%list_elem_of_fmap. apply elem_of_filter_b in Hin as [Hin Hst].
  apply elem_of_lookup_imap in Hin as (i & x & [= -> ->] & Hx). split; [by eapply list_elem_of_lookup_2|].
  unfold is_stored_part in Hst. apply andb_true_iff in Hst as [_ Hst]. simpl in *. by destruct (part_contents x).
Qed.

(** C26: roundtrip. Every attachment that a message is stored with is served as the
    parser decoded it, byte for byte and under its name and type, whether it was
    kept inline or only located in the message, in any of its encodings: base64 too,
    whose bytes the code does not compare, only their length. *)
Theorem attachment_served message_id a_id s raw frame msg part :
  compress raw = Ok frame → (Z.of_nat (length raw) ≤ U64_MAX)%Z →
  parse_message raw = Some msg → part ∈ stored_part_refs msg →
  into_attachment (stored_row message_id a_id s raw frame part) =
    Ok {| att := {| as_id := a_id; as_message_id := message_id; as_filename := attachment_name part;
                    as_content_type := mime_type <$> part_content_type part; as_content_id := part_content_id part;
                    as_size := Some (Z.of_nat (length (part_contents part))) |};
          att_content := part_contents part |}.
Proof.
  intros Hc Hmax Hmsg [Hpart Hne]%stored_part_listed. unfold into_attachment, stored_row. cbn [row row_compressed_raw raw_size row_message_id].
  unfold attachment_record, stored_part. cbn [storage att_size raw_offset a_content transfer_encoding raw_len a_size].
  destruct (locate raw part) as [l|] eqn:Hl; simpl; [|done].
  rewrite (decompress_compress _ _ _ Hc). simpl. rewrite from_code_code. simpl.
  destruct (located_decodes raw msg part l) as (slice & Hs & Hd); [done..|].
  assert (Hr := Hs). apply get_range_spec in Hr as [[_ Hle] _].
  rewrite located_body_spec, Hs by done. simpl. by rewrite Hd, bool_decide_eq_true_2 by done.
Qed.
End serve.

(** ** A parser of one base64 part *)

Definition char_value (c : ascii) : N := default 0%N (N.of_nat <$> find c BASE64_ALPHABET).
Definition low_byte (n : N) : ascii := ascii_of_N (n mod 256).
(** [bits] of so many characters that wait for the rest of their four. *)
Fixpoint decode64 (bits : N) (pending : nat) (s : bytes) : option bytes :=
  match s with
  | [] => Some []
  | c :: s =>
    if is_base64 c then
      let bits := (bits * 64 + char_value c)%N in
      if pending =? 3 then app [low_byte (bits / 65536); low_byte (bits / 256); low_byte bits] <$> decode64 0 0 s
      else decode64 bits (S pending) s
    else if Ascii.eqb c "=" then
      app (match pending with
           | 1 => [low_byte (bits * 4)]
           | 2 => [low_byte (bits / 16)]
           | 3 => [low_byte (bits / 1024); low_byte (bits / 4)]
           | _ => []
           end) <$> decode64 0 0 s
    else if is_base64_gap c then decode64 bits pending s
    else None
  end.
Lemma decode64_length bits p d s n : p < 4 → predicted_base64_len_from d p s = Some n →
  ∃ o, decode64 bits p s = Some o ∧ n = d + length o.
Proof.
  revert bits p d. induction s as [|c s IH]; intros bits p d Hp Hs.
  { exists []. simpl in *. split; [done|]. injection Hs as <-. lia. }
  destruct (is_base64 c) eqn:Hc.
  - rewrite predicted_char in Hs by done. cbn [decode64]. rewrite Hc. destruct (Nat.eqb_spec p 3) as [->|Hne].
    + destruct (IH 0%N 0 (d + 3) ltac:(lia) Hs) as (o & -> & ->). eexists. split; [done|]. simpl. lia.
    + by apply IH; [lia|].
  - cbn [predicted_base64_len_from decode64] in *. rewrite Hc in Hs |- *. destruct (Ascii.eqb c "=").
    + destruct (IH 0%N 0 _ ltac:(lia) Hs) as (o & -> & ->). eexists. split; [done|]. rewrite length_app.
      destruct p as [|[|[|[|]]]]; simpl; lia.
    + destruct (is_base64_gap c); [by apply IH|done].
Qed.

Definition whole_part (raw : bytes) : MessagePart :=
  {| body := PtBinary; part_content_type := Some {| ctype := b#"image"; subtype := Some b#"png" |};
     part_content_id := None; attachment_name := Some b#"a.png"; is_encoding_problem := false;
     encoding := EncBase64; offset_body := 0; offset_end := Z.of_nat (length raw);
     contents := default [] (decode64 0 0 raw) |}.
Definition whole_message (raw : bytes) : ParsedMessage :=
  {| subject := None; body_text := None; body_html := None; attachment_ids := [0]; parts := [whole_part raw] |}.
#[local] Instance one_part : MailParser :=
  {| parse_message raw := Some (whole_message raw); quoted_printable_decode s := Some s; base64_decode := decode64 0 0 |}.
#[local] Instance one_part_laws : MailParserLaws.
Proof.
  split.
  - intros s Hs. destruct (decode64_length 0 0 0 s (base64_len s)) as (o & Ho & Hlen); [lia|by apply predicted_base64_len_spec|].
    by exists o.
  - intros raw msg part [= <-] ->%list_elem_of_singleton. done.
  - intros raw msg part d [= <-] ->%list_elem_of_singleton _ _ _ _ s _ Hd _. unfold s, slice in Hd. cbn in Hd.
    rewrite Nat2Z.id, Nat.sub_0_r, drop_0, take_ge in Hd by done. cbn. by rewrite Hd.
Qed.

(** Broken into lines, it is located, and served decoded. *)
Definition wrapped_text : bytes := b#"aGVs" ++ crlf ++ b#"bG8=" ++ crlf.
Example wrapped_located : locate wrapped_text (whole_part wrapped_text) = Some {| offset := 0; len := 12; loc_encoding := Base64 |}.
Proof. vm_compute. reflexivity. Qed.
Lemma attachment_served_witness :
  into_attachment (stored_row b#"m" b#"a" 1 wrapped_text wrapped_text (whole_part wrapped_text)) =
    Ok {| att := {| as_id := b#"a"; as_message_id := b#"m"; as_filename := Some b#"a.png"; as_content_type := Some b#"image/png";
                    as_content_id := None; as_size := Some 5%Z |};
          att_content := b#"hello" |}.
Proof.
  apply (attachment_served b#"m" b#"a" 1 wrapped_text wrapped_text (whole_message wrapped_text) (whole_part wrapped_text)).
  - reflexivity.
  - vm_compute. discriminate.
  - reflexivity.
  - left.
Defined.
