(* ===== verification/Reclaim.v ===== *)
(** Giving freed pages back to the filesystem:
    [crates/rustmail-storage/src/reclaim.rs]. *)
From S2P Require Import Prelude RustStd StorageError.

Definition RETENTION_MIN_FREE_BYTES : Z := 64 * 1024 * 1024.
Definition RETENTION_MIN_FREE_PERCENT : Z := 25.
Definition PERCENT : Z := 100.

Record PageStats := { page_size : Z; page_count : Z; freelist_count : Z }.
Definition saturating_mul (a b : Z) : Z := sat_i64 (a * b).
Definition free_bytes (s : PageStats) : Z := saturating_mul (freelist_count s) (page_size s).
Definition file_bytes (s : PageStats) : Z := saturating_mul (page_count s) (page_size s).
Definition warrants_retention_reclaim (s : PageStats) : bool :=
  let free := free_bytes s in
  let past_share_of_file :=
    (saturating_mul (file_bytes s) RETENTION_MIN_FREE_PERCENT <? saturating_mul free PERCENT)%Z in
  (RETENTION_MIN_FREE_BYTES <? free)%Z && past_share_of_file.

(** What the database answers the [n]th time round: whether the deadline is
    still ahead, and the freelist a vacuum step leaves or its error. *)
Record round := { before_deadline : bool; step : result StorageError Z }.

(** The loop of [reclaim]: the freelist it leaves and the steps it ran. *)
Fixpoint release (fuel n : nat) (rounds : nat → round) (free_pages : Z) : option (result StorageError (Z * nat)) :=
  match fuel with
  | 0 => None
  | S fuel =>
    if (0 <? free_pages)%Z && before_deadline (rounds n) then
      match step (rounds n) with
      | Err e => Some (Err e)
      | Ok remaining =>
        if (remaining <? free_pages)%Z then release fuel (S n) rounds remaining
        else Some (Ok (remaining, S n))
      end
    else Some (Ok (free_pages, n))
  end.

(** [checkpoint_truncate]: contention is reported, not an error. *)
Definition checkpoint_truncate (answer : result StorageError Z) : result StorageError bool :=
  match answer with
  | Ok busy => Ok (negb (busy =? 0)%Z)
  | Err e => if is_retryable_lock e then Ok true else Err e
  end.

(** [reclaim]: the pages freed and whether readers held up the checkpoint. *)
Definition reclaim (before : PageStats) (rounds : nat → round) (checkpoint : result StorageError Z)
    : option (result StorageError (Z * bool)) :=
  match release (S (Z.to_nat (freelist_count before))) 0 rounds (freelist_count before) with
  | None => None
  | Some (Err e) => Some (Err e)
  | Some (Ok (free_pages, _)) =>
    Some (busy ← checkpoint_truncate checkpoint;
          mret (Z.max 0 (sat_i64 (freelist_count before - free_pages)), busy))
  end.

Lemma release_terminates fuel n rounds free : Z.to_nat free < fuel →
  ∃ r, release fuel n rounds free = Some r ∧
    match r with
    | Ok (_, steps) => n ≤ steps ≤ n + Z.to_nat free
    | Err _ => True
    end.
Proof.
  revert n free. induction fuel as [|fuel IH]; intros n free Hf; [lia|]. cbn [release].
  destruct (Z.ltb_spec 0 free) as [Hpos|]; simpl; [|eexists; split; [done|]; simpl; lia].
  destruct (before_deadline (rounds n)); [|eexists; split; [done|]; simpl; lia].
  destruct (step (rounds n)) as [k|e]; [|by eexists].
  destruct (Z.ltb_spec k free); [|eexists; split; [done|]; simpl; lia].
  destruct (IH (S n) k) as (r & Hr & Hb); [lia|]. exists r. split; [done|].
  destruct r as [[l s]|]; [|done]. lia.
Qed.

(** The loop that releases pages stops whatever the database
    answers: it runs at most one step per page that was free, since a step that
    frees nothing is the last. *)
Theorem reclaim_terminates before rounds checkpoint :
  ∃ r, reclaim before rounds checkpoint = Some r ∧
    ∀ remaining steps,
      release (S (Z.to_nat (freelist_count before))) 0 rounds (freelist_count before) = Some (Ok (remaining, steps)) →
      steps ≤ Z.to_nat (freelist_count before).
Proof.
  destruct (release_terminates (S (Z.to_nat (freelist_count before))) 0 rounds (freelist_count before))
    as (r & Hr & Hb); [lia|].
  unfold reclaim. rewrite Hr. destruct r as [[l s]|e]; eexists; (split; [done|]); intros; simplify_eq; lia.
Qed.

(** Within the limits SQLite documents for a file, no product
    saturates: a retention sweep is followed by a reclaim exactly when the free
    pages are over 64 MiB and over a quarter of the file. *)
Theorem warrants_exact s :
  (512 ≤ page_size s ≤ 65536)%Z → (0 ≤ freelist_count s ≤ page_count s)%Z → (page_count s ≤ 4294967294)%Z →
  warrants_retention_reclaim s = true ↔
  (67108864 < freelist_count s * page_size s ∧ page_count s < 4 * freelist_count s)%Z.
Proof.
  intros Hp Hf Hc. unfold warrants_retention_reclaim, free_bytes, file_bytes, saturating_mul.
  assert (Hfree : (0 ≤ freelist_count s * page_size s ≤ 4294967294 * 65536)%Z) by nia.
  assert (Hfile : (0 ≤ page_count s * page_size s ≤ 4294967294 * 65536)%Z) by nia.
  assert (Hid : ∀ z, (0 ≤ z ≤ 100 * (4294967294 * 65536))%Z → sat_i64 z = z).
  { intros z Hz. apply sat_i64_id. unfold in_i64, I64_MIN, I64_MAX. lia. }
  unfold PERCENT, RETENTION_MIN_FREE_PERCENT, RETENTION_MIN_FREE_BYTES. rewrite !Hid by (rewrite ?Hid; lia).
  rewrite andb_true_iff, !Z.ltb_lt. split; intros [? ?]; split; try lia; nia.
Qed.
Lemma warrants_exact_witness :
  let s := {| page_size := 4096; page_count := 40000; freelist_count := 20000 |} in
  warrants_retention_reclaim s = true ↔
  (67108864 < freelist_count s * page_size s ∧ page_count s < 4 * freelist_count s)%Z.
Proof. apply warrants_exact; simpl; lia. Defined.
