(* ===== verification/Schema.v ===== *)
(** Opening a database file: the schema check and creation of
    [crates/rustmail-storage/src/schema.rs]. *)
From S2P Require Import Prelude RustStd StorageError.

Definition SCHEMA_VERSION : Z := 2.
Definition PREVIOUS_SCHEMA_VERSION : Z := 1.
Definition LEGACY_SCHEMA_VERSION : Z := 0.

(** What the check reads of a file: [user_version], the tables and views that are
    not SQLite's own, and the columns that tell the old schemas apart. *)
Record File := {
  user_version : Z;
  file_tables : list bytes;
  messages_has_raw : bool;
  content_has_text_body : bool;
  wal : bool;
}.

Inductive FileSchema := EmptyFile | Legacy | Previous | Current.
#[export] Instance FileSchema_eq_dec : EqDecision FileSchema.
Proof. solve_decision. Defined.

Definition probe (f : File) : result StorageError FileSchema :=
  let found := user_version f in
  if (found =? SCHEMA_VERSION)%Z then Ok Current
  else if (SCHEMA_VERSION <? found)%Z then Err (NewerSchema found SCHEMA_VERSION)
  else if (found =? LEGACY_SCHEMA_VERSION)%Z && match file_tables f with [] => true | _ => false end
    then Ok EmptyFile
  else if (found =? LEGACY_SCHEMA_VERSION)%Z && messages_has_raw f then Ok Legacy
  else if (found =? PREVIOUS_SCHEMA_VERSION)%Z && content_has_text_body f then Ok Previous
  else Err (UnrecognizedSchema found (file_tables f)).

Inductive Layout := LayoutEmpty | LayoutCurrent.
Definition inspect_layout (f : File) : result StorageError Layout :=
  schema ← probe f;
  match schema with
  | EmptyFile => Ok LayoutEmpty
  | Current => Ok LayoutCurrent
  | Legacy | Previous => Err (LegacySchema (user_version f) SCHEMA_VERSION)
  end.

(** The file [SCHEMA_DDL] and the version stamp leave. *)
Definition schema_2_tables : list bytes :=
  [b#"attachments"; b#"message_content"; b#"message_tags"; b#"messages"; b#"messages_fts"].
Definition created (f : File) : File :=
  {| user_version := SCHEMA_VERSION; file_tables := schema_2_tables; messages_has_raw := false;
     content_has_text_body := false; wal := wal f |}.

(** The statements of the schema, one after the other in their transaction; any
    of them may fail, and then the transaction rolls back. [failing] is the
    first that does. *)
Definition create_schema (failing : option sqlx_error) (f : File) : result StorageError unit * File :=
  match inspect_layout f with
  | Err e => (Err e, f)
  | Ok LayoutCurrent => (Ok tt, f)
  | Ok LayoutEmpty =>
    match failing with Some e => (Err (Database e), f) | None => (Ok tt, created f) end
  end.

(** [initialize_database]; between the check and the lock another process may
    have changed the file, as [rival] says. *)
Definition initialize_database (failing : option sqlx_error) (rival : File → File) (f : File)
    : result StorageError unit * File :=
  let go_wal (p : result StorageError unit * File) :=
    match p with
    | (Ok _, f) =>
      (Ok tt, {| user_version := user_version f; file_tables := file_tables f;
                 messages_has_raw := messages_has_raw f;
                 content_has_text_body := content_has_text_body f; wal := true |})
    | p => p
    end in
  match inspect_layout f with
  | Err e => (Err e, f)
  | Ok LayoutCurrent => go_wal (Ok tt, f)
  | Ok LayoutEmpty => go_wal (create_schema failing (rival f))
  end.

(** Which file is opened, created or refused, and how: the table
    of the source, row by row. *)
Theorem inspect_layout_table f :
  inspect_layout f =
    match decide (user_version f = 2%Z), decide (2 < user_version f)%Z, decide (user_version f = 0%Z),
          decide (user_version f = 1%Z) with
    | left _, _, _, _ => Ok LayoutCurrent
    | _, left _, _, _ => Err (NewerSchema (user_version f) 2)
    | _, _, left _, _ =>
      if decide (file_tables f = []) then Ok LayoutEmpty
      else if messages_has_raw f then Err (LegacySchema 0 2) else Err (UnrecognizedSchema 0 (file_tables f))
    | _, _, _, left _ =>
      if content_has_text_body f then Err (LegacySchema 1 2) else Err (UnrecognizedSchema 1 (file_tables f))
    | _, _, _, _ => Err (UnrecognizedSchema (user_version f) (file_tables f))
    end.
Proof.
  unfold inspect_layout, probe, SCHEMA_VERSION, LEGACY_SCHEMA_VERSION, PREVIOUS_SCHEMA_VERSION.
  destruct f as [v tables raw text w]. simpl.
  destruct (decide (v = 2%Z)) as [->|H2]; [done|].
  rewrite (proj2 (Z.eqb_neq v 2)) by done.
  destruct (decide (2 < v)%Z) as [Hlt|Hge]; [by rewrite (proj2 (Z.ltb_lt 2 v))|].
  rewrite (proj2 (Z.ltb_ge 2 v)) by lia.
  destruct (decide (v = 0%Z)) as [->|H0]; simpl; [destruct tables, raw; done|].
  rewrite (proj2 (Z.eqb_neq v 0)) by done. simpl.
  destruct (decide (v = 1%Z)) as [->|H1]; simpl; [by destruct text|].
  by rewrite (proj2 (Z.eqb_neq v 1)).
Qed.

(** Opening never half-creates a schema and never writes to a file it
    refuses: whatever fails and whatever another process does meanwhile, a file
    is opened at the current schema or left exactly as that process left it. *)
Theorem initialize_is_safe failing rival f :
  let '(r, f') := initialize_database failing rival f in
  match r with
  | Ok _ => user_version f' = SCHEMA_VERSION ∧ wal f' = true ∧
      (user_version f = SCHEMA_VERSION → file_tables f' = file_tables f)
  | Err e => f' = f ∨ f' = rival f
  end.
Proof.
  unfold initialize_database, create_schema.
  assert (Hcur : ∀ g, inspect_layout g = Ok LayoutCurrent → user_version g = SCHEMA_VERSION).
  { intros g. unfold inspect_layout, probe. destruct (Z.eqb_spec (user_version g) SCHEMA_VERSION); [done|].
    destruct (_ <? _)%Z; [done|]. by repeat (destruct (_ && _); [done|]). }
  assert (Hemp : ∀ g, inspect_layout g = Ok LayoutEmpty → user_version g ≠ SCHEMA_VERSION).
  { intros g. unfold inspect_layout, probe.
    by destruct (Z.eqb_spec (user_version g) SCHEMA_VERSION). }
  destruct (inspect_layout f) as [[]|e] eqn:Hf; simpl; [| |by left].
  - apply Hemp in Hf. destruct (inspect_layout (rival f)) as [[]|e] eqn:Hr; simpl; [| |by right].
    + destruct failing; simpl; [by right|]. split_and!; [done|done|]. intros. congruence.
    + split_and!; [by apply Hcur|done|]. intros. congruence.
  - split_and!; [by apply Hcur|done|done].
Qed.
