(* ===== verification/OldDb.v ===== *)
(** The database files a migration reads and writes, the older schemas' rows as
    [crates/rustmail-storage/src/migrate/fingerprint.rs] and [migrate/build.rs]
    read them. *)
From S2P Require Import Prelude RustStd StorageError Prepared Query Database.
From S2P Require Schema.

(** ** Schema 0: rustmail 0.7 and earlier *)

(** A row of its [messages]; a file older than the columns [is_starred] and
    [tags] holds nothing in them. *)
Record LegacyRow := {
  rowid : Z;
  l_id : bytes;
  l_sender : bytes;
  l_recipients : bytes;
  l_subject : option bytes;
  l_text_body : option bytes;
  l_raw : bytes;
  l_has_attachments : bool;
  l_is_read : bool;
  l_is_starred : bool;
  l_tags : bytes;
  l_created_at : bytes;
}.
#[export] Instance eta_LegacyRow : Eta LegacyRow := λ m,
  {| rowid := rowid m; l_id := l_id m; l_sender := l_sender m; l_recipients := l_recipients m;
     l_subject := l_subject m; l_text_body := l_text_body m; l_raw := l_raw m;
     l_has_attachments := l_has_attachments m; l_is_read := l_is_read m; l_is_starred := l_is_starred m;
     l_tags := l_tags m; l_created_at := l_created_at m |}.

(** The columns an attachment keeps unchanged. *)
Record AttachmentMeta := {
  am_id : bytes;
  am_filename : option bytes;
  am_content_type : option bytes;
  am_content_id : option bytes;
  am_size : option Z;
}.
Record LegacyAttachmentRow := { la_rowid : Z; la_message_id : bytes; la_meta : AttachmentMeta; la_content : bytes }.

Record LegacyColumns := { has_is_starred : bool; has_tags : bool; has_attachments_table : bool }.
(** Rows are in the order of their rowids. *)
Record LegacyDb := {
  columns : LegacyColumns;
  l_messages : list LegacyRow;
  l_attachments : list LegacyAttachmentRow;
}.
#[export] Instance eta_LegacyDb : Eta LegacyDb := λ d,
  {| columns := columns d; l_messages := l_messages d; l_attachments := l_attachments d |}.

(** [is_starred] and [tags] as the SQL of [LegacyColumns] selects them. *)
Definition starred_of (c : LegacyColumns) (m : LegacyRow) : bool := has_is_starred c && l_is_starred m.
Definition tags_of (c : LegacyColumns) (m : LegacyRow) : bytes := if has_tags c then l_tags m else b#"[]".

(** ** Schema 1: rustmail 0.8 and 0.9 *)

(** The rows of [messages] and [attachments] are those of the current schema. *)
Record ContentRow := { c_text_body : option bytes; c_html_body : option bytes; c_raw : bytes }.
Record PreviousDb := {
  p_messages : list MessageRecord;
  p_content : gmap Z ContentRow;
  p_attachments : list (Z * AttachmentRecord);
  p_tags : gset (bytes * Z);
}.

(** ** Files *)

(** The row of [migration_origin]; a copy of rustmail 0.8 or 0.9 has no columns for
    the schemas. *)
Record OriginRow := {
  source_fingerprint : bytes;
  o_last_source_seq : Z;
  attachment_mismatches : Z;
  completed_at : option bytes;
  schemas : option (Z * Z);
}.
#[export] Instance eta_OriginRow : Eta OriginRow := λ o,
  {| source_fingerprint := source_fingerprint o; o_last_source_seq := o_last_source_seq o;
     attachment_mismatches := attachment_mismatches o; completed_at := completed_at o; schemas := schemas o |}.

Inductive Contents :=
| NoTables
| Schema0 (d : LegacyDb)
| Schema1 (d : PreviousDb)
| Schema2 (t : Tables)
| ForeignTables (names : list bytes).

(** A database file: its [user_version] and what its tables hold, its permission
    bits and whether [PRAGMA quick_check] finds it intact. *)
Record DbFile := {
  user_version : Z;
  contents : Contents;
  origin_row : option OriginRow;
  mode : Z;
  intact : bool;
}.
#[export] Instance eta_DbFile : Eta DbFile := λ f,
  {| user_version := user_version f; contents := contents f; origin_row := origin_row f; mode := mode f;
     intact := intact f |}.
Definition empty_file (bits : Z) : DbFile :=
  {| user_version := 0; contents := NoTables; origin_row := None; mode := bits; intact := true |}.

Definition LEGACY_TABLES : list bytes := [b#"attachments"; b#"messages"; b#"messages_fts"].
(** What the schema check reads of a file. *)
Definition probed (f : DbFile) : Schema.File :=
  {| Schema.user_version := user_version f;
     Schema.file_tables :=
       match contents f with
       | NoTables => []
       | Schema0 _ => LEGACY_TABLES
       | Schema1 _ => Schema.schema_2_tables ++ [b#"messages_fts_source"]
       | Schema2 _ => Schema.schema_2_tables
       | ForeignTables names => names
       end ++ match origin_row f with Some _ => [b#"migration_origin"] | None => [] end;
     Schema.messages_has_raw := match contents f with Schema0 _ => true | _ => false end;
     Schema.content_has_text_body := match contents f with Schema1 _ => true | _ => false end;
     Schema.wal := true |}.
Definition probe (f : DbFile) : result StorageError Schema.FileSchema := Schema.probe (probed f).

(** A query names a table or a column the file does not have. *)
Definition NO_SUCH_TABLE : StorageError := Database (DatabaseError (Some b#"1")).

(** ** The origin of a copy *)

Record Origin := {
  o_fingerprint : bytes;
  last_source_seq : Z;
  source_schema : Z;
  target_schema : Z;
}.
#[export] Instance Origin_eq_dec : EqDecision Origin.
Proof. solve_decision. Defined.
Definition ORIGIN_DEFAULT_SOURCE_SCHEMA : Z := 0.
Definition ORIGIN_DEFAULT_TARGET_SCHEMA : Z := 1.
Definition read_origin (f : DbFile) : option Origin :=
  (λ row, let '(source, target) :=
     default (ORIGIN_DEFAULT_SOURCE_SCHEMA, ORIGIN_DEFAULT_TARGET_SCHEMA) (schemas row) in
   {| o_fingerprint := source_fingerprint row; last_source_seq := o_last_source_seq row;
      source_schema := source; target_schema := target |}) <$> origin_row f.

Definition qualified_fingerprint (fingerprint : bytes) (target_schema : Z) : bytes :=
  b#"schema" ++ display_Z target_schema ++ b#":" ++ fingerprint.
Definition made_from (o : Origin) (fingerprint : bytes) : bool :=
  beqb (o_fingerprint o) fingerprint
  || beqb (o_fingerprint o) (qualified_fingerprint fingerprint (target_schema o)).
Definition qualify_origin (fingerprint : bytes) (f : DbFile) : DbFile :=
  match origin_row f with
  | Some row =>
    if beqb (source_fingerprint row) fingerprint
    then f <| origin_row := Some (row <| source_fingerprint := qualified_fingerprint fingerprint Schema.SCHEMA_VERSION |>) |>
    else f
  | None => f
  end.
