(* ===== verification/Fingerprint.v ===== *)
(** Identifying an older database by its rows:
    [crates/rustmail-storage/src/migrate/fingerprint.rs]. *)
From S2P Require Import Prelude RustStd StorageError Prepared Query Database OldDb.
From S2P Require Schema.

Definition FINGERPRINT_PAGE_ROWS : nat := 10000.
Lemma page_rows_positive : 0 < FINGERPRINT_PAGE_ROWS.
Proof. apply Nat.ltb_lt. vm_compute. reflexivity. Qed.
#[global] Opaque FINGERPRINT_PAGE_ROWS.
Definition FNV_OFFSET_BASIS : Z := 0xcbf29ce484222325.
Definition FNV_PRIME : Z := 0x100000001b3.
Definition NULL_MARKER : ascii := "000"%char.
Definition VALUE_MARKER : ascii := "001"%char.

(** ** FNV-1a over a stream of typed fields *)

(** The state is a [u64]. *)
Definition Fnv1a : Type := Z.
Definition fnv_new : Fnv1a := FNV_OFFSET_BASIS.
Definition fnv_byte (h : Fnv1a) (byte : ascii) : Fnv1a :=
  wrap_u64 (Z.lxor h (Z.of_N (byte_val byte)) * FNV_PRIME).
Definition fnv_bytes (h : Fnv1a) (bs : bytes) : Fnv1a := fold_left fnv_byte bs h.

(** The low [n] bytes of a two's complement integer, the lowest first. *)
Fixpoint le_bytes (n : nat) (z : Z) : bytes :=
  match n with
  | 0 => []
  | S n => ascii_of_N (Z.to_N (z mod 256)) :: le_bytes n (z / 256)
  end.
(** [i64::to_le_bytes]. *)
Definition to_le_bytes : Z → bytes := le_bytes 8.
(** [i64::try_from(len).unwrap_or(i64::MAX)] of a length. *)
Definition len_i64 (n : nat) : Z := Z.min I64_MAX (Z.of_nat n).

Definition fnv_int (h : Fnv1a) (value : Z) : Fnv1a := fnv_bytes h (to_le_bytes value).
Definition fnv_text (h : Fnv1a) (value : option bytes) : Fnv1a :=
  match value with
  | Some text => fnv_bytes (fnv_int (fnv_bytes h [VALUE_MARKER]) (len_i64 (length text))) text
  | None => fnv_bytes h [NULL_MARKER]
  end.
Definition fnv_opt_int (h : Fnv1a) (value : option Z) : Fnv1a :=
  match value with
  | Some value => fnv_int (fnv_bytes h [VALUE_MARKER]) value
  | None => fnv_bytes h [NULL_MARKER]
  end.

(** [format!("{:016x}")] of a [u64]. *)
Definition hex_u64 (h : Z) : bytes := concat (map hex_byte (rev (to_le_bytes h))).

(** ** How an older file is read *)

Module SourceSchema.
Inductive t := Legacy | Previous.
#[global] Instance t_eq_dec : EqDecision t.
Proof. solve_decision. Defined.
Definition version (s : t) : Z :=
  match s with Legacy => 0 | Previous => Schema.PREVIOUS_SCHEMA_VERSION end.
Definition from_version (v : Z) : option t :=
  head (List.filter (λ s, (version s =? v)%Z) [Legacy; Previous]).
End SourceSchema.

Module SourceLayout.
Inductive t := Legacy (c : LegacyColumns) | Previous.
End SourceLayout.

(** The columns of [messages] and the table [attachments], looked up in the file's
    own schema. *)
Definition columns_probe (c : Contents) : LegacyColumns :=
  match c with
  | Schema0 d => columns d
  | Schema1 _ | Schema2 _ => {| has_is_starred := true; has_tags := true; has_attachments_table := true |}
  | NoTables => {| has_is_starred := false; has_tags := false; has_attachments_table := false |}
  | ForeignTables names =>
    {| has_is_starred := false; has_tags := false;
       has_attachments_table := bool_decide (b#"attachments" ∈ names) |}
  end.
Definition layout_probe (c : Contents) (source : SourceSchema.t) : SourceLayout.t :=
  match source with
  | SourceSchema.Legacy => SourceLayout.Legacy (columns_probe c)
  | SourceSchema.Previous => SourceLayout.Previous
  end.

(** ** The rows that are hashed *)

Record MessageKey := {
  k_seq : Z; k_id : option bytes; k_is_read : option Z; k_is_starred : option Z; k_tags : option bytes;
  k_raw_len : option Z;
}.
Record AttachmentKey := {
  ak_rowid : Z; ak_id : option bytes; ak_parent : option bytes; ak_content_len : option Z;
}.

Definition legacy_key (c : LegacyColumns) (m : LegacyRow) : MessageKey :=
  {| k_seq := rowid m; k_id := Some (l_id m); k_is_read := Some (Z.b2z (l_is_read m));
     k_is_starred := Some (Z.b2z (starred_of c m)); k_tags := Some (tags_of c m);
     k_raw_len := Some (Z.of_nat (length (l_raw m))) |}.
Definition record_key (m : MessageRecord) : MessageKey :=
  {| k_seq := seq m; k_id := Some (id m); k_is_read := Some (Z.b2z (is_read m));
     k_is_starred := Some (Z.b2z (is_starred m)); k_tags := Some (tags m); k_raw_len := Some (m_size m) |}.
(** [message_page] before its [WHERE] and its [LIMIT]. *)
Definition message_keys (layout : SourceLayout.t) (c : Contents) : result StorageError (list MessageKey) :=
  match layout, c with
  | SourceLayout.Legacy cols, Schema0 d => Ok (map (legacy_key cols) (l_messages d))
  | SourceLayout.Previous, Schema1 d => Ok (map record_key (p_messages d))
  | SourceLayout.Previous, Schema2 t => Ok (map record_key (messages t))
  | _, _ => Err NO_SUCH_TABLE
  end.

Definition legacy_attachment_key (a : LegacyAttachmentRow) : AttachmentKey :=
  {| ak_rowid := la_rowid a; ak_id := Some (am_id (la_meta a)); ak_parent := Some (la_message_id a);
     ak_content_len := Some (Z.of_nat (length (la_content a))) |}.
Definition record_attachment_key (n : Z) (a : AttachmentRecord) : AttachmentKey :=
  {| ak_rowid := n; ak_id := Some (a_id a); ak_parent := Some (display_Z (message_seq a));
     ak_content_len := Z.of_nat ∘ length <$> a_content a |}.
(** [attachment_page]; the rows of the current schema are numbered by their place. *)
Definition attachment_keys (layout : SourceLayout.t) (c : Contents) : result StorageError (list AttachmentKey) :=
  match layout, c with
  | SourceLayout.Legacy cols, Schema0 d =>
    Ok (if has_attachments_table cols then map legacy_attachment_key (l_attachments d) else [])
  | SourceLayout.Previous, Schema1 d => Ok (map (λ '(n, a), record_attachment_key n a) (p_attachments d))
  | SourceLayout.Previous, Schema2 t => Ok (imap (λ n, record_attachment_key (Z.of_nat n + 1)) (attachments t))
  | _, _ => Err NO_SUCH_TABLE
  end.

(** [WHERE key > after ORDER BY key LIMIT n]. *)
Definition page_after {A} (key : A → Z) (n : nat) (rows : list A) (after : Z) : list A :=
  take n (List.filter (λ r, (after <? key r)%Z) rows).

(** ** The scan *)

(** The loop over the pages; each row takes the key further. *)
Fixpoint scan {A S} (fuel : nat) (key : A → Z) (page : Z → list A) (step : S → list A → S) (after : Z) (s : S)
    : option S :=
  match fuel with
  | 0 => None
  | S fuel =>
    let rows := page after in
    match last rows with
    | None => Some s
    | Some row => scan fuel key page step (key row) (step s rows)
    end
  end.

Definition hash_message (h : Fnv1a) (k : MessageKey) : Fnv1a :=
  let h := fnv_int h (k_seq k) in
  let h := fnv_text h (k_id k) in
  let h := fnv_opt_int h (k_is_read k) in
  let h := fnv_opt_int h (k_is_starred k) in
  let h := fnv_text h (k_tags k) in
  fnv_opt_int h (k_raw_len k).
Definition hash_attachment (h : Fnv1a) (k : AttachmentKey) : Fnv1a :=
  let h := fnv_int h (ak_rowid k) in
  let h := fnv_text h (ak_id k) in
  let h := fnv_text h (ak_parent k) in
  fnv_opt_int h (ak_content_len k).
(** What a [NULL] or a negative length adds: nothing. *)
Definition counted (len : option Z) : Z := Z.max 0 (default 0%Z len).

(** The hash, the messages and the raw bytes so far. *)
Definition message_step (s : Fnv1a * Z * Z) (rows : list MessageKey) : Fnv1a * Z * Z :=
  let '(h, messages, raw_bytes) := s in
  (fold_left hash_message rows h, (messages + Z.of_nat (length rows))%Z,
   fold_left (λ n k, (n + counted (k_raw_len k))%Z) rows raw_bytes).
Definition attachment_step (s : Fnv1a * Z) (rows : list AttachmentKey) : Fnv1a * Z :=
  let '(h, attachments) := s in (fold_left hash_attachment rows h, (attachments + Z.of_nat (length rows))%Z).

Record SourcePrint := { fingerprint_text : bytes; print_messages : Z; print_attachments : Z; print_raw_bytes : Z }.

(** A scan reads one page more than it finds rows in. *)
Definition fingerprint (layout : SourceLayout.t) (c : Contents) : result StorageError (option SourcePrint) :=
  ks ← message_keys layout c;
  aks ← attachment_keys layout c;
  mret ('(h, messages, raw_bytes) ←
          scan (S (length ks)) k_seq (page_after k_seq FINGERPRINT_PAGE_ROWS ks) message_step I64_MIN (fnv_new, 0%Z, 0%Z);
        '(h, attachments) ←
          scan (S (length aks)) ak_rowid (page_after ak_rowid FINGERPRINT_PAGE_ROWS aks) attachment_step I64_MIN (h, 0%Z);
        Some {| fingerprint_text :=
                  hex_u64 (fnv_int (fnv_int h (Z.min I64_MAX messages)) (Z.min I64_MAX attachments));
                print_messages := messages; print_attachments := attachments; print_raw_bytes := raw_bytes |}).

(** ** The scan reads every row once *)

Section scan.
Context {A St : Type} (key : A → Z) (step : St → list A → St).
Abbreviation sorted := (StronglySorted (λ a b, (key a < key b)%Z)).
Abbreviation after k := (List.filter (λ r, (k <? key r)%Z)).

Lemma after_all k l : Forall (λ r, (k < key r)%Z) l → after k l = l.
Proof. induction 1 as [|r l Hr Hl IH]; simpl; [done|]. rewrite (proj2 (Z.ltb_lt _ _)) by done. by rewrite IH. Qed.
Lemma after_none k l : Forall (λ r, (key r ≤ k)%Z) l → after k l = [].
Proof. induction 1 as [|r l Hr Hl IH]; simpl; [done|]. by rewrite (proj2 (Z.ltb_ge _ _)). Qed.
Lemma after_sorted k l : sorted l → sorted (after k l).
Proof.
  induction 1 as [|r l Hl IH Hr]; simpl; [constructor|]. destruct (k <? key r)%Z; [|done].
  constructor; [done|]. rewrite Forall_forall in Hr |- *. intros x (Hx & _)%list_elem_of_In%filter_In.
  by apply Hr, list_elem_of_In.
Qed.
Lemma after_after k k' l : (k ≤ k')%Z → after k' (after k l) = after k' l.
Proof.
  intros Hk. induction l as [|r l IH]; simpl; [done|]. destruct (Z.ltb_spec k (key r)); simpl.
  - by rewrite IH.
  - by rewrite (proj2 (Z.ltb_ge _ _)) by lia.
Qed.
(** What follows the last row of a page. *)
Lemma after_page n l r : sorted l → last (take n l) = Some r → after (key r) l = drop n l.
Proof.
  intros Hl (l' & Hp)%last_Some. rewrite <- (take_drop n l) in Hl |- * at 1. rewrite Hp in Hl |- *.
  rewrite List.filter_app, (after_none (key r)), (after_all (key r) (drop n l)); [done| |].
  - apply Forall_forall. intros x Hx.
    eapply (StronglySorted_app_1_elem_of (λ a b, (key a < key b)%Z)); [done| |done]. set_solver.
  - apply StronglySorted_app_1_l in Hl. apply Forall_app. split; [|repeat constructor; lia].
    apply Forall_forall. intros x Hx. apply Z.lt_le_incl.
    eapply (StronglySorted_app_1_elem_of (λ a b, (key a < key b)%Z)); [done|done|set_solver].
Qed.

Context (n : nat) (l : list A) (Hn : 0 < n) (Hl : sorted l).
Context (step_nil : ∀ s, step s [] = s) (step_app : ∀ s a b, step s (a ++ b) = step (step s a) b).

Lemma scan_all fuel k s :
  length (after k l) < fuel → scan fuel key (page_after key n l) step k s = Some (step s (after k l)).
Proof.
  revert k s. induction fuel as [|fuel IH]; intros k s Hf; [lia|]. cbn [scan]. unfold page_after at 1.
  destruct (last (take n (after k l))) as [r|] eqn:Hlast.
  - assert (Hr : r ∈ after k l).
    { apply last_Some in Hlast as (l' & Hp). rewrite <- (take_drop n (after k l)), Hp. set_solver. }
    apply list_elem_of_In, filter_In in Hr as [_ Hr%Z.ltb_lt].
    assert (Hd : after (key r) l = drop n (after k l)).
    { rewrite <- (after_page n _ r (after_sorted k l Hl) Hlast). symmetry. apply after_after. lia. }
    unfold page_after at 2. rewrite IH; rewrite Hd.
    + by rewrite <- step_app, take_drop.
    + rewrite length_drop. apply last_Some in Hlast as (l' & Hp). apply (f_equal length) in Hp.
      rewrite length_app, length_take in Hp. simpl in Hp. lia.
  - apply last_None in Hlast. destruct (after k l) as [|r rest]; [by rewrite step_nil|].
    destruct n; [lia|]. done.
Qed.
End scan.

(** ** The hashed stream *)

Definition put_text (t : option bytes) : bytes :=
  match t with
  | Some t => VALUE_MARKER :: to_le_bytes (len_i64 (length t)) ++ t
  | None => [NULL_MARKER]
  end.
Definition put_opt_int (z : option Z) : bytes :=
  match z with Some z => VALUE_MARKER :: to_le_bytes z | None => [NULL_MARKER] end.
Definition put_message (k : MessageKey) : bytes :=
  to_le_bytes (k_seq k) ++ put_text (k_id k) ++ put_opt_int (k_is_read k) ++ put_opt_int (k_is_starred k) ++
  put_text (k_tags k) ++ put_opt_int (k_raw_len k).
Definition put_attachment (k : AttachmentKey) : bytes :=
  to_le_bytes (ak_rowid k) ++ put_text (ak_id k) ++ put_text (ak_parent k) ++ put_opt_int (ak_content_len k).
Definition stream (ks : list MessageKey) (aks : list AttachmentKey) : bytes :=
  concat (map put_message ks) ++ concat (map put_attachment aks) ++
  to_le_bytes (len_i64 (length ks)) ++ to_le_bytes (len_i64 (length aks)).

Lemma fnv_bytes_app h a b : fnv_bytes h (a ++ b) = fnv_bytes (fnv_bytes h a) b.
Proof. apply fold_left_app. Qed.
Lemma fnv_text_put h t : fnv_text h t = fnv_bytes h (put_text t).
Proof. destruct t; [|reflexivity]. cbn [fnv_text]. unfold fnv_int. rewrite <- !fnv_bytes_app. reflexivity. Qed.
Lemma fnv_opt_int_put h z : fnv_opt_int h z = fnv_bytes h (put_opt_int z).
Proof. destruct z; [|reflexivity]. cbn [fnv_opt_int]. unfold fnv_int. rewrite <- fnv_bytes_app. reflexivity. Qed.
Lemma hash_message_put h k : hash_message h k = fnv_bytes h (put_message k).
Proof. unfold hash_message, put_message. by rewrite !fnv_bytes_app, !fnv_text_put, !fnv_opt_int_put. Qed.
Lemma hash_attachment_put h k : hash_attachment h k = fnv_bytes h (put_attachment k).
Proof. unfold hash_attachment, put_attachment. by rewrite !fnv_bytes_app, !fnv_text_put, !fnv_opt_int_put. Qed.
Lemma fold_hash {A} (hash : Fnv1a → A → Fnv1a) (put : A → bytes) l h :
  (∀ h k, hash h k = fnv_bytes h (put k)) → fold_left hash l h = fnv_bytes h (concat (map put l)).
Proof.
  intros Hp. revert h. induction l as [|k l IH]; intros h; simpl; [done|]. by rewrite IH, Hp, fnv_bytes_app.
Qed.

Definition printed (ks : list MessageKey) (aks : list AttachmentKey) : SourcePrint :=
  {| fingerprint_text := hex_u64 (fnv_bytes fnv_new (stream ks aks));
     print_messages := Z.of_nat (length ks); print_attachments := Z.of_nat (length aks);
     print_raw_bytes := fold_left (λ n k, (n + counted (k_raw_len k))%Z) ks 0%Z |}.

Definition keys_sorted (ks : list MessageKey) (aks : list AttachmentKey) : Prop :=
  StronglySorted (λ a b, (k_seq a < k_seq b)%Z) ks ∧ Forall (λ k, (I64_MIN < k_seq k)%Z) ks ∧
  StronglySorted (λ a b, (ak_rowid a < ak_rowid b)%Z) aks ∧ Forall (λ k, (I64_MIN < ak_rowid k)%Z) aks.

Lemma message_step_app s a b : message_step s (a ++ b) = message_step (message_step s a) b.
Proof.
  destruct s as [[h m] r]. unfold message_step. rewrite !fold_left_app, length_app, Nat2Z.inj_add.
  by rewrite Z.add_assoc.
Qed.
Lemma attachment_step_app s a b : attachment_step s (a ++ b) = attachment_step (attachment_step s a) b.
Proof.
  destruct s as [h m]. unfold attachment_step. rewrite !fold_left_app, length_app, Nat2Z.inj_add.
  by rewrite Z.add_assoc.
Qed.
Lemma message_step_nil s : message_step s [] = s.
Proof. destruct s as [[h m] r]. unfold message_step. simpl. by rewrite Z.add_0_r. Qed.
Lemma attachment_step_nil s : attachment_step s [] = s.
Proof. destruct s as [h m]. unfold attachment_step. simpl. by rewrite Z.add_0_r. Qed.
Lemma scan_whole {A St} (key : A → Z) (step : St → list A → St) l s :
  StronglySorted (λ a b, (key a < key b)%Z) l → Forall (λ r, (I64_MIN < key r)%Z) l →
  (∀ s, step s [] = s) → (∀ s a b, step s (a ++ b) = step (step s a) b) →
  scan (S (length l)) key (page_after key FINGERPRINT_PAGE_ROWS l) step I64_MIN s = Some (step s l).
Proof.
  intros Hs Hm Hnil Happ. pose proof (after_all key I64_MIN l Hm) as Hall.
  rewrite (scan_all key step _ l page_rows_positive Hs Hnil Happ (S (length l))); rewrite Hall; [done|lia].
Qed.

(** The pages together are the whole of both tables, in one hash. *)
Lemma fingerprint_printed layout c ks aks :
  message_keys layout c = Ok ks → attachment_keys layout c = Ok aks → keys_sorted ks aks →
  fingerprint layout c = Ok (Some (printed ks aks)).
Proof.
  intros Hk Ha (Hs1 & Hm1 & Hs2 & Hm2). unfold fingerprint. rewrite Hk, Ha. cbn [mbind result_mbind result_bind].
  rewrite (scan_whole k_seq message_step _ _ Hs1 Hm1 message_step_nil message_step_app).
  unfold message_step at 1. cbn [mbind option_bind].
  rewrite (scan_whole ak_rowid attachment_step _ _ Hs2 Hm2 attachment_step_nil attachment_step_app).
  unfold attachment_step at 1. cbn [mbind option_bind]. rewrite !Z.add_0_l.
  unfold printed, stream, len_i64, fnv_int. rewrite !fnv_bytes_app.
  rewrite <- (fold_hash hash_attachment _ _ _ hash_attachment_put), <- (fold_hash hash_message _ _ _ hash_message_put).
  done.
Qed.

(** ** FNV-1a loses no byte on the way *)

Definition u64 (z : Z) : Prop := (0 ≤ z < 2 ^ 64)%Z.
(** What takes a multiplication by the prime back. *)
Definition FNV_PRIME_INVERSE : Z := 14886173955864302971.

Lemma lxor_u64 a b : u64 a → u64 b → u64 (Z.lxor a b).
Proof.
  unfold u64. intros Ha Hb. assert (Hx : (Z.lxor a b mod 2 ^ 64 = Z.lxor a b)%Z).
  { rewrite <- (Z.mod_small a (2 ^ 64)), <- (Z.mod_small b (2 ^ 64)) at 2 by lia.
    apply Z.bits_inj'. intros n Hn. rewrite Z.testbit_mod_pow2, !Z.lxor_spec, !Z.testbit_mod_pow2 by lia.
    by destruct (n <? 64)%Z; simpl. }
  rewrite <- Hx. apply Z.mod_pos_bound. lia.
Qed.
Lemma byte_u64 b : u64 (Z.of_N (byte_val b)).
Proof. unfold u64. pose proof (N_ascii_bounded b). unfold byte_val. lia. Qed.
Lemma fnv_byte_u64 h b : u64 (fnv_byte h b).
Proof. unfold fnv_byte, wrap_u64, u64. apply Z.mod_pos_bound. lia. Qed.
Lemma fnv_bytes_u64 h bs : u64 h → u64 (fnv_bytes h bs).
Proof. revert h. induction bs as [|b bs IH]; intros h Hh; [done|]. apply IH, fnv_byte_u64. Qed.

Lemma fnv_undone x : u64 x → wrap_u64 (wrap_u64 (x * FNV_PRIME) * FNV_PRIME_INVERSE) = x.
Proof.
  intros Hx. unfold wrap_u64. rewrite Z.mul_mod_idemp_l, <- Z.mul_assoc by lia.
  rewrite <- Z.mul_mod_idemp_r by lia.
  replace ((FNV_PRIME * FNV_PRIME_INVERSE) mod 2 ^ 64)%Z with 1%Z by (vm_compute; reflexivity).
  rewrite Z.mul_1_r. apply Z.mod_small. exact Hx.
Qed.
Lemma fnv_byte_inj h h' b b' : u64 h → u64 h' → fnv_byte h b = fnv_byte h' b' →
  Z.lxor h (Z.of_N (byte_val b)) = Z.lxor h' (Z.of_N (byte_val b')).
Proof.
  intros Hh Hh' Heq. unfold fnv_byte in Heq. apply (f_equal (λ x, wrap_u64 (x * FNV_PRIME_INVERSE))) in Heq.
  by rewrite !fnv_undone in Heq by auto using lxor_u64, byte_u64.
Qed.
Lemma lxor_cancel a b c : Z.lxor a c = Z.lxor b c → a = b.
Proof.
  intros H. apply (f_equal (λ x, Z.lxor x c)) in H. by rewrite !Z.lxor_assoc, !Z.lxor_nilpotent, !Z.lxor_0_r in H.
Qed.
Lemma fnv_bytes_inj h h' bs : u64 h → u64 h' → fnv_bytes h bs = fnv_bytes h' bs → h = h'.
Proof.
  revert h h'. induction bs as [|b bs IH]; intros h h' Hh Hh' Heq; [done|].
  apply IH in Heq; [|apply fnv_byte_u64..]. apply fnv_byte_inj in Heq; [|done..]. by apply lxor_cancel in Heq.
Qed.
(** One byte that differs makes the whole stream's hash differ. *)
Lemma fnv_separates a x y b : fnv_bytes fnv_new (a ++ x :: b) = fnv_bytes fnv_new (a ++ y :: b) → x = y.
Proof.
  assert (Hn : u64 fnv_new) by (vm_compute; done).
  rewrite !fnv_bytes_app. intros Heq.
  change (fnv_bytes (fnv_byte (fnv_bytes fnv_new a) x) b = fnv_bytes (fnv_byte (fnv_bytes fnv_new a) y) b) in Heq.
  apply fnv_bytes_inj in Heq; [|apply fnv_byte_u64..].
  apply fnv_byte_inj in Heq; [|by apply fnv_bytes_u64..]. rewrite !(Z.lxor_comm (fnv_bytes _ _)) in Heq.
  apply lxor_cancel in Heq. apply N2Z.inj in Heq. unfold byte_val in Heq.
  apply (f_equal ascii_of_N) in Heq. by rewrite !ascii_N_embedding in Heq.
Qed.

(** ** Integers and texts are read back from the stream *)

Lemma le_bytes_inj n a b : le_bytes n a = le_bytes n b → (a mod 256 ^ Z.of_nat n = b mod 256 ^ Z.of_nat n)%Z.
Proof.
  revert a b. induction n as [|n IH]; intros a b Heq; [by rewrite !Z.mod_1_r|].
  cbn [le_bytes] in Heq. injection Heq as Hb Hr.
  apply (f_equal N_of_ascii) in Hb. pose proof (Z.mod_pos_bound a 256 eq_refl). pose proof (Z.mod_pos_bound b 256 eq_refl).
  rewrite !N_ascii_embedding in Hb by lia. apply Z2N.inj in Hb; [|lia..]. apply IH in Hr.
  rewrite Nat2Z.inj_succ, Z.pow_succ_r, !Z.rem_mul_r by lia. by rewrite Hb, Hr.
Qed.
Lemma to_le_bytes_inj a b : in_i64 a → in_i64 b → to_le_bytes a = to_le_bytes b → a = b.
Proof.
  intros Ha Hb Heq%le_bytes_inj. unfold in_i64, I64_MIN, I64_MAX in *.
  change (256 ^ Z.of_nat 8)%Z with 18446744073709551616%Z in Heq.
  pose proof (Z.div_mod a 18446744073709551616 ltac:(done)).
  pose proof (Z.div_mod b 18446744073709551616 ltac:(done)). lia.
Qed.
Lemma length_le_bytes n z : length (le_bytes n z) = n.
Proof. revert z. induction n; intros; simpl; [done|]. by f_equal. Qed.
Lemma hex_u64_length a : length (hex_u64 a) = 16.
Proof.
  assert (Hl : ∀ l, length (concat (map hex_byte l)) = 2 * length l).
  { induction l as [|b l IH]; [done|]. cbn [map concat]. rewrite length_app, IH. simpl. lia. }
  unfold hex_u64, to_le_bytes. by rewrite Hl, length_rev, length_le_bytes.
Qed.
Lemma hex_u64_inj a b : u64 a → u64 b → hex_u64 a = hex_u64 b → a = b.
Proof.
  intros Ha Hb Heq%hex_inj. apply (f_equal (@rev ascii)) in Heq. rewrite !rev_involutive in Heq.
  apply le_bytes_inj in Heq. change (256 ^ Z.of_nat 8)%Z with (2 ^ 64)%Z in Heq. unfold u64 in *.
  by rewrite !Z.mod_small in Heq by lia.
Qed.

Lemma length_to_le_bytes z : length (to_le_bytes z) = 8.
Proof. apply length_le_bytes. Qed.
#[local] Opaque to_le_bytes.

(** ** Properties *)

(** What is hashed tells any two databases apart that differ in a row: the fields
    carry their lengths and their nulls, and the counts at the end say where the
    attachments begin. *)
Definition key_ok (k : MessageKey) : Prop :=
  in_i64 (k_seq k) ∧ (∀ z, k_is_read k = Some z → in_i64 z) ∧ (∀ z, k_is_starred k = Some z → in_i64 z) ∧
  (∀ z, k_raw_len k = Some z → in_i64 z) ∧
  (∀ t, k_id k = Some t → Z.of_nat (length t) ≤ I64_MAX)%Z ∧ (∀ t, k_tags k = Some t → Z.of_nat (length t) ≤ I64_MAX)%Z.
Definition attachment_key_ok (k : AttachmentKey) : Prop :=
  in_i64 (ak_rowid k) ∧ (∀ z, ak_content_len k = Some z → in_i64 z) ∧
  (∀ t, ak_id k = Some t → Z.of_nat (length t) ≤ I64_MAX)%Z ∧ (∀ t, ak_parent k = Some t → Z.of_nat (length t) ≤ I64_MAX)%Z.
Definition keys_ok (ks : list MessageKey) (aks : list AttachmentKey) : Prop :=
  Forall key_ok ks ∧ Forall attachment_key_ok aks ∧
  (Z.of_nat (length ks) ≤ I64_MAX)%Z ∧ (Z.of_nat (length aks) ≤ I64_MAX)%Z.

Lemma put_int_prefix a b s t : in_i64 a → in_i64 b → to_le_bytes a ++ s = to_le_bytes b ++ t → a = b ∧ s = t.
Proof.
  intros Ha Hb Heq. apply app_inj_1 in Heq as [Heq ->]; [|by rewrite !length_to_le_bytes].
  split; [by apply to_le_bytes_inj|done].
Qed.
Lemma tail_eq {A} (x y : A) l k : x :: l = y :: k → l = k.
Proof. by intros [= _ ->]. Qed.
Lemma put_opt_int_prefix a b s t :
  (∀ z, a = Some z → in_i64 z) → (∀ z, b = Some z → in_i64 z) → put_opt_int a ++ s = put_opt_int b ++ t → a = b ∧ s = t.
Proof.
  intros Ha Hb. destruct a as [a|], b as [b|]; simpl; intros Heq; try discriminate Heq; apply tail_eq in Heq; [|done].
  apply put_int_prefix in Heq as [-> ->]; auto.
Qed.
Lemma put_text_prefix a b s t :
  (∀ t, a = Some t → Z.of_nat (length t) ≤ I64_MAX)%Z → (∀ t, b = Some t → Z.of_nat (length t) ≤ I64_MAX)%Z →
  put_text a ++ s = put_text b ++ t → a = b ∧ s = t.
Proof.
  intros Ha Hb. destruct a as [a|], b as [b|]; simpl; intros Heq; try discriminate Heq; apply tail_eq in Heq; [|done].
  specialize (Ha a eq_refl). specialize (Hb b eq_refl). rewrite <- !(assoc_L (++)) in Heq.
  assert (Hlen : ∀ n, (Z.of_nat n ≤ I64_MAX)%Z → len_i64 n = Z.of_nat n) by (intros; unfold len_i64; lia).
  rewrite !Hlen in Heq by done. apply put_int_prefix in Heq as [Hn Heq]; [|unfold in_i64, I64_MIN; lia..].
  apply app_inj_1 in Heq as [-> ->]; [done|lia].
Qed.
Lemma put_message_prefix a b s t : key_ok a → key_ok b → put_message a ++ s = put_message b ++ t → a = b ∧ s = t.
Proof.
  intros (A1 & A2 & A3 & A4 & A5 & A6) (B1 & B2 & B3 & B4 & B5 & B6) Heq. unfold put_message in Heq.
  rewrite <- !(assoc_L (++)) in Heq.
  apply put_int_prefix in Heq as [? Heq]; [|done..]. apply put_text_prefix in Heq as [? Heq]; [|done..].
  apply put_opt_int_prefix in Heq as [? Heq]; [|done..]. apply put_opt_int_prefix in Heq as [? Heq]; [|done..].
  apply put_text_prefix in Heq as [? Heq]; [|done..]. apply put_opt_int_prefix in Heq as [? ->]; [|done..].
  split; [|done]. destruct a, b. simpl in *. congruence.
Qed.
Lemma put_attachment_prefix a b s t :
  attachment_key_ok a → attachment_key_ok b → put_attachment a ++ s = put_attachment b ++ t → a = b ∧ s = t.
Proof.
  intros (A1 & A2 & A3 & A4) (B1 & B2 & B3 & B4) Heq. unfold put_attachment in Heq. rewrite <- !(assoc_L (++)) in Heq.
  apply put_int_prefix in Heq as [? Heq]; [|done..]. apply put_text_prefix in Heq as [? Heq]; [|done..].
  apply put_text_prefix in Heq as [? Heq]; [|done..]. apply put_opt_int_prefix in Heq as [? ->]; [|done..].
  split; [|done]. destruct a, b. simpl in *. congruence.
Qed.
Lemma put_rows_prefix {A} (put : A → bytes) (ok : A → Prop) l k s t :
  (∀ a b s t, ok a → ok b → put a ++ s = put b ++ t → a = b ∧ s = t) →
  Forall ok l → Forall ok k → length l = length k →
  concat (map put l) ++ s = concat (map put k) ++ t → l = k ∧ s = t.
Proof.
  intros Hp Hl. revert k. induction Hl as [|a l Ha Hl IH]; intros [|b k] Hk Hlen Heq; try done.
  inversion_clear Hk. simpl in Heq. rewrite <- !(assoc_L (++)) in Heq.
  apply Hp in Heq as [-> Heq]; [|done..]. apply IH in Heq as [-> ->]; [done|done|]. simpl in Hlen. lia.
Qed.

(** What the fingerprint hashes determines the rows: two databases
    with the same stream have the same identifying fields, message for message
    and attachment for attachment. *)
Theorem stream_determines_rows ks aks ks' aks' :
  keys_ok ks aks → keys_ok ks' aks' → stream ks aks = stream ks' aks' → ks = ks' ∧ aks = aks'.
Proof.
  intros (Hk & Ha & Hnk & Hna) (Hk' & Ha' & Hnk' & Hna') Heq. unfold stream in Heq.
  rewrite !(assoc_L (++) (concat (map put_message _))) in Heq.
  apply app_inj_2 in Heq as [Hrows Hcounts];
    [|by rewrite !length_app, !length_to_le_bytes].
  assert (Hin : ∀ n, in_i64 (len_i64 n)) by (intros; unfold in_i64, len_i64, I64_MIN, I64_MAX; lia).
  apply put_int_prefix in Hcounts as [Hc1 Hc2]; [|done..].
  rewrite <- (app_nil_r (to_le_bytes (len_i64 (length aks)))), <- (app_nil_r (to_le_bytes (len_i64 (length aks')))) in Hc2.
  apply put_int_prefix in Hc2 as [Hc2 _]; [|done..]. unfold len_i64 in Hc1, Hc2.
  apply (put_rows_prefix _ key_ok) in Hrows as [-> Hrows]; [|apply put_message_prefix|done|done|lia].
  rewrite <- (app_nil_r (concat (map put_attachment aks))), <- (app_nil_r (concat (map put_attachment aks'))) in Hrows.
  apply (put_rows_prefix _ attachment_key_ok) in Hrows as [-> _]; [done|apply put_attachment_prefix|done|done|lia].
Qed.

Definition with_flags (r s : bool) (k : MessageKey) : MessageKey :=
  {| k_seq := k_seq k; k_id := k_id k; k_is_read := Some (Z.b2z r); k_is_starred := Some (Z.b2z s);
     k_tags := k_tags k; k_raw_len := k_raw_len k |}.

Lemma put_flag : ∃ rest, ∀ b', to_le_bytes (Z.b2z b') = (if b' then "001" else "000")%char :: rest.
Proof. exists (replicate 7 "000"%char). by intros []. Qed.
#[local] Ltac flat := repeat (progress (repeat rewrite <- (assoc_L (++)); cbn [app])); reflexivity.
(** The two streams differ in one byte. *)
Lemma stream_flags before k after aks r s r' s' : (r = r' ↔ s ≠ s') →
  ∃ a x y b, x ≠ y ∧
    stream (before ++ with_flags r s k :: after) aks = a ++ x :: b ∧
    stream (before ++ with_flags r' s' k :: after) aks = a ++ y :: b.
Proof.
  intros Hone. destruct put_flag as [rest Hrest].
  assert (Hlen : length (before ++ with_flags r s k :: after) = length (before ++ with_flags r' s' k :: after))
    by (by rewrite !length_app).
  unfold stream. rewrite Hlen. clear Hlen. rewrite !map_app, !concat_app. cbn [map concat].
  unfold put_message, with_flags. cbn [k_seq k_id k_is_read k_is_starred k_tags k_raw_len put_opt_int].
  rewrite !Hrest. generalize (to_le_bytes (len_i64 (length (before ++ with_flags r' s' k :: after)))). intros n.
  destruct (decide (r = r')) as [->|Hr].
  - exists (concat (map put_message before) ++ to_le_bytes (k_seq k) ++ put_text (k_id k) ++
      (VALUE_MARKER :: (if r' then "001" else "000")%char :: rest) ++ [VALUE_MARKER]).
    do 3 eexists. split; [|split; flat].
    assert (s ≠ s') by (by apply Hone). by destruct s, s'.
  - assert (s = s') as -> by (destruct s, s'; naive_solver).
    exists (concat (map put_message before) ++ to_le_bytes (k_seq k) ++ put_text (k_id k) ++ [VALUE_MARKER]).
    do 3 eexists. split; [|split; flat].
    by destruct r, r'.
Qed.

(** An edit of one flag never goes unseen: whatever the rest of the
    file holds, marking one message read or unread, or starring or unstarring
    it, changes the fingerprint; FNV-1a has no collision there. *)
Theorem flag_edit_changes_fingerprint layout c c' before k after aks r s r' s' :
  message_keys layout c = Ok (before ++ with_flags r s k :: after) →
  message_keys layout c' = Ok (before ++ with_flags r' s' k :: after) →
  attachment_keys layout c = Ok aks → attachment_keys layout c' = Ok aks →
  keys_sorted (before ++ with_flags r s k :: after) aks → (r = r' ↔ s ≠ s') →
  ∃ p p', fingerprint layout c = Ok (Some p) ∧ fingerprint layout c' = Ok (Some p') ∧
    fingerprint_text p ≠ fingerprint_text p'.
Proof.
  intros Hk Hk' Ha Ha' Hs Hone.
  assert (Hs' : keys_sorted (before ++ with_flags r' s' k :: after) aks).
  { destruct Hs as (Hs1 & Hm1 & Hs2 & Hm2). split_and!; [|by rewrite Forall_app, Forall_cons in *|done|done].
    clear -Hs1. induction before as [|x before IH]; simpl in *; inversion_clear Hs1 as [|?? Hl Hx]; constructor;
      [done|done|auto|]. by rewrite Forall_app, Forall_cons in *. }
  exists (printed (before ++ with_flags r s k :: after) aks), (printed (before ++ with_flags r' s' k :: after) aks).
  split_and!; [by apply fingerprint_printed..|]. unfold printed. cbn [fingerprint_text]. intros Heq.
  assert (Hn : u64 fnv_new) by (vm_compute; done).
  apply hex_u64_inj in Heq; [|by apply fnv_bytes_u64..].
  destruct (stream_flags before k after aks r s r' s' Hone) as (a & x & y & b & Hxy & Hx & Hy).
  rewrite Hx, Hy in Heq. by apply fnv_separates in Heq.
Qed.

(** The reference vectors of FNV-1a. *)
Example fnv_empty : fnv_bytes fnv_new [] = 0xcbf29ce484222325%Z.
Proof. reflexivity. Qed.
Example fnv_a : fnv_bytes fnv_new b#"a" = 0xaf63dc4c8601ec8c%Z.
Proof. vm_compute. reflexivity. Qed.
Example fnv_foobar : fnv_bytes fnv_new b#"foobar" = 0x85944171f73967e8%Z.
Proof. vm_compute. reflexivity. Qed.

Definition plain_row (n : Z) (i : bytes) (raw : bytes) (read starred : bool) : LegacyRow :=
  {| rowid := n; l_id := i; l_sender := b#"a@b"; l_recipients := b#"[]"; l_subject := None; l_text_body := None;
     l_raw := raw; l_has_attachments := false; l_is_read := read; l_is_starred := starred; l_tags := b#"[]";
     l_created_at := b#"t" |}.
Definition plain_columns : LegacyColumns :=
  {| has_is_starred := true; has_tags := true; has_attachments_table := true |}.
Definition plain_legacy (rows : list LegacyRow) : Contents :=
  Schema0 {| columns := plain_columns; l_messages := rows; l_attachments := [] |}.
Lemma flag_edit_changes_fingerprint_witness :
  let d read := plain_legacy [plain_row 1 b#"x" b#"raw" read false; plain_row 2 b#"y" b#"raw" false true] in
  ∃ p p', fingerprint (SourceLayout.Legacy plain_columns) (d false) = Ok (Some p) ∧
    fingerprint (SourceLayout.Legacy plain_columns) (d true) = Ok (Some p') ∧
    fingerprint_text p ≠ fingerprint_text p'.
Proof.
  apply (flag_edit_changes_fingerprint _ _ _ [] (legacy_key plain_columns (plain_row 1 b#"x" b#"raw" false false))
    [legacy_key plain_columns (plain_row 2 b#"y" b#"raw" false true)] [] false false true false);
    [reflexivity..| |done].
  refine (conj _ (conj _ (conj _ _))); repeat constructor.
Defined.
