(* ===== verification/MigrateDisk.v ===== *)
(** The files beside a database and the operations of the migration on them: the
    file helpers of [crates/rustmail-storage/src/migrate.rs]. *)
From S2P Require Import Prelude RustStd StorageError Prepared Query Database OldDb Fingerprint.
From S2P Require Schema.

(** ** Paths *)

Definition LOCK_SUFFIX : bytes := b#".migration-lock".
Definition MIGRATING_SUFFIX : bytes := b#".migrating".
Definition LEGACY_BACKUP_SUFFIX : bytes := b#".schema0.bak".
Definition PREVIOUS_BACKUP_SUFFIX : bytes := b#".schema1.bak".
Definition WAL_SUFFIX : bytes := b#"-wal".
Definition SHM_SUFFIX : bytes := b#"-shm".
Definition JOURNAL_SUFFIX : bytes := b#"-journal".

Definition sidecar (path suffix : bytes) : bytes := path ++ suffix.

Record Paths := { db : bytes; lock : bytes; migrating : bytes }.
Definition paths_of (path : bytes) : Paths :=
  {| db := path; lock := sidecar path LOCK_SUFFIX; migrating := sidecar path MIGRATING_SUFFIX |}.
Definition backup (p : Paths) (schema : SourceSchema.t) : bytes :=
  sidecar (db p)
    match schema with
    | SourceSchema.Legacy => LEGACY_BACKUP_SUFFIX
    | SourceSchema.Previous => PREVIOUS_BACKUP_SUFFIX
    end.
Definition backups (p : Paths) : list bytes := [backup p SourceSchema.Legacy; backup p SourceSchema.Previous].

(** ** The disk *)

(** What can happen at a step: the operation fails, the task that runs it does not
    complete, or the process is killed before it. *)
Inductive mishap := Fails (e : sqlx_error) | Aborted | Kill.
Inductive halt := Failed (e : StorageError) | Killed.

(** The files, the side files SQLite keeps beside a database that is open, and what
    happens around the run: the databases other processes hold open, whether one
    of them holds the migration lock, the next mishaps, what others write to the
    source before each look at it, the answers of [should_stop]. *)
Record Disk := {
  files : gmap bytes DbFile;
  sides : gset bytes;
  others : gset bytes;
  locked_elsewhere : bool;
  mishaps : list (option mishap);
  meddling : list (DbFile → DbFile);
  stops : list bool;
  dead : bool;
}.
#[export] Instance eta_Disk : Eta Disk := λ w,
  {| files := files w; sides := sides w; others := others w; locked_elsewhere := locked_elsewhere w;
     mishaps := mishaps w; meddling := meddling w; stops := stops w; dead := dead w |}.
Abbreviation FS := (M Disk halt).

(** The machine: the cores work is shared over, the length of a database's file, the
    permissions of a new file, the clock in the two forms it is printed in. *)
Class Machine := {
  available_parallelism : nat;
  file_length : DbFile → Z;
  default_mode : Z;
  iso8601_now : bytes;
  utc_now : bytes;
}.

(** Nothing runs in a process that was killed. *)
Definition meet (failed : option sqlx_error → StorageError) : FS unit := λ w,
  if dead w then Some (Err Killed, w)
  else
    let w' := w <| mishaps := tail (mishaps w) |> in
    match mishaps w with
    | Some (Fails e) :: _ => Some (Err (Failed (failed (Some e))), w')
    | Some Aborted :: _ => Some (Err (Failed (failed None)), w')
    | Some Kill :: _ => Some (Err Killed, w' <| dead := true |>)
    | _ => Some (Ok tt, w')
    end.
(** A statement or a connection, and a file operation on the blocking pool. *)
Definition sql : FS unit := meet (λ e, Database (default WorkerCrashed e)).
Definition blocking (action path : bytes) : FS unit :=
  meet (λ e, match e with Some _ => MigrationIo action path | None => MigrationTaskAborted end).

Definition refuse {A} (e : StorageError) : FS A := fail (Failed e).
Definition lift {A} (r : result StorageError A) : FS A :=
  match r with Ok a => mret a | Err e => refuse e end.
(** The result of a part as a value, for code that goes on after an error. *)
Definition attempt {A} (c : FS A) : FS (result halt A) := λ w,
  match c w with Some (r, w) => Some (Ok r, w) | None => None end.
Definition give {A} (r : result halt A) : FS A := match r with Ok a => mret a | Err h => fail h end.

(** ** File operations *)

Definition on_files (f : gmap bytes DbFile → gmap bytes DbFile) : FS unit :=
  modify (λ w, w <| files := f (files w) |>).
Definition on_sides (f : gset bytes → gset bytes) : FS unit := modify (λ w, w <| sides := f (sides w) |>).

(** A file is a database or a side file. *)
Definition present (p : bytes) (w : Disk) : bool := bool_decide (is_Some (files w !! p) ∨ p ∈ sides w).
Definition exists_ (p : bytes) : FS bool := blocking b#"check for" p;; gets (present p).
(** The side files have no length of their own here: they are counted in the file's. *)
Definition file_len `{Machine} (p : bytes) : FS Z :=
  blocking b#"read the size of" p;;
  gets (λ w, match files w !! p with Some f => file_length f | None => 0%Z end).

Definition rename (from to : bytes) : FS unit :=
  blocking b#"rename" from;;
  f ← gets (λ w, files w !! from);
  match f with
  | Some f => on_files (λ fs, <[to := f]> (delete from fs))
  | None => refuse (MigrationIo b#"rename" from)
  end.
Definition sync_parent (path : bytes) : FS unit := blocking b#"sync the directory" path.

Fixpoint each {A} (f : A → FS unit) (l : list A) : FS unit :=
  match l with [] => mret tt | x :: l => f x;; each f l end.

Definition remove_file (p : bytes) : FS unit :=
  blocking b#"remove" p;; on_files (delete p);; on_sides (λ s, s ∖ {[ p ]}).
Definition remove_copy (p : Paths) : FS unit :=
  each remove_file (map (sidecar (migrating p)) [WAL_SUFFIX; SHM_SUFFIX; JOURNAL_SUFFIX] ++ [migrating p]).

Definition mode_of (p : bytes) : FS (option Z) :=
  blocking b#"read the permissions of" p;; gets (λ w, mode <$> files w !! p).
(** The new file has the default permissions until it is given the others. *)
Definition create_with_mode `{Machine} (p : bytes) (bits : option Z) : FS unit :=
  blocking b#"create" p;;
  taken ← gets (present p);
  if (taken : bool) then refuse (MigrationIo b#"create" p)
  else
    on_files (<[p := empty_file default_mode]>);;
    match bits with
    | Some bits =>
      blocking b#"set the permissions of" p;;
      on_files (<[p := empty_file bits]>)
    | None => mret tt
    end.
(** [Err] of a file that is there already is answered by opening it. *)
Definition open_or_create `{Machine} (p : bytes) (bits : option Z) : FS unit :=
  taken ← gets (present p);
  if (taken : bool) then blocking b#"open" p else create_with_mode p bits.

(** The lock is the operating system's: it ends with the process. *)
Definition acquire_lock `{Machine} (p : Paths) : FS unit :=
  bits ← mode_of (db p);
  open_or_create (lock p) bits;;
  blocking b#"lock" (lock p);;
  held ← gets locked_elsewhere;
  if (held : bool) then refuse (MigrationLocked (lock p)) else mret tt.

(** ** Connections *)

Definition side_files (p : bytes) : gset bytes := {[ sidecar p WAL_SUFFIX; sidecar p SHM_SUFFIX ]}.
(** An open database has its side files; SQLite removes them when the last
    connection closes. No file is created. *)
Definition connect (p : bytes) : FS unit :=
  sql;;
  there ← gets (λ w, bool_decide (is_Some (files w !! p)));
  if (there : bool) then on_sides (λ s, s ∪ side_files p)
  else refuse (Database (DatabaseError (Some b#"14"))).
Definition closed (p : bytes) (w : Disk) : Disk :=
  if dead w || bool_decide (p ∈ others w) then w else w <| sides := sides w ∖ side_files p |>.
Definition close (p : bytes) : FS unit := sql;; modify (closed p).
(** A connection that goes out of scope. *)
Definition drop_connection (p : bytes) : FS unit := modify (closed p).
(** What is read or written of an open file. *)
Definition read_file (p : bytes) : FS DbFile :=
  sql;;
  f ← gets (λ w, files w !! p);
  match f with Some f => mret f | None => refuse NO_SUCH_TABLE end.
(** A transaction: whichever of its statements fails, nothing of it stays. *)
Definition transact (p : bytes) (body : DbFile → result StorageError DbFile) : FS unit :=
  f ← read_file p;
  f ← lift (body f);
  on_files (<[p := f]>).
(** A connection for the time of [body]; an error of closing it comes first. *)
Definition with_connection {A} (p : bytes) (body : FS A) : FS A :=
  connect p;;
  r ← attempt body;
  close p;;
  give r.
