(* ===== verification/MigrateBuild.v ===== *)
(** Building the current-schema copy of an older database, batch by batch:
    [crates/rustmail-storage/src/migrate/build.rs]. *)
From S2P Require Import Prelude RustStd StorageError Content MailParser Locator Prepared Query Database OldDb Fingerprint MigrateDisk.
From S2P Require Schema.

Record MigrationOptions := { batch_messages : Z; batch_raw_bytes : Z }.
Definition BATCH_MAX_MESSAGES : Z := 1000.
Definition BATCH_MAX_RAW_BYTES : Z := 32 * 1024 * 1024.
Definition default_options : MigrationOptions :=
  {| batch_messages := BATCH_MAX_MESSAGES; batch_raw_bytes := BATCH_MAX_RAW_BYTES |}.

Record AttachmentCounts := { located : Z; inline : Z; mismatches : Z }.
Inductive CopyOutcome := Finished | Paused (migrated total : Z).
Record Batch := { b_last_seq : Z; b_messages : Z; b_raw_bytes : Z }.

(** ** Sharing work *)

(** [sort_by_key], which keeps the order of equal keys. *)
Fixpoint insert_by {A} (key : A → Z) (x : A) (l : list A) : list A :=
  match l with
  | [] => [x]
  | y :: l => if (key x <=? key y)%Z then x :: y :: l else y :: insert_by key x l
  end.
Definition sort_by_key {A} (key : A → Z) (l : list A) : list A := foldr (insert_by key) [] l.

(** The items with their places, dealt out in turn to the workers. *)
Definition share {A} (workers w : nat) (items : list A) : list (nat * A) :=
  List.filter (λ x, fst x mod workers =? w) (imap pair items).
Definition in_parallel_on {A B} (cores : nat) (items : list A) (work : A → B) : list B :=
  match items with
  | [] => []
  | _ =>
    let workers := cores `min` length items in
    let shares := map (λ w, share workers w items) (List.seq 0 workers) in
    let results := concat (map (map (λ '(index, item), (index, work item))) shares) in
    map snd (sort_by_key (λ x, Z.of_nat (fst x)) results)
  end.

(** ** Attachments of schema 0 *)

Record LegacyAttachment := { meta : AttachmentMeta; content : bytes }.
Record LegacyMessage := { lm_seq : Z; lm_raw : bytes; lm_attachments : list LegacyAttachment }.
Record PlannedAttachment := {
  pa_seq : Z; pa_meta : AttachmentMeta; pa_storage : AttachmentStorage; mismatch : bool;
}.

Section build.
Context `{Json, Zstd, MailParser, Machine}.

Definition reproduces (raw : bytes) (l : Locator) (a : LegacyAttachment) : bool :=
  match get_range (offset l) (offset l + len l) raw ≫= decode_body (loc_encoding l) with
  | Some decoded => beqb decoded (content a) && bool_decide (am_size (meta a) = Some (Z.of_nat (length decoded)))
  | None => false
  end.
Definition plan_attachment (m : LegacyMessage) (located : list (option Locator)) (index : nat) (a : LegacyAttachment)
    : PlannedAttachment :=
  let parts_match := length located =? length (lm_attachments m) in
  let candidate := if parts_match then mjoin (located !! index) else None in
  let verified := l ← candidate; if reproduces (lm_raw m) l a then Some l else None in
  {| pa_seq := lm_seq m; pa_meta := meta a;
     mismatch := negb parts_match || negb (Bool.eqb (bool_decide (is_Some candidate)) (bool_decide (is_Some verified)));
     pa_storage := match verified with Some l => Located l | None => Inline (content a) end |}.
Definition plan_message (m : LegacyMessage) : list PlannedAttachment :=
  let located :=
    match parse_message (lm_raw m) with
    | Some parsed => map (locate (lm_raw m)) (stored_part_refs parsed)
    | None => []
    end in
  imap (plan_attachment m located) (lm_attachments m).

(** The rows of the join, in the order of messages and then of attachments. *)
Definition legacy_attachment_rows (d : LegacyDb) (after last : Z) : list (Z * LegacyAttachment) :=
  flat_map (λ m, map (λ a, (rowid m, {| meta := la_meta a; content := la_content a |}))
                   (List.filter (λ a, beqb (la_message_id a) (l_id m)) (l_attachments d)))
    (List.filter (λ m, (after <? rowid m)%Z && (rowid m <=? last)%Z) (l_messages d)).
(** [push] onto the last message, or a message of its own. *)
Definition push_row (ms : list LegacyMessage) (row : Z * LegacyAttachment) : list LegacyMessage :=
  match last ms with
  | Some m =>
    if (lm_seq m =? fst row)%Z
    then removelast ms ++ [{| lm_seq := lm_seq m; lm_raw := lm_raw m; lm_attachments := lm_attachments m ++ [snd row] |}]
    else ms ++ [{| lm_seq := fst row; lm_raw := []; lm_attachments := [snd row] |}]
  | None => [{| lm_seq := fst row; lm_raw := []; lm_attachments := [snd row] |}]
  end.
Definition raw_of (d : LegacyDb) (s : Z) : option bytes :=
  l_raw <$> head (List.filter (λ m, (rowid m =? s)%Z) (l_messages d)).
Definition with_raw (d : LegacyDb) (m : LegacyMessage) : option LegacyMessage :=
  raw ← raw_of d (lm_seq m); Some {| lm_seq := lm_seq m; lm_raw := raw; lm_attachments := lm_attachments m |}.
(** [fetch_one] of no row. *)
Definition ROW_NOT_FOUND : StorageError := Database OtherSqlx.

(** [in_parallel]: nothing to do needs no task, and any task may not complete. *)
Definition in_parallel {A B} (items : list A) (work : A → B) : FS (list B) :=
  match items with
  | [] => mret []
  | _ => meet (λ _, MigrationTaskAborted);; mret (in_parallel_on available_parallelism items work)
  end.

Definition plan_attachments (source : bytes) (has_table : bool) (after last : Z) : FS (list PlannedAttachment) :=
  if negb has_table then mret []
  else
    f ← read_file source;
    match contents f with
    | Schema0 d =>
      let grouped := fold_left push_row (legacy_attachment_rows d after last) [] in
      ms ← lift (ok_or ROW_NOT_FOUND (mapM (with_raw d) grouped));
      planned ← in_parallel ms plan_message;
      mret (sort_by_key pa_seq (concat planned))
    | _ => refuse NO_SUCH_TABLE
    end.

(** ** The rows of a batch *)

(** What a source message becomes, its attachments apart. *)
Record Item := { i_record : MessageRecord; i_raw : bytes; i_text_body : option bytes }.
Definition legacy_item (c : LegacyColumns) (m : LegacyRow) : Item :=
  {| i_record := {| seq := rowid m; id := l_id m; m_sender := l_sender m; m_recipients := l_recipients m;
                    m_subject := l_subject m; m_size := Z.of_nat (length (l_raw m));
                    m_has_attachments := l_has_attachments m; is_read := l_is_read m;
                    is_starred := starred_of c m; tags := tags_of c m; created_at := l_created_at m |};
     i_raw := l_raw m; i_text_body := l_text_body m |}.
Definition previous_item (d : PreviousDb) (m : MessageRecord) : option Item :=
  c ← p_content d !! seq m;
  Some {| i_record := {| seq := seq m; id := id m; m_sender := m_sender m; m_recipients := m_recipients m;
                         m_subject := m_subject m; m_size := Z.of_nat (length (c_raw c));
                         m_has_attachments := m_has_attachments m; is_read := is_read m;
                         is_starred := is_starred m; tags := tags m; created_at := created_at m |};
          i_raw := c_raw c; i_text_body := c_text_body c |}.
(** The messages of the source as [messages_sql] selects them. *)
Definition items (layout : SourceLayout.t) (c : Contents) : result StorageError (list Item) :=
  match layout, c with
  | SourceLayout.Legacy cols, Schema0 d => Ok (map (legacy_item cols) (l_messages d))
  | SourceLayout.Previous, Schema1 d => Ok (omap (previous_item d) (p_messages d))
  | _, _ => Err NO_SUCH_TABLE
  end.
Definition within (after last : Z) (i : Item) : bool :=
  (after <? seq (i_record i))%Z && (seq (i_record i) <=? last)%Z.

(** [SELECT rowid, length(raw)] and [SELECT seq, size]. *)
Definition sizes (layout : SourceLayout.t) (c : Contents) : result StorageError (list (Z * Z)) :=
  match layout, c with
  | SourceLayout.Legacy _, Schema0 d => Ok (map (λ m, (rowid m, Z.of_nat (length (l_raw m)))) (l_messages d))
  | SourceLayout.Previous, Schema1 d => Ok (map (λ m, (seq m, m_size m)) (p_messages d))
  | _, _ => Err NO_SUCH_TABLE
  end.
(** The messages and the content, whose rows the two layouts keep apart. *)
Definition raw_rows (layout : SourceLayout.t) (c : Contents) : result StorageError (list (Z * bytes)) :=
  match layout, c with
  | SourceLayout.Legacy _, Schema0 d => Ok (map (λ m, (rowid m, l_raw m)) (l_messages d))
  | SourceLayout.Previous, Schema1 d =>
    Ok (omap (λ m, c ← p_content d !! seq m; Some (seq m, c_raw c)) (p_messages d))
  | _, _ => Err NO_SUCH_TABLE
  end.

Fixpoint grow (cap : Z) (b : Batch) (rows : list (Z * Z)) : Batch :=
  match rows with
  | [] => b
  | (rowid, raw_len) :: rows =>
    if (sat_i64 (b_raw_bytes b + raw_len) <=? cap)%Z
    then grow cap {| b_last_seq := rowid; b_messages := b_messages b + 1; b_raw_bytes := b_raw_bytes b + raw_len |} rows
    else b
  end.
Definition next_batch (options : MigrationOptions) (rows : list (Z * Z)) (after : Z) : option Batch :=
  match sql_limit (batch_messages options) (List.filter (λ r, (after <? fst r)%Z) rows) with
  | [] => None
  | (rowid, raw_len) :: rows =>
    Some (grow (batch_raw_bytes options) {| b_last_seq := rowid; b_messages := 1; b_raw_bytes := raw_len |} rows)
  end.

(** ** Writing them *)

Fixpoint each_row {A} (f : A → Tables → result StorageError Tables) (l : list A) (t : Tables)
    : result StorageError Tables :=
  match l with [] => Ok t | x :: l => t ← f x t; each_row f l t end.
Definition done_with {A} (r : result StorageError (A * Tables)) : result StorageError Tables := snd <$> r.

(** [INSERT INTO messages (seq, ...)]: the row in its place by [seq]. *)
Fixpoint place (m : MessageRecord) (l : list MessageRecord) : list MessageRecord :=
  match l with
  | [] => [m]
  | x :: l => if (seq m <? seq x)%Z then m :: x :: l else x :: place m l
  end.
Definition insert_message_at (m : MessageRecord) (t : Tables) : result StorageError Tables :=
  if existsb (λ x, (seq x =? seq m)%Z || beqb (id x) (id m)) (messages t) then Err CONSTRAINT
  else Ok {| messages := place m (messages t); message_content := message_content t;
             messages_fts := messages_fts t; attachments := attachments t;
             message_tags := if beqb (tags m) b#"[]" then message_tags t
                             else message_tags t ∪ tag_set (seq m) (tags m) |}.
Definition item_fts (i : Item) : FtsRow :=
  {| f_subject := m_subject (i_record i); f_text_body := i_text_body i; f_sender := m_sender (i_record i);
     f_recipients := m_recipients (i_record i) |}.
Definition planned_row (a : PlannedAttachment) : AttachmentRecord :=
  let locator := match pa_storage a with Located l => Some l | Inline _ => None end in
  {| a_id := am_id (pa_meta a); message_seq := pa_seq a; a_filename := am_filename (pa_meta a);
     a_content_type := am_content_type (pa_meta a); a_content_id := am_content_id (pa_meta a);
     a_size := am_size (pa_meta a); raw_offset := (λ l, Z.of_nat (offset l)) <$> locator;
     raw_len := (λ l, Z.of_nat (len l)) <$> locator; transfer_encoding := (λ l, code (loc_encoding l)) <$> locator;
     a_content := match pa_storage a with Inline c => Some c | Located _ => None end |}.
(** [INSERT INTO attachments ... SELECT] of a schema-1 file. *)
Definition carried (c : Contents) (after last : Z) : list AttachmentRecord :=
  match c with
  | Schema1 d =>
    List.filter (λ a, (after <? message_seq a)%Z && (message_seq a <=? last)%Z) (map snd (p_attachments d))
  | _ => []
  end.

(** The statements of a batch's transaction. *)
Definition copy_rows (its : list Item) (frames : list (Z * bytes)) (kept : list AttachmentRecord)
    (planned : list PlannedAttachment) (t : Tables) : result StorageError Tables :=
  t ← each_row insert_message_at (map i_record its) t;
  t ← each_row (λ '(s, frame) t, done_with (insert_content s frame t)) frames t;
  t ← done_with (insert_fts (map (λ i, (seq (i_record i), item_fts i)) its) t);
  t ← each_row (λ a t, done_with (insert_attachment a t)) kept t;
  each_row (λ a t, done_with (insert_attachment a t)) (map planned_row planned) t.
(** The last statement of a batch. *)
Definition advance (last : Z) (mismatched : nat) (o : OriginRow) : OriginRow :=
  o <| o_last_source_seq := last |> <| attachment_mismatches := (attachment_mismatches o + Z.of_nat mismatched)%Z |>.

(** [verify_failed] and [verify_failed_at], with the texts of the check. *)
Definition verify_failed (database target check expected found : bytes) : StorageError :=
  MigrationVerifyFailed database target check expected found.

(** A source compressed, and whether it decompresses back to itself. *)
Definition compress_checked (row : Z * bytes) : result StorageError (Z * bytes * bool) :=
  let '(s, raw) := row in
  frame ← compress raw;
  round_trip ← decompress frame (Z.of_nat (length raw)) (display_Z s);
  mret (s, frame, beqb round_trip raw).
(** [collect] into a [Result]: the first error. *)
Fixpoint collect {A} (l : list (result StorageError A)) : result StorageError (list A) :=
  match l with [] => Ok [] | r :: l => a ← r; l ← collect l; Ok (a :: l) end.
Definition compressed_content (source target : bytes) (layout : SourceLayout.t) (after last : Z) : FS (list (Z * bytes)) :=
  f ← read_file source;
  rows ← lift (raw_rows layout (contents f));
  rs ← in_parallel (List.filter (λ r, (after <? fst r)%Z && (fst r <=? last)%Z) rows) compress_checked;
  compressed ← lift (collect rs);
  match head (List.filter (λ x, negb (snd x)) compressed) with
  | Some (s, _, _) =>
    refuse (verify_failed source target b#"compressed source"
      (b#"message " ++ display_Z s ++ b#" decompresses to its source") b#"different bytes")
  | None => mret (map fst compressed)
  end.

Definition copy_batch (source target : bytes) (layout : SourceLayout.t) (after : Z) (b : Batch) : FS unit :=
  planned ← match layout with
            | SourceLayout.Legacy cols => plan_attachments source (has_attachments_table cols) after (b_last_seq b)
            | SourceLayout.Previous => mret []
            end;
  frames ← compressed_content source target layout after (b_last_seq b);
  from ← read_file source;
  its ← lift (items layout (contents from));
  transact target (λ f,
    match contents f, origin_row f with
    | Schema2 t, Some o =>
      t ← copy_rows (List.filter (within after (b_last_seq b)) its) frames
            match layout with
            | SourceLayout.Previous => carried (contents from) after (b_last_seq b)
            | SourceLayout.Legacy _ => []
            end planned t;
      mret (f <| contents := Schema2 t |>
              <| origin_row := Some (advance (b_last_seq b) (length (List.filter mismatch planned)) o) |>)
    | _, _ => Err NO_SUCH_TABLE
    end).

Definition should_stop : FS bool := λ w,
  Some (Ok (default false (head (stops w))), w <| stops := tail (stops w) |>).

(** Each batch takes at least one message further. *)
Fixpoint copy_loop (fuel : nat) (source target : bytes) (layout : SourceLayout.t) (options : MigrationOptions)
    (total migrated last_seq : Z) : FS CopyOutcome :=
  match fuel with
  | 0 => λ _, None
  | S fuel =>
    stop ← should_stop;
    if (stop : bool) then mret (Paused migrated total)
    else
      f ← read_file source;
      rows ← lift (sizes layout (contents f));
      match next_batch options rows last_seq with
      | None => mret Finished
      | Some b =>
        copy_batch source target layout last_seq b;;
        copy_loop fuel source target layout options total (migrated + b_messages b) (b_last_seq b)
      end
  end.
Definition message_count (f : DbFile) : result StorageError Z :=
  match contents f with
  | Schema0 d => Ok (Z.of_nat (length (l_messages d)))
  | Schema1 d => Ok (Z.of_nat (length (p_messages d)))
  | Schema2 t => Ok (Z.of_nat (length (messages t)))
  | NoTables | ForeignTables _ => Err NO_SUCH_TABLE
  end.
Definition last_copied (f : DbFile) : result StorageError Z :=
  ok_or NO_SUCH_TABLE (o_last_source_seq <$> origin_row f).
Definition copy (source target : bytes) (layout : SourceLayout.t) (options : MigrationOptions) (total : Z)
    : FS CopyOutcome :=
  f ← read_file target;
  last_seq ← lift (last_copied f);
  f ← read_file target;
  migrated ← lift (message_count f);
  from ← gets (λ w, files w !! source);
  let rows := match from with Some f => default [] (ok (sizes layout (contents f))) | None => [] end in
  copy_loop (S (length rows)) source target layout options total migrated last_seq.

(** ** The target *)

Definition fresh_origin (source : SourceSchema.t) (fingerprint : bytes) : OriginRow :=
  {| source_fingerprint := qualified_fingerprint fingerprint Schema.SCHEMA_VERSION; o_last_source_seq := 0;
     attachment_mismatches := 0; completed_at := None;
     schemas := Some (SourceSchema.version source, Schema.SCHEMA_VERSION) |}.
(** The [ATTACH] of the source, which is open already on the connection that locks
    it. *)
Definition attach (target source : bytes) : FS unit :=
  r ← attempt (connect source);
  match r with Ok _ => mret tt | Err h => drop_connection target;; fail h end.
Definition create (target source : bytes) (schema : SourceSchema.t) (fingerprint : bytes) : FS unit :=
  connect target;;
  r ← attempt (transact target (λ f,
    match contents f with
    | NoTables => Ok (f <| contents := Schema2 empty_tables |> <| origin_row := Some (fresh_origin schema fingerprint) |>)
    | _ => Err NO_SUCH_TABLE
    end));
  match r with Ok _ => attach target source | Err h => drop_connection target;; fail h end.
Definition open (target source : bytes) : FS unit := connect target;; attach target source.
(** The source stays open on the connection that locks it. *)
Definition close_target (target : bytes) : FS unit := close target.

(** ** Verifying *)

Definition legacy_attachment_count (layout : SourceLayout.t) (c : Contents) : result StorageError Z :=
  match layout, c with
  | SourceLayout.Legacy cols, Schema0 d =>
    Ok (if has_attachments_table cols
        then Z.of_nat (length (flat_map (λ m, List.filter (λ a, beqb (la_message_id a) (l_id m)) (l_attachments d)) (l_messages d)))
        else 0%Z)
  | SourceLayout.Previous, Schema1 d => Ok (Z.of_nat (length (p_attachments d)))
  | _, _ => Err NO_SUCH_TABLE
  end.
Definition legacy_tag_count (layout : SourceLayout.t) (c : Contents) : result StorageError Z :=
  match layout, c with
  | SourceLayout.Legacy cols, Schema0 d =>
    Ok (Z.of_nat (base.size (list_to_set (flat_map (λ m, map (λ tag, (tag, rowid m)) (json_each (tags_of cols m)))
                               (l_messages d)) : gset (bytes * Z))))
  | SourceLayout.Previous, Schema1 d => Ok (Z.of_nat (base.size (p_tags d)))
  | _, _ => Err NO_SUCH_TABLE
  end.
Definition sum (l : list Z) : Z := fold_left Z.add l 0%Z.
Definition source_raw_bytes (layout : SourceLayout.t) (c : Contents) : result StorageError Z :=
  match layout, c with
  | SourceLayout.Legacy _, Schema0 d => Ok (sum (map (λ m, Z.of_nat (length (l_raw m))) (l_messages d)))
  | SourceLayout.Previous, Schema1 d =>
    Ok (sum (map (λ kv, Z.of_nat (length (c_raw (snd kv)))) (map_to_list (p_content d))))
  | _, _ => Err NO_SUCH_TABLE
  end.
Definition unindexed (t : Tables) : nat :=
  length (List.filter (λ m, bool_decide (messages_fts t !! seq m = None)) (messages t)).
(** Rows of the children whose message is not there. *)
Definition foreign_key_violations (t : Tables) : nat :=
  base.size (dom (message_content t) ∖ seqs t)
  + length (List.filter (λ a, bool_decide (message_seq a ∉ seqs t)) (attachments t))
  + base.size (filter (λ x, x.2 ∉ seqs t) (message_tags t)).

(** The seven counts: the check, what the source implies, what the copy holds. *)
Definition checks (layout : SourceLayout.t) (from : DbFile) (t : Tables) : list (bytes * result StorageError Z * Z) :=
  [ (b#"message count", message_count from, Z.of_nat (length (messages t)));
    (b#"content count", message_count from, Z.of_nat (base.size (message_content t)));
    (b#"raw bytes", source_raw_bytes layout (contents from), sum (map m_size (messages t)));
    (b#"attachment count", legacy_attachment_count layout (contents from), Z.of_nat (length (attachments t)));
    (b#"tag index", legacy_tag_count layout (contents from), Z.of_nat (base.size (message_tags t)));
    (b#"full-text document count", Ok (Z.of_nat (length (messages t))), Z.of_nat (base.size (messages_fts t)));
    (b#"full-text document ids", Ok 0%Z, Z.of_nat (unindexed t)) ].
Definition check_one (database target : bytes) (c : bytes * result StorageError Z * Z) : FS unit :=
  let '(check, expected, found) := c in
  sql;;
  expected ← lift expected;
  sql;;
  if (expected =? found)%Z then mret tt
  else refuse (verify_failed database target check (display_Z expected) (display_Z found)).
Definition attachment_counts (t : Tables) (o : OriginRow) : AttachmentCounts :=
  {| located := Z.of_nat (length (List.filter (λ a, bool_decide (is_Some (raw_offset a))) (attachments t)));
     inline := Z.of_nat (length (List.filter (λ a, bool_decide (raw_offset a = None)) (attachments t)));
     mismatches := Z.max 0 (attachment_mismatches o) |}.
Definition verify (source target : bytes) (layout : SourceLayout.t) (database : bytes) : FS AttachmentCounts :=
  from ← gets (λ w, files w !! source);
  copy ← gets (λ w, files w !! target);
  match from, copy with
  | Some from, Some f =>
    match contents f, origin_row f with
    | Schema2 t, Some o =>
      each (check_one database target) (checks layout from t);;
      r ← attempt sql;
      match r with
      | Err (Failed _) => refuse (verify_failed database target b#"full-text integrity" b#"ok" b#"error")
      | Err Killed => fail Killed
      | Ok _ =>
        sql;;
        let violations := foreign_key_violations t in
        if negb (violations =? 0)
        then refuse (verify_failed database target b#"foreign key" b#"0 violations" (display_N (N.of_nat violations) ++ b#" violations"))
        else
          sql;;
          if negb (intact f) then refuse (verify_failed database target b#"quick_check" b#"ok" b#"error")
          else sql;; mret (attachment_counts t o)
      end
    | _, _ => refuse NO_SUCH_TABLE
    end
  | _, _ => refuse NO_SUCH_TABLE
  end.

(** [user_version] is the last write; the connection closes either way. *)
Definition finalize (target : bytes) : FS unit :=
  r ← attempt (
    sql;;
    transact target (λ f,
      match origin_row f with
      | Some o => Ok (f <| origin_row := Some (o <| completed_at := Some iso8601_now |>) |> <| user_version := Schema.SCHEMA_VERSION |>)
      | None => Err NO_SUCH_TABLE
      end);;
    sql;;
    sql);
  match r with
  | Ok _ => close target
  | Err h => drop_connection target;; fail h
  end.
End build.
