(* ===== verification/Migrate.v ===== *)
(** Migrating an older database file at startup:
    [crates/rustmail-storage/src/migrate.rs]. *)
From S2P Require Import Prelude RustStd StorageError Content MailParser Prepared OldDb Fingerprint MigrateDisk MigrateBuild.
From S2P Require Schema.

Definition MAX_BUILD_ATTEMPTS : nat := 2.
Definition TARGET_WAL_ALLOWANCE_BYTES : Z := 64 * 1024 * 1024.

(** The report of a completed migration, its duration left out. *)
Record MigrationReport := { r_messages : Z; r_counts : AttachmentCounts; backup_path : bytes }.
Inductive Preparation := Ready (report : option MigrationReport) | PreparationPaused (migrated total : Z).

(** ** What the files are *)

Inductive DbState := DbAbsent | DbEmpty | Older (s : SourceSchema.t) | DbCurrent.
#[export] Instance DbState_eq_dec : EqDecision DbState.
Proof. solve_decision. Defined.
Definition describe_db (s : DbState) : bytes :=
  match s with
  | DbAbsent => b#"absent"
  | DbEmpty => b#"empty"
  | Older SourceSchema.Legacy => b#"schema 0"
  | Older SourceSchema.Previous => b#"schema 1"
  | DbCurrent => b#"schema 2"
  end.
Inductive CopyState := CopyAbsent | Incomplete (o : option Origin) | Complete (schema : Z) (o : option Origin).
#[export] Instance CopyState_eq_dec : EqDecision CopyState.
Proof. solve_decision. Defined.
Definition describe_copy (s : CopyState) : bytes :=
  match s with
  | CopyAbsent => b#"absent"
  | Incomplete _ => b#"incomplete"
  | Complete _ _ => b#"complete"
  end.
Definition copy_origin (s : CopyState) : option Origin :=
  match s with CopyAbsent => None | Incomplete o | Complete _ o => o end.
Definition resumable_origin (s : CopyState) (source : SourceSchema.t) : option Origin :=
  o ← copy_origin s;
  if (source_schema o =? SourceSchema.version source)%Z && (target_schema o =? Schema.SCHEMA_VERSION)%Z
  then Some o else None.

Definition state_of (s : Schema.FileSchema) : DbState :=
  match s with
  | Schema.EmptyFile => DbEmpty
  | Schema.Legacy => Older SourceSchema.Legacy
  | Schema.Previous => Older SourceSchema.Previous
  | Schema.Current => DbCurrent
  end.
Definition inspect_db (p : bytes) : FS DbState :=
  there ← exists_ p;
  if negb there then mret DbAbsent
  else schema ← with_connection p (f ← read_file p; lift (probe f)); mret (state_of schema).
Definition inspect_copy (p : bytes) : FS CopyState :=
  there ← exists_ p;
  if negb there then mret CopyAbsent
  else
    '(version, o) ← with_connection p (f ← read_file p; f' ← read_file p; mret (user_version f, read_origin f'));
    mret (if (version =? Schema.SCHEMA_VERSION)%Z || (version =? Schema.PREVIOUS_SCHEMA_VERSION)%Z
          then Complete version o else Incomplete o).

Fixpoint present_of (l : list bytes) : FS (list bytes) :=
  match l with
  | [] => mret []
  | p :: l => there ← exists_ p; l ← present_of l; mret (if (there : bool) then p :: l else l)
  end.
Definition present_backups (p : Paths) : FS (list bytes) := present_of (backups p).
Definition any_backup (p : Paths) : FS bool :=
  l ← present_backups p; mret (match l with [] => false | _ => true end).

(** What others write comes before the look. *)
Definition meddle (p : bytes) : FS unit := λ w,
  let w' := w <| meddling := tail (meddling w) |> in
  Some (Ok tt, match meddling w, files w !! p with
               | f :: _, Some file => w' <| files := <[p := f file]> (files w') |>
               | _, _ => w'
               end).

Section migrate.
Context `{Json, Zstd, MailParser, Machine}.

Definition log_backup (p : bytes) : FS unit := file_len p;; mret tt.

(** The scan's fuel is its own. *)
Definition scanned (r : result StorageError (option SourcePrint)) : FS SourcePrint :=
  match r with
  | Ok (Some p) => mret p
  | Ok None => λ _, None
  | Err e => refuse e
  end.
Definition fingerprint_of (p : bytes) (source : SourceSchema.t) : FS bytes :=
  with_connection p (
    sql;;
    f ← read_file p;
    print ← scanned (fingerprint (layout_probe (contents f) source) (contents f));
    sql;;
    mret (fingerprint_text print)).

Fixpoint refuse_sides (database : bytes) (l : list bytes) : FS unit :=
  match l with
  | [] => mret tt
  | s :: l =>
    there ← exists_ s;
    if (there : bool) then refuse (MigrationRefused (FileInUse database s)) else refuse_sides database l
  end.
Definition refuse_open_files (p : Paths) (fs : list bytes) : FS unit :=
  refuse_sides (db p) (flat_map (λ f, [sidecar f WAL_SUFFIX; sidecar f SHM_SUFFIX]) fs).

Definition finish_interrupted_swap (p : Paths) (o : Origin) : FS unit :=
  match SourceSchema.from_version (source_schema o) with
  | None => refuse (MigrationRefused (BackupChanged (db p) (backup p SourceSchema.Legacy) (migrating p)))
  | Some source =>
    let changed := refuse (MigrationRefused (BackupChanged (db p) (backup p source) (migrating p))) in
    there ← exists_ (backup p source);
    if negb there then changed
    else
      print ← fingerprint_of (backup p source) source;
      if negb (made_from o print) then changed
      else
        refuse_open_files p [backup p source; migrating p];;
        rename (migrating p) (db p);;
        sync_parent (db p)
  end.

(** ** One run *)

Record Migration := { m_paths : Paths; m_options : MigrationOptions; m_source : SourceSchema.t }.
Definition m_backup (m : Migration) : bytes := backup (m_paths m) (m_source m).
Definition m_db (m : Migration) : bytes := db (m_paths m).
Definition m_copy (m : Migration) : bytes := migrating (m_paths m).

(** [Source::lock]. *)
Definition lock_source (p : bytes) : FS unit :=
  connect p;;
  r ← attempt (sql;; meddle p);
  match r with Ok _ => mret tt | Err h => close p;; fail h end.
Definition source_fingerprint_now (p : bytes) (layout : SourceLayout.t) : FS SourcePrint :=
  meddle p;;
  f ← read_file p;
  scanned (fingerprint layout (contents f)).
(** [Source::release]: an error of the [ROLLBACK] leaves the connection to be
    dropped. *)
Definition release_source (p : bytes) : FS unit :=
  r ← attempt sql;
  match r with Ok _ => close p | Err h => drop_connection p;; fail h end.

Inductive Start := Fresh | Resume | StartComplete.
Inductive Built := Swappable (counts : AttachmentCounts) (messages : Z) | BuiltPaused (migrated total : Z).

Definition copied_messages (m : Migration) : FS Z :=
  with_connection (m_copy m) (f ← read_file (m_copy m); lift (message_count f)).
Definition completed_counts (m : Migration) : FS AttachmentCounts :=
  with_connection (m_copy m) (
    f ← read_file (m_copy m);
    match contents f, origin_row f with
    | Schema2 t, Some o => mret (attachment_counts t o)
    | _, _ => refuse NO_SUCH_TABLE
    end).
(** The side file's length is part of the copy's. *)
Definition disk_full (m : Migration) : FS StorageError :=
  source ← file_len (m_db m);
  written ← file_len (m_copy m);
  wal ← file_len (sidecar (m_copy m) WAL_SUFFIX);
  mret (MigrationDiskFull (m_db m) (Z.max 0 (source + TARGET_WAL_ALLOWANCE_BYTES - (written + wal)))).

(** [Target::create] or [Target::open], then copying, verifying and finalizing.
    [None] is a copy that was asked to stop. *)
Definition build (m : Migration) (fresh : bool) (print : SourcePrint) : FS (option AttachmentCounts) :=
  (if fresh
   then bits ← mode_of (m_db m);
        create_with_mode (m_copy m) bits;;
        create (m_copy m) (m_db m) (m_source m) (fingerprint_text print)
   else open (m_copy m) (m_db m));;
  result ← attempt (
    from ← read_file (m_db m);
    let layout := layout_probe (contents from) (m_source m) in
    outcome ← copy (m_db m) (m_copy m) layout (m_options m) (print_messages print);
    match outcome with
    | Paused _ _ => mret None
    | Finished => counts ← verify (m_db m) (m_copy m) layout (m_db m); mret (Some counts)
    end);
  match result with
  | Ok (Some counts) => finalize (m_copy m);; mret (Some counts)
  | Ok None => close_target (m_copy m);; mret None
  | Err h => attempt (close_target (m_copy m));; fail h
  end.

(** One attempt: [inl] ends the run, [inr] is the fingerprint to try again with. *)
Definition one_attempt (m : Migration) (layout : SourceLayout.t) (start : Start) (print : SourcePrint)
    : FS (Built + SourcePrint) :=
  match start with Fresh => remove_copy (m_paths m) | _ => mret tt end;;
  counts ←
    match start with
    | StartComplete => mret (Ok (Some None))
    | Fresh | Resume =>
      r ← attempt (build m (match start with Fresh => true | _ => false end) print);
      match r with
      | Ok (Some counts) => mret (Ok (Some (Some counts)))
      | Ok None => mret (Ok None)
      | Err (Failed e) =>
        if bool_decide (sqlite_primary_code e = Some SQLITE_FULL)
        then full ← disk_full m; mret (Err (Failed full))
        else mret (Err (Failed e))
      | Err Killed => mret (Err Killed)
      end
    end;
  counts ← give counts;
  match counts with
  | None => migrated ← copied_messages m; mret (inl (BuiltPaused migrated (print_messages print)))
  | Some counts =>
    now ← source_fingerprint_now (m_db m) layout;
    if beqb (fingerprint_text now) (fingerprint_text print)
    then counts ← match counts with Some c => mret c | None => completed_counts m end;
         mret (inl (Swappable counts (print_messages print)))
    else mret (inr now)
  end.
Fixpoint attempts (m : Migration) (layout : SourceLayout.t) (n : nat) (start : Start) (print : SourcePrint) : FS Built :=
  match n with
  | 0 => refuse (MigrationRefused (SourceUnstable (m_db m)))
  | S n =>
    r ← one_attempt m layout start print;
    match r with inl built => mret built | inr now => attempts m layout n Fresh now end
  end.

Definition build_locked (m : Migration) (state : CopyState) : FS Built :=
  f ← read_file (m_db m);
  let layout := layout_probe (contents f) (m_source m) in
  print ← source_fingerprint_now (m_db m) layout;
  file_len (m_db m);;
  let resumable :=
    o ← resumable_origin state (m_source m);
    if made_from o (fingerprint_text print) then Some o else None in
  match resumable with
  | Some o =>
    if beqb (o_fingerprint o) (fingerprint_text print)
    then with_connection (m_copy m)
           (transact (m_copy m) (λ f, Ok (qualify_origin (fingerprint_text print) f)))
    else mret tt
  | None => mret tt
  end;;
  let start :=
    match state, resumable with
    | Incomplete _, Some _ => Resume
    | Complete _ _, Some _ => StartComplete
    | _, _ => Fresh
    end in
  attempts m layout MAX_BUILD_ATTEMPTS start print.

Definition swap (m : Migration) : FS unit :=
  refuse_open_files (m_paths m) [m_db m; m_copy m];;
  there ← exists_ (m_backup m);
  if (there : bool)
  then refuse (MigrationRefused (AmbiguousBackup (m_db m) (SourceSchema.version (m_source m)) (m_backup m) (Some (m_copy m))))
  else
    rename (m_db m) (m_backup m);;
    rename (m_copy m) (m_db m);;
    sync_parent (m_db m).

Definition run_steps (m : Migration) (state : CopyState) : FS Preparation :=
  lock_source (m_db m);;
  built ← attempt (build_locked m state);
  released ← attempt (release_source (m_db m));
  built ← give built;
  match built with
  | BuiltPaused migrated total => give released;; mret (PreparationPaused migrated total)
  | Swappable counts messages =>
    give released;;
    swap m;;
    mret (Ready (Some {| r_messages := messages; r_counts := counts; backup_path := m_backup m |}))
  end.

(** ** Resolving the state of the files *)

Fixpoint log_backups (l : list bytes) : FS unit :=
  match l with
  | [] => mret tt
  | b :: l => there ← exists_ b; (if (there : bool) then log_backup b else mret tt);; log_backups l
  end.
(** The row of the table for what was found; [None] looks again. *)
Definition resolve (p : Paths) (options : MigrationOptions) (d : DbState) (copy : CopyState) : FS (option Preparation) :=
  let unknown :=
    bs ← present_backups p;
    refuse (MigrationRefused (UnknownState (db p) (describe_db d) bs (migrating p) (describe_copy copy))) in
  match d, copy with
  | DbCurrent, CopyAbsent => log_backups (backups p);; mret (Some (Ready None))
  | DbCurrent, _ => refuse (MigrationRefused (StrayMigrationCopy (db p) (migrating p)))
  | Older schema, _ =>
    there ← exists_ (backup p schema);
    if (there : bool)
    then refuse (MigrationRefused (AmbiguousBackup (db p) (SourceSchema.version schema) (backup p schema)
                  (if bool_decide (copy = CopyAbsent) then None else Some (migrating p))))
    else
      prep ← run_steps {| m_paths := p; m_options := options; m_source := schema |} copy;
      mret (Some prep)
  | DbAbsent, Complete _ (Some o) =>
    if bool_decide (is_Some (SourceSchema.from_version (source_schema o)))
    then finish_interrupted_swap p o;; mret None
    else unknown
  | DbAbsent, CopyAbsent | DbEmpty, CopyAbsent =>
    any ← any_backup p;
    if (any : bool) then unknown else mret (Some (Ready None))
  | _, _ => unknown
  end.
(** A finished swap puts the copy at the database's path, so the third look ends. *)
Fixpoint resolve_loop (fuel : nat) (p : Paths) (options : MigrationOptions) : FS Preparation :=
  match fuel with
  | 0 => λ _, None
  | S fuel =>
    d ← inspect_db (db p);
    copy ← inspect_copy (migrating p);
    r ← resolve p options d copy;
    match r with Some prep => mret prep | None => resolve_loop fuel p options end
  end.
Definition prepare_with (path : bytes) (options : MigrationOptions) : FS Preparation :=
  let p := paths_of path in
  acquire_lock p;;
  resolve_loop 3 p options.
Definition prepare_database_file (path : bytes) : FS Preparation := prepare_with path default_options.
End migrate.
