(* ===== verification/MigrateRestore.v ===== *)
(** Putting the backup of a migration back:
    [crates/rustmail-storage/src/migrate/restore.rs]. *)
From S2P Require Import Prelude RustStd StorageError Content MailParser Prepared Repo OldDb Fingerprint MigrateDisk MigrateBuild Migrate.
From S2P Require Schema.
#[local] Existing Instance Schema.FileSchema_eq_dec.

Definition KEPT_SUFFIX : bytes := b#".schema2-".
Definition SIDE_SUFFIXES : list bytes := [WAL_SUFFIX; SHM_SUFFIX; JOURNAL_SUFFIX].
Definition DATE_DIGITS : nat := 8.
Definition TIME_DIGITS : nat := 6.

Record RestoreReport := { database : bytes; restored_from : bytes; kept_as : bytes }.

Definition all_digits (part : bytes) (n : nat) : bool := (length part =? n) && forallb is_ascii_digit part.
Definition is_timestamp (text : bytes) : bool :=
  match strip_suffix b#"Z" text ≫= split_once "T" with
  | Some (date, time) => all_digits date DATE_DIGITS && all_digits time TIME_DIGITS
  | None => false
  end.

(** [sort] of paths. *)
Fixpoint insert_path (p : bytes) (l : list bytes) : list bytes :=
  match l with [] => [p] | q :: l => if bytes_ltb q p then q :: insert_path p l else p :: q :: l end.
Definition sort_paths (l : list bytes) : list bytes := foldr insert_path [] l.
Definition kept_names (d : bytes) (names : list bytes) : list bytes :=
  sort_paths (List.filter (λ p, match strip_prefix (sidecar d KEPT_SUFFIX) p with
                                | Some rest => is_timestamp rest
                                | None => false
                                end) names).
Definition kept_files (d : bytes) : FS (list bytes) :=
  blocking b#"list the directory" d;; gets (λ w, kept_names d (map fst (map_to_list (files w)))).

Section restore.
Context `{Json, Zstd, MailParser, Machine}.

Fixpoint refuse_each (d : bytes) (l : list bytes) : FS unit :=
  match l with
  | [] => mret tt
  | s :: l =>
    there ← exists_ s;
    if (there : bool) then refuse (RestoreRefused (RestoreFileInUse d s)) else refuse_each d l
  end.
Definition refuse_side_files (d file : bytes) : FS unit := refuse_each d (map (sidecar file) SIDE_SUFFIXES).

(** An immutable connection leaves nothing beside the file. *)
Definition with_immutable {A} (p : bytes) (body : FS A) : FS A :=
  sql;;
  there ← gets (λ w, bool_decide (is_Some (files w !! p)));
  if (there : bool)
  then r ← attempt body; sql;; give r
  else refuse (Database (DatabaseError (Some b#"14"))).
Definition inspect_db_immutable (p : bytes) : FS DbState :=
  there ← exists_ p;
  if negb there then mret DbAbsent
  else schema ← with_immutable p (f ← read_file p; lift (probe f)); mret (state_of schema).

Definition migrated_from (p : bytes) (immutable : bool) : FS (option (SourceSchema.t * Origin)) :=
  let body := f ← read_file p; mret (read_origin f) in
  o ← (if immutable then with_immutable p body else with_connection p body);
  mret (o ← o; source ← SourceSchema.from_version (source_schema o); Some (source, o)).

(** Whatever goes wrong while the backup is read makes it invalid. *)
Definition invalid {A} (b : bytes) (source : SourceSchema.t) (h : halt) : FS A :=
  match h with
  | Failed _ => refuse (RestoreRefused (BackupInvalid b (SourceSchema.version source)))
  | Killed => fail Killed
  end.
Definition expected_schema (source : SourceSchema.t) : Schema.FileSchema :=
  match source with SourceSchema.Legacy => Schema.Legacy | SourceSchema.Previous => Schema.Previous end.
Definition check_backup (b : bytes) (source : SourceSchema.t) : FS unit :=
  r ← attempt (connect b);
  match r with
  | Err h => invalid b source h
  | Ok _ =>
    checked ← attempt (f ← read_file b; schema ← lift (probe f); sql;; mret (schema, intact f));
    close b;;
    match checked with
    | Ok (schema, whole) =>
      if bool_decide (schema = expected_schema source) && whole then mret tt
      else refuse (RestoreRefused (BackupInvalid b (SourceSchema.version source)))
    | Err h => invalid b source h
    end
  end.

(** The log is busy as long as another process uses it. *)
Definition checkpoint (d : bytes) : FS unit :=
  busy ← with_connection d (sql;; gets (λ w, bool_decide (d ∈ others w)));
  if (busy : bool) then refuse (RestoreRefused (CheckpointBusy d)) else mret tt.

Definition put_backup_in_place (p : Paths) (b kept : bytes) : FS RestoreReport :=
  rename b (db p);;
  sync_parent (db p);;
  mret {| database := db p; restored_from := b; kept_as := kept |}.

Definition interrupted_kept_file (p : Paths) : FS (bytes * bytes * SourceSchema.t) :=
  let not_interrupted {A} (b : bytes) : FS A := refuse (RestoreRefused (NotAnInterruptedRestore (db p) b)) in
  let fallback := backup p SourceSchema.Previous in
  kept ← kept_files (db p);
  match last kept with
  | None => not_interrupted fallback
  | Some kept =>
    refuse_side_files (db p) kept;;
    state ← attempt (inspect_db_immutable kept);
    match state with
    | Ok DbCurrent =>
      made ← migrated_from kept true;
      match made with
      | None => not_interrupted fallback
      | Some (source, o) =>
        let b := backup p source in
        there ← exists_ b;
        if negb there then not_interrupted b
        else
          refuse_side_files (db p) b;;
          print ← attempt (fingerprint_of b source);
          match print with
          | Ok print => if made_from o print then mret (kept, b, source) else not_interrupted b
          | Err (Failed _) => not_interrupted b
          | Err Killed => fail Killed
          end
      end
    | Ok _ | Err (Failed _) => not_interrupted fallback
    | Err Killed => fail Killed
    end
  end.
Definition finish_interrupted_restore (p : Paths) : FS RestoreReport :=
  '(kept, b, source) ← interrupted_kept_file p;
  refuse_side_files (db p) (db p);;
  refuse_side_files (db p) b;;
  check_backup b source;;
  refuse_side_files (db p) b;;
  refuse_side_files (db p) (db p);;
  put_backup_in_place p b kept.

Fixpoint any_of (l : list bytes) : FS bool :=
  match l with
  | [] => mret false
  | b :: l => there ← exists_ b; if (there : bool) then mret true else any_of l
  end.
Definition restore_backup (path : bytes) : FS RestoreReport :=
  let p := paths_of path in
  acquire_lock p;;
  state ← inspect_db (db p);
  interrupted ← (if bool_decide (state = DbAbsent) then any_of (backups p) else mret false);
  if negb interrupted && negb (bool_decide (state = DbCurrent))
  then refuse (RestoreRefused (NotMigrated (db p) (describe_db state)))
  else
    stray ← exists_ (migrating p);
    if (stray : bool) then refuse (RestoreRefused (MigrationCopyPresent (db p) (migrating p)))
    else if (interrupted : bool) then finish_interrupted_restore p
    else
      made ← migrated_from (db p) false;
      match made with
      | None => refuse (RestoreRefused (NoBackup (db p) (backup p SourceSchema.Previous)))
      | Some (source, _) =>
        let b := backup p source in
        there ← exists_ b;
        if negb there then refuse (RestoreRefused (NoBackup (db p) b))
        else
          refuse_side_files (db p) b;;
          check_backup b source;;
          refuse_side_files (db p) b;;
          checkpoint (db p);;
          refuse_side_files (db p) (db p);;
          let kept := sidecar (db p) (KEPT_SUFFIX ++ utc_now) in
          taken ← exists_ kept;
          if (taken : bool) then refuse (RestoreRefused (KeptNameTaken kept))
          else
            rename (db p) kept;;
            put_backup_in_place p b kept
      end.
End restore.
