(* ===== verification/MigrateWork.v ===== *)
(** How the migration shares work and plans attachments: what [in_parallel],
    [sort_by_key] and [plan_attachments] of
    [crates/rustmail-storage/src/migrate/build.rs] compute. *)
From S2P Require Import Prelude RustStd StorageError Content MailParser Locator Prepared OldDb Fingerprint MigrateDisk MigrateBuild.

(** ** Sorting by a key *)

Section sort.
Context {A : Type} (key : A → Z).
Abbreviation by_key := (StronglySorted (λ a b, (key a ≤ key b)%Z)).

Lemma insert_by_perm x l : insert_by key x l ≡ₚ x :: l.
Proof. induction l as [|y l IH]; simpl; [done|]. destruct (_ <=? _)%Z; [done|]. rewrite IH. apply Permutation_swap. Qed.
Lemma sort_by_key_perm l : sort_by_key key l ≡ₚ l.
Proof. induction l as [|x l IH]; [done|]. cbn [sort_by_key foldr]. rewrite insert_by_perm. by apply Permutation_skip. Qed.
Lemma insert_by_sorted x l : by_key l → by_key (insert_by key x l).
Proof.
  induction 1 as [|y l Hl IH Hy]; simpl; [repeat constructor|]. destruct (Z.leb_spec (key x) (key y)).
  - constructor; [by constructor|]. constructor; [done|]. eapply Forall_impl; [done|]. simpl. lia.
  - constructor; [done|]. rewrite insert_by_perm. constructor; [lia|done].
Qed.
Lemma sort_by_key_sorted l : by_key (sort_by_key key l).
Proof. induction l; [constructor|]. by apply insert_by_sorted. Qed.
Lemma sort_by_key_id l : by_key l → sort_by_key key l = l.
Proof.
  induction 1 as [|x l Hl IH Hx]; [done|]. cbn [sort_by_key foldr]. fold (sort_by_key key l). rewrite IH.
  destruct Hx as [|y l Hy Hx]; [done|]. simpl. by rewrite (proj2 (Z.leb_le _ _)).
Qed.
End sort.

Lemma sorted_app {A} (R : A → A → Prop) l k :
  StronglySorted R l → StronglySorted R k → (∀ x y, x ∈ l → y ∈ k → R x y) → StronglySorted R (l ++ k).
Proof.
  induction 1 as [|x l Hl IH Hx]; intros Hk Hlk; [done|]. simpl. constructor; [apply IH; set_solver|].
  apply Forall_app. split; [done|]. apply Forall_forall. intros y Hy. apply Hlk; set_solver.
Qed.

(** ** Sharing work out and putting the results back together *)

Section parallel.
Context {A B : Type}.

Lemma dealt_once {C} (k : nat) (x : C) (F : nat → list C) ws :
  NoDup ws → k ∈ ws →
  concat (map (λ w, (if k =? w then [x] else []) ++ F w) ws) ≡ₚ x :: concat (map F ws).
Proof.
  assert (Hrest : ∀ ws, k ∉ ws → map (λ w, (if k =? w then [x] else []) ++ F w) ws = map F ws).
  { intros ws' Hk. apply map_ext_in. intros w Hw%list_elem_of_In. destruct (Nat.eqb_spec k w); [by subst|done]. }
  induction 1 as [|w ws Hw Hnd IH]; intros Hk; [by apply elem_of_nil in Hk|]. simpl.
  destruct (Nat.eqb_spec k w) as [->|Hne].
  - by rewrite Hrest.
  - rewrite IH by set_solver. by rewrite <- Permutation_middle.
Qed.
Lemma shares_perm workers (l : list (nat * A)) :
  0 < workers →
  concat (map (λ w, List.filter (λ x, fst x mod workers =? w) l) (List.seq 0 workers)) ≡ₚ l.
Proof.
  intros Hw. induction l as [|[k x] l IH].
  - simpl. induction (List.seq 0 workers); [done|]. simpl. done.
  - transitivity ((k, x) :: concat (map (λ w, List.filter (λ x, fst x mod workers =? w) l) (List.seq 0 workers)));
      [|by rewrite IH].
    rewrite <- (dealt_once (k mod workers)).
    + apply reflexive_eq. f_equal. apply map_ext. intros w. simpl. by destruct (_ =? _).
    + apply NoDup_ListNoDup, seq_NoDup.
    + apply list_elem_of_In, in_seq. split; [lia|]. apply Nat.mod_upper_bound. lia.
Qed.

Lemma imap_pair_sorted (l : list A) n :
  StronglySorted (λ a b, (Z.of_nat (fst a) ≤ Z.of_nat (fst b))%Z) (imap (λ i, pair (n + i)) l).
Proof.
  revert n. induction l as [|x l IH]; intros n; [constructor|]. cbn [imap]. constructor.
  - eapply (eq_ind _ _ (IH (S n))). apply imap_ext. intros i y _. simpl. f_equal. lia.
  - apply Forall_forall. intros [k y] (i & z & Hz & _)%elem_of_lookup_imap. simpl in *. simplify_eq. simpl. lia.
Qed.
Lemma imap_pair_keys (l : list A) n : map fst (imap (λ i, pair (n + i)) l) = List.seq n (length l).
Proof.
  revert n. induction l as [|x l IH]; intros n; [done|]. cbn. f_equal; [lia|].
  rewrite <- IH. f_equal. apply imap_ext. intros i y _. simpl. f_equal. lia.
Qed.

(** The results come in the order of the items, however many cores there are. *)
Lemma in_parallel_map cores (items : list A) (work : A → B) :
  0 < cores → in_parallel_on cores items work = map work items.
Proof.
  intros Hc. unfold in_parallel_on. destruct items as [|x0 rest] eqn:Hi; [done|]. rewrite <- Hi.
  assert (Hpos : 0 < cores `min` length items) by (rewrite Hi; simpl; lia).
  revert Hpos. generalize (cores `min` length items). intros workers Hw. clear x0 rest Hi Hc cores.
  set (run := λ '(index, item), (index : nat, work item)).
  assert (Hkeys : map fst (map run (imap pair items)) = List.seq 0 (length items)).
  { rewrite map_map, <- (imap_pair_keys items 0). apply map_ext. by intros []. }
  assert (Hs : StronglySorted (λ a b, (Z.of_nat (fst a) ≤ Z.of_nat (fst b))%Z) (map run (imap pair items))).
  { assert (Hs : StronglySorted (λ a b, (Z.of_nat (fst a) ≤ Z.of_nat (fst b))%Z) (imap pair items))
      by exact (imap_pair_sorted items 0).
    revert Hs. generalize (imap pair items). clear. induction 1 as [|x l Hl IH Hx]; simpl; constructor; [done|].
    apply Forall_map. eapply Forall_impl; [exact Hx|]. by destruct x; intros []. }
  assert (Hp : concat (map (map run) (map (λ w, share workers w items) (List.seq 0 workers))) ≡ₚ map run (imap pair items)).
  { rewrite <- concat_map. apply Permutation_map. by apply shares_perm. }
  rewrite (StronglySorted_unique_strong (λ a b, (Z.of_nat (fst a) ≤ Z.of_nat (fst b))%Z) _ (map run (imap pair items))).
  - transitivity (map work (map snd (imap pair items))).
    + rewrite !map_map. apply map_ext. by intros [].
    + f_equal. clear. assert (Hgen : ∀ n, map snd (imap (λ i, pair (n + i)) items) = items).
      { induction items as [|x l IH]; intros n; [done|]. cbn. f_equal. rewrite <- (IH (S n)) at 2. f_equal.
        apply imap_ext. intros i y _. simpl. f_equal. lia. }
      exact (Hgen 0).
  - intros x y Hx Hy Hxy Hyx. rewrite sort_by_key_perm, Hp in Hx.
    assert (Heq : fst x = fst y) by lia. clear -Hx Hy Heq Hkeys.
    assert (Hnd : NoDup (map fst (map run (imap pair items)))) by (rewrite Hkeys; apply NoDup_ListNoDup, seq_NoDup).
    by eapply (NoDup_key_inj fst).
  - apply sort_by_key_sorted.
  - exact Hs.
  - by rewrite sort_by_key_perm.
Qed.
End parallel.

(** ** Attachments of schema 0 *)

Section plan.
Context `{MailParser}.

Definition attachments_of (d : LegacyDb) (m : LegacyRow) : list LegacyAttachment :=
  map (λ a, {| meta := la_meta a; content := la_content a |})
    (List.filter (λ a, beqb (la_message_id a) (l_id m)) (l_attachments d)).
(** The plan of one message, whatever batch it falls into. *)
Definition plan_row (d : LegacyDb) (m : LegacyRow) : list PlannedAttachment :=
  plan_message {| lm_seq := rowid m; lm_raw := l_raw m; lm_attachments := attachments_of d m |}.
Definition planned_between (d : LegacyDb) (after last : Z) : list PlannedAttachment :=
  flat_map (plan_row d) (List.filter (λ m, (after <? rowid m)%Z && (rowid m <=? last)%Z) (l_messages d)).

Abbreviation by_rowid := (StronglySorted (λ a b, (rowid a < rowid b)%Z)).

Lemma push_more acc s pre more :
  fold_left push_row (map (pair s) more) (acc ++ [{| lm_seq := s; lm_raw := []; lm_attachments := pre |}]) =
  acc ++ [{| lm_seq := s; lm_raw := []; lm_attachments := pre ++ more |}].
Proof.
  revert pre. induction more as [|a more IH]; intros pre; [by rewrite app_nil_r|]. cbn [map fold_left].
  unfold push_row at 2. rewrite last_snoc. cbn [lm_seq fst snd lm_raw lm_attachments].
  by rewrite Z.eqb_refl, removelast_last, IH, <- (assoc_L (++)).
Qed.
Lemma push_message acc s a more :
  Forall (λ x, (lm_seq x < s)%Z) acc →
  fold_left push_row (map (pair s) (a :: more)) acc = acc ++ [{| lm_seq := s; lm_raw := []; lm_attachments := a :: more |}].
Proof.
  intros Hacc. etransitivity; [|exact (push_more acc s [a] more)]. cbn [map fold_left]. f_equal. unfold push_row.
  destruct (last acc) as [x|] eqn:Hl.
  - apply last_Some in Hl as [l' ->]. apply Forall_app in Hacc as [_ Hx]. inversion_clear Hx.
    by rewrite (proj2 (Z.eqb_neq _ _)) by (simpl; lia).
  - apply last_None in Hl as ->. done.
Qed.
Lemma group_rows d ms acc :
  by_rowid ms → (∀ x m, x ∈ acc → m ∈ ms → (lm_seq x < rowid m)%Z) →
  fold_left push_row (flat_map (λ m, map (pair (rowid m)) (attachments_of d m)) ms) acc =
  acc ++ omap (λ m, match attachments_of d m with
                    | [] => None
                    | l => Some {| lm_seq := rowid m; lm_raw := []; lm_attachments := l |}
                    end) ms.
Proof.
  intros Hs. revert acc. induction Hs as [|m ms Hs IH Hm]; intros acc Hacc; [by rewrite app_nil_r|].
  cbn [flat_map]. rewrite fold_left_app. cbn [omap list_omap]. rewrite Forall_forall in Hm.
  destruct (attachments_of d m) as [|a more] eqn:Ha.
  - apply IH. intros x m' Hx Hm'. apply Hacc; [done|set_solver].
  - rewrite push_message.
    + rewrite IH; [by rewrite <- (assoc_L (++))|]. intros x m' [Hx| ->%list_elem_of_singleton]%elem_of_app Hm'.
      * apply Hacc; [done|set_solver].
      * by apply Hm.
    + apply Forall_forall. intros x Hx. apply Hacc; [done|set_solver].
Qed.

Lemma raw_of_row d m : NoDup (map rowid (l_messages d)) → m ∈ l_messages d → raw_of d (rowid m) = Some (l_raw m).
Proof.
  unfold raw_of. intros Hnd Hm. destruct (head (List.filter _ (l_messages d))) as [m'|] eqn:Hh.
  - assert (Hm' : m' ∈ List.filter (λ m', (rowid m' =? rowid m)%Z) (l_messages d))
      by (destruct (List.filter _ _); simplify_eq/=; set_solver).
    apply list_elem_of_In, filter_In in Hm' as [Hin%list_elem_of_In Heq%Z.eqb_eq].
    by rewrite (NoDup_key_inj rowid _ _ _ Hnd Hin Hm Heq).
  - assert (Hm' : m ∈ List.filter (λ m', (rowid m' =? rowid m)%Z) (l_messages d))
      by (apply list_elem_of_In, filter_In; by rewrite Z.eqb_refl, <- list_elem_of_In).
    destruct (List.filter _ _); [by apply elem_of_nil in Hm'|done].
Qed.

Lemma with_raw_row d m l : NoDup (map rowid (l_messages d)) → m ∈ l_messages d →
  with_raw d {| lm_seq := rowid m; lm_raw := []; lm_attachments := l |} =
    Some {| lm_seq := rowid m; lm_raw := l_raw m; lm_attachments := l |}.
Proof. intros Hnd Hm. unfold with_raw. cbn [lm_seq lm_attachments]. by rewrite raw_of_row. Qed.

Lemma by_rowid_nodup ms : by_rowid ms → NoDup (map rowid ms).
Proof.
  induction 1 as [|m ms Hs IH Hm]; constructor; [|done]. intros (m' & Heq & Hm')%list_elem_of_fmap.
  rewrite Forall_forall in Hm. apply Hm in Hm'. lia.
Qed.
Lemma filter_by_rowid (p : LegacyRow → bool) ms : by_rowid ms → by_rowid (List.filter p ms).
Proof.
  induction 1 as [|m ms Hs IH Hm]; simpl; [constructor|]. destruct (p m); [|done]. constructor; [done|].
  rewrite Forall_forall in Hm |- *. intros m' (Hm' & _)%list_elem_of_In%filter_In. by apply Hm, list_elem_of_In.
Qed.

Lemma plan_message_seq m : Forall (λ a, pa_seq a = lm_seq m) (plan_message m).
Proof. apply Forall_forall. intros a (i & x & -> & _)%elem_of_lookup_imap. done. Qed.
Lemma plans_sorted d ms : by_rowid ms → StronglySorted (λ a b, (pa_seq a ≤ pa_seq b)%Z) (flat_map (plan_row d) ms).
Proof.
  assert (Heq : ∀ s l, Forall (λ a, pa_seq a = s) l → StronglySorted (λ a b, (pa_seq a ≤ pa_seq b)%Z) l).
  { intros s. induction l as [|a l IH]; intros Hl; constructor; inversion_clear Hl as [|?? Ha Hl']; [by apply IH|].
    eapply Forall_impl; [exact Hl'|]. simpl. intros. lia. }
  induction 1 as [|m ms Hs IH Hm]; [constructor|]. cbn [flat_map].
  pose proof (plan_message_seq {| lm_seq := rowid m; lm_raw := l_raw m; lm_attachments := attachments_of d m |}) as Hpm.
  fold (plan_row d m) in Hpm. simpl in Hpm.
  assert (Hrest : Forall (λ b, (rowid m ≤ pa_seq b)%Z) (flat_map (plan_row d) ms)).
  { apply Forall_forall. intros b (m' & Hm' & Hb%list_elem_of_In)%list_elem_of_In%in_flat_map. apply list_elem_of_In in Hm'.
    rewrite Forall_forall in Hm. apply Hm in Hm'. unfold plan_row in Hb.
    pose proof (plan_message_seq {| lm_seq := rowid m'; lm_raw := l_raw m'; lm_attachments := attachments_of d m' |}) as Hb'.
    rewrite Forall_forall in Hb'. apply Hb' in Hb. simpl in Hb. lia. }
  apply sorted_app; [by eapply Heq|done|]. intros x y Hx Hy. rewrite Forall_forall in Hpm, Hrest.
  rewrite (Hpm x Hx). by apply Hrest.
Qed.

(** However the rows are grouped and planned, the plan is each message's own. *)
Lemma plan_grouped cores d after last :
  by_rowid (l_messages d) → 0 < cores →
  ∃ ms, mapM (with_raw d) (fold_left push_row (legacy_attachment_rows d after last) []) = Some ms ∧
    sort_by_key pa_seq (concat (in_parallel_on cores ms plan_message)) = planned_between d after last.
Proof.
  intros Hs Hc. set (some := List.filter (λ m, (after <? rowid m)%Z && (rowid m <=? last)%Z) (l_messages d)).
  assert (Hrows : legacy_attachment_rows d after last = flat_map (λ m, map (pair (rowid m)) (attachments_of d m)) some).
  { unfold legacy_attachment_rows. apply flat_map_ext. intros m. unfold attachments_of. by rewrite map_map. }
  assert (Hsome : by_rowid some) by (by apply filter_by_rowid).
  rewrite Hrows, group_rows by (try done; set_solver). simpl.
  exists (omap (λ m, match attachments_of d m with
                     | [] => None
                     | l => Some {| lm_seq := rowid m; lm_raw := l_raw m; lm_attachments := l |}
                     end) some).
  assert (Hin : ∀ m, m ∈ some → m ∈ l_messages d).
  { intros m (Hm & _)%list_elem_of_In%filter_In. by apply list_elem_of_In. }
  split.
  - clear Hrows Hsome. induction some as [|m ms IH]; [done|]. cbn [omap list_omap].
    destruct (attachments_of d m) as [|a l] eqn:Ha; [apply IH; set_solver|]. cbn [mapM].
    rewrite (with_raw_row d m) by (try apply by_rowid_nodup; set_solver). cbn [mbind option_bind].
    by rewrite IH by set_solver.
  - rewrite in_parallel_map by done. unfold planned_between. fold some.
    replace (concat (map plan_message (omap _ some))) with (flat_map (plan_row d) some).
    + apply sort_by_key_id. by apply plans_sorted.
    + clear. induction some as [|m ms IH]; [done|]. cbn [flat_map omap list_omap]. rewrite IH.
      unfold plan_row at 1. by destruct (attachments_of d m).
Qed.
End plan.
