(* ===== verification/MigrateCopies.v ===== *)
(** What a copy holds after each batch: the tables the statements of
    [copy_batch] of [crates/rustmail-storage/src/migrate/build.rs] leave, as a
    function of the source and of the last message copied. *)
From S2P Require Import Prelude RustStd StorageError Content MailParser Locator Prepared Query Database Tables OldDb Fingerprint MigrateDisk MigrateBuild MigrateWork.
From S2P Require Schema.

(** ** A source no rule of its own schema is broken in *)

Record legacy_ok (d : LegacyDb) : Prop := {
  lo_rows : StronglySorted (λ a b, (rowid a < rowid b)%Z) (l_messages d);
  lo_positive : Forall (λ m, (0 < rowid m)%Z) (l_messages d);
  lo_ids : NoDup (map l_id (l_messages d));
  lo_attachments : StronglySorted (λ a b, (la_rowid a < la_rowid b)%Z) (l_attachments d);
  lo_attachment_rowids : Forall (λ a, (I64_MIN < la_rowid a)%Z) (l_attachments d);
  lo_attachment_ids : NoDup (map (λ a, am_id (la_meta a)) (l_attachments d));
}.
Record previous_ok `{Json} (d : PreviousDb) : Prop := {
  po_rows : ascending (p_messages d);
  po_positive : Forall (λ m, (0 < seq m)%Z) (p_messages d);
  po_ids : NoDup (map id (p_messages d));
  po_content m : m ∈ p_messages d → ∃ c, p_content d !! seq m = Some c ∧ m_size m = Z.of_nat (length (c_raw c));
  po_content_dom : dom (p_content d) = list_to_set (map seq (p_messages d));
  po_attachments : Forall (λ a, message_seq a ∈ map seq (p_messages d) ∧ attachment_okb a = true) (map snd (p_attachments d));
  po_attachment_rowids : StronglySorted (λ a b : Z * AttachmentRecord, (fst a < fst b)%Z) (p_attachments d);
  po_attachment_low : Forall (λ a : Z * AttachmentRecord, (I64_MIN < fst a)%Z) (p_attachments d);
  po_attachment_order : StronglySorted (λ a b, (message_seq a ≤ message_seq b)%Z) (map snd (p_attachments d));
  po_attachment_ids : NoDup (map a_id (map snd (p_attachments d)));
  po_tags tag s : (tag, s) ∈ p_tags d ↔ ∃ m, m ∈ p_messages d ∧ seq m = s ∧ tag ∈ json_each (tags m);
}.
Definition source_ok `{Json} (s : SourceSchema.t) (c : Contents) : Prop :=
  match s, c with
  | SourceSchema.Legacy, Schema0 d => legacy_ok d
  | SourceSchema.Previous, Schema1 d => previous_ok d
  | _, _ => False
  end.

(** ** Lists cut at a key *)

Section cut.
Context {A : Type} (key : A → Z).

Lemma after_sorted_gen (p : A → bool) l :
  StronglySorted (λ a b, (key a < key b)%Z) l → StronglySorted (λ a b, (key a < key b)%Z) (List.filter p l).
Proof.
  induction 1 as [|x l Hs IH Hx]; simpl; [constructor|]. destruct (p x); [|done]. constructor; [done|].
  rewrite Forall_forall in Hx |- *. intros y [Hy _]%elem_of_filter_b. by apply Hx.
Qed.
Lemma filter_all_true (p : A → bool) l : (∀ x, x ∈ l → p x = true) → List.filter p l = l.
Proof.
  induction l as [|x l IH]; intros Hp; [done|]. simpl. rewrite (Hp x) by (by left). f_equal. apply IH. intros y Hy.
  apply Hp. by right.
Qed.

Lemma filter_split l a b :
  StronglySorted (λ x y, (key x ≤ key y)%Z) l → (a ≤ b)%Z →
  List.filter (λ x, (key x <=? b)%Z) l =
  List.filter (λ x, (key x <=? a)%Z) l ++ List.filter (λ x, (a <? key x)%Z && (key x <=? b)%Z) l.
Proof.
  intros Hs Hab. induction Hs as [|x l Hs IH Hx]; [done|]. simpl.
  destruct (Z.leb_spec (key x) a); destruct (Z.leb_spec (key x) b); destruct (Z.ltb_spec a (key x)); try lia; simpl.
  - by rewrite IH.
  - rewrite IH. replace (List.filter (λ x, (key x <=? a)%Z) l) with (@nil A); [done|].
    symmetry. clear IH Hs. induction Hx as [|y l Hy Hx IH]; [done|]. simpl. by rewrite (proj2 (Z.leb_gt _ _)) by lia.
  - by rewrite IH.
Qed.
Lemma sorted_weak l : StronglySorted (λ x y, (key x < key y)%Z) l → StronglySorted (λ x y, (key x ≤ key y)%Z) l.
Proof. induction 1 as [|x l Hs IH Hx]; constructor; [done|]. eapply Forall_impl; [done|]. simpl. lia. Qed.
End cut.
Lemma filter_ext_in' {A} (p q : A → bool) l : (∀ x, x ∈ l → p x = q x) → List.filter p l = List.filter q l.
Proof. intros Hpq. apply filter_ext_in. intros x Hx. apply Hpq. by apply list_elem_of_In. Qed.

(** ** The statements of a batch *)

Section statements.
Context `{Json}.

Definition row_tags (m : MessageRecord) : gset (bytes * Z) :=
  if beqb (tags m) b#"[]" then ∅ else tag_set (seq m) (tags m).

Lemma place_last m l : Forall (λ x, (seq x < seq m)%Z) l → place m l = l ++ [m].
Proof. induction 1 as [|x l Hx Hl IH]; [done|]. simpl. rewrite (proj2 (Z.ltb_ge _ _)) by lia. by rewrite IH. Qed.

Lemma insert_all ms t :
  ascending (messages t ++ ms) → NoDup (map id (messages t ++ ms)) →
  each_row insert_message_at ms t =
    Ok {| messages := messages t ++ ms; message_content := message_content t; messages_fts := messages_fts t;
          attachments := attachments t; message_tags := message_tags t ∪ ⋃ (map row_tags ms) |}.
Proof.
  revert t. induction ms as [|m ms IH]; intros t Ha Hd.
  - destruct t. simpl. by rewrite app_nil_r, union_empty_r_L.
  - cbn [each_row]. unfold insert_message_at.
    assert (Hlt : Forall (λ x, (seq x < seq m)%Z) (messages t)).
    { apply ascending_app in Ha as (_ & _ & Hx). apply Forall_forall. intros x Hx'. apply Hx; [done|by left]. }
    rewrite map_app, NoDup_app in Hd. destruct Hd as (Hd1 & Hd2 & Hd3).
    assert (Hex : existsb (λ x, (seq x =? seq m)%Z || beqb (id x) (id m)) (messages t) = false).
    { apply not_true_is_false. intros (x & Hx & Heq)%existsb_exists. apply list_elem_of_In in Hx.
      apply orb_true_iff in Heq as [Heq%Z.eqb_eq|Heq%beqb_spec].
      - rewrite Forall_forall in Hlt. apply Hlt in Hx. lia.
      - apply (Hd2 (id x)); [by apply list_elem_of_fmap_2|]. rewrite Heq. by left. }
    rewrite Hex. cbn [mbind result_mbind result_bind]. rewrite place_last by done.
    rewrite IH; cbn [messages message_content messages_fts attachments message_tags].
    + rewrite <- (assoc_L (++)). cbn [map app]. rewrite union_list_cons. unfold row_tags at 2.
      destruct (beqb (tags m) b#"[]"); [by rewrite (left_id_L ∅ (∪))|by rewrite (assoc_L (∪))].
    + by rewrite <- (assoc_L (++)).
    + rewrite <- (assoc_L (++)), map_app. apply NoDup_app. split_and!; [done|done|done].
Qed.
Lemma insert_content_ok s r t : s ∈ seqs t → message_content t !! s = None →
  done_with (insert_content s r t) =
    Ok {| messages := messages t; message_content := <[s := r]> (message_content t);
          messages_fts := messages_fts t; attachments := attachments t; message_tags := message_tags t |}.
Proof. intros Hs Hc. unfold insert_content. by rewrite bool_decide_eq_true_2. Qed.
Lemma insert_contents rows t :
  NoDup (map fst rows) → (∀ s, s ∈ map fst rows → s ∈ seqs t ∧ message_content t !! s = None) →
  each_row (λ '(s, frame) t, done_with (insert_content s frame t)) rows t =
    Ok {| messages := messages t; message_content := list_to_map rows ∪ message_content t;
          messages_fts := messages_fts t; attachments := attachments t; message_tags := message_tags t |}.
Proof.
  revert t. induction rows as [|[s r] rows IH]; intros t Hd Hs.
  - destruct t. simpl. by rewrite (left_id_L ∅ (∪)).
  - cbn [map fst] in Hd. apply NoDup_cons in Hd as [Hns Hd]. cbn [each_row].
    destruct (Hs s) as [Hin Hnone]; [by left|]. rewrite insert_content_ok by done.
    cbn [mbind result_mbind result_bind]. rewrite IH; cbn [messages message_content messages_fts attachments message_tags].
    + cbn [list_to_map foldr]. rewrite <- insert_union_l, <- insert_union_r; [done|].
      by apply not_elem_of_list_to_map_1.
    + done.
    + intros s' Hs'. destruct (Hs s') as [Hin' Hnone']; [by right|]. split; [exact Hin'|].
      rewrite lookup_insert_ne; [done|]. by intros ->.
Qed.
Lemma fts_put_all rows fts : NoDup (map fst rows) → (∀ s, s ∈ map fst rows → fts !! s = None) →
  fts_put rows fts = Some (list_to_map rows ∪ fts).
Proof.
  revert fts. induction rows as [|[s r] rows IH]; intros fts Hd Hs; [simpl; by rewrite (left_id_L ∅ (∪))|].
  cbn [map fst] in Hd. apply NoDup_cons in Hd as [Hns Hd]. cbn [fts_put]. rewrite Hs by (by left). rewrite IH.
  - f_equal. cbn [list_to_map foldr]. rewrite <- insert_union_l, <- insert_union_r; [done|].
    by apply not_elem_of_list_to_map_1.
  - done.
  - intros s' Hs'. rewrite lookup_insert_ne by (by intros ->). apply Hs. by right.
Qed.
Lemma insert_attachment_ok a t : message_seq a ∈ seqs t → attachment_okb a = true →
  a_id a ∉ map a_id (attachments t) →
  done_with (insert_attachment a t) =
    Ok {| messages := messages t; message_content := message_content t; messages_fts := messages_fts t;
          attachments := attachments t ++ [a]; message_tags := message_tags t |}.
Proof.
  intros Hs Hok Hid. unfold insert_attachment. rewrite bool_decide_eq_true_2, Hok by done.
  replace (existsb (λ x, beqb (a_id x) (a_id a)) (attachments t)) with false; [done|]. symmetry.
  apply not_true_is_false. intros (x & Hx & Heq%beqb_spec)%existsb_exists. apply list_elem_of_In in Hx.
  apply Hid. rewrite <- Heq. by apply list_elem_of_fmap_2.
Qed.
Lemma insert_attachments l t :
  Forall (λ a, message_seq a ∈ seqs t ∧ attachment_okb a = true) l → NoDup (map a_id (attachments t ++ l)) →
  each_row (λ a t, done_with (insert_attachment a t)) l t =
    Ok {| messages := messages t; message_content := message_content t; messages_fts := messages_fts t;
          attachments := attachments t ++ l; message_tags := message_tags t |}.
Proof.
  revert t. induction l as [|a l IH]; intros t Hl Hd.
  - destruct t. simpl. by rewrite app_nil_r.
  - apply Forall_cons in Hl as [[Hs Hok] Hl]. cbn [each_row]. rewrite insert_attachment_ok; [|done|done|].
    + cbn [mbind result_mbind result_bind].
      rewrite IH; cbn [messages message_content messages_fts attachments message_tags]; rewrite <- ?(assoc_L (++)); done.
    + rewrite map_app, NoDup_app in Hd. intros Hin. apply (proj1 (proj2 Hd) _ Hin). by left.
Qed.
End statements.

(** ** The tables after the last message copied *)

Section copies.
Context `{Json, Zstd, MailParser}.

Definition key (i : Item) : Z := seq (i_record i).
Definition frame_of (raw : bytes) : bytes := default [] (ok (compress raw)).
Definition all_items (c : Contents) : list Item :=
  match c with
  | Schema0 d => map (legacy_item (columns d)) (l_messages d)
  | Schema1 d => omap (previous_item d) (p_messages d)
  | _ => []
  end.
Definition rows_between (c : Contents) (a b : Z) : list AttachmentRecord :=
  match c with
  | Schema0 d => if has_attachments_table (columns d) then map planned_row (planned_between d a b) else []
  | _ => carried c a b
  end.
Definition upto (c : Contents) (k : Z) : list Item := List.filter (λ i, (key i <=? k)%Z) (all_items c).
Definition frames (its : list Item) : list (Z * bytes) := map (λ i, (key i, frame_of (i_raw i))) its.
Definition indexed (its : list Item) : list (Z * FtsRow) := map (λ i, (key i, item_fts i)) its.
Definition tables_of (its : list Item) (ats : list AttachmentRecord) : Tables :=
  {| messages := map i_record its; message_content := list_to_map (frames its);
     messages_fts := list_to_map (indexed its); attachments := ats;
     message_tags := ⋃ (map (λ i, row_tags (i_record i)) its) |}.
Definition tables_upto (c : Contents) (k : Z) : Tables := tables_of (upto c k) (rows_between c 0 k).

Lemma frames_keys its : map fst (frames its) = map key its.
Proof. unfold frames. by rewrite map_map. Qed.
Lemma indexed_keys its : map fst (indexed its) = map key its.
Proof. unfold indexed. by rewrite map_map. Qed.

Lemma previous_items d l : previous_ok d → (∀ m, m ∈ l → m ∈ p_messages d) →
  map i_record (omap (previous_item d) l) = l ∧
  omap (λ m, c ← p_content d !! seq m; Some (seq m, c_raw c)) l = map (λ i, (key i, i_raw i)) (omap (previous_item d) l) ∧
  Forall (λ i, m_size (i_record i) = Z.of_nat (length (i_raw i))) (omap (previous_item d) l).
Proof.
  intros Hd. induction l as [|m l IH]; intros Hl; [done|]. cbn [omap list_omap]. unfold previous_item at 1 4 7.
  destruct (po_content d Hd m) as (c & Hc & Hsize); [apply Hl; by left|]. rewrite Hc. cbn [mbind option_bind map].
  destruct IH as (IH1 & IH2 & IH3); [intros x Hx; apply Hl; by right|]. rewrite IH1, <- IH2. split_and!.
  - f_equal. rewrite <- Hsize. by destruct m.
  - done.
  - by constructor.
Qed.

Context (s : SourceSchema.t) (c : Contents) (Hok : source_ok s c).
Abbreviation layout := (layout_probe c s).

Lemma items_all : items layout c = Ok (all_items c).
Proof. by destruct s, c. Qed.
Lemma raw_rows_all : raw_rows layout c = Ok (map (λ i, (key i, i_raw i)) (all_items c)).
Proof.
  destruct s, c; try done; simpl in *.
  - by rewrite map_map.
  - f_equal. by apply (previous_items d).
Qed.
Lemma items_size : Forall (λ i, m_size (i_record i) = Z.of_nat (length (i_raw i))) (all_items c).
Proof.
  destruct s, c; try done; simpl in *.
  - apply Forall_map. by apply Forall_true.
  - by apply (previous_items d).
Qed.
Lemma sizes_all : sizes layout c = Ok (map (λ i, (key i, m_size (i_record i))) (all_items c)).
Proof.
  destruct s, c; try done; simpl in *.
  - by rewrite map_map.
  - rewrite <- (proj1 (previous_items d (p_messages d) Hok (λ _ H, H))) at 1. by rewrite map_map.
Qed.
Lemma records_previous d : c = Schema1 d → map i_record (all_items c) = p_messages d.
Proof. intros ->. destruct s; [done|]. by apply (previous_items d). Qed.

Lemma items_sorted : StronglySorted (λ a b, (key a < key b)%Z) (all_items c).
Proof.
  destruct s, c; try done; simpl in *.
  - pose proof (lo_rows d Hok) as Hs. induction Hs as [|m l Hs IH Hm]; constructor; [done|].
    apply Forall_map. eapply Forall_impl; [done|]. done.
  - pose proof (po_rows d Hok) as Hs. rewrite <- (proj1 (previous_items d (p_messages d) Hok (λ _ H, H))) in Hs.
    unfold ascending in Hs. revert Hs. generalize (omap (previous_item d) (p_messages d)). clear.
    induction l as [|i l IH]; intros Hs; constructor; inversion_clear Hs as [|?? Hs' Hi]; [by apply IH|].
    by rewrite Forall_map in Hi.
Qed.
Lemma items_positive : Forall (λ i, (0 < key i)%Z) (all_items c).
Proof.
  destruct s, c; try done; simpl in *.
  - apply Forall_map. exact (lo_positive d Hok).
  - pose proof (po_positive d Hok) as Hs. rewrite <- (proj1 (previous_items d (p_messages d) Hok (λ _ H, H))) in Hs.
    by rewrite Forall_map in Hs.
Qed.
Lemma items_ids : NoDup (map (λ i, id (i_record i)) (all_items c)).
Proof.
  destruct s, c; try done; simpl in *.
  - rewrite map_map. exact (lo_ids d Hok).
  - rewrite <- (map_map i_record id), (proj1 (previous_items d (p_messages d) Hok (λ _ H, H))). exact (po_ids d Hok).
Qed.
Lemma items_keys : NoDup (map key (all_items c)).
Proof.
  pose proof items_sorted as Hs. induction Hs as [|i l Hs IH Hi]; constructor; [|done].
  intros (j & Heq & Hj)%list_elem_of_fmap. rewrite Forall_forall in Hi. apply Hi in Hj. lia.
Qed.

(** ** Their attachments *)

Lemma plan_message_ids m : map (λ a, a_id (planned_row a)) (plan_message m) = map (λ a, am_id (meta a)) (lm_attachments m).
Proof.
  unfold plan_message. cbv zeta. match goal with |- context [imap (plan_attachment m ?l)] => generalize l end. intros located.
  assert (Hgen : ∀ n l, map (λ a, a_id (planned_row a)) (imap (λ i, plan_attachment m located (n + i)) l) =
                        map (λ a, am_id (meta a)) l).
  { intros n l. revert n. induction l as [|a l IH]; intros n; [done|]. cbn [imap map]. f_equal.
    rewrite <- (IH (S n)). f_equal. apply imap_ext. intros i x _. simpl. f_equal. lia. }
  exact (Hgen 0 _).
Qed.
Lemma planned_row_ok a : attachment_okb (planned_row a) = true.
Proof.
  unfold attachment_okb, planned_row. simpl. destruct (pa_storage a) as [l|x]; simpl; [|done].
  rewrite !(proj2 (Z.leb_le 0 _)) by lia. by destruct (loc_encoding l).
Qed.
Lemma keyed_nodup {A B} (f : A → bytes) (h : A → bytes) (g : B → bytes) (l : list A) (ms : list B) :
  NoDup (map f l) → NoDup (map g ms) →
  NoDup (flat_map (λ m, map f (List.filter (λ a, beqb (h a) (g m)) l)) ms).
Proof.
  intros Hl Hms. induction ms as [|m ms IH]; [constructor|]. cbn [map] in Hms. apply NoDup_cons in Hms as [Hm Hms].
  cbn [flat_map]. apply NoDup_app. split_and!; [| |by apply IH].
  - clear -Hl. induction l as [|a l IH]; [constructor|]. cbn [map] in Hl. apply NoDup_cons in Hl as [Ha Hl]. simpl.
    destruct (beqb _ _); [|by apply IH]. cbn [map]. constructor; [|by apply IH].
    intros (x & Heq & Hx)%list_elem_of_fmap. apply elem_of_filter_b in Hx as [Hx _]. apply Ha. rewrite Heq.
    by apply list_elem_of_fmap_2.
  - intros i (x & -> & Hx)%list_elem_of_fmap Hi. apply elem_of_filter_b in Hx as [Hx Hkey%beqb_spec].
    apply list_elem_of_In, in_flat_map in Hi as (m' & Hm' & Hi). apply list_elem_of_In in Hm', Hi.
    apply list_elem_of_fmap in Hi as (y & Heq & Hy). apply elem_of_filter_b in Hy as [Hy Hkey'%beqb_spec].
    rewrite (NoDup_key_inj f _ _ _ Hl Hx Hy Heq) in Hkey. apply Hm. rewrite <- Hkey, Hkey'.
    by apply list_elem_of_fmap_2.
Qed.
Lemma sublist_nodup {A B} (f : A → B) (p : A → bool) l : NoDup (map f l) → NoDup (map f (List.filter p l)).
Proof.
  intros Hl. induction l as [|a l IH]; [constructor|]. cbn [map] in Hl. apply NoDup_cons in Hl as [Ha Hl]. simpl.
  destruct (p a); [|by apply IH]. cbn [map]. constructor; [|by apply IH].
  intros (x & Heq & Hx)%list_elem_of_fmap. apply elem_of_filter_b in Hx as [Hx _]. apply Ha. rewrite Heq.
  by apply list_elem_of_fmap_2.
Qed.

Lemma rows_split a b : (0 ≤ a ≤ b)%Z → rows_between c 0 b = rows_between c 0 a ++ rows_between c a b.
Proof.
  intros Hab. destruct s, c; try done; simpl in *.
  - destruct (has_attachments_table (columns d)); [|done]. rewrite <- map_app. f_equal. unfold planned_between.
    rewrite <- flat_map_app. f_equal.
    assert (Hpos : ∀ k, List.filter (λ m, (0 <? rowid m)%Z && (rowid m <=? k)%Z) (l_messages d) =
                        List.filter (λ m, (rowid m <=? k)%Z) (l_messages d)).
    { intros k. apply filter_ext_in'. intros m Hm. pose proof (lo_positive d Hok) as Hp. rewrite Forall_forall in Hp.
      by rewrite (proj2 (Z.ltb_lt 0 _)) by auto. }
    rewrite !Hpos. apply filter_split; [|lia]. apply (sorted_weak rowid), (lo_rows d Hok).
  - assert (Hpos : ∀ k, List.filter (λ x, (0 <? message_seq x)%Z && (message_seq x <=? k)%Z) (map snd (p_attachments d)) =
                        List.filter (λ x, (message_seq x <=? k)%Z) (map snd (p_attachments d))).
    { intros k. apply filter_ext_in'. intros x Hx. pose proof (po_attachments d Hok) as Hp. rewrite Forall_forall in Hp.
      destruct (Hp x Hx) as [(m & -> & Hm)%list_elem_of_fmap _]. pose proof (po_positive d Hok) as Hpp.
      rewrite Forall_forall in Hpp. by rewrite (proj2 (Z.ltb_lt 0 _)) by auto. }
    rewrite !Hpos. apply filter_split; [|lia]. exact (po_attachment_order d Hok).
Qed.
Lemma rows_belong a b r : r ∈ rows_between c a b →
  attachment_okb r = true ∧ message_seq r ∈ map key (List.filter (within a b) (all_items c)).
Proof.
  intros Hr. destruct s, c; try done; simpl in *.
  - destruct (has_attachments_table (columns d)); [|by apply elem_of_nil in Hr].
    apply list_elem_of_fmap in Hr as (x & -> & Hx). split; [apply planned_row_ok|].
    unfold planned_between in Hx. apply list_elem_of_In, in_flat_map in Hx as (m & Hm & Hx).
    apply list_elem_of_In in Hm, Hx. apply elem_of_filter_b in Hm as [Hm Hin].
    pose proof (plan_message_seq {| lm_seq := rowid m; lm_raw := l_raw m; lm_attachments := attachments_of d m |}) as Hseq.
    rewrite Forall_forall in Hseq. apply Hseq in Hx. simpl in Hx |- *. rewrite Hx.
    apply list_elem_of_fmap. exists (legacy_item (columns d) m). split; [done|]. apply elem_of_filter_b.
    split; [by apply list_elem_of_fmap_2|done].
  - unfold carried in Hr. apply elem_of_filter_b in Hr as [Hr Hin]. pose proof (po_attachments d Hok) as Hp.
    rewrite Forall_forall in Hp. destruct (Hp r Hr) as [Hm Ha]. split; [done|].
    rewrite <- (proj1 (previous_items d (p_messages d) Hok (λ _ H, H))), map_map in Hm.
    apply list_elem_of_fmap in Hm as (i & Heq & Hi). apply list_elem_of_fmap. exists i. split; [done|].
    apply elem_of_filter_b. split; [done|]. unfold within. by rewrite <- Heq.
Qed.
Lemma rows_ids a b : NoDup (map a_id (rows_between c a b)).
Proof.
  destruct s, c; try done; simpl in *.
  - destruct (has_attachments_table (columns d)); [|constructor]. rewrite map_map. unfold planned_between.
    set (ms := List.filter _ (l_messages d)).
    replace (map (λ x, a_id (planned_row x)) (flat_map (plan_row d) ms)) with
      (flat_map (λ m, map (λ x, am_id (la_meta x)) (List.filter (λ x, beqb (la_message_id x) (l_id m)) (l_attachments d))) ms).
    + apply keyed_nodup; [exact (lo_attachment_ids d Hok)|]. apply sublist_nodup. exact (lo_ids d Hok).
    + induction ms as [|m ms IH]; [done|]. cbn [flat_map]. rewrite map_app, IH. f_equal.
      unfold plan_row. rewrite plan_message_ids. simpl. unfold attachments_of. by rewrite map_map.
  - apply sublist_nodup. exact (po_attachment_ids d Hok).
Qed.

(** ** One batch *)

Definition mismatched (a b : Z) : nat :=
  match c with
  | Schema0 d =>
    if has_attachments_table (columns d) then length (List.filter mismatch (planned_between d a b)) else 0
  | _ => 0
  end.
Definition last_key : Z := default 0%Z (key <$> last (all_items c)).

Lemma upto_split a b : (a ≤ b)%Z → upto c b = upto c a ++ List.filter (within a b) (all_items c).
Proof. intros Hab. apply (filter_split key); [|done]. apply sorted_weak, items_sorted. Qed.
Lemma upto_sorted k : StronglySorted (λ a b, (key a < key b)%Z) (upto c k).
Proof. unfold upto. apply after_sorted_gen. apply items_sorted. Qed.
Lemma upto_last : upto c last_key = all_items c.
Proof.
  unfold upto, last_key. pose proof items_sorted as Hs. destruct (last (all_items c)) as [i|] eqn:Hl.
  - apply last_Some in Hl as [l Hl]. rewrite Hl in Hs |- *. simpl. apply filter_all_true. intros x [Hx| ->%list_elem_of_singleton]%elem_of_app.
    + apply Z.leb_le, Z.lt_le_incl. eapply (StronglySorted_app_1_elem_of (λ a b, (key a < key b)%Z)); [exact Hs|done|by left].
    + apply Z.leb_refl.
  - apply last_None in Hl. by rewrite Hl.
Qed.
Lemma mismatched_split a b : (0 ≤ a ≤ b)%Z → mismatched 0 b = mismatched 0 a + mismatched a b.
Proof.
  intros Hab. unfold mismatched. destruct c as [|d| | |] eqn:Hc; try done. destruct (has_attachments_table (columns d)); [|done].
  rewrite <- length_app, <- List.filter_app. f_equal. f_equal. unfold planned_between. rewrite <- flat_map_app. f_equal.
  destruct s; [|done]. simpl in Hok.
  assert (Hpos : ∀ k, List.filter (λ m, (0 <? rowid m)%Z && (rowid m <=? k)%Z) (l_messages d) =
                      List.filter (λ m, (rowid m <=? k)%Z) (l_messages d)).
  { intros k. apply filter_ext_in'. intros m Hm. pose proof (lo_positive d Hok) as Hp. rewrite Forall_forall in Hp.
    by rewrite (proj2 (Z.ltb_lt 0 _)) by auto. }
  rewrite !Hpos. apply filter_split; [|lia]. apply (sorted_weak rowid), (lo_rows d Hok).
Qed.

Lemma ascending_records l : StronglySorted (λ a b, (key a < key b)%Z) l → ascending (map i_record l).
Proof. induction 1 as [|i l Hs IH Hi]; constructor; [done|]. by apply Forall_map. Qed.
Lemma keys_disjoint {V} (l k : list (Z * V)) :
  (∀ x, x ∈ map fst l → x ∉ map fst k) → (list_to_map l : gmap Z V) ##ₘ list_to_map k.
Proof.
  intros Hd. apply map_disjoint_dom. rewrite !dom_list_to_map_L. intros x. rewrite !elem_of_list_to_set. apply Hd.
Qed.
Lemma copy_rows_upto a b kept planned :
  (0 ≤ a ≤ b)%Z → kept ++ map planned_row planned = rows_between c a b →
  copy_rows (List.filter (within a b) (all_items c)) (frames (List.filter (within a b) (all_items c))) kept planned
    (tables_upto c a) = Ok (tables_upto c b).
Proof.
  intros Hab Hrows. set (new := List.filter (within a b) (all_items c)).
  assert (Hup : upto c b = upto c a ++ new) by (apply upto_split; lia).
  pose proof (upto_sorted b) as Hs. rewrite Hup in Hs.
  assert (Hkeys : NoDup (map key (upto c a ++ new))).
  { rewrite <- Hup. unfold upto. apply sublist_nodup. apply items_keys. }
  assert (Hids : NoDup (map (λ i, id (i_record i)) (upto c a ++ new))).
  { rewrite <- Hup. unfold upto. apply sublist_nodup. apply items_ids. }
  assert (Hfresh : ∀ k, k ∈ map key new → k ∉ map key (upto c a)).
  { rewrite map_app, NoDup_app in Hkeys. intros k Hk Hk'. by apply (proj1 (proj2 Hkeys) k). }
  assert (Hnew : NoDup (map key new)) by (rewrite map_app, NoDup_app in Hkeys; apply Hkeys).
  assert (Hseqs : ∀ t, messages t = map i_record (upto c a) ++ map i_record new →
                  ∀ k, k ∈ map key (upto c a ++ new) → k ∈ seqs t).
  { intros t Ht k Hk. unfold seqs. rewrite Ht, <- map_app, map_map. by apply elem_of_list_to_set. }
  assert (Hin : Forall (λ r, message_seq r ∈ map key (upto c a ++ new) ∧ attachment_okb r = true) (kept ++ map planned_row planned)).
  { rewrite Hrows. apply Forall_forall. intros r Hr. apply rows_belong in Hr as [Ha Hr]. fold new in Hr.
    split; [|done]. rewrite map_app. apply elem_of_app. by right. }
  pose proof (rows_ids 0 b) as Hrid. rewrite (rows_split a b), <- Hrows, !map_app in Hrid by lia.
  apply Forall_app in Hin as [Hkept Hplanned].
  unfold copy_rows. assert (Hm : messages (tables_upto c a) = map i_record (upto c a)) by done.
  rewrite insert_all; [|rewrite Hm, <- map_app; by apply ascending_records|by rewrite Hm, <- map_app, map_map].
  cbn [mbind result_mbind result_bind]. rewrite insert_contents;
    [|by rewrite frames_keys|rewrite frames_keys; intros k Hk; split; [apply Hseqs; [done|]; rewrite map_app; by apply elem_of_app; right|]];
    [|cbn [message_content tables_upto tables_of]; apply not_elem_of_list_to_map_1; setoid_rewrite frames_keys; by apply Hfresh].
  cbn [mbind result_mbind result_bind]. unfold insert_fts. cbn [messages_fts tables_upto tables_of]. fold (indexed new).
  rewrite fts_put_all;
    [|by rewrite indexed_keys|rewrite indexed_keys; intros k Hk; apply not_elem_of_list_to_map_1; setoid_rewrite indexed_keys; by apply Hfresh].
  cbn [done_with fmap result_fmap result_map snd mbind result_mbind result_bind].
  rewrite insert_attachments; cbn [messages message_content messages_fts attachments message_tags];
    [|eapply Forall_impl; [exact Hkept|]; intros r [Hr ?]; split; [by apply Hseqs|done]
     |rewrite map_app; by rewrite (assoc_L (++)), NoDup_app in Hrid; apply Hrid].
  cbn [mbind result_mbind result_bind].
  rewrite insert_attachments; cbn [messages message_content messages_fts attachments message_tags];
    [|eapply Forall_impl; [exact Hplanned|]; intros r [Hr ?]; split; [by apply Hseqs|done]
     |by rewrite !map_app, <- (assoc_L (++))].
  f_equal. unfold tables_upto, tables_of. rewrite Hup, (rows_split a b), <- Hrows by lia.
  unfold frames, indexed. rewrite !map_app, !list_to_map_app, union_list_app_L, (map_map i_record), <- (assoc_L (++)).
  f_equal; apply map_union_comm, keys_disjoint; fold (frames new) (frames (upto c a)) (indexed new) (indexed (upto c a));
    rewrite ?frames_keys, ?indexed_keys; exact Hfresh.
Qed.

(** ** Batches *)

Definition size_rows : list (Z * Z) := map (λ i, (key i, m_size (i_record i))) (all_items c).
(** How far a copy is: nowhere, or after one of the messages. *)
Definition reached (k : Z) : Prop := k = 0%Z ∨ k ∈ map key (all_items c).

Lemma reached_last k : reached k → upto c k = all_items c → k = last_key.
Proof.
  intros Hk Hup. pose proof items_sorted as Hs. unfold last_key, reached in *.
  destruct (last (all_items c)) as [i|] eqn:Hl; simpl.
  - apply last_Some in Hl as [l Hl].
    assert (Hi : i ∈ upto c k) by (rewrite Hup, Hl; set_solver). apply elem_of_filter_b in Hi as [Hi Hle%Z.leb_le].
    assert (Hpos : (0 < key i)%Z) by (pose proof items_positive as Hp; rewrite Forall_forall in Hp; by apply Hp).
    destruct Hk as [->|(j & -> & Hj)%list_elem_of_fmap]; [lia|]. rewrite Hl in Hs, Hj.
    apply elem_of_app in Hj as [Hj| ->%list_elem_of_singleton]; [|done].
    assert ((key j < key i)%Z); [|lia].
    eapply (StronglySorted_app_1_elem_of (λ a b, (key a < key b)%Z)); [exact Hs|done|by left].
  - apply last_None in Hl. rewrite Hl in Hk. destruct Hk as [?|Hk]; [done|]. by apply elem_of_nil in Hk.
Qed.
Lemma reached_nonneg k : reached k → (0 ≤ k)%Z.
Proof.
  intros [->|(i & -> & Hi)%list_elem_of_fmap]; [done|]. pose proof items_positive as Hp. rewrite Forall_forall in Hp.
  apply Hp in Hi. lia.
Qed.

Lemma grow_last cap b rows : b_last_seq (grow cap b rows) = b_last_seq b ∨ b_last_seq (grow cap b rows) ∈ map fst rows.
Proof.
  revert b. induction rows as [|[r n] rows IH]; intros b; simpl; [by left|].
  destruct (_ <=? cap)%Z; [|by left]. destruct (IH {| b_last_seq := r; b_messages := b_messages b + 1; b_raw_bytes := b_raw_bytes b + n |}) as [->|?];
    right; [by left|by right].
Qed.
Lemma next_batch_progress options k :
  match next_batch options size_rows k with
  | Some b => (k < b_last_seq b)%Z ∧ b_last_seq b ∈ map key (all_items c)
  | None => batch_messages options ≠ 0%Z → upto c k = all_items c
  end.
Proof.
  unfold next_batch.
  assert (Hsub : ∀ r, r ∈ sql_limit (batch_messages options) (List.filter (λ r, (k <? fst r)%Z) size_rows) →
                 (k < fst r)%Z ∧ fst r ∈ map key (all_items c)).
  { intros r Hr. assert (Hr' : r ∈ List.filter (λ r, (k <? fst r)%Z) size_rows).
    { unfold sql_limit in Hr. destruct (_ <? 0)%Z; [done|]. by eapply elem_of_take in Hr as (? & ?%list_elem_of_lookup_2 & _). }
    apply elem_of_filter_b in Hr' as [Hin Hlt%Z.ltb_lt]. split; [done|].
    apply list_elem_of_fmap in Hin as (i & -> & Hi). by apply (list_elem_of_fmap_2 key). }
  destruct (sql_limit _ _) as [|[r n] rows] eqn:Hrows.
  - intros Hn. unfold sql_limit in Hrows. unfold upto. apply filter_all_true. intros i Hi. apply Z.leb_le.
    destruct (Z.le_gt_cases (key i) k) as [|Hgt]; [done|].
    assert (Hin : (key i, m_size (i_record i)) ∈ List.filter (λ r, (k <? fst r)%Z) size_rows).
    { apply elem_of_filter_b. split; [|by apply Z.ltb_lt]. apply list_elem_of_fmap. by exists i. }
    destruct (Z.ltb_spec (batch_messages options) 0); [rewrite Hrows in Hin; by apply elem_of_nil in Hin|].
    destruct (List.filter _ size_rows); [by apply elem_of_nil in Hin|].
    destruct (Z.to_nat (batch_messages options)) eqn:Hz; [lia|done].
  - destruct (grow_last (batch_raw_bytes options) {| b_last_seq := r; b_messages := 1; b_raw_bytes := n |} rows) as [Hb|Hb].
    + rewrite Hb. apply (Hsub (r, n)). by left.
    + apply list_elem_of_fmap in Hb as (x & -> & Hx). apply Hsub. by right.
Qed.
Lemma left_decreases k k' : (k < k')%Z → k' ∈ map key (all_items c) →
  length (List.filter (λ i, (k' <? key i)%Z) (all_items c)) < length (List.filter (λ i, (k <? key i)%Z) (all_items c)).
Proof.
  intros Hlt (i & -> & Hi)%list_elem_of_fmap. induction (all_items c) as [|j l IH]; [by apply elem_of_nil in Hi|].
  assert (Hle : ∀ l, length (List.filter (λ x, (key i <? key x)%Z) l) ≤ length (List.filter (λ x, (k <? key x)%Z) l)).
  { clear -Hlt. induction l as [|x l IH]; [done|]. simpl.
    destruct (Z.ltb_spec (key i) (key x)), (Z.ltb_spec k (key x)); simpl; lia. }
  simpl. apply elem_of_cons in Hi as [->|Hi].
  - rewrite Z.ltb_irrefl, (proj2 (Z.ltb_lt _ _)) by done. simpl. specialize (Hle l). lia.
  - apply IH in Hi. destruct (Z.ltb_spec (key i) (key j)), (Z.ltb_spec k (key j)); simpl; lia.
Qed.
End copies.
