(* ===== verification/MigrateChecks.v ===== *)
(** The checks of [verify] of [crates/rustmail-storage/src/migrate/build.rs] hold of a
    copy of every message. *)
From S2P Require Import Prelude RustStd StorageError Content MailParser Locator Prepared Query Database Tables OldDb Fingerprint MigrateDisk MigrateBuild MigrateWork MigrateCopies.

Lemma sum_perm l k : l ≡ₚ k → sum l = sum k.
Proof.
  assert (Hacc : ∀ l a b, fold_left Z.add l (a + b)%Z = (a + fold_left Z.add l b)%Z).
  { clear. induction l as [|x l IH]; intros a b; [done|]. cbn [fold_left]. by rewrite <- Z.add_assoc, IH. }
  unfold sum. intros Hp. generalize 0%Z. induction Hp as [|x l k _ IH|x y l|l k m _ IH1 _ IH2]; intros z; cbn [fold_left].
  - done.
  - apply IH.
  - f_equal. lia.
  - by rewrite IH1.
Qed.

Section checks.
Context `{Json, !JsonLaws, Zstd, MailParser}.
Context (s : SourceSchema.t) (c : Contents) (Hok : source_ok s c).
Abbreviation layout := (layout_probe c s).
Abbreviation whole := (tables_upto c (last_key c)).

Lemma whole_items : upto c (last_key c) = all_items c.
Proof. by eapply upto_last. Qed.
Lemma whole_rows : rows_between c 0 (last_key c) =
  match c with
  | Schema0 d => if has_attachments_table (columns d) then map planned_row (flat_map (plan_row d) (l_messages d)) else []
  | Schema1 d => map snd (p_attachments d)
  | _ => []
  end.
Proof.
  assert (Hall : ∀ i, i ∈ all_items c → (0 <? key i)%Z && (key i <=? last_key c)%Z = true).
  { intros i Hi. pose proof (items_positive s c Hok) as Hp. rewrite Forall_forall in Hp.
    rewrite <- whole_items in Hi. apply elem_of_filter_b in Hi as [Hi ->].
    by rewrite (proj2 (Z.ltb_lt 0 _)) by auto. }
  destruct s, c; try done; simpl in *.
  - destruct (has_attachments_table (columns d)); [|done]. unfold planned_between. f_equal. f_equal.
    apply filter_all_true. intros m Hm. apply (Hall (legacy_item (columns d) m)). by apply list_elem_of_fmap_2.
  - apply filter_all_true. intros r Hr. pose proof (po_attachments d Hok) as Hp. rewrite Forall_forall in Hp.
    destruct (Hp r Hr) as [Hm _]. rewrite <- (proj1 (previous_items d (p_messages d) Hok (λ _ H, H))), map_map in Hm.
    apply list_elem_of_fmap in Hm as (i & -> & Hi). by apply (Hall i).
Qed.

Lemma json_none : json_each b#"[]" = [].
Proof. rewrite <- json_empty. apply json_each_reads. Qed.
Lemma row_tags_all m : row_tags m = tag_set (seq m) (tags m).
Proof.
  unfold row_tags. destruct (beqb (tags m) b#"[]") eqn:Hb; [|done]. apply beqb_spec in Hb as ->.
  unfold tag_set. by rewrite json_none.
Qed.
Lemma union_tags tag k its :
  (tag, k) ∈ ⋃ (map (λ i, row_tags (i_record i)) its) ↔ ∃ i, i ∈ its ∧ key i = k ∧ tag ∈ json_each (tags (i_record i)).
Proof.
  rewrite elem_of_union_list. split.
  - intros (X & (i & -> & Hi)%list_elem_of_fmap & HX). rewrite row_tags_all in HX. unfold tag_set in HX.
    apply elem_of_list_to_set, list_elem_of_fmap in HX as (x & [= -> ->] & Hx). by exists i.
  - intros (i & Hi & <- & Ht). exists (row_tags (i_record i)). split; [by apply (list_elem_of_fmap_2 (λ i, row_tags (i_record i)))|].
    rewrite row_tags_all. apply elem_of_list_to_set, list_elem_of_fmap. by exists tag.
Qed.

Lemma tag_count : legacy_tag_count layout c = Ok (Z.of_nat (base.size (message_tags whole))).
Proof.
  unfold tables_upto, tables_of. cbn [message_tags]. rewrite whole_items.
  assert (Hsets : ∀ X : gset (bytes * Z),
    (∀ tag k, (tag, k) ∈ X ↔ ∃ i, i ∈ all_items c ∧ key i = k ∧ tag ∈ json_each (tags (i_record i))) →
    X = ⋃ (map (λ i, row_tags (i_record i)) (all_items c))).
  { intros X HX. apply set_eq. intros [tag k]. by rewrite HX, union_tags. }
  destruct s, c; try done; simpl in *; f_equal; f_equal; f_equal; apply Hsets; intros tag k.
  - rewrite elem_of_list_to_set. rewrite list_elem_of_In, in_flat_map. split.
    + intros (m & Hm & Ht). apply in_map_iff in Ht as (x & [= <- <-] & Hx). exists (legacy_item (columns d) m).
      split_and!; [by apply (list_elem_of_fmap_2 (legacy_item (columns d))), list_elem_of_In|done|by apply list_elem_of_In].
    + intros (i & (m & -> & Hm)%list_elem_of_fmap & <- & Ht). exists m. split; [by apply list_elem_of_In|].
      apply in_map_iff. exists tag. split; [done|]. by apply list_elem_of_In.
  - rewrite (po_tags d Hok). pose proof (proj1 (previous_items d (p_messages d) Hok (λ _ H, H))) as Heq. split.
    + intros (m & Hm & <- & Ht). rewrite <- Heq in Hm. apply list_elem_of_fmap in Hm as (i & -> & Hi). by exists i.
    + intros (i & Hi & <- & Ht). exists (i_record i). split_and!; [|done|done]. rewrite <- Heq.
      by apply (list_elem_of_fmap_2 i_record).
Qed.

Lemma raw_total : source_raw_bytes layout c = Ok (sum (map m_size (messages whole))).
Proof.
  unfold tables_upto, tables_of. cbn [messages]. rewrite whole_items.
  destruct s, c; try done; simpl in *; f_equal.
  - by rewrite !map_map.
  - rewrite (proj1 (previous_items d (p_messages d) Hok (λ _ H, H))).
    set (L := omap (λ m, x ← p_content d !! seq m; Some (seq m, x)) (p_messages d)).
    assert (HL : ∀ l, (∀ m, m ∈ l → m ∈ p_messages d) →
      map fst (omap (λ m, x ← p_content d !! seq m; Some (seq m, x)) l) = map seq l ∧
      map (λ kv, Z.of_nat (length (c_raw kv.2))) (omap (λ m, x ← p_content d !! seq m; Some (seq m, x)) l) = map m_size l ∧
      Forall (λ kv, p_content d !! kv.1 = Some kv.2) (omap (λ m, x ← p_content d !! seq m; Some (seq m, x)) l)).
    { induction l as [|m l IH]; intros Hl; [done|]. destruct (po_content d Hok m) as (x & Hx & Hsize); [apply Hl; by left|].
      destruct IH as (IH1 & IH2 & IH3); [intros y Hy; apply Hl; by right|].
      cbn [omap list_omap]. rewrite Hx. cbn [mbind option_bind map fst snd]. rewrite IH1, IH2, Hsize. split_and!; [done|done|].
      by constructor. }
    destruct (HL (p_messages d) (λ _ H, H)) as (HL1 & HL2 & HL3). fold L in HL1, HL2, HL3.
    assert (Hnd : NoDup (map fst L)).
    { rewrite HL1. pose proof (items_keys SourceSchema.Previous (Schema1 d) Hok) as Hk. simpl in Hk.
      by rewrite <- (map_map i_record seq), (proj1 (previous_items d (p_messages d) Hok (λ _ H, H))) in Hk. }
    assert (Heq : p_content d = list_to_map L).
    { apply map_eq. intros k. destruct (p_content d !! k) as [x|] eqn:Hx.
      - symmetry. apply elem_of_list_to_map_1; [done|].
        assert (Hk : k ∈ map fst L).
        { rewrite HL1. assert (Hdom : k ∈ dom (p_content d)) by (by apply elem_of_dom).
          rewrite (po_content_dom d Hok) in Hdom. by apply elem_of_list_to_set in Hdom. }
        apply list_elem_of_fmap in Hk as ([k' y] & -> & Hy). rewrite Forall_forall in HL3. specialize (HL3 _ Hy).
        simpl in *. by simplify_eq.
      - symmetry. apply not_elem_of_list_to_map_1. intros Hk. apply list_elem_of_fmap in Hk as ([k' y] & -> & Hy).
        rewrite Forall_forall in HL3. specialize (HL3 _ Hy). simpl in *. congruence. }
    rewrite <- HL2. apply sum_perm, Permutation_map. rewrite Heq. by apply map_to_list_to_map.
Qed.

Lemma attachment_total : legacy_attachment_count layout c = Ok (Z.of_nat (length (attachments whole))).
Proof.
  unfold tables_upto, tables_of. cbn [attachments]. rewrite whole_rows.
  destruct s, c; try done; simpl in *; f_equal.
  - destruct (has_attachments_table (columns d)); [|done]. rewrite length_map. f_equal.
    induction (l_messages d) as [|m l IH]; [done|]. cbn [flat_map]. rewrite !length_app, IH. f_equal.
    transitivity (length (attachments_of d m)); [unfold attachments_of; by rewrite length_map|].
    pose proof (plan_message_ids {| lm_seq := rowid m; lm_raw := l_raw m; lm_attachments := attachments_of d m |}) as Hids.
    apply (f_equal length) in Hids. by rewrite !length_map in Hids.
  - by rewrite length_map.
Qed.

Lemma message_total from : contents from = c → message_count from = Ok (Z.of_nat (length (all_items c))).
Proof.
  intros Hc. unfold message_count. rewrite Hc. destruct s, c; try done; simpl in *; f_equal; f_equal.
  - by rewrite length_map.
  - rewrite <- (proj1 (previous_items d (p_messages d) Hok (λ _ H, H))) at 1. by rewrite length_map.
Qed.

Lemma whole_seqs : seqs whole = list_to_set (map key (all_items c)).
Proof. unfold seqs, tables_upto, tables_of. cbn [messages]. by rewrite whole_items, map_map. Qed.
Lemma content_size : base.size (message_content whole) = length (all_items c).
Proof.
  unfold tables_upto, tables_of. cbn [message_content]. rewrite whole_items, map_size_list_to_map.
  - unfold frames. by rewrite length_map.
  - pose proof (items_keys s c Hok) as Hk. rewrite <- frames_keys in Hk. exact Hk.
Qed.
Lemma fts_size : base.size (messages_fts whole) = length (all_items c).
Proof.
  unfold tables_upto, tables_of. cbn [messages_fts]. rewrite whole_items, map_size_list_to_map.
  - unfold indexed. by rewrite length_map.
  - pose proof (items_keys s c Hok) as Hk. rewrite <- indexed_keys in Hk. exact Hk.
Qed.
Lemma whole_indexed : dom (messages_fts whole) = seqs whole.
Proof.
  rewrite whole_seqs. unfold tables_upto, tables_of. cbn [messages_fts]. rewrite whole_items, dom_list_to_map_L.
  f_equal. apply indexed_keys.
Qed.
Lemma whole_content : dom (message_content whole) = seqs whole.
Proof.
  rewrite whole_seqs. unfold tables_upto, tables_of. cbn [message_content]. rewrite whole_items, dom_list_to_map_L.
  f_equal. apply frames_keys.
Qed.
Lemma all_indexed : unindexed whole = 0.
Proof.
  unfold unindexed. assert (Hm : List.filter (λ m, bool_decide (messages_fts whole !! seq m = None)) (messages whole) = []).
  { destruct (List.filter _ _) as [|m l] eqn:Hf; [done|].
    assert (Hin : m ∈ List.filter (λ m, bool_decide (messages_fts whole !! seq m = None)) (messages whole)) by (rewrite Hf; by left).
    apply elem_of_filter_b in Hin as [Hin Hnone%bool_decide_eq_true].
    assert (Hd : seq m ∈ dom (messages_fts whole)) by (rewrite whole_indexed; apply seqs_elem; by exists m).
    apply elem_of_dom in Hd as [x Hx]. congruence. }
  by rewrite Hm.
Qed.
Lemma rows_in_whole r : r ∈ attachments whole → message_seq r ∈ seqs whole ∧ attachment_okb r = true.
Proof.
  intros Hr. apply (rows_belong s c Hok) in Hr as [Ha Hr]. split; [|done]. rewrite whole_seqs. apply elem_of_list_to_set.
  apply list_elem_of_fmap in Hr as (i & -> & Hi). apply elem_of_filter_b in Hi as [Hi _]. by apply (list_elem_of_fmap_2 key).
Qed.
Lemma tags_in_whole x : x ∈ message_tags whole → x.2 ∈ seqs whole.
Proof.
  destruct x as [tag k]. unfold tables_upto at 1, tables_of at 1. cbn [message_tags]. rewrite union_tags, whole_seqs, whole_items.
  intros (i & Hi & <- & _). simpl. apply elem_of_list_to_set. by apply (list_elem_of_fmap_2 key).
Qed.
Lemma no_violations : foreign_key_violations whole = 0.
Proof.
  unfold foreign_key_violations. rewrite whole_content, difference_diag_L, size_empty.
  replace (List.filter (λ a, bool_decide (message_seq a ∉ seqs whole)) (attachments whole)) with (@nil AttachmentRecord).
  - replace (filter (λ x, x.2 ∉ seqs whole) (message_tags whole)) with (∅ : gset (bytes * Z)); [by rewrite size_empty|].
    symmetry. apply set_eq. intros x. rewrite elem_of_filter. split; [|by intros ?%elem_of_empty].
    intros [Hx Hin]. by apply tags_in_whole in Hin.
  - symmetry. destruct (List.filter _ _) as [|r l] eqn:Hf; [done|].
    assert (Hin : r ∈ List.filter (λ a, bool_decide (message_seq a ∉ seqs whole)) (attachments whole)) by (rewrite Hf; by left).
    apply elem_of_filter_b in Hin as [Hin Hno%bool_decide_eq_true]. by apply rows_in_whole in Hin as [? _].
Qed.

Lemma whole_length : length (messages whole) = length (all_items c).
Proof. unfold tables_upto, tables_of. cbn [messages]. by rewrite whole_items, length_map. Qed.
Lemma checks_pass from : contents from = c →
  Forall (λ x : bytes * result StorageError Z * Z, snd (fst x) = Ok (snd x)) (checks layout from whole).
Proof.
  intros Hc. unfold checks. rewrite !(message_total from Hc), Hc, raw_total, attachment_total, tag_count, content_size, fts_size, all_indexed.
  rewrite whole_length. repeat apply Forall_cons_2; done.
Qed.
End checks.
