(* ===== verification/MigrateLogic.v ===== *)
(** A program logic for the migration: what holds of the files after each part,
    whether it ends well, fails or is killed, and that a run nothing goes wrong in
    ends well. *)
From S2P Require Import Prelude RustStd StorageError Content MailParser Prepared OldDb Fingerprint MigrateDisk MigrateBuild Migrate.

(** Nothing goes wrong, nobody asks it to stop and nobody else is there. *)
Record lucky (w : Disk) : Prop := {
  l_mishaps : Forall (λ x, x = None) (mishaps w);
  l_alive : dead w = false;
  l_stops : Forall (λ b, b = false) (stops w);
  l_others : others w = ∅;
  l_lock : locked_elsewhere w = false;
}.
(** The disk without the script of the run. *)
Definition view (w : Disk) : Disk :=
  w <| mishaps := [] |> <| meddling := [] |> <| stops := [] |> <| dead := false |>.

(** The paths of one database's files; no side file has the name of one of them. *)
Definition side_names (p : bytes) : gset bytes := side_files p ∪ {[ sidecar p JOURNAL_SUFFIX ]}.
Class Apart (mains : list bytes) : Prop := apart p q : p ∈ mains → q ∈ mains → q ∉ side_names p.

(** A rule of the logic; that the paths are apart is an instance. *)
Tactic Notation "rule" uconstr(r) := eapply r; lazymatch goal with |- Apart _ => exact _ | _ => idtac end.

Section logic.
(** [L]: the run is a lucky one. *)
Context (L : Prop).

(** No other program writes the database. *)
Definition live (w : Disk) : Prop := meddling w = [] ∧ (L → lucky w).
(** From a disk that satisfies [P], [c] answers: with a result and a disk as [Q]
    says, or it ends early, which it never does when lucky, and leaves the files as
    [E] says. *)
Definition run {A} (P : Disk → Prop) (c : FS A) (Q : A → Disk → Prop) (E : Disk → Prop) : Prop :=
  ∀ w, live w → P (view w) →
    wp c (λ r w', live w' ∧ match r with Ok a => Q a (view w') | Err _ => ¬ L ∧ E (view w') end) w.

Lemma run_conseq {A : Type} (P P' : Disk → Prop) (c : FS A) Q Q' (E E' : Disk → Prop) :
  run P' c Q' E' → (∀ v, P v → P' v) → (∀ a v, Q' a v → Q a v) → (∀ v, E' v → E v) → run P c Q E.
Proof.
  intros Hc HP HQ HE w Hw Hp. eapply wp_mono; [by apply Hc; auto|]. intros [a|h] w' [Hw' Hr]; split; naive_solver.
Qed.
Lemma run_pre {A : Type} (P P' : Disk → Prop) (c : FS A) Q E : run P' c Q E → (∀ v, P v → P' v) → run P c Q E.
Proof. intros Hc HP. by eapply run_conseq. Qed.
Lemma run_post {A : Type} P (c : FS A) (Q Q' : A → Disk → Prop) E : run P c Q' E → (∀ a v, Q' a v → Q a v) → run P c Q E.
Proof. intros Hc HQ. by eapply run_conseq. Qed.
Lemma run_bind {A B : Type} P (c : FS A) (k : A → FS B) R Q E :
  run P c R E → (∀ a, run (R a) (k a) Q E) → run P (c ≫= k) Q E.
Proof.
  intros Hc Hk w Hw Hp. apply wp_bind. eapply wp_mono; [by apply Hc|]. intros [a|h] w' [Hw' Hr]; [|done]. by apply Hk.
Qed.
Lemma run_ret {A : Type} (a : A) (P : Disk → Prop) (Q : A → Disk → Prop) E : (∀ v, P v → Q a v) → run P (mret a) Q E.
Proof. intros HQ w Hw Hp. apply wp_ret. auto. Qed.
(** An error that cannot come in a lucky run. *)
Lemma run_fail {A : Type} h (P : Disk → Prop) (Q : A → Disk → Prop) (E : Disk → Prop) :
  (∀ v, P v → ¬ L ∧ E v) → run P (fail h) Q E.
Proof. intros HE w Hw Hp. exists (Err h), w. auto. Qed.
Lemma run_refuse {A : Type} e (P : Disk → Prop) (Q : A → Disk → Prop) (E : Disk → Prop) :
  (∀ v, P v → ¬ L ∧ E v) → run P (refuse e) Q E.
Proof. apply run_fail. Qed.
Lemma run_false {A : Type} (P : Disk → Prop) (c : FS A) Q E : (∀ v, P v → False) → run P c Q E.
Proof. intros HP w Hw Hp. by apply HP in Hp. Qed.
Lemma run_lift {A : Type} (r : result StorageError A) (P : Disk → Prop) (Q : A → Disk → Prop) (E : Disk → Prop) :
  (∀ v, P v → match r with Ok a => Q a v | Err _ => ¬ L ∧ E v end) → run P (lift r) Q E.
Proof. intros HQ. destruct r as [a|e]; [by apply run_ret|by apply run_refuse]. Qed.
Lemma run_give {A : Type} (r : result halt A) (P : Disk → Prop) (Q : A → Disk → Prop) (E : Disk → Prop) :
  (∀ v, P v → match r with Ok a => Q a v | Err _ => ¬ L ∧ E v end) → run P (give r) Q E.
Proof. intros HQ. destruct r as [a|e]; [by apply run_ret|by apply run_fail]. Qed.
Lemma run_attempt {A : Type} P (c : FS A) Q E E' :
  run P c Q E → run P (attempt c) (λ r v, match r with Ok a => Q a v | Err _ => ¬ L ∧ E v end) E'.
Proof.
  intros Hc w Hw Hp. destruct (Hc w Hw Hp) as (r & w' & Hrun & Hw' & Hr). exists (Ok r), w'. unfold attempt. rewrite Hrun.
  by destruct r.
Qed.
(** What the state says may be used to prove the rest. *)
Lemma run_with {A : Type} (φ : Prop) P (c : FS A) Q E : (∀ v, P v → φ) → (φ → run P c Q E) → run P c Q E.
Proof. intros Hφ Hc w Hw Hp. by apply Hc; [apply (Hφ _ Hp)| |]. Qed.

(** ** The primitives *)

Lemma live_tail w : live w → live (w <| mishaps := tail (mishaps w) |>).
Proof.
  intros [Hm Hl]. split; [done|]. intros HL. destruct (Hl HL). split; simpl; try done.
  destruct (mishaps w); [done|]. by inversion l_mishaps0.
Qed.
Lemma run_meet f (P : Disk → Prop) : run P (meet f) (λ _, P) P.
Proof.
  intros w Hw Hp. pose proof (live_tail w Hw) as Ht. destruct Hw as [Hm Hl]. unfold wp, meet.
  destruct (dead w) eqn:Hd.
  - exists (Err Killed), w. split; [done|]. split; [done|]. split; [|done]. intros HL. destruct (Hl HL). congruence.
  - destruct (mishaps w) as [|[[e| |]|] ms] eqn:Hms; eexists _, _; (split; [done|]).
    all: try (split; [exact Ht|]); try (split; [|exact Hp]); try exact Hp;
      try (intros HL; destruct (Hl HL) as [Hmis _ _ _ _]; rewrite Hms in Hmis; by inversion Hmis).
    split; [|split; [|exact Hp]].
    + split; [done|]. intros HL. destruct (Hl HL) as [Hmis _ _ _ _]. rewrite Hms in Hmis. by inversion Hmis.
    + intros HL. destruct (Hl HL) as [Hmis _ _ _ _]. rewrite Hms in Hmis. by inversion Hmis.
Qed.
Lemma run_sql (P : Disk → Prop) : run P sql (λ _, P) P.
Proof. apply run_meet. Qed.
Lemma run_blocking action path (P : Disk → Prop) : run P (blocking action path) (λ _, P) P.
Proof. apply run_meet. Qed.
(** A value read off the disk. *)
Lemma run_gets {A : Type} (f : Disk → A) (P : Disk → Prop) E : (∀ w, f (view w) = f w) → run P (gets f) (λ a v, P v ∧ a = f v) E.
Proof. intros Hf w Hw Hp. unfold wp, gets. eexists _, _. split; [done|]. split; [done|]. split; [done|]. by rewrite Hf. Qed.
Lemma run_modify (f : Disk → Disk) (P : Disk → Prop) (Q : unit → Disk → Prop) E :
  (∀ w, live w → live (f w)) → (∀ w, view (f w) = f (view w)) → (∀ v, P v → Q tt (f v)) → run P (modify f) Q E.
Proof. intros Hl Hf HQ w Hw Hp. unfold wp, modify. eexists _, _. split; [done|]. split; [auto|]. rewrite Hf. by apply HQ. Qed.
Lemma run_on_files f (P : Disk → Prop) (Q : unit → Disk → Prop) E :
  (∀ v, P v → Q tt (v <| files := f (files v) |>)) → run P (on_files f) Q E.
Proof. apply run_modify; [|done]. intros w [Hm Hl]. split; [done|]. intros HL. by destruct (Hl HL). Qed.
Lemma run_on_sides f (P : Disk → Prop) (Q : unit → Disk → Prop) E :
  (∀ v, P v → Q tt (v <| sides := f (sides v) |>)) → run P (on_sides f) Q E.
Proof. apply run_modify; [|done]. intros w [Hm Hl]. split; [done|]. intros HL. by destruct (Hl HL). Qed.
(** Closing: when lucky, the side files are gone. *)
Lemma run_closed p (P : Disk → Prop) (Q : unit → Disk → Prop) E :
  (∀ v S, P v → (L → S = sides v ∖ side_files p) → Q tt (v <| sides := S |>)) → run P (modify (closed p)) Q E.
Proof.
  intros HQ w Hw Hp. unfold wp, modify, closed. eexists _, _. split; [done|].
  destruct (dead w || bool_decide (p ∈ others w)) eqn:Hb.
  - split; [done|]. destruct Hw as [Hm Hl]. replace (view w) with ((view w) <| sides := sides w |>) by (by destruct w).
    apply HQ; [done|]. intros HL. destruct (Hl HL) as [_ Hd _ Ho _]. rewrite Hd, Ho in Hb. simpl in Hb.
    by apply bool_decide_eq_true, elem_of_empty in Hb.
  - split; [destruct Hw as [Hm Hl]; split; [done|]; intros HL; by destruct (Hl HL)|]. by apply (HQ (view w)).
Qed.
Lemma run_close p (P : Disk → Prop) (Q : unit → Disk → Prop) :
  (∀ v S, P v → (L → S = sides v ∖ side_files p) → Q tt (v <| sides := S |>)) → run P (close p) Q P.
Proof. intros HQ. eapply run_bind; [apply run_sql|]. intros []. by apply run_closed. Qed.
Lemma run_should_stop (P : Disk → Prop) E : run P should_stop (λ b v, P v ∧ (b = true → ¬ L)) E.
Proof.
  intros w Hw Hp. unfold wp, should_stop. eexists _, _. split; [done|]. destruct Hw as [Hm Hl]. split.
  - split; [done|]. intros HL. destruct (Hl HL). split; simpl; try done. destruct (stops w); [done|]. by inversion l_stops0.
  - split; [done|]. intros Hb HL. destruct (Hl HL). destruct (stops w) as [|b bs]; [done|]. simpl in Hb. subst. by inversion l_stops0.
Qed.

(** ** The files and which databases are closed *)

Context (mains : list bytes) {Hapart : Apart mains}.

Definition tidy (v : Disk) : Prop :=
  (∀ q, q ∈ mains → q ∉ sides v) ∧ (∀ p x, p ∈ mains → x ∈ side_names p → files v !! x = None).
(** [F] says what the files are, [C] which databases nothing is left open of. *)
Definition at_ (F : gmap bytes DbFile → Prop) (C : bytes → Prop) (v : Disk) : Prop :=
  F (files v) ∧ tidy v ∧ (L → ∀ q, C q → side_files q ## sides v).
Implicit Types (C : bytes → Prop) (F J : gmap bytes DbFile → Prop) (e : StorageError) (h : halt) (p path action : bytes).
Definition nothing : bytes → Prop := λ _, False.
Definition does {A : Type} (F : gmap bytes DbFile → Prop) (C : bytes → Prop) (c : FS A)
    (G : A → gmap bytes DbFile → Prop) (D : A → bytes → Prop) (J : gmap bytes DbFile → Prop) : Prop :=
  run (at_ F C) c (λ a, at_ (G a) (D a)) (at_ J nothing).

Lemma at_mono F F2 C C2 v : at_ F C v → (∀ fs, F fs → F2 fs) → (∀ q, C2 q → C q) → at_ F2 C2 v.
Proof. intros (HF & Ht & HC) HFF HCC. split_and!; auto. Qed.
Lemma at_error F C J v : at_ F C v → (∀ fs, F fs → J fs) → at_ J nothing v.
Proof. intros Hv HJ. by eapply at_mono; [exact Hv|exact HJ|]. Qed.
Lemma does_conseq {A : Type} F F1 C C1 (c : FS A) G G1 D D1 J J1 :
  does F1 C1 c G1 D1 J1 → (∀ fs, F fs → F1 fs) → (∀ q, C1 q → C q) →
  (∀ a fs, G1 a fs → G a fs) → (∀ a q, D a q → D1 a q) → (∀ fs, J1 fs → J fs) → does F C c G D J.
Proof.
  intros Hc H1 H2 H3 H4 H5. eapply run_conseq; [exact Hc|intros v Hv|intros a v Hv|intros v Hv]; (eapply at_mono; [exact Hv|..]);
    auto.
Qed.
Lemma does_pre {A : Type} F F1 C C1 (c : FS A) G D J :
  does F1 C1 c G D J → (∀ fs, F fs → F1 fs) → (∀ q, C1 q → C q) → does F C c G D J.
Proof. intros Hc H1 H2. by eapply does_conseq; [exact Hc|..]. Qed.
Lemma does_post {A : Type} F C (c : FS A) G G1 D D1 J :
  does F C c G1 D1 J → (∀ a fs, G1 a fs → G a fs) → (∀ a q, D a q → D1 a q) → does F C c G D J.
Proof. intros Hc H1 H2. by eapply does_conseq; [exact Hc|..]. Qed.
Lemma does_bind {A B : Type} F C (c : FS A) (k : A → FS B) G D G1 D1 J :
  does F C c G D J → (∀ a, does (G a) (D a) (k a) G1 D1 J) → does F C (c ≫= k) G1 D1 J.
Proof. apply run_bind. Qed.
Lemma does_ret {A : Type} (a : A) F C (G : A → gmap bytes DbFile → Prop) (D : A → bytes → Prop) J : (∀ fs, F fs → G a fs) → (∀ q, D a q → C q) → does F C (mret a) G D J.
Proof. intros HF HC. apply run_ret. intros v Hv. by eapply at_mono. Qed.
Lemma does_refuse {A : Type} e F C (G : A → gmap bytes DbFile → Prop) (D : A → bytes → Prop) J : (∀ fs, F fs → ¬ L ∧ J fs) → does F C (refuse e) G D J.
Proof. intros HF. apply run_refuse. intros v Hv. split; [by apply (HF _ (proj1 Hv))|]. eapply at_error; [exact Hv|]. intros fs Hfs. by apply HF. Qed.
Lemma does_fail {A : Type} h F C (G : A → gmap bytes DbFile → Prop) (D : A → bytes → Prop) J : (∀ fs, F fs → ¬ L ∧ J fs) → does F C (fail h) G D J.
Proof. intros HF. apply run_fail. intros v Hv. split; [by apply (HF _ (proj1 Hv))|]. eapply at_error; [exact Hv|]. intros fs Hfs. by apply HF. Qed.
Lemma does_with {A : Type} (φ : Prop) F C (c : FS A) G D J : (∀ fs, F fs → φ) → (φ → does F C c G D J) → does F C c G D J.
Proof. intros Hφ. apply run_with. intros v Hv. by apply (Hφ _ (proj1 Hv)). Qed.
Lemma does_meet f F C J : (∀ fs, F fs → J fs) → does F C (meet f) (λ _, F) (λ _, C) J.
Proof. intros HJ. eapply run_conseq; [apply run_meet|done|done|]. intros v Hv. by eapply at_error. Qed.
Lemma does_sql F C J : (∀ fs, F fs → J fs) → does F C sql (λ _, F) (λ _, C) J.
Proof. apply does_meet. Qed.
Lemma does_blocking action path F C J : (∀ fs, F fs → J fs) → does F C (blocking action path) (λ _, F) (λ _, C) J.
Proof. apply does_meet. Qed.
Lemma does_attempt {A : Type} F C (c : FS A) G D J J' :
  does F C c G D J →
  does F C (attempt c) (λ r fs, match r with Ok a => G a fs | Err _ => ¬ L ∧ J fs end)
    (λ r, match r with Ok a => D a | Err _ => nothing end) J'.
Proof.
  intros Hc. eapply run_post; [by apply run_attempt|]. intros [a|h] v; [done|]. intros [HL (HJ & Ht & _)]. by split_and!.
Qed.
Lemma does_give {A : Type} (r : result halt A) F C (G : A → gmap bytes DbFile → Prop) (D : A → bytes → Prop) J :
  match r with
  | Ok a => (∀ fs, F fs → G a fs) ∧ (∀ q, D a q → C q)
  | Err _ => ∀ fs, F fs → ¬ L ∧ J fs
  end → does F C (give r) G D J.
Proof. destruct r as [a|h]; [intros []; by apply does_ret|apply does_fail]. Qed.
Lemma does_lift {A : Type} (r : result StorageError A) F C (G : A → gmap bytes DbFile → Prop) (D : A → bytes → Prop) J :
  match r with
  | Ok a => (∀ fs, F fs → G a fs) ∧ (∀ q, D a q → C q)
  | Err _ => ∀ fs, F fs → ¬ L ∧ J fs
  end → does F C (lift r) G D J.
Proof. destruct r as [a|h]; [intros []; by apply does_ret|apply does_refuse]. Qed.
Lemma does_meddle p F C J : does F C (meddle p) (λ _, F) (λ _, C) J.
Proof.
  intros w [Hm Hl] Hv. unfold wp, meddle. rewrite Hm. eexists _, _. split; [done|]. simpl. split; [|exact Hv].
  split; [done|]. intros HL. by destruct (Hl HL).
Qed.
Lemma does_should_stop F C J : does F C should_stop (λ b fs, F fs ∧ (b = true → ¬ L)) (λ _, C) J.
Proof. eapply run_post; [apply run_should_stop|]. intros b v [(HF & Ht & HC) Hb]. by split_and!. Qed.

(** ** File operations *)

Lemma side_files_disjoint p q : p ≠ q → side_files p ## side_files q.
Proof.
  intros Hpq x Hx Hy. unfold side_files, sidecar in Hx, Hy. apply Hpq.
  apply elem_of_union in Hx as [->%elem_of_singleton| ->%elem_of_singleton];
    apply elem_of_union in Hy as [Hy%elem_of_singleton|Hy%elem_of_singleton];
    solve [by apply app_inv_tail in Hy | apply (f_equal (@last ascii)) in Hy; by rewrite !last_app in Hy].
Qed.
Lemma main_not_side p q : p ∈ mains → q ∈ mains → q ∉ side_files p.
Proof. intros Hp Hq Hin. apply (apart p q Hp Hq). apply elem_of_union. by left. Qed.
Lemma tidy_sides v S : tidy v → (∀ q, q ∈ mains → q ∉ S) → tidy (v <| sides := S |>).
Proof. intros [_ Ht] HS. by split. Qed.
Lemma tidy_files v fs : tidy v → (∀ p x, p ∈ mains → x ∈ side_names p → files v !! x = None → fs !! x = None) →
  tidy (v <| files := fs |>).
Proof. intros [Ht1 Ht2] Hfs. split; [done|]. simpl. intros p x Hp Hx. eapply Hfs; eauto. Qed.
Lemma main_insert p f v : p ∈ mains → tidy v → tidy (v <| files := <[p := f]> (files v) |>).
Proof.
  intros Hp Ht. apply tidy_files; [done|]. intros q x Hq Hx Hn. rewrite lookup_insert_ne; [done|].
  intros ->. by apply (apart q x).
Qed.

Lemma does_connect p F C J :
  p ∈ mains → (∀ fs, F fs → is_Some (fs !! p)) → (∀ fs, F fs → J fs) →
  does F C (connect p) (λ _, F) (λ _ q, C q ∧ q ≠ p) J.
Proof.
  intros Hp Hf HJ. unfold connect. eapply does_bind; [by apply does_sql|]. intros [].
  eapply run_bind; [by apply run_gets|]. intros b. destruct b.
  - apply run_on_sides. intros v [(HF & Ht & HC) _]. split_and!; [done| |].
    + apply tidy_sides; [done|]. intros q Hq [Hin|Hin]%elem_of_union; [by apply (proj1 Ht q Hq)|by apply (main_not_side p q)].
    + intros HL q [Hq Hne]. simpl. specialize (HC HL q Hq). pose proof (side_files_disjoint q p Hne). set_solver.
  - apply run_false. intros v [(HF & _) Hb]. symmetry in Hb. apply bool_decide_eq_false in Hb. by apply Hb, Hf.
Qed.
Lemma at_closed p F C v S : at_ F C v → (L → S = sides v ∖ side_files p) → (S ⊆ sides v) →
  at_ F (λ q, C q ∨ q = p) (v <| sides := S |>).
Proof.
  intros (HF & Ht & HC) HS Hsub. split_and!; [done| |].
  - apply tidy_sides; [done|]. intros q Hq Hin. by apply (proj1 Ht q Hq), Hsub.
  - intros HL q Hq. simpl. rewrite (HS HL). destruct Hq as [Hq| ->]; [|set_solver]. specialize (HC HL q Hq). set_solver.
Qed.
Lemma does_closed p F C J : does F C (modify (closed p)) (λ _, F) (λ _ q, C q ∨ q = p) J.
Proof.
  intros w Hw Hv. unfold wp, modify, closed. eexists _, _. split; [done|]. simpl.
  destruct (dead w || bool_decide (p ∈ others w)) eqn:Hb.
  - split; [done|]. destruct Hv as (HF & Ht & HC). split_and!; [done|done|]. intros HL. destruct Hw as [_ Hl].
    destruct (Hl HL) as [_ Hd _ Ho _]. rewrite Hd, Ho in Hb. simpl in Hb. by apply bool_decide_eq_true, elem_of_empty in Hb.
  - split; [destruct Hw as [Hm Hl]; split; [done|]; intros HL; by destruct (Hl HL)|].
    change (at_ F (λ q, C q ∨ q = p) ((view w) <| sides := sides (view w) ∖ side_files p |>)).
    apply at_closed; [done|done|set_solver].
Qed.
Lemma does_close p F C J : (∀ fs, F fs → J fs) → does F C (close p) (λ _, F) (λ _ q, C q ∨ q = p) J.
Proof. intros HJ. eapply does_bind; [by apply does_sql|]. intros []. apply does_closed. Qed.
Lemma does_drop p F C J : does F C (drop_connection p) (λ _, F) (λ _ q, C q ∨ q = p) J.
Proof. apply does_closed. Qed.
Lemma does_read p F C J :
  (∀ fs, F fs → is_Some (fs !! p)) → (∀ fs, F fs → J fs) →
  does F C (read_file p) (λ f fs, F fs ∧ fs !! p = Some f) (λ _, C) J.
Proof.
  intros Hf HJ. unfold read_file. eapply does_bind; [by apply does_sql|]. intros [].
  eapply run_bind; [by apply run_gets|]. intros o. destruct o as [f|].
  - apply run_ret. intros v [(HF & Ht & HC) Hb]. by split_and!.
  - apply run_false. intros v [(HF & _) Hb]. apply Hf in HF as [f HF]. congruence.
Qed.
Lemma does_on_files (g : gmap bytes DbFile → gmap bytes DbFile) F C (G : gmap bytes DbFile → Prop) J :
  (∀ fs, F fs → G (g fs)) →
  (∀ fs p x, F fs → p ∈ mains → x ∈ side_names p → fs !! x = None → g fs !! x = None) →
  does F C (on_files g) (λ _, G) (λ _, C) J.
Proof.
  intros HG Ht. apply run_on_files. intros v (HF & Htv & HC). split_and!; [by apply HG| |done].
  apply tidy_files; [done|]. intros. eapply Ht; eauto.
Qed.
Lemma does_write p (f : DbFile) F C (G : gmap bytes DbFile → Prop) J :
  p ∈ mains → (∀ fs, F fs → G (<[p := f]> fs)) → does F C (on_files (<[p := f]>)) (λ _, G) (λ _, C) J.
Proof.
  intros Hp HG. apply does_on_files; [done|]. intros fs q x _ Hq Hx Hn. rewrite lookup_insert_ne; [done|].
  intros ->. by apply (apart q x).
Qed.
Lemma does_transact p (body : DbFile → result StorageError DbFile) F C (G : gmap bytes DbFile → Prop) J :
  p ∈ mains → (∀ fs, F fs → J fs) →
  (∀ fs, F fs → ∃ f f', fs !! p = Some f ∧ body f = Ok f' ∧ G (<[p := f']> fs)) →
  does F C (transact p body) (λ _, G) (λ _, C) J.
Proof.
  intros Hp HJ HG. unfold transact. eapply does_bind; [apply does_read; [|done]|].
  { intros fs HF. destruct (HG fs HF) as (f & ? & Hf & _). by exists f. }
  intros f. simpl. destruct (body f) as [f'|e] eqn:Hb; simpl.
  - eapply (does_bind _ _ _ _ (λ x fs, (F fs ∧ fs !! p = Some f) ∧ x = f') (λ _, C)); [by apply does_ret|]. intros x.
    apply does_write; [done|]. intros fs [[HF Hf] ->]. destruct (HG fs HF) as (f0 & f1 & Hf0 & Hb0 & HG0). congruence.
  - eapply (does_with False); [|done]. intros fs [HF Hf]. destruct (HG fs HF) as (f0 & f1 & Hf0 & Hb0 & _). congruence.
Qed.
Lemma does_exists p F C J :
  p ∈ mains → (∀ fs, F fs → J fs) → does F C (exists_ p) (λ b fs, F fs ∧ b = bool_decide (is_Some (fs !! p))) (λ _, C) J.
Proof.
  intros Hp HJ. unfold exists_. eapply does_bind; [by apply does_blocking|]. intros [].
  eapply run_post; [by apply run_gets|]. intros b v [(HF & Ht & HC) ->]. split_and!; try done. unfold present.
  apply bool_decide_ext. split; [|by left]. intros [|Hin]; [done|]. exfalso. by apply (proj1 Ht p Hp).
Qed.
Lemma does_rename (from to : bytes) F C (G : gmap bytes DbFile → Prop) J :
  to ∈ mains → (∀ fs, F fs → J fs) → (∀ fs, F fs → ∃ f, fs !! from = Some f ∧ G (<[to := f]> (delete from fs))) →
  does F C (rename from to) (λ _, G) (λ _, C) J.
Proof.
  intros Hto HJ HG. unfold rename. eapply does_bind; [by apply does_blocking|]. intros [].
  eapply run_bind; [by apply run_gets|]. intros o. destruct o as [f|].
  - eapply run_pre; [apply (does_on_files _ (λ fs, F fs ∧ fs !! from = Some f) C G)|].
    + intros fs [HF Hf]. destruct (HG fs HF) as (f' & Hf' & HG'). congruence.
    + intros fs q x _ Hq Hx Hn. rewrite lookup_insert_ne by (intros ->; by apply (apart q x)).
      destruct (decide (from = x)) as [->|]; [apply lookup_delete_eq|by rewrite lookup_delete_ne].
    + intros v [(HF & Ht & HC) Ho]. by split_and!.
  - apply run_false. intros v [(HF & _) Ho]. destruct (HG _ HF) as (f & Hf & _). congruence.
Qed.
Lemma does_file_len `{Machine} p F C J : (∀ fs, F fs → J fs) → does F C (file_len p) (λ _, F) (λ _, C) J.
Proof.
  intros HJ. unfold file_len. eapply does_bind; [by apply does_blocking|]. intros [].
  eapply run_post; [by apply run_gets|]. by intros a v [? _].
Qed.
Lemma does_mode_of p F C J :
  (∀ fs, F fs → J fs) → does F C (mode_of p) (λ o fs, F fs ∧ o = mode <$> fs !! p) (λ _, C) J.
Proof.
  intros HJ. unfold mode_of. eapply does_bind; [by apply does_blocking|]. intros [].
  eapply run_post; [by apply run_gets|]. intros o v [(HF & Ht & HC) ->]. by split_and!.
Qed.
(** A connection for the time of a part that leaves others' side files alone. *)
Lemma does_with_connection {A : Type} p (c : FS A) F C (G : A → gmap bytes DbFile → Prop) J :
  p ∈ mains → (∀ fs, F fs → is_Some (fs !! p)) → (∀ fs, F fs → J fs) → (∀ a fs, G a fs → J fs) →
  does F (λ q, C q ∧ q ≠ p) c G (λ _ q, C q ∧ q ≠ p) J →
  does F C (with_connection p c) G (λ _ q, C q ∨ q = p) J.
Proof.
  intros Hp Hf HJ HG Hc. unfold with_connection. eapply does_bind; [by apply does_connect|]. intros [].
  eapply does_bind; [by eapply does_attempt|]. intros r. destruct r as [a|h].
  - eapply does_bind; [apply does_close; apply HG|]. intros []. apply does_give. split; [done|].
    intros q [Hq| ->]; [|by right]. destruct (decide (q = p)) as [->|]; [by right|left; by split].
  - eapply does_bind; [apply (does_close p (λ fs, ¬ L ∧ J fs)); by intros fs []|]. intros []. apply does_give. by intros fs [].
Qed.

Lemma does_ex {A T : Type} (F : T → gmap bytes DbFile → Prop) C (c : FS A) G D J :
  (∀ t, does (F t) C c G D J) → does (λ fs, ∃ t, F t fs) C c G D J.
Proof. intros Hc w Hw ([t HF] & Ht & HC). apply (Hc t); [done|]. by split_and!. Qed.
Lemma does_or {A : Type} F G C (c : FS A) H D J :
  does F C c H D J → does G C c H D J → does (λ fs, F fs ∨ G fs) C c H D J.
Proof. intros Hf Hg w Hw ([HF|HG] & Ht & HC); [by apply Hf|by apply Hg]. Qed.
Lemma does_file (q : bytes) F C J : does F C (gets (λ w, files w !! q)) (λ o fs, F fs ∧ o = fs !! q) (λ _, C) J.
Proof. eapply run_post; [by apply run_gets|]. intros o v [(HF & Ht & HC) ->]. by split_and!. Qed.
(** A value that is known goes into what follows. *)
Lemma does_val {A B : Type} (a : A) F C (k : A → FS B) G D J : does F C (k a) G D J → does F C (mret a ≫= k) G D J.
Proof.
  intros Hk. eapply (does_bind _ _ _ _ (λ x fs, F fs ∧ x = a) (λ _, C)); [by apply does_ret|]. intros x.
  eapply (does_with (x = a)); [by intros fs []|]. intros ->. eapply does_pre; [exact Hk|by intros fs []|done].
Qed.
(** A result that is known, with what stays true of the files. *)
Lemma does_step {A B : Type} (φ : A → Prop) F C (c : FS A) (k : A → FS B) G D J :
  does F C c (λ a fs, F fs ∧ φ a) (λ _, C) J → (∀ a, φ a → does F C (k a) G D J) → does F C (c ≫= k) G D J.
Proof.
  intros Hc Hk. eapply does_bind; [exact Hc|]. intros a. eapply (does_with (φ a)); [by intros fs []|]. intros Ha.
  eapply does_pre; [by apply Hk|by intros fs []|done].
Qed.
Lemma does_seq {B : Type} F C (c : FS unit) (k : unit → FS B) G D J :
  does F C c (λ _, F) (λ _, C) J → does F C (k tt) G D J → does F C (c ≫= k) G D J.
Proof. intros Hc Hk. eapply does_bind; [exact Hc|]. by intros []. Qed.

(** ** The helpers of the migration *)

Lemma does_on_sides_less X F C J : does F C (on_sides (λ s, s ∖ X)) (λ _, F) (λ _, C) J.
Proof.
  apply run_on_sides. intros v (HF & Ht & HC). split_and!; [done| |].
  - apply tidy_sides; [done|]. intros q Hq Hin. apply (proj1 Ht q Hq). set_solver.
  - intros HL q Hq. simpl. specialize (HC HL q Hq). set_solver.
Qed.
Lemma does_remove_file (x : bytes) F C (G : gmap bytes DbFile → Prop) J :
  (∀ fs, F fs → J fs) → (∀ fs, F fs → G (delete x fs)) → does F C (remove_file x) (λ _, G) (λ _, C) J.
Proof.
  intros HJ HG. unfold remove_file. eapply does_bind; [by apply does_blocking|]. intros [].
  eapply does_bind; [apply (does_on_files _ _ _ G); [done|]|intros []; apply does_on_sides_less].
  intros fs q y _ _ _ Hn. destruct (decide (x = y)) as [->|]; [apply lookup_delete_eq|by rewrite lookup_delete_ne].
Qed.
Lemma does_remove_all (l : list bytes) F C (G : gmap bytes DbFile → Prop) J :
  (∀ fs, F fs → J fs) → (∀ fs x, F fs → x ∈ l → F (delete x fs)) → does F C (each remove_file l) (λ _, F) (λ _, C) J.
Proof.
  intros HJ. induction l as [|x l IH]; intros HF; [by apply does_ret|]. cbn [each].
  eapply does_bind; [apply (does_remove_file x F C F); [done|]|].
  - intros fs Hfs. apply HF; [done|by left].
  - intros []. apply IH. intros fs y Hfs Hy. apply HF; [done|by right].
Qed.
(** Whether a new file's path is taken. *)
Lemma does_taken (q : bytes) F C J : q ∈ mains → does F C (gets (present q)) (λ b fs, F fs ∧ b = bool_decide (is_Some (fs !! q))) (λ _, C) J.
Proof.
  intros Hq. eapply run_post; [by apply run_gets|]. intros b v [(HF & Ht & HC) ->]. split_and!; try done. unfold present.
  apply bool_decide_ext. split; [|by left]. intros [|Hin]; [done|]. exfalso. by apply (proj1 Ht q Hq).
Qed.
Lemma does_create_with_mode `{Machine} (q : bytes) (o : option Z) F C (G : gmap bytes DbFile → Prop) J :
  q ∈ mains → (∀ fs, F fs → J fs ∧ fs !! q = None ∧ J (<[q := empty_file default_mode]> fs) ∧
    G (<[q := empty_file (default default_mode o)]> fs)) →
  does F C (create_with_mode q o) (λ _, G) (λ _, C) J.
Proof.
  intros Hq HF. unfold create_with_mode. eapply does_bind; [apply does_blocking; apply HF|]. intros [].
  eapply does_bind; [by apply does_taken|]. intros taken. destruct taken.
  { eapply (does_with False); [|done]. intros fs [Hfs Ht]. destruct (HF fs Hfs) as (_ & Hn & _). rewrite Hn in Ht. by apply symmetry, bool_decide_eq_true in Ht as []. }
  destruct o as [bits|]; simpl in HF.
  - eapply does_bind.
    + apply (does_write q _ _ _ (λ fs, J fs ∧ G (<[q := empty_file bits]> fs)) J); [done|].
      intros fs [Hfs _]. destruct (HF fs Hfs) as (_ & _ & HJ & HG). split; [done|]. by rewrite insert_insert_eq.
    + intros []. eapply does_bind; [apply does_blocking; by intros fs []|]. intros []. apply does_write; [done|]. by intros fs [_ HG].
  - eapply does_bind; [apply (does_write q _ _ _ G); [done|]|intros []; by apply does_ret]. intros fs [Hfs _]. by apply HF.
Qed.
Lemma does_locked F C J : does F C (gets locked_elsewhere) (λ b fs, F fs ∧ (b = true → ¬ L)) (λ _, C) J.
Proof.
  intros w Hw Hv. unfold wp, gets. eexists _, _. split; [done|]. destruct Hw as [Hm Hl]. split; [by split|].
  destruct Hv as (HF & Ht & HC). split_and!; [done| |done|done]. intros Hb HL. destruct (Hl HL). congruence.
Qed.
(** Taking the lock leaves its file, empty. *)
Lemma does_acquire_lock `{Machine} (p : Paths) F C J :
  lock p ∈ mains → (∀ fs, F fs → J fs) → (∀ fs (f : DbFile), F fs → F (<[lock p := f]> fs)) →
  does F C (acquire_lock p) (λ _, F) (λ _, C) J.
Proof.
  intros Hp HJ HF. unfold acquire_lock. eapply does_bind; [by apply does_mode_of|]. intros o.
  eapply (does_pre _ F _ C); [|by intros ? []|done]. eapply does_bind.
  - unfold open_or_create. eapply does_bind; [by apply does_taken|]. intros taken. destruct taken.
    + eapply does_pre; [apply (does_blocking _ _ F C); done|by intros ? []|done].
    + apply does_create_with_mode; [done|]. intros fs [Hfs Hb]. split_and!; [by apply HJ| |by apply HJ, HF|by apply HF].
      symmetry in Hb. apply bool_decide_eq_false in Hb. by apply eq_None_not_Some.
  - intros []. eapply does_bind; [by apply does_blocking|]. intros []. eapply does_bind; [apply does_locked|].
    intros held. destruct held.
    + apply does_refuse. intros fs [Hfs Hb]. split; [by apply Hb|by apply HJ].
    + apply does_ret; [by intros fs []|done].
Qed.
(** Whether a side file is there; when lucky it is not beside a closed database. *)
Lemma does_refuse_sides database (l : list bytes) F C J :
  (∀ fs, F fs → J fs) → (∀ x, x ∈ l → ∃ q, q ∈ mains ∧ x ∈ side_files q ∧ C q) →
  does F C (refuse_sides database l) (λ _, F) (λ _, C) J.
Proof.
  intros HJ. induction l as [|x l IH]; intros Hl; [by apply does_ret|]. cbn [refuse_sides]. unfold exists_.
  eapply (does_bind F C _ _ (λ b fs, F fs ∧ (b = true → ¬ L)) (λ _, C)).
  - eapply does_bind; [by apply does_blocking|]. intros []. eapply run_post; [by apply run_gets|].
    intros b v [(HF & Ht & HC) ->]. split_and!; try done. destruct (Hl x) as (q & Hq & Hx & HCq); [by left|].
    intros Hb HL. apply bool_decide_eq_true in Hb as [[f Hf]|Hin].
    + rewrite (proj2 Ht q x) in Hf; [done|done|]. apply elem_of_union. by left.
    + by apply (HC HL q HCq x).
  - intros b. destruct b.
    + apply does_refuse. intros fs [Hfs Hb]. split; [by apply Hb|by apply HJ].
    + eapply does_pre; [apply IH; intros y Hy; apply Hl; by right|by intros ? []|done].
Qed.
Lemma does_refuse_open_files (p : Paths) (l : list bytes) F C J :
  (∀ fs, F fs → J fs) → (∀ x, x ∈ l → x ∈ mains ∧ C x) →
  does F C (refuse_open_files p l) (λ _, F) (λ _, C) J.
Proof.
  intros HJ Hl. apply does_refuse_sides; [done|]. intros x Hx. apply list_elem_of_In, in_flat_map in Hx as (q & Hq & Hx).
  apply list_elem_of_In in Hq, Hx. destruct (Hl q Hq). exists q. split_and!; [done| |done]. unfold side_files.
  rewrite !elem_of_cons in Hx. set_solver.
Qed.

(** ** Looking at a database *)

Lemma is_some_there (q : bytes) (b : bool) F (fs : gmap bytes DbFile) :
  F fs ∧ b = bool_decide (is_Some (fs !! q)) → F fs ∧ (if b then is_Some (fs !! q) else fs !! q = None).
Proof.
  intros [HF ->]. split; [done|]. destruct (bool_decide_reflect (is_Some (fs !! q))); [done|]. by apply eq_None_not_Some.
Qed.
(** Whether it is there decides what follows. *)
Lemma does_exists_if {A : Type} (q : bytes) F C (k : bool → FS A) G D J :
  q ∈ mains → (∀ fs, F fs → J fs) →
  does (λ fs, F fs ∧ is_Some (fs !! q)) C (k true) G D J → does (λ fs, F fs ∧ fs !! q = None) C (k false) G D J →
  does F C (exists_ q ≫= k) G D J.
Proof.
  intros Hq HJ Ht Hf. eapply does_bind; [by apply does_exists|]. intros b. destruct b.
  - eapply does_pre; [exact Ht| |done]. intros fs Hfs. exact (is_some_there q true F fs Hfs).
  - eapply does_pre; [exact Hf| |done]. intros fs Hfs. exact (is_some_there q false F fs Hfs).
Qed.
(** The file is known. *)
Lemma does_read_known (q : bytes) (f : DbFile) F C J : (∀ fs, F fs → fs !! q = Some f) → (∀ fs, F fs → J fs) →
  does F C (read_file q) (λ r fs, F fs ∧ r = f) (λ _, C) J.
Proof.
  intros Hq HJ. eapply does_conseq; [apply (does_read q F C J)|..]; try done.
  - intros fs HF. by rewrite Hq.
  - intros r fs [HF Hr]. split; [done|]. rewrite Hq in Hr by done. by injection Hr.
Qed.
Lemma does_inspect_db (q : bytes) F C J (d : DbState) : q ∈ mains → (∀ fs, F fs → J fs) →
  (∀ fs, F fs → match fs !! q with None => d = DbAbsent | Some f => ∃ x, probe f = Ok x ∧ d = state_of x end) →
  does F C (inspect_db q) (λ r fs, F fs ∧ r = d) (λ _, C) J.
Proof.
  intros Hq HJ Hd. unfold inspect_db. apply does_exists_if; [done|done| |]; simpl.
  - eapply (does_bind _ _ _ _ (λ x fs, F fs ∧ state_of x = d) (λ _ y, C y ∨ y = q)).
    + apply does_with_connection; [done|by intros fs []|by intros fs [? _]; apply HJ|by intros x fs [? _]; apply HJ|].
      eapply (does_step (λ f, ∃ x, probe f = Ok x ∧ d = state_of x)).
      * eapply run_post; [apply (does_read q (λ fs, F fs ∧ is_Some (fs !! q))); [by intros fs []|by intros fs [? _]; apply HJ]|].
        intros f v [[[HF Hs] Hf] ?]. split; [|done]. split; [done|]. specialize (Hd _ HF). by rewrite Hf in Hd.
      * intros f (x & -> & ->). apply does_lift. split; [|done]. by intros fs [].
    + intros x. apply does_ret; [by intros fs []|]. intros y Hy. by left.
  - apply does_ret; [|done]. intros fs [Hfs Hn]. split; [done|]. specialize (Hd fs Hfs). by rewrite Hn in Hd.
Qed.
Lemma does_fingerprint_of `{Json, Zstd, MailParser, Machine} (q : bytes) source (src : DbFile) print F C J :
  q ∈ mains → (∀ fs, F fs → J fs) → (∀ fs, F fs → fs !! q = Some src) →
  fingerprint (layout_probe (contents src) source) (contents src) = Ok (Some print) →
  does F C (fingerprint_of q source) (λ r fs, F fs ∧ r = fingerprint_text print) (λ _ y, C y ∨ y = q) J.
Proof.
  intros Hq HJ Hsrc Hprint. unfold fingerprint_of.
  apply does_with_connection; [done|by intros fs HF; rewrite Hsrc|done|by intros r fs [? _]; auto|].
  apply does_seq; [by apply does_sql|]. eapply does_step; [by apply does_read_known|]. intros f ->. rewrite Hprint.
  apply does_val. apply does_seq; [by apply does_sql|]. by apply does_ret.
Qed.
End logic.
