(* ===== verification/MigrateLucky.v ===== *)
(** Runs nothing goes wrong in, step by step: what a part answers and leaves of the
    files and of the side files when every operation succeeds. *)
From S2P Require Import Prelude RustStd StorageError Content MailParser Prepared OldDb Fingerprint MigrateDisk MigrateBuild Migrate MigrateRestore MigrateLogic.

(** A lucky disk with these files and these side files. *)
Record luck_at (fs : gmap bytes DbFile) (S : gset bytes) (w : Disk) : Prop := {
  la_lucky : lucky w;
  la_alone : meddling w = [];
  la_files : files w = fs;
  la_sides : sides w = S;
}.
(** From it, [c] answers [r] and leaves the files [fs'] and the side files [S']. *)
Definition goes {A} fs S (c : FS A) (r : result halt A) fs' S' : Prop :=
  ∀ w, luck_at fs S w → ∃ w', c w = Some (r, w') ∧ luck_at fs' S' w'.

Section goes.
Implicit Types (fs : gmap bytes DbFile) (S : gset bytes) (p q : bytes) (f : DbFile) (l : list bytes).

Lemma goes_ret {A} (a : A) fs S : goes fs S (mret a) (Ok a) fs S.
Proof. intros w Hw. by exists w. Qed.
Lemma goes_refuse {A} e fs S : goes fs S (refuse e : FS A) (Err (Failed e)) fs S.
Proof. intros w Hw. by exists w. Qed.
Lemma goes_bind {A B} fs S fs1 S1 fs2 S2 (c : FS A) (k : A → FS B) a r :
  goes fs S c (Ok a) fs1 S1 → goes fs1 S1 (k a) r fs2 S2 → goes fs S (c ≫= k) r fs2 S2.
Proof.
  intros Hc Hk w Hw. destruct (Hc w Hw) as (w1 & Hrun & Hw1). unfold mbind, M_mbind. rewrite Hrun. by apply Hk.
Qed.
Lemma goes_step {A B} (a : A) fs S fs1 S1 fs2 S2 (c : FS A) (k : A → FS B) r :
  goes fs S c (Ok a) fs1 S1 → goes fs1 S1 (k a) r fs2 S2 → goes fs S (c ≫= k) r fs2 S2.
Proof. apply goes_bind. Qed.
Lemma goes_attempt {A} fs S (c : FS A) r fs' S' : goes fs S c r fs' S' → goes fs S (attempt c) (Ok r) fs' S'.
Proof. intros Hc w Hw. destruct (Hc w Hw) as (w1 & Hrun & Hw1). exists w1. unfold attempt. by rewrite Hrun. Qed.
Lemma goes_give {A} (r : result halt A) fs S : goes fs S (give r) r fs S.
Proof. intros w Hw. destruct r; by exists w. Qed.
Lemma goes_lift {A} (a : A) fs S : goes fs S (lift (Ok a)) (Ok a) fs S.
Proof. apply goes_ret. Qed.
Lemma goes_meet g fs S : goes fs S (meet g) (Ok tt) fs S.
Proof.
  intros w [[Hm Hd Hs Ho Hl] Ha Hf Hsd]. unfold meet. rewrite Hd. destruct (mishaps w) as [|m ms] eqn:Hms.
  - eexists. split; [done|]. split; [split|..]; simpl; rewrite ?Hms; try done.
  - inversion Hm as [|? ? -> Htail]. eexists. split; [done|]. split; [split|..]; simpl; rewrite ?Hms; try done.
Qed.
Lemma goes_sql fs S : goes fs S sql (Ok tt) fs S.
Proof. apply goes_meet. Qed.
Lemma goes_blocking action p fs S : goes fs S (blocking action p) (Ok tt) fs S.
Proof. apply goes_meet. Qed.
Lemma goes_gets {A} (g : Disk → A) a fs S : (∀ w, luck_at fs S w → g w = a) → goes fs S (gets g) (Ok a) fs S.
Proof. intros Hg w Hw. exists w. split; [|done]. unfold gets. by rewrite (Hg w Hw). Qed.
Lemma goes_on_files g fs S : goes fs S (on_files g) (Ok tt) (g fs) S.
Proof. intros w [[] Ha Hf Hs]. eexists. split; [done|]. split; [by split|done|simpl; by rewrite Hf|done]. Qed.
Lemma goes_on_sides g fs S : goes fs S (on_sides g) (Ok tt) fs (g S).
Proof. intros w [[] Ha Hf Hs]. eexists. split; [done|]. split; [by split|done|done|simpl; by rewrite Hs]. Qed.

Lemma goes_exists p fs S : p ∉ S → goes fs S (exists_ p) (Ok (bool_decide (is_Some (fs !! p)))) fs S.
Proof.
  intros Hp. unfold exists_. eapply goes_bind; [apply goes_blocking|]. apply goes_gets. intros w [_ _ <- <-].
  unfold present. apply bool_decide_ext. naive_solver.
Qed.
Lemma goes_connect p fs S : is_Some (fs !! p) → goes fs S (connect p) (Ok tt) fs (S ∪ side_files p).
Proof.
  intros Hp. unfold connect. eapply goes_bind; [apply goes_sql|].
  eapply (goes_step true); [|apply (goes_on_sides (λ s, s ∪ side_files p))].
  apply goes_gets. intros w [_ _ <- _]. by apply bool_decide_eq_true.
Qed.
Lemma goes_close p fs S : goes fs S (close p) (Ok tt) fs (S ∖ side_files p).
Proof.
  unfold close. eapply goes_bind; [apply goes_sql|]. intros w [[Hm Hd Hst Ho Hl] Ha Hf Hs]. eexists. split; [done|].
  unfold closed. rewrite Hd, Ho. rewrite (bool_decide_eq_false_2 (p ∈ ∅)) by set_solver.
  split; [by split|done|done|]. simpl. by rewrite Hs.
Qed.
Lemma goes_read p f fs S : fs !! p = Some f → goes fs S (read_file p) (Ok f) fs S.
Proof.
  intros Hp. unfold read_file. eapply goes_bind; [apply goes_sql|]. eapply (goes_step (Some f)); [|apply goes_ret].
  apply goes_gets. intros w [_ _ <- _]. exact Hp.
Qed.
Lemma goes_with_connection {A} p (c : FS A) r fs fs' : is_Some (fs !! p) →
  goes fs (side_files p) c r fs' (side_files p) → goes fs ∅ (with_connection p c) r fs' ∅.
Proof.
  intros Hp Hc. unfold with_connection. eapply goes_bind; [by apply goes_connect|]. rewrite union_empty_l_L.
  eapply goes_bind; [by apply goes_attempt|]. eapply goes_bind; [apply goes_close|]. rewrite difference_diag_L. apply goes_give.
Qed.
Lemma goes_with_immutable {A} p (c : FS A) r fs fs' S : is_Some (fs !! p) →
  goes fs S c r fs' S → goes fs S (with_immutable p c) r fs' S.
Proof.
  intros Hp Hc. unfold with_immutable. eapply goes_bind; [apply goes_sql|].
  eapply (goes_step true); [apply goes_gets; intros w [_ _ <- _]; by apply bool_decide_eq_true|].
  eapply goes_bind; [by apply goes_attempt|]. eapply goes_bind; [apply goes_sql|apply goes_give].
Qed.
Lemma goes_rename (from to : bytes) f fs S : fs !! from = Some f →
  goes fs S (rename from to) (Ok tt) (<[to := f]> (delete from fs)) S.
Proof.
  intros Hf. unfold rename. eapply goes_bind; [apply goes_blocking|].
  eapply (goes_step (Some f)); [apply goes_gets; by intros w [_ _ <- _]|].
  apply (goes_on_files (λ fs, <[to := f]> (delete from fs))).
Qed.
Lemma goes_refuse_each d l fs S : (∀ x, x ∈ l → x ∉ S ∧ fs !! x = None) → goes fs S (refuse_each d l) (Ok tt) fs S.
Proof.
  induction l as [|x l IH]; intros Hl; [apply goes_ret|]. cbn [refuse_each]. destruct (Hl x) as [Hx Hn]; [by left|].
  eapply goes_bind; [by apply goes_exists|]. rewrite Hn. apply IH. intros y Hy. apply Hl. by right.
Qed.
Lemma goes_inspect_db p fs : match fs !! p with Some f => is_ok (probe f) = true | None => True end → p ∉ (∅ : gset bytes) →
  goes fs ∅ (inspect_db p) (Ok (match fs !! p with Some f => match probe f with Ok x => state_of x | Err _ => DbAbsent end | None => DbAbsent end)) fs ∅.
Proof.
  intros Hp Hs. unfold inspect_db. eapply goes_bind; [by apply goes_exists|]. destruct (fs !! p) as [f|] eqn:Hf.
  - cbn. destruct (probe f) as [x|] eqn:Hx; [|done]. eapply (goes_step x); [|apply goes_ret].
    apply goes_with_connection; [by rewrite Hf|]. eapply goes_bind; [by apply goes_read|]. rewrite Hx. apply goes_lift.
  - cbn. apply goes_ret.
Qed.
(** Taking the lock leaves its file, which may have been there. *)
Lemma goes_acquire_lock `{Machine} (p : Paths) fs :
  ∃ fs', goes fs ∅ (acquire_lock p) (Ok tt) fs' ∅ ∧ (fs' = fs ∨ ∃ f, fs' = <[lock p := f]> fs).
Proof.
  assert (Hrest : ∀ fs, goes fs ∅ (blocking b#"lock" (lock p);; held ← gets locked_elsewhere;
    if (held : bool) then refuse (MigrationLocked (lock p)) else mret tt) (Ok tt) fs ∅).
  { intros fs1. eapply goes_bind; [apply goes_blocking|]. eapply (goes_step false); [|apply goes_ret].
    apply goes_gets. intros w [Hl _ _ _]. apply Hl. }
  assert (Hmode : goes fs ∅ (mode_of (db p)) (Ok (mode <$> fs !! db p)) fs ∅).
  { unfold mode_of. eapply goes_bind; [apply goes_blocking|]. apply goes_gets. by intros w [_ _ <- _]. }
  assert (Htaken : ∀ fs, goes fs ∅ (gets (present (lock p))) (Ok (bool_decide (is_Some (fs !! lock p)))) fs ∅).
  { intros fs1. apply goes_gets. intros w [_ _ <- Hs]. unfold present. rewrite Hs. apply bool_decide_ext. set_solver. }
  unfold acquire_lock, open_or_create, create_with_mode. destruct (fs !! lock p) as [f|] eqn:Hf.
  - exists fs. split; [|by left]. eapply goes_bind; [exact Hmode|]. eapply goes_bind; [|apply Hrest].
    eapply goes_bind; [apply Htaken|]. rewrite Hf. apply goes_blocking.
  - set (o := mode <$> fs !! db p). exists (<[lock p := empty_file (default default_mode o)]> fs). split; [|right; by eexists].
    eapply goes_bind; [exact Hmode|]. eapply goes_bind; [|apply Hrest]. eapply goes_bind; [apply Htaken|].
    rewrite Hf. rewrite bool_decide_eq_false_2 by (by intros []). eapply goes_bind; [apply goes_blocking|].
    eapply goes_bind; [apply Htaken|]. rewrite Hf. rewrite bool_decide_eq_false_2 by (by intros []).
    eapply goes_bind; [apply (goes_on_files (<[lock p := empty_file default_mode]>))|]. fold o. destruct o as [bits|].
    + eapply goes_bind; [apply goes_blocking|]. simpl. rewrite <- (insert_insert_eq fs (lock p) (empty_file bits) (empty_file default_mode)).
      apply (goes_on_files (<[lock p := empty_file bits]>)).
    + apply goes_ret.
Qed.
Lemma goes_fingerprint_of `{Json, Zstd, MailParser, Machine} p source (f : DbFile) print fs : fs !! p = Some f →
  fingerprint (layout_probe (contents f) source) (contents f) = Ok (Some print) →
  goes fs ∅ (fingerprint_of p source) (Ok (fingerprint_text print)) fs ∅.
Proof.
  intros Hf Hprint. unfold fingerprint_of. apply goes_with_connection; [by rewrite Hf|].
  eapply goes_bind; [apply goes_sql|]. eapply goes_bind; [by apply goes_read|]. rewrite Hprint.
  eapply goes_bind; [apply goes_ret|]. eapply goes_bind; [apply goes_sql|apply goes_ret].
Qed.
End goes.
