(* ===== verification/MigrateStates.v ===== *)
(** The states the files pass through while
    [crates/rustmail-storage/src/migrate.rs] moves a database to the current
    schema: the source in place, the source kept and the copy still beside it, the
    copy in place. *)
From S2P Require Import Prelude RustStd StorageError Content MailParser Locator Prepared Query Database OldDb Fingerprint MigrateDisk MigrateBuild Migrate MigrateWork MigrateCopies MigrateLogic.
From S2P Require Schema.

(** ** Paths *)

Definition path_names (path : bytes) : list bytes :=
  let p := paths_of path in [db p; migrating p; backup p SourceSchema.Legacy; backup p SourceSchema.Previous; lock p].

Definition name_suffixes : list bytes := [[]; MIGRATING_SUFFIX; LEGACY_BACKUP_SUFFIX; PREVIOUS_BACKUP_SUFFIX; LOCK_SUFFIX].
Lemma path_names_suffixes path : path_names path = map (app path) name_suffixes.
Proof. unfold path_names, name_suffixes. cbn [map]. by rewrite app_nil_r. Qed.
Lemma suffixes_apart : Forall (λ a, Forall (λ b, b ∉ map (app a) [WAL_SUFFIX; SHM_SUFFIX; JOURNAL_SUFFIX]) name_suffixes) name_suffixes.
Proof. by apply (bool_decide_unpack _). Qed.
#[export] Instance names_apart path : Apart (path_names path).
Proof.
  intros p q. rewrite path_names_suffixes. intros (a & -> & Ha)%list_elem_of_fmap (b & -> & Hb)%list_elem_of_fmap Hin.
  pose proof suffixes_apart as Hs. rewrite Forall_forall in Hs. specialize (Hs a Ha). rewrite Forall_forall in Hs.
  specialize (Hs b Hb). cbn [map] in Hs. unfold side_names, side_files, sidecar in Hin.
  rewrite !elem_of_union, !elem_of_singleton, <- !app_assoc in Hin.
  destruct Hin as [[Hin|Hin]|Hin]; apply app_inv_head in Hin; set_solver.
Qed.
Lemma names_differ path : NoDup (path_names path).
Proof.
  rewrite path_names_suffixes. assert (Hi : Inj (=) (=) (app path)) by (intros a b; apply app_inv_head). apply (NoDup_fmap_2 _).
  by apply (bool_decide_unpack _).
Qed.

Section states.
Context `{Json, Zstd, MailParser, Machine}.
(** The source and its print; the files that are nobody's business here. *)
Context (path : bytes) (s : SourceSchema.t) (src : DbFile) (print : SourcePrint) (base : gmap bytes DbFile).
Abbreviation p := (paths_of path).
Abbreviation D := (db p).
Abbreviation M := (migrating p).
Abbreviation B := (backup p s).
Abbreviation c := (contents src).
Abbreviation fp := (fingerprint_text print).

(** ** The copy *)

(** The content written for the message decompresses to its source. *)
Definition readable (i : Item) : Prop :=
  decompress (frame_of (i_raw i)) (Z.of_nat (length (i_raw i))) (display_Z (key i)) = Ok (i_raw i).
Definition origin_upto (k : Z) (o : OriginRow) : Prop :=
  (source_fingerprint o = fp ∨ source_fingerprint o = qualified_fingerprint fp Schema.SCHEMA_VERSION) ∧
  o_last_source_seq o = k ∧ attachment_mismatches o = Z.of_nat (mismatched c 0 k) ∧
  schemas o = Some (SourceSchema.version s, Schema.SCHEMA_VERSION).
(** A file of this version with the source's messages up to [k]: no other row, and
    every source readable; its permissions are the source's. *)
Record copied (k v : Z) (f : DbFile) : Prop := {
  co_version : user_version f = v;
  co_contents : contents f = Schema2 (tables_upto c k);
  co_reached : reached c k;
  co_mode : mode f = mode src;
  co_intact : intact f = true;
  co_origin : ∃ o, origin_row f = Some o ∧ origin_upto k o;
  co_readable : Forall readable (upto c k);
}.
Definition partial (f : DbFile) : Prop := ∃ k, copied k 0 f.
Definition finished (f : DbFile) : Prop := copied (last_key c) Schema.SCHEMA_VERSION f.
(** A file at the copy's path that says it was made from this source for the current
    schema was. *)
Definition truthful (f : DbFile) : Prop :=
  ∀ o, read_origin f = Some o → source_schema o = SourceSchema.version s →
    target_schema o = Schema.SCHEMA_VERSION → made_from o fp = true → partial f ∨ finished f.
(** It was made from this source, or was there before, or has nothing yet. *)
Definition accounted (f : DbFile) : Prop := origin_row f = None ∨ partial f ∨ finished f ∨ base !! M = Some f.
Definition copy_ok (f : DbFile) : Prop := truthful f ∧ accounted f.
Definition opt {A} (P : A → Prop) (o : option A) : Prop := match o with Some a => P a | None => True end.
Definition some {A} (P : A → Prop) (o : option A) : Prop := match o with Some a => P a | None => False end.

(** ** The files *)

Definition own : gset bytes := {[ D; M; B; lock p ]} ∪ side_names M.
Definition untouched (fs : gmap bytes DbFile) : Prop := ∀ q, q ∉ own → fs !! q = base !! q.
Definition holds (d b : option DbFile) (P : option DbFile → Prop) (fs : gmap bytes DbFile) : Prop :=
  fs !! D = d ∧ fs !! B = b ∧ P (fs !! M) ∧ untouched fs.
Definition Before : gmap bytes DbFile → Prop := holds (Some src) None (opt copy_ok).
Definition Between : gmap bytes DbFile → Prop := holds None (Some src) (some finished).
Definition After (fs : gmap bytes DbFile) : Prop := ∃ f, finished f ∧ holds (Some f) (Some src) (λ o, o = None) fs.
Definition Safe (fs : gmap bytes DbFile) : Prop := Before fs ∨ Between fs ∨ After fs.
(** The source in its place, or in its backup and a complete copy in its own place or
    in the database's. *)
Definition Kept (fs : gmap bytes DbFile) : Prop := holds (Some src) None (opt truthful) fs ∨ Between fs ∨ After fs.

Lemma holds_mono d b (P P' : option DbFile → Prop) fs : (∀ o, P o → P' o) → holds d b P fs → holds d b P' fs.
Proof. intros HP (Hd & Hb & Hm & Hr). split_and!; auto. Qed.
Lemma D_main : D ∈ path_names path. Proof. by left. Qed.
Lemma M_main : M ∈ path_names path. Proof. right. by left. Qed.
Lemma B_main : B ∈ path_names path.
Proof. destruct s; [do 2 right; by left|do 3 right; by left]. Qed.
Lemma lock_main : lock p ∈ path_names path. Proof. do 4 right. by left. Qed.
Lemma M_not_D : M ≠ D.
Proof. pose proof (names_differ path) as Hn. unfold path_names in Hn. cbn zeta in Hn. rewrite NoDup_cons in Hn. set_solver. Qed.
Lemma B_not_D : B ≠ D.
Proof.
  pose proof (names_differ path) as Hn. unfold path_names in Hn. cbn zeta in Hn. rewrite NoDup_cons in Hn.
  pose proof B_main as Hb. unfold path_names in Hb. cbn zeta in Hb. destruct s; set_solver.
Qed.
Lemma B_not_M : B ≠ M.
Proof.
  pose proof (names_differ path) as Hn. unfold path_names in Hn. cbn zeta in Hn. rewrite !NoDup_cons in Hn.
  destruct s; set_solver.
Qed.
Lemma lock_not : lock p ≠ D ∧ lock p ≠ M ∧ lock p ≠ B.
Proof.
  pose proof (names_differ path) as Hn. unfold path_names in Hn. cbn zeta in Hn. rewrite !NoDup_cons in Hn.
  split_and!; [set_solver|set_solver|destruct s; set_solver].
Qed.
Lemma untouched_insert q f fs : q ∈ own → untouched fs → untouched (<[q := f]> fs).
Proof. intros Hq Hr x Hx. rewrite lookup_insert_ne by (by intros ->). by apply Hr. Qed.
Lemma untouched_delete q fs : q ∈ own → untouched fs → untouched (delete q fs).
Proof. intros Hq Hr x Hx. rewrite lookup_delete_ne by (by intros ->). by apply Hr. Qed.
Lemma own_main : D ∈ own ∧ M ∈ own ∧ B ∈ own ∧ lock p ∈ own.
Proof. unfold own. set_solver. Qed.

(** Writing the copy leaves the rest. *)
Lemma holds_write d b (P P' : option DbFile → Prop) f fs : P' (Some f) → holds d b P fs → holds d b P' (<[M := f]> fs).
Proof.
  intros HP (Hd & Hb & _ & Hr). pose proof M_not_D. pose proof B_not_M.
  split_and!; [by rewrite lookup_insert_ne|by rewrite lookup_insert_ne|by rewrite lookup_insert_eq|].
  apply untouched_insert; [apply own_main|done].
Qed.

(** ** What the copy is taken for *)

Lemma origin_read k o f : origin_row f = Some o → origin_upto k o →
  ∃ r, read_origin f = Some r ∧ o_fingerprint r = source_fingerprint o ∧ source_schema r = SourceSchema.version s ∧
    target_schema r = Schema.SCHEMA_VERSION ∧ made_from r fp = true.
Proof.
  intros Ho (Hfp & Hk & Hm & Hs). unfold read_origin. rewrite Ho. cbn [fmap option_fmap option_map]. rewrite Hs. cbn [default].
  eexists. split; [done|]. split_and!; try done. unfold made_from. cbn [o_fingerprint target_schema].
  apply orb_true_iff. destruct Hfp as [->| ->]; [left|right]; by apply beqb_spec.
Qed.
Lemma copied_ok k f : copied k 0 f → copy_ok f.
Proof. intros Hf. split; [intros o _ _ _ _; left|right; left]; by exists k. Qed.
Lemma finished_ok f : finished f → copy_ok f.
Proof. intros Hf. split; [intros o _ _ _ _; by right|by do 2 right; left]. Qed.
Lemma blank_ok f : origin_row f = None → copy_ok f.
Proof. intros Hf. split; [|by left]. intros o. unfold read_origin. by rewrite Hf. Qed.

Lemma probe_copied k f : copied k Schema.SCHEMA_VERSION f → probe f = Ok Schema.Current.
Proof. intros [Hv _ _ _ _ _ _]. unfold probe, Schema.probe, probed. cbn [Schema.user_version]. by rewrite Hv. Qed.
Lemma probe_source : source_ok s c → user_version src = SourceSchema.version s → ∃ x, probe src = Ok x ∧ state_of x = Older s.
Proof.
  intros Hok Hv. unfold probe, Schema.probe, probed. cbn [Schema.user_version Schema.file_tables Schema.messages_has_raw Schema.content_has_text_body].
  rewrite Hv. destruct s, c; try done; eexists; (split; [reflexivity|done]).
Qed.
End states.
