(* ===== verification/MigrateBatches.v ===== *)
(** A batch of the copy, with what can go wrong in it: [plan_attachments],
    [compressed_content], [copy_batch] and the loop of [copy] in
    [crates/rustmail-storage/src/migrate/build.rs]. *)
From S2P Require Import Prelude RustStd StorageError Content MailParser Locator Prepared Query Database Tables OldDb Fingerprint MigrateDisk MigrateBuild Migrate MigrateWork MigrateCopies MigrateLogic MigrateStates.
From S2P Require Schema.

Section batches.
Context `{Json, Zstd, MailParser, Machine}.
(** [L]: the run is a lucky one. *)
Context (L : Prop) (path : bytes) (options : MigrationOptions) (s : SourceSchema.t) (src : DbFile) (print : SourcePrint).
Context (base : gmap bytes DbFile).
Abbreviation D := (db (paths_of path)).
Abbreviation M := (migrating (paths_of path)).
Abbreviation c := (contents src).
Abbreviation layout := (layout_probe c s).
Abbreviation does := (does L (path_names path)).
Abbreviation in_place := (holds path s base (Some src) None).
Abbreviation Before := (Before path s src print base).
Abbreviation upto_k k := (some (copied s src print k 0)).
Context (Hok : source_ok s c) (Hcores : 0 < available_parallelism) (Hbatch : batch_messages options ≠ 0%Z).
Context (Hpacks : L → Forall readable (all_items c) ∧ ∀ i, i ∈ all_items c → is_ok (compress (i_raw i)) = true).

Lemma before_of P fs : (∀ o, P o → opt (copy_ok path s src print base) o) → in_place P fs → Before fs.
Proof. intros HP. by apply holds_mono. Qed.
Lemma upto_k_ok k o : upto_k k o → opt (copy_ok path s src print base) o.
Proof. destruct o as [f|]; [|done]. simpl. apply copied_ok. Qed.
(** The source is read as it is. *)
Lemma does_read_source P C : (∀ o, P o → opt (copy_ok path s src print base) o) →
  does (in_place P) C (read_file D) (λ f fs, in_place P fs ∧ f = src) (λ _, C) Before.
Proof.
  intros HP. rule does_conseq; [rule (does_read L (path_names path) D (in_place P) C Before)|..]; try done.
  - intros fs (Hd & _). by rewrite Hd.
  - intros fs. by apply before_of.
  - intros f fs [Hfs Hf]. split; [done|]. destruct Hfs as (Hd & _). congruence.
Qed.

(** ** Compression *)

Lemma compress_checked_eq n raw : compress_checked (n, raw) =
  match compress raw with
  | Ok frame =>
    match decompress frame (Z.of_nat (length raw)) (display_Z n) with
    | Ok back => Ok (n, frame, beqb back raw)
    | Err e => Err e
    end
  | Err e => Err e
  end.
Proof. unfold compress_checked. destruct (compress raw) as [frame|]; [|done]. simpl. by destruct (decompress _ _ _). Qed.
Lemma collect_checked its l :
  collect (map compress_checked (map (λ i, (key i, i_raw i)) its)) = Ok l →
  map fst l = frames its ∧ (head (List.filter (λ x, negb (snd x)) l) = None → Forall readable its).
Proof.
  revert l. induction its as [|i its IH]; intros l Hl; [by injection Hl as <-|]. cbn [map collect] in Hl.
  rewrite compress_checked_eq in Hl. destruct (compress (i_raw i)) as [frame|] eqn:Hc; [|done].
  destruct (decompress frame _ _) as [raw|] eqn:Hd; [|done]. cbn [mbind result_mbind result_bind mret result_mret] in Hl.
  destruct (collect _) as [l'|] eqn:Hl'; [|done]. injection Hl as <-. destruct (IH l' eq_refl) as [IH1 IH2].
  assert (Hf : frame_of (i_raw i) = frame) by (unfold frame_of; by rewrite Hc). split.
  - cbn [map fst]. unfold frames in *. by rewrite IH1, <- Hf.
  - simpl. destruct (beqb raw (i_raw i)) eqn:Hb; simpl; [|done]. apply beqb_spec in Hb as ->. intros Hh.
    constructor; [|by apply IH2]. unfold readable. by rewrite Hf.
Qed.
Lemma collect_packs its :
  Forall readable its → (∀ i, i ∈ its → is_ok (compress (i_raw i)) = true) →
  ∃ l, collect (map compress_checked (map (λ i, (key i, i_raw i)) its)) = Ok l ∧ head (List.filter (λ x, negb (snd x)) l) = None.
Proof.
  induction 1 as [|i its Hi Hits IH]; intros Hc; [by exists []|]. destruct IH as (l & Hl & Hh); [intros j Hj; apply Hc; by right|].
  cbn [map collect]. rewrite compress_checked_eq. unfold readable, frame_of in Hi. specialize (Hc i ltac:(by left)).
  destruct (compress (i_raw i)) as [frame|]; [|done]. simpl in Hi. rewrite Hi.
  cbn [mbind result_mbind result_bind mret result_mret]. rewrite Hl. eexists. split; [done|]. simpl.
  by rewrite (proj2 (beqb_spec _ _) eq_refl).
Qed.
Lemma does_in_parallel {A B : Type} (items : list A) (work : A → B) F C J : (∀ fs : gmap bytes DbFile, F fs → J fs) →
  does F C (in_parallel items work) (λ r fs, F fs ∧ r = map work items) (λ _, C) J.
Proof.
  intros HJ. unfold in_parallel. destruct items as [|x items].
  - by rule does_ret.
  - rule does_bind; [by rule does_meet|]. intros []. rule does_ret; [|done]. intros fs Hfs. split; [done|].
    by apply in_parallel_map.
Qed.

Abbreviation new a b := (List.filter (within a b) (all_items c)).
Lemma new_rows a b :
  List.filter (λ r : Z * bytes, (a <? fst r)%Z && (fst r <=? b)%Z) (map (λ i, (key i, i_raw i)) (all_items c)) =
  map (λ i, (key i, i_raw i)) (new a b).
Proof.
  generalize (all_items c). intros l. induction l as [|i l IH]; [done|]. cbn [map List.filter fst].
  change ((a <? key i)%Z && (key i <=? b)%Z) with (within a b i). destruct (within a b i); cbn [map]; by rewrite IH.
Qed.
Lemma new_in a b i : i ∈ new a b → i ∈ all_items c.
Proof. intros Hi. by apply elem_of_filter_b in Hi as [Hi _]. Qed.
Lemma new_packs a b : L → Forall readable (new a b) ∧ ∀ i, i ∈ new a b → is_ok (compress (i_raw i)) = true.
Proof.
  intros HL. destruct (Hpacks HL) as [Hr Hc]. split; [|intros i Hi; by apply Hc, (new_in a b)].
  rewrite Forall_forall in Hr |- *. intros i Hi. by apply Hr, (new_in a b).
Qed.
Lemma does_compressed P C a b : (∀ o, P o → opt (copy_ok path s src print base) o) →
  does (in_place P) C (compressed_content D M layout a b)
    (λ r fs, in_place P fs ∧ r = frames (new a b) ∧ Forall readable (new a b)) (λ _, C) Before.
Proof.
  intros HP. unfold compressed_content. rule does_step; [by rule does_read_source|]. intros f ->.
  rewrite (raw_rows_all s c Hok). rule does_val. rewrite new_rows.
  rule does_step; [rule does_in_parallel; intros fs; by apply before_of|]. intros rs ->.
  destruct (collect _) as [l|e] eqn:Hl; cbn [lift].
  - rule does_val. destruct (collect_checked _ _ Hl) as [Hfr Hread]. destruct (head _) as [[[n x] y]|] eqn:Hh.
    + rule does_refuse. intros fs Hfs. split; [|by apply (before_of P)]. intros HL. destruct (new_packs a b HL) as [Hr Hc].
      destruct (collect_packs (new a b) Hr Hc) as (l' & Hl' & Hh'). congruence.
    + rule does_ret; [|done]. intros fs Hfs. split_and!; [apply Hfs|done|by apply Hread].
  - rule (does_bind _ _ _ _ _ _ (λ _ _, False) (λ _, C)); [|intros r; by rule (does_with _ _ False)].
    rule does_refuse. intros fs Hfs. split; [|by apply (before_of P)]. intros HL. destruct (new_packs a b HL) as [Hr Hc].
    destruct (collect_packs (new a b) Hr Hc) as (l' & Hl' & Hh'). congruence.
Qed.

(** ** One batch *)

Definition kept_rows (a b : Z) : list AttachmentRecord :=
  match layout with SourceLayout.Previous => carried c a b | SourceLayout.Legacy _ => [] end.
Definition planned_ok (a b : Z) (l : list PlannedAttachment) : Prop :=
  kept_rows a b ++ map planned_row l = rows_between c a b ∧ length (List.filter mismatch l) = mismatched c a b.
Definition plan_batch (a b : Z) : FS (list PlannedAttachment) :=
  match layout with
  | SourceLayout.Legacy cols => plan_attachments D (has_attachments_table cols) a b
  | SourceLayout.Previous => mret []
  end.
Lemma source_cases :
  (∃ d, c = Schema0 d ∧ legacy_ok d ∧ layout = SourceLayout.Legacy (columns d)) ∨
  (∃ d, c = Schema1 d ∧ layout = SourceLayout.Previous).
Proof. destruct s, c; try done; [left|right]; eauto. Qed.
Lemma does_plan P C a b : (∀ o, P o → opt (copy_ok path s src print base) o) →
  does (in_place P) C (plan_batch a b) (λ r fs, in_place P fs ∧ planned_ok a b r) (λ _, C) Before.
Proof.
  intros HP. unfold plan_batch, planned_ok, kept_rows, rows_between, mismatched.
  destruct source_cases as [(d & Hc & Hsrc & ->)|(d & Hc & ->)]; rewrite Hc.
  2:{ rule does_ret; [|done]. intros fs Hfs. split; [done|]. by rewrite app_nil_r. }
  unfold plan_attachments. destruct (has_attachments_table (columns d)) eqn:Ht; cbn [negb].
  2:{ by rule does_ret. }
  rule does_step; [by rule does_read_source|]. intros f ->.
  destruct (plan_grouped available_parallelism d a b (lo_rows d Hsrc) Hcores) as (ms & Hms & Hsorted).
  rewrite in_parallel_map in Hsorted by done. rewrite Hc. cbv zeta. rewrite Hms. rule does_val.
  rule does_step; [rule does_in_parallel; intros fs; by apply before_of|]. intros r ->.
  rule does_ret; [|done]. intros fs Hfs. split; [done|]. by rewrite Hsorted.
Qed.

Lemma copied_next a b f o f' :
  (0 ≤ a ≤ b)%Z → b ∈ map key (all_items c) → copied s src print a 0 f → origin_row f = Some o →
  Forall readable (new a b) →
  f' = f <| contents := Schema2 (tables_upto c b) |> <| origin_row := Some (advance b (mismatched c a b) o) |> →
  copied s src print b 0 f'.
Proof.
  intros Hab Hb [Hv Hcon Hr Hm Hi (o' & Ho & (Ho1 & Ho2 & Ho3 & Ho4)) Hread] Hof Hnew ->. rewrite Hof in Ho. injection Ho as <-. split.
  - done.
  - done.
  - by right.
  - done.
  - done.
  - eexists. split; [done|]. split_and!; [done|done| |done]. cbn. rewrite Ho3, (mismatched_split s c Hok a b) by lia. lia.
  - rewrite (upto_split s c Hok a b) by lia. apply Forall_app. by split.
Qed.

Lemma does_copy_batch C a x : (0 ≤ a < b_last_seq x)%Z → b_last_seq x ∈ map key (all_items c) →
  does (in_place (upto_k a)) C (copy_batch D M layout a x) (λ _, in_place (upto_k (b_last_seq x))) (λ _, C) Before.
Proof.
  intros Hax Hx. set (b := b_last_seq x) in *. unfold copy_batch.
  rule does_step; [exact (does_plan (upto_k a) C a b (upto_k_ok a))|]. intros planned [Hp1 Hp2].
  rule does_step; [exact (does_compressed (upto_k a) C a b (upto_k_ok a))|]. intros fr [-> Hread].
  rule does_step; [exact (does_read_source (upto_k a) C (upto_k_ok a))|]. intros f ->.
  rewrite (items_all s c Hok). rule does_val.
  rule does_transact; [apply M_main| |].
  { intros fs Hfs. by apply (before_of _ _ (upto_k_ok a)). }
  intros fs Hfs. pose proof Hfs as (_ & _ & Hm & _). destruct (fs !! M) as [f|] eqn:Hf; [|done]. simpl in Hm.
  pose proof (co_origin _ _ _ _ _ _ Hm) as (o & Ho & _). exists f. eexists. split; [done|]. rewrite (co_contents _ _ _ _ _ _ Hm), Ho.
  fold (kept_rows a b). rewrite (copy_rows_upto s c Hok a b (kept_rows a b) planned) by (done || lia). rewrite Hp2.
  cbn [mbind result_mbind result_bind mret result_mret]. split; [done|].
  eapply holds_write; [|exact Hfs]. simpl. eapply copied_next; [|done..]. lia.
Qed.

(** ** The loop *)

(** Stopped, the copy is as far as some message, and the run was not a lucky one. *)
Definition after_loop (out : CopyOutcome) (fs : gmap bytes DbFile) : Prop :=
  match out with
  | Finished => in_place (upto_k (last_key c)) fs
  | Paused _ _ => in_place (some (partial s src print)) fs ∧ ¬ L
  end.
Lemma does_copy_loop C fuel total migrated k :
  reached c k → length (List.filter (λ i, (k <? key i)%Z) (all_items c)) < fuel →
  does (in_place (upto_k k)) C (copy_loop fuel D M layout options total migrated k) after_loop (λ _, C) Before.
Proof.
  revert migrated k. induction fuel as [|fuel IH]; intros migrated k Hk Hf; [lia|]. cbn [copy_loop].
  rule does_bind; [rule does_should_stop|]. intros stop. destruct stop.
  { rule does_ret; [|done]. intros fs [Hfs Hl]. split; [|by apply Hl]. eapply holds_mono; [|exact Hfs]. intros [f|]; [|done].
    by exists k. }
  rule does_pre; [|by intros fs [Hfs _]; exact Hfs|done].
  rule does_step; [exact (does_read_source (upto_k k) C (upto_k_ok k))|]. intros f ->. rewrite (sizes_all s c Hok). rule does_val.
  fold (size_rows c).
  pose proof (next_batch_progress c options k) as Hnext. destruct (next_batch options (size_rows c) k) as [x|].
  - destruct Hnext as [Hlt Hin]. rule does_bind; [rule (does_copy_batch C k x); [|done]|].
    { split; [|done]. by eapply reached_nonneg. }
    intros []. apply IH; [by right|]. pose proof (left_decreases c k (b_last_seq x) Hlt Hin). lia.
  - rule does_ret; [|done]. intros fs Hfs. simpl. by rewrite <- (reached_last s c Hok k Hk (Hnext Hbatch)).
Qed.

(** The copy is read as it is. *)
Lemma does_read_copied k v C J : (∀ fs, in_place (some (copied s src print k v)) fs → J fs) →
  does (in_place (some (copied s src print k v))) C (read_file M)
    (λ f fs, in_place (some (copied s src print k v)) fs ∧ copied s src print k v f) (λ _, C) J.
Proof.
  intros HJ. rule does_conseq; [rule (does_read L (path_names path) M (in_place (some (copied s src print k v))) C J)|..]; try done.
  - intros fs (_ & _ & Hm & _). by destruct (fs !! M).
  - intros f fs [Hfs Hf]. split; [done|]. destruct Hfs as (_ & _ & Hm & _). by rewrite Hf in Hm.
Qed.
Lemma filter_shorter {A : Type} (q : A → bool) l : length (List.filter q l) ≤ length l.
Proof. induction l as [|x l IH]; simpl; [done|]. destruct (q x); simpl; lia. Qed.
Lemma does_copy C k total :
  does (in_place (upto_k k)) C (copy D M layout options total) after_loop (λ _, C) Before.
Proof.
  assert (HB : ∀ fs, in_place (upto_k k) fs → Before fs) by (intros fs; apply before_of, upto_k_ok).
  unfold copy. rule does_step; [by rule does_read_copied|]. intros f Hf.
  pose proof (co_origin _ _ _ _ _ _ Hf) as (o & Ho & (_ & Hseq & _)). unfold last_copied. rewrite Ho.
  cbn [fmap option_fmap option_map ok_or]. rewrite Hseq. rule does_val.
  rule does_step; [by rule does_read_copied|]. intros f' Hf'.
  unfold message_count. rewrite (co_contents _ _ _ _ _ _ Hf'). rule does_val.
  rule (does_step _ _ (λ o, o = Some src)); [eapply run_post; [by rule does_file|]|].
  { intros o' v [[HF ->] ?]. split; [|done]. split; [done|]. apply HF. }
  intros o' ->. cbv zeta. rewrite (sizes_all s c Hok). cbn [ok default].
  rule does_copy_loop; [exact (co_reached _ _ _ _ _ _ Hf)|].
  unfold Datatypes.id. rewrite length_map. pose proof (filter_shorter (λ i, (k <? key i)%Z) (all_items c)). lia.
Qed.
End batches.
