(* ===== verification/MigrateTarget.v ===== *)
(** The life of a copy in [crates/rustmail-storage/src/migrate/build.rs]: created,
    filled, verified, finalized; and one attempt at it in [migrate.rs]. *)
From S2P Require Import Prelude RustStd StorageError Content MailParser Locator Prepared Query Database Tables OldDb Fingerprint MigrateDisk MigrateBuild Migrate MigrateWork MigrateCopies MigrateChecks MigrateLogic MigrateStates MigrateBatches.
From S2P Require Schema.

Section target.
Context `{Json, !JsonLaws, Zstd, MailParser, Machine}.
Context (L : Prop) (path : bytes) (options : MigrationOptions) (s : SourceSchema.t) (src : DbFile) (print : SourcePrint).
Context (base : gmap bytes DbFile).
Abbreviation D := (db (paths_of path)).
Abbreviation M := (migrating (paths_of path)).
Abbreviation c := (contents src).
Abbreviation fp := (fingerprint_text print).
Abbreviation layout := (layout_probe c s).
Abbreviation does := (does L (path_names path)).
Abbreviation in_place := (holds path s base (Some src) None).
Abbreviation Before := (Before path s src print base).
Abbreviation upto_k k := (some (copied s src print k 0)).
Abbreviation done_copy := (some (finished s src print)).
Context (Hok : source_ok s c) (Hcores : 0 < available_parallelism) (Hbatch : batch_messages options ≠ 0%Z).
Context (Hpacks : L → Forall readable (all_items c) ∧ ∀ i, i ∈ all_items c → is_ok (compress (i_raw i)) = true).
Context (Hprint : fingerprint layout c = Ok (Some print)).

Lemma some_ok P (Q : DbFile → Prop) o : some P o → (∀ f, P f → Q f) → opt Q o.
Proof. destruct o; simpl; auto. Qed.
Lemma finished_before fs : in_place done_copy fs → Before fs.
Proof. apply before_of. intros o Ho. eapply some_ok; [exact Ho|]. apply finished_ok. Qed.
Lemma absent_before fs : in_place (λ o, o = None) fs → Before fs.
Proof. apply before_of. by intros o ->. Qed.
Lemma partial_before fs : in_place (some (partial s src print)) fs → Before fs.
Proof. apply before_of. intros [f|]; [|done]. intros [k Hk]. by eapply copied_ok. Qed.
Lemma upto_before k fs : in_place (upto_k k) fs → Before fs.
Proof. apply before_of, upto_k_ok. Qed.
Lemma db_there P fs : in_place P fs → is_Some (fs !! D).
Proof. intros (Hd & _). by rewrite Hd. Qed.
Lemma copy_there (P : DbFile → Prop) fs : in_place (some P) fs → is_Some (fs !! M).
Proof. intros (_ & _ & Hm & _). by destruct (fs !! M). Qed.
Hint Resolve finished_before absent_before partial_before upto_before db_there copy_there : core.

(** ** Starting afresh *)

Lemma does_remove_copy C : does Before C (remove_copy (paths_of path)) (λ _, in_place (λ o, o = None)) (λ _, C) Before.
Proof.
  assert (Hside : ∀ x fs, x ∈ side_names M → Before fs → Before (delete x fs)).
  { intros x fs Hx (Hd & Hb & Hm & Hr).
    assert (Hne : ∀ q, q ∈ path_names path → x ≠ q) by (intros q Hq ->; by apply (apart M q (M_main _))).
    split_and!; [rewrite lookup_delete_ne by apply Hne, D_main; done|rewrite lookup_delete_ne by apply Hne, B_main; done
      |rewrite lookup_delete_ne by apply Hne, M_main; done|]. apply untouched_delete; [|done]. unfold own. set_solver. }
  unfold remove_copy. cbn [map app each].
  do 3 (rule does_seq; [rule does_remove_file; [done|]; intros fs; apply Hside; unfold side_names, side_files; set_solver|]).
  rule does_bind; [rule (does_remove_file L _ _ _ _ (in_place (λ o, o = None))); [done|]|intros []; by rule does_ret].
  intros fs (Hd & Hb & Hm & Hr). pose proof (M_not_D path). pose proof (B_not_M path s).
  split_and!; [by rewrite lookup_delete_ne|by rewrite lookup_delete_ne|by rewrite lookup_delete_eq|].
  apply untouched_delete; [apply own_main|done].
Qed.

Lemma nothing_upto : tables_upto c 0 = empty_tables.
Proof.
  assert (Hup : upto c 0 = []).
  { unfold upto. destruct (List.filter _ _) as [|i l] eqn:Hf; [done|].
    assert (Hi : i ∈ List.filter (λ i, (key i <=? 0)%Z) (all_items c)) by (rewrite Hf; by left).
    apply elem_of_filter_b in Hi as [Hi Hle%Z.leb_le]. pose proof (items_positive s c Hok) as Hp. rewrite Forall_forall in Hp.
    apply Hp in Hi. lia. }
  assert (Hrows : rows_between c 0 0 = []).
  { destruct (rows_between c 0 0) as [|r l] eqn:Hr; [done|]. destruct (rows_belong s c Hok 0 0 r) as [_ Hin]; [rewrite Hr; by left|].
    apply list_elem_of_fmap in Hin as (i & _ & Hi). apply elem_of_filter_b in Hi as [_ Hi]. unfold within in Hi.
    apply andb_true_iff in Hi as [?%Z.ltb_lt ?%Z.leb_le]. lia. }
  unfold tables_upto. by rewrite Hup, Hrows.
Qed.
Lemma nothing_mismatched : mismatched c 0 0 = 0.
Proof. pose proof (mismatched_split s c Hok 0 0). lia. Qed.

Lemma does_attach F C J : (∀ fs, F fs → is_Some (fs !! D)) → (∀ fs, F fs → J fs) →
  does F C (attach M D) (λ _, F) (λ _ q, C q ∧ q ≠ D) J.
Proof.
  intros Hd HJ. unfold attach. rule does_bind.
  { rule does_attempt. rule does_connect; [apply D_main|done|exact HJ]. }
  intros [[]|h]; [by rule does_ret|]. rule does_bind; [rule does_drop|]. intros []. rule does_fail. by intros fs [].
Qed.
Lemma does_create C :
  does (in_place (λ o, o = Some (empty_file (mode src)))) C (create M D s fp)
    (λ _, in_place (upto_k 0)) (λ _ q, (C q ∧ q ≠ M) ∧ q ≠ D) Before.
Proof.
  assert (Hblank : ∀ fs, in_place (λ o, o = Some (empty_file (mode src))) fs → Before fs).
  { intros fs. apply before_of. intros o ->. by apply blank_ok. }
  unfold create. rule does_bind; [rule does_connect; [apply M_main| |exact Hblank]|].
  { intros fs (_ & _ & -> & _). done. }
  intros []. rule does_bind.
  { rule does_attempt. rule (does_transact L _ _ _ _ _ (in_place (upto_k 0)) Before); [apply M_main|exact Hblank|].
    intros fs Hfs. pose proof Hfs as (_ & _ & Hm & _). eexists _, _. split; [exact Hm|]. split; [done|].
    eapply holds_write; [|exact Hfs]. simpl. split; try done.
    - simpl. by rewrite nothing_upto.
    - by left.
    - eexists. split; [done|]. split_and!; [by right|done|by rewrite nothing_mismatched|done].
    - pose proof nothing_upto as Hn. apply (f_equal messages) in Hn. cbn [tables_upto tables_of messages] in Hn.
      by destruct (upto c 0). }
  intros [[]|h].
  - rule does_attach; eauto.
  - rule does_bind; [rule does_drop|]. intros []. rule does_fail. by intros fs [].
Qed.

(** ** Verifying and finalizing *)

Lemma does_checks l F C J : (∀ fs, F fs → J fs) →
  Forall (λ x : bytes * result StorageError Z * Z, snd (fst x) = Ok (snd x)) l →
  does F C (each (check_one D M) l) (λ _, F) (λ _, C) J.
Proof.
  intros HJ. induction 1 as [|[[name expected] found] l Hx Hl IH]; [by rule does_ret|]. simpl in Hx. subst. cbn [each check_one].
  rule does_seq; [|exact IH]. rule does_seq; [by rule does_sql|]. rule does_val. rule does_seq; [by rule does_sql|].
  rewrite Z.eqb_refl. by rule does_ret.
Qed.
(** A copy of every message passes. *)
Lemma does_verify C :
  does (in_place (upto_k (last_key c))) C (verify D M layout D) (λ _, in_place (upto_k (last_key c))) (λ _, C) Before.
Proof.
  set (F := in_place (upto_k (last_key c))). assert (HJ : ∀ fs, F fs → Before fs) by (intros fs; apply upto_before). unfold verify.
  rule (does_step _ _ (λ o, o = Some src)); [rule run_post; [by rule does_file|]|].
  { intros o v [[HF ->] ?]. split; [|done]. split; [done|]. apply HF. }
  intros o ->. rule (does_step _ _ (some (copied s src print (last_key c) 0))); [rule run_post; [by rule does_file|]|].
  { intros o v [[HF ->] ?]. split; [|done]. split; [done|]. apply HF. }
  intros [f|] Hf; [|done]. simpl in Hf. pose proof (co_origin _ _ _ _ _ _ Hf) as (r & Hr & _).
  rewrite (co_contents _ _ _ _ _ _ Hf), Hr.
  rule does_seq; [rule does_checks; [exact HJ|]; by apply (checks_pass s c Hok)|].
  rule does_bind; [by rule does_attempt; rule (does_sql L _ F C Before)|]. intros [[]|[e|]].
  - rule does_seq; [by rule does_sql|]. cbv zeta. rewrite (no_violations s c Hok). cbn [Nat.eqb negb].
    rule does_seq; [by rule does_sql|]. rewrite (co_intact _ _ _ _ _ _ Hf). cbn [negb].
    rule does_seq; [by rule does_sql|]. by rule does_ret.
  - rule does_refuse. by intros fs [].
  - rule does_fail. by intros fs [].
Qed.

Lemma copied_finished f o t : copied s src print (last_key c) 0 f → origin_row f = Some o →
  finished s src print (f <| origin_row := Some (o <| completed_at := t |>) |> <| user_version := Schema.SCHEMA_VERSION |>).
Proof.
  intros [Hv Hc Hr Hm Hi (o' & Ho & Ho1 & Ho2 & Ho3 & Ho4) Hread] Hof. rewrite Hof in Ho. injection Ho as <-. split; try done.
  by eexists.
Qed.
Lemma does_finalize C :
  does (in_place (upto_k (last_key c))) C (finalize M) (λ _, in_place done_copy) (λ _ q, C q ∨ q = M) Before.
Proof.
  unfold finalize. rule does_bind.
  { rule (does_attempt L _ _ _ _ (λ _, in_place done_copy) (λ _, C) Before). rule does_seq; [rule does_sql; apply upto_before|].
    rule does_bind; [rule (does_transact L _ _ _ _ _ (in_place done_copy)); [apply M_main|apply upto_before|]|].
    - intros fs Hfs. pose proof Hfs as (_ & _ & Hm & _). destruct (fs !! M) as [f|] eqn:Hf; [|done]. simpl in Hm.
      pose proof (co_origin _ _ _ _ _ _ Hm) as (o & Ho & _). exists f. eexists. split; [done|]. rewrite Ho. split; [done|].
      eapply holds_write; [|exact Hfs]. by apply copied_finished.
    - intros []. rule does_seq; rule does_sql; apply finished_before. }
  intros [[]|h].
  - rule does_close. apply finished_before.
  - rule does_bind; [rule does_drop|]. intros []. rule does_fail. by intros fs [].
Qed.

(** ** Building *)

Definition migration : Migration := {| m_paths := paths_of path; m_options := options; m_source := s |}.
(** What is at the copy's path when a build starts. *)
Definition to_build (fresh : bool) (o : option DbFile) : Prop :=
  if fresh then o = None else some (partial s src print) o.
(** Stopped, which a lucky run is not, there is part of a copy. *)
Definition stopped (fs : gmap bytes DbFile) : Prop := in_place (some (partial s src print)) fs ∧ ¬ L.
Definition after_build {A} (r : option A) (fs : gmap bytes DbFile) : Prop :=
  match r with Some _ => in_place done_copy fs | None => stopped fs end.
Lemma stopped_before fs : stopped fs → Before fs.
Proof. intros [Hfs _]. by apply partial_before. Qed.
Abbreviation broken := (λ fs, ¬ L ∧ Before fs).

Lemma does_start C fresh :
  does (in_place (to_build fresh)) C
    (if fresh
     then bits ← mode_of D; create_with_mode M bits;; create M D s fp
     else open M D)
    (λ _, in_place (some (partial s src print))) (λ _ q, (C q ∧ q ≠ M) ∧ q ≠ D) Before.
Proof.
  destruct fresh; simpl.
  - rule (does_step _ _ (λ bits, bits = Some (mode src))).
    { rule run_post; [by rule (does_mode_of L _ D _ C Before); apply absent_before|].
      intros o v [[HF ->] ?]. split; [|done]. split; [exact HF|]. destruct HF as (-> & _). done. }
    intros bits ->. rule does_bind.
    + rule (does_create_with_mode L _ _ _ _ _ (in_place (λ o, o = Some (empty_file (mode src)))) Before); [apply M_main|].
      intros fs Hfs. split_and!; [by apply absent_before|apply Hfs| |by eapply holds_write].
      eapply holds_write; [|exact Hfs]. simpl. by apply blank_ok.
    + intros []. rule does_conseq; [rule does_create|done..| |done|done].
      intros a fs. apply holds_mono. intros [f|]; [|done]. by exists 0%Z.
  - unfold open. rule does_bind; [rule does_connect; [apply M_main|intros fs; apply copy_there|apply partial_before]|].
    intros []. rule does_attach; [intros fs; apply db_there|apply partial_before].
Qed.

Lemma does_build C fresh :
  does (in_place (to_build fresh)) C (build migration fresh print) after_build (λ _ q, q = M) Before.
Proof.
  unfold build. change (m_db migration) with D. change (m_copy migration) with M. change (m_source migration) with s.
  change (m_options migration) with options. rule does_bind; [rule does_start|]. intros [].
  set (C' := λ q, (C q ∧ q ≠ M) ∧ q ≠ D). rule does_bind.
  { rule (does_attempt L _ _ _ _ (λ (r : option AttachmentCounts) fs,
      match r with Some _ => in_place (upto_k (last_key c)) fs | None => stopped fs end) (λ _, C') Before).
    rule does_step; [rule does_read_source; intros o Ho; eapply some_ok; [exact Ho|]; intros f [k Hk]; by eapply copied_ok|].
    intros from ->. cbv zeta. rule (does_pre L _ _ (λ fs, ∃ k, in_place (upto_k k) fs) C' C').
    2:{ intros fs (Hd & Hb & Hm & Hr). destruct (fs !! M) as [f|] eqn:Hf; [|done]. destruct Hm as [k Hk].
        exists k. split_and!; [done|done|by rewrite Hf|done]. }
    2:{ done. }
    rule does_ex. intros k. rule does_bind; [by rule does_copy|]. intros [|migrated total]; simpl.
    - rule does_bind; [rule does_verify|]. intros counts. by rule does_ret.
    - by rule does_ret. }
  intros [[counts|]|h].
  - rule does_bind; [rule does_finalize|]. intros []. rule does_ret; [done|]. intros q ->. by right.
  - rule does_bind; [rule (does_close L _ _ stopped); apply stopped_before|]. intros []. rule does_ret; [done|]. intros q ->. by right.
  - rule does_bind; [rule does_attempt; rule (does_close L _ _ broken _ Before); by intros fs []|]. intros r.
    rule does_fail. intros fs Hfs. by destruct r.
Qed.
End target.
