(* ===== verification/MigrateSafe.v ===== *)
(** A migration of [crates/rustmail-storage/src/migrate.rs] from its lock to its
    last rename: whatever goes wrong, the source is kept and the database's path
    never holds part of a copy. *)
From S2P Require Import Prelude RustStd StorageError Content MailParser Locator Prepared Query Database Tables OldDb Fingerprint MigrateDisk MigrateBuild Migrate MigrateWork MigrateCopies MigrateChecks MigrateLogic MigrateStates MigrateBatches MigrateTarget.
From S2P Require Schema.

Section safe.
Context `{Json, !JsonLaws, Zstd, MailParser, Machine}.
Context (L : Prop) (path : bytes) (options : MigrationOptions) (s : SourceSchema.t) (src : DbFile) (print : SourcePrint).
Context (base : gmap bytes DbFile).
Abbreviation p := (paths_of path).
Abbreviation D := (db p).
Abbreviation M := (migrating p).
Abbreviation B := (backup p s).
Abbreviation c := (contents src).
Abbreviation fp := (fingerprint_text print).
Abbreviation layout := (layout_probe c s).
Abbreviation does := (does L (path_names path)).
Abbreviation in_place := (holds path s base (Some src) None).
Abbreviation Before := (Before path s src print base).
Abbreviation Between := (Between path s src print base).
Abbreviation After := (After path s src print base).
Abbreviation Safe := (Safe path s src print base).
Abbreviation done_copy := (some (finished s src print)).
Abbreviation stopped := (stopped L path s src print base).
Abbreviation m := (migration path options s).
Abbreviation broken := (λ fs, ¬ L ∧ Before fs).
Context (Hok : source_ok s c) (Hcores : 0 < available_parallelism) (Hbatch : batch_messages options ≠ 0%Z).
Context (Hpacks : L → Forall readable (all_items c) ∧ ∀ i, i ∈ all_items c → is_ok (compress (i_raw i)) = true).
Context (Hprint : fingerprint layout c = Ok (Some print)).

(** ** One attempt *)

Definition start_ok (start : Start) (o : option DbFile) : Prop :=
  match start with
  | Fresh => opt (copy_ok path s src print base) o
  | Resume => some (partial s src print) o
  | StartComplete => done_copy o
  end.
Lemma start_before start fs : in_place (start_ok start) fs → Before fs.
Proof. destruct start; simpl; [done|apply partial_before|apply finished_before]. Qed.

Lemma does_copied_messages C : does stopped C (copied_messages m) (λ _, stopped) (λ _ q, C q ∨ q = M) Before.
Proof.
  unfold copied_messages. change (m_copy m) with M.
  assert (HM : ∀ fs, stopped fs → is_Some (fs !! M)) by (intros fs [Hfs _]; by eapply copy_there).
  rule does_with_connection; [apply M_main|exact HM|apply stopped_before|intros _; apply stopped_before|].
  rule (does_step _ _ (partial s src print)).
  - rule run_post; [rule (does_read L _ M stopped); [exact HM|apply stopped_before]|].
    intros f v [[HF Hf] ?]. split; [|done]. split; [done|]. destruct HF as [(_ & _ & Hm & _) _]. by rewrite Hf in Hm.
  - intros f [k Hf]. unfold message_count. rewrite (co_contents _ _ _ _ _ _ Hf). rule does_lift. by split.
Qed.
Lemma does_completed_counts C :
  does (in_place done_copy) C (completed_counts m) (λ _, in_place done_copy) (λ _ q, C q ∨ q = M) Before.
Proof.
  unfold completed_counts. change (m_copy m) with M.
  rule does_with_connection; [apply M_main|intros fs; apply copy_there|apply finished_before|intros _; apply finished_before|].
  rule does_step; [rule does_read_copied; apply finished_before|]. intros f Hf.
  pose proof (co_origin _ _ _ _ _ _ Hf) as (o & Ho & _). rewrite (co_contents _ _ _ _ _ _ Hf), Ho. by rule does_ret.
Qed.
Lemma does_disk_full C : does broken C (disk_full m) (λ _, broken) (λ _, C) Before.
Proof.
  assert (HB : ∀ fs, broken fs → Before fs) by (by intros fs []).
  unfold disk_full. do 3 (rule does_bind; [by rule does_file_len|intros ?]). by rule does_ret.
Qed.
(** What others write is not modelled here: the source reads as it did. *)
Lemma does_fingerprint_now P C : (∀ fs, in_place P fs → Before fs) →
  does (in_place P) C (source_fingerprint_now D layout) (λ r fs, in_place P fs ∧ r = print) (λ _, C) Before.
Proof.
  intros HP. unfold source_fingerprint_now. rule does_seq; [rule does_meddle|].
  rule (does_step _ _ (λ f, f = src)).
  - rule run_post; [rule (does_read L _ D (in_place P)); [intros fs; apply db_there|exact HP]|].
    intros f v [[HF Hf] ?]. split; [|done]. split; [done|]. destruct HF as (Hd & _). congruence.
  - intros f ->. rewrite Hprint. by rule does_ret.
Qed.

Definition built_ok (r : Built) (fs : gmap bytes DbFile) : Prop :=
  match r with Swappable _ _ => in_place done_copy fs | BuiltPaused _ _ => stopped fs end.
Lemma built_before r fs : built_ok r fs → Before fs.
Proof. destruct r; [apply finished_before|apply stopped_before]. Qed.
(** The copy is closed, unless it was complete when the run began. *)
Definition closed_by (start : Start) (C : bytes → Prop) (q : bytes) : Prop :=
  q = M ∧ match start with StartComplete => C q | _ => True end.
Definition counts_of {A} (r : result halt (option (option A))) (fs : gmap bytes DbFile) : Prop :=
  match r with Ok (Some _) => in_place done_copy fs | Ok None => stopped fs | Err _ => broken fs end.

Definition cleared (start : Start) (o : option DbFile) : Prop :=
  match start with Fresh => o = None | Resume => some (partial s src print) o | StartComplete => done_copy o end.
Lemma does_clear C start :
  does (in_place (start_ok start)) C (match start with Fresh => remove_copy (m_paths m) | _ => mret tt end)
    (λ _, in_place (cleared start)) (λ _, C) Before.
Proof. destruct start; [by rule does_remove_copy|by rule does_ret..]. Qed.
Lemma does_attempt_build C start :
  does (in_place (cleared start)) C
    (match start with
     | StartComplete => mret (Ok (Some None))
     | Fresh | Resume =>
       r ← attempt (build m (match start with Fresh => true | _ => false end) print);
       match r with
       | Ok (Some counts) => mret (Ok (Some (Some counts)))
       | Ok None => mret (Ok None)
       | Err (Failed e) =>
         if bool_decide (sqlite_primary_code e = Some SQLITE_FULL)
         then full ← disk_full m; mret (Err (Failed full))
         else mret (Err (Failed e))
       | Err Killed => mret (Err Killed)
       end
     end) counts_of
    (λ r q, match r with Ok _ => closed_by start C q | Err _ => False end) Before.
Proof.
  assert (Hbuild : ∀ fresh, does (in_place (to_build s src print fresh)) C
    (r ← attempt (build m fresh print);
     match r with
     | Ok (Some counts) => mret (Ok (Some (Some counts)))
     | Ok None => mret (Ok None)
     | Err (Failed e) =>
       if bool_decide (sqlite_primary_code e = Some SQLITE_FULL)
       then full ← disk_full m; mret (Err (Failed full))
       else mret (Err (Failed e))
     | Err Killed => mret (Err Killed)
     end) counts_of (λ r q, match r with Ok _ => q = M | Err _ => False end) Before).
  { intros fresh. rule does_bind; [rule does_attempt; by rule does_build|].
    intros [[counts|]|[e|]]; try by rule does_ret.
    destruct (bool_decide _); [|by rule does_ret]. rule does_bind; [rule does_disk_full|]. intros full. by rule does_ret. }
  destruct start; simpl.
  - rule does_conseq; [apply (Hbuild true)|done..| |done]. intros [r|h] q; [|done]. by intros [-> _].
  - rule does_conseq; [apply (Hbuild false)|done..| |done]. intros [r|h] q; [|done]. by intros [-> _].
  - rule does_ret; [done|]. by intros q [-> ?].
Qed.
Definition attempt_ok (r : Built + SourcePrint) (fs : gmap bytes DbFile) : Prop :=
  match r with inl b => built_ok b fs | inr _ => False end.
Lemma does_one_attempt C start :
  does (in_place (start_ok start)) C (one_attempt m layout start print) attempt_ok (λ _ q, closed_by start C q) Before.
Proof.
  unfold one_attempt. change (m_db m) with D. rule does_bind; [rule does_clear|]. intros [].
  rule does_bind; [rule does_attempt_build|]. intros r.
  rule (does_bind L _ _ _ _ _ (λ o fs, match o with Some _ => in_place done_copy fs | None => stopped fs end) (λ _, closed_by start C)).
  { rule does_give. destruct r as [[x|]|h]; [by split|by split|done]. }
  intros [[counts|]|].
  - rule does_step; [rule does_fingerprint_now; apply finished_before|]. intros now ->. rewrite (proj2 (beqb_spec _ _) eq_refl).
    rule does_val. by rule does_ret.
  - rule does_step; [rule does_fingerprint_now; apply finished_before|]. intros now ->. rewrite (proj2 (beqb_spec _ _) eq_refl).
    rule does_bind; [rule does_completed_counts|]. intros counts. rule does_ret; [done|]. intros q Hq. by left.
  - rule does_bind; [rule does_copied_messages|]. intros migrated. rule does_ret; [done|]. intros q Hq. by left.
Qed.
Lemma does_attempts C start n :
  does (in_place (start_ok start)) C (attempts m layout (S n) start print) built_ok (λ _ q, closed_by start C q) Before.
Proof.
  cbn [attempts]. rule does_bind; [rule does_one_attempt|]. intros [built|now]; [by rule does_ret|].
  by rule (does_with L _ False).
Qed.

(** ** What the copy is taken for *)

Definition copy_state_of (o : option DbFile) : CopyState :=
  match o with
  | None => CopyAbsent
  | Some f =>
    if (user_version f =? Schema.SCHEMA_VERSION)%Z || (user_version f =? Schema.PREVIOUS_SCHEMA_VERSION)%Z
    then Complete (user_version f) (read_origin f) else Incomplete (read_origin f)
  end.
(** A copy that is gone on with was made from this source. *)
Lemma resumed o r : opt (copy_ok path s src print base) o →
  resumable_origin (copy_state_of o) s = Some r → made_from r fp = true →
  match copy_state_of o with
  | CopyAbsent => False
  | Incomplete _ => some (partial s src print) o
  | Complete _ _ => done_copy o
  end.
Proof.
  intros Ho Hr Hm. destruct o as [f|]; [|done]. simpl in Ho. unfold resumable_origin in Hr.
  destruct (copy_origin (copy_state_of (Some f))) as [x|] eqn:Hx; [|done]. cbn [mbind option_bind] in Hr.
  destruct ((source_schema x =? _)%Z && _) eqn:Hs; [|done]. injection Hr as ->.
  apply andb_true_iff in Hs as [Hs1%Z.eqb_eq Hs2%Z.eqb_eq].
  assert (Hread : read_origin f = Some r) by (simpl in Hx; by destruct (_ || _)).
  destruct (proj1 Ho r Hread Hs1 Hs2 Hm) as [[k Hk]|Hf]; simpl.
  - rewrite (co_version _ _ _ _ _ _ Hk). simpl. by exists k.
  - rewrite (co_version _ _ _ _ _ _ Hf). simpl. exact Hf.
Qed.
Lemma qualified k v f : copied s src print k v f → copied s src print k v (qualify_origin fp f).
Proof.
  intros Hf. pose proof Hf as [Hv Hc Hr Hm Hi (o & Ho & Ho1 & Ho2 & Ho3 & Ho4) Hread]. unfold qualify_origin. rewrite Ho.
  destruct (beqb _ _); [|done]. split; try done. eexists. split; [done|]. by split_and!; [right|..].
Qed.

(** ** A run under the lock *)

Definition seen (state : CopyState) (o : option DbFile) : Prop := opt (copy_ok path s src print base) o ∧ state = copy_state_of o.
Definition known (state : CopyState) (o : option DbFile) : Prop :=
  match state with CopyAbsent => False | Incomplete _ => some (partial s src print) o | Complete _ _ => done_copy o end.
Lemma seen_before state fs : in_place (seen state) fs → Before fs.
Proof. apply holds_mono. by intros o []. Qed.
Lemma known_before state fs : in_place (known state) fs → Before fs.
Proof. destruct state; simpl; [intros (_ & _ & [] & _)|apply partial_before|apply finished_before]. Qed.

Lemma does_qualify state C :
  does (in_place (known state)) C
    (with_connection M (transact M (λ f, Ok (qualify_origin fp f)))) (λ _, in_place (known state)) (λ _, C) Before.
Proof.
  assert (Hthere : ∀ fs, in_place (known state) fs → is_Some (fs !! M)).
  { intros fs (_ & _ & Hm & _). destruct (fs !! M); [done|]. by destruct state. }
  rule (does_post L _ _ _ _ _ (λ _, in_place (known state)) _ (λ _ q, C q ∨ q = M)); [|done|by intros a q Hq; left].
  rule (does_with_connection L _ _ _ _ _ (λ _, in_place (known state)));
    [apply M_main|exact Hthere|apply known_before|intros _; apply known_before|].
  rule does_transact; [apply M_main|apply known_before|]. intros fs Hfs. pose proof Hfs as (_ & _ & Hm & _).
  destruct (fs !! M) as [f|] eqn:Hf; [|by destruct state]. exists f. eexists. split; [done|]. split; [done|].
  eapply holds_write; [|exact Hfs]. destruct state as [|o|v o]; simpl in *; [done| |by apply qualified].
  destruct Hm as [k Hk]. exists k. by apply qualified.
Qed.
(** Which databases are closed after a build: the copy. *)
Definition copy_closed (state : CopyState) (C : bytes → Prop) (q : bytes) : Prop :=
  q = M ∧ match state with Complete _ _ => C q | _ => True end.
Lemma does_build_locked state C :
  does (in_place (seen state)) C (build_locked m state) built_ok (λ _, copy_closed state C) Before.
Proof.
  unfold build_locked. change (m_db m) with D. change (m_source m) with s. change (m_copy m) with M.
  rule does_step; [rule does_read_source; by intros o []|]. intros f ->. cbv zeta.
  rule does_step; [rule does_fingerprint_now; apply seen_before|]. intros now ->.
  rule does_bind; [rule does_file_len; apply seen_before|]. intros len.
  destruct (o ← resumable_origin state s; if made_from o fp then Some o else None) as [r|] eqn:Hres.
  - destruct (resumable_origin state s) as [r'|] eqn:Hr; [|done]. cbn [mbind option_bind] in Hres.
    destruct (made_from r' fp) eqn:Hmade; [|done]. injection Hres as ->.
    rule (does_pre L _ _ (in_place (known state)) C C);
      [|intros fs; apply holds_mono; intros o [Ho Hst]; pose proof (resumed o r Ho) as Hk; rewrite <- Hst in Hk; exact (Hk Hr Hmade)|done].
    rule (does_seq L _ _ C). { destruct (beqb _ _); [rule does_qualify|by rule does_ret]. }
    destruct state as [|o|v o]; simpl.
    + by rule (does_with L _ False); [by intros fs (_ & _ & [] & _)|].
    + rewrite Hr. cbn [mbind option_bind]. rewrite Hmade. rule does_conseq; [by rule (does_attempts C Resume 1)|done..].
    + rewrite Hr. cbn [mbind option_bind]. rewrite Hmade. rule does_conseq; [by rule (does_attempts C StartComplete 1)|done..].
  - rule does_seq; [by rule does_ret|].
    rule (does_pre L _ _ (in_place (start_ok Fresh)) C C); [|intros fs; apply holds_mono; by intros o []|done].
    assert (Hfresh : does (in_place (start_ok Fresh)) C (attempts m layout MAX_BUILD_ATTEMPTS Fresh print) built_ok (λ _, copy_closed state C) Before).
    { rule does_conseq; [by rule (does_attempts C Fresh 1)|done..| |done]. intros b q [-> ?]. by split. }
    destruct state; rewrite ?Hres; exact Hfresh.
Qed.

(** ** The swap *)

Lemma before_safe fs : Before fs → Safe fs.
Proof. by left. Qed.
Lemma between_safe fs : Between fs → Safe fs.
Proof. right. by left. Qed.
Lemma after_safe fs : After fs → Safe fs.
Proof. right. by right. Qed.
Lemma done_safe fs : in_place done_copy fs → Safe fs.
Proof. intros Hfs. left. by apply finished_before. Qed.
Hint Resolve before_safe between_safe after_safe done_safe : core.

(** The last rename, of a run or of one that finishes it. *)
Lemma does_last_rename C : does Between C (rename M D;; sync_parent D) (λ _, After) (λ _, C) Safe.
Proof.
  rule does_bind; [rule (does_rename L _ _ _ _ _ After); [apply D_main|auto|]|intros []; rule does_blocking; auto].
  intros fs (Hd & Hb & Hm & Hr). destruct (fs !! M) as [f|] eqn:Hf; [|done]. simpl in Hm. exists f. split; [done|].
  pose proof (M_not_D path). pose proof (B_not_D path s). pose proof (B_not_M path s).
  exists f. split; [done|]. split_and!.
  - by rewrite lookup_insert_eq.
  - by rewrite lookup_insert_ne, lookup_delete_ne.
  - by rewrite lookup_insert_ne, lookup_delete_eq.
  - apply untouched_insert, untouched_delete; [apply own_main..|done].
Qed.
Lemma does_swap C : C M → C D → does (in_place done_copy) C (swap m) (λ _, After) (λ _, C) Safe.
Proof.
  intros HM HD. unfold swap. change (m_db m) with D. change (m_copy m) with M. change (m_backup m) with B. change (m_paths m) with p.
  rule does_seq; [rule does_refuse_open_files; [auto|]|].
  { intros x Hx. rewrite !elem_of_cons, elem_of_nil in Hx. destruct Hx as [->|[->|[]]]; split; [apply D_main|done|apply M_main|done]. }
  rule (does_step _ _ (λ there, there = false)).
  { rule run_post; [rule (does_exists L _ B (in_place done_copy)); [apply B_main|exact done_safe]|].
    intros b v [[HF ->] ?]. split; [|done]. split; [done|]. destruct HF as (_ & -> & _). done. }
  intros there ->. rule (does_bind L _ _ _ _ _ (λ _, Between) (λ _, C)); [|intros []; rule does_last_rename].
  rule does_rename; [apply B_main|auto|]. intros fs (Hd & Hb & Hm & Hr). exists src. split; [done|].
  pose proof (M_not_D path). pose proof (B_not_D path s). pose proof (B_not_M path s). split_and!.
  - by rewrite lookup_insert_ne, lookup_delete_eq.
  - by rewrite lookup_insert_eq.
  - by rewrite lookup_insert_ne, lookup_delete_ne.
  - apply untouched_insert, untouched_delete; [apply own_main..|done].
Qed.

(** ** The run *)

Definition prepared (r : Preparation) (fs : gmap bytes DbFile) : Prop :=
  match r with
  | Ready _ => After fs
  | PreparationPaused _ _ => stopped fs
  end.
Lemma does_lock_source P C : (∀ fs, in_place P fs → Before fs) →
  does (in_place P) C (lock_source D) (λ _, in_place P) (λ _ q, C q ∧ q ≠ D) Before.
Proof.
  intros HP. unfold lock_source. rule does_bind; [rule does_connect; [apply D_main|intros fs; apply db_there|exact HP]|]. intros [].
  rule does_bind; [rule (does_attempt L _ _ _ _ (λ _, in_place P) (λ _ q, C q ∧ q ≠ D) Before)|].
  { rule does_seq; [by rule does_sql|rule does_meddle]. }
  intros [[]|h]; [by rule does_ret|].
  rule does_bind; [rule (does_close L _ _ broken); by intros fs []|]. intros []. rule does_fail. by intros fs [].
Qed.
Lemma does_release_source F C : (∀ fs, F fs → Before fs) →
  does F C (release_source D) (λ _, F) (λ _ q, C q ∨ q = D) Before.
Proof.
  intros HF. unfold release_source. rule does_bind; [rule (does_attempt L _ _ _ _ (λ _, F)); by rule does_sql|].
  intros [[]|h]; [by rule does_close|].
  rule does_bind; [rule does_drop|]. intros []. rule does_fail. by intros fs [].
Qed.
Lemma does_run_steps state C : (match state with Complete _ _ => C M | _ => True end) →
  does (in_place (seen state)) C (run_steps m state) prepared (λ _, nothing) Safe.
Proof.
  intros HC. unfold run_steps. change (m_db m) with D.
  rule does_bind; [rule does_conseq; [rule does_lock_source; apply seen_before|done..|auto]|]. intros [].
  set (C' := λ q, C q ∧ q ≠ D).
  rule does_bind; [rule (does_attempt L _ _ _ _ built_ok (λ _, copy_closed state C') Before); by rule does_build_locked|].
  intros built. set (G := λ fs, match built with Ok a => built_ok a fs | Err _ => broken fs end).
  assert (HG : ∀ fs, G fs → Before fs) by (intros fs; unfold G; destruct built; [apply built_before|by intros []]).
  rule does_bind; [rule (does_attempt L _ G _ _ (λ _, G)); by rule does_release_source|].
  intros released. destruct built as [b|h]; simpl.
  - rule does_val. destruct b as [counts messages|migrated total].
    + rule (does_bind L _ _ _ _ _ (λ _, in_place done_copy) (λ _ q, copy_closed state C' q ∨ q = D)).
      { rule does_give. destruct released as [[]|h]; simpl; [done|]. intros fs [? ?]. split; [done|]. auto. }
      intros []. rule does_bind; [rule does_swap|].
      * left. split; [done|]. destruct state; [done|done|]. split; [done|]. apply M_not_D.
      * by right.
      * intros []. by rule does_ret.
    + rule (does_bind L _ _ _ _ _ (λ _, stopped) (λ _, nothing)).
      { rule does_give. destruct released as [[]|h]; simpl; [done|]. intros fs [? ?]. split; [done|]. auto. }
      intros []. by rule does_ret.
  - rule (does_bind L _ _ _ _ _ (λ _ _, False) (λ _, nothing)); [|intros r; by rule (does_with L _ False)].
    rule does_fail. intros fs Hfs. destruct released as [[]|h']; simpl in Hfs; (split; [by destruct Hfs|]); left; by destruct Hfs.
Qed.
End safe.
