(* ===== verification/MigrateRecovery.v ===== *)
(** Every start of [prepare_database_file] of
    [crates/rustmail-storage/src/migrate.rs]: a migration begun, gone on with or
    finished, from whatever an earlier run left. *)
From S2P Require Import Prelude RustStd StorageError Content MailParser Locator Prepared Query Database Tables OldDb Fingerprint MigrateDisk MigrateBuild Migrate MigrateWork MigrateCopies MigrateChecks MigrateLogic MigrateStates MigrateBatches MigrateTarget MigrateSafe.
From S2P Require Schema.

Section recovery.
Context `{Json, !JsonLaws, Zstd, MailParser, Machine}.
Context (L : Prop) (path : bytes) (options : MigrationOptions) (s : SourceSchema.t) (src : DbFile) (print : SourcePrint).
Context (base : gmap bytes DbFile).
Abbreviation p := (paths_of path).
Abbreviation D := (db p).
Abbreviation M := (migrating p).
Abbreviation B := (backup p s).
Abbreviation c := (contents src).
Abbreviation fp := (fingerprint_text print).
Abbreviation layout := (layout_probe c s).
Abbreviation does := (does L (path_names path)).
Abbreviation in_place := (holds path s base (Some src) None).
Abbreviation Before := (Before path s src print base).
Abbreviation Between := (Between path s src print base).
Abbreviation After := (After path s src print base).
Abbreviation Safe := (Safe path s src print base).
Abbreviation prepared := (prepared L path s src print base).
Abbreviation seen := (seen path s src print base).
Context (Hok : source_ok s c) (Hversion : user_version src = SourceSchema.version s).
Context (Hcores : 0 < available_parallelism) (Hbatch : batch_messages options ≠ 0%Z).
Context (Hpacks : L → Forall readable (all_items c) ∧ ∀ i, i ∈ all_items c → is_ok (compress (i_raw i)) = true).
Context (Hprint : fingerprint layout c = Ok (Some print)).

(** ** Looking *)

(** A copy that was there is closed again. *)
Definition looked (C : bytes → Prop) (state : CopyState) (q : bytes) : Prop := C q ∨ (q = M ∧ state ≠ CopyAbsent).
Lemma does_inspect_copy F C J : (∀ fs, F fs → J fs) →
  does F C (inspect_copy M) (λ r fs, F fs ∧ r = copy_state_of (fs !! M)) (looked C) J.
Proof.
  intros HJ. unfold inspect_copy. rule does_bind; [rule does_exists; [apply M_main|exact HJ]|]. intros [|]; simpl.
  - rule (does_pre L _ _ (λ fs, F fs ∧ is_Some (fs !! M)) C C); [|intros fs [Hfs Hb]; split; [done|]; symmetry in Hb; by apply bool_decide_eq_true in Hb|done].
    rule (does_bind L _ _ _ _ _ (λ x fs, F fs ∧ ∃ f, fs !! M = Some f ∧ x = (user_version f, read_origin f)) (λ _ q, C q ∨ q = M)).
    + rule does_with_connection; [apply M_main|by intros fs []|by intros fs [? _]; apply HJ|by intros x fs [? _]; apply HJ|].
      rule does_bind; [rule does_read; [by intros fs []|by intros fs [? _]; apply HJ]|]. intros f.
      rule does_bind; [rule does_read; [by intros fs [_ ->]|by intros fs [[? _] _]; apply HJ]|]. intros f'.
      rule does_ret; [|done]. intros fs [[[Hfs _] Hf] Hf']. split; [done|]. exists f. split; [done|]. congruence.
    + intros [v o]. rule does_ret.
      * intros fs [Hfs (f & Hf & [= -> ->])]. split; [done|]. simpl in Hf. by rewrite Hf.
      * intros q [Hq|[-> _]]; [by left|by right].
  - rule does_ret; [|intros q [Hq|[_ Hq]]; [done|by destruct Hq]]. intros fs [Hfs Hb]. split; [done|]. symmetry in Hb. apply bool_decide_eq_false in Hb.
    apply eq_None_not_Some in Hb. simpl in Hb. by rewrite Hb.
Qed.

(** ** Finishing a swap *)

Lemma between_is_safe fs : Between fs → Safe fs.
Proof. right. by left. Qed.
Lemma before_is_safe fs : Before fs → Safe fs.
Proof. by left. Qed.
Lemma after_is_safe fs : After fs → Safe fs.
Proof. right. by right. Qed.
Hint Resolve between_is_safe before_is_safe after_is_safe : core.

Lemma does_finish_interrupted_swap o C : C M → source_schema o = SourceSchema.version s → made_from o fp = true →
  does Between C (finish_interrupted_swap p o) (λ _, After) (λ _ q, C q ∨ q = B) Safe.
Proof.
  intros HM Hs Hm. unfold finish_interrupted_swap. rewrite Hs.
  replace (SourceSchema.from_version (SourceSchema.version s)) with (Some s) by (by destruct s).
  rule (does_step _ _ (λ there, there = true)).
  { rule run_post; [rule (does_exists L _ B Between); [apply B_main|auto]|]. intros b v [[HF ->] ?]. split; [|done]. split; [done|].
    destruct HF as (_ & Hb & _). by rewrite Hb. }
  intros there ->. cbn [negb]. rule does_bind; [rule (does_fingerprint_of L _ B s src print Between _ Safe); [apply B_main|auto|by intros fs (_ & Hb & _)|done]|]. intros r.
  rule (does_with L _ (r = fp)); [by intros fs []|]. intros ->. rewrite Hm. cbn [negb].
  rule (does_pre L _ _ Between _ (λ q, C q ∨ q = B)); [|by intros fs []|done].
  rule does_seq; [rule does_refuse_open_files; [auto|]|].
  { intros x Hx. rewrite !elem_of_cons, elem_of_nil in Hx. destruct Hx as [->|[->|[]]]; split;
      [apply B_main|by right|apply M_main|by left]. }
  rule does_last_rename.
Qed.

(** ** The row of the table *)

Lemma probe_finished f : finished s src print f → probe f = Ok Schema.Current.
Proof. apply probe_copied. Qed.
Lemma finished_state f : finished s src print f →
  ∃ o, copy_state_of (Some f) = Complete Schema.SCHEMA_VERSION (Some o) ∧
    source_schema o = SourceSchema.version s ∧ made_from o fp = true.
Proof.
  intros Hf. pose proof (co_origin _ _ _ _ _ _ Hf) as (r & Hr & Ho).
  destruct (origin_read _ _ _ _ _ _ Hr Ho) as (o & Hread & _ & Hs & _ & Hm). exists o. split; [|done].
  unfold copy_state_of. by rewrite (co_version _ _ _ _ _ _ Hf), Hread.
Qed.
Definition resolved (r : option Preparation) (fs : gmap bytes DbFile) : Prop :=
  match r with Some prep => prepared prep fs | None => After fs end.
Lemma does_resolve_before state C : (match state with Complete _ _ => C M | _ => True end) →
  does (in_place (seen state)) C (resolve p options (Older s) state) (λ r fs, ∃ prep, r = Some prep ∧ prepared prep fs) (λ _, nothing) Safe.
Proof.
  intros HC. assert (HS : ∀ fs, in_place (seen state) fs → Safe fs) by (intros fs Hfs; left; by eapply seen_before).
  assert (Hrun : does (in_place (seen state)) C
    (there ← exists_ B;
     if (there : bool)
     then refuse (MigrationRefused (AmbiguousBackup D (SourceSchema.version s) B (if bool_decide (state = CopyAbsent) then None else Some M)))
     else prep ← run_steps (migration path options s) state; mret (Some prep))
    (λ r fs, ∃ prep, r = Some prep ∧ prepared prep fs) (λ _, nothing) Safe).
  { rule (does_step _ _ (λ there, there = false)).
    { rule run_post; [rule (does_exists L _ B (in_place (seen state))); [apply B_main|exact HS]|].
      intros b v [[HF ->] ?]. split; [|done]. split; [done|]. destruct HF as (_ & Hb & _). by rewrite Hb. }
    intros there ->. rule does_bind; [by rule does_run_steps|]. intros prep. rule does_ret; [|done]. intros fs Hfs. by exists prep. }
  destruct state; exact Hrun.
Qed.
Lemma does_log_backups l F C J : (∀ fs, F fs → J fs) → (∀ x, x ∈ l → x ∈ path_names path) →
  does F C (log_backups l) (λ _, F) (λ _, C) J.
Proof.
  intros HJ. induction l as [|x l IH]; intros Hl; [by rule does_ret|]. cbn [log_backups].
  rule does_bind; [rule does_exists; [apply Hl; by left|auto]|]. intros there.
  rule (does_pre L _ _ F _ C); [|by intros fs []|done]. rule does_seq; [|apply IH; intros y Hy; apply Hl; by right].
  destruct there; [|by rule does_ret]. unfold log_backup. rule does_bind; [rule does_file_len; auto|]. intros len. by rule does_ret.
Qed.
Lemma does_resolve_after C : does After C (resolve p options DbCurrent CopyAbsent) (λ r fs, After fs ∧ r = Some (Ready None)) (λ _, nothing) Safe.
Proof.
  cbn [resolve]. rule does_bind; [rule does_log_backups; [auto|]|].
  - intros x Hx. unfold backups in Hx. rewrite !elem_of_cons, elem_of_nil in Hx.
    destruct Hx as [->|[->|[]]]; [apply (B_main path SourceSchema.Legacy)|apply (B_main path SourceSchema.Previous)].
  - intros []. by rule does_ret.
Qed.

(** ** The loop *)

Lemma does_loop_after C n : does After C (resolve_loop (S n) p options) prepared (λ _, nothing) Safe.
Proof.
  cbn [resolve_loop]. rule does_step; [rule (does_inspect_db L _ D After _ Safe DbCurrent); [apply D_main|auto|]|].
  { intros fs (f & Hf & Hd & _). rewrite Hd. exists Schema.Current. split; [by apply probe_finished|done]. }
  intros d ->. rule does_bind; [rule does_inspect_copy; auto|]. intros state.
  rule (does_with L _ (state = CopyAbsent)); [intros fs [(f & Hf & _ & _ & Hm & _) ->]; by rewrite Hm|]. intros ->.
  rule (does_pre L _ _ After _ nothing); [|by intros fs []|done].
  rule does_step; [rule does_resolve_after|]. intros r ->. by rule does_ret.
Qed.
Lemma does_loop_between C n : does Between C (resolve_loop (S (S n)) p options) prepared (λ _, nothing) Safe.
Proof.
  remember (S n) as n' eqn:Hn. cbn [resolve_loop]. rule does_step; [rule (does_inspect_db L _ D Between _ Safe DbAbsent); [apply D_main|auto|]|].
  { intros fs (Hd & _). by rewrite Hd. }
  intros d ->. rule does_bind; [rule does_inspect_copy; auto|]. intros state.
  rule (does_with L _ (∃ o, state = Complete Schema.SCHEMA_VERSION (Some o) ∧
    source_schema o = SourceSchema.version s ∧ made_from o fp = true)).
  { intros fs [(_ & _ & Hm & _) ->]. destruct (fs !! M) as [f|] eqn:Hf; [|done]. by apply finished_state. }
  intros (o & -> & Ho1 & Ho2). rule (does_pre L _ _ Between _ (λ q, q = M)); [|by intros fs []|by intros q ->; right].
  rule (does_bind L _ _ _ _ _ (λ r fs, r = None ∧ After fs) (λ _, nothing)).
  - cbn [resolve]. rewrite Ho1. rewrite bool_decide_eq_true_2 by (by destruct s).
    rule does_bind; [rule does_finish_interrupted_swap; done|]. intros []. by rule does_ret.
  - intros r. rule (does_with L _ (r = None)); [by intros fs []|]. intros ->.
    rule does_pre; [subst n'; rule does_loop_after|by intros fs []|done].
Qed.
Lemma does_loop_before C n : does Before C (resolve_loop (S n) p options) prepared (λ _, nothing) Safe.
Proof.
  cbn [resolve_loop]. rule does_step; [rule (does_inspect_db L _ D Before _ Safe (Older s)); [apply D_main|auto|]|].
  { intros fs (Hd & _). rewrite Hd. destruct (probe_source s src Hok Hversion) as (x & Hx & Hs). by exists x. }
  intros d ->. rule does_bind; [rule does_inspect_copy; auto|]. intros state.
  set (C' := λ q : bytes, q = M ∧ state ≠ CopyAbsent).
  rule (does_pre L _ _ (in_place (seen state)) _ C'); [|intros fs [(Hd & Hb & Hm & Hr) Hs]; by split_and!|by intros q Hq; right].
  rule does_bind; [rule does_resolve_before; by destruct state|]. intros r.
  rule (does_pre L _ _ (λ fs, ∃ prep, r = Some prep ∧ prepared prep fs) _ nothing); [|done|done].
  rule does_ex. intros prep. rule (does_with L _ (r = Some prep)); [by intros fs []|]. intros ->. rule does_ret; [by intros fs []|done].
Qed.

Lemma lock_insert d b P (f : DbFile) fs : holds path s base d b P fs → holds path s base d b P (<[lock p := f]> fs).
Proof.
  intros (Hd & Hb & Hm & Hr). destruct (lock_not path s) as (Hn1 & Hn2 & Hn3).
  split_and!; [by rewrite lookup_insert_ne|by rewrite lookup_insert_ne|by rewrite lookup_insert_ne|].
  apply untouched_insert; [apply own_main|done].
Qed.
Lemma safe_lock (f : DbFile) fs : Safe fs → Safe (<[lock p := f]> fs).
Proof.
  intros [Hs|[Hs|(g & Hg & Hs)]]; [left; by apply lock_insert|right; left; by apply lock_insert|right; right; exists g].
  split; [done|]. by apply lock_insert.
Qed.
(** The run, from any of the states. *)
Lemma does_prepare C : does Safe C (prepare_with path options) prepared (λ _, nothing) Safe.
Proof.
  unfold prepare_with. cbv zeta. rule does_seq.
  - rule does_acquire_lock; [apply lock_main|done|]. intros fs f. apply safe_lock.
  - rule does_or; [rule does_loop_before|]. rule does_or; [rule does_loop_between|rule does_loop_after].
Qed.
End recovery.
