(* ===== verification/MigrateServed.v ===== *)
(** What a migrated database serves: the older file's messages and attachments,
    read through [Repo] from the tables the migration leaves. *)
From S2P Require Import Prelude RustStd StorageError Content MailParser Locator Prepared Query Database Store Repo Tables RepoWrites RepoReads Attachments OldDb Fingerprint MigrateDisk MigrateBuild MigrateWork MigrateCopies MigrateChecks MigrateLogic MigrateStates.
From S2P Require Schema.

Section served.
Context `{Json, !JsonLaws, Zstd, MailParser, Machine}.
Context (s : SourceSchema.t) (c : Contents) (Hok : source_ok s c).
Abbreviation whole := (tables_upto c (last_key c)).

Lemma whole_messages : messages whole = map i_record (all_items c).
Proof. unfold tables_upto, tables_of. cbn [messages]. by rewrite (whole_items s c Hok). Qed.
Lemma whole_frame i : i ∈ all_items c → message_content whole !! key i = Some (frame_of (i_raw i)).
Proof.
  intros Hi. unfold tables_upto, tables_of. cbn [message_content]. rewrite (whole_items s c Hok).
  apply elem_of_list_to_map_1.
  - pose proof (items_keys s c Hok) as Hk. by rewrite <- frames_keys in Hk.
  - unfold frames. by apply (list_elem_of_fmap_2 (λ i, (key i, frame_of (i_raw i)))).
Qed.
Lemma filter_unique {A : Type} (f : A → bytes) (q : A → bool) l x :
  NoDup (map f l) → x ∈ l → q x = true → (∀ y, y ∈ l → q y = true → f y = f x) → List.filter q l = [x].
Proof.
  intros Hnd Hx Hq Hy. induction l as [|y l IH]; [by apply elem_of_nil in Hx|]. cbn [map] in Hnd.
  apply NoDup_cons in Hnd as [Hn Hnd]. simpl. apply elem_of_cons in Hx as [<-|Hx].
  - rewrite Hq. f_equal. destruct (List.filter q l) as [|z k] eqn:Hf; [done|]. exfalso.
    assert (Hz : z ∈ List.filter q l) by (rewrite Hf; by left). apply elem_of_filter_b in Hz as [Hz Hqz]. apply Hn. rewrite <- (Hy z); [|by right|done].
    by apply list_elem_of_fmap_2.
  - destruct (q y) eqn:Hqy.
    + exfalso. apply Hn. rewrite (Hy y); [|by left|done]. by apply list_elem_of_fmap_2.
    + apply IH; [done|done|]. intros z Hz. apply Hy. by right.
Qed.

(** The tables keep every rule of the store. *)
Lemma whole_wf : wf whole.
Proof.
  split; [split|by apply (whole_indexed s)].
  - rewrite whole_messages. apply ascending_records, (items_sorted s c Hok).
  - rewrite whole_messages, map_map. apply (items_ids s c Hok).
  - by apply (whole_content s).
  - apply Forall_forall. intros r Hr. apply (rows_in_whole s c Hok) in Hr as [Hs Hr]. split; [done|]. by apply attachment_okb_spec.
  - intros tag k. unfold tables_upto at 1, tables_of at 1. cbn [message_tags]. rewrite union_tags, (whole_items s c Hok), whole_messages.
    split.
    + intros (i & Hi & <- & Ht). exists (i_record i). split; [by apply (list_elem_of_fmap_2 i_record)|done].
    + intros (m & (i & -> & Hi)%list_elem_of_fmap & <- & Ht). by exists i.
Qed.
Lemma content_row_whole i : i ∈ all_items c → content_row (id (i_record i)) whole = Some (i_record i, frame_of (i_raw i)).
Proof.
  intros Hi. unfold content_row. rewrite whole_messages.
  rewrite (filter_unique id (λ m, beqb (id m) (id (i_record i))) _ (i_record i)).
  - cbn [omap list_omap]. change (seq (i_record i)) with (key i). by rewrite whole_frame.
  - rewrite map_map. exact (items_ids s c Hok).
  - by apply (list_elem_of_fmap_2 i_record).
  - by apply beqb_spec.
  - intros m _ Hm. by apply beqb_spec in Hm.
Qed.
Lemma decompress_label frame n x y raw : decompress frame n x = Ok raw → decompress frame n y = Ok raw.
Proof.
  unfold decompress. destruct (n <? 0)%Z; [done|]. destruct (zstd_content_size frame) as [[d|]|]; try done.
  destruct (d =? _)%Z; [|done]. destruct (zstd_decompress frame _) as [r|]; [|done]. by destruct (length r =? _).
Qed.
Lemma frame_read i x : i ∈ all_items c → readable i → decompress (frame_of (i_raw i)) (m_size (i_record i)) x = Ok (i_raw i).
Proof.
  intros Hi Hr. pose proof (items_size s c Hok) as Hs. rewrite Forall_forall in Hs. rewrite (Hs i Hi). by eapply decompress_label.
Qed.
Lemma query_ok {A : Type} (f : Tables → A) w : faults w = [] → query f w = Some (Ok (f (Store.db w)), w).
Proof.
  intros Hf. unfold query, exec, roll, apply_stmt, mbind, M_mbind. rewrite Hf. simpl. destruct w; simpl in *. by subst.
Qed.
Lemma get_raw_whole i w : i ∈ all_items c → readable i → Store.db w = whole → faults w = [] →
  get_raw (id (i_record i)) w = Some (Ok (i_raw i), w).
Proof.
  intros Hi Hr Hw Hf. unfold get_raw, mbind, M_mbind. rewrite query_ok, Hw, content_row_whole by done.
  unfold lift. by rewrite frame_read.
Qed.

(** ** Attachments of schema 0 *)

Lemma omap_unique {A B : Type} (f : A → bytes) (g : A → option B) l x y :
  NoDup (map f l) → x ∈ l → g x = Some y → (∀ z, z ∈ l → f z ≠ f x → g z = None) → omap g l = [y].
Proof.
  intros Hnd Hx Hg Hz. induction l as [|z l IH]; [by apply elem_of_nil in Hx|]. cbn [map] in Hnd.
  apply NoDup_cons in Hnd as [Hn Hnd]. cbn [omap list_omap]. apply elem_of_cons in Hx as [<-|Hx].
  - rewrite Hg. f_equal. destruct (omap g l) as [|v k] eqn:Ho; [done|]. exfalso.
    assert (Hv : v ∈ omap g l) by (rewrite Ho; by left). apply list_elem_of_omap in Hv as (u & Hu & Hgu).
    rewrite (Hz u) in Hgu; [done|by right|]. intros Heq. apply Hn. rewrite <- Heq. by apply list_elem_of_fmap_2.
  - rewrite (Hz z); [|by left|].
    + apply IH; [done|done|]. intros u Hu. apply Hz. by right.
    + intros Heq. apply Hn. rewrite Heq. by apply list_elem_of_fmap_2.
Qed.
Lemma attachment_row_whole i r : i ∈ all_items c → r ∈ attachments whole → message_seq r = key i →
  attachment_rows (id (i_record i)) (λ x, beqb (a_id x) (a_id r)) whole =
  [{| row := r; row_message_id := id (i_record i); raw_size := m_size (i_record i);
      row_compressed_raw := match raw_offset r with None => None | Some _ => Some (frame_of (i_raw i)) end |}].
Proof.
  intros Hi Hr Hs. unfold attachment_rows. apply (omap_unique a_id _ _ r).
  - exact (rows_ids s c Hok 0 (last_key c)).
  - done.
  - rewrite (proj2 (beqb_spec _ _) eq_refl), whole_messages.
    rewrite (filter_unique id _ _ (i_record i)).
    + cbn [head mbind option_bind]. change (seq (i_record i)) with (key i). by rewrite whole_frame.
    + rewrite map_map. exact (items_ids s c Hok).
    + by apply (list_elem_of_fmap_2 i_record).
    + apply andb_true_iff. split; [by apply beqb_spec|]. apply Z.eqb_eq. by rewrite Hs.
    + intros m _ [Hm _]%andb_true_iff. by apply beqb_spec in Hm.
  - intros z _ Hz. destruct (beqb (a_id z) (a_id r)) eqn:Hb; [|done]. by apply beqb_spec in Hb.
Qed.
(** The plan of an attachment, served from the row it becomes. *)
Lemma plan_served m located index a frame x :
  (Z.of_nat (length (lm_raw m)) ≤ U64_MAX)%Z →
  decompress frame (Z.of_nat (length (lm_raw m))) x = Ok (lm_raw m) →
  let r := planned_row (plan_attachment m located index a) in
  into_attachment {| row := r; row_message_id := x; raw_size := Z.of_nat (length (lm_raw m));
                     row_compressed_raw := match raw_offset r with None => None | Some _ => Some frame end |} =
  Ok {| att := {| as_id := am_id (meta a); as_message_id := x; as_filename := am_filename (meta a);
                  as_content_type := am_content_type (meta a); as_content_id := am_content_id (meta a);
                  as_size := am_size (meta a) |};
        att_content := content a |}.
Proof.
  intros Hmax Hd. unfold plan_attachment. cbv zeta.
  match goal with |- context [match ?v with Some l => Located l | None => _ end] => destruct v as [l|] eqn:Hv end; [|done].
  match type of Hv with (?cand ≫= _) = _ => destruct cand as [l'|]; [|done] end. cbn [mbind option_bind] in Hv.
  destruct (reproduces (lm_raw m) l' a) eqn:Hrep; [|done]. injection Hv as ->. unfold reproduces in Hrep.
  destruct (get_range _ _ _) as [slice|] eqn:Hs; [|done]. cbn [mbind option_bind] in Hrep.
  destruct (decode_body _ slice) as [decoded|] eqn:Hdec; [|done]. apply andb_true_iff in Hrep as [->%beqb_spec Hsize].
  assert (Hr := Hs). apply get_range_spec in Hr as [[_ Hle] _].
  unfold into_attachment, planned_row. cbn [row row_compressed_raw raw_size row_message_id pa_storage a_content raw_offset raw_len a_size transfer_encoding fmap option_fmap option_map].
  rewrite Hd. cbn [result_map mbind result_mbind result_bind option_bind]. rewrite from_code_code. cbn [mbind option_bind].
  rewrite located_body_spec, Hs by done. cbn [mbind option_bind pa_meta]. by rewrite Hdec, Hsize.
Qed.
Lemma get_attachment_whole d m a w :
  c = Schema0 d → m ∈ l_messages d → a ∈ l_attachments d → la_message_id a = l_id m →
  has_attachments_table (columns d) = true → readable (legacy_item (columns d) m) →
  (Z.of_nat (length (l_raw m)) ≤ U64_MAX)%Z → Store.db w = whole → faults w = [] →
  get_attachment (l_id m) (am_id (la_meta a)) w =
    Some (Ok {| att := {| as_id := am_id (la_meta a); as_message_id := l_id m; as_filename := am_filename (la_meta a);
                          as_content_type := am_content_type (la_meta a); as_content_id := am_content_id (la_meta a);
                          as_size := am_size (la_meta a) |};
                att_content := la_content a |}, w).
Proof.
  intros Hc Hm Ha Hparent Ht Hread Hmax Hw Hf. set (i := legacy_item (columns d) m).
  assert (Hi : i ∈ all_items c) by (rewrite Hc; by apply (list_elem_of_fmap_2 (legacy_item (columns d)))).
  set (la := {| meta := la_meta a; content := la_content a |}).
  assert (Hla : la ∈ attachments_of d m).
  { unfold attachments_of. apply (list_elem_of_fmap_2 (λ a, {| meta := la_meta a; content := la_content a |})).
    apply elem_of_filter_b. split; [done|]. by apply beqb_spec. }
  apply list_elem_of_lookup in Hla as [n Hn]. set (lm := {| lm_seq := rowid m; lm_raw := l_raw m; lm_attachments := attachments_of d m |}).
  assert (Hplan : ∃ located, planned_row (plan_attachment lm located n la) ∈ attachments whole).
  { eexists. unfold tables_upto, tables_of. cbn [attachments]. rewrite (whole_rows s c Hok), Hc, Ht.
    apply (list_elem_of_fmap_2 planned_row). apply list_elem_of_In, in_flat_map. exists m. split; [by apply list_elem_of_In|].
    apply list_elem_of_In. unfold plan_row, plan_message. fold lm. cbv zeta. apply elem_of_lookup_imap. by exists n, la. }
  destruct Hplan as [located Hr]. set (r := planned_row (plan_attachment lm located n la)) in *.
  unfold get_attachment, mbind, M_mbind. rewrite query_ok, Hw by done.
  change (am_id (la_meta a)) with (a_id r). change (l_id m) with (id (i_record i)). rewrite (attachment_row_whole i r) by done.
  cbv iota. unfold lift. change (m_size (i_record i)) with (Z.of_nat (length (lm_raw lm))).
  unfold r at 1. rewrite (plan_served lm located n la (frame_of (i_raw i)) (id (i_record i))); [done|done|].
  change (Z.of_nat (length (lm_raw lm))) with (m_size (i_record i)). by apply frame_read.
Qed.

(** ** Attachments of schema 1 *)

(** What an attachment of schema 1 holds: the bytes kept in its row, or what its
    place in the message's source decodes to, if that has the length it was stored
    with. *)
Definition carried_content (raw : bytes) (a : AttachmentRecord) : option bytes :=
  match a_content a with
  | Some content => Some content
  | None =>
    e ← transfer_encoding a ≫= from_code;
    body ← located_body raw (raw_offset a) (raw_len a);
    decoded ← decode_body e body;
    if bool_decide (a_size a = Some (Z.of_nat (length decoded))) then Some decoded else None
  end.
Lemma carried_served i a : i ∈ all_items c → readable i → attachment_okb a = true →
  let r := {| row := a; row_message_id := id (i_record i); raw_size := m_size (i_record i);
              row_compressed_raw := match raw_offset a with None => None | Some _ => Some (frame_of (i_raw i)) end |} in
  match carried_content (i_raw i) a with
  | Some content => into_attachment r = Ok {| att := attachment_summary (id (i_record i)) a; att_content := content |}
  | None => ∃ actual, into_attachment r =
      Err (AttachmentCorrupt (id (i_record i)) (a_id a) (transfer_encoding a) (a_size a) actual)
  end.
Proof.
  intros Hi Hr Hok' r. unfold into_attachment, carried_content, r. cbn [row row_compressed_raw raw_size row_message_id].
  unfold attachment_okb in Hok'. destruct (a_content a) as [content|], (raw_offset a) as [o|]; try done.
  rewrite (frame_read i) by done. cbn [result_map mbind result_mbind result_bind option_bind].
  destruct (transfer_encoding a ≫= from_code) as [e|]; cbn [mbind option_bind]; [|by eexists].
  destruct (located_body _ _ _) as [body|]; cbn [mbind option_bind]; [|by eexists].
  destruct (decode_body e body) as [decoded|]; cbn [mbind option_bind]; [|by eexists].
  by destruct (bool_decide _); [|eexists].
Qed.
Lemma carried_item d m : c = Schema1 d → m ∈ p_messages d →
  ∃ body i, p_content d !! seq m = Some body ∧ i ∈ all_items c ∧ i_record i = m ∧ i_raw i = c_raw body.
Proof.
  intros Hc Hm. assert (Hd : previous_ok d) by (subst c; by destruct s).
  destruct (po_content d Hd m Hm) as (body & Hb & Hsize). rewrite Hc. cbn [all_items].
  destruct (previous_item d m) as [i|] eqn:Hi; unfold previous_item in Hi; rewrite Hb in Hi; [|done].
  exists body, i. split_and!; [done| |injection Hi as <-; cbn [i_record]; rewrite <- Hsize; by destruct m|by injection Hi as <-].
  apply list_elem_of_omap. exists m. split; [done|]. unfold previous_item. by rewrite Hb.
Qed.
Lemma get_carried_whole d i n a w :
  c = Schema1 d → i ∈ all_items c → readable i → (n, a) ∈ p_attachments d → message_seq a = key i →
  Store.db w = whole → faults w = [] →
  match carried_content (i_raw i) a with
  | Some content => get_attachment (id (i_record i)) (a_id a) w =
      Some (Ok {| att := attachment_summary (id (i_record i)) a; att_content := content |}, w)
  | None => ∃ actual, get_attachment (id (i_record i)) (a_id a) w =
      Some (Err (AttachmentCorrupt (id (i_record i)) (a_id a) (transfer_encoding a) (a_size a) actual), w)
  end.
Proof.
  intros Hc Hi Hr Ha Hseq Hw Hf. assert (Hin : a ∈ attachments whole).
  { unfold tables_upto, tables_of. cbn [attachments]. rewrite (whole_rows s c Hok), Hc. by apply (list_elem_of_fmap_2 snd _ (n, a)). }
  pose proof (rows_in_whole s c Hok a Hin) as [_ Hok']. pose proof (carried_served i a Hi Hr Hok') as Hserved.
  unfold get_attachment, mbind, M_mbind. rewrite query_ok, Hw, (attachment_row_whole i a) by done. unfold lift.
  cbv zeta in Hserved. destruct (carried_content _ _); [by rewrite Hserved|].
  destruct Hserved as [actual ->]. by exists actual.
Qed.
End served.
