(* ===== verification/MigrateRestored.v ===== *)
(** What [restore_backup] of [crates/rustmail-storage/src/migrate/restore.rs]
    promises of the files, whatever interrupts it. *)
From S2P Require Import Prelude RustStd StorageError Content MailParser Locator Prepared Query Database Tables OldDb Fingerprint MigrateDisk MigrateBuild Migrate MigrateRestore MigrateWork MigrateCopies MigrateChecks MigrateLogic MigrateLucky MigrateStates MigrateBatches MigrateTarget MigrateSafe MigrateRecovery.
From S2P Require Schema.

Section restored.
Context `{Json, !JsonLaws, Zstd, MailParser, Machine}.
Context (path : bytes) (s : SourceSchema.t) (src new : DbFile) (print : SourcePrint) (base : gmap bytes DbFile).
Abbreviation p := (paths_of path).
Abbreviation D := (db p).
Abbreviation M := (migrating p).
Abbreviation B := (backup p s).
Abbreviation c := (contents src).
Abbreviation fp := (fingerprint_text print).
Context (Hok : source_ok s c) (Hversion : user_version src = SourceSchema.version s).
Context (Hprint : fingerprint (layout_probe c s) c = Ok (Some print)).

(** A current database that says it was made from the source. *)
Record made_of (f : DbFile) : Prop := {
  mo_current : probe f = Ok Schema.Current;
  mo_origin : ∃ o, read_origin f = Some o ∧ source_schema o = SourceSchema.version s ∧ made_from o fp = true;
}.
(** What a migration finished is one, and stays one with the mail it takes. *)
Lemma finished_made f : finished s src print f → made_of f.
Proof.
  intros Hf. split; [by apply probe_finished in Hf|]. pose proof (co_origin _ _ _ _ _ _ Hf) as (r & Hr & Ho).
  destruct (origin_read _ _ _ _ _ _ Hr Ho) as (o & Ho1 & _ & Ho2 & _ & Ho3). by exists o.
Qed.
Lemma finished_grown f t : finished s src print f → made_of (f <| contents := Schema2 t |>).
Proof.
  intros Hf. destruct (finished_made f Hf) as [_ Ho]. split; [|exact Ho].
  pose proof (co_version _ _ _ _ _ _ Hf) as Hv. unfold probe, Schema.probe. simpl. by rewrite Hv.
Qed.
Context (Hnew : made_of new) (Hclock : is_timestamp utc_now = true).

(** The name the migrated database is kept under. *)
Definition kept : bytes := sidecar D (KEPT_SUFFIX ++ utc_now).
Definition restore_names : list bytes := kept :: path_names path.
Definition is_kept (q : bytes) : bool :=
  match strip_prefix (sidecar D KEPT_SUFFIX) q with Some rest => is_timestamp rest | None => false end.
(** No database was kept before; the rest of the directory is as it was. *)
Context (Hbase : ∀ q, is_kept q = true → q ≠ kept → base !! q = None).

Definition restore_own : gset bytes := {[ D; M; B; lock p; kept ]}.
Definition stay (fs : gmap bytes DbFile) : Prop := ∀ q, q ∉ restore_own → fs !! q = base !! q.
Definition files_are (d b k : option DbFile) (fs : gmap bytes DbFile) : Prop :=
  fs !! D = d ∧ fs !! B = b ∧ fs !! kept = k ∧ fs !! M = None ∧ stay fs.
#[local] Arguments files_are : simpl never.
(** Migrated; the migrated database moved away; the source back in its place. *)
Definition Migrated : gmap bytes DbFile → Prop := files_are (Some new) (Some src) None.
Definition MovedAway : gmap bytes DbFile → Prop := files_are None (Some src) (Some new).
Definition Restored : gmap bytes DbFile → Prop := files_are (Some src) None (Some new).
Definition Restorable (fs : gmap bytes DbFile) : Prop := Migrated fs ∨ MovedAway fs ∨ Restored fs.

(** ** The names *)

Lemma not_kept b rest : b ∈ name_suffixes → b ≠ KEPT_SUFFIX ++ rest.
Proof.
  intros Hb Heq. assert (Hs : strip_prefix KEPT_SUFFIX b = Some rest) by (by apply strip_prefix_spec).
  assert (Hnone : Forall (λ b, strip_prefix KEPT_SUFFIX b = None) name_suffixes) by (repeat constructor).
  rewrite Forall_forall in Hnone. rewrite Hnone in Hs by done. done.
Qed.
Lemma clock_ends : ∃ x, utc_now = x ++ b#"Z".
Proof.
  pose proof Hclock as Hc. unfold is_timestamp in Hc. destruct (strip_suffix b#"Z" utc_now) as [x|] eqn:Hs; [|done].
  apply strip_suffix_spec in Hs. by exists x.
Qed.
Lemma restore_names_suffixes : restore_names = map (app path) ((KEPT_SUFFIX ++ utc_now) :: name_suffixes).
Proof. unfold restore_names. by rewrite path_names_suffixes. Qed.
#[local] Instance restore_apart : Apart restore_names.
Proof.
  clear -Hclock. intros p q Hp Hq Hin. rewrite restore_names_suffixes in Hp, Hq.
  apply list_elem_of_fmap in Hp as (a & -> & Ha), Hq as (b & -> & Hb). unfold side_names, side_files, sidecar in Hin.
  rewrite !elem_of_union, !elem_of_singleton, <- !app_assoc in Hin.
  assert (Hab : ∃ e, e ∈ [WAL_SUFFIX; SHM_SUFFIX; JOURNAL_SUFFIX] ∧ b = a ++ e).
  { destruct Hin as [[Hin|Hin]|Hin]; apply app_inv_head in Hin; eexists; (split; [|exact Hin]); set_solver. }
  clear Hin. destruct Hab as (e & He & Heq). apply elem_of_cons in Hb as [->|Hb].
  - destruct clock_ends as [x Hx]. change b#"Z" with ["Z"%char] in Hx. rewrite Hx, app_assoc in Heq. apply (f_equal last) in Heq. rewrite last_snoc, last_app in Heq.
    rewrite !elem_of_cons, elem_of_nil in He. destruct He as [->|[->|[->|[]]]]; done.
  - apply elem_of_cons in Ha as [->|Ha].
    + rewrite <- app_assoc in Heq. by apply not_kept in Heq.
    + pose proof suffixes_apart as Hs. rewrite Forall_forall in Hs. specialize (Hs a Ha). rewrite Forall_forall in Hs.
      apply (Hs b Hb). rewrite Heq. by apply (list_elem_of_fmap_2 (app a)).
Qed.
Lemma kept_new q : q ∈ path_names path → kept ≠ q.
Proof.
  rewrite path_names_suffixes. intros (b & -> & Hb)%list_elem_of_fmap Heq. unfold kept, sidecar in Heq. apply app_inv_head in Heq.
  symmetry in Heq. by apply not_kept in Heq.
Qed.
Lemma is_kept_name q : q ∈ path_names path → is_kept q = false.
Proof.
  rewrite path_names_suffixes. intros (b & -> & Hb)%list_elem_of_fmap. unfold is_kept.
  destruct (strip_prefix _ _) as [rest|] eqn:Hs; [|done]. apply strip_prefix_spec in Hs. unfold sidecar in Hs.
  rewrite <- app_assoc in Hs. apply app_inv_head in Hs. by apply not_kept in Hs.
Qed.
Lemma is_kept_kept : is_kept kept = true.
Proof.
  unfold is_kept. replace (strip_prefix (sidecar D KEPT_SUFFIX) kept) with (Some utc_now); [exact Hclock|].
  symmetry. apply strip_prefix_spec. unfold kept, sidecar. by rewrite <- app_assoc.
Qed.
Lemma only_kept fs q : stay fs → is_kept q = true → q ≠ kept → fs !! q = None.
Proof.
  intros Hs Hq Hne. rewrite Hs; [by apply Hbase|]. unfold restore_own. rewrite !elem_of_union, !elem_of_singleton.
  intros [[[[->| ->]| ->]| ->]|Hk]; [..|done];
    rewrite is_kept_name in Hq by first [apply D_main|apply M_main|apply B_main|apply lock_main]; done.
Qed.

(** ** The parts *)

Implicit Types (F : gmap bytes DbFile → Prop) (d q : bytes) (l : list bytes) (e : StorageError) (h : halt).
Abbreviation keeps F c G := (does False restore_names F nothing c G (λ _, nothing) Restorable).
Lemma keeps_any {A : Type} F (C : bytes → Prop) (k : FS A) (G : A → gmap bytes DbFile → Prop) (D : A → bytes → Prop) :
  does False restore_names F C k G D Restorable → keeps F k G.
Proof.
  intros Hk w Hw (HF & Ht & _). eapply wp_mono; [apply (Hk w Hw); by split_and!|]. intros [a|h] w' [Hw' Hr]; split; try done.
  destruct Hr as (HG & Ht' & _). by split_and!.
Qed.
Lemma keeps_bind {A B : Type} F (k : FS A) (k' : A → FS B) G H' :
  keeps F k G → (∀ a, keeps (G a) (k' a) H') → keeps F (k ≫= k') H'.
Proof. intros Hk Hk'. by rule does_bind. Qed.
Lemma keeps_refuse {A : Type} F e (G : A → gmap bytes DbFile → Prop) : (∀ fs, F fs → Restorable fs) → keeps F (refuse e) G.
Proof. intros HF. rule does_refuse. intros fs Hfs. split; [by intros []|auto]. Qed.
Lemma keeps_fail {A : Type} F h (G : A → gmap bytes DbFile → Prop) : (∀ fs, F fs → Restorable fs) → keeps F (fail h) G.
Proof. intros HF. rule does_fail. intros fs Hfs. split; [by intros []|auto]. Qed.
Lemma keeps_refuse_each d l F : (∀ fs, F fs → Restorable fs) → keeps F (refuse_each d l) (λ _, F).
Proof.
  intros HF. induction l as [|x l IH]; [by rule does_ret|]. cbn [refuse_each]. unfold exists_.
  rule (does_bind False _ _ _ _ _ (λ _, F) (λ _, nothing)).
  - rule does_bind; [by rule does_blocking|]. intros []. rule run_post; [by rule run_gets|]. by intros b v [? _].
  - intros []; [by apply keeps_refuse|done].
Qed.
Lemma keeps_attempt {A : Type} F (k : FS A) (G : A → gmap bytes DbFile → Prop) :
  keeps F k G → keeps F (attempt k) (λ r fs, match r with Ok a => G a fs | Err _ => Restorable fs end).
Proof. intros Hk. rule does_post; [rule does_attempt; exact Hk| |by intros [a|h]]. intros [a|h] fs; [done|by intros []]. Qed.

(** One of the three states, whichever. *)
Abbreviation steady F := (∀ fs, F fs → Restorable fs).
Lemma keeps_invalid {A : Type} F (b : bytes) (source : SourceSchema.t) h (G : A → gmap bytes DbFile → Prop) : steady F → keeps F (invalid b source h) G.
Proof. intros HF. destruct h as [e|]; [by apply keeps_refuse|by apply keeps_fail]. Qed.
Lemma keeps_check_backup F : steady F → (∀ fs, F fs → fs !! B = Some src) → keeps F (check_backup B s) (λ _, F).
Proof.
  intros HF HB. unfold check_backup. apply (keeps_bind _ _ _ (λ r fs, match r with Ok _ => F fs | Err _ => Restorable fs end)).
  { apply keeps_attempt. eapply (keeps_any _ nothing). rule does_connect; [right; apply B_main|by intros fs Hfs; rewrite HB|done]. }
  intros [[]|h]; [|by apply keeps_invalid].
  apply (keeps_bind _ _ _ (λ r fs, match r with Ok _ => F fs | Err _ => Restorable fs end)).
  { apply keeps_attempt. rule does_step; [rule (does_read_known False _ B src); done|]. intros f ->.
    destruct (probe_source s src Hok Hversion) as (x & -> & Hx). rule does_val. rule does_seq; [by rule does_sql|]. by rule does_ret. }
  intros checked. apply (keeps_bind _ _ _ (λ _ fs, match checked with Ok _ => F fs | Err _ => Restorable fs end)).
  { eapply (keeps_any _ nothing). rule does_close. destruct checked; [done|]. done. }
  intros []. destruct checked as [[schema whole]|h]; [|by apply keeps_invalid].
  destruct (_ && _); [by rule does_ret|by apply keeps_refuse].
Qed.

(** ** Between the states *)

Lemma names_in_own q : q ∈ [D; M; B; lock p; kept] → q ∈ restore_own.
Proof. unfold restore_own. set_solver. Qed.
Lemma kept_apart : kept ≠ D ∧ kept ≠ B ∧ kept ≠ M ∧ kept ≠ lock p.
Proof. split_and!; apply kept_new; [apply D_main|apply B_main|apply M_main|apply lock_main]. Qed.
Lemma stay_move from to (f : DbFile) fs :
  from ∈ restore_own → to ∈ restore_own → stay fs → stay (<[to := f]> (delete from fs)).
Proof.
  intros Hf Ht Hs q Hq. rewrite lookup_insert_ne by (by intros ->). rewrite lookup_delete_ne by (by intros ->). by apply Hs.
Qed.
Lemma migrated_away fs : Migrated fs → fs !! D = Some new ∧ MovedAway (<[kept := new]> (delete D fs)).
Proof.
  intros (Hd & Hb & Hk & Hm & Hs). destruct kept_apart as (Hk1 & Hk2 & Hk3 & _). pose proof (M_not_D path). pose proof (B_not_D path s).
  split; [done|]. split_and!.
  - by rewrite lookup_insert_ne, lookup_delete_eq.
  - by rewrite lookup_insert_ne, lookup_delete_ne.
  - by rewrite lookup_insert_eq.
  - by rewrite lookup_insert_ne, lookup_delete_ne.
  - apply stay_move; [apply names_in_own; set_solver..|done].
Qed.
Lemma away_restored fs : MovedAway fs → fs !! B = Some src ∧ Restored (<[D := src]> (delete B fs)).
Proof.
  intros (Hd & Hb & Hk & Hm & Hs). destruct kept_apart as (Hk1 & Hk2 & Hk3 & _). pose proof (M_not_D path). pose proof (B_not_D path s).
  pose proof (B_not_M path s). split; [done|]. split_and!.
  - by rewrite lookup_insert_eq.
  - by rewrite lookup_insert_ne, lookup_delete_eq.
  - by rewrite lookup_insert_ne, lookup_delete_ne.
  - by rewrite lookup_insert_ne, lookup_delete_ne.
  - apply stay_move; [apply names_in_own; set_solver..|done].
Qed.
Lemma migrated_steady : steady Migrated. Proof. by left. Qed.
Lemma away_steady : steady MovedAway. Proof. right. by left. Qed.
Lemma restored_steady : steady Restored. Proof. right. by right. Qed.
Hint Resolve migrated_steady away_steady restored_steady : core.

Definition reported (r : RestoreReport) (fs : gmap bytes DbFile) : Prop :=
  Restored fs ∧ database r = D ∧ restored_from r = B ∧ kept_as r = kept.
Lemma keeps_put_back : keeps MovedAway (put_backup_in_place p B kept) reported.
Proof.
  unfold put_backup_in_place. apply (keeps_bind _ _ _ (λ _, Restored)).
  - rule does_rename; [right; apply D_main|auto|]. intros fs Hfs. exists src. by apply away_restored.
  - intros []. apply (keeps_bind _ _ _ (λ _, Restored)); [rule does_blocking; auto|]. intros []. by rule does_ret.
Qed.

(** The kept file is the only one of its kind. *)
Lemma kept_names_one fs : MovedAway fs → kept_names D (map fst (map_to_list fs)) = [kept].
Proof.
  intros (Hd & Hb & Hk & Hm & Hs). unfold kept_names.
  set (l := List.filter _ _). assert (Hl : l = [kept]); [|by rewrite Hl].
  assert (Hnd : NoDup l).
  { unfold l. apply NoDup_ListNoDup, List.NoDup_filter, NoDup_ListNoDup. apply NoDup_fst_map_to_list. }
  assert (Hin : ∀ q, q ∈ l ↔ q = kept).
  { intros q. unfold l. rewrite elem_of_filter_b. fold (is_kept q). split.
    - intros [Hq Hkq]. destruct (decide (q = kept)) as [|Hne]; [done|]. exfalso.
      apply list_elem_of_fmap in Hq as ([q' f] & -> & Hq). apply elem_of_map_to_list in Hq.
      cbn [fst] in *. by rewrite (only_kept fs _ Hs Hkq Hne) in Hq.
    - intros ->. split; [|exact is_kept_kept]. apply list_elem_of_fmap. exists (kept, new). split; [done|].
      by apply elem_of_map_to_list. }
  destruct l as [|x [|y l']].
  - pose proof (proj2 (Hin kept) eq_refl) as Hn. by apply elem_of_nil in Hn.
  - f_equal. apply Hin. by left.
  - exfalso. apply NoDup_cons in Hnd as [Hx _]. apply Hx. rewrite (proj1 (Hin x)) by (by left).
    rewrite (proj1 (Hin y)) by (right; by left). by left.
Qed.

(** ** The runs *)

Lemma expected_of x : probe src = Ok x → state_of x = Older s.
Proof. intros Hx. destruct (probe_source s src Hok Hversion) as (y & Hy & Hs). congruence. Qed.
Lemma new_current : probe new = Ok Schema.Current.
Proof. apply Hnew. Qed.
Lemma new_origin : ∃ o, read_origin new = Some o ∧ source_schema o = SourceSchema.version s ∧ made_from o fp = true.
Proof. apply Hnew. Qed.
Lemma version_back : SourceSchema.from_version (SourceSchema.version s) = Some s.
Proof. by destruct s. Qed.
Lemma keeps_seq {B : Type} F (k : FS unit) (k' : unit → FS B) G : keeps F k (λ _, F) → keeps F (k' tt) G → keeps F (k ≫= k') G.
Proof. intros Hk Hk'. by rule does_seq. Qed.
Lemma keeps_known {A B : Type} (a : A) F (k : FS A) (k' : A → FS B) G :
  keeps F k (λ r fs, F fs ∧ r = a) → keeps F (k' a) G → keeps F (k ≫= k') G.
Proof. intros Hk Hk'. rule (does_step _ _ (λ r, r = a)); [exact Hk|]. by intros r ->. Qed.
Lemma keeps_exists q (b : bool) F : q ∈ restore_names → steady F → (∀ fs, F fs → bool_decide (is_Some (fs !! q)) = b) →
  keeps F (exists_ q) (λ r fs, F fs ∧ r = b).
Proof.
  intros Hq HF Hb. rule run_post; [rule (does_exists False _ q F); [done|done]|]. intros r v [[Hfs ->] ?]. split; [|done].
  split; [done|]. by apply Hb.
Qed.
Lemma keeps_immutable {A : Type} q (f : DbFile) F (k : FS A) G :
  steady F → (∀ fs, F fs → fs !! q = Some f) → (∀ a fs, G a fs → Restorable fs) → keeps F k G → keeps F (with_immutable q k) G.
Proof.
  intros HF Hq HG Hk. unfold with_immutable. apply keeps_seq; [by rule does_sql|].
  apply (keeps_known true).
  - rule run_post; [by rule run_gets|]. intros r v [(HF' & Ht & HC) ->]. split_and!; try done. apply bool_decide_eq_true. simpl. by rewrite Hq.
  - apply (keeps_bind _ _ _ (λ r fs, match r with Ok a => G a fs | Err _ => Restorable fs end)); [by apply keeps_attempt|].
    intros r. apply (keeps_bind _ _ _ (λ _ fs, match r with Ok a => G a fs | Err _ => Restorable fs end)).
    + rule does_sql. destruct r; [apply HG|done].
    + intros []. rule does_give. destruct r; [done|]. intros fs Hfs. split; [by intros []|done].
Qed.
Lemma keeps_migrated_from q (immutable : bool) F : q ∈ restore_names → steady F → (∀ fs, F fs → fs !! q = Some new) →
  keeps F (migrated_from q immutable) (λ r fs, F fs ∧ ∃ o, r = Some (s, o) ∧ made_from o fp = true).
Proof.
  intros Hq HF Hnq. destruct new_origin as (o & Ho & Hs & Hm). unfold migrated_from.
  apply (keeps_known (Some o)).
  - assert (Hbody : keeps F (f ← read_file q; mret (read_origin f)) (λ r fs, F fs ∧ r = Some o)).
    { rule does_step; [rule (does_read_known False _ q new); done|]. intros f ->. rewrite Ho. by rule does_ret. }
    destruct immutable.
    + eapply keeps_immutable; [done|exact Hnq|by intros r fs [? _]; apply HF|exact Hbody].
    + eapply (keeps_any _ nothing). rule does_with_connection; [done|by intros fs Hfs; rewrite Hnq|done|by intros r fs [? _]; apply HF|].
      rule does_post; [rule does_pre; [exact Hbody|done|by intros y []]|done|]. intros a y [[] _].
  - rule does_ret; [|done]. intros fs Hfs. split; [done|]. exists o. split; [|done]. cbn [mbind option_bind]. rewrite Hs, version_back. done.
Qed.

Lemma kept_main : kept ∈ restore_names. Proof. by left. Qed.
Lemma name_main q : q ∈ path_names path → q ∈ restore_names. Proof. by right. Qed.
Lemma keeps_gone {A : Type} (h : halt) F (k : FS A) (G : A → gmap bytes DbFile → Prop) :
  steady F → keeps F k G → keeps F (match h with Failed _ => k | Killed => fail Killed end) G.
Proof. intros HF Hk. destruct h; [done|by apply keeps_fail]. Qed.
Lemma keeps_inspect_kept : keeps MovedAway (inspect_db_immutable kept) (λ r fs, MovedAway fs ∧ r = DbCurrent).
Proof.
  unfold inspect_db_immutable. apply (keeps_known true).
  - apply keeps_exists; [apply kept_main|auto|]. intros fs (_ & _ & Hk & _). by rewrite Hk.
  - cbn [negb]. apply (keeps_known Schema.Current); [|by rule does_ret].
    apply (keeps_immutable kept new); [auto|by intros fs (_ & _ & Hk & _)|by intros r fs [? _]; auto|].
    rule does_step; [rule (does_read_known False _ kept new); [by intros fs (_ & _ & Hk & _)|auto]|]. intros f ->. rewrite new_current.
    by rule does_ret.
Qed.
Lemma keeps_interrupted_kept : keeps MovedAway (interrupted_kept_file p) (λ r fs, MovedAway fs ∧ r = (kept, B, s)).
Proof.
  unfold interrupted_kept_file. cbv zeta. apply (keeps_known [kept]).
  { unfold kept_files. apply keeps_seq; [rule does_blocking; auto|]. rule run_post; [by rule run_gets|].
    intros r v [(HF & Ht & HC) ->]. split_and!; [done| |done|done]. by apply kept_names_one. }
  cbn [last]. apply keeps_seq; [by apply keeps_refuse_each; auto|].
  apply (keeps_bind _ _ _ (λ r fs, match r with Ok d => MovedAway fs ∧ d = DbCurrent | Err _ => Restorable fs end)).
  { apply keeps_attempt, keeps_inspect_kept. }
  intros [d|h].
  2:{ destruct h; [by apply keeps_refuse|by apply keeps_fail]. }
  rule (does_with False _ (d = DbCurrent)); [by intros fs []|]. intros ->.
  rule (does_pre False _ _ MovedAway _ nothing); [|by intros fs []|done].
  rule does_step; [apply keeps_migrated_from; [apply kept_main|auto|by intros fs (_ & _ & Hk & _)]|].
  intros made (o & -> & Hm). apply (keeps_known true).
  { apply keeps_exists; [apply name_main, B_main|auto|]. intros fs (_ & Hb & _). by rewrite Hb. }
  cbn [negb]. apply keeps_seq; [apply keeps_refuse_each; auto|].
  apply (keeps_bind _ _ _ (λ r fs, match r with Ok d => MovedAway fs ∧ d = fp | Err _ => Restorable fs end)).
  { apply keeps_attempt. eapply (keeps_any _ nothing).
    rule (does_fingerprint_of False _ B s src print MovedAway nothing Restorable); [apply name_main, B_main|auto|by intros fs (_ & Hb & _)|done]. }
  intros [x|h].
  2:{ destruct h; [by apply keeps_refuse|by apply keeps_fail]. }
  rule (does_with False _ (x = fp)); [by intros fs []|]. intros ->. rewrite Hm. rule does_ret; [by intros fs []|done].
Qed.
Lemma keeps_finish : keeps MovedAway (finish_interrupted_restore p) reported.
Proof.
  unfold finish_interrupted_restore. rule does_step; [apply keeps_interrupted_kept|]. intros r ->.
  do 2 (apply keeps_seq; [apply keeps_refuse_each; auto|]).
  apply keeps_seq; [apply keeps_check_backup; [auto|by intros fs (_ & Hb & _)]|].
  do 2 (apply keeps_seq; [apply keeps_refuse_each; auto|]). apply keeps_put_back.
Qed.
Lemma keeps_checkpoint : keeps Migrated (checkpoint D) (λ _, Migrated).
Proof.
  unfold checkpoint. apply (keeps_bind _ _ _ (λ _, Migrated)).
  - eapply (keeps_any _ nothing). rule does_with_connection; [apply name_main, D_main|by intros fs (Hd & _); rewrite Hd|auto|auto|].
    rule does_seq; [rule does_sql; auto|]. rule run_post; [by rule run_gets|]. by intros a v [? _].
  - intros []; [by apply keeps_refuse; auto|by rule does_ret].
Qed.

(** ** The whole of it *)

Lemma keeps_any_of l F : (∀ q, q ∈ l → q ∈ restore_names) → steady F → (∀ fs, F fs → ∃ q, q ∈ l ∧ is_Some (fs !! q)) →
  keeps F (any_of l) (λ r fs, F fs ∧ r = true).
Proof.
  revert F. induction l as [|x l IH]; intros F Hl HF Hex.
  { rule (does_with False _ False); [|done]. intros fs Hfs. destruct (Hex fs Hfs) as (q & Hq & _). by apply elem_of_nil in Hq. }
  cbn [any_of]. rule does_exists_if; [apply Hl; by left|done|by rule does_ret; [intros fs []|]|].
  rule does_post; [apply (IH (λ fs, F fs ∧ fs !! x = None))| |done].
  - intros q Hq. apply Hl. by right.
  - intros fs []. by apply HF.
  - intros fs [Hfs Hx]. destruct (Hex fs Hfs) as (q & Hq & Hs). exists q. split; [|done].
    apply elem_of_cons in Hq as [->|Hq]; [|done]. rewrite Hx in Hs. by destruct Hs.
  - by intros r fs [[? _] ?].
Qed.
Lemma backup_among : B ∈ backups p.
Proof. unfold backups. destruct s; set_solver. Qed.
Lemma backups_main q : q ∈ backups p → q ∈ restore_names.
Proof.
  intros Hq. apply name_main. unfold backups in Hq. rewrite !elem_of_cons, elem_of_nil in Hq.
  destruct Hq as [->|[->|[]]]; [apply (B_main path SourceSchema.Legacy)|apply (B_main path SourceSchema.Previous)].
Qed.
Definition body : FS RestoreReport :=
  state ← inspect_db D;
  interrupted ← (if bool_decide (state = DbAbsent) then any_of (backups p) else mret false);
  if negb interrupted && negb (bool_decide (state = DbCurrent))
  then refuse (RestoreRefused (NotMigrated D (describe_db state)))
  else
    stray ← exists_ M;
    if (stray : bool) then refuse (RestoreRefused (MigrationCopyPresent D M))
    else if (interrupted : bool) then finish_interrupted_restore p
    else
      made ← migrated_from D false;
      match made with
      | None => refuse (RestoreRefused (NoBackup D (backup p SourceSchema.Previous)))
      | Some (source, _) =>
        let b := backup p source in
        there ← exists_ b;
        if negb there then refuse (RestoreRefused (NoBackup D b))
        else
          refuse_side_files D b;;
          check_backup b source;;
          refuse_side_files D b;;
          checkpoint D;;
          refuse_side_files D D;;
          taken ← exists_ kept;
          if (taken : bool) then refuse (RestoreRefused (KeptNameTaken kept))
          else rename D kept;; put_backup_in_place p b kept
      end.
Lemma keeps_db_known F (d : DbState) : steady F →
  (∀ fs, F fs → match fs !! D with None => d = DbAbsent | Some f => ∃ x, probe f = Ok x ∧ d = state_of x end) →
  keeps F (inspect_db D) (λ r fs, F fs ∧ r = d).
Proof. intros HF Hd. eapply (keeps_any _ nothing). rule does_inspect_db; [apply name_main, D_main|done|exact Hd]. Qed.
Lemma body_migrated : keeps Migrated body reported.
Proof.
  unfold body. apply (keeps_known DbCurrent).
  { apply keeps_db_known; [auto|]. intros fs (Hd & _). rewrite Hd. exists Schema.Current. split; [exact new_current|done]. }
  rewrite (bool_decide_eq_false_2 (DbCurrent = DbAbsent)) by done. apply (keeps_known false); [by rule does_ret|].
  rewrite (bool_decide_eq_true_2 (DbCurrent = DbCurrent)) by done. cbn [negb andb].
  apply (keeps_known false). { apply keeps_exists; [apply name_main, M_main|auto|]. intros fs (_ & _ & _ & Hm & _). by rewrite Hm. }
  rule does_step; [apply keeps_migrated_from; [apply name_main, D_main|auto|by intros fs (Hd & _)]|].
  intros made (o & -> & Hm). cbv zeta. apply (keeps_known true).
  { apply keeps_exists; [apply name_main, B_main|auto|]. intros fs (_ & Hb & _). by rewrite Hb. }
  cbn [negb]. apply keeps_seq; [apply keeps_refuse_each; auto|].
  apply keeps_seq; [apply keeps_check_backup; [auto|by intros fs (_ & Hb & _)]|].
  apply keeps_seq; [apply keeps_refuse_each; auto|]. apply keeps_seq; [apply keeps_checkpoint|].
  apply keeps_seq; [apply keeps_refuse_each; auto|]. apply (keeps_known false).
  { apply keeps_exists; [apply kept_main|auto|]. intros fs (_ & _ & Hk & _). by rewrite Hk. }
  apply (keeps_bind _ _ _ (λ _, MovedAway)); [|intros []; apply keeps_put_back].
  rule does_rename; [apply kept_main|auto|]. intros fs Hfs. exists new. by apply migrated_away.
Qed.
Lemma body_away : keeps MovedAway body reported.
Proof.
  unfold body. apply (keeps_known DbAbsent).
  { apply keeps_db_known; [auto|]. intros fs (Hd & _). by rewrite Hd. }
  rewrite (bool_decide_eq_true_2 (DbAbsent = DbAbsent)) by done. apply (keeps_known true).
  { apply keeps_any_of; [exact backups_main|auto|]. intros fs (_ & Hb & _). exists B. split; [apply backup_among|by rewrite Hb]. }
  cbn [negb andb]. apply (keeps_known false).
  { apply keeps_exists; [apply name_main, M_main|auto|]. intros fs (_ & _ & _ & Hm & _). by rewrite Hm. }
  apply keeps_finish.
Qed.
Lemma body_restored : keeps Restored body reported.
Proof.
  unfold body. apply (keeps_known (Older s)).
  { apply keeps_db_known; [auto|]. intros fs (Hd & _). rewrite Hd. destruct (probe_source s src Hok Hversion) as (x & Hx & Hs). by exists x. }
  rewrite (bool_decide_eq_false_2 (Older s = DbAbsent)), (bool_decide_eq_false_2 (Older s = DbCurrent)) by done.
  apply (keeps_known false); [by rule does_ret|]. by apply keeps_refuse; auto.
Qed.
Lemma files_are_lock (d b k : option DbFile) (f : DbFile) fs : files_are d b k fs → files_are d b k (<[lock p := f]> fs).
Proof.
  intros (Hd & Hb & Hk & Hm & Hs). destruct (lock_not path s) as (Hn1 & Hn2 & Hn3). destruct kept_apart as (_ & _ & _ & Hn4).
  split_and!; [by rewrite lookup_insert_ne..|]. intros q Hq. rewrite lookup_insert_ne; [by apply Hs|].
  intros <-. apply Hq, names_in_own. set_solver.
Qed.
Lemma keeps_restore : keeps Restorable (restore_backup path) reported.
Proof.
  assert (Hbody : keeps Restorable body reported).
  { rule does_or; [apply body_migrated|]. rule does_or; [apply body_away|apply body_restored]. }
  unfold restore_backup. cbv zeta. rule does_seq; [|exact Hbody].
  rule does_acquire_lock; [apply name_main, lock_main|done|].
  intros fs f [Hs|[Hs|Hs]]; [left|right; left|right; right]; by apply files_are_lock.
Qed.

(** ** A restore that nothing goes wrong in *)

Context (Hwhole : intact src = true).
Definition bare (fs : gmap bytes DbFile) : Prop := ∀ q x, q ∈ restore_names → x ∈ side_names q → fs !! x = None.
Definition the_report : RestoreReport := {| database := D; restored_from := B; kept_as := kept |}.
Implicit Types fs : gmap bytes DbFile.

Lemma goes_refuse_side_files q fs : q ∈ restore_names → bare fs → goes fs ∅ (refuse_side_files D q) (Ok tt) fs ∅.
Proof.
  intros Hq Hb. apply goes_refuse_each. intros x Hx. split; [set_solver|]. apply (Hb q); [done|].
  apply list_elem_of_fmap in Hx as (e & -> & He). unfold side_names, side_files. unfold SIDE_SUFFIXES in He.
  rewrite !elem_of_cons, elem_of_nil in He. set_solver.
Qed.
Lemma goes_check_backup fs : fs !! B = Some src → goes fs ∅ (check_backup B s) (Ok tt) fs ∅.
Proof.
  intros Hb. destruct (probe_source s src Hok Hversion) as (x & Hx & Hs). assert (Hexp : x = expected_schema s) by (by destruct s, x).
  unfold check_backup. eapply goes_bind; [apply goes_attempt, goes_connect; by rewrite Hb|]. rewrite union_empty_l_L.
  eapply (goes_step (Ok (x, true))).
  { apply goes_attempt. eapply goes_bind; [by apply goes_read|]. rewrite Hx. eapply goes_bind; [apply goes_lift|].
    eapply goes_bind; [apply goes_sql|]. rewrite Hwhole. apply goes_ret. }
  eapply goes_bind; [apply goes_close|]. rewrite difference_diag_L, bool_decide_eq_true_2 by done. apply goes_ret.
Qed.
Lemma goes_there q (b : bool) fs : bool_decide (is_Some (fs !! q)) = b → goes fs ∅ (exists_ q) (Ok b) fs ∅.
Proof. intros <-. apply goes_exists. set_solver. Qed.
Lemma goes_put_back fs : fs !! B = Some src →
  goes fs ∅ (put_backup_in_place p B kept) (Ok the_report) (<[D := src]> (delete B fs)) ∅.
Proof.
  intros Hb. unfold put_backup_in_place. eapply goes_bind; [by apply goes_rename|]. eapply goes_bind; [apply goes_blocking|].
  apply goes_ret.
Qed.
Lemma goes_migrated_from q (immutable : bool) fs : fs !! q = Some new →
  ∃ o, made_from o fp = true ∧ goes fs ∅ (migrated_from q immutable) (Ok (Some (s, o))) fs ∅.
Proof.
  intros Hq. destruct new_origin as (o & Ho & Hs & Hm). exists o. split; [done|]. unfold migrated_from.
  eapply (goes_step (Some o)); [|cbn [mbind option_bind]; rewrite Hs, version_back; apply goes_ret].
  assert (Hbody : ∀ S, goes fs S (f ← read_file q; mret (read_origin f)) (Ok (Some o)) fs S).
  { intros S. eapply goes_bind; [by apply goes_read|]. rewrite Ho. apply goes_ret. }
  destruct immutable; [apply goes_with_immutable|apply goes_with_connection]; first [by rewrite Hq|apply Hbody].
Qed.
Lemma goes_interrupted_kept fs : MovedAway fs → bare fs → goes fs ∅ (interrupted_kept_file p) (Ok (kept, B, s)) fs ∅.
Proof.
  intros Haway Hbare. pose proof Haway as (Hd & Hb & Hk & Hm & Hs). unfold interrupted_kept_file. cbv zeta.
  eapply (goes_step [kept]).
  { unfold kept_files. eapply goes_bind; [apply goes_blocking|]. apply goes_gets. intros w [_ _ -> _]. by apply kept_names_one. }
  cbn [last]. eapply goes_bind; [apply goes_refuse_side_files; [apply kept_main|done]|].
  eapply (goes_step (Ok DbCurrent)).
  { apply goes_attempt. unfold inspect_db_immutable. eapply goes_bind; [by apply (goes_there _ true), bool_decide_eq_true_2; rewrite Hk|].
    cbn [negb]. eapply (goes_step Schema.Current); [|apply goes_ret]. apply goes_with_immutable; [by rewrite Hk|].
    eapply goes_bind; [by apply goes_read|]. rewrite new_current. apply goes_lift. }
  destruct (goes_migrated_from kept true fs Hk) as (o & Hmade & Hgo). eapply goes_bind; [exact Hgo|]. cbv beta iota.
  eapply goes_bind; [by apply (goes_there _ true), bool_decide_eq_true_2; rewrite Hb|]. cbn [negb].
  eapply goes_bind; [apply goes_refuse_side_files; [apply name_main, B_main|done]|].
  eapply (goes_step (Ok fp)); [apply goes_attempt; by apply (goes_fingerprint_of B s src print)|]. rewrite Hmade. apply goes_ret.
Qed.
Lemma goes_finish fs : MovedAway fs → bare fs →
  goes fs ∅ (finish_interrupted_restore p) (Ok the_report) (<[D := src]> (delete B fs)) ∅.
Proof.
  intros Haway Hbare. pose proof Haway as (_ & Hb & _). unfold finish_interrupted_restore.
  eapply goes_bind; [by apply goes_interrupted_kept|]. cbv beta iota.
  assert (Hsides : ∀ q, q ∈ [D; B] → goes fs ∅ (refuse_side_files D q) (Ok tt) fs ∅).
  { intros q Hq. apply goes_refuse_side_files; [|done]. apply name_main. rewrite !elem_of_cons, elem_of_nil in Hq.
    destruct Hq as [->|[->|[]]]; [apply D_main|apply B_main]. }
  eapply goes_bind; [apply Hsides; set_solver|]. eapply goes_bind; [apply Hsides; set_solver|].
  eapply goes_bind; [by apply goes_check_backup|].
  eapply goes_bind; [apply Hsides; set_solver|]. eapply goes_bind; [apply Hsides; set_solver|]. by apply goes_put_back.
Qed.
Lemma goes_db (d : DbState) fs : match fs !! D with None => d = DbAbsent | Some f => ∃ x, probe f = Ok x ∧ d = state_of x end →
  goes fs ∅ (inspect_db D) (Ok d) fs ∅.
Proof.
  intros Hd. pose proof (goes_inspect_db D fs) as Hgo. destruct (fs !! D) as [f|].
  - destruct Hd as (x & Hx & ->). rewrite Hx in Hgo. apply Hgo; [done|set_solver].
  - subst d. apply Hgo; [done|set_solver].
Qed.
Lemma goes_any_of l q fs : q ∈ l → is_Some (fs !! q) → goes fs ∅ (any_of l) (Ok true) fs ∅.
Proof.
  intros Hq Hs. induction l as [|x l IH]; [by apply elem_of_nil in Hq|]. cbn [any_of].
  eapply goes_bind; [by apply goes_there|]. destruct (bool_decide_reflect (is_Some (fs !! x))) as [Hx|Hx]; [apply goes_ret|].
  apply IH. apply elem_of_cons in Hq as [->|Hq]; [by destruct Hx|done].
Qed.
Lemma goes_checkpoint fs : is_Some (fs !! D) → goes fs ∅ (checkpoint D) (Ok tt) fs ∅.
Proof.
  intros Hd. unfold checkpoint. eapply (goes_step false); [|apply goes_ret]. apply goes_with_connection; [done|].
  eapply goes_bind; [apply goes_sql|]. apply goes_gets. intros w [[_ _ _ Ho _] _ _ _]. rewrite Ho.
  apply bool_decide_eq_false. set_solver.
Qed.
Lemma goes_body_migrated fs : Migrated fs → bare fs → ∃ fs', goes fs ∅ body (Ok the_report) fs' ∅ ∧ Restored fs'.
Proof.
  intros Hmig Hbare. pose proof Hmig as (Hd & Hb & Hk & Hm & Hs). destruct (migrated_away fs Hmig) as [_ Haway].
  destruct (away_restored _ Haway) as [Hb' Hres]. eexists. split; [|exact Hres]. unfold body.
  assert (Hsides : ∀ q, q ∈ [D; B] → goes fs ∅ (refuse_side_files D q) (Ok tt) fs ∅).
  { intros q Hq. apply goes_refuse_side_files; [|done]. apply name_main. rewrite !elem_of_cons, elem_of_nil in Hq.
    destruct Hq as [->|[->|[]]]; [apply D_main|apply B_main]. }
  eapply (goes_step DbCurrent).
  { apply goes_db. rewrite Hd. exists Schema.Current. split; [exact new_current|done]. }
  rewrite (bool_decide_eq_false_2 (DbCurrent = DbAbsent)) by done. eapply goes_bind; [apply goes_ret|].
  rewrite (bool_decide_eq_true_2 (DbCurrent = DbCurrent)) by done. cbn [negb andb].
  eapply goes_bind; [by apply (goes_there _ false), bool_decide_eq_false_2; rewrite Hm; intros []|]. cbv iota.
  destruct (goes_migrated_from D false fs Hd) as (o & _ & Hgo). eapply goes_bind; [exact Hgo|]. cbv beta iota zeta.
  eapply goes_bind; [by apply (goes_there _ true), bool_decide_eq_true_2; rewrite Hb|]. cbn [negb].
  eapply goes_bind; [apply Hsides; set_solver|]. eapply goes_bind; [by apply goes_check_backup|].
  eapply goes_bind; [apply Hsides; set_solver|]. eapply goes_bind; [apply goes_checkpoint; by rewrite Hd|].
  eapply goes_bind; [apply Hsides; set_solver|].
  eapply goes_bind; [by apply (goes_there _ false), bool_decide_eq_false_2; rewrite Hk; intros []|]. cbv iota.
  eapply goes_bind; [by apply (goes_rename _ _ new)|]. by apply goes_put_back.
Qed.
Lemma goes_body_away fs : MovedAway fs → bare fs → ∃ fs', goes fs ∅ body (Ok the_report) fs' ∅ ∧ Restored fs'.
Proof.
  intros Haway Hbare. pose proof Haway as (Hd & Hb & Hk & Hm & Hs). destruct (away_restored _ Haway) as [_ Hres].
  eexists. split; [|exact Hres]. unfold body. eapply (goes_step DbAbsent); [apply goes_db; by rewrite Hd|].
  rewrite (bool_decide_eq_true_2 (DbAbsent = DbAbsent)) by done.
  eapply goes_bind; [apply (goes_any_of _ B); [apply backup_among|by rewrite Hb]|]. cbn [negb andb].
  eapply goes_bind; [by apply (goes_there _ false), bool_decide_eq_false_2; rewrite Hm; intros []|]. by apply goes_finish.
Qed.
Lemma goes_body_restored fs : Restored fs →
  goes fs ∅ body (Err (Failed (RestoreRefused (NotMigrated D (describe_db (Older s)))))) fs ∅.
Proof.
  intros (Hd & _). unfold body. eapply (goes_step (Older s)).
  { apply goes_db. rewrite Hd. destruct (probe_source s src Hok Hversion) as (x & Hx & Hs). by exists x. }
  rewrite (bool_decide_eq_false_2 (Older s = DbAbsent)), (bool_decide_eq_false_2 (Older s = DbCurrent)) by done.
  eapply goes_bind; [apply goes_ret|]. apply goes_refuse.
Qed.
(** A restore that nothing goes wrong in ends with the report, the source being back,
    unless it is back already, which it then says. *)
Lemma goes_restore fs : Restorable fs → bare fs →
  ∃ r fs', goes fs ∅ (restore_backup path) r fs' ∅ ∧ Restored fs' ∧
    (r = Ok the_report ∨ Restored fs ∧ r = Err (Failed (RestoreRefused (NotMigrated D (describe_db (Older s)))))).
Proof.
  intros Hs Hbare. destruct (goes_acquire_lock p fs) as (fs1 & Hlock & Hfs1).
  assert (Hbare1 : bare fs1).
  { destruct Hfs1 as [->|[f ->]]; [done|]. intros q x Hq Hx. rewrite lookup_insert_ne; [by apply (Hbare q)|].
    intros <-. by apply (restore_apart q (lock p)); [|apply name_main, lock_main|]. }
  assert (Hkeep : ∀ (d b k : option DbFile), files_are d b k fs → files_are d b k fs1).
  { intros d b k Hf. destruct Hfs1 as [->|[f ->]]; [done|by apply files_are_lock]. }
  assert (Hseq : ∀ r fs', goes fs1 ∅ body r fs' ∅ → goes fs ∅ (restore_backup path) r fs' ∅).
  { intros r fs' Hb. eapply goes_bind; [exact Hlock|exact Hb]. }
  destruct Hs as [Hm|[Ha|Hr]].
  - destruct (goes_body_migrated fs1 (Hkeep _ _ _ Hm) Hbare1) as (fs' & Hgo & Hres). exists (Ok the_report), fs'.
    split_and!; [by apply Hseq|done|by left].
  - destruct (goes_body_away fs1 (Hkeep _ _ _ Ha) Hbare1) as (fs' & Hgo & Hres). exists (Ok the_report), fs'.
    split_and!; [by apply Hseq|done|by left].
  - eexists _, fs1. split_and!; [apply Hseq, goes_body_restored; by apply Hkeep|by apply Hkeep|by right].
Qed.
End restored.
