(* ===== verification/MigrateProperties.v ===== *)
(** What a migration promises, whatever interrupts it
    ([crates/rustmail-storage/src/migrate.rs], [migrate/build.rs]). *)
From S2P Require Import Prelude RustStd StorageError Content MailParser Locator Prepared Query Database Store Repo Tables OldDb Fingerprint MigrateDisk MigrateBuild Migrate MigrateWork MigrateCopies MigrateChecks MigrateLogic MigrateLucky MigrateStates MigrateRestore MigrateRecovery MigrateServed MigrateRestored Instances.
From S2P Require Schema.
Import PlainZstd.

(** ** The print of a source *)

Section print.
Context `{Json}.

Lemma map_sorted {A B : Type} (f : A → B) (r : A → Z) (k : B → Z) l :
  (∀ x, k (f x) = r x) → StronglySorted (λ a b, (r a < r b)%Z) l → StronglySorted (λ a b, (k a < k b)%Z) (map f l).
Proof.
  intros Hk. induction 1 as [|x l Hs IH Hx]; simpl; constructor; [done|]. apply Forall_map. eapply Forall_impl; [exact Hx|].
  intros y Hy. simpl. by rewrite !Hk.
Qed.
(** Every file in order has a fingerprint. *)
Lemma source_printed s c : source_ok s c → ∃ print, fingerprint (layout_probe c s) c = Ok (Some print).
Proof.
  intros Hok. assert (Hlow : (I64_MIN < 0)%Z) by done. destruct s, c as [|d|d| |]; try done; simpl in Hok.
  - eexists. apply fingerprint_printed; [reflexivity|reflexivity|]. split_and!.
    + by apply (map_sorted _ rowid), (lo_rows d Hok).
    + apply Forall_map. eapply Forall_impl; [exact (lo_positive d Hok)|]. simpl. lia.
    + destruct (has_attachments_table _); [|constructor]. by apply (map_sorted _ la_rowid), (lo_attachments d Hok).
    + destruct (has_attachments_table _); [|constructor]. apply Forall_map. exact (lo_attachment_rowids d Hok).
  - eexists. apply fingerprint_printed; [reflexivity|reflexivity|]. split_and!.
    + by apply (map_sorted _ seq), (po_rows d Hok).
    + apply Forall_map. eapply Forall_impl; [exact (po_positive d Hok)|]. simpl. lia.
    + apply (map_sorted _ fst); [by intros []|]. exact (po_attachment_rowids d Hok).
    + apply Forall_map. eapply Forall_impl; [exact (po_attachment_low d Hok)|]. by intros [].
Qed.
Definition print_of (s : SourceSchema.t) (c : Contents) : SourcePrint :=
  match fingerprint (layout_probe c s) c with
  | Ok (Some print) => print
  | _ => {| fingerprint_text := []; print_messages := 0; print_attachments := 0; print_raw_bytes := 0 |}
  end.
Lemma print_of_source s c : source_ok s c → fingerprint (layout_probe c s) c = Ok (Some (print_of s c)).
Proof. intros Hok. destruct (source_printed s c Hok) as [print Hp]. unfold print_of. by rewrite Hp. Qed.
End print.

(** ** Runs one after the other *)

Section runs.
Context `{Json, !JsonLaws, Zstd, MailParser, Machine}.
Context (path : bytes) (s : SourceSchema.t).

(** A database of an older schema and nothing beside it. *)
Record fresh_disk (src : DbFile) (w : Disk) : Prop := {
  fd_source : source_ok s (contents src);
  fd_version : user_version src = SourceSchema.version s;
  fd_db : files w !! path = Some src;
  fd_copy : files w !! migrating (paths_of path) = None;
  fd_backup : files w !! backup (paths_of path) s = None;
  fd_tidy : tidy (path_names path) w;
}.
(** The next run finds the files as the last one left them; what happens to it is
    its own. *)
Definition restarted (w w' : Disk) : Prop := files w' = files w ∧ sides w' = sides w ∧ meddling w' = [].
Abbreviation print_text src := (fingerprint_text (print_of s (contents src))).
(** Runs on a database that was [src0] at first, is [src] now, and was each of [past]
    in between: as long as it is in its place an older rustmail may be started again,
    and leave other rows in it. Their fingerprint tells them from the earlier ones. *)
Inductive sessions (src0 : DbFile) (w0 : Disk) : DbFile → list DbFile → Disk → Prop :=
| no_session : sessions src0 w0 src0 [] w0
| one_more options src past w w' r w2 :
    sessions src0 w0 src past w → restarted w w' → batch_messages options ≠ 0%Z →
    prepare_with path options w' = Some (r, w2) → sessions src0 w0 src past w2
| older_wrote src past src' w w2 :
    sessions src0 w0 src past w → files w !! path = Some src →
    files w2 = <[path := src']> (files w) → sides w2 = sides w →
    source_ok s (contents src') → user_version src' = SourceSchema.version s →
    Forall (λ x, x = src' ∨ print_text x ≠ print_text src') (src :: past) →
    sessions src0 w0 src' (src :: past) w2.

(** What was compressed is read back. *)
Lemma packed_readable `{!ZstdLaws} l : (∀ i, i ∈ l → is_ok (compress (i_raw i)) = true) → Forall readable l.
Proof.
  intros Hp. apply Forall_forall. intros i Hi. specialize (Hp i Hi). unfold readable, frame_of.
  destruct (compress (i_raw i)) as [frame|] eqn:Hc; [|done]. simpl. by apply decompress_compress.
Qed.
(** A fingerprint is sixteen digits, so no text of one is another one qualified. *)
Lemma print_length c : source_ok s c → length (fingerprint_text (print_of s c)) = 16.
Proof.
  intros Hok. pose proof (print_of_source s c Hok) as Hp. unfold fingerprint in Hp.
  destruct (message_keys _ _) as [ks|]; [|done]. destruct (attachment_keys _ _) as [aks|]; [|done].
  cbn [mbind result_mbind result_bind mret result_mret] in Hp.
  destruct (scan _ _ _ _ _ _) as [[[h n] b]|]; [|done]. cbn [mbind option_bind] in Hp.
  destruct (scan _ _ _ _ _ _) as [[h' n']|]; [|done]. cbn [mbind option_bind] in Hp.
  injection Hp as <-. apply hex_u64_length.
Qed.
Lemma claims_one (o : Origin) x y :
  length x = length y → o_fingerprint o = x ∨ o_fingerprint o = qualified_fingerprint x Schema.SCHEMA_VERSION →
  target_schema o = Schema.SCHEMA_VERSION → made_from o y = true → x = y.
Proof.
  intros Hlen Hx Ht Hm. unfold made_from in Hm. rewrite Ht in Hm. apply orb_true_iff in Hm as [Hm%beqb_spec|Hm%beqb_spec];
    destruct Hx as [Hx|Hx]; rewrite Hx in Hm; [done| | |by unfold qualified_fingerprint in Hm; do 3 apply app_inv_head in Hm];
    apply (f_equal length) in Hm; unfold qualified_fingerprint in Hm; rewrite !length_app in Hm; simpl in Hm; lia.
Qed.

(** The copy of a database that was each of [l]: of one of them. *)
Definition copy_of (l : list DbFile) (f : DbFile) : Prop :=
  origin_row f = None ∨ ∃ x, x ∈ l ∧ (partial s x (print_of s (contents x)) f ∨ finished s x (print_of s (contents x)) f).
Abbreviation safe_from src := (Safe path s src (print_of s (contents src))).
Abbreviation other q := (q ∉ own path s).
Record history (w0 : Disk) (src : DbFile) (past : list DbFile) (w : Disk) : Prop := {
  hi_source : Forall (λ x, source_ok s (contents x)) (src :: past);
  hi_version : user_version src = SourceSchema.version s;
  hi_safe : safe_from src (files w) (files w);
  hi_copy : opt (copy_of (src :: past)) (files w !! migrating (paths_of path));
  hi_rest q : other q → files w !! q = files w0 !! q;
  hi_tidy : tidy (path_names path) w;
}.
Lemma history_source w0 src past w : history w0 src past w → source_ok s (contents src).
Proof. intros Hh. pose proof (hi_source _ _ _ _ Hh) as Hs. by inversion Hs. Qed.
Lemma untouched_from (base base' fs : gmap bytes DbFile) :
  (∀ q, other q → base !! q = base' !! q) → untouched path s base fs → untouched path s base' fs.
Proof. intros Hb Hu q Hq. by rewrite Hu, Hb. Qed.
Lemma holds_from (base base' : gmap bytes DbFile) d b P fs :
  (∀ q, other q → base !! q = base' !! q) → holds path s base d b P fs → holds path s base' d b P fs.
Proof. intros Hb (Hd & Hbk & Hm & Hu). split_and!; [done..|]. by apply (untouched_from base). Qed.
(** What a run that began with [base] leaves is a place to begin from. *)
Lemma safe_on src l base fs :
  src ∈ l → opt (copy_of l) (base !! migrating (paths_of path)) → safe_from src base fs →
  safe_from src fs fs ∧ opt (copy_of l) (fs !! migrating (paths_of path)) ∧ untouched path s base fs.
Proof.
  intros Hin Hc [Hs|[Hs|(f & Hf & Hs)]]; pose proof Hs as (Hd & Hb & Hm & Hu); (split; [|split; [|exact Hu]]).
  - left. split_and!; [done|done| |by intros q]. destruct (fs !! migrating (paths_of path)) as [f|] eqn:Hfs; [|done]. destruct Hm as [Ht _].
    split; [exact Ht|]. by do 3 right.
  - destruct (fs !! migrating (paths_of path)) as [f|]; [|done]. destruct Hm as [_ [Ho|[Hp|[Hp|Hb']]]]; simpl.
    + by left.
    + right. exists src. split; [done|by left].
    + right. exists src. split; [done|by right].
    + by rewrite Hb' in Hc.
  - right. left. by split_and!.
  - destruct (fs !! migrating (paths_of path)) as [f|]; [|done]. right. exists src. split; [done|by right].
  - right. right. exists f. split; [done|]. by split_and!.
  - by rewrite Hm.
Qed.
Lemma history_on w0 src past w w2 :
  history w0 src past w → safe_from src (files w) (files w2) → tidy (path_names path) w2 → history w0 src past w2.
Proof.
  intros [Hs Hv _ Hc Hr _] Hsafe Ht. destruct (safe_on src (src :: past) _ _ ltac:(by left) Hc Hsafe) as (Hsafe2 & Hc2 & Hu).
  split; [done|done|done|done| |done]. intros q Hq. by rewrite (Hu q Hq), Hr.
Qed.
Lemma history_kept w0 src past w : history w0 src past w → Kept path s src (print_of s (contents src)) (files w0) (files w).
Proof.
  intros [_ _ Hsafe _ Hr _]. destruct Hsafe as [Hs|[Hs|(f & Hf & Hs)]].
  - left. apply (holds_from (files w)); [done|]. eapply holds_mono; [|exact Hs]. by intros [f|]; [intros []|].
  - right. left. by apply (holds_from (files w)).
  - right. right. exists f. split; [done|]. by apply (holds_from (files w)).
Qed.
Lemma after_on w0 src past w fs : history w0 src past w →
  After path s src (print_of s (contents src)) (files w) fs → After path s src (print_of s (contents src)) (files w0) fs.
Proof. intros Hh (f & Hf & Hs). exists f. split; [done|]. by apply (holds_from (files w)); [apply (hi_rest _ _ _ _ Hh)|]. Qed.

Lemma history_start src w : fresh_disk src w → history w src [] w.
Proof.
  intros [Hs Hv Hd Hm Hb Ht]. split; [by repeat constructor|done| |by rewrite Hm|done|done].
  left. split_and!; [done|done| |by intros q]. by rewrite Hm.
Qed.
(** The older rustmail is started again: what it leaves is not taken for what it was. *)
Lemma history_older w0 src past src' w w2 :
  history w0 src past w → files w !! path = Some src →
  files w2 = <[path := src']> (files w) → sides w2 = sides w →
  source_ok s (contents src') → user_version src' = SourceSchema.version s →
  Forall (λ x, x = src' ∨ print_text x ≠ print_text src') (src :: past) →
  history w0 src' (src :: past) w2.
Proof.
  intros [Hs Hv Hsafe Hc Hr [Ht1 Ht2]] Hd Hw2 Hsd Hok' Hv' Hapart.
  assert (HM : files w2 !! migrating (paths_of path) = files w !! migrating (paths_of path)).
  { rewrite Hw2, lookup_insert_ne; [done|]. intros Heq. by apply (M_not_D path). }
  assert (HB : files w !! backup (paths_of path) s = None).
  { destruct Hsafe as [(_ & HB & _)|[(Hd' & _)|(f & Hf & Hd' & _)]]; [done|change (files w !! path = None) in Hd'; congruence|].
    change (files w !! path = Some f) in Hd'. rewrite Hd in Hd'. injection Hd' as <-.
    pose proof (co_version _ _ _ _ _ _ Hf) as Hf'. rewrite Hv in Hf'. by destruct s. }
  split; [by constructor|done| | | |].
  - left. split_and!; [by rewrite Hw2, lookup_insert_eq| | |by intros q].
    + rewrite Hw2, lookup_insert_ne; [done|]. intros Heq. by apply (B_not_D path s).
    + rewrite HM. destruct (files w !! migrating (paths_of path)) as [f|] eqn:Hf; [|done]. simpl in Hc. split; [|do 3 right; by rewrite HM].
      intros o Ho Hos Hot Hmade. destruct Hc as [Hn|(x & Hx & Hcopy)]; [unfold read_origin in Ho; by rewrite Hn in Ho|].
      rewrite Forall_forall in Hapart, Hs. assert (Hlen : length (print_text x) = length (print_text src')).
      { rewrite !print_length; [done|done|by apply Hs]. }
      assert (Ho' : ∃ k v, copied s x (print_of s (contents x)) k v f) by (destruct Hcopy as [[k Hk]|Hk]; eauto).
      destruct Ho' as (k & v & Hk). pose proof (co_origin _ _ _ _ _ _ Hk) as (row & Hrow & Hupto).
      pose proof Hupto as (Hfp & _).
      destruct (origin_read _ _ _ _ _ _ Hrow Hupto) as (o' & Ho1 & Ho2 & _ & Ho3 & _). rewrite Ho in Ho1. injection Ho1 as <-.
      rewrite <- Ho2 in Hfp. destruct (Hapart x Hx) as [->|Hne]; [exact Hcopy|]. destruct Hne. by apply (claims_one o).
  - rewrite HM. destruct (files w !! migrating (paths_of path)) as [f|]; [|done]. destruct Hc as [Hn|(x & Hx & Hcopy)]; [by left|right].
    exists x. split; [by right|done].
  - intros q Hq. rewrite Hw2, lookup_insert_ne; [by apply Hr|]. intros <-. by apply Hq, own_main.
  - split; [by rewrite Hsd|]. rewrite Hw2. intros p x Hp Hx. rewrite lookup_insert_ne; [by apply (Ht2 p)|].
    intros <-. by apply (apart p path Hp (D_main path)).
Qed.

Lemma history_run (L : Prop) w0 src past w w' options :
  history w0 src past w → 0 < available_parallelism → batch_messages options ≠ 0%Z →
  (L → Forall readable (all_items (contents src)) ∧ ∀ i, i ∈ all_items (contents src) → is_ok (compress (i_raw i)) = true) →
  restarted w w' → (L → lucky w') →
  wp (prepare_with path options) (λ r w2, history w0 src past w2 ∧
    (L → ∃ report, r = Ok (Ready report) ∧ After path s src (print_of s (contents src)) (files w0) (files w2))) w'.
Proof.
  intros Hh Hcores Hbatch Hpacks (Hfiles & Hsides & Hm) HL. pose proof (history_source _ _ _ _ Hh) as Hok.
  pose proof (does_prepare L path options s src (print_of s (contents src)) (files w) Hok (hi_version _ _ _ _ Hh)
    Hcores Hbatch Hpacks (print_of_source s _ Hok) nothing) as Hrun.
  assert (Ht' : tidy (path_names path) w').
  { destruct (hi_tidy _ _ _ _ Hh) as [Ht1 Ht2]; split; [rewrite Hsides|rewrite Hfiles]; assumption. }
  eapply wp_mono; [apply (Hrun w')|].
  - by split.
  - split_and!; [simpl; rewrite Hfiles; apply (hi_safe _ _ _ _ Hh)|exact Ht'|done].
  - intros [prep|h] w2 [Hl Hw2].
    + destruct Hw2 as (Hp & Ht2 & _). destruct prep as [report|migrated total].
      * split; [eapply history_on; [exact Hh|by right; right|exact Ht2]|]. intros _. exists report. split; [done|].
        by eapply after_on.
      * destruct Hp as [Hb HnL]. split; [|done].
        eapply history_on; [exact Hh|left; by eapply MigrateTarget.partial_before|exact Ht2].
    + destruct Hw2 as [HnL (Hsafe & Ht2 & _)]. split; [by eapply history_on|done].
Qed.
Lemma sessions_history src0 w0 src past w :
  fresh_disk src0 w0 → 0 < available_parallelism → sessions src0 w0 src past w → history w0 src past w.
Proof.
  intros Hd Hcores. induction 1 as [|options src past w w' r w2 _ IH Hre Hbatch Hrun|].
  - by apply history_start.
  - by destruct (wp_elim _ _ _ _ _ (history_run False w0 src past w w' options IH Hcores Hbatch ltac:(done) Hre ltac:(done)) Hrun).
  - by eapply history_older.
Qed.

(** C13: safety. However often the migration is run, stopped, interrupted by an
    error or killed, at whatever step, and whatever an older rustmail that is started
    in between leaves in the database: what it last was is where it was, or kept as
    its backup beside a complete copy of it; and the database's path never holds
    anything but that or a complete copy, whose every message decompresses. Files of
    other names stay as they are. *)
Theorem interrupted_migration_keeps_source src0 w0 src past w :
  fresh_disk src0 w0 → 0 < available_parallelism → sessions src0 w0 src past w →
  Kept path s src (print_of s (contents src)) (files w0) (files w).
Proof. intros Hd Hcores Hses. by eapply history_kept, sessions_history. Qed.

(** C14: liveness. Whatever the runs before it left, of this database or of what it
    was before, one run that nothing goes wrong in migrates it: it answers that it is
    ready, with the complete copy in the database's place and the source as its
    backup. *)
Theorem interrupted_migration_recovers `{!ZstdLaws} src0 w0 src past w w' options :
  fresh_disk src0 w0 → 0 < available_parallelism → sessions src0 w0 src past w →
  restarted w w' → lucky w' → batch_messages options ≠ 0%Z →
  (∀ i, i ∈ all_items (contents src) → is_ok (compress (i_raw i)) = true) →
  ∃ report w2, prepare_with path options w' = Some (Ok (Ready report), w2) ∧
    After path s src (print_of s (contents src)) (files w0) (files w2).
Proof.
  intros Hd Hcores Hses Hre Hlucky Hbatch Hpacks. pose proof (sessions_history src0 w0 src past w Hd Hcores Hses) as Hh.
  destruct (history_run True w0 src past w w' options Hh Hcores Hbatch) as (r & w2 & Hrun & _ & Hr); [|done..|].
  - intros _. split; [|done]. by apply packed_readable.
  - destruct (Hr I) as (report & -> & Hafter). by exists report, w2.
Qed.
End runs.

(** ** What is served afterwards *)

Section serves.
Context `{Json, !JsonLaws, Zstd, MailParser, Machine}.

(** C15: functional. A migrated database, of schema 0 or 1, is a store like any
    other, and nothing of the older one is lost in it: its messages are the older
    rows in their order, with their flags and tags, and each message's source is
    served byte for byte. Every attachment of schema 0 is served byte for byte,
    whether the migration found it in the source again or kept it inline; one of
    schema 1 is served as its row has it: the bytes kept inline, or what its place in
    the source decodes to, and reported corrupt only when that has not the length
    it was stored with. *)
Theorem migrated_store_serves path s src print base fs w :
  source_ok s (contents src) → After path s src print base fs → faults w = [] →
  (∃ f, fs !! path = Some f ∧ contents f = Schema2 (Store.db w)) →
  wf (Store.db w) ∧
  match contents src with
  | Schema0 d =>
    messages (Store.db w) = map (λ m, i_record (legacy_item (columns d) m)) (l_messages d) ∧
    ∀ m, m ∈ l_messages d →
      get_raw (l_id m) w = Some (Ok (l_raw m), w) ∧
      ∀ a, a ∈ l_attachments d → la_message_id a = l_id m → has_attachments_table (columns d) = true →
        (Z.of_nat (length (l_raw m)) ≤ U64_MAX)%Z →
        ∃ at_, get_attachment (l_id m) (am_id (la_meta a)) w = Some (Ok at_, w) ∧ att_content at_ = la_content a ∧
          as_filename (att at_) = am_filename (la_meta a) ∧ as_content_type (att at_) = am_content_type (la_meta a)
  | Schema1 d =>
    messages (Store.db w) = p_messages d ∧
    ∀ m, m ∈ p_messages d → ∃ body, p_content d !! seq m = Some body ∧
      get_raw (id m) w = Some (Ok (c_raw body), w) ∧
      ∀ n a, (n, a) ∈ p_attachments d → message_seq a = seq m →
        match carried_content (c_raw body) a with
        | Some content => get_attachment (id m) (a_id a) w =
            Some (Ok {| att := attachment_summary (id m) a; att_content := content |}, w)
        | None => ∃ actual, get_attachment (id m) (a_id a) w =
            Some (Err (AttachmentCorrupt (id m) (a_id a) (transfer_encoding a) (a_size a) actual), w)
        end
  | _ => False
  end.
Proof.
  intros Hok (f & Hf & Hdb & _) Hw (f' & Hf' & Hcont).
  change (fs !! path = Some f) in Hdb. rewrite Hdb in Hf'. injection Hf' as <-.
  rewrite (co_contents _ _ _ _ _ _ Hf) in Hcont. injection Hcont as Ht. symmetry in Ht.
  pose proof (co_readable _ _ _ _ _ _ Hf) as Hread. rewrite (whole_items _ _ Hok) in Hread. rewrite Forall_forall in Hread.
  pose proof (whole_messages s _ Hok) as Hmsgs. rewrite <- Ht in Hmsgs.
  split; [rewrite Ht; by apply (whole_wf s)|]. destruct (contents src) as [|d|d|t|names] eqn:Hc; try (by destruct s).
  - split; [by rewrite Hmsgs; cbn [all_items]; rewrite map_map|]. intros m Hm.
    assert (Hi : legacy_item (columns d) m ∈ all_items (Schema0 d)) by by apply (list_elem_of_fmap_2 (legacy_item (columns d))).
    split; [apply (get_raw_whole s _ Hok (legacy_item (columns d) m)); auto|].
    intros a Ha Hparent Htable Hmax. eexists.
    split; [apply (get_attachment_whole s _ Hok d m a); auto|]. by split_and!.
  - assert (Hd : previous_ok d) by (by destruct s). split.
    { rewrite Hmsgs. by apply (previous_items d). }
    intros m Hm. destruct (carried_item s _ Hok d m eq_refl Hm) as (body & i & Hb & Hi & <- & Hraw).
    exists body. rewrite <- Hraw. split_and!; [done|by apply (get_raw_whole s _ Hok i); auto|].
    intros n a Ha Hseq. by apply (get_carried_whole s _ Hok d i n a); auto.
Qed.
End serves.

(** ** Going back *)

Section back.
Context `{Json, !JsonLaws, Zstd, MailParser, Machine}.
Context (path : bytes) (s : SourceSchema.t).

(** A migrated database with its backup, and none restored before. *)
Record migrated_disk (src new : DbFile) (w : Disk) : Prop := {
  md_source : source_ok s (contents src);
  md_version : user_version src = SourceSchema.version s;
  md_db : files w !! path = Some new;
  md_made : made_of s (print_of s (contents src)) new;
  md_backup : files w !! backup (paths_of path) s = Some src;
  md_copy : files w !! migrating (paths_of path) = None;
  md_kept q : is_kept path q = true → files w !! q = None;
  md_tidy : tidy (restore_names path) w;
}.
Inductive restores (w0 : Disk) : Disk → Prop :=
| no_restore : restores w0 w0
| another w w' r w2 : restores w0 w → restarted w w' → restore_backup path w' = Some (r, w2) → restores w0 w2.

Lemma restore_step src new w0 w w' :
  migrated_disk src new w0 → is_timestamp utc_now = true →
  Restorable path s src new (files w0) (files w) → tidy (restore_names path) w → restarted w w' →
  wp (restore_backup path) (λ r w2, Restorable path s src new (files w0) (files w2) ∧ tidy (restore_names path) w2 ∧
    ∀ report, r = Ok report → reported path s src new (files w0) report (files w2)) w'.
Proof.
  intros Hd Hclock Hs Ht (Hfiles & Hsides & Hm).
  pose proof (keeps_restore path s src new (print_of s (contents src)) (files w0) (md_source _ _ _ Hd) (md_version _ _ _ Hd)
    (print_of_source s _ (md_source _ _ _ Hd)) (md_made _ _ _ Hd) Hclock (λ q Hq _, md_kept _ _ _ Hd q Hq)) as Hrun.
  assert (Ht' : tidy (restore_names path) w') by (destruct Ht as [Ht1 Ht2]; split; [rewrite Hsides|rewrite Hfiles]; assumption).
  eapply wp_mono; [apply (Hrun w'); [by split|]|].
  - split_and!; [simpl; by rewrite Hfiles|exact Ht'|done].
  - intros [report|h] w2 [Hl Hw2].
    + destruct Hw2 as (Hr & Ht2 & _). split_and!; [right; right; apply Hr|exact Ht2|]. intros x [= <-]. exact Hr.
    + destruct Hw2 as [_ (Hsafe & Ht2 & _)]. by split_and!.
Qed.
Lemma restores_keep src new w0 w :
  migrated_disk src new w0 → is_timestamp utc_now = true → restores w0 w →
  Restorable path s src new (files w0) (files w) ∧ tidy (restore_names path) w.
Proof.
  intros Hd Hclock. induction 1 as [|w w' r w2 _ [IHs IHt] Hre Hrun].
  - split; [|exact (md_tidy _ _ _ Hd)]. left. split_and!; [exact (md_db _ _ _ Hd)|exact (md_backup _ _ _ Hd)| |exact (md_copy _ _ _ Hd)|done].
    apply (md_kept _ _ _ Hd). by apply is_kept_kept.
  - destruct (wp_elim _ _ _ _ _ (restore_step src new w0 w w' Hd Hclock IHs IHt Hre) Hrun) as (Hsafe & Ht & _). by split.
Qed.
(** One that nothing goes wrong in, on files nobody left open. *)
Lemma lucky_restore src new w0 w w' :
  migrated_disk src new w0 → is_timestamp utc_now = true →
  Restorable path s src new (files w0) (files w) → tidy (restore_names path) w → restarted w w' →
  lucky w' → sides w' = ∅ → intact src = true →
  ∃ r w2, restore_backup path w' = Some (r, w2) ∧ Restored path s src new (files w0) (files w2) ∧
    (r = Ok (the_report path s) ∨ Restored path s src new (files w0) (files w') ∧
      r = Err (Failed (RestoreRefused (NotMigrated path (describe_db (Older s)))))).
Proof.
  intros Hd Hclock Hs Ht (Hfiles & _ & Hm) Hl Hsides Hwhole.
  destruct (goes_restore path s src new (print_of s (contents src)) (files w0) (md_source _ _ _ Hd) (md_version _ _ _ Hd)
    (print_of_source s _ (md_source _ _ _ Hd)) (md_made _ _ _ Hd) Hclock (λ q Hq _, md_kept _ _ _ Hd q Hq) Hwhole (files w'))
    as (r & fs' & Hgo & Hres & Hr).
  - by rewrite Hfiles.
  - intros q x Hq Hx. rewrite Hfiles. by apply (proj2 Ht q x).
  - destruct (Hgo w') as (w2 & Hrun & Hw2); [by split|]. exists r, w2. rewrite (la_files _ _ _ Hw2). by split_and!.
Qed.
(** C16: safety. A restore loses neither database, however often it is tried and
    wherever it is interrupted: the migrated one is in its place or under its kept
    name, the source in its place or in its backup. And whenever it answers with a
    report, the source is back in its place and the migrated database is kept
    under the name the report gives. One that nothing goes wrong in ends with the
    source back in its place, provided that the backup is intact and no process,
    not even a killed restore, has left side files beside the two databases: it
    gives that report, or, when the source was back before it began, says that
    there is nothing left to restore. *)
Theorem interrupted_restore_keeps_both src new w0 w w' :
  migrated_disk src new w0 → is_timestamp utc_now = true → restores w0 w → restarted w w' →
  ∃ r w2, restore_backup path w' = Some (r, w2) ∧ Restorable path s src new (files w0) (files w2) ∧
    (∀ report, r = Ok report → Restored path s src new (files w0) (files w2) ∧
      restored_from report = backup (paths_of path) s ∧ kept_as report = kept path) ∧
    (lucky w' → sides w' = ∅ → intact src = true → Restored path s src new (files w0) (files w2) ∧
      (is_ok r = true ∨ Restored path s src new (files w0) (files w') ∧
        r = Err (Failed (RestoreRefused (NotMigrated path (describe_db (Older s))))))).
Proof.
  intros Hd Hclock Hses Hre. destruct (restores_keep src new w0 w Hd Hclock Hses) as [Hsafe Ht].
  destruct (restore_step src new w0 w w' Hd Hclock Hsafe Ht Hre) as (r & w2 & Hrun & Hs2 & _ & Hrep).
  exists r, w2. split_and!; [done|done| |].
  - intros report Hr. by destruct (Hrep report Hr) as (? & _ & ? & ?).
  - intros Hl Hsides Hwhole. destruct (lucky_restore src new w0 w w' Hd Hclock Hsafe Ht Hre Hl Hsides Hwhole) as (r' & w3 & Hrun' & Hres & Hr').
    rewrite Hrun in Hrun'. simplify_eq. split; [done|]. destruct Hr' as [->|[? ->]]; [by left|by right].
Qed.
End back.

(** ** A run of it *)

#[local] Instance example_machine : Machine :=
  {| available_parallelism := 2; file_length _ := 10%Z; default_mode := 420%Z; iso8601_now := b#"now";
     utc_now := b#"20260101T000000Z" |}.
Definition example_rows : list LegacyRow :=
  [plain_row 1 b#"x" b#"raw1" false false; plain_row 2 b#"y" b#"raw2" true false; plain_row 5 b#"z" b#"raw33" true true].
Definition example_attachment : LegacyAttachmentRow :=
  {| la_rowid := 1; la_message_id := b#"y";
     la_meta := {| am_id := b#"a1"; am_filename := Some b#"a.txt"; am_content_type := None; am_content_id := None; am_size := Some 3%Z |};
     la_content := b#"abc" |}.
Definition example_legacy : LegacyDb :=
  {| columns := plain_columns; l_messages := example_rows; l_attachments := [example_attachment] |}.
Definition example_source : DbFile :=
  {| user_version := 0; contents := Schema0 example_legacy; origin_row := None; mode := 384; intact := true |}.
Definition example_path : bytes := b#"mail.db".
Definition example_options : MigrationOptions := {| batch_messages := 2; batch_raw_bytes := 1000 |}.
Definition example_disk (script : list (option mishap)) : Disk :=
  {| files := {[ example_path := example_source ]}; sides := ∅; others := ∅; locked_elsewhere := false;
     mishaps := script; meddling := []; stops := []; dead := false |}.
(** What a run leaves, and the disk the next run finds. *)
Definition left_by (w : Disk) : Disk :=
  match prepare_with example_path example_options w with Some (_, w) => w | None => w end.
Definition again (w : Disk) (script : list (option mishap)) : Disk :=
  w <| mishaps := script |> <| dead := false |>.
Definition killed_after (n : nat) : list (option mishap) := replicate n None ++ [Some Kill].

Lemma example_legacy_ok : legacy_ok example_legacy.
Proof. split; repeat constructor; set_solver. Qed.
Lemma example_fresh : fresh_disk example_path SourceSchema.Legacy example_source (example_disk (killed_after 60)).
Proof.
  assert (Hone : ∀ q, q ≠ example_path → files (example_disk (killed_after 60)) !! q = None).
  { intros q Hq. by apply lookup_singleton_ne. }
  split; try done.
  - exact example_legacy_ok.
  - split; [done|]. intros p x Hp Hx. apply Hone. intros ->. apply (apart p example_path Hp (D_main _)). exact Hx.
Qed.
Lemma left_by_runs w : (if prepare_with example_path example_options w then true else false) = true →
  ∃ r, prepare_with example_path example_options w = Some (r, left_by w).
Proof. unfold left_by. destruct (prepare_with _ _ w) as [[r w2]|]; [|done]. by exists r. Qed.

Lemma restarted_again w script : meddling w = [] → restarted w (again w script).
Proof. intros. unfold restarted. by split_and!. Qed.
Lemma restarted_first script : restarted (example_disk script) (example_disk script).
Proof. intros. unfold restarted. by split_and!. Qed.
Lemma again_same w script : sides (again w script) = sides w ∧ files (again w script) = files w.
Proof. done. Qed.
Lemma lucky_again w : others w = ∅ → locked_elsewhere w = false → stops w = [] → lucky (again w []).
Proof. intros Ho Hl Hs. split; simpl; [constructor|done|by rewrite Hs|done|done]. Qed.

(** Between two runs an older rustmail marks the first message read and takes one. *)
Definition used_legacy : LegacyDb :=
  {| columns := plain_columns;
     l_messages := plain_row 1 b#"x" b#"raw1" true false :: tail example_rows ++ [plain_row 6 b#"w" b#"raw4" false false];
     l_attachments := [example_attachment] |}.
Definition example_used : DbFile := example_source <| contents := Schema0 used_legacy |>.
Definition used (w : Disk) : Disk := w <| files := <[example_path := example_used]> (files w) |>.
Lemma used_legacy_ok : legacy_ok used_legacy.
Proof. split; repeat constructor; set_solver. Qed.
Definition half_copied : Disk := left_by (example_disk (killed_after 60)).
Lemma half_copied_session : sessions example_path SourceSchema.Legacy example_source (example_disk (killed_after 60)) example_source [] half_copied.
Proof.
  destruct (left_by_runs (example_disk (killed_after 60))) as [r1 H1]; [vm_compute; reflexivity|].
  refine (one_more _ _ _ _ example_options _ _ _ _ _ _ (no_session _ _ _ _) (restarted_first _) _ H1). done.
Qed.
Lemma used_same w : files (used w) = <[example_path := example_used]> (files w) ∧ sides (used w) = sides w.
Proof. done. Qed.
Lemma used_session :
  sessions example_path SourceSchema.Legacy example_source (example_disk (killed_after 60)) example_used [example_source] (used half_copied).
Proof.
  refine (older_wrote _ _ _ _ _ _ example_used _ (used half_copied) half_copied_session _ (proj1 (used_same _)) (proj2 (used_same _)) _ eq_refl _).
  - vm_compute. reflexivity.
  - exact used_legacy_ok.
  - constructor; [right|constructor]. vm_compute. discriminate.
Qed.
(** The copy begun before has its three messages, but is not gone on with: what is
    served in the end are the four there are by then. *)
Definition rows_at (p : bytes) (w : Disk) : option nat :=
  (λ f, match contents f with Schema2 t => length (messages t) | _ => 0 end) <$> files w !! p.
Example half_copied_rows : rows_at (migrating (paths_of example_path)) half_copied = Some 3.
Proof. vm_compute. reflexivity. Qed.
Example used_rows : rows_at example_path (left_by (again (used half_copied) [])) = Some 4.
Proof. vm_compute. reflexivity. Qed.

Lemma interrupted_migration_keeps_source_witness :
  let w2 := left_by (again (used half_copied) (killed_after 30)) in
  Kept example_path SourceSchema.Legacy example_used (print_of SourceSchema.Legacy (contents example_used))
    (files (example_disk (killed_after 60))) (files w2).
Proof.
  apply (interrupted_migration_keeps_source example_path SourceSchema.Legacy example_source _ example_used [example_source]);
    [exact example_fresh|repeat constructor|].
  destruct (left_by_runs (again (used half_copied) (killed_after 30))) as [r2 H2]; [vm_compute; reflexivity|].
  assert (Hre : restarted (used half_copied) (again (used half_copied) (killed_after 30))) by (apply restarted_again; vm_compute; reflexivity).
  assert (Hb : batch_messages example_options ≠ 0%Z) by (clear; discriminate).
  exact (one_more _ _ _ _ example_options _ _ _ _ _ _ used_session Hre Hb H2).
Defined.

Lemma interrupted_migration_recovers_witness :
  ∃ report w2, prepare_with example_path example_options (again (used half_copied) []) = Some (Ok (Ready report), w2) ∧
    After example_path SourceSchema.Legacy example_used (print_of SourceSchema.Legacy (contents example_used))
      (files (example_disk (killed_after 60))) (files w2).
Proof.
  eapply (interrupted_migration_recovers example_path SourceSchema.Legacy example_source (example_disk (killed_after 60)) example_used
    [example_source] (used half_copied)).
  - exact example_fresh.
  - repeat constructor.
  - exact used_session.
  - apply restarted_again. vm_compute. reflexivity.
  - assert (Hrest : bool_decide (others (used half_copied) = ∅) && negb (locked_elsewhere (used half_copied)) &&
      (length (stops (used half_copied)) =? 0) = true) by (vm_compute; reflexivity).
    apply andb_true_iff in Hrest as [[Ho%bool_decide_eq_true Hl%negb_true_iff]%andb_true_iff Hs%Nat.eqb_eq].
    apply lucky_again; [exact Ho|exact Hl|by apply length_zero_iff_nil].
  - done.
  - apply Forall_forall. repeat constructor.
Defined.

Definition example_migrated : DbFile :=
  {| user_version := Schema.SCHEMA_VERSION; contents := Schema2 (tables_upto (Schema0 example_legacy) (last_key (Schema0 example_legacy)));
     origin_row := Some ((fresh_origin SourceSchema.Legacy (fingerprint_text (print_of SourceSchema.Legacy (Schema0 example_legacy))))
       <| o_last_source_seq := last_key (Schema0 example_legacy) |> <| attachment_mismatches := 1%Z |>);
     mode := 384; intact := true |}.
Definition example_files : gmap bytes DbFile :=
  <[example_path := example_migrated]> {[ backup (paths_of example_path) SourceSchema.Legacy := example_source ]}.
Lemma example_finished :
  finished SourceSchema.Legacy example_source (print_of SourceSchema.Legacy (contents example_source)) example_migrated.
Proof.
  split; try done.
  - right. vm_compute. set_solver.
  - eexists. split; [reflexivity|]. split_and!; [by right|done|vm_compute; reflexivity|done].
  - repeat constructor; vm_compute; reflexivity.
Qed.
(** A schema-1 database: a message with an attachment kept inline and one located in
    its source. *)
Definition carried_rows : list (Z * AttachmentRecord) :=
  [(1, {| a_id := b#"b1"; message_seq := 3; a_filename := Some b#"b.txt"; a_content_type := None; a_content_id := None;
          a_size := Some 2; a_content := Some b#"ok"; raw_offset := None; raw_len := None; transfer_encoding := None |});
   (2, {| a_id := b#"b2"; message_seq := 3; a_filename := None; a_content_type := None; a_content_id := None;
          a_size := Some 3; a_content := None; raw_offset := Some 1; raw_len := Some 3; transfer_encoding := Some 0 |})]%Z.
Definition example_previous : PreviousDb :=
  {| p_messages := [i_record (legacy_item plain_columns (plain_row 3 b#"p" b#"raw8!" true false))];
     p_content := {[ 3%Z := {| c_text_body := None; c_html_body := None; c_raw := b#"raw8!" |} ]};
     p_attachments := carried_rows; p_tags := ∅ |}.
Definition previous_source : DbFile :=
  {| user_version := 1; contents := Schema1 example_previous; origin_row := None; mode := 384; intact := true |}.
Definition previous_print := print_of SourceSchema.Previous (Schema1 example_previous).
Definition previous_migrated : DbFile :=
  {| user_version := Schema.SCHEMA_VERSION; contents := Schema2 (tables_upto (Schema1 example_previous) 3);
     origin_row := Some ((fresh_origin SourceSchema.Previous (fingerprint_text previous_print)) <| o_last_source_seq := 3%Z |>);
     mode := 384; intact := true |}.
Definition previous_files : gmap bytes DbFile :=
  <[example_path := previous_migrated]> {[ backup (paths_of example_path) SourceSchema.Previous := previous_source ]}.
Lemma example_previous_ok : previous_ok example_previous.
Proof.
  split.
  - repeat constructor.
  - repeat constructor.
  - repeat constructor. set_solver.
  - intros m ->%list_elem_of_singleton. eexists. split; [reflexivity|reflexivity].
  - vm_compute. set_solver.
  - repeat constructor; vm_compute; set_solver.
  - repeat constructor.
  - repeat constructor.
  - repeat constructor; done.
  - repeat constructor; set_solver.
  - intros tag k. split; [by intros ?%elem_of_empty|]. intros (m & ->%list_elem_of_singleton & _ & Ht).
    by apply elem_of_nil in Ht.
Qed.
Lemma previous_finished : finished SourceSchema.Previous previous_source previous_print previous_migrated.
Proof.
  split; try done.
  - right. vm_compute. set_solver.
  - eexists. split; [reflexivity|]. split_and!; [by right|done|vm_compute; reflexivity|done].
  - repeat constructor; vm_compute; reflexivity.
Qed.
(** What the two migrated databases of the example serve. *)
Definition serving (c : Contents) (k : Z) : World :=
  {| Store.db := tables_upto c k; faults := []; rivals := []; clock := []; minted := 0; slept := [] |}.
Lemma migrated_store_serves_witness :
  (let w := serving (Schema0 example_legacy) (last_key (Schema0 example_legacy)) in
   get_raw b#"y" w = Some (Ok b#"raw2", w) ∧
   ∃ at_, get_attachment b#"y" b#"a1" w = Some (Ok at_, w) ∧ att_content at_ = b#"abc") ∧
  (let w := serving (Schema1 example_previous) 3 in
   messages (Store.db w) = p_messages example_previous ∧ get_raw b#"p" w = Some (Ok b#"raw8!", w) ∧
   ∃ s1 s2, get_attachment b#"p" b#"b1" w = Some (Ok {| att := s1; att_content := b#"ok" |}, w) ∧
     get_attachment b#"p" b#"b2" w = Some (Ok {| att := s2; att_content := b#"aw8" |}, w)).
Proof.
  split; intros w.
  - destruct (migrated_store_serves example_path SourceSchema.Legacy example_source
      (print_of SourceSchema.Legacy (Schema0 example_legacy)) example_files example_files w) as (_ & _ & Hall).
    + exact example_legacy_ok.
    + exists example_migrated. split; [exact example_finished|]. split_and!; [by vm_compute|by vm_compute|by vm_compute|done].
    + reflexivity.
    + exists example_migrated. split; [by vm_compute|reflexivity].
    + destruct (Hall (plain_row 2 b#"y" b#"raw2" true false)) as [Hraw Hatt]; [right; left|]. split; [exact Hraw|].
      destruct (Hatt example_attachment) as (at_ & Hat & Hcontent & _); [left|reflexivity|reflexivity|vm_compute; discriminate|].
      exists at_. exact (conj Hat Hcontent).
  - destruct (migrated_store_serves example_path SourceSchema.Previous previous_source
      previous_print previous_files previous_files w) as (_ & Hmsgs & Hall).
    + exact example_previous_ok.
    + exists previous_migrated. split; [exact previous_finished|]. split_and!; [by vm_compute|by vm_compute|by vm_compute|done].
    + reflexivity.
    + exists previous_migrated. split; [by vm_compute|reflexivity].
    + destruct (Hall (i_record (legacy_item plain_columns (plain_row 3 b#"p" b#"raw8!" true false)))) as (body & Hbody & Hraw & Hatt); [left|].
      injection Hbody as <-. split; [exact Hmsgs|]. split; [exact Hraw|]. do 2 eexists.
      split; [exact (Hatt 1%Z _ ltac:(left) eq_refl)|exact (Hatt 2%Z _ ltac:(right; left) eq_refl)].
Defined.

Definition migrated_example (script : list (option mishap)) : Disk :=
  (example_disk script) <| files := example_files |>.
Definition restored_by (w : Disk) : Disk :=
  match restore_backup example_path w with Some (_, w) => w | None => w end.
Lemma example_files_names q : q ∉ path_names example_path → example_files !! q = None.
Proof.
  intros Hq. unfold example_files. rewrite lookup_insert_ne; [apply lookup_singleton_ne|].
  - intros <-. apply Hq. apply (B_main example_path SourceSchema.Legacy).
  - intros <-. apply Hq. apply D_main.
Qed.
Lemma migrated_example_disk script :
  migrated_disk example_path SourceSchema.Legacy example_source example_migrated (migrated_example script).
Proof.
  split; try done.
  - exact example_legacy_ok.
  - exact (finished_made _ _ _ _ example_finished).
  - intros q Hq. apply example_files_names. intros Hin. by rewrite (is_kept_name example_path q Hin) in Hq.
  - split; [done|]. intros p x Hp Hx. apply example_files_names. intros Hin.
    assert (Hclock : is_timestamp utc_now = true) by (vm_compute; reflexivity).
    apply (restore_apart example_path Hclock p x Hp); [by right|exact Hx].
Qed.
Lemma restored_by_runs w : (if restore_backup example_path w then true else false) = true →
  ∃ r, restore_backup example_path w = Some (r, restored_by w).
Proof. unfold restored_by. destruct (restore_backup _ w) as [[r w2]|]; [|done]. by exists r. Qed.
Lemma restarted_migrated script : restarted (migrated_example script) (migrated_example script).
Proof. unfold restarted. by split_and!. Qed.
Lemma interrupted_restore_keeps_both_witness :
  let w0 := migrated_example (killed_after 31) in
  ∃ r w2, restore_backup example_path (again (restored_by w0) []) = Some (r, w2) ∧ is_ok r = true ∧
    Restored example_path SourceSchema.Legacy example_source example_migrated (files w0) (files w2).
Proof.
  destruct (restored_by_runs (migrated_example (killed_after 31))) as [r1 H1]; [vm_compute; reflexivity|].
  destruct (interrupted_restore_keeps_both example_path SourceSchema.Legacy example_source example_migrated (migrated_example (killed_after 31))
    (restored_by (migrated_example (killed_after 31))) (again (restored_by (migrated_example (killed_after 31))) []))
    as (r & w2 & Hrun & _ & _ & Hl).
  - apply migrated_example_disk.
  - reflexivity.
  - exact (another _ _ _ _ _ _ (no_restore _ _) (restarted_migrated _) H1).
  - apply restarted_again. vm_compute. reflexivity.
  - assert (Hrest : bool_decide (others (restored_by (migrated_example (killed_after 31))) = ∅) &&
      negb (locked_elsewhere (restored_by (migrated_example (killed_after 31)))) &&
      (length (stops (restored_by (migrated_example (killed_after 31)))) =? 0) &&
      bool_decide (sides (restored_by (migrated_example (killed_after 31))) = ∅) &&
      bool_decide (files (restored_by (migrated_example (killed_after 31))) !! example_path = None) = true) by (vm_compute; reflexivity).
    apply andb_true_iff in Hrest as [[[[Ho%bool_decide_eq_true Hk%negb_true_iff]%andb_true_iff Hs%Nat.eqb_eq]%andb_true_iff
      Hsd%bool_decide_eq_true]%andb_true_iff Hgone%bool_decide_eq_true].
    destruct Hl as [Hres [Hok|[[Hback _] _]]]; [apply lucky_again; [exact Ho|exact Hk|by apply length_zero_iff_nil]|rewrite (proj1 (again_same _ _)); exact Hsd|reflexivity| |].
    + exists r, w2. exact (conj Hrun (conj Hok Hres)).
    + rewrite (proj2 (again_same _ _)) in Hback. pose proof (eq_trans (eq_sym Hgone) Hback) as Heq. discriminate Heq.
Defined.

(** What is at the paths: the database, its backup and the kept file, by their
    versions. *)
Definition versions (w : Disk) : list (option Z) :=
  map (λ q, user_version <$> files w !! q) [example_path; backup (paths_of example_path) SourceSchema.Legacy; kept example_path].
(** Nothing goes wrong: the source is back and the migrated database is kept. *)
Example restore_undoes : versions (restored_by (migrated_example [])) = [Some 0; None; Some 2]%Z.
Proof. vm_compute. reflexivity. Qed.
(** Killed between its renames, it is finished by the next one. *)
Example restore_killed_between : versions (restored_by (migrated_example (killed_after 31))) = [None; Some 0; Some 2]%Z.
Proof. vm_compute. reflexivity. Qed.
Example restore_finished : versions (restored_by (again (restored_by (migrated_example (killed_after 31))) [])) = [Some 0; None; Some 2]%Z.
Proof. vm_compute. reflexivity. Qed.
(** Killed while it has the backup open, it leaves the backup's side files, and the
    next restore takes them for those of another process, though there is none. *)
Example restore_finds_its_own_side_files :
  match restore_backup example_path (again (restored_by (migrated_example (killed_after 18))) []) with
  | Some (Err (Failed (RestoreRefused (RestoreFileInUse _ file))), w) =>
    file = sidecar (backup (paths_of example_path) SourceSchema.Legacy) WAL_SUFFIX ∧ bool_decide (others w = ∅) = true
  | _ => False
  end.
Proof. vm_compute. split; reflexivity. Qed.
