(* ===== verification/Startup.v ===== *)
(** Opening the store when the server starts: [prepare_database_file] and
    [open_repository] of [crates/rustmail-server/src/main.rs] on the disk, with
    [initialize_database] of [crates/rustmail-storage/src/schema.rs] on a file. *)
From S2P Require Import Prelude RustStd StorageError Content MailParser Locator Prepared Query Database Store Repo Tables OldDb Fingerprint MigrateDisk MigrateBuild Migrate MigrateWork MigrateCopies MigrateChecks MigrateLogic MigrateStates MigrateRecovery MigrateServed Instances MigrateRestore MigrateProperties.
From S2P Require Schema.

Section startup.
Context `{Json, Zstd, MailParser, Machine}.

(** The first connection of a pool whose URL says [mode=rwc]: a file that is not
    there is created, empty. *)
Definition connect_rwc (p : bytes) : FS unit :=
  sql;;
  there ← gets (λ w, bool_decide (is_Some (files w !! p)));
  (if (there : bool) then mret tt else on_files (<[p := empty_file default_mode]>));;
  on_sides (λ s, s ∪ side_files p).

(** [create_schema]: its second look and its statements are one transaction. *)
Definition with_schema (f : DbFile) : result StorageError DbFile :=
  layout ← Schema.inspect_layout (probed f);
  match layout with
  | Schema.LayoutCurrent => Ok f
  | Schema.LayoutEmpty => Ok (f <| contents := Schema2 empty_tables |> <| user_version := Schema.SCHEMA_VERSION |>)
  end.
Definition create_schema (p : bytes) : FS unit := transact p with_schema.
Definition initialize_database (p : bytes) : FS unit :=
  f ← read_file p;
  layout ← lift (Schema.inspect_layout (probed f));
  (match layout with Schema.LayoutEmpty => create_schema p | Schema.LayoutCurrent => mret tt end);;
  sql.
(** The writer, the schema, the readers; what the repository then serves. *)
Definition open_repository (p : bytes) : FS Tables :=
  connect_rwc p;;
  initialize_database p;;
  sql;;
  f ← read_file p;
  match contents f with Schema2 t => mret t | _ => refuse NO_SUCH_TABLE end.

(** [None]: the process ends before it serves, because a stop was asked for. *)
Definition start_store (path : bytes) : FS (option Tables) :=
  preparation ← prepare_database_file path;
  match preparation with
  | PreparationPaused _ _ => mret None
  | Ready _ =>
    stop ← should_stop;
    if (stop : bool) then mret None
    else t ← open_repository path; mret (Some t)
  end.

Lemma probe_empty g : Schema.probe g = Ok Schema.EmptyFile → Schema.file_tables g = [].
Proof.
  unfold Schema.probe. destruct (_ =? Schema.SCHEMA_VERSION)%Z; [done|]. destruct (_ <? _)%Z; [done|].
  destruct (Schema.file_tables g); [done|]. rewrite andb_false_r. by repeat (destruct (_ && _); [done|]).
Qed.
(** What [create_schema] does to the file is what [Schema.create_schema] does to what
    the check reads of it. *)
Lemma with_schema_agrees f :
  Schema.create_schema None (probed f) =
    match with_schema f with Ok f' => (Ok tt, probed f') | Err e => (Err e, probed f) end.
Proof.
  unfold Schema.create_schema, with_schema. destruct (Schema.inspect_layout (probed f)) as [[]|e] eqn:Hl; simpl; try done.
  unfold Schema.inspect_layout in Hl. destruct (Schema.probe (probed f)) as [[]|] eqn:Hp; simplify_eq/=.
  apply probe_empty, app_eq_nil in Hp as [Hc Ho]. unfold Schema.created, probed. simpl. by destruct (origin_row f).
Qed.

(** ** After a migration *)

Context `{!JsonLaws}.
Context (path : bytes) (s : SourceSchema.t) (src : DbFile) (base : gmap bytes DbFile).
Abbreviation print := (print_of s (contents src)).
Abbreviation whole := (tables_upto (contents src) (last_key (contents src))).

Lemma current_layout f : user_version f = Schema.SCHEMA_VERSION → Schema.inspect_layout (probed f) = Ok Schema.LayoutCurrent.
Proof. intros Hv. unfold Schema.inspect_layout, Schema.probe, probed. simpl. by rewrite Hv. Qed.

(** A file that is there is not created. *)
Lemma connect_rwc_there p w : is_Some (files w !! p) → connect_rwc p w = connect p w.
Proof.
  intros Hp. unfold connect_rwc, connect, sql, meet, mbind, M_mbind, gets.
  destruct (dead w); [done|]. destruct (mishaps w) as [|[[| |]|] ms]; simpl; try done; by rewrite bool_decide_eq_true_2.
Qed.
Lemma does_connect_rwc L p F C J :
  p ∈ path_names path → (∀ fs, F fs → is_Some (fs !! p)) → (∀ fs, F fs → J fs) →
  does L (path_names path) F C (connect_rwc p) (λ _, F) (λ _ q, C q ∧ q ≠ p) J.
Proof.
  intros Hp HF HJ w Hw Hv. unfold wp. rewrite connect_rwc_there; [|apply HF, Hv].
  assert (Hc : does L (path_names path) F C (connect p) (λ _, F) (λ _ q, C q ∧ q ≠ p) J) by (rule does_connect; auto).
  by apply Hc.
Qed.

(** A file at the current schema is opened as it is. *)
Lemma does_open_repository L f t F C J :
  (∀ fs, F fs → J fs) → (∀ fs, F fs → fs !! path = Some f) →
  user_version f = Schema.SCHEMA_VERSION → contents f = Schema2 t →
  does L (path_names path) F C (open_repository path) (λ r fs, F fs ∧ r = t) (λ _, nothing) J.
Proof.
  intros HJ HF Hv Hc. assert (Hmain : path ∈ path_names path) by apply D_main.
  unfold open_repository, initialize_database.
  rule does_bind; [rule does_connect_rwc; [done| |done]; intros fs Hfs; by rewrite HF|]. intros [].
  rule does_seq.
  - rule does_step; [rule (does_read_known L _ path f); auto|]. intros f' ->. rewrite current_layout by done.
    rule does_val. rule does_seq; [by rule does_ret|]. by rule does_sql.
  - rule does_seq; [by rule does_sql|]. rule does_step; [rule (does_read_known L _ path f); auto|]. intros f' ->.
    rewrite Hc. by rule does_ret.
Qed.

Definition opened (L : Prop) (r : option Tables) (fs : gmap bytes DbFile) : Prop :=
  Safe path s src print base fs ∧ (∀ t, r = Some t → After path s src print base fs ∧ t = whole) ∧ (L → is_Some r).
Lemma does_start_store (L : Prop) C :
  source_ok s (contents src) → OldDb.user_version src = SourceSchema.version s → 0 < available_parallelism →
  (L → Forall readable (all_items (contents src)) ∧ ∀ i, i ∈ all_items (contents src) → is_ok (compress (i_raw i)) = true) →
  does L (path_names path) (Safe path s src print base) C (start_store path) (opened L) (λ _, nothing) (Safe path s src print base).
Proof.
  intros Hok Hv Hcores Hpacks. unfold start_store, prepare_database_file.
  rule does_bind; [apply does_prepare; [done..| |done|by apply print_of_source]; done|].
  intros prep. destruct prep as [report|migrated total].
  - rule does_bind; [rule does_should_stop|]. intros stop. destruct stop.
    + rule does_ret; [|done]. intros fs [Ha Hstop]. split_and!; [by right; right|done|]. intros HL. by destruct (Hstop eq_refl).
    + rule (does_pre L _ _ (λ fs, ∃ f, finished s src print f ∧ holds path s base (Some f) (Some src) (λ o, o = None) fs) _ nothing);
        [|by intros fs [Ha _]|done].
      rule does_ex. intros f. rule (does_with L _ (finished s src print f)); [by intros fs []|]. intros Hf.
      rule does_step; [rule (does_open_repository L f whole)|].
      * intros fs [_ Hh]. right. right. by exists f.
      * intros fs [_ Hh]. apply Hh.
      * apply (co_version _ _ _ _ _ _ Hf).
      * apply (co_contents _ _ _ _ _ _ Hf).
      * intros t ->. rule does_ret; [|done]. intros fs [_ Hh]. assert (Ha : After path s src print base fs) by by exists f.
        split_and!; [by right; right|by intros t [= <-]|done].
  - rule does_ret; [|done]. intros fs [Hb HL]. split_and!; [left; by eapply MigrateTarget.partial_before|done|done].
Qed.
End startup.

Section started.
Context `{Json, !JsonLaws, Zstd, !ZstdLaws, MailParser, Machine}.

(** A start on what a history left. *)
Lemma history_starts (L : Prop) path s src past w0 w w' :
  history path s w0 src past w → 0 < available_parallelism →
  (L → Forall readable (all_items (contents src)) ∧ ∀ i, i ∈ all_items (contents src) → is_ok (compress (i_raw i)) = true) →
  restarted w w' → (L → lucky w') →
  wp (start_store path) (λ r w2, history path s w0 src past w2 ∧
    (∀ t, r = Ok (Some t) → After path s src (print_of s (contents src)) (files w0) (files w2) ∧
      t = tables_upto (contents src) (last_key (contents src))) ∧
    (L → ∃ t, r = Ok (Some t))) w'.
Proof.
  intros Hh Hcores Hpacks (Hfiles & Hsides & Hm) HL. pose proof (history_source _ _ _ _ _ _ Hh) as Hok.
  assert (Ht' : tidy (path_names path) w').
  { destruct (hi_tidy _ _ _ _ _ _ Hh) as [Ht1 Ht2]; split; [rewrite Hsides|rewrite Hfiles]; assumption. }
  pose proof (does_start_store path s src (files w) L nothing Hok (hi_version _ _ _ _ _ _ Hh) Hcores Hpacks) as Hrun.
  eapply wp_mono; [apply (Hrun w')|].
  - by split.
  - split_and!; [simpl; rewrite Hfiles; apply (hi_safe _ _ _ _ _ _ Hh)|exact Ht'|done].
  - intros [r|h] w2 [_ Hr].
    + destruct Hr as ((HS & Hopen & Hgot) & Htidy & _). split_and!; [by eapply history_on| |].
      * intros t [= ->]. destruct (Hopen t eq_refl) as [Ha ->]. split; [by eapply after_on|done].
      * intros Hl. destruct (Hgot Hl) as [t ->]. by exists t.
    + destruct Hr as [HnL (HS & Htidy & _)]. split_and!; [by eapply history_on|done|done].
Qed.

(** C17: refinement. What a server that starts on an older database serves is that
    database's mail, as it is by then: whatever interrupted the starts before, whatever
    an older rustmail did to it in between and whatever happens to this start, if it
    gets a store then the store is consistent and its messages are the older ones in
    order, and if it gets none then nothing is lost; and a start that nothing goes
    wrong in gets it. *)
Theorem started_store_is_the_mail path s src0 src past w0 w w' :
  fresh_disk path s src0 w0 → 0 < available_parallelism → sessions path s src0 w0 src past w → restarted w w' →
  ∃ r w2, start_store path w' = Some (r, w2) ∧
    Kept path s src (print_of s (contents src)) (files w0) (files w2) ∧
    (∀ t, r = Ok (Some t) → wf t ∧ messages t = map i_record (all_items (contents src)) ∧
      After path s src (print_of s (contents src)) (files w0) (files w2)) ∧
    (lucky w' → (∀ i, i ∈ all_items (contents src) → is_ok (compress (i_raw i)) = true) → ∃ t, r = Ok (Some t)).
Proof.
  intros Hd Hcores Hses Hre. pose proof (sessions_history path s src0 w0 src past w Hd Hcores Hses) as Hh.
  pose proof (history_source _ _ _ _ _ _ Hh) as Hok.
  set (L := lucky w' ∧ ∀ i, i ∈ all_items (contents src) → is_ok (compress (i_raw i)) = true).
  assert (Hreads : L → Forall readable (all_items (contents src)) ∧ ∀ i, i ∈ all_items (contents src) → is_ok (compress (i_raw i)) = true).
  { intros [_ Hp]. split; [|done]. by apply packed_readable. }
  destruct (history_starts L path s src past w0 w w' Hh Hcores Hreads Hre ltac:(by intros [])) as (r & w2 & Hrun & Hh2 & Hgot & HL).
  exists r, w2. split_and!; [done|by apply history_kept in Hh2| |by intros Hl Hp; apply HL].
  intros t Hr. destruct (Hgot t Hr) as [Ha ->]. split_and!; [by apply (whole_wf s)|by apply (whole_messages s)|exact Ha].
Qed.
End started.

(** ** Runs of it *)

Import PlainZstd.
#[local] Existing Instance example_machine.

Lemma started_store_is_the_mail_witness :
  ∃ t w2, start_store example_path (again (used half_copied) []) = Some (Ok (Some t), w2) ∧ wf t ∧
    messages t = map (λ m, i_record (legacy_item plain_columns m)) (l_messages used_legacy).
Proof.
  destruct (started_store_is_the_mail example_path SourceSchema.Legacy example_source example_used [example_source]
    (example_disk (killed_after 60)) (used half_copied) (again (used half_copied) []))
    as (r & w2 & Hrun & _ & Hmail & Hlucky).
  - exact example_fresh.
  - repeat constructor.
  - exact used_session.
  - apply restarted_again. vm_compute. reflexivity.
  - destruct Hlucky as [t Ht].
    + assert (Hrest : bool_decide (others (used half_copied) = ∅) && negb (locked_elsewhere (used half_copied)) &&
        (length (stops (used half_copied)) =? 0) = true) by (vm_compute; reflexivity).
      apply andb_true_iff in Hrest as [[Ho%bool_decide_eq_true Hl%negb_true_iff]%andb_true_iff Hs%Nat.eqb_eq].
      apply lucky_again; [exact Ho|exact Hl|by apply length_zero_iff_nil].
    + apply Forall_forall. repeat constructor.
    + exists t, w2. destruct (Hmail t Ht) as (Hwf & Hm & _). rewrite Ht in Hrun. refine (conj Hrun (conj Hwf _)).
      rewrite Hm. reflexivity.
Defined.

(** The versions of the database and of its backup, and how many messages are
    served, after starts one after the other. *)
Definition starts (w : Disk) : option (nat * Disk) :=
  match start_store example_path w with
  | Some (Ok (Some t), w) => Some (length (messages t), w)
  | _ => None
  end.
Definition bare_disk : Disk :=
  {| files := ∅; sides := ∅; others := ∅; locked_elsewhere := false; mishaps := []; meddling := []; stops := []; dead := false |}.
(** Without a file an empty store is created; the next start opens it. *)
Example first_start : (λ x, (fst x, user_version <$> files (snd x) !! example_path)) <$> starts bare_disk = Some (0, Some 2%Z).
Proof. vm_compute. reflexivity. Qed.
Example second_start : fst <$> (starts bare_disk ≫= λ x, starts ((again (snd x) []) <| sides := ∅ |>)) = Some 0.
Proof. vm_compute. reflexivity. Qed.
(** A stop asked for while the migration ends keeps the server from starting. *)
Example stopped_start :
  match start_store example_path ((example_disk []) <| stops := [false; false; true] |>) with
  | Some (Ok r, w) => r = None ∧ (user_version <$> files w !! example_path) = Some 2%Z
  | _ => False
  end.
Proof. vm_compute. by split. Qed.
