(* ===== verification/Restart.v ===== *)
(** Starting on a store of the current schema, or on none: what [open_repository]
    and [prepare_database_file] of [crates/rustmail-server/src/main.rs] make of a
    file that needs no migration, whatever interrupts the starts. *)
From S2P Require Import Prelude RustStd StorageError Content MailParser Locator Prepared Query Database Store Repo Tables OldDb Fingerprint MigrateDisk MigrateBuild Migrate MigrateWork MigrateCopies MigrateChecks MigrateLogic MigrateStates MigrateRecovery MigrateServed Instances RepoProperties RepoReads MigrateProperties Startup.
From S2P Require Schema.

Section restart.
Context `{Json, Zstd, MailParser, Machine}.
Context (path : bytes) (base : gmap bytes DbFile) (t : Tables).
Abbreviation p := (paths_of path).

(** A database of the current schema that holds [t]; a file nothing was created in. *)
Definition holds_store (f : DbFile) : Prop := user_version f = Schema.SCHEMA_VERSION ∧ contents f = Schema2 t.
Definition unwritten (f : DbFile) : Prop := probe f = Ok Schema.EmptyFile.
(** The lock file aside, only the database itself may change. *)
Definition others_kept (fs : gmap bytes DbFile) : Prop := ∀ q, q ≠ path → q ≠ lock p → fs !! q = base !! q.
Definition no_backups : Prop := ∀ b, b ∈ backups p → base !! b = None.

Definition stored (fs : gmap bytes DbFile) : Prop := others_kept fs ∧ ∃ f, fs !! path = Some f ∧ holds_store f.
Definition unborn (fs : gmap bytes DbFile) : Prop :=
  others_kept fs ∧ t = empty_tables ∧ no_backups ∧ match fs !! path with Some f => unwritten f | None => True end.
(** The store of [t], which need not be there yet as long as nothing is in it. *)
Definition store_is (fs : gmap bytes DbFile) : Prop := stored fs ∨ unborn fs.

Context (Hcopy : base !! migrating p = None).

Lemma others_kept_path f fs : others_kept fs → others_kept (<[path := f]> fs).
Proof. intros Hk q Hq Hl. rewrite lookup_insert_ne by done. by apply Hk. Qed.
Lemma lock_not_path : lock p ≠ path.
Proof. intros Heq. apply (f_equal length) in Heq. simpl in Heq. unfold sidecar in Heq. rewrite length_app in Heq. simpl in Heq. lia. Qed.
Lemma lock_kept (f : DbFile) fs : (stored fs → stored (<[lock p := f]> fs)) ∧ (unborn fs → unborn (<[lock p := f]> fs)).
Proof.
  assert (Hk : others_kept fs → others_kept (<[lock p := f]> fs)).
  { intros Hk q Hq Hl. rewrite lookup_insert_ne by done. by apply Hk. }
  split; [intros [Ho Hf]|intros (Ho & Ht & Hb & Hf)]; unfold stored, unborn; rewrite lookup_insert_ne by apply lock_not_path; auto.
Qed.
Lemma kept_copy fs : others_kept fs → fs !! migrating p = None.
Proof.
  intros Hk. rewrite Hk; [done| |]; pose proof (names_differ path) as Hn; unfold path_names in Hn; cbn zeta in Hn;
    rewrite !NoDup_cons in Hn; set_solver.
Qed.
Lemma kept_backup fs b : others_kept fs → no_backups → b ∈ backups p → fs !! b = None.
Proof.
  intros Hk Hno Hb. rewrite Hk; [by apply Hno| |]; pose proof (names_differ path) as Hn; unfold path_names in Hn; cbn zeta in Hn;
    rewrite !NoDup_cons in Hn; unfold backups in Hb; set_solver.
Qed.
Lemma stored_is fs : stored fs → store_is fs.
Proof. by left. Qed.
Lemma unborn_is fs : unborn fs → store_is fs.
Proof. by right. Qed.
Hint Resolve stored_is unborn_is : core.

(** ** Preparing *)

Lemma backup_main b : b ∈ backups p → b ∈ path_names path.
Proof.
  unfold backups. rewrite !elem_of_cons, elem_of_nil. intros [->|[->|[]]];
    [apply (B_main path SourceSchema.Legacy)|apply (B_main path SourceSchema.Previous)].
Qed.
Lemma does_no_copy (L : Prop) F C : (∀ fs, F fs → store_is fs) → (∀ fs, F fs → others_kept fs) →
  does L (path_names path) F C (inspect_copy (migrating p)) (λ r fs, F fs ∧ r = CopyAbsent) (λ _, nothing) store_is.
Proof.
  intros HJ Hk. eapply does_conseq; [apply (does_inspect_copy _ path F C store_is HJ)|..]; try done.
  intros r fs [HF ->]. split; [done|]. by rewrite (kept_copy fs (Hk fs HF)).
Qed.
Lemma does_prepare_stored (L : Prop) C :
  does L (path_names path) stored C (prepare_database_file path) (λ r fs, stored fs ∧ r = Ready None) (λ _, nothing) store_is.
Proof.
  unfold prepare_database_file, prepare_with.
  rule does_seq; [rule does_acquire_lock; [apply lock_main|auto|by intros fs f; apply lock_kept]|].
  cbn [resolve_loop]. rule does_step; [rule (does_inspect_db L _ path stored _ store_is DbCurrent); [apply D_main|auto|]|].
  { intros fs (_ & f & -> & Hv & _). exists Schema.Current. split; [|done]. unfold probe, Schema.probe, probed. simpl. by rewrite Hv. }
  intros d ->. rule does_bind; [rule (does_no_copy L stored); [auto|by intros fs []]|]. intros state.
  rule (does_with L _ (state = CopyAbsent)); [by intros fs []|]. intros ->.
  rule (does_pre L _ _ stored _ nothing); [|by intros fs []|done].
  rule (does_step L _ (λ r, r = Some (Ready None))).
  - cbn [resolve]. rule does_seq; [rule does_log_backups; [auto|apply backup_main]|]. by rule does_ret.
  - intros r ->. by rule does_ret.
Qed.

(** A store that is not there yet, or empty, is left to be created. *)
Lemma does_no_backups (L : Prop) (F : gmap bytes DbFile → Prop) C (l : list bytes) : (∀ fs, F fs → unborn fs) → (∀ b, b ∈ l → b ∈ backups p) →
  does L (path_names path) F C (present_of l) (λ r fs, F fs ∧ r = []) (λ _, C) store_is.
Proof.
  intros HF. induction l as [|b l IH]; intros Hl; cbn [present_of]; [by rule does_ret|].
  rule (does_step L _ (λ there, there = false)).
  { rule run_post; [rule (does_exists L _ b F); [apply backup_main, Hl; by left|auto]|].
    intros there v [[Hfs ->] ?]. split; [|done]. split; [done|]. destruct (HF _ Hfs) as (Hk & _ & Hno & _).
    rewrite (kept_backup _ b Hk Hno) by (apply Hl; by left). done. }
  intros there ->. rule does_step; [rule IH; intros c Hc; apply Hl; by right|]. intros r ->. by rule does_ret.
Qed.
Lemma does_resolve_unborn (L : Prop) C d : d = DbAbsent ∨ d = DbEmpty →
  does L (path_names path) unborn C (resolve p default_options d CopyAbsent) (λ r fs, unborn fs ∧ r = Some (Ready None)) (λ _, nothing) store_is.
Proof.
  assert (Hrow : does L (path_names path) unborn C
    (any ← any_backup p;
     if (any : bool) then bs ← present_backups p;
       refuse (MigrationRefused (UnknownState (db p) (describe_db d) bs (migrating p) (describe_copy CopyAbsent)))
     else mret (Some (Ready None)))
    (λ r fs, unborn fs ∧ r = Some (Ready None)) (λ _, nothing) store_is).
  { rule (does_step L _ (λ any, any = false)).
    - unfold any_backup, present_backups. rule does_step; [rule (does_no_backups L unborn); auto|]. intros l ->. by rule does_ret.
    - intros any ->. by rule does_ret. }
  by intros [->| ->].
Qed.
Lemma does_prepare_unborn (L : Prop) C :
  does L (path_names path) unborn C (prepare_database_file path) (λ r fs, unborn fs ∧ r = Ready None) (λ _, nothing) store_is.
Proof.
  unfold prepare_database_file, prepare_with.
  rule does_seq; [rule does_acquire_lock; [apply lock_main|auto|by intros fs f; apply lock_kept]|].
  cbn [resolve_loop].
  rule (does_pre L _ _ (λ fs, ∃ o : option DbFile, unborn fs ∧ fs !! path = o)); [|by eauto|done].
  rule does_ex. intros o.
  set (F fs := unborn fs ∧ fs !! path = o). set (d := match o with None => DbAbsent | Some _ => DbEmpty end).
  rule does_step; [rule (does_inspect_db L _ path F _ store_is d); [apply D_main|intros fs []; auto|]|].
  { intros fs [(_ & _ & _ & Hf) Ho]. rewrite Ho in *. destruct o as [f|]; [|done]. by exists Schema.EmptyFile. }
  intros d' ->. rule does_bind; [rule (does_no_copy L F); [intros fs []; auto|by intros fs [[] _]]|]. intros state.
  rule (does_with L _ (state = CopyAbsent)); [by intros fs []|]. intros ->.
  rule (does_pre L _ _ unborn _ nothing); [|by intros fs [[] _]|done].
  rule does_step; [rule does_resolve_unborn; destruct o; auto|]. intros r ->. by rule does_ret.
Qed.

(** ** Opening *)

Lemma does_open_stored (L : Prop) C :
  does L (path_names path) stored C (open_repository path) (λ r fs, stored fs ∧ r = t) (λ _, nothing) store_is.
Proof.
  rule (does_pre L _ _ (λ fs, ∃ f, holds_store f ∧ others_kept fs ∧ fs !! path = Some f)); [|by intros fs (? & f & ? & ?); exists f|done].
  rule does_ex. intros f. rule (does_with L _ (holds_store f)); [by intros fs []|]. intros [Hv Hc].
  rule (does_post L _ _ _ _ _ (λ r fs, (holds_store f ∧ others_kept fs ∧ fs !! path = Some f) ∧ r = t));
    [apply (does_open_repository path L f t); [|by intros fs (_ & _ & ?)|done|done]| |done].
  - intros fs (? & ? & ?). left. split; [done|]. by exists f.
  - intros r fs [(? & ? & ?) ->]. split; [|done]. split; [done|]. by exists f.
Qed.

Lemma created_store f : t = empty_tables → unwritten f → ∃ f', with_schema f = Ok f' ∧ holds_store f'.
Proof.
  intros Ht Hf. unfold with_schema, Schema.inspect_layout. unfold unwritten, probe in Hf. rewrite Hf. simpl. eexists. split; [done|].
  unfold holds_store. by rewrite Ht.
Qed.
Lemma does_connect_new (L : Prop) C :
  does L (path_names path) unborn C (connect_rwc path) (λ _ fs, unborn fs ∧ is_Some (fs !! path)) (λ _, nothing) store_is.
Proof.
  unfold connect_rwc. rule does_seq; [rule does_sql; auto|].
  rule (does_bind L _ unborn C _ _ (λ b fs, unborn fs ∧ b = bool_decide (is_Some (fs !! path))) (λ _, C)).
  { eapply run_post; [by apply run_gets|]. intros b v [(HF & Ht & HC) ->]. by split_and!. }
  intros b. rule (does_bind L _ _ _ _ _ (λ _ fs, unborn fs ∧ is_Some (fs !! path)) (λ _, C)).
  { destruct b; [rule does_ret; [|done]|rule does_write; [apply D_main|]].
    - intros fs [Hu Hb]. split; [done|]. symmetry in Hb. by apply bool_decide_eq_true in Hb.
    - intros fs [(Hk & Ht & Hno & _) _]. rewrite lookup_insert_eq. split; [|by eexists].
      split_and!; [by apply others_kept_path|done|done|]. by rewrite lookup_insert_eq. }
  intros []. apply run_on_sides. intros v (HF & Ht & HC). split; [done|split; [|by intros _ q []]].
  apply tidy_sides; [done|]. intros q Hq [Hin|Hin]%elem_of_union; [by apply (proj1 Ht q Hq)|].
  by apply (main_not_side (path_names path) path q); [apply D_main|..].
Qed.
Lemma does_open_unborn (L : Prop) C :
  does L (path_names path) unborn C (open_repository path) (λ r fs, stored fs ∧ r = t) (λ _, nothing) store_is.
Proof.
  unfold open_repository, initialize_database. set (F fs := unborn fs ∧ is_Some (fs !! path)).
  assert (HF : ∀ fs, F fs → store_is fs) by (intros fs []; auto).
  assert (Hread : ∀ G : gmap bytes DbFile → Prop, (∀ fs, G fs → stored fs) →
    does L (path_names path) G nothing (f ← read_file path; match contents f with Schema2 t => mret t | _ => refuse NO_SUCH_TABLE end)
      (λ r fs, stored fs ∧ r = t) (λ _, nothing) store_is).
  { intros G HG. rule (does_pre L _ _ (λ fs, ∃ f, holds_store f ∧ stored fs ∧ fs !! path = Some f)); [|intros fs (Hk & f & Hf & Hs)%HG; exists f; split_and!; [done|split; [done|by exists f]|done]|done].
    rule does_ex. intros f. rule (does_with L _ (holds_store f)); [by intros fs []|]. intros [Hv Hc].
    rule does_step; [rule (does_read_known L _ path f); [by intros fs (_ & _ & ?)|by intros fs (_ & ? & _); left]|].
    intros f' ->. rewrite Hc. rule does_ret; [|done]. by intros fs (_ & ? & _). }
  rule does_bind; [rule does_connect_new|]. intros [].
  rule (does_bind L _ F nothing _ _ (λ _, stored) (λ _, nothing)).
  - rule (does_step L _ (λ f, unwritten f ∧ t = empty_tables)).
    { rule run_post; [rule (does_read L _ path F); [by intros fs []|done]|].
      intros f v [[HFv Hf] ?]. split; [|done]. split; [done|]. destruct HFv as [(_ & Ht & _ & Hu) _]. by rewrite Hf in Hu. }
    intros f [Hf Ht]. unfold unwritten, probe in Hf. unfold Schema.inspect_layout. rewrite Hf. rule does_val.
    rule (does_bind L _ F nothing _ _ (λ _, stored) (λ _, nothing)); [|intros []; rule does_sql; auto].
    unfold create_schema. rule does_transact; [apply D_main|done|].
    intros fs [(Hk & _ & _ & Hu) [g Hg]]. rewrite Hg in Hu. destruct (created_store g Ht Hu) as (g' & Hg' & Hs).
    exists g, g'. split_and!; [done|done|]. split; [by apply others_kept_path|]. exists g'. by rewrite lookup_insert_eq.
  - intros []. rule does_seq; [rule does_sql; auto|]. by apply Hread.
Qed.

(** ** Starting *)

Definition served (L : Prop) (r : option Tables) (fs : gmap bytes DbFile) : Prop :=
  store_is fs ∧ (∀ t', r = Some t' → stored fs ∧ t' = t) ∧ (L → r = Some t).
Lemma does_start_kept (L : Prop) F C : (∀ fs, F fs → store_is fs) →
  (∀ C, does L (path_names path) F C (prepare_database_file path) (λ r fs, F fs ∧ r = Ready None) (λ _, nothing) store_is) →
  (∀ C, does L (path_names path) F C (open_repository path) (λ r fs, stored fs ∧ r = t) (λ _, nothing) store_is) →
  does L (path_names path) F C (start_store path) (served L) (λ _, nothing) store_is.
Proof.
  intros HF Hprep Hopen. unfold start_store. rule (does_pre L _ _ F _ nothing); [|done|by intros q []].
  rule does_step; [apply Hprep|]. intros prep ->.
  rule does_bind; [rule does_should_stop|]. intros stop. destruct stop.
  - rule does_ret; [|done]. intros fs [HFs Hstop]. split_and!; [auto|done|]. intros HL. by destruct (Hstop eq_refl).
  - rule (does_pre L _ _ F _ nothing); [|by intros fs []|done]. rule does_bind; [apply Hopen|]. intros t'.
    rule does_ret; [|done]. intros fs [Hs ->]. split_and!; [auto|by intros t' [= <-]|done].
Qed.
End restart.

Section served.
Context `{Json, Zstd, MailParser, Machine}.

(** A store on the disk: no migration under way, and its side files its own. *)
Record store_disk (path : bytes) (t : Tables) (w : Disk) : Prop := {
  sd_store : store_is path (files w) t (files w);
  sd_copy : files w !! migrating (paths_of path) = None;
  sd_tidy : tidy (path_names path) w;
  sd_alone : meddling w = [];
}.

(** A store that is there is served as it is, and a new one is empty:
    whatever interrupts a start, the disk still holds the same store afterwards, and
    no other file is touched; a start that gets a store serves its messages and no
    others; and a start that nothing goes wrong in gets it. *)
Lemma start_serves_the_store path t w :
  store_disk path t w →
  ∃ r w2, start_store path w = Some (r, w2) ∧
    store_is path (files w) t (files w2) ∧ files w2 !! migrating (paths_of path) = None ∧ tidy (path_names path) w2 ∧
    (∀ t', r = Ok (Some t') → t' = t ∧ ∃ f, files w2 !! path = Some f ∧ holds_store t f) ∧
    (lucky w → r = Ok (Some t)).
Proof.
  intros [Hs Hcopy Ht Hm]. assert (Hstart : does (lucky w) (path_names path) (store_is path (files w) t) nothing (start_store path)
    (served path (files w) t (lucky w)) (λ _, nothing) (store_is path (files w) t)).
  { apply does_or; apply does_start_kept; intros; try (by left); try (by right);
      auto using does_prepare_stored, does_open_stored, does_prepare_unborn, does_open_unborn. }
  destruct (Hstart w) as (r & w2 & Hrun & _ & Hr); [by split|split_and!; [exact Hs|exact Ht|by intros _ q []]|].
  exists r, w2. split; [exact Hrun|].
  assert (Hkept : store_is path (files w) t (files w2) → files w2 !! migrating (paths_of path) = None).
  { intros [[Hk _]|[Hk _]]; by apply (kept_copy path (files w)). }
  destruct r as [r|h].
  - destruct Hr as ((HS & Hserved & HL) & Htidy & _). split_and!; [exact HS|by apply Hkept|exact Htidy| |].
    + intros t' [= ->]. destruct (Hserved t' eq_refl) as [[_ Hf] ->]. by split.
    + intros Hl. by rewrite (HL Hl).
  - destruct Hr as [HnL (HS & Htidy & _)]. split_and!; [exact HS|by apply Hkept|exact Htidy|done|]. by intros Hl%HnL.
Qed.
End served.

(** What a migration leaves is such a store, of the older messages. *)
Lemma migrated_is_a_store `{Json, Zstd, MailParser, Machine} path s src base fs :
  After path s src (print_of s (contents src)) base fs →
  store_is path fs (tables_upto (contents src) (last_key (contents src))) fs ∧ fs !! migrating (paths_of path) = None.
Proof.
  intros (f & Hf & Hd & _ & Hm & _). split; [|done]. left. split; [by intros q|]. exists f. split; [done|].
  split; [apply (co_version _ _ _ _ _ _ Hf)|apply (co_contents _ _ _ _ _ _ Hf)].
Qed.

(** ** Starts of it *)

Import PlainZstd.
#[local] Existing Instance example_machine.

(** A start killed while it creates the store leaves an empty file, which the next
    start makes the store of. *)
Definition killed_disk : Disk := bare_disk <| mishaps := replicate 9 None ++ [Some Kill] |>.
Definition half_made : Disk := match start_store example_path killed_disk with Some (_, w) => w | None => bare_disk end.
Example half_made_is_empty : user_version <$> files half_made !! example_path = Some 0%Z.
Proof. vm_compute. reflexivity. Qed.
Example half_made_is_served : fst <$> starts (half_made <| mishaps := [] |> <| dead := false |>) = Some 0.
Proof. vm_compute. reflexivity. Qed.

(** Two messages, and a lock file an earlier process left. *)
Definition two_kept : DbFile :=
  {| user_version := Schema.SCHEMA_VERSION; contents := Schema2 (Store.db two_stored); origin_row := None; mode := 384; intact := true |}.
Definition kept_disk : Disk :=
  bare_disk <| files := <[example_path := two_kept]> {[ lock (paths_of example_path) := empty_file 384 ]} |>.
Lemma kept_disk_store : store_disk example_path (Store.db two_stored) kept_disk.
Proof.
  split; [|reflexivity| |done].
  - left. split; [by intros q|]. exists two_kept. by split.
  - split; [done|]. intros p x Hp Hx. change (files kept_disk !! x) with ((<[example_path := two_kept]> ({[ lock (paths_of example_path) := empty_file 384 ]} : gmap bytes DbFile)) !! x).
    rewrite lookup_insert_ne by (intros <-; by apply (apart p example_path Hp (D_main _))).
    apply lookup_singleton_ne. intros <-. by apply (apart p (lock (paths_of example_path)) Hp (lock_main _)).
Qed.
Lemma start_serves_the_store_witness :
  ∃ w2, start_store example_path kept_disk = Some (Ok (Some (Store.db two_stored)), w2) ∧
    ∃ f, files w2 !! example_path = Some f ∧ holds_store (Store.db two_stored) f.
Proof.
  destruct (start_serves_the_store example_path (Store.db two_stored) kept_disk kept_disk_store) as (r & w2 & Hrun & _ & _ & _ & Ht & Hl).
  assert (Hr : r = Ok (Some (Store.db two_stored))) by (apply Hl; split; [constructor|reflexivity|constructor|reflexivity|reflexivity]).
  exists w2. split; [rewrite Hrun; by f_equal; f_equal|]. by apply (Ht _ Hr).
Defined.
