(* ===== verification/AppState.v ===== *)
(** What the request handlers and the consumer of captured mail share: the store,
    the events sent to WebSocket clients and the verdicts sent to SMTP sessions.
    [AppState] and [WsEvent] of [crates/rustmail-api/src/state.rs]. *)
From S2P Require Import Prelude RustStd SmtpSession StorageError Query Database Store.

Inductive WsEvent :=
| MessageNew (m : MessageSummary)
| MessageDelete (id : bytes)
| MessageRead (id : bytes) (is_read : bool)
| MessageStarred (id : bytes) (is_starred : bool)
| MessageTags (id : bytes) (tags : list bytes)
| MessagesClear.

(** An acknowledgement channel, by its number. *)
Abbreviation channel := nat.

(** How the connection to a release relay is secured. *)
Inductive RelaySecurity := ImplicitTls | RequiredStartTls.

(** What leaves the server, in the order it does. A handle dropped unanswered
    closes its channel too. *)
Inductive note :=
| Acked (ack : channel) (o : DeliveryOutcome)
| AckLost (ack : channel)
| Sent (e : WsEvent)
| Relayed (host : bytes) (port : Z) (security : RelaySecurity) (from : option bytes) (to : list bytes) (raw : bytes).

(** Each note is kept with the tables committed when it left. The scripts say
    whether the session is found to have given up and whether the deadline is
    found past, each time the code looks. *)
Record App := {
  world : World;
  history : list (note * Tables);
  abandonments : list bool;
  overdue : list bool;
}.
Definition set_world w s :=
  {| world := w; history := history s; abandonments := abandonments s; overdue := overdue s |}.
Definition set_looks a o s :=
  {| world := world s; history := history s; abandonments := a; overdue := o |}.
Definition noting n s :=
  {| world := world s; history := history s ++ [(n, db (world s))]; abandonments := abandonments s;
     overdue := overdue s |}.

(** A repository call, its error an answer. *)
Definition try {E A} (op : DB A) : M App E (result StorageError A) := λ s,
  match op (world s) with
  | Some (r, w) => Some (Ok r, set_world w s)
  | None => None
  end.
(** A repository call and [?]. *)
Definition call {E A} (from : StorageError → E) (op : DB A) : M App E A :=
  r ← try op; match r with Ok a => mret a | Err e => fail (from e) end.

(** A frame carries its event: encoding one to JSON loses nothing, and sending to
    no subscriber is not an error. *)
Definition broadcast {E} (e : WsEvent) : M App E unit := modify (noting (Sent e)).

Definition stored {E} (a : channel) : M App E unit := modify (noting (Acked a Stored)).
Definition rejected {E} (a : channel) : M App E unit := modify (noting (Acked a Rejected)).
Definition dropped {E} (a : channel) : M App E unit := modify (noting (AckLost a)).
Definition is_abandoned {E} (a : channel) : M App E bool := λ s,
  Some (Ok (default false (head (abandonments s))), set_looks (tail (abandonments s)) (overdue s) s).
Definition past_deadline {E} : M App E bool := λ s,
  Some (Ok (default false (head (overdue s))), set_looks (abandonments s) (tail (overdue s)) s).

Fixpoint each {E A} (f : A → M App E unit) (l : list A) : M App E unit :=
  match l with [] => mret tt | x :: l => f x;; each f l end.

(** ** Readings of a history *)

Definition closed (h : list (note * Tables)) : list channel :=
  omap (λ n, match n.1 with Acked a _ | AckLost a => Some a | _ => None end) h.
Definition stored_acks (h : list (note * Tables)) : list channel :=
  omap (λ n, match n.1 with Acked a Stored => Some a | _ => None end) h.
Definition events (h : list (note * Tables)) : list WsEvent :=
  omap (λ n, match n.1 with Sent e => Some e | _ => None end) h.

Definition relays (h : list (note * Tables)) : list note :=
  omap (λ n, match n.1 with Relayed _ _ _ _ _ _ => Some n.1 | _ => None end) h.

(** ** Laws *)

Lemma wp_try {E A} (op : DB A) Q s :
  wp op (λ r w, Q (Ok r) (set_world w s)) (world s) → wp (try op : M App E _) Q s.
Proof. intros (r & w & Hop & HQ). eexists _, _. split; [|exact HQ]. unfold try. by rewrite Hop. Qed.

Lemma wp_each_note {E A} (f : A → note) (l : list A) (Q : result E unit → App → Prop) s :
  Q (Ok tt) {| world := world s; history := history s ++ map (λ x, (f x, db (world s))) l;
               abandonments := abandonments s; overdue := overdue s |} →
  wp (each (λ x, modify (noting (f x))) l) Q s.
Proof.
  revert s. induction l as [|x l IH]; intros s HQ; cbn [each].
  - apply wp_ret. rewrite app_nil_r in HQ. by destruct s.
  - apply wp_modify, IH. simpl. by rewrite <- app_assoc.
Qed.

Lemma omap_map {A B C} (f : A → B) (g : B → option C) l : omap g (map f l) = omap (g ∘ f) l.
Proof. induction l as [|x l IH]; csimpl; [done|]. by rewrite IH. Qed.
Lemma omap_none {A B} (f : A → option B) l : (∀ x, f x = None) → omap f l = [].
Proof. intros Hf. induction l as [|x l IH]; csimpl; [done|]. by rewrite Hf. Qed.
Lemma omap_some {A B} (f : A → option B) g l : (∀ x, f x = Some (g x)) → omap f l = map g l.
Proof. intros Hf. induction l as [|x l IH]; csimpl; [done|]. by rewrite Hf, IH. Qed.
