(* ===== verification/Ingest.v ===== *)
(** Storing captured mail: the consumer of the SMTP sessions' deliveries in
    [crates/rustmail-server/src/main.rs], from a batch of deliveries to the rows,
    the verdicts and the announcements. *)
From S2P Require Import Prelude RustStd SmtpSession StorageError Content MailParser Locator Prepared Query Database Store Repo Tables RepoWrites Instances RepoProperties AppState.

Definition MAX_BATCH_MESSAGES : nat := 32.
Definition MAX_BATCH_BYTES : Z := 4 * 1024 * 1024.

(** A captured message and the channel its verdict travels back on. *)
Record Delivery := { message : ReceivedMessage; ack : channel }.

Definition raw_len (d : Delivery) : Z := Z.of_nat (length (raw (message d))).

(** One turn of the loop of [transactions]: the groups so far and [group_bytes]. *)
Definition push (st : list (list Delivery) * Z) (d : Delivery) : list (list Delivery) * Z :=
  let '(groups, group_bytes) := st in
  match last groups with
  | Some group =>
    if (group_bytes + raw_len d <=? MAX_BATCH_BYTES)%Z
    then (removelast groups ++ [group ++ [d]], (group_bytes + raw_len d)%Z)
    else (groups ++ [[d]], raw_len d)
  | None => (groups ++ [[d]], raw_len d)
  end.
Definition transactions (ds : list Delivery) : list (list Delivery) := fst (fold_left push ds ([], 0%Z)).

(** Nothing here returns a [Result]. *)
Abbreviation Ing := (M App Empty_set).

Section ingest.
Context `{Json, Zstd, MailParser, Sqlite, Platform}.

(** On the runtime or on the blocking pool, the message is parsed the same. *)
Definition prepare (m : ReceivedMessage) : result StorageError PreparedMessage :=
  parse (sender m) (recipients m) (raw m).

Section announcing.
Variable announce : MessageSummary → Ing unit.

Definition reject_rest (pending : list (PreparedMessage * channel)) : Ing unit :=
  each (λ x, rejected (snd x)) pending.

Fixpoint store_one_by_one (pending : list (PreparedMessage * channel)) : Ing (list MessageSummary) :=
  match pending with
  | [] => mret []
  | (message, ack) :: pending =>
    gone ← is_abandoned ack;
    if gone : bool then dropped ack;; store_one_by_one pending else
    late ← past_deadline;
    if late : bool then rejected ack;; reject_rest pending;; mret [] else
    r ← try (insert_prepared message);
    match r with
    | Ok (Some summary) =>
      stored ack;;
      announce summary;;
      rest ← store_one_by_one pending;
      mret (summary :: rest)
    | Ok None => λ _, None
    | Err e =>
      if is_store_wide e then rejected ack;; reject_rest pending;; mret []
      else rejected ack;; store_one_by_one pending
    end
  end.

(** The messages of a group still worth storing, each with its channel. *)
Fixpoint sift (group : list Delivery) : Ing (list (PreparedMessage * channel)) :=
  match group with
  | [] => mret []
  | d :: group =>
    gone ← is_abandoned (ack d);
    if gone : bool then dropped (ack d);; sift group else
    match prepare (message d) with
    | Ok p => rest ← sift group; mret ((p, ack d) :: rest)
    | Err _ => rejected (ack d);; sift group
    end
  end.

Definition store_group (group : list Delivery) : Ing (list MessageSummary) :=
  pending ← sift group;
  if 0 <? length pending then
    r ← try (insert_batch (map fst pending));
    match r with
    | Ok summaries =>
      each (λ x, stored (snd x)) pending;;
      each announce summaries;;
      mret summaries
    | Err e =>
      if (length pending =? 1) || is_store_wide e then
        reject_rest pending;; mret []
      else store_one_by_one pending
    end
  else mret [].

Fixpoint store_groups (groups : list (list Delivery)) : Ing (list MessageSummary) :=
  match groups with
  | [] => mret []
  | group :: groups =>
    xs ← store_group group;
    ys ← store_groups groups;
    mret (xs ++ ys)
  end.
Definition store_and_announce (ds : list Delivery) : Ing (list MessageSummary) :=
  store_groups (transactions ds).
End announcing.

Definition store_batch : list Delivery → Ing (list MessageSummary) :=
  store_and_announce (λ _, mret tt).
Definition process_batch : list Delivery → Ing (list MessageSummary) :=
  store_and_announce (λ summary, broadcast (MessageNew summary)).
End ingest.

(** ** Grouping *)

Definition bytes_of (g : list Delivery) : Z := fold_right Z.add 0%Z (map raw_len g).
Lemma bytes_of_snoc g d : bytes_of (g ++ [d]) = (bytes_of g + raw_len d)%Z.
Proof. unfold bytes_of. rewrite map_app. induction g as [|x g IH]; simpl in *; lia. Qed.

(** Greedy: each group is within the cap or alone, and is as long as the cap lets
    it be. *)
Definition fits (g : list Delivery) : Prop := g ≠ [] ∧ ((bytes_of g ≤ MAX_BATCH_BYTES)%Z ∨ length g = 1).
Fixpoint greedy (groups : list (list Delivery)) : Prop :=
  match groups with
  | g :: ((d :: _) :: _) as rest => (MAX_BATCH_BYTES < bytes_of g + raw_len d)%Z ∧ greedy rest
  | _ => True
  end.

Definition packed (ds : list Delivery) (st : list (list Delivery) * Z) : Prop :=
  concat (fst st) = ds ∧ Forall fits (fst st) ∧ greedy (fst st) ∧
  match last (fst st) with Some g => snd st = bytes_of g | None => True end.
Lemma greedy_open l g d : greedy (l ++ [g]) → (MAX_BATCH_BYTES < bytes_of g + raw_len d)%Z →
  greedy ((l ++ [g]) ++ [[d]]).
Proof.
  intros Hg Hd. induction l as [|x l IH]; [done|]. simpl in *.
  destruct (l ++ [g]) as [|[|y ys] rest] eqn:Heq; [by destruct l|done|]. simpl in *.
  destruct Hg as [? Hg]. split; [done|]. by apply IH.
Qed.
Lemma greedy_extend l g d : g ≠ [] → greedy (l ++ [g]) → greedy (l ++ [g ++ [d]]).
Proof.
  intros Hne Hg. induction l as [|x l IH]; [done|]. simpl in *.
  destruct l as [|y l]; simpl in *; [by destruct g|]. destruct y; [done|].
  destruct Hg as [? Hg]. split; [done|]. by apply IH.
Qed.
Lemma push_packed ds st d : packed ds st → packed (ds ++ [d]) (push st d).
Proof.
  destruct st as [groups n]. unfold packed. cbn [fst snd]. intros (Hc & Hf & Hg & Hn). unfold push.
  destruct (last groups) as [g|] eqn:Hl; [|apply last_None in Hl; subst; split_and!; try done].
  2: { constructor; [|done]. by split; [|right]. }
  2: { unfold bytes_of. simpl. lia. }
  apply last_Some in Hl as [l ->]. apply Forall_app in Hf as [Hf Hfg]. apply Forall_singleton in Hfg as [Hne Hb].
  destruct (Z.leb_spec (n + raw_len d) MAX_BATCH_BYTES); cbn [fst snd].
  - rewrite removelast_last, last_snoc. split_and!.
    + rewrite <- Hc, !concat_app. simpl. by rewrite !app_nil_r, !app_assoc.
    + apply Forall_app. split; [done|]. apply Forall_singleton. split; [by destruct g|]. left.
      rewrite bytes_of_snoc. lia.
    + by apply greedy_extend.
    + rewrite bytes_of_snoc. lia.
  - rewrite last_snoc. split_and!.
    + rewrite <- Hc, (concat_app _ [[d]]). done.
    + rewrite !Forall_app, !Forall_singleton. split; [done|]. by split; [|right].
    + apply greedy_open; [done|lia].
    + unfold bytes_of. simpl. lia.
Qed.
Lemma transactions_packed ds : packed ds (fold_left push ds ([], 0%Z)).
Proof.
  induction ds as [|d ds IH] using rev_ind; [done|]. rewrite fold_left_app. by apply push_packed.
Qed.

(** A batch is split into transactions that are its deliveries in
    order; each holds at most [MAX_BATCH_BYTES] of raw mail or a single message,
    and ends only where the next message would have taken it past the cap. *)
Theorem transactions_pack ds :
  concat (transactions ds) = ds ∧
  Forall (λ g, g ≠ [] ∧ ((bytes_of g ≤ MAX_BATCH_BYTES)%Z ∨ length g = 1)) (transactions ds) ∧
  greedy (transactions ds).
Proof. by destruct (transactions_packed ds) as (? & ? & ? & _). Qed.

(** ** What became of a run of deliveries *)

Section settling.
Context `{Json, Zstd, MailParser, Sqlite, Platform, !JsonLaws}.

(** A row, its content and its index row, in consistent tables. *)
Definition row_of (d : Delivery) (t : Tables) (m : MessageRecord) : Prop :=
  wf t ∧ m ∈ messages t ∧ ∃ p, prepare (message d) = Ok p ∧ stored_as p t m ∧
    messages_fts t !! Query.seq m = Some (fts_row p).

(** What the writers between [w] and [w'] added to the end of the store, when
    there is no other writer. *)
Definition appended (ms : list MessageRecord) (w w' : World) : Prop :=
  sound w' ∧ (rivals w = [] → rivals w' = [] ∧ messages (db w') = messages (db w) ++ ms).

(** The deliveries [ds] are settled, those of [kept] by storing them as the rows it
    pairs them with, [say] being what is sent for a summary. *)
Record settles (say : MessageSummary → list WsEvent) (ds : list Delivery)
    (kept : list (Delivery * MessageRecord)) (h : list (note * Tables)) (w w' : World) : Prop := {
  each_closed : closed h ≡ₚ map ack ds;
  in_order : map fst kept `sublist_of` ds;
  acknowledged : stored_acks h = map (λ x, ack (fst x)) kept;
  announced : events h = concat (map (λ x, say (summary (snd x))) kept);
  backed : ∀ d m, (d, m) ∈ kept → ∃ t, (Acked (ack d) Stored, t) ∈ h ∧ row_of d t m;
  visible : ∀ e t, (Sent e, t) ∈ h → ∃ m, m ∈ messages t ∧ e ∈ say (summary m);
  truthful : ∀ a t, (Acked a Stored, t) ∈ h → ∃ d m, (d, m) ∈ kept ∧ ack d = a ∧ row_of d t m;
  added : appended (map snd kept) w w';
}.

Lemma appended_trans ms1 ms2 w1 w2 w3 :
  appended ms1 w1 w2 → appended ms2 w2 w3 → appended (ms1 ++ ms2) w1 w3.
Proof.
  intros [_ H12] [Hs H23]. split; [done|]. intros Hr. destruct (H12 Hr) as [Hr2 Hm].
  destruct (H23 Hr2) as [? ->]. by rewrite Hm, app_assoc.
Qed.
Lemma appended_refl w : sound w → appended [] w w.
Proof. split; [done|]. by rewrite app_nil_r. Qed.

Lemma closed_app h1 h2 : closed (h1 ++ h2) = closed h1 ++ closed h2.
Proof. apply omap_app. Qed.
Lemma stored_acks_app h1 h2 : stored_acks (h1 ++ h2) = stored_acks h1 ++ stored_acks h2.
Proof. apply omap_app. Qed.
Lemma events_app h1 h2 : events (h1 ++ h2) = events h1 ++ events h2.
Proof. apply omap_app. Qed.

Lemma sent_event e t h : (Sent e, t) ∈ h → e ∈ events h.
Proof. intros Hin. apply list_elem_of_omap. by exists (Sent e, t). Qed.
Lemma stored_ack a t h : (Acked a Stored, t) ∈ h → a ∈ stored_acks h.
Proof. intros Hin. apply list_elem_of_omap. by exists (Acked a Stored, t). Qed.

Lemma settles_nil say w : sound w → settles say [] [] [] w w.
Proof. intros Hs. split; try done; [set_solver..|]. by apply appended_refl. Qed.
Lemma settles_app say ds1 ds2 k1 k2 h1 h2 w1 w2 w3 :
  settles say ds1 k1 h1 w1 w2 → settles say ds2 k2 h2 w2 w3 →
  settles say (ds1 ++ ds2) (k1 ++ k2) (h1 ++ h2) w1 w3.
Proof.
  intros [Hc1 Ho1 Ha1 He1 Hb1 Hv1 Ht1 Hd1] [Hc2 Ho2 Ha2 He2 Hb2 Hv2 Ht2 Hd2]. split.
  - by rewrite closed_app, map_app, Hc1, Hc2.
  - rewrite map_app. by apply sublist_app.
  - by rewrite stored_acks_app, map_app, Ha1, Ha2.
  - by rewrite events_app, map_app, concat_app, He1, He2.
  - intros d m [Hin|Hin]%elem_of_app; [destruct (Hb1 d m Hin) as (t & ? & ?)|destruct (Hb2 d m Hin) as (t & ? & ?)];
      exists t; rewrite elem_of_app; auto.
  - intros e t [Hin|Hin]%elem_of_app; eauto.
  - intros a t [Hin|Hin]%elem_of_app; [destruct (Ht1 a t Hin) as (d & m & ? & ? & ?)|destruct (Ht2 a t Hin) as (d & m & ? & ? & ?)];
      exists d, m; rewrite elem_of_app; auto.
  - rewrite map_app. by eapply appended_trans.
Qed.

(** Notes that store nothing and send nothing. *)
Definition settles_none (ds : list Delivery) (h : list (note * Tables)) : Prop :=
  closed h ≡ₚ map ack ds ∧ stored_acks h = [] ∧ events h = [].

Lemma settles_closed say ds h w w' : settles_none ds h → appended [] w w' → settles say ds [] h w w'.
Proof.
  intros (Hc & Ha & He) Hd. split; try done; [apply sublist_nil_l|set_solver| |].
  - intros e t Hin%sent_event. rewrite He in Hin. set_solver.
  - intros a t Hin%stored_ack. rewrite Ha in Hin. set_solver.
Qed.
Lemma none_rejected ds t : settles_none ds (map (λ d, (Acked (ack d) Rejected, t)) ds).
Proof.
  split; [|split]; unfold closed, stored_acks, events; rewrite omap_map;
    [by erewrite omap_some|by apply omap_none..].
Qed.
Lemma none_dropped d t : settles_none [d] [(AckLost (ack d), t)].
Proof. by split. Qed.
Lemma none_app ds1 ds2 h1 h2 : settles_none ds1 h1 → settles_none ds2 h2 → settles_none (ds1 ++ ds2) (h1 ++ h2).
Proof.
  intros (Hc1 & Ha1 & He1) (Hc2 & Ha2 & He2). split; [|split].
  - by rewrite closed_app, map_app, Hc1, Hc2.
  - by rewrite stored_acks_app, Ha1, Ha2.
  - by rewrite events_app, He1, He2.
Qed.
(** What is settled of the deliveries a group keeps settles the group, the others
    being settled before. *)
Lemma settles_rest say ds rest skipped k h0 h w w' :
  settles_none skipped h0 → ds ≡ₚ skipped ++ rest → rest `sublist_of` ds →
  settles say rest k h w w' → settles say ds k (h0 ++ h) w w'.
Proof.
  intros (Hc0 & Ha0 & He0) Hds Hsub [Hc Ho Ha He Hb Hv Ht Hd]. split.
  - by rewrite closed_app, Hc0, Hc, <- map_app, Hds.
  - by etrans.
  - by rewrite stored_acks_app, Ha0.
  - by rewrite events_app, He0.
  - intros d m (t & ? & ?)%Hb. exists t. rewrite elem_of_app. auto.
  - intros e t [Hin%sent_event|]%elem_of_app; [|eauto]. rewrite He0 in Hin. set_solver.
  - intros a t [Hin%stored_ack|]%elem_of_app; [|eauto]. rewrite Ha0 in Hin. set_solver.
  - done.
Qed.

(** Deliveries acknowledged and announced from the tables that hold their rows. *)
Definition stored_notes (say : MessageSummary → list WsEvent) (kept : list (Delivery * MessageRecord)) (t : Tables) :=
  map (λ x : Delivery * MessageRecord, (Acked (ack (fst x)) Stored, t)) kept ++
  map (λ e, (Sent e, t)) (concat (map (λ x, say (summary (snd x))) kept)).
Lemma settles_stored say kept w w' :
  Forall (λ x, row_of (fst x) (db w') (snd x)) kept → appended (map snd kept) w w' →
  settles say (map fst kept) kept (stored_notes say kept (db w')) w w'.
Proof.
  intros Hrows Hd. rewrite Forall_forall in Hrows. unfold stored_notes. split; try done.
  - rewrite closed_app. unfold closed. rewrite !omap_map, (omap_none (_ ∘ (λ e, (Sent e, _)))), app_nil_r by done.
    erewrite (omap_some _ (λ x, ack (fst x))) by done. by rewrite map_map.
  - rewrite stored_acks_app. unfold stored_acks.
    rewrite !omap_map, (omap_none (_ ∘ (λ e, (Sent e, _)))), app_nil_r by done. by erewrite omap_some.
  - rewrite events_app. unfold events. rewrite !omap_map, omap_none by done. simpl.
    erewrite (omap_some _ (λ e, e)) by done. apply map_id.
  - intros d m Hin. exists (db w'). split; [|by apply (Hrows (d, m))].
    apply elem_of_app. left. apply list_elem_of_fmap. by exists (d, m).
  - intros e t [Hin|Hin]%elem_of_app; apply list_elem_of_fmap in Hin as (x & Heq & Hx); simplify_eq.
    apply list_elem_of_In, in_concat in Hx as (es & Hes & Hx). apply list_elem_of_In in Hes, Hx.
    apply list_elem_of_fmap in Hes as ([d m] & -> & Hk). exists m. split; [|done]. by apply (Hrows (d, m)).
  - intros a t [Hin|Hin]%elem_of_app; apply list_elem_of_fmap in Hin as (x & Heq & Hx); simplify_eq.
    destruct x as [d m]. exists d, m. split_and!; [done|done|]. by apply (Hrows (d, m)).
Qed.

(** ** The inserts *)

Lemma quiet_alone w w0 : quiet w w0 → rivals w = [] → rivals w0 = [] ∧ db w0 = db w.
Proof. intros [(k & Hd & Hr) _] Hw. rewrite Hw in *. destruct k; simpl in *; auto. Qed.

Lemma failed_appended w w0 w' : sound w → quiet w w0 → locked w0 w' → db w' = db w0 → appended [] w w'.
Proof.
  intros Hs Hq [Hr _] Hd. destruct (sound_quiet _ _ Hs Hq) as [Hwf Hrs]. split.
  - split; [by rewrite Hd|by rewrite Hr].
  - intros Hw. destruct (quiet_alone _ _ Hq Hw) as [Hr0 Hd0]. rewrite app_nil_r. split; congruence.
Qed.
Lemma batch_appended ps sums w w0 w' : sound w → quiet w w0 → locked w0 w' →
  batch_stored ps sums (db w0) (db w') →
  ∃ ms, map summary ms = sums ∧ appended ms w w' ∧
    Forall2 (λ p m, m ∈ messages (db w') ∧ stored_as p (db w') m ∧
      messages_fts (db w') !! Query.seq m = Some (fts_row p)) ps ms.
Proof.
  intros Hs Hq [Hr _] HR. destruct (sound_quiet _ _ Hs Hq) as [Hwf Hrs].
  destruct (batch_stored_spec _ _ _ _ Hwf HR) as (Hwf' & ms & Hm & Hsum & _ & Hall & _).
  exists ms. split_and!; [done| |].
  - split; [split; [done|by rewrite Hr]|]. intros Hw. destruct (quiet_alone _ _ Hq Hw) as [Hr0 Hd0].
    split; congruence.
  - rewrite Hm. rewrite Forall2_same_length_lookup in Hall |- *. destruct Hall as [Hl Hall]. split; [done|].
    intros i p m Hp Hmi. split; [|by eapply Hall]. apply elem_of_app. right. by eapply list_elem_of_lookup_2.
Qed.

(** ** The consumer *)

(** The prepared messages and channels of deliveries, in step with them. *)
Definition pending_of (ds : list Delivery) (pending : list (PreparedMessage * channel)) : Prop :=
  Forall2 (λ d x, prepare (message d) = Ok (fst x) ∧ snd x = ack d) ds pending.
Lemma pending_notes f ds pending (t : Tables) : pending_of ds pending →
  map (λ x : PreparedMessage * channel, (f (snd x), t) : note * Tables) pending = map (λ d, (f (ack d), t)) ds.
Proof. induction 1 as [|d x ds pending [_ Hx] _ IH]; simpl; [done|]. by rewrite IH, Hx. Qed.
Lemma pending_rows ds pending ms t : wf t → pending_of ds pending →
  Forall2 (λ p m, m ∈ messages t ∧ stored_as p t m ∧ messages_fts t !! Query.seq m = Some (fts_row p))
    (map fst pending) ms →
  map fst (zip ds ms) = ds ∧ map snd (zip ds ms) = ms ∧ Forall (λ x, row_of (fst x) t (snd x)) (zip ds ms).
Proof.
  intros Hwf Hp. revert ms. induction Hp as [|d x ds pending [Hd _] _ IH]; intros ms Hrows; inversion_clear Hrows as [|? m ? ms' Hm Hms];
    simpl; [done|]. destruct (IH ms') as (-> & -> & ?); [done|]. split_and!; [done..|]. constructor; [|done].
  destruct Hm as (? & ? & ?). split_and!; [done..|]. eauto.
Qed.

Variable say : MessageSummary → list WsEvent.

(** From [s] to [s'], the deliveries were settled and the summaries of the stored
    ones answered. *)
Definition settled (ds : list Delivery) (r : result Empty_set (list MessageSummary)) (s s' : App) : Prop :=
  ∃ kept h, r = Ok (map (λ x : Delivery * MessageRecord, summary (snd x)) kept) ∧
    history s' = history s ++ h ∧ settles say ds kept h (world s) (world s').

Lemma settled_nil s : sound (world s) → settled [] (Ok []) s s.
Proof. intros Hs. exists [], []. rewrite app_nil_r. split_and!; [done..|]. by apply settles_nil. Qed.
Lemma settled_app ds1 ds2 xs ys s1 s2 s3 :
  settled ds1 (Ok xs) s1 s2 → settled ds2 (Ok ys) s2 s3 → settled (ds1 ++ ds2) (Ok (xs ++ ys)) s1 s3.
Proof.
  intros (k1 & h1 & [= ->] & Hh1 & Hs1) (k2 & h2 & [= ->] & Hh2 & Hs2). exists (k1 ++ k2), (h1 ++ h2).
  split_and!; [by rewrite map_app|by rewrite Hh2, Hh1, app_assoc|]. by eapply settles_app.
Qed.
Lemma settled_closed ds h s s' : settles_none ds h → appended [] (world s) (world s') →
  history s' = history s ++ h → settled ds (Ok []) s s'.
Proof. intros. exists [], h. split_and!; [done..|]. by apply settles_closed. Qed.

Lemma reject_rest_spec ds pending s s0 t h :
  pending_of ds pending → appended [] (world s0) (world s) → t = db (world s) → history s = history s0 ++ h →
  wp (reject_rest pending) (λ r s', r = Ok tt ∧ appended [] (world s0) (world s') ∧
    history s' = history s0 ++ h ++ map (λ d, (Acked (ack d) Rejected, t)) ds) s.
Proof.
  intros Hp Hap -> Hh. apply (wp_each_note (λ x : PreparedMessage * channel, Acked (snd x) Rejected)). simpl.
  split_and!; [done..|]. by rewrite Hh, (pending_notes (λ a, Acked a Rejected) ds) by done;
    rewrite app_assoc.
Qed.

Lemma sift_spec group s :
  wp (sift group) (λ r s', ∃ skipped rest pending h, r = Ok pending ∧ pending_of rest pending ∧
    world s' = world s ∧ history s' = history s ++ h ∧ settles_none skipped h ∧
    group ≡ₚ skipped ++ rest ∧ rest `sublist_of` group) s.
Proof.
  revert s. induction group as [|d group IH]; intros s; cbn [sift].
  { apply wp_ret. exists [], [], [], []. rewrite app_nil_r. by split_and!; [|constructor|..]. }
  assert (Hskip : ∀ n s1, settles_none [d] [(n, db (world s))] → world s1 = world s → history s1 = history s →
    wp (modify (noting n);; sift group) (λ r s', ∃ skipped rest pending h, r = Ok pending ∧ pending_of rest pending ∧
      world s' = world s ∧ history s' = history s ++ h ∧ settles_none skipped h ∧
      d :: group ≡ₚ skipped ++ rest ∧ rest `sublist_of` d :: group) s1).
  { intros n s1 Hn Hw Hh. apply wp_modify. eapply wp_mono; [apply IH|].
    intros r s' (sk & rest & pending & h & -> & Hp & Hw' & Hh' & Hs & Hg & Hsub). simpl in *.
    exists (d :: sk), rest, pending, ((n, db (world s)) :: h). split_and!; try done; [congruence| | | |].
    - by rewrite Hh', Hh, Hw, <- app_assoc.
    - by apply (none_app [d] sk [_] h).
    - simpl. by rewrite Hg.
    - by apply sublist_cons. }
  apply wp_bind. eexists _, _. split; [done|]. simpl. destruct (default false (head (abandonments s))).
  { by apply Hskip. }
  destruct (prepare (message d)) as [p|e] eqn:Hp; [|by apply Hskip; [apply (none_rejected [d])|..]].
  apply wp_bind. eapply wp_mono; [apply IH|].
  intros r s' (sk & rest & pending & h & -> & Hpend & Hw' & Hh' & Hs & Hg & Hsub). simpl in *. apply wp_ret.
  exists sk, (d :: rest), ((p, ack d) :: pending), h. split_and!; try done.
  - constructor; [done|done].
  - by rewrite Hg, Permutation_middle.
  - by apply sublist_skip.
Qed.

Variable announce : MessageSummary → Ing unit.
Hypothesis announcing : ∀ m s, announce m s = each broadcast (say m) s.

Lemma announce_spec m Q s :
  Q (Ok tt) {| world := world s; history := history s ++ map (λ e, (Sent e, db (world s))) (say m);
               abandonments := abandonments s; overdue := overdue s |} → wp (announce m) Q s.
Proof. intros HQ. unfold wp. rewrite announcing. by apply (wp_each_note Sent). Qed.
Lemma announce_all sums Q s :
  Q (Ok tt) {| world := world s;
               history := history s ++ map (λ e, (Sent e, db (world s))) (concat (map say sums));
               abandonments := abandonments s; overdue := overdue s |} → wp (each announce sums) Q s.
Proof.
  revert s. induction sums as [|m sums IH]; intros s HQ; cbn [each].
  { apply wp_ret. simpl in HQ. rewrite app_nil_r in HQ. by destruct s. }
  apply wp_bind, announce_spec, IH. simpl in *. by rewrite map_app, app_assoc in HQ.
Qed.

(** The rest of a run, after its first deliveries were settled. *)
Lemma settled_then ds1 ds2 xs (c : Ing (list MessageSummary)) s1 s2 :
  settled ds1 (Ok xs) s1 s2 → wp c (λ r s', settled ds2 r s2 s') s2 →
  wp (ys ← c; mret (xs ++ ys)) (λ r s', settled (ds1 ++ ds2) r s1 s') s2.
Proof.
  intros Hs Hc. apply wp_bind. eapply wp_mono; [exact Hc|]. intros [ys|[]] s' Hs'. apply wp_ret.
  by eapply settled_app.
Qed.
Lemma settled_skip ds1 ds2 (c : Ing (list MessageSummary)) s1 s2 :
  settled ds1 (Ok []) s1 s2 → wp c (λ r s', settled ds2 r s2 s') s2 →
  wp c (λ r s', settled (ds1 ++ ds2) r s1 s') s2.
Proof.
  intros Hs Hc. eapply wp_mono; [exact Hc|]. intros [ys|[]] s' Hs'.
  by apply (settled_app ds1 ds2 [] ys s1 s2 s').
Qed.
Lemma settled_sound ds r s s' : settled ds r s s' → sound (world s').
Proof. intros (k & h & _ & _ & Hs). apply Hs. Qed.

(** Rejected from here on: what is left of [store_one_by_one] and [store_group]
    once the store cannot take more. *)
Lemma give_up_spec ds pending s0 s :
  pending_of ds pending → appended [] (world s0) (world s) → history s = history s0 →
  wp (reject_rest pending;; mret []) (λ r s', settled ds r s0 s') s.
Proof.
  intros Hp Hap Hh. apply wp_bind.
  eapply wp_mono; [eapply (reject_rest_spec ds pending s s0 _ []); try done; by rewrite app_nil_r|].
  intros r s' (-> & Hap' & Hh'). apply wp_ret. eapply settled_closed; [apply none_rejected|done|done].
Qed.

Lemma store_one_by_one_spec ds pending s : pending_of ds pending → sound (world s) →
  wp (store_one_by_one announce pending) (λ r s', settled ds r s s') s.
Proof.
  intros Hp. revert s. induction Hp as [|d [p a] ds pending [Hprep Ha] Hp IH]; intros s Hs; cbn [store_one_by_one].
  { apply wp_ret. by apply settled_nil. }
  simpl in *. subst a. apply wp_bind. eexists _, _. split; [done|]. simpl.
  destruct (default false (head (abandonments s))).
  { apply wp_modify. apply (settled_skip [d]); [|by apply IH].
    eapply settled_closed; [apply none_dropped|by apply appended_refl|done]. }
  apply wp_bind. eexists _, _. split; [done|]. simpl. destruct (default false (head (overdue s))).
  { apply (give_up_spec (d :: ds) ((p, ack d) :: pending)); [by constructor|by apply appended_refl|done]. }
  apply wp_bind, wp_try. eapply wp_mono; [apply insert_prepared_atomic|]. simpl.
  intros [o|e] w' (w0 & Hq & Hl & HR).
  - destruct HR as (sums & -> & HR).
    destruct (batch_appended _ _ _ _ _ Hs Hq Hl HR) as (ms & <- & Hap & Hrows).
    destruct (pending_rows [d] [(p, ack d)] ms (db w')) as (Hfst & Hsnd & Hkept); [apply Hap|by repeat constructor|done|].
    inversion Hrows as [|? m ? ms' _ Hnil]; subst. inversion Hnil; subst. simpl.
    apply wp_modify, wp_bind, announce_spec. apply (settled_then [d] ds [summary m]).
    + eexists [(d, m)], _. split_and!; [done| |]; simpl.
      * by rewrite <- app_assoc.
      * rewrite <- (app_nil_r (say _)). by apply (settles_stored say [(d, m)]).
    + apply IH. simpl. apply Hap.
  - destruct HR as [Hd _]. assert (Hap := failed_appended _ _ _ Hs Hq Hl Hd). destruct (is_store_wide e).
    { apply (give_up_spec (d :: ds) ((p, ack d) :: pending)); [by constructor|done|done]. }
    apply wp_modify. apply (settled_skip [d]); [|apply IH; simpl; apply Hap].
    eapply settled_closed; [apply (none_rejected [d])|done|done].
Qed.

Lemma store_group_spec group s : sound (world s) →
  wp (store_group announce group) (λ r s', settled group r s s') s.
Proof.
  intros Hs. unfold store_group. apply wp_bind. eapply wp_mono; [apply sift_spec|].
  intros r s1 (sk & rest & pending & h0 & -> & Hp & Hw & Hh & Hsk & Hg & Hsub).
  rewrite <- Hw in Hs.
  cut (wp (if 0 <? length pending then
       r ← try (insert_batch (map fst pending));
       match r with
       | Ok summaries => each (λ x, stored (snd x)) pending;; each announce summaries;; mret summaries
       | Err e => if (length pending =? 1) || is_store_wide e then reject_rest pending;; mret []
                  else store_one_by_one announce pending
       end else mret []) (λ r s', settled rest r s1 s') s1).
  { intros Hrest. eapply wp_mono; [exact Hrest|]. intros r s' (k & h & -> & Hh' & Hset).
    exists k, (h0 ++ h). split_and!; [done|by rewrite Hh', Hh, app_assoc|].
    rewrite <- Hw. by eapply settles_rest. }
  clear Hh Hsk Hg Hsub h0 sk Hw s. destruct (Nat.ltb_spec 0 (length pending)) as [Hpos|Hz].
  2: { destruct Hp; simpl in Hz; [|lia]. apply wp_ret. by apply settled_nil. }
  apply wp_bind, wp_try. eapply wp_mono; [apply insert_batch_atomic|]. simpl.
  intros [sums|e] w' (w0 & Hq & Hl & HR).
  - destruct (batch_appended _ _ _ _ _ Hs Hq Hl HR) as (ms & <- & Hap & Hrows).
    destruct (pending_rows _ _ _ _ (proj1 (proj1 Hap)) Hp Hrows) as (Hfst & Hsnd & Hkept).
    apply wp_bind, (wp_each_note (λ x : PreparedMessage * channel, Acked (snd x) Stored)).
    apply wp_bind, announce_all, wp_ret. simpl.
    rewrite (pending_notes (λ a, Acked a Stored) rest) by done.
    exists (zip rest ms), (stored_notes say (zip rest ms) (db w')). split_and!.
    + by rewrite <- (map_map snd summary), Hsnd.
    + unfold stored_notes. simpl. rewrite <- app_assoc. f_equal. f_equal.
      * by rewrite <- (map_map fst (λ d, (Acked (ack d) Stored, db w'))), Hfst.
      * by rewrite <- (map_map (λ x : Delivery * MessageRecord, summary (snd x)) say),
          <- (map_map snd summary), Hsnd.
    + simpl. rewrite <- Hfst at 1. apply settles_stored; [done|by rewrite Hsnd].
  - destruct HR as [Hd _]. assert (Hap := failed_appended _ _ _ Hs Hq Hl Hd).
    destruct (_ || _); [by apply (give_up_spec rest)|].
    eapply wp_mono; [apply (store_one_by_one_spec rest pending); [done|apply Hap]|].
    intros [xs|[]] s' Hs'. apply (settled_app [] rest [] xs s1 (set_world w' s1) s'); [|done].
    eapply (settled_closed [] []); [done|done|by rewrite app_nil_r].
Qed.

Lemma store_groups_spec groups s : sound (world s) →
  wp (store_groups announce groups) (λ r s', settled (concat groups) r s s') s.
Proof.
  revert s. induction groups as [|g groups IH]; intros s Hs; cbn [store_groups concat].
  { apply wp_ret. by apply settled_nil. }
  apply wp_bind. eapply wp_mono; [by apply store_group_spec|]. intros [xs|[]] s' Hs'.
  eapply settled_then; [exact Hs'|]. apply IH. by eapply settled_sound.
Qed.
End settling.
