(* ===== verification/IngestProperties.v ===== *)
(** What storing a batch of captured mail guarantees to the sessions that wait
    for it and to the clients it is announced to. *)
From S2P Require Import Prelude RustStd SmtpSession StorageError Content MailParser Locator Prepared Query Database Store Repo Tables RepoWrites Instances RepoProperties AppState Ingest.

Section ingest.
Context `{Json, Zstd, MailParser, Sqlite, Platform, !JsonLaws}.

Definition announce_new (m : MessageSummary) : list WsEvent := [MessageNew m].

Lemma process_batch_spec ds s : sound (world s) →
  wp (process_batch ds) (λ r s', settled announce_new ds r s s') s.
Proof.
  intros Hs. eapply wp_mono.
  - apply (store_groups_spec announce_new (λ m, broadcast (MessageNew m))); [|exact Hs]. by intros m s'.
  - intros r s'. unfold transactions. by rewrite (proj1 (transactions_packed ds)).
Qed.

(** C10: safety. A [250] means stored: whatever fails in the store, whatever other
    writers commit in between and however often the batch falls back to single
    inserts, every delivery's channel is closed exactly once, by a verdict unless
    its session had given up, and a session is told its message is stored only
    when the message's row, content and index row are in the committed tables,
    which are consistent. *)
Theorem verdicts_are_true ds s :
  sound (world s) → ∃ sums s' h, process_batch ds s = Some (Ok sums, s') ∧ history s' = history s ++ h ∧
    closed h ≡ₚ map ack ds ∧
    ∃ kept, map fst kept `sublist_of` ds ∧ stored_acks h = map (λ x, ack (fst x)) kept ∧
      ∀ d m, (d, m) ∈ kept → ∃ t, (Acked (ack d) Stored, t) ∈ h ∧ wf t ∧ m ∈ messages t ∧
        ∃ p, prepare (message d) = Ok p ∧ stored_as p t m ∧ messages_fts t !! Query.seq m = Some (fts_row p).
Proof.
  intros Hs. destruct (process_batch_spec ds s Hs) as (r & s' & Hrun & kept & h & -> & Hh & Hset).
  eexists _, s', h. split_and!; [exact Hrun|done|apply Hset|]. exists kept.
  split_and!; [apply Hset|apply Hset|]. intros d m Hin. by apply Hset.
Qed.

(** C11: functional. The messages acknowledged as stored are the summaries answered
    and the ones announced, in arrival order, each announced once and only when
    committed; and when nothing else writes, they are exactly what the store
    gains, so a message whose sender was told to retry is not kept. *)
Theorem announced_in_order ds s :
  sound (world s) → ∃ kept s' h,
    process_batch ds s = Some (Ok (map (λ x, summary (snd x)) kept), s') ∧ history s' = history s ++ h ∧
    map fst kept `sublist_of` ds ∧ stored_acks h = map (λ x, ack (fst x)) kept ∧
    events h = map (λ x, MessageNew (summary (snd x))) kept ∧
    (∀ e t, (Sent e, t) ∈ h → ∃ m, m ∈ messages t ∧ e = MessageNew (summary m)) ∧
    (rivals (world s) = [] → messages (db (world s')) = messages (db (world s)) ++ map snd kept).
Proof.
  intros Hs. destruct (process_batch_spec ds s Hs) as (r & s' & Hrun & kept & h & -> & Hh & Hset).
  exists kept, s', h. split_and!; [exact Hrun|done|apply Hset|apply Hset| | |].
  - rewrite (announced _ _ _ _ _ _ Hset). clear. induction kept as [|x kept IH]; simpl; [done|]. by rewrite IH.
  - intros e t Hin. destruct (visible _ _ _ _ _ _ Hset e t Hin) as (m & Hm & He). exists m.
    split; [done|]. by apply list_elem_of_singleton in He.
  - intros Hr. by apply (added _ _ _ _ _ _ Hset).
Qed.
End ingest.
