(* ===== verification/Healthy.v ===== *)
(** A database that does not fail, with no other writer and no identifier minted
    twice, takes every message: the inserts succeed and a batch is stored whole. *)
From S2P Require Import Prelude RustStd SmtpSession StorageError Content MailParser Locator Prepared Query Database Store Repo Tables RepoWrites Instances RepoProperties RepoReads AppState Ingest IngestProperties.

(** ULIDs are unique. *)
Class UlidLaw `{Platform} : Prop := ulid_inj :: Inj (=) (=) ulid.

Lemma wp_and {S E A} (c : M S E A) (Q Q' : result E A → S → Prop) s :
  wp c Q s → wp c Q' s → wp c (λ r s', Q r s' ∧ Q' r s') s.
Proof. intros (r & s' & Hc & HQ) HQ'. exists r, s'. split; [done|]. split; [done|]. by eapply wp_elim. Qed.

Lemma sublist_full {A} (l k : list A) : l `sublist_of` k → length k ≤ length l → l = k.
Proof.
  induction 1 as [|x l k _ IH|x l k Hlk _]; simpl; intros Hl; [done| |].
  - f_equal. apply IH. lia.
  - apply sublist_length in Hlk. lia.
Qed.
Lemma exec_ok {A} (s : stmt A) w a t Q : faults w = [] → s (db w) = Ok (a, t) →
  Q (Ok a) (set_db t w) → wp (exec s) Q w.
Proof.
  intros Hf Hs HQ. eexists _, _. split; [|exact HQ]. unfold exec, roll, apply_stmt, mbind, M_mbind.
  rewrite Hf. simpl. rewrite Hs. destruct w; simpl in *. by subst.
Qed.
Lemma roll_ok Q w : faults w = [] → Q (Ok tt) w → wp roll Q w.
Proof.
  intros Hf HQ. eexists _, _. split; [|exact HQ]. unfold roll. rewrite Hf. destruct w; simpl in *. by subst.
Qed.

Section healthy.
Context `{Json, Zstd, MailParser, Sqlite, Platform, !JsonLaws, !UlidLaw}.

(** No fault to come, no other writer. *)
Definition idle (w : World) : Prop := faults w = [] ∧ rivals w = [].
(** What is minted from now on names nothing yet. *)
Definition unused (n : nat) (t : Tables) : Prop :=
  ∀ k, n ≤ k → ulid k ∉ map id (messages t) ∧ ulid k ∉ map a_id (Database.attachments t).
Definition healthy (w : World) : Prop := idle w ∧ wf (db w) ∧ unused (minted w) (db w).

Lemma not_taken {A} (f : A → bytes) i l : i ∉ map f l → existsb (λ x, beqb (f x) i) l = false.
Proof.
  intros Hn. apply not_true_iff_false. intros (x & Hx & Hb)%existsb_exists. apply beqb_spec in Hb as <-.
  apply Hn. apply list_elem_of_fmap. exists x. split; [done|]. by apply list_elem_of_In.
Qed.
Lemma prepared_attachment_ok i s a : attachment_okb (attachment_record i s a) = true.
Proof.
  unfold attachment_okb, attachment_record. simpl. destruct (storage a) as [l|c]; simpl; [|done].
  rewrite !andb_true_iff, !Z.leb_le. destruct l as [o n []]; simpl; lia.
Qed.

Lemma attachments_progress s atts w : idle w → s ∈ seqs (db w) → unused (minted w) (db w) →
  wp (for_each (λ a, a_id ← mint; exec (insert_attachment (attachment_record a_id s a))) atts)
    (λ r w', r = Ok tt ∧ idle w' ∧ unused (minted w') (db w')) w.
Proof.
  revert w. induction atts as [|a atts IH]; intros w [Hf Hr] Hs Hu; cbn [for_each]; [by apply wp_ret|].
  apply wp_bind, wp_bind. eexists _, _. split; [done|]. destruct (Hu (minted w)) as [_ Hfresh]; [lia|].
  eapply exec_ok; [done| |].
  { unfold insert_attachment. simpl. rewrite bool_decide_eq_true_2, prepared_attachment_ok, not_taken by done. done. }
  apply IH; [done|done|]. intros k Hk. simpl in *. destruct (Hu k) as [? Ha]; [lia|]. split; [done|].
  rewrite map_app. intros [?|Hin]%elem_of_app; [done|]. simpl in Hin. apply list_elem_of_singleton in Hin.
  apply ulid_inj in Hin. lia.
Qed.

Lemma rows_progress p w : idle w → rows_wf (db w) → unused (minted w) (db w) →
  wp (insert_rows_in p) (λ r w', is_ok r = true ∧ idle w' ∧ unused (minted w') (db w')) w.
Proof.
  intros [Hf Hr] Hwf Hu. unfold insert_rows_in, stamp. apply wp_gets, wp_bind. eexists _, _. split; [done|].
  destruct (Hu (minted w)) as [Hfresh _]; [lia|].
  assert (Hns := next_seq_fresh (db w) (wf_ascending _ Hwf)).
  apply wp_bind. eapply exec_ok; [done| |].
  { unfold insert_message. simpl. rewrite not_taken by done. done. }
  apply wp_bind. eapply exec_ok; [done| |].
  { unfold insert_content. simpl. rewrite bool_decide_eq_true_2; [done|]. split.
    - apply seqs_elem. eexists. simpl. rewrite elem_of_app, list_elem_of_singleton. split; [by right|done].
    - apply not_elem_of_dom. by rewrite wf_content. }
  apply wp_bind. eapply wp_mono; [apply attachments_progress; [done| |]|].
  - apply seqs_elem. eexists. simpl. rewrite elem_of_app, list_elem_of_singleton. split; [by right|done].
  - intros k Hk. simpl in *. destruct (Hu k) as [Hm ?]; [lia|]. split; [|done].
    rewrite map_app. intros [?|Hin]%elem_of_app; [done|]. simpl in Hin. apply list_elem_of_singleton in Hin.
    apply ulid_inj in Hin. lia.
  - intros r w' (-> & Hi & Hu'). by apply wp_ret.
Qed.

Lemma each_progress ps w : idle w → rows_wf (db w) → unused (minted w) (db w) →
  wp (insert_each ps) (λ r w', is_ok r = true ∧ idle w' ∧ unused (minted w') (db w')) w.
Proof.
  revert w. induction ps as [|p ps IH]; intros w Hi Hwf Hu; cbn [insert_each]; [by apply wp_ret|].
  apply wp_bind. eapply wp_mono; [apply wp_and; [by apply rows_progress|apply insert_rows_in_spec]|].
  intros [x|e] w1 [(Hok & Hi1 & Hu1) [_ HR]]; [|done].
  destruct (row_stored_wf _ _ _ _ Hwf HR) as [Hwf1 _]. apply wp_bind.
  eapply wp_mono; [by apply IH|]. intros [xs|e] w2 (Hok2 & Hi2 & Hu2); [|done]. by apply wp_ret.
Qed.

Lemma fts_put_ok rows fts : NoDup (map fst rows) → (∀ s, s ∈ map fst rows → s ∉ dom fts) →
  is_Some (fts_put rows fts).
Proof.
  revert fts. induction rows as [|[s r] rows IH]; intros fts; simpl; [by eexists|].
  intros [Hn Hd]%NoDup_cons Hdom. rewrite (not_elem_of_dom_1 fts s) by (apply Hdom; by left).
  apply IH; [done|]. intros k Hk. rewrite dom_insert_L, not_elem_of_union, not_elem_of_singleton.
  split; [by intros ->|]. apply Hdom. by right.
Qed.
Lemma index_progress cs w : idle w → NoDup (map fst (concat cs)) →
  (∀ s, s ∈ map fst (concat cs) → s ∉ dom (messages_fts (db w))) → unused (minted w) (db w) →
  wp (for_each index_in cs) (λ r w', r = Ok tt ∧ idle w' ∧ unused (minted w') (db w')) w.
Proof.
  revert w. induction cs as [|c cs IH]; intros w [Hf Hr] Hd Hdom Hu; cbn [for_each concat]; [by apply wp_ret|].
  simpl in *. rewrite map_app in Hd, Hdom. apply NoDup_app in Hd as (Hdc & Hdisj & Hd).
  assert (Hfst : map fst (map (λ '(s, p), (s, fts_row p)) c) = map fst c).
  { rewrite map_map. by apply map_ext; intros []. }
  destruct (fts_put_ok (map (λ '(s, p), (s, fts_row p)) c) (messages_fts (db w))) as [fts Hput].
  { by rewrite Hfst. } { intros s. rewrite Hfst. intros ?. apply Hdom. apply elem_of_app. by left. }
  apply wp_bind. eapply exec_ok; [done|unfold insert_fts; by rewrite Hput|]. apply IH; simpl; try done.
  intros s Hs. rewrite (fts_put_dom _ _ _ Hput), Hfst, not_elem_of_union, elem_of_list_to_set. split.
  - apply Hdom, elem_of_app. by right.
  - intros ?. by apply (Hdisj s).
Qed.

Lemma insert_all_progress ps w : healthy w →
  wp (insert_all_in ps) (λ r w', is_ok r = true ∧ idle w' ∧ unused (minted w') (db w')) w.
Proof.
  intros (Hi & [Hwf Hfts] & Hu). unfold insert_all_in. apply wp_bind.
  eapply wp_mono; [apply wp_and; [by apply each_progress|apply insert_each_spec]|].
  intros [xs|e] w1 [(Hok & Hi1 & Hu1) [_ HR]]; [|done].
  destruct (rows_stored_spec _ _ _ _ Hwf HR) as (Hwf1 & ms & Hm & -> & Hseq & _).
  destruct (rows_stored_fts _ _ _ _ HR) as [Hf1 Hlen].
  assert (Hkeys : map fst (zip (map fst (map (λ m, (Query.seq m, summary m)) ms)) ps) = map Query.seq ms).
  { rewrite map_map. simpl. rewrite length_map in Hlen. clear -Hlen. revert ms Hlen.
    induction ps as [|p ps IH]; intros [|m ms] Hl; simplify_eq/=; [done|]. f_equal. by apply IH. }
  apply wp_bind. eapply wp_mono; [apply index_progress; [done| | |done]|].
  1,2: rewrite concat_chunks by (unfold FTS_ROWS_PER_STATEMENT; lia); rewrite Hkeys, Hseq.
  - apply NoDup_seqZ.
  - intros s Hs%elem_of_seqZ. rewrite Hf1, Hfts. intros (m & Hmin & <-)%seqs_elem.
    assert (Hlt := next_seq_above _ _ (wf_ascending _ Hwf) Hmin). lia.
  - intros r w2 (-> & Hi2 & Hu2). by apply wp_ret.
Qed.

(** A healthy store takes a batch whole, and is healthy after. *)
Lemma insert_batch_healthy ps w : healthy w →
  wp (insert_batch ps) (λ r w', (∃ sums, r = Ok sums ∧ length sums = length ps) ∧ healthy w') w.
Proof.
  intros Hw. assert (Hs : sound w).
  { destruct Hw as ([_ Hr] & Hwf & _). split; [done|]. rewrite Hr. constructor. }
  assert (Hp : wp (insert_batch ps) (λ r w', is_ok r = true ∧ idle w' ∧ unused (minted w') (db w')) w).
  { assert (Honce : wp (insert_batch_once ps) (λ r w', is_ok r = true ∧ idle w' ∧ unused (minted w') (db w')) w).
    { destruct Hw as ([Hf Hr] & Hwf & Hu). unfold insert_batch_once, transaction.
      apply wp_bind, roll_ok; [done|]. apply wp_bind. unfold lock. eexists _, _. rewrite Hr. split; [done|].
      destruct (insert_all_progress ps w) as (r & w1 & Hrun & Hok & [Hf1 Hr1] & Hu1); [done|].
      destruct r as [sums|]; [|done].
      eexists (Ok sums), w1. unfold or_rollback, mbind, M_mbind. rewrite Hrun.
      unfold roll. rewrite Hf1. simpl. destruct w1; simpl in *; subst. done. }
    destruct Honce as (r & w1 & Hrun & Hok & ?). exists r, w1. split; [|done].
    unfold insert_batch, retry_on_lock. simpl. rewrite Hrun. by destruct r. }
  destruct Hp as (r & w' & Hrun & Hok & Hi & Hu).
  destruct (insert_batch_atomic ps w) as (r1 & w1 & Hrun1 & w0 & Hq & Hl & HR).
  rewrite Hrun in Hrun1. simplify_eq. destruct r1 as [sums|]; [|done].
  destruct (sound_quiet _ _ Hs Hq) as [Hwf0 _].
  destruct (batch_stored_spec _ _ _ _ Hwf0 HR) as (Hwf' & ms & _ & <- & _ & Hall & _).
  exists (Ok (map summary ms)), w1. split; [done|]. split; [|done].
  eexists. split; [done|]. rewrite length_map. symmetry. by eapply Forall2_length.
Qed.

(** ** Batches *)

Definition willing (s : App) : Prop := healthy (world s) ∧ abandonments s = [].
Definition parses (d : Delivery) : Prop := is_ok (prepare (message d)) = true.

Lemma sift_all group s : Forall parses group → abandonments s = [] →
  wp (sift group) (λ r s', ∃ pending, r = Ok pending ∧ length pending = length group ∧
    world s' = world s ∧ abandonments s' = []) s.
Proof.
  intros Hg. revert s. induction Hg as [|d group Hd _ IH]; intros s Hs; cbn [sift].
  { apply wp_ret. by exists []. }
  apply wp_bind. eexists _, _. split; [done|]. simpl. rewrite Hs. simpl. unfold parses in Hd.
  destruct (prepare (message d)) as [p|e]; [|done]. apply wp_bind. eapply wp_mono; [by apply IH|].
  intros r s' (pending & -> & Hl & Hw & Ha). apply wp_ret. exists ((p, ack d) :: pending).
  split_and!; [done|simpl; by rewrite Hl|done|done].
Qed.

Section announcing.
Variable say : MessageSummary → list WsEvent.
Variable announce : MessageSummary → Ing unit.
Hypothesis announcing : ∀ m s, announce m s = each broadcast (say m) s.

Lemma store_group_healthy group s : Forall parses group → willing s →
  wp (store_group announce group) (λ r s', (∃ sums, r = Ok sums ∧ length sums = length group) ∧ willing s') s.
Proof.
  intros Hg [Hh Ha]. unfold store_group. apply wp_bind. eapply wp_mono; [by apply sift_all|].
  intros r s1 (pending & -> & Hlen & Hw & Ha1). destruct (Nat.ltb_spec 0 (length pending)).
  2: { apply wp_ret. split; [exists []; split; [done|simpl; lia]|]. split; [by rewrite Hw|done]. }
  apply wp_bind, wp_try. rewrite Hw. eapply wp_mono; [by apply insert_batch_healthy|].
  intros r w' ((sums & -> & Hl) & Hh').
  apply wp_bind, (wp_each_note (λ x : PreparedMessage * channel, Acked (snd x) Stored)).
  apply wp_bind, (announce_all say announce announcing), wp_ret. split; [|done]. exists sums. split; [done|].
  by rewrite Hl, length_map.
Qed.
Lemma store_groups_healthy groups s : Forall (Forall parses) groups → willing s →
  wp (store_groups announce groups) (λ r s',
    (∃ sums, r = Ok sums ∧ length sums = length (concat groups)) ∧ willing s') s.
Proof.
  intros Hg. revert s. induction Hg as [|g groups Hg _ IH]; intros s Hs; cbn [store_groups concat].
  { apply wp_ret. by split; [exists []|]. }
  apply wp_bind. eapply wp_mono; [by apply store_group_healthy|]. intros r s1 ((xs & -> & Hx) & Hs1).
  apply wp_bind. eapply wp_mono; [by apply IH|]. intros r s2 ((ys & -> & Hy) & Hs2). apply wp_ret.
  split; [|done]. eexists. split; [done|]. by rewrite !length_app, Hx, Hy.
Qed.

Lemma healthy_sound w : healthy w → sound w.
Proof. intros ([_ Hr] & Hwf & _). split; [done|]. rewrite Hr. constructor. Qed.

(** A healthy store keeps the whole batch. *)
Lemma store_all_healthy ds s : Forall parses ds → willing s →
  wp (store_and_announce announce ds) (λ r s', ∃ kept h,
    r = Ok (map (λ x : Delivery * MessageRecord, summary (snd x)) kept) ∧ map fst kept = ds ∧
    history s' = history s ++ h ∧ settles say ds kept h (world s) (world s') ∧ willing s') s.
Proof.
  intros Hp Hs. assert (Hc : concat (transactions ds) = ds) by apply transactions_packed.
  unfold store_and_announce. eapply wp_mono.
  { apply wp_and; [apply (store_groups_spec say); [done|apply healthy_sound, Hs]|apply store_groups_healthy; [|done]].
    by rewrite <- Forall_concat, Hc. }
  rewrite Hc. intros r s' ((kept & h & -> & Hh & Hset) & (sums & [= <-] & Hl) & Hw). exists kept, h.
  split_and!; try done. apply sublist_full; [apply Hset|]. by rewrite length_map in Hl |- *; rewrite Hl.
Qed.
End announcing.

(** A healthy store refuses nothing: when no statement fails, nothing
    else writes, no identifier is minted twice and every message can be
    compressed, each waiting session is told its message is stored, in arrival
    order. *)
Theorem healthy_store_accepts_all ds s :
  healthy (world s) → abandonments s = [] → (∀ d, d ∈ ds → is_ok (prepare (message d)) = true) →
  ∃ sums s' h, process_batch ds s = Some (Ok sums, s') ∧ history s' = history s ++ h ∧
    stored_acks h = map ack ds ∧ length sums = length ds ∧
    length (messages (db (world s'))) = length (messages (db (world s))) + length ds.
Proof.
  intros Hh Ha Hp. unfold process_batch.
  destruct (store_all_healthy announce_new (λ m, broadcast (MessageNew m)) ltac:(done) ds s)
    as (r & s' & Hrun & kept & h & -> & Hfst & Hist & Hset & _); [by apply Forall_forall|done|].
  eexists _, s', h. split_and!; [exact Hrun|done| | |].
  - rewrite (acknowledged _ _ _ _ _ _ Hset), <- Hfst at 1. by rewrite map_map.
  - by rewrite <- Hfst, !length_map.
  - destruct (added _ _ _ _ _ _ Hset) as [_ Hadd]. destruct (Hadd (proj2 (proj1 Hh))) as [_ ->].
    by rewrite length_app, length_map, <- Hfst, length_map.
Qed.
End healthy.

(** ** A batch to run the theorems on *)

Import PlainZstd.

#[export] Instance plain_ulid_law : UlidLaw.
Proof. intros a b Heq. apply (f_equal length) in Heq. unfold ulid, plain_platform in Heq. rewrite !length_replicate in Heq. lia. Qed.

Definition example_delivery (n : nat) : Delivery :=
  {| message := {| sender := b#"a@x"; recipients := [b#"b@y"]; raw := b#"hello" |}; ack := n |}.
Definition fresh_app (w : World) : App :=
  {| world := w; history := []; abandonments := []; overdue := [] |}.
(** The batch's constraint failure sends it to single inserts, the second of which
    fails too; the third session has given up by then. *)
Definition poisoned : App :=
  {| world := {| db := empty_tables; faults := [None; None; Some (DatabaseError (Some b#"19")); None; None; None; None; None; None;
                   Some (DatabaseError (Some b#"19"))];
                 rivals := []; clock := []; minted := 0; slept := [] |};
     history := []; abandonments := [false; false; false; false; false; true]; overdue := [] |}.
Lemma poisoned_sound : sound (world poisoned).
Proof. split; [apply empty_wf|constructor]. Qed.
Definition three_deliveries : list Delivery := [example_delivery 0; example_delivery 1; example_delivery 2].
Definition verdicts_of (h : list (note * Tables)) : list note :=
  List.filter (λ n, match n with Sent _ => false | _ => true end) (map fst h).
Example poisoned_batch : ∃ sums s', process_batch three_deliveries poisoned = Some (Ok sums, s') ∧
  verdicts_of (history s') = [Acked 0 Stored; Acked 1 Rejected; AckLost 2] ∧ length (events (history s')) = 1.
Proof. eexists _, _. split; [vm_compute; reflexivity|by vm_compute]. Qed.

Lemma verdicts_are_true_witness :
  ∃ sums s' h, process_batch three_deliveries poisoned = Some (Ok sums, s') ∧ history s' = history poisoned ++ h ∧
    closed h ≡ₚ map ack three_deliveries ∧
    ∃ kept, map fst kept `sublist_of` three_deliveries ∧ stored_acks h = map (λ x, ack (fst x)) kept ∧
      ∀ d m, (d, m) ∈ kept → ∃ t, (Acked (ack d) Stored, t) ∈ h ∧ wf t ∧ m ∈ messages t ∧
        ∃ p, prepare (message d) = Ok p ∧ stored_as p t m ∧ messages_fts t !! Query.seq m = Some (fts_row p).
Proof. apply (verdicts_are_true three_deliveries poisoned), poisoned_sound. Defined.
Lemma announced_in_order_witness :
  ∃ kept s' h,
    process_batch three_deliveries poisoned = Some (Ok (map (λ x, summary (snd x)) kept), s') ∧
    history s' = history poisoned ++ h ∧
    map fst kept `sublist_of` three_deliveries ∧ stored_acks h = map (λ x, ack (fst x)) kept ∧
    events h = map (λ x, MessageNew (summary (snd x))) kept ∧
    (∀ e t, (Sent e, t) ∈ h → ∃ m, m ∈ messages t ∧ e = MessageNew (summary m)) ∧
    (rivals (world poisoned) = [] →
      messages (db (world s')) = messages (db (world poisoned)) ++ map snd kept).
Proof. apply (announced_in_order three_deliveries poisoned), poisoned_sound. Defined.
Lemma healthy_store_accepts_all_witness :
  ∃ sums s' h, process_batch three_deliveries (fresh_app (calm empty_tables)) = Some (Ok sums, s') ∧
    history s' = history (fresh_app (calm empty_tables)) ++ h ∧
    stored_acks h = map ack three_deliveries ∧ length sums = length three_deliveries ∧
    length (messages (db (world s'))) =
      length (messages (db (world (fresh_app (calm empty_tables))))) + length three_deliveries.
Proof.
  apply (healthy_store_accepts_all three_deliveries (fresh_app (calm empty_tables))).
  - split; [done|]. split; [apply empty_wf|]. intros k _. split; apply not_elem_of_nil.
  - reflexivity.
  - intros d Hd. unfold three_deliveries in Hd. set_solver.
Defined.
