(* ===== verification/Retention.v ===== *)
(** The retention sweep of [crates/rustmail-server/src/main.rs] and the disk
    reclaims of [repo.rs] that follow a purge. *)
From S2P Require Import Prelude RustStd SmtpSession StorageError Content MailParser Locator Prepared Query Database Store Repo Tables RepoWrites Instances RepoProperties RepoReads Reclaim AppState.

(** SQLite's pager, whose pages the tables do not show: what the three pragmas
    count, and how each vacuum step and the checkpoint turn out. *)
Class Pager := {
  page_stats : Tables → PageStats;
  vacuum : Tables → nat → round;
  checkpoint : Tables → result StorageError Z;
}.
(** The present, so many hours before it as text; the [time] crate panics on a
    date it cannot represent. *)
Class Calendar := hours_before : Z → option bytes.

Inductive Panic := DateOutOfRange.

Section retention.
Context `{Json, Zstd, MailParser, Sqlite, Platform, Pager, Calendar}.

Definition reclaim_now : DB unit :=
  before ← query page_stats;
  t ← gets db;
  match reclaim before (vacuum t) (checkpoint t) with
  | Some (Ok _) => mret tt
  | Some (Err e) => fail e
  | None => λ _, None
  end.
Definition reclaim_after_retention : DB unit :=
  stats ← query page_stats;
  if warrants_retention_reclaim stats then reclaim_now else mret tt.
(** A failed reclaim is logged rather than reported. *)
Definition reclaim_after_delete_all {E} : M App E unit := try reclaim_now;; mret tt.

Definition announce_deleted (purge : result StorageError (list bytes)) : M App Panic unit :=
  match purge with
  | Ok [] | Err _ => mret tt
  | Ok ids => each (λ i, broadcast (MessageDelete i)) ids
  end.

(** [retention_hours as i64] wraps. *)
Definition run_retention_tick (retention_hours max_messages : Z) : M App Panic unit :=
  if (retention_hours =? 0)%Z && (max_messages =? 0)%Z then mret tt else
  (if (0 <? retention_hours)%Z then
     match hours_before (wrap_i64 retention_hours) with
     | None => fail DateOutOfRange
     | Some cutoff => purge ← try (delete_older_than cutoff); announce_deleted purge
     end
   else mret tt);;
  (if (0 <? max_messages)%Z then purge ← try (trim_to_max max_messages); announce_deleted purge
   else mret tt);;
  try reclaim_after_retention;; mret tt.

(** ** Laws *)

(** A call that changes no table and is not another writer's turn. *)
Definition harmless (w w' : World) : Prop := db w' = db w ∧ locked w w'.
Lemma query_harmless {A} (f : Tables → A) Q w :
  (∀ r w', harmless w w' → Q r w') → wp (query f) Q w.
Proof.
  intros HQ. apply exec_spec. intros [a|e] w' Hl Hs; apply HQ; (split; [|done]); [|by destruct Hs].
  by injection Hs as _ <-.
Qed.
Lemma reclaim_harmless w : wp reclaim_now (λ _ w', harmless w w') w.
Proof.
  unfold reclaim_now. apply wp_bind, query_harmless. intros [before|e] w' Hh; [|done].
  apply wp_gets. unfold reclaim.
  destruct (release_terminates (S (Z.to_nat (freelist_count before))) 0 (vacuum (db w')) (freelist_count before))
    as (r & -> & _); [lia|].
  destruct r as [[l n]|e]; [|by eexists _, _]. simpl.
  destruct (checkpoint_truncate _); by eexists _, _.
Qed.
Lemma reclaim_after_harmless w : wp reclaim_after_retention (λ _ w', harmless w w') w.
Proof.
  unfold reclaim_after_retention. apply wp_bind, query_harmless. intros [st|e] w1 [Hd1 Hl1]; [|done].
  destruct (warrants_retention_reclaim st); [|by apply wp_ret].
  eapply wp_mono; [apply reclaim_harmless|]. intros _ w2 [Hd2 Hl2].
  split; [congruence|]. by apply (locked_trans w w1 w2).
Qed.

Context `{!JsonLaws}.

(** From [s] to [s'], the messages that went are those announced as deleted. *)
Definition swept (s s' : App) : Prop :=
  sound (world s') ∧ rivals (world s') = [] ∧ faults (world s') `suffix_of` faults (world s) ∧
  ∃ ids h, history s' = history s ++ h ∧ events h = map MessageDelete ids ∧
    map id (messages (db (world s))) ≡ₚ ids ++ map id (messages (db (world s'))).
Lemma swept_refl s : sound (world s) → rivals (world s) = [] → swept s s.
Proof. intros. split_and!; [done..|]. exists [], []. by rewrite app_nil_r. Qed.
Lemma swept_trans s1 s2 s3 : swept s1 s2 → swept s2 s3 → swept s1 s3.
Proof.
  intros (_ & _ & Hf1 & ids1 & h1 & Hh1 & He1 & Hp1) (Hs & Hr & Hf2 & ids2 & h2 & Hh2 & He2 & Hp2).
  split_and!; [done|done|by etrans|]. exists (ids1 ++ ids2), (h1 ++ h2). split_and!.
  - by rewrite Hh2, Hh1, app_assoc.
  - unfold events in *. rewrite omap_app, map_app. by rewrite He1, He2.
  - rewrite Hp1, Hp2. by rewrite app_assoc.
Qed.

Lemma removed_permutation p ids t t' : removed p ids t t' →
  map id (messages t) ≡ₚ ids ++ map id (messages t').
Proof.
  intros (Hm & -> & _). rewrite Hm, <- map_app. apply fmap_Permutation. clear.
  induction (messages t) as [|m l IH]; simpl; [done|].
  destruct (p m); simpl; [by rewrite IH at 1|]. rewrite IH at 1. by rewrite Permutation_middle.
Qed.

(** A purge and its announcements. *)
Lemma purge_swept (op : DB (list bytes)) R s :
  atomic op R never → (∀ ids t t', R ids t t' → wf t → ∃ p, removed p ids t t') →
  sound (world s) → rivals (world s) = [] →
  wp (purge ← try op; announce_deleted purge) (λ r s', r = Ok tt ∧ swept s s' ∧
    (faults (world s) = [] → ∃ ids, R ids (db (world s)) (db (world s')))) s.
Proof.
  intros Hop HR Hs Hr. apply wp_bind, wp_try.
  destruct (Hop (world s)) as (r & w' & Hrun & w0 & Hq & Hl & Hw).
  exists r, w'. split; [done|]. simpl.
  destruct (sound_quiet _ _ Hs Hq) as [Hwf0 Hrs0].
  assert (Hr0 : rivals w0 = [] ∧ db w0 = db (world s)).
  { destruct Hq as [(k & Hd & Hr') _]. rewrite Hr in *. destruct k; simpl in *; auto. }
  destruct Hr0 as [Hr0 Hd0]. rewrite Hd0 in *. destruct Hl as [Hrl Hfl].
  assert (Hf : faults w' `suffix_of` faults (world s)) by (etrans; [exact Hfl|apply Hq]).
  destruct r as [ids|e].
  - destruct (HR _ _ _ Hw Hwf0) as [p Hrem].
    assert (Hdone : ∀ h, events h = map MessageDelete ids → swept s
      {| world := w'; history := history s ++ h; abandonments := abandonments s; overdue := overdue s |}).
    { intros h He. split_and!; simpl; [|congruence|done|].
      - split; [by apply Hrem|]. by rewrite Hrl, Hr0.
      - exists ids, h. split_and!; [done|done|]. by eapply removed_permutation. }
    unfold announce_deleted. destruct ids as [|i ids].
    + apply wp_ret. split_and!; [done| |eauto]. specialize (Hdone [] eq_refl). by rewrite app_nil_r in Hdone.
    + apply (wp_each_note (λ i, Sent (MessageDelete i))). split_and!; [done| |simpl; eauto].
      apply Hdone. unfold events. rewrite omap_map. by erewrite omap_some.
  - destruct Hw as [Hd [Hb|[]]]. apply wp_ret. split_and!; [done| |].
    + split_and!; simpl; [|congruence|done|].
      * split; [by rewrite Hd|by rewrite Hrl, Hr0].
      * exists [], []. rewrite app_nil_r. simpl. split_and!; [done..|]. by rewrite Hd.
    + intros Hnf. destruct Hb as (x & _ & Hx). rewrite Hnf in Hx. set_solver.
Qed.

(** What the policy keeps of the messages, in order: the ones that are not older
    than so many hours, and of those so many of the newest. *)
Definition not_before (cutoff : option bytes) (l : list MessageRecord) : list MessageRecord :=
  match cutoff with
  | Some cutoff => List.filter (λ m, negb (bytes_ltb (created_at m) cutoff)) l
  | None => l
  end.
Definition within_age (hours : Z) : list MessageRecord → list MessageRecord :=
  not_before (if (0 <? hours)%Z then hours_before hours else None).
Definition within_count (max : Z) (l : list MessageRecord) : list MessageRecord :=
  if (0 <? max)%Z then drop (length l - Z.to_nat max) l else l.

(** One half of a sweep: swept, and as the policy says when nothing fails. *)
Definition half (keep : list MessageRecord → list MessageRecord) (r : result Panic unit) (s s' : App) : Prop :=
  r = Ok tt ∧ swept s s' ∧
  (faults (world s) = [] → messages (db (world s')) = keep (messages (db (world s)))).

Lemma purge_half (op : DB (list bytes)) R s keep :
  atomic op R never → (∀ ids t t', R ids t t' → wf t → ∃ p, removed p ids t t') →
  (∀ ids t t', R ids t t' → wf t → messages t' = keep (messages t)) →
  sound (world s) → rivals (world s) = [] →
  wp (purge ← try op; announce_deleted purge) (λ r s', half keep r s s') s.
Proof.
  intros Hop HR Hkeep Hs Hr. eapply wp_mono; [by eapply purge_swept|].
  intros r s' (-> & Hsw & Hex). split_and!; [done..|]. intros Hf. destruct (Hex Hf) as [ids HRi].
  eapply Hkeep; [exact HRi|apply Hs].
Qed.
Lemma skipped_half s : sound (world s) → rivals (world s) = [] →
  wp (mret tt) (λ r s', half (not_before None) r s s') s.
Proof. intros. apply wp_ret. split_and!; [done|by apply swept_refl|done]. Qed.

Lemma age_half hours s : sound (world s) → rivals (world s) = [] →
  ((0 < hours)%Z → is_Some (hours_before (wrap_i64 hours))) →
  wp (if (0 <? hours)%Z then
       match hours_before (wrap_i64 hours) with
       | None => fail DateOutOfRange
       | Some cutoff => purge ← try (delete_older_than cutoff); announce_deleted purge
       end
     else mret tt)
    (λ r s', half (not_before (if (0 <? hours)%Z then hours_before (wrap_i64 hours) else None)) r s s') s.
Proof.
  intros Hs Hr Hc. destruct (Z.ltb_spec 0 hours) as [Hpos|]; [|by apply skipped_half].
  destruct (Hc Hpos) as [cutoff ->].
  eapply purge_half; [apply delete_older_than_atomic|..|done|done].
  - intros ids t t' HR Hwf. eexists. by apply HR.
  - intros ids t t' HR Hwf. by apply HR.
Qed.
Lemma count_half max s : sound (world s) → rivals (world s) = [] →
  wp (if (0 <? max)%Z then purge ← try (trim_to_max max); announce_deleted purge else mret tt)
    (λ r s', half (within_count max) r s s') s.
Proof.
  intros Hs Hr. unfold within_count. destruct (0 <? max)%Z; [|by apply (skipped_half s)].
  eapply purge_half; [apply trim_to_max_atomic|..|done|done].
  - intros ids t t' HR Hwf. by apply HR.
  - intros ids t t' HR Hwf. by apply HR.
Qed.

(** A number of hours that fits [i64] is the one the sweep counts back. *)
Lemma within_age_fits hours : (hours ≤ I64_MAX)%Z →
  not_before (if (0 <? hours)%Z then hours_before (wrap_i64 hours) else None) = within_age hours.
Proof.
  intros Hmax. unfold within_age. destruct (Z.ltb_spec 0 hours); [|done].
  unfold wrap_i64, I64_MAX in *. by rewrite Z.mod_small, Z.add_simpl_r by lia.
Qed.

(** C12: functional. A retention sweep with no other writer keeps the store
    consistent and announces exactly the messages that go, each once, whatever
    fails on the way. When nothing fails, and the hours asked for fit [i64], it
    leaves the messages that are not older than those hours, and of those
    the newest, in order. *)
Theorem retention_announces_what_it_deletes hours max s :
  sound (world s) → rivals (world s) = [] →
  ((0 < hours)%Z → is_Some (hours_before (wrap_i64 hours))) →
  ∃ s' ids h, run_retention_tick hours max s = Some (Ok tt, s') ∧ wf (db (world s')) ∧
    history s' = history s ++ h ∧ events h = map MessageDelete ids ∧
    map id (messages (db (world s))) ≡ₚ ids ++ map id (messages (db (world s'))) ∧
    (faults (world s) = [] → (hours ≤ I64_MAX)%Z →
      messages (db (world s')) = within_count max (within_age hours (messages (db (world s))))).
Proof.
  intros Hs Hr Hc.
  set (keep := not_before (if (0 <? hours)%Z then hours_before (wrap_i64 hours) else None)).
  cut (wp (run_retention_tick hours max) (λ r s', r = Ok tt ∧ swept s s' ∧ (faults (world s) = [] →
    messages (db (world s')) = within_count max (keep (messages (db (world s)))))) s).
  { intros (r & s' & Hrun & -> & (Hs' & _ & _ & ids & h & Hh & He & Hp) & Hm). exists s', ids, h.
    split_and!; try done; [apply Hs'|]. intros Hf Hfit. rewrite <- within_age_fits by done. by apply Hm. }
  unfold run_retention_tick. destruct (Z.eqb_spec hours 0) as [->|Hh], (Z.eqb_spec max 0) as [->|Hmax]; cbn [andb].
  { apply wp_ret. split_and!; [done|by apply swept_refl|done]. }
  all: apply wp_bind; (eapply wp_mono; [by apply age_half|]); intros r1 s1 (-> & Hsw1 & Hm1);
    apply wp_bind; (eapply wp_mono; [apply count_half; apply Hsw1|]); intros r2 s2 (-> & Hsw2 & Hm2);
    apply wp_bind, wp_try; (eapply wp_mono; [apply reclaim_after_harmless|]); intros r3 w3 [Hd [Hr3 Hf3]];
    apply wp_ret; assert (Hsw := swept_trans _ _ _ Hsw1 Hsw2);
    (split_and!; [done| |intros Hf; simpl; rewrite Hd, Hm2, Hm1; try done]).
  all: try (destruct Hsw1 as (_ & _ & Hf1 & _); rewrite Hf in Hf1; by apply suffix_nil_inv in Hf1).
  all: destruct Hsw as ([Hwf Hrs] & Hr2 & Hf2 & ids & h & Hh2 & He2 & Hp2);
    (split_and!; simpl; [split; [by rewrite Hd|by rewrite Hr3]|congruence|by etrans|]);
    exists ids, h; by rewrite Hd.
Qed.
End retention.

(** A sweep over two messages, the first a day too old. *)
#[local] Instance example_pager : Pager := {|
  page_stats _ := {| page_size := 4096; page_count := 10; freelist_count := 2 |};
  vacuum _ _ := {| before_deadline := true; step := Ok 0%Z |};
  checkpoint _ := Ok 0%Z;
|}.
#[local] Instance example_calendar : Calendar := λ _, Some b#"2026-06-01T00:00:00Z".
Lemma retention_announces_what_it_deletes_witness :
  let s := {| world := two_stored; history := []; abandonments := []; overdue := [] |} in
  ∃ s' ids h, run_retention_tick 24 0 s = Some (Ok tt, s') ∧ wf (db (world s')) ∧
    history s' = history s ++ h ∧ events h = map MessageDelete ids ∧
    map id (messages (db (world s))) ≡ₚ ids ++ map id (messages (db (world s'))) ∧
    (faults (world s) = [] → (24 ≤ I64_MAX)%Z →
      messages (db (world s')) = within_count 0 (within_age 24 (messages (db (world s))))).
Proof.
  apply (retention_announces_what_it_deletes 24 0 {| world := two_stored; history := []; abandonments := []; overdue := [] |}).
  - apply two_stored_sound.
  - reflexivity.
  - by eexists.
Defined.

(** A retention past [i64::MAX] hours becomes negative, which puts the cutoff in the
    future: the sweep asked to keep the mail of the longest time deletes it all. *)
#[local] Instance forward_calendar : Calendar := λ hours,
  Some (if (hours <? 0)%Z then b#"2126-06-02T00:00:00Z" else b#"1970-01-01T00:00:00Z").
Example retention_wraps :
  let s := {| world := two_stored; history := []; abandonments := []; overdue := [] |} in
  wrap_i64 U64_MAX = (-1)%Z ∧
  within_age U64_MAX (messages (db two_stored)) = messages (db two_stored) ∧
  length (messages (db two_stored)) = 2 ∧
  (messages ∘ db ∘ world ∘ snd) <$> run_retention_tick U64_MAX 0 s = Some [].
Proof. vm_compute. auto. Qed.
