(* ===== verification/Consumer.v ===== *)
(** The task that consumes the deliveries, [next_batch] and the loop around it in
    [crates/rustmail-server/src/main.rs], among the sessions that hand mail over,
    the requests that write to the store and a stop that may come at any time. *)
From stdpp Require Import relations.
From S2P Require Import Prelude RustStd SmtpSession StorageError Content MailParser Locator Prepared Query Database Store Repo Tables RepoWrites Instances RepoProperties AppState Ingest IngestProperties Healthy.

(** [mpsc::channel(256)]. *)
Definition QUEUE_CAPACITY : nat := 256.

(** Where the task is: in [next_batch], in [process_batch], or returned. *)
Inductive Phase := Waiting | Busy (batch : list Delivery) | Finished.

Record Sys := {
  queue : list Delivery;
  receiving : bool;       (* the receiver has not closed the queue *)
  stop_requested : bool;  (* something was sent on [stop_processor] *)
  stop_pending : bool;    (* the task still holds its end of it *)
  phase : Phase;
  app : App;
  accepted : list Delivery;  (* every delivery the queue took, in order *)
}.

Section consumer.
Context `{Json, Zstd, MailParser, Sqlite, Platform}.

(** The task's own steps. Either branch of the [select!] may be taken when both
    are ready. *)
Inductive own : Sys → Sys → Prop :=
| take_batch s : phase s = Waiting → queue s ≠ [] →
    own s {| queue := drop MAX_BATCH_MESSAGES (queue s); receiving := receiving s;
             stop_requested := stop_requested s; stop_pending := stop_pending s;
             phase := Busy (take MAX_BATCH_MESSAGES (queue s)); app := app s; accepted := accepted s |}
| close s : phase s = Waiting → stop_pending s = true → stop_requested s = true →
    own s {| queue := queue s; receiving := false; stop_requested := true; stop_pending := false;
             phase := Waiting; app := app s; accepted := accepted s |}
| process s batch sums a : phase s = Busy batch → process_batch batch (app s) = Some (Ok sums, a) →
    own s {| queue := queue s; receiving := receiving s; stop_requested := stop_requested s;
             stop_pending := stop_pending s; phase := Waiting; app := a; accepted := accepted s |}
| finish s : phase s = Waiting → queue s = [] → receiving s = false →
    own s {| queue := []; receiving := false; stop_requested := stop_requested s;
             stop_pending := stop_pending s; phase := Finished; app := app s; accepted := accepted s |}.

(** What the rest of the program may do meanwhile: hand a message over, ask for a
    stop, write to the store, send events and find sessions gone. *)
Inductive others : Sys → Sys → Prop :=
| hand_over s d : receiving s = true → length (queue s) < QUEUE_CAPACITY →
    others s {| queue := queue s ++ [d]; receiving := true; stop_requested := stop_requested s;
                stop_pending := stop_pending s; phase := phase s; app := app s;
                accepted := accepted s ++ [d] |}
| request_stop s :
    others s {| queue := queue s; receiving := receiving s; stop_requested := true;
                stop_pending := stop_pending s; phase := phase s; app := app s; accepted := accepted s |}
| serve s w es abandoned late : sound w →
    others s {| queue := queue s; receiving := receiving s; stop_requested := stop_requested s;
                stop_pending := stop_pending s; phase := phase s;
                app := {| world := w; history := history (app s) ++ map (λ x, (Sent (fst x), snd x)) es;
                          abandonments := abandoned; overdue := late |};
                accepted := accepted s |}.
Definition step (s s' : Sys) : Prop := own s s' ∨ others s s'.

Definition initial (a : App) : Sys :=
  {| queue := []; receiving := true; stop_requested := false; stop_pending := true; phase := Waiting;
     app := a; accepted := [] |}.
Definition reachable (s : Sys) : Prop :=
  ∃ a, sound (world a) ∧ history a = [] ∧ rtc step (initial a) s.

Definition in_hand (p : Phase) : list Delivery := match p with Busy batch => batch | _ => [] end.

(** The channels closed are those of the deliveries processed, and what was said
    to be stored was. *)
Record inv (s : Sys) : Prop := {
  inv_sound : sound (world (app s));
  inv_done : ∃ done, accepted s = done ++ in_hand (phase s) ++ queue s ∧
    closed (history (app s)) ≡ₚ map ack done ∧
    ∀ a t, (Acked a Stored, t) ∈ history (app s) → ∃ d m, d ∈ done ∧ ack d = a ∧ row_of d t m;
  inv_stop : stop_pending s = false → receiving s = false;
  inv_finished : phase s = Finished → queue s = [] ∧ receiving s = false;
}.

Context `{!JsonLaws}.

Lemma kept_processed say ds kept h w w' d m : settles say ds kept h w w' → (d, m) ∈ kept → d ∈ ds.
Proof. intros Hset Hk. eapply sublist_subseteq; [apply Hset|]. apply list_elem_of_fmap. by exists (d, m). Qed.

Lemma own_inv s s' : own s s' → inv s → inv s'.
Proof.
  intros Hown [Hs (done & Hacc & Hc & Hst) Hstop Hfin].
  destruct Hown as [s Hp Hq|s Hp Hpend Hreq|s batch sums a Hp Hrun|s Hp Hq Hr]; rewrite Hp in *; split;
    simpl in *; try done.
  - exists done. by rewrite take_drop.
  - by exists done.
  - destruct (process_batch_spec batch (app s) Hs) as (r & a' & Hrun' & kept & h & _ & _ & Hset).
    rewrite Hrun in Hrun'. simplify_eq. apply (added _ _ _ _ _ _ Hset).
  - destruct (process_batch_spec batch (app s) Hs) as (r & a' & Hrun' & kept & h & _ & Hh & Hset).
    rewrite Hrun in Hrun'. simplify_eq. exists (done ++ batch). split_and!; [by rewrite <- app_assoc| |].
    + by rewrite Hh, closed_app, map_app, Hc, (each_closed _ _ _ _ _ _ Hset).
    + rewrite Hh. intros x t [Ha|Ha]%elem_of_app.
      * destruct (Hst x t Ha) as (d & m & ? & ? & ?). exists d, m. rewrite elem_of_app. auto.
      * destruct (truthful _ _ _ _ _ _ Hset x t Ha) as (d & m & Hk & ? & ?). exists d, m.
        rewrite elem_of_app. split_and!; [right|done|done]. by eapply kept_processed.
  - exists done. by rewrite Hq in Hacc.
Qed.
Lemma others_inv s s' : others s s' → inv s → inv s'.
Proof.
  intros Hoth [Hs (done & Hacc & Hc & Hst) Hstop Hfin].
  destruct Hoth as [s d Hr Hl|s|s w es ab lt Hw]; split; simpl in *; try done.
  - exists done. split_and!; try done. by rewrite Hacc, <- !app_assoc.
  - intros Hn. rewrite (Hstop Hn) in Hr. done.
  - intros Hp. destruct (Hfin Hp) as [_ Hn]. by rewrite Hn in Hr.
  - by exists done.
  - assert (Hcl : closed (map (λ x, (Sent (fst x), snd x)) es) = []).
    { unfold closed. rewrite omap_map. by apply omap_none. }
    exists done. split_and!; [done| |].
    + by rewrite closed_app, Hcl, app_nil_r.
    + intros a t [?|(x & ? & _)%list_elem_of_fmap]%elem_of_app; [by apply Hst|done].
Qed.
Lemma reachable_inv s : reachable s → inv s.
Proof.
  intros (a & Hs & Hh & Hsteps). assert (Hi : inv (initial a)).
  { split; simpl; try done. exists []. rewrite Hh. split_and!; try done. intros ?? []%not_elem_of_nil. }
  clear Hs Hh. induction Hsteps as [|s1 s2 s3 [Hown|Hoth] _ IH]; [done|..]; apply IH;
    [by eapply own_inv|by eapply others_inv].
Qed.

(** ** Draining *)

Definition own_then (s : Sys) (P : Sys → Prop) : Prop := ∃ s', rtc own s s' ∧ P s'.
Lemma own_then_step s s1 P : own s s1 → own_then s1 P → own_then s P.
Proof. intros Hs (s' & Hr & HP). exists s'. split; [by eapply rtc_l|done]. Qed.

Definition drained (n : list Delivery) (s : Sys) : Prop := phase s = Finished ∧ accepted s = n.

Lemma process_then s batch P : phase s = Busy batch → inv s →
  (∀ s1, inv s1 → phase s1 = Waiting → queue s1 = queue s → receiving s1 = receiving s →
    stop_requested s1 = stop_requested s → stop_pending s1 = stop_pending s → accepted s1 = accepted s →
    own_then s1 P) → own_then s P.
Proof.
  intros Hp Hi HP. destruct (process_batch_spec batch (app s) (inv_sound _ Hi)) as (r & a & Hrun & kept & h & -> & _).
  eapply own_then_step; [by eapply process|]. apply HP; try done. by eapply own_inv; [eapply process|].
Qed.
Lemma finish_now s : phase s = Waiting → queue s = [] → receiving s = false →
  own_then s (drained (accepted s)).
Proof. intros Hp Hq Hr. eexists. split; [by apply rtc_once, finish|done]. Qed.
(** Once the queue is closed, each batch takes some of what is left. *)
Lemma drain_closed n s : length (queue s) ≤ n → inv s → phase s = Waiting → receiving s = false →
  own_then s (drained (accepted s)).
Proof.
  revert s. induction n as [|n IH]; intros s Hn Hi Hp Hr.
  all: destruct (queue s) as [|d q] eqn:Hq; [by apply finish_now|].
  - simpl in Hn. lia.
  - assert (Hstep := take_batch s Hp). rewrite Hq in Hstep. specialize (Hstep ltac:(done)).
    eapply own_then_step; [exact Hstep|]. assert (Hi1 := own_inv _ _ Hstep Hi).
    eapply process_then; [done|done|]. simpl. intros s1 Hi2 Hp1 Hq1 Hr1 _ _ Hacc. rewrite <- Hacc.
    apply IH; [|done|done|congruence]. rewrite Hq1, length_drop. simpl in *. lia.
Qed.
Lemma drain_waiting s : inv s → phase s = Waiting → stop_requested s = true →
  own_then s (drained (accepted s)).
Proof.
  intros Hi Hp Hreq. destruct (stop_pending s) eqn:Hpend.
  - assert (Hstep := close s Hp Hpend Hreq). eapply own_then_step; [exact Hstep|].
    match type of Hstep with own _ ?s1 => apply (drain_closed (length (queue s)) s1) end;
      [done|by eapply own_inv|done|done].
  - apply (drain_closed (length (queue s))); [done|done|done|]. by apply inv_stop.
Qed.

Lemma drains s : inv s → stop_requested s = true → own_then s (drained (accepted s)).
Proof.
  intros Hi Hreq. destruct (phase s) as [|batch|] eqn:Hp.
  - by apply drain_waiting.
  - eapply process_then; [done|done|]. intros s1 Hi1 Hp1 _ _ Hreq1 _ <-. apply drain_waiting; congruence.
  - exists s. by split.
Qed.
(** A consumer that finished has closed every channel. *)
Lemma finished_closed s : inv s → phase s = Finished → closed (history (app s)) ≡ₚ map ack (accepted s).
Proof.
  intros [_ (done & Hacc & Hc & _) _ Hfin] Hp. destruct (Hfin Hp) as [Hq _].
  rewrite Hp, Hq in Hacc. simpl in Hacc. by rewrite Hacc, app_nil_r.
Qed.

(** From any state the server can be in once a stop is requested, the
    consumer can finish on its own; it takes nothing more, and whenever it has
    finished, by that way or any other, every delivery the queue ever accepted
    has had its channel closed exactly once. *)
Theorem shutdown_drains s :
  reachable s →
  (stop_requested s = true → ∃ s', rtc own s s' ∧ phase s' = Finished ∧ accepted s' = accepted s) ∧
  (phase s = Finished → closed (history (app s)) ≡ₚ map ack (accepted s)).
Proof.
  intros Hi%reachable_inv. split; [|by apply finished_closed].
  intros Hreq. destruct (drains s Hi Hreq) as (s' & ? & ? & ?). by exists s'.
Qed.

(** However the queue, the consumer, the requests and a stop
    interleave, the channels closed so far are those of the deliveries processed,
    the oldest ones accepted, and every session told that its message is stored
    was told so by tables that held its row. *)
Theorem queue_is_fair s :
  reachable s → ∃ processed, accepted s = processed ++ in_hand (phase s) ++ queue s ∧
    closed (history (app s)) ≡ₚ map ack processed ∧
    ∀ a, a ∈ stored_acks (history (app s)) → ∃ d t m, d ∈ processed ∧ ack d = a ∧
      (Acked a Stored, t) ∈ history (app s) ∧ row_of d t m.
Proof.
  intros Hi%reachable_inv. destruct (inv_done _ Hi) as (done & Hacc & Hc & Hst). exists done. split_and!; [done..|].
  intros a ([n t] & Hin & Hn)%list_elem_of_omap. destruct n as [b []| | |]; simplify_eq/=.
  destruct (Hst a t Hin) as (d & m & ? & ? & ?). by exists d, t, m.
Qed.
End consumer.

(** One message in hand when the stop comes, another in the queue. *)
Import PlainZstd.
Definition stopping : Sys :=
  {| queue := [example_delivery 1]; receiving := true; stop_requested := true; stop_pending := true;
     phase := Busy [example_delivery 0]; app := fresh_app (calm empty_tables);
     accepted := [example_delivery 0; example_delivery 1] |}.
Lemma stopping_reachable : reachable stopping.
Proof.
  exists (fresh_app (calm empty_tables)). split_and!; [apply calm_sound, empty_wf|done|].
  eapply rtc_l; [right; apply (hand_over _ (example_delivery 0)); simpl; [done|unfold QUEUE_CAPACITY; lia]|].
  eapply rtc_l; [left; by apply take_batch|].
  eapply rtc_l; [right; apply (hand_over _ (example_delivery 1)); simpl; [done|unfold QUEUE_CAPACITY; lia]|].
  eapply rtc_l; [right; apply request_stop|]. apply rtc_refl.
Qed.
Lemma shutdown_drains_witness :
  (stop_requested stopping = true →
    ∃ s', rtc own stopping s' ∧ phase s' = Finished ∧ accepted s' = accepted stopping) ∧
  (phase stopping = Finished → closed (history (app stopping)) ≡ₚ map ack (accepted stopping)).
Proof. apply shutdown_drains, stopping_reachable. Defined.
Lemma queue_is_fair_witness :
  ∃ processed, accepted stopping = processed ++ in_hand (phase stopping) ++ queue stopping ∧
    closed (history (app stopping)) ≡ₚ map ack processed ∧
    ∀ a, a ∈ stored_acks (history (app stopping)) → ∃ d t m, d ∈ processed ∧ ack d = a ∧
      (Acked a Stored, t) ∈ history (app stopping) ∧ row_of d t m.
Proof. apply queue_is_fair, stopping_reachable. Defined.
