(* ===== verification/Lifecycle.v ===== *)
(** The life of a server, [run_serve] of [crates/rustmail-server/src/main.rs] from
    the moment it serves: the consumer and the sessions around it, the webhooks it
    fires, and the stop with its drain, its deadline and its end. *)
From stdpp Require Import relations.
From S2P Require Import Prelude RustStd SmtpSession StorageError Content MailParser Locator Prepared Query Database Store Repo Tables RepoWrites Instances RepoProperties AppState Ingest IngestProperties Healthy Consumer.

(** [Semaphore::new(10)]. *)
Definition WEBHOOK_PERMITS : nat := 10.

(** A webhook's task: waiting for a permit, or with its request under way. *)
Inductive Sending := AwaitingPermit | Posting.
#[export] Instance Sending_eq_dec : EqDecision Sending.
Proof. solve_decision. Defined.

(** The main task: in the [select!] of the parts that serve, in the drain, or
    done, [cut] telling whether the drain's deadline had elapsed. *)
Inductive Stage := Serving | Draining | Stopped (cut : bool) | Failed.

Record Server := {
  sys : Sys;
  stage : Stage;
  http_open : bool;                        (* the HTTP server has not finished *)
  permits : nat;
  tasks : list (MessageSummary * Sending);
  posts : list MessageSummary;             (* the requests sent, in order *)
}.
#[export] Instance Server_eta : Eta Server := λ s, Build_Server (sys s) (stage s) (http_open s) (permits s) (tasks s) (posts s).
#[export] Instance Sys_eta : Eta Sys := λ s, Build_Sys (queue s) (receiving s) (stop_requested s) (stop_pending s) (phase s) (app s) (accepted s).

(** Whether the process is up. *)
Definition up (s : Stage) : bool := match s with Serving | Draining => true | _ => false end.

Section lifecycle.
Context `{Json, Zstd, MailParser, Sqlite, Platform}.
Variable webhook_url : option bytes.

(** The tasks spawned for what a batch stored. *)
Definition spawn (stored : list MessageSummary) : list (MessageSummary * Sending) :=
  match webhook_url with
  | Some _ => map (λ payload, (payload, AwaitingPermit)) stored
  | None => []
  end.

(** The consumer aborted among the deliveries of [batch], those of [waiting] still
    queued: what it had done of the batch stands, the channels of the rest are
    dropped with it. Its last transaction may have been committed or not. *)
Definition cut_off (batch waiting : list Delivery) (a a' : App) : Prop :=
  ∃ h rest sums full lost t, process_batch batch a = Some (Ok sums, full) ∧ history full = history a ++ h ++ rest ∧
    closed h ++ map ack lost ≡ₚ map ack (batch ++ waiting) ∧
    history a' = history a ++ h ++ map (λ d, (AckLost (ack d), t)) lost ∧ sound (world a').

(** One step of the process. Tasks run as the scheduler pleases; a permit goes to
    any task that waits for one. *)
Inductive turn : Server → Server → Prop :=
| consume s s' : up (stage s) = true → own (sys s) s' → (∀ batch, phase (sys s) ≠ Busy batch) → turn s (s <| sys := s' |>)
| batch_done s batch stored a : up (stage s) = true → phase (sys s) = Busy batch →
    process_batch batch (app (sys s)) = Some (Ok stored, a) →
    turn s (s <| sys := (sys s) <| phase := Waiting |> <| app := a |> |> <| tasks := tasks s ++ spawn stored |>)
| around s s' : up (stage s) = true → others (sys s) s' → stop_requested s' = stop_requested (sys s) →
    turn s (s <| sys := s' |>)
| acquire s l payload r n : up (stage s) = true → tasks s = l ++ (payload, AwaitingPermit) :: r → permits s = S n →
    turn s (s <| tasks := l ++ (payload, Posting) :: r |> <| permits := n |> <| posts := posts s ++ [payload] |>)
| answered s l payload r : up (stage s) = true → tasks s = l ++ (payload, Posting) :: r →
    turn s (s <| tasks := l ++ r |> <| permits := S (permits s) |>)
| fail s : stage s = Serving → turn s (s <| stage := Failed |>)
| stop s : stage s = Serving →
    turn s (s <| stage := Draining |> <| sys := (sys s) <| stop_requested := true |> |>)
| http_done s : stage s = Draining → turn s (s <| http_open := false |>)
| drained s : stage s = Draining → http_open s = false → phase (sys s) = Finished →
    turn s (s <| stage := Stopped false |>)
| deadline s a : stage s = Draining → cut_off (in_hand (phase (sys s))) (queue (sys s)) (app (sys s)) a →
    turn s (s <| stage := Stopped true |>
              <| sys := (sys s) <| queue := [] |> <| receiving := false |> <| phase := Finished |> <| app := a |> |>).

Definition started (a : App) : Server :=
  {| sys := initial a; stage := Serving; http_open := true; permits := WEBHOOK_PERMITS; tasks := []; posts := [] |}.
Definition server_reachable (s : Server) : Prop :=
  ∃ a, sound (world a) ∧ history a = [] ∧ rtc turn (started a) s.

Definition posting (s : Server) : list MessageSummary :=
  map fst (List.filter (λ x, bool_decide (snd x = Posting)) (tasks s)).
Definition waiting (s : Server) : list MessageSummary :=
  map fst (List.filter (λ x, bool_decide (snd x = AwaitingPermit)) (tasks s)).

(** ** What holds of every state *)

Context `{!JsonLaws}.

Lemma posting_app s l x r : tasks s = l ++ x :: r →
  posting s = map fst (List.filter (λ x, bool_decide (snd x = Posting)) l) ++
    (if bool_decide (snd x = Posting) then [fst x] else []) ++
    map fst (List.filter (λ x, bool_decide (snd x = Posting)) r).
Proof.
  intros Ht. unfold posting. rewrite Ht, List.filter_app, map_app. simpl. by destruct (bool_decide (snd x = Posting)).
Qed.
Lemma waiting_app s l x r : tasks s = l ++ x :: r →
  waiting s = map fst (List.filter (λ x, bool_decide (snd x = AwaitingPermit)) l) ++
    (if bool_decide (snd x = AwaitingPermit) then [fst x] else []) ++
    map fst (List.filter (λ x, bool_decide (snd x = AwaitingPermit)) r).
Proof.
  intros Ht. unfold waiting. rewrite Ht, List.filter_app, map_app. simpl. by destruct (bool_decide (snd x = AwaitingPermit)).
Qed.
Lemma spawn_states payloads :
  List.filter (λ x, bool_decide (snd x = Posting)) (spawn payloads) = [] ∧
  List.filter (λ x, bool_decide (snd x = AwaitingPermit)) (spawn payloads) = spawn payloads.
Proof.
  unfold spawn. destruct webhook_url; [|done]. induction payloads as [|m ms [IHp IHw]]; simpl; [done|].
  rewrite IHp, IHw. done.
Qed.

(** A message that was announced, in tables that held it. *)
Definition was_announced (s : Server) (m : MessageSummary) : Prop :=
  ∃ t row, (Sent (MessageNew m), t) ∈ history (app (sys s)) ∧ row ∈ messages t ∧ summary row = m.
Definition told (s : Server) : list channel := stored_acks (history (app (sys s))).

Record live (s : Server) : Prop := {
  live_inv : inv (sys s);
  live_serving : stage s = Serving → stop_requested (sys s) = false ∧ stop_pending (sys s) = true ∧ receiving (sys s) = true;
  live_draining : stage s = Draining → stop_requested (sys s) = true;
  live_stopped : ∀ cut, stage s = Stopped cut → phase (sys s) = Finished;
  live_permits : permits s + length (posting s) = WEBHOOK_PERMITS;
  live_none : webhook_url = None → tasks s = [] ∧ posts s = [];
  live_announced : ∀ m, m ∈ posts s ++ waiting s → was_announced s m;
  live_told : length (posts s ++ waiting s) ≤ length (told s) ∧
    (webhook_url ≠ None → stage s ≠ Stopped true → length (posts s ++ waiting s) = length (told s));
}.

(** A step of the parts around the webhooks. *)
Definition steps_on (s s' : Server) : Prop :=
  permits s' = permits s ∧ tasks s' = tasks s ∧ posts s' = posts s ∧
  ∃ h, history (app (sys s')) = history (app (sys s)) ++ h ∧ (stage s' ≠ Stopped true → stored_acks h = []).
Lemma steps_on_live s s' : live s → steps_on s s' → inv (sys s') → stage s ≠ Stopped true →
  (stage s' = Serving → stop_requested (sys s') = false ∧ stop_pending (sys s') = true ∧ receiving (sys s') = true) →
  (stage s' = Draining → stop_requested (sys s') = true) →
  (∀ cut, stage s' = Stopped cut → phase (sys s') = Finished) → live s'.
Proof.
  intros [_ _ _ _ Hp Hn Ha [Hle Heq]] (Hpe & Hta & Hpo & h & Hh & Hst) Hi Hcut ? ? ?.
  unfold posting, waiting, told in *. rewrite <- Hta in *. rewrite <- Hpo in *. rewrite <- Hpe in Hp. split; try done.
  - intros m Hm. destruct (Ha m Hm) as (t & row & Hin & ? & ?). exists t, row. split; [|done]. rewrite Hh. apply elem_of_app. by left.
  - unfold waiting, told. rewrite Hh, stored_acks_app, (length_app (stored_acks _)). split; [lia|].
    intros Hu Hs'. rewrite Hst, Heq by done. simpl. lia.
Qed.

Lemma started_live a : sound (world a) → history a = [] → live (started a).
Proof.
  intros Hs Hh. split; simpl; try done; [|intros m []%not_elem_of_nil|by unfold told; simpl; rewrite Hh].
  split; simpl; try done. exists []. rewrite Hh. split_and!; try done. intros ?? []%not_elem_of_nil.
Qed.

(** The steps of the consumer that settle nothing leave the application alone. *)
Lemma own_idle s s' : own s s' → (∀ batch, phase s ≠ Busy batch) → app s' = app s ∧
  (stop_requested s' = stop_requested s) ∧
  (stop_requested s = false → stop_pending s' = stop_pending s ∧ receiving s' = receiving s) ∧
  (phase s = Finished → phase s' = Finished).
Proof.
  intros [s1 Hp Hq|s1 Hp Hpend Hreq|s1 batch sums a Hp Hrun|s1 Hp Hq Hr] Hidle; simpl; split_and!; try done; try congruence.
  all: by destruct (Hidle batch).
Qed.
Lemma others_idle s s' : others s s' → stop_requested s' = stop_requested s →
  phase s' = phase s ∧ stop_pending s' = stop_pending s ∧ receiving s' = receiving s ∧
  ∃ h, history (app s') = history (app s) ++ h ∧ stored_acks h = [].
Proof.
  intros [s1 d Hr Hl|s1|s1 w es ab lt Hw] Hreq; simpl in *; split_and!; try done.
  1,2: exists []; by rewrite app_nil_r.
  eexists. split; [done|]. unfold stored_acks. rewrite omap_map. by apply omap_none.
Qed.

(** Aborted, the consumer still has closed every channel, and told no lie. *)
Lemma cut_off_inv s a : inv s → cut_off (in_hand (phase s)) (queue s) (app s) a →
  inv (s <| queue := [] |> <| receiving := false |> <| phase := Finished |> <| app := a |>) ∧
  ∃ h, history a = history (app s) ++ h.
Proof.
  intros [Hs (done & Hacc & Hc & Hst) Hstop Hfin] (h & rest & sums & full & lost & t & Hrun & Hfull & Hlost & Ha & Hw).
  split; [|by eexists]. split; simpl; try done. exists (accepted s). rewrite app_nil_r. split_and!; [done| |].
  - rewrite Ha, app_assoc, !closed_app. unfold closed at 3. rewrite omap_map. erewrite (omap_some _ (λ d, ack d)) by done.
    rewrite <- app_assoc, Hlost, Hc, Hacc, <- !map_app. done.
  - rewrite Ha. intros x u [Hin|[Hin|(d & ? & _)%list_elem_of_fmap]%elem_of_app]%elem_of_app; [| |done].
    + destruct (Hst x u Hin) as (d & m & ? & ? & ?). exists d, m. rewrite Hacc, elem_of_app. auto.
    + destruct (process_batch_spec (in_hand (phase s)) (app s) Hs) as (r & full' & Hrun' & kept & h' & _ & Hh' & Hset).
      rewrite Hrun in Hrun'. simplify_eq. rewrite Hfull in Hh'. simplify_list_eq.
      destruct (truthful _ _ _ _ _ _ Hset x u) as (d & m & Hk & ? & ?); [by apply elem_of_app; left|].
      exists d, m. rewrite Hacc, !elem_of_app. split_and!; [|done|done]. right. left. by eapply kept_processed.
Qed.

Lemma consume_live s s' : live s → up (stage s) = true → own (sys s) s' → (∀ batch, phase (sys s) ≠ Busy batch) →
  live (s <| sys := s' |>).
Proof.
  intros Hl Hup Hown Hidle. destruct (own_idle _ _ Hown Hidle) as (Happ & Hreq & Hkeep & Hphase).
  eapply steps_on_live; try done; simpl; [|by eapply own_inv, live_inv| | | |].
  - split_and!; [done..|]. simpl. exists []. rewrite app_nil_r. by split; [f_equal|].
  - by destruct (stage s).
  - intros Hs. destruct (live_serving _ Hl Hs) as (Hn & Hp & Hr). destruct (Hkeep Hn) as [-> ->]. by rewrite Hreq.
  - intros Hs. rewrite Hreq. by apply live_draining.
  - intros cut Hs. apply Hphase. by eapply live_stopped.
Qed.
Lemma around_live s s' : live s → up (stage s) = true → others (sys s) s' → stop_requested s' = stop_requested (sys s) →
  live (s <| sys := s' |>).
Proof.
  intros Hl Hup Hoth Hreq. destruct (others_idle _ _ Hoth Hreq) as (Hphase & Hpend & Hrec & h & Hh & Hst).
  eapply steps_on_live; try done; simpl; [|by eapply others_inv, live_inv| | | |].
  - split_and!; [done..|]. by exists h.
  - by destruct (stage s).
  - intros Hs. rewrite Hreq, Hpend, Hrec. by apply live_serving.
  - intros Hs. rewrite Hreq. by apply live_draining.
  - intros cut Hs. rewrite Hphase. by eapply live_stopped.
Qed.

Lemma batch_live s batch stored a : live s → up (stage s) = true → phase (sys s) = Busy batch →
  process_batch batch (app (sys s)) = Some (Ok stored, a) →
  live (s <| sys := (sys s) <| phase := Waiting |> <| app := a |> |> <| tasks := tasks s ++ spawn stored |>).
Proof.
  intros [Hi Hserv Hdrain Hstop Hper Hnone Hann [Hle Heq]] Hup Hp Hrun.
  destruct (process_batch_spec batch (app (sys s)) (inv_sound _ Hi)) as (r & a' & Hrun' & kept & h & Hr & Hh & Hset).
  rewrite Hrun in Hrun'. simplify_eq. destruct (spawn_states (map (λ x : Delivery * MessageRecord, summary x.2) kept)) as [Hpost Hwait].
  assert (Hw : ∀ x, map fst (List.filter (λ x, bool_decide (snd x = AwaitingPermit)) (tasks s ++ spawn x)) =
    waiting s ++ map fst (List.filter (λ x, bool_decide (snd x = AwaitingPermit)) (spawn x))).
  { intros x. by rewrite List.filter_app, map_app. }
  assert (Hl : length (stored_acks h) = length kept) by by rewrite (acknowledged _ _ _ _ _ _ Hset), length_map.
  split; simpl; try done.
  - by eapply own_inv; [eapply process|].
  - by destruct (stage s).
  - unfold posting. simpl. rewrite List.filter_app, Hpost, app_nil_r. done.
  - intros Hn. destruct (Hnone Hn) as [-> ->]. unfold spawn. by rewrite Hn.
  - unfold waiting at 1. simpl. rewrite Hw, Hwait, app_assoc. intros m [Hm|Hm]%elem_of_app.
    + destruct (Hann m Hm) as (t & row & ? & ? & ?). exists t, row. simpl. rewrite Hh, elem_of_app. auto.
    + assert (Hin : MessageNew m ∈ events h).
      { rewrite (announced _ _ _ _ _ _ Hset). unfold spawn in Hm. destruct webhook_url; [|by apply not_elem_of_nil in Hm].
        rewrite map_map in Hm. simpl in Hm. rewrite map_id in Hm. clear -Hm. induction kept as [|x kept IH]; csimpl in *.
        - by apply not_elem_of_nil in Hm.
        - apply elem_of_cons in Hm as [->|Hm]; [by left|right; auto]. }
      apply list_elem_of_omap in Hin as ([n t] & Hin & Hn). destruct n; simplify_eq/=.
      destruct (visible _ _ _ _ _ _ Hset _ _ Hin) as (row & Hrow & He%list_elem_of_singleton). simplify_eq.
      exists t, row. simpl. rewrite Hh, elem_of_app. auto.
  - unfold waiting at 1 2, told. simpl. rewrite Hh, stored_acks_app, Hw, Hwait, !length_app, Hl. unfold spawn.
    unfold told in *. rewrite !length_app in *. destruct webhook_url as [url|]; rewrite ?length_map; simpl; [|split; [lia|done]].
    split; [lia|]. intros Hu Hs. rewrite <- Heq by done. lia.
Qed.

(** A step of the webhooks moves messages between their lists. *)
Lemma hooks_live s t p n : live s → webhook_url ≠ None →
  let s' := s <| tasks := t |> <| posts := p |> <| permits := n |> in
  n + length (posting s') = WEBHOOK_PERMITS → p ++ waiting s' ≡ₚ posts s ++ waiting s → live s'.
Proof.
  intros [Hi Hserv Hdrain Hstop Hper Hnone Hann [Hle Heq]] Hu s' Hn Hp. split; try done.
  - intros m Hm. apply (Hann m). by rewrite <- Hp.
  - unfold told. simpl. change (posts s') with p. rewrite Hp. split; [done|]. intros _ Hs. by apply Heq.
Qed.
Lemma acquire_live s l payload r n : live s → tasks s = l ++ (payload, AwaitingPermit) :: r → permits s = S n →
  live (s <| tasks := l ++ (payload, Posting) :: r |> <| permits := n |> <| posts := posts s ++ [payload] |>).
Proof.
  intros Hl Ht Hpn. apply (hooks_live s (l ++ (payload, Posting) :: r) (posts s ++ [payload]) n Hl).
  - intros Hu. destruct (live_none _ Hl Hu) as [Hnil _]. rewrite Hnil in Ht. by destruct l.
  - assert (Hper := live_permits _ Hl). rewrite (posting_app _ l (payload, AwaitingPermit) r Ht), Hpn in Hper.
    rewrite (posting_app _ l (payload, Posting) r) by done. simpl in *. rewrite !length_app in *. simpl. lia.
  - rewrite (waiting_app (_ <| permits := n |>) l (payload, Posting) r) by done. rewrite (waiting_app _ _ _ _ Ht). simpl.
    rewrite <- app_assoc. simpl. by rewrite Permutation_middle.
Qed.
Lemma answered_live s l payload r : live s → tasks s = l ++ (payload, Posting) :: r →
  live (s <| tasks := l ++ r |> <| permits := S (permits s) |>).
Proof.
  intros Hl Ht. change (live (s <| tasks := l ++ r |> <| posts := posts s |> <| permits := S (permits s) |>)).
  apply hooks_live; [done| | |].
  - intros Hu. destruct (live_none _ Hl Hu) as [Hnil _]. rewrite Hnil in Ht. by destruct l.
  - assert (Hper := live_permits _ Hl). rewrite (posting_app _ _ _ _ Ht) in Hper. unfold posting. simpl in *.
    rewrite List.filter_app, map_app, !length_app in *. simpl in *. lia.
  - unfold waiting at 1. rewrite (waiting_app _ _ _ _ Ht). simpl. by rewrite List.filter_app, map_app.
Qed.

Lemma turn_live s s' : turn s s' → live s → live s'.
Proof.
  intros Hturn Hl. destruct Hturn as [s s' Hup Hown Hidle|s batch stored a Hup Hp Hrun|s s' Hup Hoth Hreq|
    s l payload r n Hup Ht Hn|s l payload r Hup Ht|s Hs|s Hs|s Hs|s Hs Hhttp Hp|s a Hs Hcut].
  - by apply consume_live.
  - by eapply batch_live.
  - by apply around_live.
  - by apply acquire_live.
  - by eapply answered_live.
  - eapply (steps_on_live s); try done; [|by apply (live_inv s)|by rewrite Hs].
    split_and!; [done..|]. exists []. by rewrite app_nil_r.
  - eapply (steps_on_live s); try done; [| |by rewrite Hs].
    + split_and!; [done..|]. exists []. by rewrite app_nil_r.
    + apply (others_inv (sys s)); [apply request_stop|by apply (live_inv s)].
  - eapply (steps_on_live s); try done; simpl; [|by apply (live_inv s)|by rewrite Hs|by apply live_serving|by apply live_draining|by apply live_stopped].
    split_and!; [done..|]. exists []. by rewrite app_nil_r.
  - eapply (steps_on_live s); try done; [|by apply (live_inv s)|by rewrite Hs].
    split_and!; [done..|]. exists []. by rewrite app_nil_r.
  - destruct (cut_off_inv _ _ (live_inv _ Hl) Hcut) as [Hi (h & Hh)].
    eapply (steps_on_live s); try done; [|by rewrite Hs]. split_and!; [done..|]. by exists h.
Qed.
Lemma server_live s : server_reachable s → live s.
Proof.
  intros (a & Hs & Hh & Hsteps). assert (Hl := started_live a Hs Hh). clear Hs Hh.
  induction Hsteps as [|s1 s2 s3 Hturn _ IH]; [done|]. by eapply IH, turn_live.
Qed.

(** ** Stopping *)

(** What the consumer can do on its own, the server can. *)
Lemma own_turn s s' : up (stage s) = true → own (sys s) s' →
  ∃ t, turn s t ∧ sys t = s' ∧ stage t = stage s ∧ http_open t = http_open s.
Proof.
  intros Hup Hown. destruct (phase (sys s)) as [|batch|] eqn:Hp.
  1,3: exists (s <| sys := s' |>); split_and!; [apply consume; [done..|]; congruence|done..].
  inversion Hown as [s1 Hp'|s1 Hp'|s1 batch' sums a Hp' Hrun|s1 Hp']; subst; try congruence.
  rewrite Hp in Hp'. simplify_eq. eexists. split_and!; [by eapply batch_done|done..].
Qed.
Lemma own_turns s s' : up (stage s) = true → rtc own (sys s) s' →
  ∃ t, rtc turn s t ∧ sys t = s' ∧ stage t = stage s ∧ http_open t = http_open s.
Proof.
  intros Hup Hsteps. remember (sys s) as s0 eqn:Hs0. revert s Hs0 Hup.
  induction Hsteps as [s0|s0 s1 s2 Hown _ IH]; intros s -> Hup; [by exists s|].
  destruct (own_turn s s1 Hup Hown) as (t & Hturn & <- & Hst & Hh). destruct (IH t eq_refl) as (u & ? & ? & ? & ?); [by rewrite Hst|].
  exists u. split_and!; [by eapply rtc_l|done|congruence|congruence].
Qed.

(** Every session told that its message is stored was told so by tables that held
    it. *)
Lemma told_truly s a t : server_reachable s → (Acked a Stored, t) ∈ history (app (sys s)) →
  ∃ d m, d ∈ accepted (sys s) ∧ ack d = a ∧ row_of d t m.
Proof.
  intros Hl%server_live Hin. destruct (inv_done _ (live_inv _ Hl)) as (done & Hacc & _ & Hst).
  destruct (Hst a t Hin) as (d & m & Hd & ? & ?). exists d, m. rewrite Hacc, elem_of_app. auto.
Qed.

(** C20: liveness. While the server serves, its consumer never ends by itself, so
    the error for that is never reported; every session ever told that its
    message is stored was told so by tables that held it; from the drain the
    process can always come to its end without the deadline; and once it has
    ended, in time or cut off by the deadline in the middle of a batch, every
    delivery the queue accepted has had its channel closed exactly once. *)
Theorem stop_answers_everyone s :
  server_reachable s →
  (stage s = Serving → phase (sys s) ≠ Finished) ∧
  (∀ a t, (Acked a Stored, t) ∈ history (app (sys s)) →
    ∃ d m, d ∈ accepted (sys s) ∧ ack d = a ∧ row_of d t m) ∧
  (∀ cut, stage s = Stopped cut → closed (history (app (sys s))) ≡ₚ map ack (accepted (sys s))) ∧
  (stage s = Draining → ∃ s', rtc turn s s' ∧ stage s' = Stopped false ∧ accepted (sys s') = accepted (sys s)).
Proof.
  intros Hreach. assert (Hl := server_live _ Hreach). assert (Hi := live_inv _ Hl). split_and!.
  - intros Hs Hp. destruct (live_serving _ Hl Hs) as (_ & _ & Hr). destruct (inv_finished _ Hi Hp) as [_ Hr']. congruence.
  - intros a t. by apply told_truly.
  - intros cut Hs. apply finished_closed; [done|]. by eapply live_stopped.
  - intros Hs. destruct (drains (sys s) Hi) as (s' & Hsteps & Hp & Hacc); [by apply live_draining|].
    destruct (own_turns s s') as (t & Hturns & <- & Hst & _); [by rewrite Hs|done|].
    exists (t <| http_open := false |> <| stage := Stopped false |>). split_and!; [|done|done].
    etrans; [exact Hturns|]. eapply rtc_l; [apply http_done; congruence|].
    apply rtc_once, drained; simpl; [congruence|done|done].
Qed.

(** ** Webhooks *)

Lemma task_in (ts : list (MessageSummary * Sending)) m p :
  m ∈ map fst (List.filter (λ x, bool_decide (snd x = p)) ts) → (m, p) ∈ ts.
Proof.
  intros ([m' q] & -> & Hin)%list_elem_of_fmap. apply list_elem_of_In, List.filter_In in Hin as [Hin Hq%bool_decide_eq_true_1].
  simpl in Hq. subst. by apply list_elem_of_In.
Qed.
Lemma can_post s m n : up (stage s) = true → (m, AwaitingPermit) ∈ tasks s → permits s = S n →
  ∃ s', turn s s' ∧ posts s' = posts s ++ [m].
Proof. intros Hup (l & r & Ht)%list_elem_of_split Hn. eexists. split; [by eapply acquire|done]. Qed.

(** C21: bounds. At most ten webhook requests are under way; every request is of
    a message that was announced from tables that held it; there is one request,
    sent or still to be sent, for each session told that its message is stored,
    and none without a configured target; and one that waits can always be
    sent, whatever happened to those before it. *)
Theorem webhooks_follow_storage s :
  server_reachable s →
  length (posting s) ≤ WEBHOOK_PERMITS ∧
  (∀ m, m ∈ posts s ++ waiting s → was_announced s m) ∧
  (webhook_url = None → posts s = []) ∧
  (webhook_url ≠ None → stage s ≠ Stopped true → length (posts s ++ waiting s) = length (told s)) ∧
  (up (stage s) = true → waiting s ≠ [] → ∃ s' m, rtc turn s s' ∧ m ∈ waiting s ∧ posts s' = posts s ++ [m]).
Proof.
  intros Hl%server_live. assert (Hper := live_permits _ Hl). split_and!; [lia|by apply live_announced|by apply live_none|by apply live_told|].
  intros Hup Hw. destruct (waiting s) as [|m ms] eqn:Hms; [done|]. assert (Hm : m ∈ waiting s) by (rewrite Hms; by left).
  apply task_in in Hm. cut (∃ s', rtc turn s s' ∧ posts s' = posts s ++ [m]).
  { intros (s' & ? & ?). exists s', m. split_and!; [done|by left|done]. }
  destruct (permits s) as [|n] eqn:Hn.
  2: { destruct (can_post s m n) as (s' & ? & ?); [done..|]. exists s'. split; [by apply rtc_once|done]. }
  (* the first request under way gives its permit back *)
  destruct (posting s) as [|p ps] eqn:Hps; [done|].
  assert (Hp : p ∈ posting s) by (rewrite Hps; by left). apply task_in, list_elem_of_split in Hp as (l & r & Ht).
  destruct (can_post (s <| tasks := l ++ r |> <| permits := S (permits s) |>) m (permits s)) as (s' & Hturn & Hposts); [done| |done|].
  { simpl. rewrite Ht, elem_of_app, elem_of_cons in Hm. rewrite elem_of_app. naive_solver. }
  exists s'. split; [|done]. eapply rtc_l; [by eapply answered|]. by apply rtc_once.
Qed.
End lifecycle.

(** ** A run: a message is stored and its webhook sent; the next is in hand when the
    stop comes, and the deadline cuts it off. *)
Import PlainZstd.
Definition hook : option bytes := Some b#"http://hooks.example.com/".
Definition first_batch : list MessageSummary * App :=
  match process_batch [example_delivery 0] (fresh_app (calm empty_tables)) with
  | Some (Ok stored, a) => (stored, a)
  | _ => ([], fresh_app (calm empty_tables))
  end.
Definition one_posted : Server :=
  {| sys := {| queue := []; receiving := true; stop_requested := false; stop_pending := true; phase := Waiting;
               app := snd first_batch; accepted := [example_delivery 0] |};
     stage := Serving; http_open := true; permits := 9; tasks := map (λ m, (m, Posting)) (fst first_batch);
     posts := fst first_batch |}.
Lemma first_batch_runs : process_batch [example_delivery 0] (fresh_app (calm empty_tables)) =
  Some (Ok (fst first_batch), snd first_batch).
Proof. vm_compute. reflexivity. Qed.
Lemma one_posted_reachable : server_reachable hook one_posted.
Proof.
  exists (fresh_app (calm empty_tables)). split_and!; [apply calm_sound, empty_wf|done|].
  eapply rtc_l; [apply around; [done|by apply (hand_over _ (example_delivery 0)); [|unfold QUEUE_CAPACITY; simpl; lia]|done]|].
  eapply rtc_l; [apply consume; [done|by apply take_batch|done]|].
  eapply rtc_l; [eapply (batch_done hook); [done|reflexivity|apply first_batch_runs]|].
  destruct (fst first_batch) as [|m [|]] eqn:Hm; [by vm_compute in Hm| |by vm_compute in Hm].
  eapply rtc_l; [eapply (acquire hook _ [] m [] 9); [done|by rewrite ?Hm|done]|].
  unfold one_posted. rewrite Hm. apply rtc_refl.
Qed.

Definition next_in_hand : Server :=
  one_posted <| sys := {| queue := []; receiving := true; stop_requested := true; stop_pending := true;
                          phase := Busy [example_delivery 1]; app := snd first_batch;
                          accepted := [example_delivery 0; example_delivery 1] |} |> <| stage := Draining |>.
Lemma next_in_hand_reachable : server_reachable hook next_in_hand.
Proof.
  destruct one_posted_reachable as (a & Hs & Hh & Hsteps). exists a. split_and!; [done..|]. etrans; [exact Hsteps|].
  eapply rtc_l; [apply around; [done|by apply (hand_over _ (example_delivery 1)); [|unfold QUEUE_CAPACITY; simpl; lia]|done]|].
  eapply rtc_l; [apply consume; [done|by apply take_batch|done]|].
  by apply rtc_once, stop.
Qed.
(** Nothing of the batch is done when the deadline comes: its session finds the
    channel dropped, and tells its sender to try again. *)
Definition second_batch : list MessageSummary * App :=
  match process_batch [example_delivery 1] (snd first_batch) with
  | Some (Ok stored, a) => (stored, a)
  | _ => first_batch
  end.
Lemma second_batch_runs : process_batch [example_delivery 1] (snd first_batch) = Some (Ok (fst second_batch), snd second_batch).
Proof. vm_compute. reflexivity. Qed.
Definition cut_app : App :=
  {| world := world (snd first_batch); history := history (snd first_batch) ++ [(AckLost 1, empty_tables)];
     abandonments := []; overdue := [] |}.
Lemma first_batch_sound : sound (world (snd first_batch)).
Proof.
  destruct (process_batch_spec [example_delivery 0] (fresh_app (calm empty_tables))) as (r & a & Hrun & Hset);
    [apply calm_sound, empty_wf|]. rewrite first_batch_runs in Hrun. simplify_eq. by eapply settled_sound.
Qed.
Example deadline_cuts : ∃ s, turn hook next_in_hand s ∧ stage s = Stopped true ∧
  closed (history (app (sys s))) = [0; 1].
Proof.
  eexists. split_and!; [eapply (deadline hook next_in_hand cut_app); [done|]|done|by vm_compute].
  exists [], (drop (length (history (snd first_batch))) (history (snd second_batch))), (fst second_batch),
    (snd second_batch), [example_delivery 1], empty_tables.
  split_and!; [apply second_batch_runs|by vm_compute|done|done|apply first_batch_sound].
Qed.

Lemma stop_answers_everyone_witness :
  (stage next_in_hand = Serving → phase (sys next_in_hand) ≠ Finished) ∧
  (∀ a t, (Acked a Stored, t) ∈ history (app (sys next_in_hand)) →
    ∃ d m, d ∈ accepted (sys next_in_hand) ∧ ack d = a ∧ row_of d t m) ∧
  (∀ cut, stage next_in_hand = Stopped cut →
    closed (history (app (sys next_in_hand))) ≡ₚ map ack (accepted (sys next_in_hand))) ∧
  (stage next_in_hand = Draining → ∃ s', rtc (turn hook) next_in_hand s' ∧ stage s' = Stopped false ∧
    accepted (sys s') = accepted (sys next_in_hand)).
Proof. apply (stop_answers_everyone hook), next_in_hand_reachable. Defined.
Lemma webhooks_follow_storage_witness :
  length (posting one_posted) ≤ WEBHOOK_PERMITS ∧
  (∀ m, m ∈ posts one_posted ++ waiting one_posted → was_announced one_posted m) ∧
  (hook = None → posts one_posted = []) ∧
  (hook ≠ None → stage one_posted ≠ Stopped true →
    length (posts one_posted ++ waiting one_posted) = length (told one_posted)) ∧
  (up (stage one_posted) = true → waiting one_posted ≠ [] →
    ∃ s' m, rtc (turn hook) one_posted s' ∧ m ∈ waiting one_posted ∧ posts s' = posts one_posted ++ [m]).
Proof. apply (webhooks_follow_storage hook), one_posted_reachable. Defined.
