(* ===== verification/Origin.v ===== *)
(** Web origins and the check of a WebSocket handshake's [Origin]:
    [crates/rustmail-api/src/origin.rs]. *)
From S2P Require Import Prelude RustStd.

Inductive Scheme := HTTP | HTTPS.
#[export] Instance Scheme_eq_dec : EqDecision Scheme.
Proof. solve_decision. Defined.
Definition scheme_str (s : Scheme) : bytes := match s with HTTP => b#"http" | HTTPS => b#"https" end.
Definition HTTP_DEFAULT_PORT : Z := 80.
Definition HTTPS_DEFAULT_PORT : Z := 443.

Record Origin := { scheme : Scheme; authority : bytes }.
#[export] Instance Origin_eq_dec : EqDecision Origin.
Proof. solve_decision. Defined.
Inductive OriginError :=
| UnsupportedScheme (raw : bytes)
| MalformedAuthority (raw : bytes)
| InvalidPort (raw : bytes).

(** [HeaderValue::to_str] of the http crate: the text of a header of visible ASCII
    characters. *)
Class HeaderText := to_str : bytes → option bytes.

Definition hostname_of (authority : bytes) : bytes :=
  match rfind "]" authority with
  | Some close => take (S close) authority
  | None => default authority (head (split ":" authority))
  end.

Definition split_host_port (authority : bytes) : option (bytes * option bytes) :=
  if starts_with ["["%char] authority then
    match find "]" authority with
    | None => None
    | Some close =>
      let host := to_ascii_lowercase (take (S close) authority) in
      match drop (S close) authority with
      | [] => Some (host, None)
      | rest => match strip_prefix [":"%char] rest with Some port => Some (host, Some port) | None => None end
      end
    end
  else
    match split_once ":" authority with
    | Some (host, port) => Some (to_ascii_lowercase host, Some port)
    | None => Some (to_ascii_lowercase authority, None)
    end.

Definition is_default_port (scheme : Scheme) (port : Z) : bool :=
  match scheme with HTTP => (port =? HTTP_DEFAULT_PORT)%Z | HTTPS => (port =? HTTPS_DEFAULT_PORT)%Z end.

Definition forbidden : list ascii := ["/"; "?"; "#"; "@"; " "; "009"]%char.
Definition normalize_authority (authority : bytes) (scheme : Scheme) (raw : bytes) : result OriginError bytes :=
  match authority with
  | [] => Err (MalformedAuthority raw)
  | _ =>
    if existsb (λ c, contains c authority) forbidden then Err (MalformedAuthority raw)
    else
      '(host, port) ← ok_or (MalformedAuthority raw) (split_host_port authority);
      match host with
      | [] => Err (MalformedAuthority raw)
      | _ =>
        match port with
        | None => Ok host
        | Some port =>
          port ← map_err (λ _, InvalidPort raw) (parse_u16 port);
          if (port =? 0)%Z then Err (InvalidPort raw)
          else if is_default_port scheme port then Ok host
          else Ok (host ++ ":"%char :: display_Z port)
        end
      end
  end.

(** [split_once] on a string. *)
Fixpoint split_once_str (sep s : bytes) : option (bytes * bytes) :=
  match strip_prefix sep s with
  | Some rest => Some ([], rest)
  | None =>
    match s with
    | [] => None
    | c :: s => match split_once_str sep s with Some (a, b) => Some (c :: a, b) | None => None end
    end
  end.

Definition from_str (s : bytes) : result OriginError Origin :=
  let raw := trim s in
  '(sch, auth) ← ok_or (UnsupportedScheme raw) (split_once_str b#"://" raw);
  scheme ←
    (if beqb (to_ascii_lowercase sch) b#"http" then Ok HTTP
     else if beqb (to_ascii_lowercase sch) b#"https" then Ok HTTPS
     else Err (UnsupportedScheme raw));
  authority ← normalize_authority auth scheme raw;
  mret {| scheme := scheme; authority := authority |}.

Definition display (o : Origin) : bytes := scheme_str (scheme o) ++ b#"://" ++ authority o.

Definition origin_allowed `{HeaderText} (origin : bytes) (host : option bytes) (allowed : list Origin) : bool :=
  match (s ← to_str origin; ok (from_str s)) with
  | None => false
  | Some origin =>
    if existsb (λ o, bool_decide (o = origin)) allowed then true
    else
      match (h ← host; s ← to_str h; let host := trim s in ok (normalize_authority host (scheme origin) host)) with
      | Some host => beqb host (authority origin)
      | None => false
      end
  end.

Example spelled_out_port : from_str b#" HTTPS://Mail.Example.com:443 " = Ok {| scheme := HTTPS; authority := b#"mail.example.com" |}.
Proof. reflexivity. Qed.
Example other_port : from_str b#"http://[::1]:0443" = Ok {| scheme := HTTP; authority := b#"[::1]:443" |}.
Proof. reflexivity. Qed.
Example no_path : is_ok (from_str b#"http://a/b") = false. Proof. reflexivity. Qed.
Example null_origin : from_str b#"null" = Err (UnsupportedScheme b#"null"). Proof. reflexivity. Qed.

(** ** What a text names *)

(** A host, in brackets or free of colons, and of nothing the check refuses. *)
Definition host_form (h : bytes) : Prop :=
  h ≠ [] ∧ (∀ c, c ∈ forbidden → c ∉ h) ∧
  ((∃ inner, h = "["%char :: inner ++ ["]"%char] ∧ "]"%char ∉ inner) ∨
   (head h ≠ Some "["%char ∧ ":"%char ∉ h)).
Definition default_port (sch : Scheme) : Z :=
  match sch with HTTP => HTTP_DEFAULT_PORT | HTTPS => HTTPS_DEFAULT_PORT end.
(** The text of an authority dials a host, in lower case, and a port, which is the
    scheme's where the text spells none. *)
Definition dials (sch : Scheme) (text host : bytes) (port : Z) : Prop :=
  ∃ h rest, text = h ++ rest ∧ host_form h ∧ to_ascii_lowercase h = host ∧
    ((rest = [] ∧ port = default_port sch) ∨ ∃ d, rest = ":"%char :: d ∧ parse_u16 d = Ok port ∧ port ≠ 0%Z).
(** The text of an origin is of a page at a host and port, under a scheme. *)
Definition page_of (text : bytes) (sch : Scheme) (host : bytes) (port : Z) : Prop :=
  ∃ name a, trim text = name ++ b#"://" ++ a ∧ to_ascii_lowercase name = scheme_str sch ∧ dials sch a host port.

(** ** Characters *)

Lemma to_lower_idem c : to_lower (to_lower c) = to_lower c.
Proof. destruct c as [[] [] [] [] [] [] [] []]; reflexivity. Qed.
Lemma lowercase_idem s : to_ascii_lowercase (to_ascii_lowercase s) = to_ascii_lowercase s.
Proof. unfold to_ascii_lowercase. rewrite map_map. apply map_ext, to_lower_idem. Qed.
(** Lower-casing neither makes nor removes a character that is not a letter. *)
Lemma to_lower_other c d : is_ascii_alphabetic d = false → to_lower c = d ↔ c = d.
Proof.
  intros Hd. split; [|intros ->].
  - intros <-. destruct c as [[] [] [] [] [] [] [] []]; (reflexivity || discriminate Hd).
  - destruct d as [[] [] [] [] [] [] [] []]; (reflexivity || discriminate Hd).
Qed.
Lemma lowercase_elem c s : is_ascii_alphabetic c = false → c ∈ to_ascii_lowercase s ↔ c ∈ s.
Proof.
  intros Hc. unfold to_ascii_lowercase. rewrite list_elem_of_fmap. split.
  - intros (d & Heq & Hd). symmetry in Heq. by apply to_lower_other in Heq as ->.
  - intros Hin. exists c. split; [|done]. symmetry. by apply to_lower_other.
Qed.
Lemma starts_with_char c s : starts_with [c] s = bool_decide (head s = Some c).
Proof.
  apply eq_true_iff_eq. rewrite starts_with_spec, bool_decide_eq_true. split.
  - by intros [r ->].
  - destruct s as [|d s]; simpl; [done|]. intros [= ->]. by exists s.
Qed.

Lemma no_forbidden s : existsb (λ c, contains c s) forbidden = false ↔ ∀ c, c ∈ forbidden → c ∉ s.
Proof.
  rewrite <- not_true_iff_false, existsb_exists. setoid_rewrite contains_spec.
  setoid_rewrite <- list_elem_of_In. naive_solver.
Qed.

Lemma parse_pos_range max acc s n : (0 ≤ acc)%Z → parse_pos max acc s = Ok n → (acc ≤ max → 0 ≤ n ≤ max)%Z.
Proof.
  revert acc. induction s as [|c s IH]; intros acc Hacc; cbn [parse_pos]; [intros [= <-]; lia|].
  destruct (is_ascii_digit c) eqn:Hc; [|done]. destruct (Z.leb_spec (acc * 10 + digit_val c) max); [|done].
  assert (0 ≤ digit_val c)%Z.
  { unfold is_ascii_digit, byte_in in Hc. apply andb_true_iff in Hc as [Hc _]. apply N.leb_le in Hc.
    unfold digit_val. lia. }
  intros Hn%IH; lia.
Qed.
Lemma parse_u16_range s n : parse_u16 s = Ok n → (0 ≤ n ≤ U16_MAX)%Z.
Proof.
  unfold parse_u16, parse_unsigned. intros Hp.
  assert (∃ r, parse_pos U16_MAX 0 r = Ok n) as [r Hr] by (repeat case_match; try done; eauto).
  eapply parse_pos_range in Hr; [done|done|unfold U16_MAX; lia].
Qed.

Lemma parse_pos_only_digits max acc s n : parse_pos max acc s = Ok n → forallb is_ascii_digit s = true.
Proof.
  revert acc. induction s as [|c s IH]; intros acc; cbn [parse_pos forallb]; [done|].
  destruct (is_ascii_digit c); [|done]. destruct (_ <=? _)%Z; [apply IH|done].
Qed.
Lemma parse_u16_clean s n c : parse_u16 s = Ok n → c ∈ forbidden → c ∉ s.
Proof.
  unfold parse_u16, parse_unsigned. intros Hp Hc Hin.
  assert (∃ r, parse_pos U16_MAX 0 r = Ok n ∧ (c ∈ r ∨ c = "+"%char)) as (r & Hr & Hor).
  { destruct s as [|x s]; [done|]. destruct (decide (x = "+"%char)) as [->|Hx].
    - destruct s as [|y s]; [done|]. exists (y :: s). split; [done|]. apply elem_of_cons in Hin as [->|?]; auto.
    - exists (x :: s). split; [|by left]. rewrite <- Hp. repeat case_match; simplify_eq; done. }
  unfold forbidden in Hc. destruct Hor as [Hr'| ->]; [|by repeat (apply elem_of_cons in Hc as [?|Hc]; [done|]); apply elem_of_nil in Hc].
  apply parse_pos_only_digits in Hr. rewrite forallb_forall in Hr. apply list_elem_of_In, Hr in Hr'.
  by repeat (apply elem_of_cons in Hc as [->|Hc]; [done|]); apply elem_of_nil in Hc.
Qed.

(** ** Splitting an authority *)

Lemma split_host h : host_form h → split_host_port h = Some (to_ascii_lowercase h, None).
Proof.
  intros (Hne & _ & [(inner & -> & Hin)|[Hh Hc]]); unfold split_host_port; rewrite starts_with_char.
  - rewrite bool_decide_eq_true_2 by done.
    assert (find "]" ("["%char :: inner ++ ["]"%char]) = Some (S (length inner))) as ->.
    { apply find_Some. exists ("["%char :: inner), []. split_and!; [done|done|]. set_solver. }
    by rewrite firstn_all2, skipn_all2 by (simpl; rewrite length_app; simpl; lia).
  - rewrite bool_decide_eq_false_2 by done. by apply split_once_None in Hc as ->.
Qed.
Lemma split_host_with_port h port : host_form h →
  split_host_port (h ++ ":"%char :: port) = Some (to_ascii_lowercase h, Some port).
Proof.
  intros (Hne & _ & [(inner & -> & Hin)|[Hh Hc]]); unfold split_host_port; rewrite starts_with_char.
  - rewrite bool_decide_eq_true_2 by done.
    assert (find "]" (("["%char :: inner ++ ["]"%char]) ++ ":"%char :: port) = Some (S (length inner))) as ->.
    { apply find_Some. exists ("["%char :: inner), (":"%char :: port). split_and!; [|done|set_solver].
      simpl. by rewrite <- app_assoc. }
    assert (Hl : S (S (length inner)) = length ("["%char :: inner ++ ["]"%char])).
    { simpl. rewrite length_app. simpl. lia. }
    by rewrite Hl, take_app_length, drop_app_length.
  - rewrite bool_decide_eq_false_2 by (by destruct h).
    by rewrite (proj2 (split_once_spec ":" _ h port)).
Qed.
Lemma split_host_port_form a host port : split_host_port a = Some (host, port) → host ≠ [] →
  (∀ c, c ∈ forbidden → c ∉ a) →
  ∃ h, host_form h ∧ to_ascii_lowercase h = host ∧ a = h ++ match port with Some d => ":"%char :: d | None => [] end.
Proof.
  intros Hs Hne Ha. unfold split_host_port in Hs. rewrite starts_with_char in Hs. case_bool_decide as Hb.
  - destruct (find "]" a) as [i|] eqn:Hf; [|done]. apply find_Some in Hf as (p & q & -> & -> & Hp).
    assert (Hpq : p ++ "]"%char :: q = (p ++ ["]"%char]) ++ q) by by rewrite <- app_assoc.
    assert (Hlen : S (length p) = length (p ++ ["]"%char])) by (rewrite length_app; simpl; lia).
    rewrite Hpq, Hlen, take_app_length, drop_app_length in Hs. exists (p ++ ["]"%char]).
    assert (Hform : host_form (p ++ ["]"%char])).
    { split; [by destruct p|]. split.
      - intros c Hc Hin. apply (Ha c Hc). rewrite Hpq. apply elem_of_app. by left.
      - left. destruct p as [|x p]; [done|]. simpl in Hb. injection Hb as ->. exists p. set_solver. }
    split; [done|]. rewrite Hpq. destruct q as [|y q]; [by injection Hs as <- <-|].
    destruct (strip_prefix [":"%char] (y :: q)) as [d|] eqn:Hd; [|done]. injection Hs as <- <-.
    apply strip_prefix_spec in Hd. by rewrite Hd.
  - destruct (split_once ":" a) as [[h d]|] eqn:Hso; injection Hs as <- <-.
    + apply split_once_spec in Hso as [-> Hn]. exists h. split; [|done]. split_and!.
      * by intros ->.
      * intros c Hc Hin. apply (Ha c Hc), elem_of_app. by left.
      * right. split; [by destruct h|done].
    + apply split_once_None in Hso. exists a. split; [|by rewrite app_nil_r]. split_and!; [by intros ->|done|]. by right.
Qed.

(** ** The normal form of an authority *)

Definition canonical (sch : Scheme) (host : bytes) (port : Z) : bytes :=
  if is_default_port sch port then host else host ++ ":"%char :: display_Z port.
Lemma default_port_iff sch port : is_default_port sch port = true ↔ port = default_port sch.
Proof. destruct sch; apply Z.eqb_eq. Qed.
(** [normalize_authority] answers the normal form of what its text dials. *)
Lemma normalize_iff a sch raw r :
  normalize_authority a sch raw = Ok r ↔ ∃ host port, dials sch a host port ∧ r = canonical sch host port.
Proof.
  unfold canonical. split.
  - unfold normalize_authority. destruct a as [|x a]; [done|].
    destruct (existsb _ forbidden) eqn:Hf; [done|]. rewrite no_forbidden in Hf.
    destruct (split_host_port (x :: a)) as [[host port]|] eqn:Hs; simpl; [|done]. destruct host as [|y host]; [done|].
    destruct (split_host_port_form _ _ _ Hs ltac:(done) Hf) as (h & Hform & Hlow & ->).
    destruct port as [d|].
    + destruct (parse_u16 d) as [n|] eqn:Hp; simpl; [|done]. destruct (Z.eqb_spec n 0); [done|]. intros Hr.
      exists (y :: host), n. split; [|by destruct (is_default_port sch n); injection Hr as <-].
      exists h, (":"%char :: d). split_and!; [done..|]. right. by exists d.
    + intros [= <-]. exists (y :: host), (default_port sch). rewrite (proj2 (default_port_iff _ _) eq_refl).
      split; [|done]. exists h, []. split_and!; [done..|]. by left.
  - intros (host & port & (h & rest & -> & Hform & Hlow & Hrest) & ->).
    assert (Hclean : ∀ c, c ∈ forbidden → c ∉ h ++ rest).
    { intros c Hc Hin. apply elem_of_app in Hin as [Hin|Hin]; [by apply (proj1 (proj2 Hform) c Hc)|].
      destruct Hrest as [[-> _]|(d & -> & Hd & _)]; [by apply elem_of_nil in Hin|].
      apply elem_of_cons in Hin as [->|Hin]; [|by eapply parse_u16_clean].
      unfold forbidden in Hc. by repeat (apply elem_of_cons in Hc as [?|Hc]; [done|]); apply elem_of_nil in Hc. }
    assert (Hnorm : ∀ p, split_host_port (h ++ rest) = Some (host, p) → normalize_authority (h ++ rest) sch raw =
      match p with
      | None => Ok host
      | Some d => p ← map_err (λ _, InvalidPort raw) (parse_u16 d);
          if (p =? 0)%Z then Err (InvalidPort raw) else if is_default_port sch p then Ok host else Ok (host ++ ":"%char :: display_Z p)
      end).
    { intros p Hs. unfold normalize_authority. rewrite (proj2 (no_forbidden _) Hclean), Hs.
      destruct Hform as [Hne _]. destruct h as [|x h]; [done|]. simpl in Hlow |- *. by subst host. }
    destruct Hrest as [[-> ->]|(d & -> & Hd & Hzero)].
    + rewrite app_nil_r in *. rewrite (Hnorm None); [by rewrite (proj2 (default_port_iff _ _) eq_refl)|]. by rewrite split_host, Hlow.
    + rewrite (Hnorm (Some d)); [|by rewrite split_host_with_port, Hlow]. rewrite Hd. simpl.
      destruct (Z.eqb_spec port 0); [done|]. by destruct (is_default_port sch port).
Qed.
Lemma normalize_dials a sch raw host port : dials sch a host port →
  normalize_authority a sch raw = Ok (canonical sch host port).
Proof. intros Hd. apply normalize_iff. eauto. Qed.

Lemma lowercase_form h : host_form h → host_form (to_ascii_lowercase h).
Proof.
  intros (Hne & Hf & Hor). split_and!.
  - by destruct h.
  - intros c Hc. rewrite lowercase_elem; [by apply Hf|].
    unfold forbidden in Hc. repeat (apply elem_of_cons in Hc as [->|Hc]; [done|]). by apply elem_of_nil in Hc.
  - destruct Hor as [(inner & -> & Hin)|[Hh Hc]].
    + left. exists (to_ascii_lowercase inner). split; [|by rewrite lowercase_elem].
      unfold to_ascii_lowercase. cbn [map]. by rewrite map_app.
    + right. split; [|by rewrite lowercase_elem]. destruct h as [|x h]; [done|]. simpl. intros [= Hx].
      rewrite to_lower_other in Hx by done. by subst.
Qed.
Lemma dials_range sch a host port : dials sch a host port → (0 < port ≤ U16_MAX)%Z.
Proof.
  intros (h & rest & _ & _ & _ & [[_ ->]|(d & _ & Hd & Hn)]); [by destruct sch|].
  apply parse_u16_range in Hd. lia.
Qed.
Lemma dials_form sch a host port : dials sch a host port → host_form host ∧ to_ascii_lowercase host = host.
Proof. intros (h & rest & _ & Hform & <- & _). split; [by apply lowercase_form|apply lowercase_idem]. Qed.
Lemma parse_display_port port : (0 < port ≤ U16_MAX)%Z → parse_u16 (display_Z port) = Ok port.
Proof.
  intros Hp. unfold display_Z. destruct (Z.ltb_spec port 0); [lia|]. unfold parse_u16.
  rewrite parse_display; [f_equal; lia|lia].
Qed.
(** One normal form is of one host and port. *)
Lemma canonical_inj sch a1 a2 h1 p1 h2 p2 : dials sch a1 h1 p1 → dials sch a2 h2 p2 →
  canonical sch h1 p1 = canonical sch h2 p2 → h1 = h2 ∧ p1 = p2.
Proof.
  intros H1 H2 Heq. assert (Hsplit : ∀ a h p, dials sch a h p → split_host_port (canonical sch h p) =
    Some (h, if is_default_port sch p then None else Some (display_Z p))).
  { intros a h p Hd. destruct (dials_form _ _ _ _ Hd) as [Hform Hlow]. unfold canonical.
    destruct (is_default_port sch p); [by rewrite split_host, Hlow|by rewrite split_host_with_port, Hlow]. }
  pose proof (Hsplit _ _ _ H1) as Hs. rewrite Heq, (Hsplit _ _ _ H2) in Hs. injection Hs as -> Hp. split; [done|].
  destruct (is_default_port sch p1) eqn:E1, (is_default_port sch p2) eqn:E2; try done.
  - apply default_port_iff in E1, E2. congruence.
  - injection Hp as Hp. apply (f_equal parse_u16) in Hp.
    rewrite !parse_display_port in Hp by (by eapply dials_range). by injection Hp.
Qed.

(** ** Origins *)

Lemma split_once_str_spec sep s a b : split_once_str sep s = Some (a, b) → s = a ++ sep ++ b.
Proof.
  revert a. induction s as [|c s IH]; intros a; cbn [split_once_str].
  - destruct (strip_prefix sep []) as [r|] eqn:Hr; [|done]. intros [= <- <-]. by apply strip_prefix_spec in Hr.
  - destruct (strip_prefix sep (c :: s)) as [r|] eqn:Hr; [intros [= <- <-]; by apply strip_prefix_spec in Hr|].
    destruct (split_once_str sep s) as [[a' b']|]; [|done]. intros [= <- <-]. simpl. f_equal. by apply IH.
Qed.
Lemma split_scheme name a : ":"%char ∉ name → split_once_str b#"://" (name ++ b#"://" ++ a) = Some (name, a).
Proof.
  induction name as [|c name IH]; intros Hn; [done|]. apply not_elem_of_cons in Hn as [Hc Hn].
  change ((c :: name) ++ ?x) with (c :: (name ++ x)). cbn [split_once_str].
  assert (strip_prefix b#"://" (c :: name ++ b#"://" ++ a) = None) as ->.
  { change b#"://" with (":"%char :: b#"//") at 1. cbn [strip_prefix]. by destruct (Ascii.eqb_spec ":" c). }
  by rewrite IH.
Qed.
Lemma from_str_iff s o : from_str s = Ok o ↔
  ∃ sch host port, page_of s sch host port ∧ o = {| scheme := sch; authority := canonical sch host port |}.
Proof.
  unfold from_str, page_of. split.
  - destruct (split_once_str _ _) as [[name a]|] eqn:Hs; simpl; [|done]. apply split_once_str_spec in Hs as Htrim.
    destruct (if beqb (to_ascii_lowercase name) _ then _ else _) as [sch|] eqn:Hsch; simpl; [|done].
    destruct (normalize_authority a sch _) as [r|] eqn:Hn; simpl; [|done]. intros [= <-].
    apply normalize_iff in Hn as (host & port & Hd & ->). exists sch, host, port. split; [|done]. exists name, a.
    split_and!; [done| |done].
    match type of Hsch with (if ?b then _ else if ?c then _ else _) = _ => destruct b eqn:H1; [|destruct c eqn:H2; [|done]] end;
      injection Hsch as <-; by apply beqb_spec.
  - intros (sch & host & port & (name & a & Ht & Hname & Hd) & ->). rewrite Ht, split_scheme; simpl.
    + rewrite Hname. destruct sch; simpl; by rewrite (normalize_dials _ _ _ _ _ Hd).
    + rewrite <- (lowercase_elem ":") by done. rewrite Hname. destruct sch; by apply find_None.
Qed.
Lemma from_str_page s sch host port : page_of s sch host port →
  from_str s = Ok {| scheme := sch; authority := canonical sch host port |}.
Proof. intros Hp. apply from_str_iff. eauto. Qed.
(** A text is of one page at most. *)
Lemma page_of_inj s sch1 h1 p1 sch2 h2 p2 : page_of s sch1 h1 p1 → page_of s sch2 h2 p2 → sch1 = sch2 ∧ h1 = h2 ∧ p1 = p2.
Proof.
  intros H1 H2. assert (Hf := from_str_page _ _ _ _ H1). rewrite (from_str_page _ _ _ _ H2) in Hf.
  injection Hf as -> Hc. split; [done|]. destruct H1 as (? & ? & _ & _ & H1), H2 as (? & ? & _ & _ & H2).
  destruct (canonical_inj _ _ _ _ _ _ _ H1 H2); [done|]. by split.
Qed.
(** Two texts are of the same page when they parse to the same origin. *)
Lemma same_page s1 s2 o sch host port : from_str s1 = Ok o → page_of s1 sch host port →
  from_str s2 = Ok o ↔ page_of s2 sch host port.
Proof.
  intros H1 Hp. assert (Ho := from_str_page _ _ _ _ Hp). rewrite H1 in Ho. injection Ho as ->. split.
  - intros (sch' & host' & port' & Hp' & [= <- Hc])%from_str_iff. destruct Hp as (? & ? & _ & _ & Hd). assert (Hp2 := Hp').
    destruct Hp' as (? & ? & _ & _ & Hd'). by destruct (canonical_inj _ _ _ _ _ _ _ Hd Hd' Hc) as [-> ->].
  - apply from_str_page.
Qed.

(** What [origin_allowed] admits: a page that is configured, or whose host and port
    are those that the [Host] header dials under the page's scheme. *)
Definition page_allowed `{HeaderText} (origin : bytes) (host : option bytes) (configured : list bytes) : Prop :=
  ∃ text sch h p, to_str origin = Some text ∧ page_of text sch h p ∧
    ((∃ v, v ∈ configured ∧ page_of v sch h p) ∨
     ∃ header dialled, host = Some header ∧ to_str header = Some dialled ∧ dials sch (trim dialled) h p).
Lemma dialled_iff `{HeaderText} host sch h p a : dials sch a h p →
  match (x ← host; s ← to_str x; let host := trim s in ok (normalize_authority host sch host)) with
  | Some host => beqb host (canonical sch h p)
  | None => false
  end = true ↔
  ∃ header dialled, host = Some header ∧ to_str header = Some dialled ∧ dials sch (trim dialled) h p.
Proof.
  intros Hd. destruct host as [header|]; simpl; [|by split; [|intros (? & ? & [=] & _)]].
  destruct (to_str header) as [dialled|] eqn:Hdial; simpl.
  2: { split; [done|]. intros (header' & dialled & [= <-] & Hto & _). congruence. }
  destruct (normalize_authority (trim dialled) sch (trim dialled)) as [r|] eqn:Hn; simpl.
  - apply normalize_iff in Hn as (h' & p' & Hd' & ->). rewrite beqb_spec. split.
    + intros Hc. destruct (canonical_inj _ _ _ _ _ _ _ Hd' Hd Hc) as [-> ->]. by exists header, dialled.
    + intros (header' & dialled' & [= <-] & Hto & Hd''). rewrite Hdial in Hto. injection Hto as <-.
      assert (Hr := normalize_dials _ _ (trim dialled) _ _ Hd''). rewrite (normalize_dials _ _ _ _ _ Hd') in Hr. by injection Hr.
  - split; [done|]. intros (header' & dialled' & [= <-] & Hto & Hd''). rewrite Hdial in Hto. injection Hto as <-.
    by rewrite (normalize_dials _ _ _ _ _ Hd'') in Hn.
Qed.
Lemma configured_iff text o sch h p configured allowed :
  Forall2 (λ v o, from_str v = Ok o) configured allowed → from_str text = Ok o → page_of text sch h p →
  existsb (λ o', bool_decide (o' = o)) allowed = true ↔ ∃ v, v ∈ configured ∧ page_of v sch h p.
Proof.
  intros Hall Ho Hp. rewrite existsb_exists. setoid_rewrite bool_decide_eq_true. split.
  - intros (o' & Hin%list_elem_of_In & ->). apply list_elem_of_lookup in Hin as [i Hi].
    destruct (Forall2_lookup_r _ _ _ _ _ Hall Hi) as (v & Hv & Hv'). exists v. split; [by eapply list_elem_of_lookup_2|].
    by apply (same_page text v o).
  - intros (v & Hv & Hpv). apply list_elem_of_lookup in Hv as [i Hi].
    destruct (Forall2_lookup_l _ _ _ _ _ Hall Hi) as (o' & Ho' & Hv'). exists o'.
    split; [by apply list_elem_of_In; eapply list_elem_of_lookup_2|]. apply (same_page text v o) in Hpv; [congruence|done..].
Qed.
Lemma origin_allowed_iff `{HeaderText} origin host configured allowed :
  Forall2 (λ v o, from_str v = Ok o) configured allowed →
  origin_allowed origin host allowed = true ↔ page_allowed origin host configured.
Proof.
  intros Hall. unfold origin_allowed, page_allowed. destruct (to_str origin) as [text|]; cbn [mbind option_bind].
  2: { split; [done|]. by intros (text & sch & h & p & [=] & _). }
  destruct (from_str text) as [o|] eqn:Ho; cbn [ok].
  2: { split; [done|]. intros (text' & sch & h & p & [= <-] & Hp & _). by rewrite (from_str_page _ _ _ _ Hp) in Ho. }
  destruct (proj1 (from_str_iff text o) Ho) as (sch & h & p & Hp & Heq). pose proof Hp as (? & a & _ & _ & Hd).
  transitivity ((∃ v, v ∈ configured ∧ page_of v sch h p) ∨
    ∃ header dialled, host = Some header ∧ to_str header = Some dialled ∧ dials sch (trim dialled) h p).
  { rewrite <- (configured_iff text o sch h p configured allowed), <- (dialled_iff host sch h p a) by done.
    destruct (existsb _ allowed); [by split; [left|]|]. rewrite Heq. by split; [right|intros [|]]. }
  split.
  - intros Hor. by exists text, sch, h, p.
  - intros (text' & sch' & h' & p' & [= <-] & Hp' & Hor). by destruct (page_of_inj _ _ _ _ _ _ _ Hp Hp') as (-> & -> & ->).
Qed.

#[export] Instance ascii_header : HeaderText := λ h,
  if forallb (λ c, ((32 <=? byte_val c) && (byte_val c <? 127))%N || Ascii.eqb c "009") h then Some h else None.
