(* ===== verification/Host.v ===== *)
(** The guard against DNS rebinding: [crates/rustmail-api/src/host.rs]. *)
From S2P Require Import Prelude RustStd Net Origin.

Definition LOCALHOST : bytes := b#"localhost".
Definition LOCALHOST_SUFFIX : bytes := b#".localhost".
Definition BROWSER_MARKERS : list bytes := [b#"sec-fetch-site"; b#"sec-fetch-mode"; b#"sec-fetch-dest"; b#"origin"].
Definition BROWSER_AGENT_PREFIX : bytes := b#"Mozilla/".
Definition FORBIDDEN : Z := 403.
Definition REFUSAL : bytes :=
  b#"This Host is not allowed. Start rustmail with --allowed-host <name> to serve it." ++ [LF].

(** A request's headers, their names in lower case. *)
Abbreviation HeaderMap := (list (bytes * bytes)).
Definition get (name : bytes) (h : HeaderMap) : option bytes :=
  snd <$> head (List.filter (λ x, beqb (fst x) name) h).
Definition contains_key (name : bytes) (h : HeaderMap) : bool := existsb (λ x, beqb (fst x) name) h.

Abbreviation Hostname := bytes.
Inductive HostnameError := EmptyHostname | NotBare (raw : bytes).
Definition bare_char (c : ascii) : bool :=
  is_ascii_alphanumeric c || existsb (Ascii.eqb c) ["-"; "."; "_"]%char.
Definition hostname_from_str (s : bytes) : result HostnameError Hostname :=
  let raw := trim s in
  if negb (nonempty raw) then Err EmptyHostname
  else if forallb bare_char raw then Ok (to_ascii_lowercase raw)
  else Err (NotBare raw).

Section host.
Context `{HeaderText}.

Definition is_browser_request (headers : HeaderMap) : bool :=
  existsb (λ marker, contains_key marker headers) BROWSER_MARKERS
  || match (agent ← get b#"user-agent" headers; to_str agent) with
     | Some agent => starts_with BROWSER_AGENT_PREFIX agent
     | None => false
     end.

Definition is_ip_literal (host : bytes) : bool :=
  let inner := match (h ← strip_prefix ["["%char] host; strip_suffix ["]"%char] h) with
               | Some h => h
               | None => host
               end in
  match parse_ip inner with Some _ => true | None => false end.

Definition host_allowed (headers : HeaderMap) (allowed : list Hostname) (origins : list Origin) : bool :=
  match (host ← get b#"host" headers; to_str host) with
  | None => false
  | Some host =>
    let host := to_ascii_lowercase (hostname_of (trim host)) in
    if negb (nonempty host) then false
    else if is_ip_literal host || beqb host LOCALHOST || ends_with LOCALHOST_SUFFIX host then true
    else existsb (λ a, beqb a host) allowed || existsb (λ o, beqb (hostname_of (authority o)) host) origins
  end.

(** The middleware: a response of its own, or the next one's. *)
Definition guard_host {R} (respond : Z → bytes → R) (headers : HeaderMap) (allowed : list Hostname)
    (origins : list Origin) (next : R) : R :=
  if is_browser_request headers && negb (host_allowed headers allowed origins)
  then respond FORBIDDEN REFUSAL else next.

(** ** Laws *)

Lemma rfind_None c s : c ∉ s → rfind c s = None.
Proof.
  induction s as [|x s IH]; simpl; [done|]. intros Hn. rewrite IH by set_solver.
  destruct (Ascii.eqb_spec x c) as [->|]; [set_solver|done].
Qed.
Lemma split_head c a b : c ∉ a → head (split c (a ++ c :: b)) = Some a ∧ head (split c a) = Some a.
Proof.
  unfold split. induction a as [|x a IH]; simpl; intros Hn; [by rewrite Ascii.eqb_refl|].
  destruct (Ascii.eqb_spec x c) as [->|]; [set_solver|]. destruct IH as [IH1 IH2]; [set_solver|].
  destruct (split_on _ (a ++ c :: b)), (split_on _ a); simpl in *; by simplify_eq.
Qed.
(** What may follow a name in a [Host] header. *)
Definition port_suffix (p : bytes) : Prop := p = [] ∨ ∃ d, p = ":"%char :: d ∧ "]"%char ∉ d.
Lemma hostname_of_name name p : ":"%char ∉ name → "]"%char ∉ name → port_suffix p →
  hostname_of (name ++ p) = name.
Proof.
  intros Hc Hb Hp. unfold hostname_of. rewrite rfind_None.
  - destruct (split_head ":" name (tail p) Hc) as [H1 H2].
    destruct Hp as [->|(d & -> & _)]; simpl in H1; [by rewrite app_nil_r, H2|by rewrite H1].
  - destruct Hp as [->|(d & -> & Hd)]; [by rewrite app_nil_r|]. set_solver.
Qed.

(** Without a colon or a bracket, only a dotted quad is an address. *)
Lemma ip_literal_iff host : ":"%char ∉ host → "]"%char ∉ host → is_ip_literal host = true ↔ dotted_quad host.
Proof.
  intros Hc Hb. unfold is_ip_literal.
  assert (Hnone : (h ← strip_prefix ["["%char] host; strip_suffix ["]"%char] h) = None).
  { destruct (strip_prefix _ _) as [h|] eqn:Hp; [|done]. simpl. apply strip_prefix_spec in Hp as ->.
    destruct (strip_suffix _ h) as [r|] eqn:Hsuf; [|done]. apply strip_suffix_spec in Hsuf as ->.
    destruct Hb. rewrite !elem_of_app. right. right. by left. }
  rewrite Hnone, <- parse_ip_name by done. destruct (parse_ip host); [by split|]. by split; [|intros [? ?]].
Qed.

(** The names served: what is compared with them is the name in lower case, without
    its port. An address is no name that anybody could point elsewhere. *)
Definition served_name (allowed : list Hostname) (origins : list Origin) (n : bytes) : Prop :=
  dotted_quad n ∨ n = LOCALHOST ∨ (∃ sub, n = sub ++ LOCALHOST_SUFFIX) ∨ n ∈ allowed ∨ n ∈ map (λ o, hostname_of (authority o)) origins.
(** The [Host] of a browser's request that asks for [name], whatever it is but an
    IPv6 address. *)
Record names_host (headers : HeaderMap) (name : bytes) : Prop := {
  nh_browser : is_browser_request headers = true;
  nh_host : ∃ h p, get b#"host" headers = Some h ∧ to_str h = Some (name ++ p) ∧ trim (name ++ p) = name ++ p ∧ port_suffix p;
  nh_bare : ":"%char ∉ name ∧ "]"%char ∉ name;
  nh_name : name ≠ [];
}.
Lemma existsb_name {A} (f : A → bytes) l n : existsb (λ a, beqb (f a) n) l = true ↔ n ∈ map f l.
Proof.
  rewrite existsb_exists, list_elem_of_fmap. setoid_rewrite beqb_spec. setoid_rewrite list_elem_of_In. naive_solver.
Qed.
Lemma host_allowed_iff headers name allowed origins : names_host headers name →
  host_allowed headers allowed origins = true ↔ served_name allowed origins (to_ascii_lowercase name).
Proof.
  intros [_ (h & p & Hg & Ht & Htr & Hp) [Hcol Hbr] Hne].
  unfold host_allowed. rewrite Hg. simpl. rewrite Ht, Htr, hostname_of_name by done.
  assert (nonempty (to_ascii_lowercase name) = true) as -> by by destruct name.
  cbn [negb]. unfold served_name. rewrite <- ends_with_spec.
  assert (Hip : is_ip_literal (to_ascii_lowercase name) = true ↔ dotted_quad (to_ascii_lowercase name))
    by (apply ip_literal_iff; by rewrite lowercase_elem).
  assert (Hid : ∀ l, existsb (λ a, beqb a (to_ascii_lowercase name)) l = true ↔ to_ascii_lowercase name ∈ l).
  { intros l. rewrite (existsb_name (λ a, a)). by rewrite map_id. }
  rewrite <- Hip. clear Hip. destruct (is_ip_literal _); [naive_solver|]. cbn [orb].
  destruct (beqb _ LOCALHOST) eqn:Hl; simpl; [apply beqb_spec in Hl; naive_solver|].
  apply beqb_false in Hl. destruct (ends_with _ _); [naive_solver|].
  rewrite orb_true_iff, Hid, (existsb_name (λ o, hostname_of (authority o))). naive_solver.
Qed.

(** A browser reaches the server by name only on the names served: any other name,
    such as one an attacker points at the machine, is answered [403] before
    anything runs. *)
Lemma rebinding_refused {R} (respond : Z → bytes → R) headers name allowed origins next :
  names_host headers name →
  (served_name allowed origins (to_ascii_lowercase name) → guard_host respond headers allowed origins next = next) ∧
  (¬ served_name allowed origins (to_ascii_lowercase name) →
    guard_host respond headers allowed origins next = respond FORBIDDEN REFUSAL).
Proof.
  intros Hn. unfold guard_host. rewrite (nh_browser _ _ Hn). split.
  - intros Hs%(host_allowed_iff headers); [|done]. by rewrite Hs.
  - intros Hns. destruct (host_allowed _ _ _) eqn:Ha; [|done]. destruct Hns. by apply (host_allowed_iff headers).
Qed.
End host.
