(* ===== verification/WebSocket.v ===== *)
(** The WebSocket connections of the API: the admission of a handshake and the
    loop that streams events to one client, [ws_handler], [handle_socket] and
    [send_within] of [crates/rustmail-api/src/ws.rs], for all connections at once
    and whatever they are woken by. *)
From S2P Require Import Prelude RustStd Query AppState Origin Host.

Definition SERVICE_UNAVAILABLE : Z := 503.
Definition MAX_WS_CONNECTIONS : nat := 50.
#[global] Arguments MAX_WS_CONNECTIONS : simpl never.

(** Durations and instants are in milliseconds. *)
Definition WS_PING_INTERVAL : nat := 30 * 1000.
Definition WS_IDLE_TIMEOUT : nat := 90 * 1000.
Definition WS_SEND_TIMEOUT : nat := 10 * 1000.
Record WsTimings := { ping_interval : nat; idle_timeout : nat; send_timeout : nat }.
Definition default_timings : WsTimings :=
  {| ping_interval := WS_PING_INTERVAL; idle_timeout := WS_IDLE_TIMEOUT; send_timeout := WS_SEND_TIMEOUT |}.

(** The next tick of an interval that was due, completed now, and has a period. *)
Class Interval := next_tick : nat → nat → nat → nat.

(** What the server sends, and what a read of the socket returns: a frame that is
    not a close, a close, the end of the stream or an error. *)
Inductive Message := Ping | Text (e : WsEvent) | Close.
Inductive incoming := PeerFrame | PeerClose | PeerGone | PeerError.
(** What a receive on the broadcast channel returns: the next frame, that so many
    frames were lost, or that there is no sender left. *)
Inductive received := Frame (e : WsEvent) | Lagged (n : nat) | Closed.

Inductive ending := NotUpgraded | SendFailed | FellBehind | ChannelClosed | PeerLeft | PeerSilent.

(** Where a connection's task is: before the upgrade completes, in [select!], in
    [send_within] until a deadline and with what follows a success, or returned. *)
Inductive Phase :=
| Upgrading
| Selecting
| Sending (limit_at : nat) (next : option ending)
| Gone (why : ending).

(** [subscribed] and [rx] count the frames sent on the channel before the
    subscription and before the frame the receiver is at. [sends] are the messages given to
    the socket and [heard] the instants a frame was read, the newest first, since
    the connection's own. *)
Record Conn := {
  subscribed : nat;
  rx : nat;
  idle_at : nat;
  ping_at : nat;
  phase : Phase;
  sends : list Message;
  heard : list nat;
}.
Definition in_phase p c :=
  {| subscribed := subscribed c; rx := rx c; idle_at := idle_at c; ping_at := ping_at c;
     phase := p; sends := sends c; heard := heard c |}.

(** The server's side: the frames broadcast so far, the clock, the permits left
    and the connections in the order of their handshakes. *)
Record Hub := { published : list WsEvent; now : nat; permits : nat; conns : list Conn }.
Definition no_clients : Hub := {| published := []; now := 0; permits := MAX_WS_CONNECTIONS; conns := [] |}.

(** The branches of the [select!], with what the branch finds, and the ends of a
    [send_within]. A receive may find every sender of the channel gone. *)
Inductive arm := PingTick | EventReceived (senders_gone : bool) | PeerSent (m : incoming) | IdleElapsed.
Inductive sent := SendOk | SendError | SendTimedOut.

Inductive occurrence :=
| Handshake (headers : HeaderMap)
| Upgraded (id : nat)
| UpgradeFailed (id : nat)
| Woken (id : nat) (a : arm)
| SendEnded (id : nat) (s : sent)
| Broadcast (e : WsEvent)
| Elapsed (ms : nat).

Section ws.
Context `{HeaderText, Interval}.
Variables (allowed_origins : list Origin) (timings : WsTimings).
(** How many frames the channel holds for its slowest receiver. *)
Variable capacity : nat.

Definition foreign_origin (headers : HeaderMap) : bool :=
  match get b#"origin" headers with
  | Some origin => negb (origin_allowed origin (get b#"host" headers) allowed_origins)
  | None => false
  end.
Definition ws_handler (headers : HeaderMap) (h : Hub) : result Z Hub :=
  if foreign_origin headers then Err FORBIDDEN else
  match permits h with
  | 0 => Err SERVICE_UNAVAILABLE
  | S rest =>
    Ok {| published := published h; now := now h; permits := rest;
          conns := conns h ++ [{| subscribed := 0; rx := 0; idle_at := 0; ping_at := 0; phase := Upgrading;
                                  sends := []; heard := [] |}] |}
  end.

Definition send_within (m : Message) (next : option ending) (at_ : nat) (c : Conn) : Conn :=
  {| subscribed := subscribed c; rx := rx c; idle_at := idle_at c; ping_at := ping_at c;
     phase := Sending (at_ + send_timeout timings) next; sends := sends c ++ [m]; heard := heard c |}.

(** [handle_socket] up to its loop. *)
Definition connect (h : Hub) (c : Conn) : option Conn :=
  match phase c with
  | Upgrading =>
    Some {| subscribed := length (published h); rx := length (published h);
            idle_at := now h + idle_timeout timings; ping_at := now h; phase := Selecting;
            sends := sends c; heard := [now h] |}
  | _ => None
  end.

(** [Receiver::recv]: a receiver whose frame is no longer held is moved to the oldest
    one that is, and told how many it lost; with none to come it waits. *)
Definition at_frame (n : nat) (c : Conn) : Conn :=
  {| subscribed := subscribed c; rx := n; idle_at := idle_at c; ping_at := ping_at c;
     phase := phase c; sends := sends c; heard := heard c |}.
Definition recv (senders_gone : bool) (h : Hub) (c : Conn) : option (received * Conn) :=
  let oldest := length (published h) - capacity in
  if rx c <? oldest then Some (Lagged (oldest - rx c), at_frame oldest c)
  else
    match published h !! rx c with
    | Some e => Some (Frame e, at_frame (S (rx c)) c)
    | None => if senders_gone then Some (Closed, c) else None
    end.

(** One turn of its loop, up to the send it makes. *)
Definition select_arm (a : arm) (h : Hub) (c : Conn) : option Conn :=
  match phase c, a with
  | Selecting, PingTick =>
    if ping_at c <=? now h then
      Some (send_within Ping None (now h)
        {| subscribed := subscribed c; rx := rx c; idle_at := idle_at c;
           ping_at := next_tick (ping_at c) (now h) (ping_interval timings); phase := phase c;
           sends := sends c; heard := heard c |})
    else None
  | Selecting, EventReceived senders_gone =>
    '(event, c) ← recv senders_gone h c;
    Some (match event with
          | Frame e => send_within (Text e) None (now h) c
          | Lagged _ => send_within Close (Some FellBehind) (now h) c
          | Closed => in_phase (Gone ChannelClosed) c
          end)
  | Selecting, PeerSent (PeerClose | PeerGone | PeerError) => Some (in_phase (Gone PeerLeft) c)
  | Selecting, PeerSent PeerFrame =>
    Some {| subscribed := subscribed c; rx := rx c; idle_at := now h + idle_timeout timings;
            ping_at := ping_at c; phase := Selecting; sends := sends c; heard := now h :: heard c |}
  | Selecting, IdleElapsed =>
    if idle_at c <=? now h then Some (send_within Close (Some PeerSilent) (now h) c) else None
  | _, _ => None
  end.

(** The rest of the turn. A peer that stopped reading is given up at the limit. *)
Definition end_send (s : sent) (h : Hub) (c : Conn) : option Conn :=
  match phase c with
  | Sending limit_at next =>
    let failed := Some (in_phase (Gone (default SendFailed next)) c) in
    match s with
    | SendOk => Some (in_phase (match next with None => Selecting | Some why => Gone why end) c)
    | SendError => failed
    | SendTimedOut => if limit_at <=? now h then failed else None
    end
  | _ => None
  end.
Definition fail_upgrade (h : Hub) (c : Conn) : option Conn :=
  match phase c with Upgrading => Some (in_phase (Gone NotUpgraded) c) | _ => None end.

Definition is_gone (c : Conn) : bool := match phase c with Gone _ => true | _ => false end.

(** A step of one connection's task, which drops its permit when it returns. *)
Definition on_conn (id : nat) (f : Hub → Conn → option Conn) (h : Hub) : option Hub :=
  c ← conns h !! id;
  c' ← f h c;
  Some {| published := published h; now := now h;
          permits := if is_gone c' then S (permits h) else permits h; conns := <[id := c']> (conns h) |}.

(** A handshake that is refused leaves no connection. *)
Definition hub_step (o : occurrence) (h : Hub) : option Hub :=
  match o with
  | Handshake headers => Some (match ws_handler headers h with Ok h' => h' | Err _ => h end)
  | Upgraded id => on_conn id connect h
  | UpgradeFailed id => on_conn id fail_upgrade h
  | Woken id a => on_conn id (select_arm a) h
  | SendEnded id s => on_conn id (end_send s) h
  | Broadcast e =>
    Some {| published := published h ++ [e]; now := now h; permits := permits h; conns := conns h |}
  | Elapsed ms =>
    Some {| published := published h; now := now h + ms; permits := permits h; conns := conns h |}
  end.
Fixpoint run (os : list occurrence) (h : Hub) : option Hub :=
  match os with [] => Some h | o :: os => hub_step o h ≫= run os end.

(** ** Laws *)

Definition texts : list Message → list WsEvent := omap (λ m, match m with Text e => Some e | _ => None end).
Lemma texts_app l1 l2 : texts (l1 ++ l2) = texts l1 ++ texts l2.
Proof. apply omap_app. Qed.

(** A close is the last thing sent, and nothing follows but the end. *)
Definition closing_last (c : Conn) : Prop :=
  Close ∉ sends c ∨
  (∃ before, sends c = before ++ [Close] ∧ Close ∉ before) ∧
  match phase c with Upgrading | Selecting | Sending _ None => False | _ => True end.

(** A connection that lost frames is on its way out. *)
Definition fell_behind (c : Conn) : Prop :=
  match phase c with Sending _ (Some FellBehind) | Gone FellBehind => True | _ => False end.

Record conn_ok (h : Hub) (c : Conn) : Prop := {
  ok_sub : subscribed c ≤ rx c;
  ok_rx : rx c ≤ length (published h);
  ok_prefix : texts (sends c) `prefix_of` drop (subscribed c) (published h);
  ok_texts : fell_behind c ∨ texts (sends c) ++ drop (rx c) (published h) = drop (subscribed c) (published h);
  ok_closing : closing_last c;
  ok_fresh : phase c = Upgrading → sends c = [] ∧ heard c = [];
  ok_idle : phase c = Selecting → ∃ t, head (heard c) = Some t ∧ idle_at c = t + idle_timeout timings;
  ok_heard : ∀ t, t ∈ heard c → t ≤ default 0 (head (heard c)) ∧ t ≤ now h;
  ok_limit : ∀ limit next, phase c = Sending limit next →
    limit ≤ now h + send_timeout timings ∧
    (next = None → ∃ t, head (heard c) = Some t ∧ idle_at c = t + idle_timeout timings);
}.

Lemma selecting_open h c : conn_ok h c → phase c = Selecting → Close ∉ sends c.
Proof. intros Hok Hp. destruct (ok_closing _ _ Hok) as [?|[_ Hcl]]; [done|]. by rewrite Hp in Hcl. Qed.

Lemma selecting_texts h c : conn_ok h c → phase c = Selecting →
  texts (sends c) ++ drop (rx c) (published h) = drop (subscribed c) (published h).
Proof. intros Hok Hp. destruct (ok_texts _ _ Hok) as [Hf|]; [|done]. unfold fell_behind in Hf. by rewrite Hp in Hf. Qed.

Lemma send_open_ok m h c c' :
  conn_ok h c → phase c = Selecting → m ≠ Close →
  sends c' = sends c → heard c' = heard c → idle_at c' = idle_at c → subscribed c' = subscribed c →
  rx c ≤ rx c' ≤ length (published h) →
  texts [m] ++ drop (rx c') (published h) = drop (rx c) (published h) →
  conn_ok h (send_within m None (now h) c').
Proof.
  intros Hok Hp Hm Hs Hh Hi Hsub Hrx Ht. pose proof (selecting_open _ _ Hok Hp). pose proof (selecting_texts _ _ Hok Hp) as Htexts. destruct Hok.
  assert (Heq : texts (sends c ++ [m]) ++ drop (rx c') (published h) = drop (subscribed c) (published h))
    by (by rewrite texts_app, <- app_assoc, Ht).
  split; simpl; rewrite ?Hs, ?Hh, ?Hi, ?Hsub; try done.
  - lia.
  - lia.
  - rewrite <- Heq. by apply prefix_app_r.
  - by right.
  - left. simpl. rewrite Hs. set_solver.
  - intros ? ? [= <- <-]. split; [lia|]. auto.
Qed.

Lemma send_close_ok why n h c :
  conn_ok h c → phase c = Selecting → rx c ≤ n ≤ length (published h) → why = FellBehind ∨ n = rx c →
  conn_ok h (send_within Close (Some why) (now h) (at_frame n c)).
Proof.
  intros Hok Hp Hn Hwhy. pose proof (selecting_open _ _ Hok Hp). pose proof (selecting_texts _ _ Hok Hp). destruct Hok. split; simpl; try done.
  - lia.
  - lia.
  - by rewrite texts_app, app_nil_r.
  - destruct Hwhy as [->| ->]; [by left|right]. by rewrite texts_app, app_nil_r.
  - right. split; [by exists (sends c)|done].
  - intros ? ? [= <- <-]. split; [lia|done].
Qed.

Lemma gone_ok why h c : conn_ok h c → (fell_behind c → why = FellBehind) → conn_ok h (in_phase (Gone why) c).
Proof.
  intros [] Hwhy. split; simpl; try done.
  - destruct ok_texts0 as [Hf|]; [|by right]. left. by rewrite (Hwhy Hf).
  - destruct ok_closing0 as [?|[? _]]; [by left|by right].
Qed.
Lemma selecting_gone why h c : conn_ok h c → phase c = Selecting → conn_ok h (in_phase (Gone why) c).
Proof. intros Hok Hp. apply gone_ok; [done|]. unfold fell_behind. by rewrite Hp. Qed.

Lemma connect_ok h c c' : conn_ok h c → connect h c = Some c' → conn_ok h c'.
Proof.
  intros Hok Hc. unfold connect in Hc. destruct (phase c) eqn:Hp; simplify_eq.
  destruct (ok_fresh _ _ Hok Hp) as [Hs _]. split; simpl; rewrite ?Hs; try done.
  - apply prefix_nil.
  - by right.
  - left. simpl. set_solver.
  - by eexists.
  - intros t ->%list_elem_of_singleton. done.
Qed.

Lemma select_arm_ok a h c c' : conn_ok h c → select_arm a h c = Some c' → conn_ok h c'.
Proof.
  intros Hok Hc. unfold select_arm in Hc. destruct (phase c) eqn:Hp; try done.
  destruct a as [|g|m|].
  - destruct (_ <=? _); simplify_eq. eapply send_open_ok; eauto. split; [done|apply Hok].
  - unfold recv in Hc. destruct (Nat.ltb_spec (rx c) (length (published h) - capacity)) as [Hlost|]; simplify_eq/=.
    { apply send_close_ok; [done|done|lia|by left]. }
    destruct (published h !! rx c) as [e|] eqn:He; simplify_eq/=.
    + eapply send_open_ok; eauto; simpl.
      * apply lookup_lt_Some in He. lia.
      * by rewrite (drop_S (published h) e (rx c)).
    + destruct g; simplify_eq/=. by apply selecting_gone.
  - destruct m; simplify_eq; try by apply selecting_gone. pose proof (selecting_open _ _ Hok Hp).
    pose proof (selecting_texts _ _ Hok Hp). destruct Hok.
    split; simpl; try done; [by right|by left|by eexists|].
    intros t [->|Ht]%elem_of_cons; [lia|]. apply ok_heard0 in Ht. lia.
  - destruct (_ <=? _); simplify_eq. apply (send_close_ok _ (rx c)); [done|done|split; [done|apply Hok]|by right].
Qed.

Lemma end_send_ok s h c c' : conn_ok h c → end_send s h c = Some c' → conn_ok h c'.
Proof.
  intros Hok Hc. unfold end_send in Hc. destruct (phase c) as [| |limit next|] eqn:Hp; try done.
  assert (Hg : conn_ok h (in_phase (Gone (default SendFailed next)) c)).
  { apply gone_ok; [done|]. unfold fell_behind. rewrite Hp. by destruct next as [[]|]. }
  destruct s; simplify_eq; [|done|by destruct (_ <=? _); simplify_eq].
  destruct next as [why|]; simplify_eq; [done|]. destruct Hok. split; simpl; try done.
  - right. destruct ok_texts0 as [Hf|]; [|done]. unfold fell_behind in Hf. by rewrite Hp in Hf.
  - left. destruct ok_closing0 as [?|[_ Hcl]]; [done|]. by rewrite Hp in Hcl.
  - intros _. by eapply ok_limit0.
Qed.

Lemma conn_ok_grow es h h' c :
  published h' = published h ++ es → now h ≤ now h' → conn_ok h c → conn_ok h' c.
Proof.
  intros Hp Hn []. split; try done; rewrite ?Hp.
  - rewrite length_app. lia.
  - rewrite drop_app_le by lia. etrans; [done|]. by apply prefix_app_r.
  - destruct ok_texts0 as [?|Heq]; [by left|right]. by rewrite !drop_app_le, app_assoc, Heq by lia.
  - intros t Ht. apply ok_heard0 in Ht. lia.
  - intros limit next Hl. destruct (ok_limit0 _ _ Hl). split; [lia|done].
Qed.

Definition served (h : Hub) : nat := length (List.filter (λ c, negb (is_gone c)) (conns h)).
Definition inv (h : Hub) : Prop := Forall (conn_ok h) (conns h) ∧ permits h + served h = MAX_WS_CONNECTIONS.

Lemma filter_update {A} (p : A → bool) l i x y :
  l !! i = Some x → p x = true →
  length (List.filter p (<[i:=y]> l)) + (if p y then 0 else 1) = length (List.filter p l).
Proof.
  intros Hl Hx. rewrite insert_take_drop by by eapply lookup_lt_Some.
  rewrite <- (take_drop_middle l i x) at 3 by done. rewrite !List.filter_app, !length_app. simpl. rewrite Hx.
  destruct (p y); simpl; lia.
Qed.

(** What one connection's task may do: it starts from a connection that is served
    and keeps it well formed. *)
Definition task (f : Hub → Conn → option Conn) : Prop := ∀ h c c', f h c = Some c' →
  is_gone c = false ∧ (conn_ok h c → conn_ok h c').
Lemma task_connect : task connect.
Proof. intros h c c' H'. split; [|by intros; eapply connect_ok]. unfold connect, is_gone in *. by destruct (phase c). Qed.
Lemma task_fail : task fail_upgrade.
Proof.
  intros h c c' H'. unfold fail_upgrade, is_gone in *. destruct (phase c) eqn:Hp; simplify_eq.
  split; [done|]. intros Hok. apply gone_ok; [done|]. unfold fell_behind. by rewrite Hp.
Qed.
Lemma task_select a : task (select_arm a).
Proof. intros h c c' H'. split; [|by intros; eapply select_arm_ok]. unfold select_arm, is_gone in *. by destruct (phase c). Qed.
Lemma task_end s : task (end_send s).
Proof. intros h c c' H'. split; [|by intros; eapply end_send_ok]. unfold end_send, is_gone in *. by destruct (phase c). Qed.

Lemma on_conn_inv id f h h' : task f → inv h → on_conn id f h = Some h' → inv h'.
Proof.
  intros Hf [Hok Hn] Hs. unfold on_conn in Hs. destruct (conns h !! id) as [c|] eqn:Hc; simplify_eq/=.
  destruct (f h c) as [c'|] eqn:Hfc; simplify_eq/=. destruct (Hf _ _ _ Hfc) as [Hg Hc'].
  pose proof (Forall_lookup_1 _ _ _ _ Hok Hc) as Hck. split; simpl.
  - apply Forall_insert; [|by apply (conn_ok_grow [] h); [rewrite app_nil_r| |auto]].
    eapply Forall_impl; [exact Hok|]. intros x. by apply (conn_ok_grow []); [rewrite app_nil_r|].
  - unfold served in *. simpl.
    pose proof (filter_update (λ c, negb (is_gone c)) _ _ _ c' Hc) as Hl. simpl in Hl. rewrite Hg in Hl.
    specialize (Hl eq_refl). destruct (is_gone c'); simpl in *; lia.
Qed.

Lemma step_inv o h h' : inv h → hub_step o h = Some h' → inv h'.
Proof.
  intros Hi Hs.
  destruct o as [hs|id|id|id a|id s|e|ms]; simpl in Hs;
    eauto using on_conn_inv, task_connect, task_fail, task_select, task_end; destruct Hi as [Hok Hn].
  - unfold ws_handler in Hs. destruct (foreign_origin hs); simplify_eq/=; [by split|].
    destruct (permits h) as [|n] eqn:Hp; simplify_eq/=; [by split; rewrite ?Hp|]. unfold inv, served in *. simpl.
    rewrite List.filter_app, length_app. simpl. split; [|lia]. apply Forall_app_2.
    + eapply Forall_impl; [exact Hok|]. intros c. by apply (conn_ok_grow []); [rewrite app_nil_r|].
    + apply Forall_singleton. split; simpl; try done; try lia; [apply prefix_nil|by right|by left; set_solver|set_solver].
  - simplify_eq. split; [|done]. eapply Forall_impl; [exact Hok|]. intros c. by apply (conn_ok_grow [e]).
  - simplify_eq. split; [|done]. eapply Forall_impl; [exact Hok|].
    intros c. apply (conn_ok_grow []); [by rewrite app_nil_r|simpl; lia].
Qed.

Lemma run_inv os h h' : inv h → run os h = Some h' → inv h'.
Proof.
  revert h. induction os as [|o os IH]; intros h Hi Hr; simpl in Hr; [by simplify_eq|].
  apply bind_Some in Hr as (h1 & Ho & Hr). eauto using step_inv.
Qed.
Lemma reached_inv os h : run os no_clients = Some h → inv h.
Proof. apply run_inv. by split; [constructor|]. Qed.
Lemma reached_conn os h id c : run os no_clients = Some h → conns h !! id = Some c → conn_ok h c.
Proof. intros Hr Hc. eapply Forall_lookup_1; [|exact Hc]. by apply (reached_inv os). Qed.

(** ** Properties *)


(** C34: functional. However mail, frames, timers and sends interleave, the events
    sent to a client are those broadcast since it subscribed, in order and with none
    left out, up to where it has got: a client that lost frames is sent nothing
    of those that survive, and is told to go away. A client that waits is given the next
    event as long as the channel holds it, and is told to go away when not; and
    one told to go away is sent nothing more. *)
Theorem events_without_gaps os h id c :
  run os no_clients = Some h → conns h !! id = Some c →
  texts (sends c) `prefix_of` drop (subscribed c) (published h) ∧
  (phase c = Selecting → texts (sends c) ++ drop (rx c) (published h) = drop (subscribed c) (published h)) ∧
  (Close ∈ sends c → phase c ≠ Selecting ∧ ∃ before, sends c = before ++ [Close] ∧ Close ∉ before) ∧
  (phase c = Selecting → texts (sends c) ≠ drop (subscribed c) (published h) →
    ∃ h' c', hub_step (Woken id (EventReceived false)) h = Some h' ∧ conns h' !! id = Some c' ∧
      if length (published h) <=? rx c + capacity
      then ∃ e, published h !! rx c = Some e ∧ sends c' = sends c ++ [Text e]
      else sends c' = sends c ++ [Close] ∧ ∃ limit, phase c' = Sending limit (Some FellBehind)).
Proof.
  intros Hr Hc. pose proof (reached_conn _ _ _ _ Hr Hc) as Hok. split; [apply Hok|]. split; [by apply selecting_texts|]. split.
  - intros Hin. destruct (ok_closing _ _ Hok) as [?|[Hb Hp]]; [done|]. split; [|done].
    intros Hs. by rewrite Hs in Hp.
  - intros Hp Hne. destruct (drop (rx c) (published h)) as [|e l] eqn:Hd.
    { by rewrite <- (selecting_texts _ _ Hok Hp), Hd, app_nil_r in Hne. }
    assert (He : published h !! rx c = Some e).
    { rewrite <- (Nat.add_0_r (rx c)), <- lookup_drop, Hd. done. }
    pose proof (lookup_lt_Some _ _ _ Hc) as Hlt. simpl. unfold on_conn, select_arm. rewrite Hc. simpl. rewrite Hp. unfold recv.
    destruct (Nat.ltb_spec (rx c) (length (published h) - capacity)) as [Hlost|Hheld]; simpl.
    + rewrite (proj2 (Nat.leb_gt _ _)) by lia. eexists _, _. split; [done|]. simpl.
      rewrite list_lookup_insert_eq by done. split; [done|]. split; [done|]. by eexists.
    + rewrite He. simpl. rewrite (proj2 (Nat.leb_le _ _)) by lia. eexists _, _. split; [done|]. simpl.
      rewrite list_lookup_insert_eq by done. split; [done|]. by exists e.
Qed.

(** At most [MAX_WS_CONNECTIONS] connections are open at once. A
    handshake is answered [403] when its page's origin is not allowed, [503] when
    it is and every slot is taken, and otherwise gets a slot; and a send to a peer
    that stopped reading has its slot free again [send_timeout] later at most. *)
Theorem sockets_bounded os h :
  run os no_clients = Some h →
  served h ≤ MAX_WS_CONNECTIONS ∧
  (∀ headers,
    match ws_handler headers h with
    | Err e => (e = FORBIDDEN ∧ foreign_origin headers = true) ∨
               (e = SERVICE_UNAVAILABLE ∧ foreign_origin headers = false ∧ served h = MAX_WS_CONNECTIONS)
    | Ok h' => foreign_origin headers = false ∧ served h' = S (served h)
    end) ∧
  (∀ id c limit next, conns h !! id = Some c → phase c = Sending limit next →
    ∃ h', run [Elapsed (send_timeout timings); SendEnded id SendTimedOut] h = Some h' ∧
      served h = S (served h')).
Proof.
  intros Hr. destruct (reached_inv _ _ Hr) as [Hok Hn]. split; [lia|]. split.
  - intros hs. unfold ws_handler. destruct (foreign_origin hs); [by left|].
    destruct (permits h) eqn:Hp; [right; repeat split; lia|]. unfold served. simpl.
    rewrite List.filter_app, length_app. simpl. split; [done|lia].
  - intros id c limit next Hc Hp. pose proof (reached_conn _ _ _ _ Hr Hc) as Hck.
    destruct (ok_limit _ _ Hck _ _ Hp) as [Hl _].
    simpl. unfold on_conn, end_send. simpl. rewrite Hc. simpl. rewrite Hp. simpl.
    destruct (Nat.leb_spec limit (now h + send_timeout timings)) as [_|]; [|lia]. simpl. eexists. split; [done|].
    unfold served. simpl.
    pose proof (filter_update (λ c, negb (is_gone c)) _ _ _ (in_phase (Gone (default SendFailed next)) c) Hc) as Hu.
    simpl in Hu. unfold is_gone in Hu at 1. rewrite Hp in Hu. specialize (Hu eq_refl). simpl in *. lia.
Qed.

(** A connection that waits is given up as silent exactly when the
    peer has sent nothing for [idle_timeout]: what the server sends it, pings and
    events alike, neither shortens that time nor extends it. *)
Theorem only_silence_is_idle os h id c :
  run os no_clients = Some h → conns h !! id = Some c → phase c = Selecting →
  is_Some (hub_step (Woken id IdleElapsed) h) ↔ ∀ t, t ∈ heard c → t + idle_timeout timings ≤ now h.
Proof.
  intros Hr Hc Hp. pose proof (reached_conn _ _ _ _ Hr Hc) as Hck.
  destruct (ok_idle _ _ Hck Hp) as (t & Ht & Hi). simpl. unfold on_conn, select_arm. rewrite Hc. simpl. rewrite Hp, Hi.
  destruct (Nat.leb_spec (t + idle_timeout timings) (now h)) as [Hle|Hlt]; simpl.
  - split; [|done]. intros _ t' Ht'. apply (ok_heard _ _ Hck) in Ht'. rewrite Ht in Ht'. simpl in Ht'. lia.
  - split; [by intros []|]. intros Hall. exfalso. destruct (heard c) as [|t0 l]; simplify_eq/=.
    specialize (Hall t ltac:(left)). lia.
Qed.
End ws.

(** A page of the server's own and a client with no origin connect; mail arrives,
    one peer answers and the other stops reading. *)
#[local] Instance ticking : Interval := λ due now period, if now =? due then due + period else now + period.
Definition test_timings : WsTimings := {| ping_interval := 50; idle_timeout := 300; send_timeout := 300 |}.
Definition two_clients : list occurrence :=
  [Handshake []; Upgraded 0; Woken 0 PingTick; SendEnded 0 SendOk; Broadcast (MessageDelete b#"1");
   Handshake [(b#"host", b#"localhost:8025"); (b#"origin", b#"http://localhost:8025")]; Upgraded 1;
   Handshake [(b#"host", b#"localhost:8025"); (b#"origin", b#"http://evil.example")];
   Woken 0 (PeerSent PeerFrame); Broadcast MessagesClear; Woken 0 (EventReceived false);
   Elapsed 50; SendEnded 0 SendOk; Woken 1 (EventReceived false)].
Definition two_conns : Hub := default no_clients (run [] test_timings 4 two_clients no_clients).
Example two_clients_run :
  (λ c, (phase c, sends c)) <$> conns two_conns =
    [(Selecting, [Ping; Text (MessageDelete b#"1")]); (Sending 350 None, [Text MessagesClear])].
Proof. reflexivity. Qed.
(** On a channel of one frame the first client loses the first event and is told to
    go away; the second, which sees the last, is not. *)
Example one_falls_behind :
  (λ h, (λ c, (rx c, phase c, sends c)) <$> conns h) <$> run [] test_timings 1 two_clients no_clients =
    Some [(1, Gone FellBehind, [Ping; Close]); (2, Sending 350 None, [Text MessagesClear])].
Proof. reflexivity. Qed.

Lemma events_without_gaps_witness :
  let c := {| subscribed := 0; rx := 1; idle_at := 300; ping_at := 50; phase := Selecting;
              sends := [Ping; Text (MessageDelete b#"1")]; heard := [0; 0] |} in
  texts (sends c) `prefix_of` drop (subscribed c) (published two_conns) ∧
  ∃ h' c', hub_step [] test_timings 4 (Woken 0 (EventReceived false)) two_conns = Some h' ∧ conns h' !! 0 = Some c' ∧
    ∃ e, published two_conns !! rx c = Some e ∧ sends c' = sends c ++ [Text e].
Proof.
  intros c. destruct (events_without_gaps [] test_timings 4 two_clients two_conns 0 c) as (Hp & _ & _ & Hnext);
    [vm_compute; reflexivity..|].
  split; [exact Hp|]. apply Hnext; [reflexivity|]. vm_compute. discriminate.
Defined.

(** The page of a server dialled with the port its scheme implies is its own. *)
Definition from_page (host origin : bytes) : HeaderMap := [(b#"host", host); (b#"origin", origin)].

Lemma sockets_bounded_witness :
  served two_conns ≤ MAX_WS_CONNECTIONS ∧
  (∀ headers,
    match ws_handler [] headers two_conns with
    | Err e => (e = FORBIDDEN ∧ foreign_origin [] headers = true) ∨
               (e = SERVICE_UNAVAILABLE ∧ foreign_origin [] headers = false ∧ served two_conns = MAX_WS_CONNECTIONS)
    | Ok h' => foreign_origin [] headers = false ∧ served h' = S (served two_conns)
    end) ∧
  (∀ id c limit next, conns two_conns !! id = Some c → phase c = Sending limit next →
    ∃ h', run [] test_timings 4 [Elapsed (send_timeout test_timings); SendEnded id SendTimedOut] two_conns = Some h' ∧
      served two_conns = S (served h')).
Proof. apply (sockets_bounded [] test_timings 4 two_clients two_conns). vm_compute. reflexivity. Defined.

Lemma only_silence_is_idle_witness :
  let c := {| subscribed := 0; rx := 1; idle_at := 300; ping_at := 50; phase := Selecting;
              sends := [Ping; Text (MessageDelete b#"1")]; heard := [0; 0] |} in
  is_Some (hub_step [] test_timings 4 (Woken 0 IdleElapsed) two_conns) ↔
    ∀ t, t ∈ heard c → t + idle_timeout test_timings ≤ now two_conns.
Proof. intros c. apply (only_silence_is_idle [] test_timings 4 two_clients two_conns 0); vm_compute; reflexivity. Defined.
