(* ===== verification/Config.v ===== *)
(** The configuration of the server: the settings of the command line, the
    environment and the TOML file, and the checks of their values, of
    [crates/rustmail-server/src/main.rs]. *)
From S2P Require Import Prelude RustStd Net Origin Host.

(** ** The TOML file and the environment *)

Record TomlConfig := {
  bind : option bytes;
  smtp_port : option N;
  http_port : option N;
  db_path : option bytes;
  ephemeral : option bool;
  max_message_size : option N;
  smtp_tls_cert : option bytes;
  smtp_tls_key : option bytes;
  retention : option N;
  max_messages : option Z;
  log_level : option bytes;
  webhook_url : option bytes;
  release_host : option bytes;
  allowed_origins : option (list bytes);
  allowed_hosts : option (list bytes);
  ws_buffer : option N;
}.

Abbreviation Env := (gmap bytes bytes).
Definition set_if_absent (key value : bytes) (env : Env) : Env :=
  match env !! key with Some _ => env | None => <[key := value]> env end.

Definition display_bool (b : bool) : bytes := if b then b#"true" else b#"false".
(** The settings in the order they are applied. *)
Definition settings (c : TomlConfig) : list (bytes * option bytes) :=
  [(b#"RUSTMAIL_BIND", bind c);
   (b#"RUSTMAIL_SMTP_PORT", display_N <$> smtp_port c);
   (b#"RUSTMAIL_HTTP_PORT", display_N <$> http_port c);
   (b#"RUSTMAIL_DB_PATH", db_path c);
   (b#"RUSTMAIL_EPHEMERAL", display_bool <$> ephemeral c);
   (b#"RUSTMAIL_MAX_MESSAGE_SIZE", display_N <$> max_message_size c);
   (b#"RUSTMAIL_SMTP_TLS_CERT", smtp_tls_cert c);
   (b#"RUSTMAIL_SMTP_TLS_KEY", smtp_tls_key c);
   (b#"RUSTMAIL_RETENTION", display_N <$> retention c);
   (b#"RUSTMAIL_MAX_MESSAGES", display_Z <$> max_messages c);
   (b#"RUSTMAIL_LOG_LEVEL", log_level c);
   (b#"RUSTMAIL_WEBHOOK_URL", webhook_url c);
   (b#"RUSTMAIL_RELEASE_HOST", release_host c);
   (b#"RUSTMAIL_ALLOWED_ORIGINS", join [","%char] <$> allowed_origins c);
   (b#"RUSTMAIL_ALLOWED_HOSTS", join [","%char] <$> allowed_hosts c);
   (b#"RUSTMAIL_WS_BUFFER", display_N <$> ws_buffer c)].
Definition apply_toml_to_env (c : TomlConfig) (env : Env) : Env :=
  fold_left (λ env '(key, value),
    match value with Some v => set_if_absent key v env | None => env end) (settings c) env.

(** [args.windows(2).find_map(...)]. *)
Fixpoint config_flag (args : list bytes) : option bytes :=
  match args with
  | a :: (b :: _) as rest => if beqb a b#"--config" then Some b else config_flag rest
  | _ => None
  end.
Fixpoint find_map {A B} (f : A → option B) (l : list A) : option B :=
  match l with [] => None | x :: l => match f x with Some b => Some b | None => find_map f l end end.
Definition config_path (args : list bytes) : option bytes :=
  match config_flag args with
  | Some p => Some p
  | None => find_map (strip_prefix b#"--config=") args
  end.
(** [load] reads and decodes the file. *)
Definition pre_load_toml_config {E} (load : bytes → result E TomlConfig) (args : list bytes) (env : Env)
    : result E Env :=
  match config_path args with
  | Some path => c ← load path; mret (apply_toml_to_env c env)
  | None => mret env
  end.

(** ** Values *)

Inductive ConfigError :=
| InvalidDuration (e : IntErrorKind.t)
| TlsIncomplete
| InvalidUrl (url : bytes)
| BadScheme (scheme : bytes)
| NoHost
| Localhost (url : bytes)
| PrivateAddress (url : bytes)
| InvalidOrigin (e : OriginError)
| InvalidHost (e : HostnameError)
| InvalidBind (s : bytes)
| CertificateFile (path : bytes)
| PrivateKeyFile (path : bytes)
| BadCertificates
| NoCertificates
| NoPrivateKey
| BadPrivateKey
| TlsRefused.

(** Whole seconds; the product wraps in a release build. *)
Definition parse_duration (s : bytes) : result ConfigError Z :=
  let s := trim s in
  let number s := map_err InvalidDuration (parse_u64 s) in
  match strip_suffix b#"s" s with
  | Some secs => number secs
  | None =>
    match strip_suffix b#"m" s with
    | Some mins => mins ← number mins; mret (wrap_u64 (mins * 60))
    | None => number s
    end
  end.

(** rustls and its PEM reader: the certificates of a file, each read or not, its
    first private key, and the configuration of a server that shows them. *)
Inductive PemError := NoItemsFound | PemFailed.
Class Rustls := {
  Certificate : Type;
  PrivateKey : Type;
  ServerConfig : Type;
  pem_certificates : bytes → list (result PemError Certificate);
  pem_private_key : bytes → result PemError PrivateKey;
  with_single_cert : list Certificate → PrivateKey → option ServerConfig;
}.

Section tls.
Context `{Rustls}.
(** What opening a file gives, if it can be opened. *)
Context (open_file : bytes → option bytes).

Record TlsConfig := { server_config : ServerConfig }.
Definition load_smtp_tls_config (cert_path key_path : bytes) : result ConfigError TlsConfig :=
  cert_file ← ok_or (CertificateFile cert_path) (open_file cert_path);
  key_file ← ok_or (PrivateKeyFile key_path) (open_file key_path);
  cert_chain ← map_err (λ _, BadCertificates) (mapM (λ c, c) (pem_certificates cert_file));
  match cert_chain with
  | [] => Err NoCertificates
  | _ =>
    private_key ← match pem_private_key key_file with
                  | Ok key => Ok key
                  | Err NoItemsFound => Err NoPrivateKey
                  | Err PemFailed => Err BadPrivateKey
                  end;
    config ← ok_or TlsRefused (with_single_cert cert_chain private_key);
    mret {| server_config := config |}
  end.
Definition build_smtp_tls_config (cert key : option bytes) : result ConfigError (option TlsConfig) :=
  match cert, key with
  | Some cert, Some key => Some <$> load_smtp_tls_config cert key
  | None, None => Ok None
  | _, _ => Err TlsIncomplete
  end.

(** TLS is offered only when both files are named, and then with every certificate
    of the first, at least one, and the key of the second. *)
Lemma tls_configured cert key tls : build_smtp_tls_config cert key = Ok (Some tls) →
  ∃ c k cert_file key_file chain private_key,
    cert = Some c ∧ key = Some k ∧ open_file c = Some cert_file ∧ open_file k = Some key_file ∧
    pem_certificates cert_file = map Ok chain ∧ chain ≠ [] ∧ pem_private_key key_file = Ok private_key ∧
    with_single_cert chain private_key = Some (server_config tls).
Proof.
  destruct cert as [c|], key as [k|]; simpl; try done. unfold load_smtp_tls_config.
  destruct (open_file c) as [cf|] eqn:Hc; [|done]. destruct (open_file k) as [kf|] eqn:Hk; [|done]. simpl.
  assert (Hall : ∀ l chain, mapM (λ c : result PemError Certificate, c) l = Ok chain → l = map Ok chain).
  { induction l as [|x l IH]; intros chain Hl; [by injection Hl as <-|]. simpl in Hl. destruct x as [x|]; [|done]. simpl in Hl.
    destruct (mapM _ l) as [xs|] eqn:Hxs; [|done]. injection Hl as <-. simpl. by rewrite (IH xs). }
  destruct (mapM _ _) as [chain|] eqn:Hm; [|done]. simpl. destruct chain as [|x chain]; [done|].
  destruct (pem_private_key kf) as [key|[]] eqn:Hp; [|done|done]. simpl.
  destruct (with_single_cert _ _) as [config|] eqn:Hw; [|done]. intros [= <-].
  exists c, k, cf, kf, (x :: chain), key. split_and!; try done. by apply Hall.
Qed.
End tls.

Definition is_private_v4 (v4 : list N) : bool :=
  v4_is_private v4 || v4_is_loopback v4 || v4_is_link_local v4 || v4_is_broadcast v4 || v4_is_unspecified v4
  || ((octet 0 v4 =? 100) && (N.land (octet 1 v4) 192 =? 64))%N.
Definition is_private_ip (ip : IpAddr) : bool :=
  match ip with
  | V4 v4 => is_private_v4 v4
  | V6 segs =>
    match to_ipv4_mapped segs with
    | Some v4 => is_private_v4 v4
    | None =>
      v6_is_loopback segs || v6_is_unspecified segs
      || (N.land (nth 0 segs 0) 65024 =? 64512)%N
      || (N.land (nth 0 segs 0) 65472 =? 65152)%N
    end
  end.

(** The scheme and the [host_str] of a URL, as the url crate parses it. *)
Class UrlParser := parse_url : bytes → option (bytes * option bytes).

Definition validate_webhook_url `{UrlParser} (url : bytes) : result ConfigError unit :=
  '(scheme, host_str) ← ok_or (InvalidUrl url) (parse_url url);
  if beqb scheme b#"http" || beqb scheme b#"https" then
    host ← ok_or NoHost host_str;
    if beqb host b#"localhost" || beqb host b#"127.0.0.1" || beqb host b#"::1" || beqb host b#"[::1]"
    then Err (Localhost url)
    else match parse_ip host with
         | Some ip => if is_private_ip ip then Err (PrivateAddress url) else Ok tt
         | None => Ok tt
         end
  else Err (BadScheme scheme).

(** The trimmed values that are not blank, each parsed, or the first error. *)
Fixpoint parse_values {A E} (parse : bytes → result E A) (values : list bytes) : result E (list A) :=
  match values with
  | [] => Ok []
  | v :: values =>
    if nonempty (trim v) then a ← parse (trim v); rest ← parse_values parse values; mret (a :: rest)
    else parse_values parse values
  end.
Lemma parse_values_spec {A E} (parse : bytes → result E A) values l : parse_values parse values = Ok l →
  ∀ a, a ∈ l ↔ ∃ v, v ∈ values ∧ trim v ≠ [] ∧ parse (trim v) = Ok a.
Proof.
  revert l. induction values as [|v values IH]; intros l Hl a; simpl in Hl.
  - injection Hl as <-. split; [by intros ?%not_elem_of_nil|]. intros (v & Hv & _). by apply not_elem_of_nil in Hv.
  - destruct (trim v) as [|c t] eqn:Ht; cbn [nonempty] in Hl.
    + rewrite (IH _ Hl a). setoid_rewrite elem_of_cons. naive_solver.
    + destruct (parse (c :: t)) as [b|] eqn:Hb; [|done]. destruct (parse_values parse values) as [rest|]; [|done].
      injection Hl as <-. rewrite elem_of_cons, (IH _ eq_refl a). setoid_rewrite elem_of_cons.
      split; [intros [->|(x & ? & ? & ?)]|intros (x & [->|?] & ? & Hx)].
      * exists v. rewrite Ht. auto.
      * exists x. auto.
      * left. rewrite Ht, Hb in Hx. by injection Hx.
      * right. by exists x.
Qed.
Lemma parse_values_all {A E} (parse : bytes → result E A) values l v : parse_values parse values = Ok l →
  v ∈ values → trim v ≠ [] → ∃ a, parse (trim v) = Ok a.
Proof.
  revert l. induction values as [|x values IH]; intros l Hl Hv Ht; [by apply not_elem_of_nil in Hv|]. simpl in Hl.
  destruct (trim x) as [|c t] eqn:Hx; cbn [nonempty] in Hl.
  - apply elem_of_cons in Hv as [->|Hv]; [by rewrite Hx in Ht|by eapply IH].
  - destruct (parse (c :: t)) as [b|] eqn:Hb; [|done]. destruct (parse_values parse values) as [rest|]; [|done].
    apply elem_of_cons in Hv as [->|Hv]; [exists b; by rewrite Hx|by eapply IH].
Qed.
Definition parse_allowed_origins (values : list bytes) : result ConfigError (list Origin) :=
  parse_values (λ v, map_err InvalidOrigin (Origin.from_str v)) values.
Definition parse_allowed_hosts (values : list bytes) : result ConfigError (list Hostname) :=
  parse_values (λ v, map_err InvalidHost (hostname_from_str v)) values.

Definition parse_bind_addr (bind : bytes) : result ConfigError IpAddr := ok_or (InvalidBind bind) (parse_ip bind).
Definition parse_release_host (s : bytes) : bytes * option Z :=
  match rsplit_once ":" s with
  | Some (host, port) =>
    match parse_u16 port with Ok port => (host, Some port) | Err _ => (s, None) end
  | None => (s, None)
  end.

Example durations : map (λ s, ok (parse_duration s)) [b#"30s"; b#" 5m "; b#"10"; b#"1h"] = [Some 30; Some 300; Some 10; None]%Z.
Proof. reflexivity. Qed.
(** A number of minutes whose seconds pass [u64::MAX] wraps around to a wait of
    a few seconds. *)
Example duration_wraps : parse_duration b#"307445734561825861m" = Ok 44%Z.
Proof. reflexivity. Qed.
Example release_ports : map parse_release_host [b#"mail:2525"; b#"mail"; b#"mail:smtp"] =
  [(b#"mail", Some 2525%Z); (b#"mail", None); (b#"mail:smtp", None)].
Proof. reflexivity. Qed.

(** ** Properties *)

(** What a setting of the file is worth. *)
Definition setting (c : TomlConfig) (key : bytes) : option bytes :=
  find_map (λ '(k, v), if beqb k key then v else None) (settings c).

(** The environment wins: after the file is applied, a variable
    that was set keeps its value, one that was not takes the file's when the
    file gives one, and no other variable changes. *)
Theorem env_wins c env key :
  apply_toml_to_env c env !! key = match env !! key with Some v => Some v | None => setting c key end.
Proof.
  unfold apply_toml_to_env, setting. generalize (settings c). intros l. revert env.
  induction l as [|[k [v|]] l IH]; intros env; simpl; [by destruct (env !! key)|..]; rewrite IH.
  - unfold set_if_absent. destruct (beqb k key) eqn:Hk.
    + apply beqb_spec in Hk as ->. destruct (env !! key) eqn:He; [by rewrite He|]. by rewrite lookup_insert_eq.
    + apply beqb_false in Hk. destruct (env !! k); [done|]. by rewrite lookup_insert_ne.
  - by destruct (beqb k key).
Qed.

(** The address as a number, and the blocks of addresses reserved for private
    networks and special uses, by their first address and prefix length. *)
Definition address (o : list N) : N := fold_left (λ n x, n * 256 + x)%N o 0%N.
Definition in_block (a : N) (block : list N * N) : bool :=
  (a / 2 ^ (32 - snd block) =? address (fst block) / 2 ^ (32 - snd block))%N.
Definition private_blocks : list (list N * N) :=
  [([10; 0; 0; 0], 8); ([172; 16; 0; 0], 12); ([192; 168; 0; 0], 16); ([127; 0; 0; 0], 8);
   ([169; 254; 0; 0], 16); ([255; 255; 255; 255], 32); ([0; 0; 0; 0], 32); ([100; 64; 0; 0], 10)]%N.

Lemma shared_block b : (b < 256)%N → (N.land b 192 =? 64)%N = (b / 64 =? 1)%N.
Proof.
  intros Hb. assert (Hall : forallb (λ n, Bool.eqb (N.land (N.of_nat n) 192 =? 64)%N (N.of_nat n / 64 =? 1)%N) (seq 0 256) = true)
    by (vm_compute; reflexivity).
  rewrite forallb_forall in Hall. specialize (Hall (N.to_nat b)). rewrite N2Nat.id in Hall.
  apply eqb_prop, Hall, in_seq. lia.
Qed.
Lemma quotients a b c d : (a < 256)%N → (b < 256)%N → (c < 256)%N → (d < 256)%N →
  let n := address [a; b; c; d] in
  (n / 2 ^ 24 = a ∧ n / 2 ^ 20 = a * 16 + b / 16 ∧ n / 2 ^ 16 = a * 256 + b ∧ n / 2 ^ 22 = a * 4 + b / 64 ∧
   n / 2 ^ 0 = n)%N.
Proof.
  intros Ha Hb Hc Hd n.
  assert (Hn : (n = a * 16777216 + b * 65536 + c * 256 + d)%N) by (unfold n, address; simpl; lia).
  assert (Hq : ∀ q k m r, (r < k)%N → m = (k * q + r)%N → (m / k = q)%N).
  { intros q k m r Hr ->. symmetry. by eapply N.div_unique. }
  assert (Hb16 := N.div_mod b 16 ltac:(lia)). assert (Hm16 := N.mod_lt b 16 ltac:(lia)).
  assert (Hb64 := N.div_mod b 64 ltac:(lia)). assert (Hm64 := N.mod_lt b 64 ltac:(lia)).
  generalize dependent (b / 16)%N. generalize dependent (b mod 16)%N.
  generalize dependent (b / 64)%N. generalize dependent (b mod 64)%N. intros r64 H64 q64 E64 r16 H16 q16 E16.
  split_and!.
  - apply (Hq _ _ _ (b * 65536 + c * 256 + d)%N); lia.
  - apply (Hq _ _ _ (r16 * 65536 + c * 256 + d)%N); lia.
  - apply (Hq _ _ _ (c * 256 + d)%N); lia.
  - apply (Hq _ _ _ (r64 * 65536 + c * 256 + d)%N); lia.
  - by rewrite N.div_1_r.
Qed.

(** The test of an IPv4 webhook target, octet by octet and bit by
    bit, is membership in the reserved blocks: the three private networks,
    loopback, link-local, shared address space, broadcast and unspecified. *)
Theorem private_v4_blocks a b c d : (a < 256)%N → (b < 256)%N → (c < 256)%N → (d < 256)%N →
  is_private_ip (V4 [a; b; c; d]) = existsb (in_block (address [a; b; c; d])) private_blocks.
Proof.
  intros Ha Hb Hc Hd. destruct (quotients a b c d Ha Hb Hc Hd) as (H24 & H20 & H16 & H22 & H0).
  unfold existsb, private_blocks, in_block. cbn [fst snd].
  change (2 ^ (32 - 8))%N with (2 ^ 24)%N. change (2 ^ (32 - 12))%N with (2 ^ 20)%N.
  change (2 ^ (32 - 16))%N with (2 ^ 16)%N. change (2 ^ (32 - 32))%N with (2 ^ 0)%N.
  change (2 ^ (32 - 10))%N with (2 ^ 22)%N. rewrite H24, H20, H16, H22, H0. clear H24 H20 H16 H22 H0.
  assert (Hn : (address [a; b; c; d] = a * 16777216 + b * 65536 + c * 256 + d)%N) by (unfold address; simpl; lia).
  rewrite Hn. clear Hn.
  unfold is_private_ip, is_private_v4, v4_is_private, v4_is_loopback, v4_is_link_local, v4_is_broadcast,
    v4_is_unspecified, octet, nth. rewrite shared_block by done.
  assert (Hb16 := N.div_mod b 16 ltac:(lia)). assert (Hm16 := N.mod_lt b 16 ltac:(lia)).
  assert (Hb64 := N.div_mod b 64 ltac:(lia)). assert (Hm64 := N.mod_lt b 64 ltac:(lia)).
  generalize dependent (b / 16)%N. generalize dependent (b mod 16)%N.
  generalize dependent (b / 64)%N. generalize dependent (b mod 64)%N. intros r64 H64 q64 E64 r16 H16 q16 E16.
  apply eq_true_iff_eq. rewrite !orb_true_iff, !andb_true_iff, !bool_decide_eq_true, !N.eqb_eq, !N.leb_le.
  repeat match goal with |- context [(address ?l / ?k)%N] =>
    let v := eval vm_compute in (address l / k)%N in change (address l / k)%N with v end.
  split; intros Hor.
  - repeat match goal with H : _ ∨ _ |- _ => destruct H end; simplify_eq; lia.
  - repeat match goal with H : _ ∨ _ |- _ => destruct H end; try done; try lia.
    all: assert (a = 255 ∧ b = 255 ∧ c = 255 ∧ d = 255 ∨ a = 0 ∧ b = 0 ∧ c = 0 ∧ d = 0)%N
      as [(-> & -> & -> & ->)|(-> & -> & -> & ->)] by lia; tauto.
Qed.
Lemma private_v4_blocks_witness :
  is_private_ip (V4 [172; 31; 255; 254]%N) = existsb (in_block (address [172; 31; 255; 254]%N)) private_blocks.
Proof. apply private_v4_blocks; reflexivity. Defined.

(** The url crate answers an IPv6 host in brackets, which the address parser does
    not read: but for [[::1]], no IPv6 target is checked. *)
Theorem bracketed_ipv6_not_checked `{UrlParser} url scheme inner :
  parse_url url = Some (scheme, Some ("["%char :: inner ++ ["]"%char])) →
  scheme = b#"http" ∨ scheme = b#"https" → inner ≠ b#"::1" →
  validate_webhook_url url = Ok tt.
Proof.
  intros Hu Hs Hi. unfold validate_webhook_url. rewrite Hu. cbn [ok_or].
  assert (Hp : parse_ip ("["%char :: inner ++ ["]"%char]) = None).
  { destruct (parse_ip _) as [ip|] eqn:Hp; [|done]. by apply parse_ip_spelled in Hp. }
  assert (Hb : beqb ("["%char :: inner ++ ["]"%char]) b#"[::1]" = false).
  { apply beqb_false. intros [= Heq]. apply Hi. by apply (app_inv_tail ["]"%char]). }
  cbn -[parse_ip beqb lit]. rewrite Hb, Hp. by destruct Hs as [->| ->].
Qed.
Example private_ipv6_accepted :
  let _ : UrlParser := λ _, Some (b#"http", Some b#"[fd00::1]") in
  validate_webhook_url b#"http://[fd00::1]/" = Ok tt ∧ option_map is_private_ip (parse_ip b#"fd00::1") = Some true.
Proof. split; [|reflexivity]. by apply (bracketed_ipv6_not_checked _ b#"http" b#"fd00::1"); [|left|]. Qed.
