(* ===== verification/Version.v ===== *)
(** The version a build of the server reports: [crates/rustmail-server/build.rs]. *)
From S2P Require Import Prelude RustStd.

Definition FALLBACK_VERSION : bytes := b#"0.0.0-dev".
Definition BUILD_VERSION : bytes := b#"RUSTMAIL_BUILD_VERSION".

(** [env::var] fails on what is not text, [Command] on a program that does not run. *)
Record Output := { success : bool; stdout : bytes }.

(** The [v] of a tag, not of a hash. *)
Definition strip_tag_prefix (version : bytes) : bytes :=
  match strip_prefix b#"v" version with
  | Some (c :: rest) => if is_ascii_digit c then c :: rest else version
  | _ => version
  end.
(** [String::from_utf8] fails on bytes that lossy decoding changes. *)
Definition from_utf8 (s : bytes) : option bytes := if beqb (from_utf8_lossy s) s then Some s else None.
Definition non_empty_var (env : bytes → option bytes) (key : bytes) : option bytes :=
  v ← env key; if nonempty v then Some v else None.
Definition describe_head (git : option Output) : option bytes :=
  output ← git;
  if negb (success output) then None
  else
    described ← from_utf8 (stdout output);
    let described := trim described in
    if nonempty described then Some (strip_tag_prefix described) else None.
Definition resolve_version (env : bytes → option bytes) (git : option Output) : bytes :=
  match non_empty_var env BUILD_VERSION with
  | Some explicit => strip_tag_prefix explicit
  | None => default FALLBACK_VERSION (describe_head git)
  end.

Lemma strip_tag_nonempty v : v ≠ [] → strip_tag_prefix v ≠ [].
Proof. intros Hv. unfold strip_tag_prefix. destruct (strip_prefix _ v) as [[|c rest]|]; [done| |done]. by destruct (is_ascii_digit c). Qed.
(** A build always has a version to report. *)
Lemma version_resolved env git : resolve_version env git ≠ [].
Proof.
  unfold resolve_version, non_empty_var, describe_head. destruct (env _) as [[|x v]|]; simpl.
  2: by apply strip_tag_nonempty.
  all: destruct git as [[[|] out]|]; simpl; try done; destruct (from_utf8 out) as [u|]; simpl; try done.
  all: destruct (trim u) as [|y t]; simpl; [done|by apply strip_tag_nonempty].
Qed.
(** A tag loses its [v]; a hash that begins with one keeps it. *)
Example tagged : map strip_tag_prefix [b#"v1.2.3"; b#"1.2.3"; b#"vacc1ne"] = [b#"1.2.3"; b#"1.2.3"; b#"vacc1ne"].
Proof. vm_compute. reflexivity. Qed.
Example described : resolve_version (λ _, Some []) (Some {| success := true; stdout := b#"v0.9.1-4-gabc" ++ [ascii_of_nat 10] |}) = b#"0.9.1-4-gabc".
Proof. vm_compute. reflexivity. Qed.
