(* ===== verification/AssertMode.v ===== *)
(** The assert mode of the command line, [run_assert] of
    [crates/rustmail-server/src/main.rs]: a server that only captures mail, in
    memory, until enough of what it captured matches. *)
From S2P Require Import Prelude RustStd SmtpSession StorageError Content MailParser Locator Prepared Query Database Store Repo Tables RepoWrites Instances RepoProperties RepoReads AppState Ingest IngestProperties Healthy Reclaim Retention Net Origin Host Config.

Record AssertArgs := {
  min_count : Z;
  subject_filter : option bytes;
  sender_filter : option bytes;
  recipient_filter : option bytes;
  timeout : bytes;
}.

Section assert.
Context `{Json, Zstd, MailParser, Sqlite, Platform}.
Variable args : AssertArgs.

(** One turn of the checker's loop: whether the criteria are met. *)
Definition check_batch (batch : list Delivery) : Ing bool :=
  sums ← store_batch batch;
  match sums with
  | [] => mret false
  | _ =>
    count ← try (count_matching (subject_filter args) (sender_filter args) (recipient_filter args));
    mret (min_count args <=? wrap_u64 (default 0 (ok count)))%Z
  end.
(** The task that checks, on the batches [next_batch] gives it; it sees no more of
    them once the SMTP server and its sessions are gone. *)
Fixpoint checker (batches : list (list Delivery)) : Ing bool :=
  match batches with
  | [] => mret false
  | batch :: batches =>
    met ← check_batch batch;
    if met : bool then mret true else checker batches
  end.
(** The exit status, [batches] being those finished before the time is up: a turn
    the timeout cuts short decides nothing. *)
Definition run_assert (batches : list (list Delivery)) : result ConfigError (Ing Z) :=
  timeout ← parse_duration (timeout args);
  mret (met ← checker batches; mret (if met : bool then 0%Z else 1%Z)).

(** ** What the status means *)

(** A row the filters select, and a message captured as one. *)
Definition matching (m : MessageRecord) : bool :=
  column_matches (m_subject m) (subject_filter args) && column_matches (Some (m_sender m)) (sender_filter args) &&
  column_matches (Some (m_recipients m)) (recipient_filter args).
Definition wanted (d : Delivery) : bool :=
  match prepare (message d) with
  | Ok p => matching (message_record [] [] p)
  | Err _ => false
  end.
Definition enough (ms : list MessageRecord) : Prop :=
  (min_count args ≤ Z.of_nat (length (List.filter matching ms)))%Z.

Lemma wanted_row d t m : row_of d t m → wanted d = matching m.
Proof. intros (_ & _ & p & Hp & ((i & now & ->) & _) & _). unfold wanted. by rewrite Hp. Qed.

Context `{!JsonLaws, !UlidLaw}.
Definition silent (m : MessageSummary) : list WsEvent := [].
Abbreviation quietly := (λ _ : MessageSummary, mret tt : Ing unit).
Lemma quietly_silent m s : quietly m s = each broadcast (silent m) s.
Proof. done. Qed.

Lemma store_batch_spec batch s : sound (world s) →
  wp (store_batch batch) (λ r s', settled silent batch r s s') s.
Proof.
  intros Hs. eapply wp_mono; [apply (store_groups_spec silent quietly quietly_silent); exact Hs|].
  intros r s'. unfold transactions. by rewrite (proj1 (transactions_packed batch)).
Qed.
Lemma settles_harmless say ds kept h w w1 w2 :
  settles say ds kept h w w1 → harmless w1 w2 → settles say ds kept h w w2.
Proof.
  intros [Hc Ho Ha He Hb Hv Ht [[Hwf Hrs] Hadd]] [Hd [Hr _]]. split; try done. split; [split; [by rewrite Hd|by rewrite Hr]|].
  intros Halone. rewrite Hd, Hr. auto.
Qed.

Lemma query_answers {A} (f : Tables → A) w :
  wp (query f) (λ r w', harmless w w' ∧ (∀ a, r = Ok a → a = f (db w')) ∧
    (faults w = [] → r = Ok (f (db w)) ∧ w' = w)) w.
Proof.
  destruct (exec_spec (λ t, Ok (f t, t)) w (λ r w', harmless w w' ∧ ∀ a, r = Ok a → a = f (db w')))
    as (r & w' & Hrun & Hh & Hok).
  { intros [x|e] w' Hl Hs; [injection Hs as <- Hd|destruct Hs as [Hd _]]; (split; [by split|]); [|done].
    intros a [= <-]. by rewrite <- Hd. }
  exists r, w'. split_and!; [exact Hrun|done|exact Hok|]. intros Hf.
  change (query f w = Some (r, w')) in Hrun. rewrite query_calm in Hrun by done. by simplify_eq.
Qed.

(** What a turn that ends in [met] comes to: the batch is settled, the rows are
    enough when it is content, and on a healthy store that takes every message
    it is content exactly when they are. *)
Record turned (batch : list Delivery) (met : bool) (kept : list (Delivery * MessageRecord)) (s s' : App) : Prop := {
  turn_settled : ∃ h, history s' = history s ++ h ∧ settles silent batch kept h (world s) (world s');
  turn_met : met = true → kept ≠ [] ∧ enough (messages (db (world s')));
  turn_healthy : willing s → Forall parses batch → batch ≠ [] →
    (Z.of_nat (length (messages (db (world s'))))  ≤ I64_MAX)%Z →
    map fst kept = batch ∧ willing s' ∧ (enough (messages (db (world s'))) → met = true);
}.
Lemma check_batch_spec batch s : sound (world s) →
  wp (check_batch batch) (λ r s', ∃ met kept, r = Ok met ∧ turned batch met kept s s') s.
Proof.
  intros Hs. unfold check_batch. apply wp_bind.
  destruct (store_batch_spec batch s Hs) as (r & s1 & Hrun & kept & h & -> & Hh & Hset).
  eexists _, s1. split; [exact Hrun|].
  assert (Hwell : willing s → Forall parses batch → map fst kept = batch ∧ willing s1).
  { intros Hw Hp. destruct (store_all_healthy silent quietly quietly_silent batch s Hp Hw)
      as (r & s2 & Hrun2 & kept2 & h2 & -> & Hfst & Hh2 & Hset2 & Hw2).
    unfold store_batch in Hrun. rewrite Hrun in Hrun2. injection Hrun2 as Hsums <-. split; [|done].
    apply sublist_full; [apply Hset|]. apply (f_equal length) in Hsums. rewrite !length_map in Hsums.
    by rewrite <- Hfst, !length_map, Hsums. }
  destruct kept as [|k kept]; simpl.
  { apply wp_ret. exists false, []. split; [done|]. split; [by exists h|done|]. intros Hw Hp Hne _.
    by destruct (Hwell Hw Hp) as [<- _]. }
  apply wp_bind, wp_try.
  destruct (query_answers (λ t, Z.of_nat (length (List.filter matching (messages t)))) (world s1))
    as (r & w' & Hq & Hharm & Hok & Hcalm).
  exists r, w'. split; [exact Hq|]. apply wp_ret. eexists _, (k :: kept). split; [done|]. split.
  - exists h. split; [done|]. by eapply settles_harmless.
  - intros Hmet%Z.leb_le. split; [done|]. unfold enough. destruct r as [n|e]; simpl in Hmet; [|change (wrap_u64 0) with 0%Z in Hmet; lia].
    rewrite (Hok n eq_refl) in Hmet. etrans; [exact Hmet|]. apply Z.mod_le; lia.
  - intros Hw Hp _ Hmax. destruct (Hwell Hw Hp) as [Hfst Hw1]. destruct (Hcalm (proj1 (proj1 (proj1 Hw1)))) as [-> ->].
    split_and!; [done|by destruct s1|]. intros Henough. apply Z.leb_le. simpl in *. unfold enough, wrap_u64 in *.
    rewrite Z.mod_small; [done|]. pose proof (List.filter_length_le matching (messages (db (world s1)))). unfold I64_MAX in *. lia.
Qed.

(** The loop: the batches it took are settled, it stops at the first that makes
    the rows enough, and on a healthy store only there. *)
Record checked (batches : list (list Delivery)) (met : bool) (kept : list (Delivery * MessageRecord)) (n : nat) (s s' : App) : Prop := {
  check_settled : ∃ h, history s' = history s ++ h ∧
    settles silent (concat (take n batches)) kept h (world s) (world s');
  check_met : met = true → kept ≠ [] ∧ enough (messages (db (world s')));
  check_taken : n ≤ length batches ∧ (met = false → n = length batches);
  check_healthy : willing s → Forall parses (concat batches) → Forall (.≠ []) batches →
    (Z.of_nat (length (messages (db (world s'))))  ≤ I64_MAX)%Z →
    map fst kept = concat (take n batches) ∧ (batches = [] ∨ (enough (messages (db (world s'))) → met = true)) ∧
    ∀ k, 0 < k < n →
      (Z.of_nat (length (List.filter matching (messages (db (world s)))) +
         length (List.filter wanted (concat (take k batches)))) < min_count args)%Z;
}.
Lemma wanted_rows kept : (∀ d m, (d, m) ∈ kept → ∃ t, row_of d t m) →
  length (List.filter matching (map snd kept)) = length (List.filter wanted (map fst kept)).
Proof.
  induction kept as [|[d m] kept IH]; intros Hk; simpl; [done|].
  destruct (Hk d m) as (t & Hrow); [by left|]. rewrite (wanted_row _ _ _ Hrow).
  assert (IH' := IH (λ d m Hin, Hk d m (list_elem_of_further _ _ _ Hin))). by destruct (matching m); simpl; rewrite IH'.
Qed.
Lemma settled_wanted ds kept h w w' : settles silent ds kept h w w' →
  length (List.filter matching (map snd kept)) = length (List.filter wanted (map fst kept)).
Proof. intros Hset. apply wanted_rows. intros d m Hin. destruct (backed _ _ _ _ _ _ Hset d m Hin) as (t & _ & ?). by exists t. Qed.

Lemma turned_rows batch met kept s s' : turned batch met kept s s' → rivals (world s) = [] →
  sound (world s') ∧ rivals (world s') = [] ∧ messages (db (world s')) = messages (db (world s)) ++ map snd kept.
Proof. intros [(h & _ & Hset) _ _] Hr. destruct (added _ _ _ _ _ _ Hset) as [? Hadd]. split; [done|]. by apply Hadd. Qed.
Lemma checked_rows batches met kept n s s' : checked batches met kept n s s' → rivals (world s) = [] →
  messages (db (world s')) = messages (db (world s)) ++ map snd kept.
Proof. intros [(h & _ & Hset) _ _ _] Hr. by apply (added _ _ _ _ _ _ Hset). Qed.

Lemma checker_spec batches s : sound (world s) → rivals (world s) = [] →
  wp (checker batches) (λ r s', ∃ met kept n, r = Ok met ∧ checked batches met kept n s s') s.
Proof.
  revert s. induction batches as [|batch batches IH]; intros s Hs Hr; cbn [checker].
  { apply wp_ret. exists false, [], 0. split; [done|]. split; [|done|done|intros _ _ _ _; split_and!; [done|by left|intros; lia]].
    exists []. rewrite app_nil_r. split; [done|]. by apply settles_nil. }
  apply wp_bind. eapply wp_mono; [by apply check_batch_spec|]. intros r s1 (met & k1 & -> & Ht).
  destruct (turned_rows _ _ _ _ _ Ht Hr) as (Hs1 & Hr1 & Hm1). destruct Ht as [(h1 & Hh1 & Hset1) Hmet Hwell].
  destruct met.
  { apply wp_ret. exists true, k1, 1. split; [done|]. split; simpl; [|done|split; [lia|done]|].
    - exists h1. by rewrite app_nil_r.
    - intros Hw [Hp _]%Forall_app [Hne _]%Forall_cons Hmax. destruct (Hwell Hw Hp Hne Hmax) as (? & _ & _).
      rewrite app_nil_r. split_and!; [done|by right|intros; lia]. }
  eapply wp_mono; [by apply IH|]. intros r s2 (met & k2 & n & -> & Hc). exists met, (k1 ++ k2), (S n). split; [done|].
  assert (Hm2 := checked_rows _ _ _ _ _ _ Hc Hr1). destruct Hc as [(h2 & Hh2 & Hset2) Hmet2 [Hn Hall] Hwell2]. split; simpl.
  - exists (h1 ++ h2). split; [by rewrite Hh2, Hh1, app_assoc|]. by eapply settles_app.
  - intros Hm. destruct (Hmet2 Hm) as [Hk ?]. split; [|done]. by destruct k1, k2.
  - split; [lia|]. intros Hm. by rewrite (Hall Hm).
  - intros Hw [Hp Hps]%Forall_app [Hne Hnes]%Forall_cons Hmax.
    destruct (Hwell Hw Hp Hne) as (Hf1 & Hw1 & Hen1); [rewrite Hm2, length_app in Hmax; lia|].
    destruct (Hwell2 Hw1 Hps Hnes Hmax) as (Hf2 & Hen2 & Hfirst). rewrite map_app, Hf1, Hf2.
    assert (Hsum : length (List.filter matching (messages (db (world s1)))) =
      length (List.filter matching (messages (db (world s)))) + length (List.filter wanted batch)).
    { by rewrite Hm1, List.filter_app, length_app, (settled_wanted _ _ _ _ _ Hset1), Hf1. }
    split_and!; [done|right|].
    2: { intros [|[|k]] Hk; [lia| |].
      - simpl. rewrite app_nil_r, <- Hsum. apply Z.nle_gt. intros Hen. by specialize (Hen1 Hen).
      - specialize (Hfirst (S k) ltac:(lia)). cbn [take concat] in *. rewrite List.filter_app, length_app. lia. }
    intros Hen. destruct Hen2 as [->|]; [|auto]. simpl in Hn. assert (n = 0) as -> by lia.
    simpl in Hf2. apply map_eq_nil in Hf2 as ->. rewrite Hm2, app_nil_r in Hen. by specialize (Hen1 Hen).
Qed.

Lemma checker_truth batches s :
  sound (world s) → rivals (world s) = [] → messages (db (world s)) = [] →
  ∃ met s' kept n h, checker batches s = Some (Ok met, s') ∧ history s' = history s ++ h ∧
    closed h ≡ₚ map ack (concat (take n batches)) ∧ map fst kept `sublist_of` concat (take n batches) ∧
    stored_acks h = map (λ x, ack (fst x)) kept ∧ messages (db (world s')) = map snd kept ∧
    (met = false → n = length batches) ∧
    (met = true → kept ≠ [] ∧ (min_count args ≤ Z.of_nat (length (List.filter wanted (map fst kept))))%Z) ∧
    (healthy (world s) → abandonments s = [] → Forall (.≠ []) batches →
      (∀ d, d ∈ concat batches → is_ok (prepare (message d)) = true) →
      (Z.of_nat (length (concat batches)) ≤ I64_MAX)%Z →
      (met = true ↔ concat batches ≠ [] ∧
        (min_count args ≤ Z.of_nat (length (List.filter wanted (concat batches))))%Z) ∧
      ∀ k, 0 < k < n → (Z.of_nat (length (List.filter wanted (concat (take k batches)))) < min_count args)%Z).
Proof.
  intros Hs Hr Hempty. destruct (checker_spec batches s Hs Hr) as (r & s' & Hrun & met & kept & n & -> & Hc).
  assert (Hm := checked_rows _ _ _ _ _ _ Hc Hr). rewrite Hempty in Hm. simpl in Hm.
  destruct Hc as [(h & Hh & Hset) Hmet [Hn Hall] Hwell].
  assert (Hcount : length (List.filter matching (map snd kept)) = length (List.filter wanted (map fst kept))).
  { by eapply settled_wanted. }
  exists met, s', kept, n, h. split_and!; try done; [apply Hset..| |].
  { intros Hyes. destruct (Hmet Hyes) as [? Hen]. split; [done|]. unfold enough in Hen. by rewrite Hm, Hcount in Hen. }
  intros Hw Ha Hne Hp Hmax. assert (Hsub : concat (take n batches) `sublist_of` concat batches).
  { rewrite <- (take_drop n batches) at 2. rewrite concat_app. by apply sublist_inserts_r. }
  destruct Hwell as (Hfst & Hexact & Hfirst); [done|by apply Forall_forall|done| |].
  { rewrite Hm, length_map. apply sublist_length in Hsub. assert (Hl := sublist_length _ _ (in_order _ _ _ _ _ _ Hset)).
    rewrite length_map in Hl. lia. }
  split; [|by rewrite Hempty in Hfirst]. unfold enough in *. rewrite Hm, Hcount, Hfst in *. split.
  - intros Hyes. destruct (Hmet Hyes) as [Hk Hen]. split.
    + intros Hnil. rewrite Hnil in Hsub. apply sublist_nil_r in Hsub. rewrite Hsub in Hfst. by apply map_eq_nil in Hfst.
    + rewrite <- (take_drop n batches), concat_app, List.filter_app, length_app. lia.
  - intros [Hk Hen]. destruct met; [done|]. rewrite (Hall eq_refl), take_ge in Hexact by done.
    destruct Hexact as [->|Hexact]; [done|]. auto.
Qed.
(** C22: functional. The exit status of an assert run tells the truth. A timeout that
    cannot be read ends it before anything is listened on; otherwise, over the batches
    finished before the time is up, the status is 0 or 1, whatever fails in the store.
    Zero means that enough of the messages reported stored match the filters, one
    that every batch was looked at. On a healthy store that takes every message, zero
    is the status exactly when some mail arrived and enough of it matches (with a
    [--min-count] of 0 and no mail it is 1), and no batch is taken after the one
    that makes it enough. *)
Theorem assert_tells_the_truth batches s :
  sound (world s) → rivals (world s) = [] → messages (db (world s)) = [] →
  match run_assert batches with
  | Err e => parse_duration (timeout args) = Err e
  | Ok run =>
    is_ok (parse_duration (timeout args)) = true ∧
    ∃ status s' kept n h, run s = Some (Ok status, s') ∧ (status = 0 ∨ status = 1)%Z ∧ history s' = history s ++ h ∧
      closed h ≡ₚ map ack (concat (take n batches)) ∧ map fst kept `sublist_of` concat (take n batches) ∧
      stored_acks h = map (λ x, ack (fst x)) kept ∧ messages (db (world s')) = map snd kept ∧
      (status = 1%Z → n = length batches) ∧
      (status = 0%Z → kept ≠ [] ∧ (min_count args ≤ Z.of_nat (length (List.filter wanted (map fst kept))))%Z) ∧
      (healthy (world s) → abandonments s = [] → Forall (.≠ []) batches →
        (∀ d, d ∈ concat batches → is_ok (prepare (message d)) = true) →
        (Z.of_nat (length (concat batches)) ≤ I64_MAX)%Z →
        (status = 0%Z ↔ concat batches ≠ [] ∧
          (min_count args ≤ Z.of_nat (length (List.filter wanted (concat batches))))%Z) ∧
        ∀ k, 0 < k < n → (Z.of_nat (length (List.filter wanted (concat (take k batches)))) < min_count args)%Z)
  end.
Proof.
  intros Hs Hr Hempty. unfold run_assert. destruct (parse_duration (timeout args)) as [t|e]; cbn; [split; [done|]|done].
  destruct (checker_truth batches s Hs Hr Hempty) as (met & s' & kept & n & h & Hrun & Hh & Hc & Hsub & Hst & Hm & Hall & Hmet & Hexact).
  exists (if met then 0 else 1)%Z, s', kept, n, h. unfold mbind, M_mbind. rewrite Hrun.
  assert (Hzero : (if met then 0 else 1)%Z = 0%Z ↔ met = true) by by destruct met.
  split_and!; try done; [by destruct met; auto|by destruct met; auto|..]; rewrite Hzero; auto.
Qed.
End assert.

(** ** Runs *)

Import PlainZstd.
Definition asserting (n : Z) (from : bytes) : AssertArgs :=
  {| min_count := n; subject_filter := None; sender_filter := Some from; recipient_filter := None; timeout := b#"30s" |}.
Definition mail_from (from : bytes) (n : nat) : Delivery :=
  {| message := {| sender := from; recipients := [b#"b@y"]; raw := b#"hello" |}; ack := n |}.
Definition two_batches : list (list Delivery) :=
  [[mail_from b#"a@x" 0; mail_from b#"c@x" 1]; [mail_from b#"a@x" 2]; [mail_from b#"a@x" 3]].
Definition status (args : AssertArgs) (batches : list (list Delivery)) : option Z :=
  match run_assert args batches with
  | Ok run => match run (fresh_app (calm empty_tables)) with Some (Ok n, _) => Some n | _ => None end
  | Err _ => None
  end.
Example enough_arrived : status (asserting 2 b#"a@x") two_batches = Some 0%Z.
Proof. vm_compute. reflexivity. Qed.
Example too_few_arrived : status (asserting 2 b#"c@x") two_batches = Some 1%Z.
Proof. vm_compute. reflexivity. Qed.
(** Not even no mail at all is enough when none arrives. *)
Example none_asked_none_arrived : status (asserting 0 b#"a@x") [] = Some 1%Z.
Proof. vm_compute. reflexivity. Qed.

Lemma assert_tells_the_truth_witness :
  ∃ run, run_assert (asserting 2 b#"a@x") two_batches = Ok run ∧
    ∃ s' kept n h, run (fresh_app (calm empty_tables)) = Some (Ok 0%Z, s') ∧
      history s' = history (fresh_app (calm empty_tables)) ++ h ∧
      closed h ≡ₚ map ack (concat (take n two_batches)) ∧ map fst kept `sublist_of` concat (take n two_batches) ∧
      stored_acks h = map (λ x, ack (fst x)) kept ∧ messages (db (world s')) = map snd kept.
Proof.
  assert (Hw : healthy (world (fresh_app (calm empty_tables)))).
  { split; [done|]. split; [apply empty_wf|]. intros k _. split; apply not_elem_of_nil. }
  assert (Hp : ∀ d, d ∈ concat two_batches → is_ok (prepare (message d)) = true).
  { intros d Hd. unfold two_batches in Hd. set_solver. }
  assert (Hne : Forall (.≠ []) two_batches) by (unfold two_batches; by rewrite !Forall_cons).
  pose proof (assert_tells_the_truth (asserting 2 b#"a@x") two_batches (fresh_app (calm empty_tables))
    ltac:(apply calm_sound, empty_wf) eq_refl eq_refl) as Hall.
  eexists. split; [reflexivity|]. cbn beta iota delta -[checker asserting two_batches fresh_app] in Hall.
  destruct Hall as (_ & status & s' & kept & n & h & Hrun & _ & Hh & Hc & Hsub & Hst & Hm & _ & _ & Hexact).
  assert (status = 0%Z) as ->.
  { clear Hrun Hh Hc Hsub Hst Hm. apply (Hexact Hw eq_refl Hne Hp); [apply Z.leb_le; vm_compute; reflexivity|].
    split; [done|]. apply Z.leb_le. vm_compute. reflexivity. }
  exists s', kept, n, h. exact (conj Hrun (conj Hh (conj Hc (conj Hsub (conj Hst Hm))))).
Defined.
