(* ===== verification/Handlers.v ===== *)
(** The API's request handlers over the repository and the events:
    [crates/rustmail-api/src/handlers.rs] and the time limit of [lib.rs]. *)
From S2P Require Import Prelude RustStd SmtpSession StorageError Content MailParser Locator Prepared Query Database Store Repo Reclaim AppState Retention.

(** ** Requests and responses *)

Inductive AppError :=
| Storage (e : StorageError)
| BadRequest (reason : bytes)
| UnknownCursor
| TimedOut.

Record MessageHeader := { h_name : bytes; h_value : bytes }.
Record AuthCheck := { check_status : bytes; details : bytes }.
Record AuthResults := { dkim : list AuthCheck; spf : list AuthCheck; dmarc : list AuthCheck; arc : list AuthCheck }.
(** What the JSON or raw body of a response carries. *)
Inductive Body :=
| NoBody
| RawBody (b : bytes)
| ErrorBody (error : bytes) (code : option bytes)
| PageBody (messages : list MessageSummary) (total : Z) (next_cursor : option bytes) (limit : Z)
| MessageBody (m : Message)
| DeletedBody (n : nat)
| AttachmentsBody (l : list AttachmentSummary)
| HeadersBody (l : list MessageHeader)
| AuthBody (r : AuthResults)
| AssertBody (count : Z) (expected : option (Z * Z))
| ReleasedBody
| InfoBody (version : bytes) (smtp_port : Z).
Record Response := { status : Z; headers : list (bytes * bytes); body : Body }.
Abbreviation Handler := (M App AppError Response).

Definition CACHE_CONTROL : bytes := b#"cache-control".
Definition CONTENT_TYPE : bytes := b#"content-type".
Definition CONTENT_DISPOSITION : bytes := b#"content-disposition".
Definition IMMUTABLE_MESSAGE_CACHE : bytes := b#"private, max-age=31536000, immutable".
Definition MUTABLE_MESSAGE_CACHE : bytes := b#"no-store".
Definition quote : bytes := ["034"%char].

Definition CURSOR_WITH_OFFSET : bytes :=
  b#"before and offset cannot be combined; page with next_cursor or with offset, not both".
Definition UNKNOWN_CURSOR : bytes :=
  b#"before does not name a stored message; it may have been deleted, so restart from the first page".
Definition UNKNOWN_CURSOR_CODE : bytes := b#"unknown_cursor".
Definition READ_TIMED_OUT : bytes :=
  b#"the request ran past the server's time limit; retry it, or narrow it with limit or filters".

Definition error_response (status : Z) (error : bytes) : Response :=
  {| status := status; headers := []; body := ErrorBody error None |}.
(** [AppError::into_response]. *)
Definition into_response (e : AppError) : Response :=
  match e with
  | UnknownCursor => {| status := 400; headers := []; body := ErrorBody UNKNOWN_CURSOR (Some UNKNOWN_CURSOR_CODE) |}
  | BadRequest reason => error_response 400 reason
  | TimedOut => error_response 503 READ_TIMED_OUT
  | Storage (NotFound _) => error_response 404 b#"Resource not found"
  | Storage _ => error_response 500 b#"Internal server error"
  end.
(** What a handler answers, its error as a response. *)
Definition respond (h : Handler) (s : App) : option (Response * App) :=
  match h s with
  | Some (Ok r, s) => Some (r, s)
  | Some (Err e, s) => Some (into_response e, s)
  | None => None
  end.

(** ** Listing *)

Definition DEFAULT_PAGE_LIMIT : Z := 50.
Definition MAX_PAGE_LIMIT : Z := 200.
Definition MAX_TAGS : nat := 20.
Definition MAX_TAG_LEN : nat := 50.

Record ListParams := {
  q : option bytes;
  limit : option Z;
  offset : option Z;
  before : option bytes;
  filter : MessageFilter;
}.
Definition default_params : ListParams :=
  {| q := None; limit := None; offset := None; before := None; filter := no_filter |}.

Definition parse_integer (key value : bytes) : result AppError Z :=
  map_err (λ _, BadRequest (key ++ b#" must be an integer")) (parse_i64 value).
Definition parse_flag (key value : bytes) : result AppError bool :=
  ok_or (BadRequest (key ++ b#" must be true or false")) (parse_bool value).

Definition set_filter (f : MessageFilter) (p : ListParams) : ListParams :=
  {| q := q p; limit := limit p; offset := offset p; before := before p; filter := f |}.
Definition parse_pair (p : ListParams) (key value : bytes) : result AppError ListParams :=
  let f := filter p in
  if beqb key b#"q" then
    Ok {| q := Some value; limit := limit p; offset := offset p; before := before p; filter := f |}
  else if beqb key b#"limit" then
    n ← parse_integer key value;
    mret {| q := q p; limit := Some n; offset := offset p; before := before p; filter := f |}
  else if beqb key b#"offset" then
    n ← parse_integer key value;
    mret {| q := q p; limit := limit p; offset := Some n; before := before p; filter := f |}
  else if beqb key b#"before" then
    Ok {| q := q p; limit := limit p; offset := offset p; before := Some value; filter := f |}
  else if beqb key b#"starred" then
    b ← parse_flag key value;
    mret (set_filter {| starred := b; unread := unread f; with_attachments := with_attachments f;
                        filter_tags := filter_tags f |} p)
  else if beqb key b#"unread" then
    b ← parse_flag key value;
    mret (set_filter {| starred := starred f; unread := b; with_attachments := with_attachments f;
                        filter_tags := filter_tags f |} p)
  else if beqb key b#"has_attachments" then
    b ← parse_flag key value;
    mret (set_filter {| starred := starred f; unread := unread f; with_attachments := b;
                        filter_tags := filter_tags f |} p)
  else if beqb key b#"tag" then
    Ok (set_filter {| starred := starred f; unread := unread f; with_attachments := with_attachments f;
                      filter_tags := filter_tags f ++ [value] |} p)
  else Ok p.
Fixpoint parse_pairs (p : ListParams) (pairs : list (bytes * bytes)) : result AppError ListParams :=
  match pairs with
  | [] => Ok p
  | (key, value) :: pairs => p ← parse_pair p key value; parse_pairs p pairs
  end.
Definition parse_params (pairs : list (bytes * bytes)) : result AppError ListParams :=
  params ← parse_pairs default_params pairs;
  if MAX_TAGS <? length (filter_tags (filter params)) then Err (BadRequest b#"Too many tag filters (max 20)")
  else mret params.

Definition raise {A} (r : result AppError A) : M App AppError A :=
  match r with Ok a => mret a | Err e => fail e end.

Section handlers.
Context `{Json, Zstd, MailParser, Sqlite, Platform, Pager}.

Definition page_start (params : ListParams) : M App AppError PageStart :=
  match before params, offset params with
  | Some _, Some _ => fail (BadRequest CURSOR_WITH_OFFSET)
  | Some before, None =>
    r ← try (cursor before);
    match r with
    | Ok s => mret (Before s)
    | Err (NotFound _) => fail UnknownCursor
    | Err e => fail (Storage e)
    end
  | None, offset => mret (Offset (Z.max 0 (default 0%Z offset)))
  end.

Definition list_messages (pairs : list (bytes * bytes)) : Handler :=
  params ← raise (parse_params pairs);
  let limit := Z.max 1 (Z.min MAX_PAGE_LIMIT (default DEFAULT_PAGE_LIMIT (limit params))) in
  start ← page_start params;
  let lookahead := (limit + 1)%Z in
  '(messages, count) ←
    match q params with
    | Some query =>
      msgs ← call Storage (search_page query (filter params) start lookahead);
      total ← call Storage (search_count_filtered query (filter params));
      mret (msgs, total)
    | None =>
      msgs ← call Storage (list_page (filter params) start lookahead);
      total ← call Storage (count_filtered (filter params));
      mret (msgs, total)
    end;
  let has_more := (limit <? Z.of_nat (length messages))%Z in
  let messages := take (Z.to_nat limit) messages in
  let next_cursor := if has_more then s_id <$> last messages else None in
  mret {| status := 200; headers := [(CACHE_CONTROL, MUTABLE_MESSAGE_CACHE)];
          body := PageBody messages count next_cursor limit |}.

Definition get_message (i : bytes) : Handler :=
  m ← call Storage (get i);
  mret {| status := 200; headers := [(CACHE_CONTROL, MUTABLE_MESSAGE_CACHE)]; body := MessageBody m |}.

(** ** Changing messages *)

(** [char::is_control]: U+0000 to U+001F and U+007F to U+009F. *)
Definition is_control (c : bytes) : bool :=
  match c with
  | [b] => byte_in 0 31 b || Ascii.eqb b "127"
  | [a; b] => Ascii.eqb a "194" && byte_in 128 159 b
  | _ => false
  end.
Fixpoint validate_each (tags : list bytes) : option Response :=
  match tags with
  | [] => None
  | tag :: tags =>
    if MAX_TAG_LEN <? length tag then Some (error_response 400 b#"Tag too long (max 50 chars)")
    else if negb (nonempty tag) || existsb is_control (chars tag)
    then Some (error_response 400 b#"Tags must be non-empty and contain no control characters")
    else validate_each tags
  end.
(** The refusal, if any. *)
Definition validate_tags (tags : list bytes) : option Response :=
  if MAX_TAGS <? length tags then Some (error_response 400 b#"Too many tags (max 20)")
  else validate_each tags.

Record UpdateBody := { u_is_read : option bool; u_is_starred : option bool; u_tags : option (list bytes) }.
Definition NO_CONTENT : Response := {| status := 204; headers := []; body := NoBody |}.

Definition update_message (i : bytes) (b : UpdateBody) : Handler :=
  match (tags ← u_tags b; validate_tags tags) with
  | Some refusal => mret refusal
  | None =>
    call Storage (Repo.update_message i (u_is_read b) (u_is_starred b) (u_tags b));;
    match u_is_read b with Some r => broadcast (MessageRead i r) | None => mret tt end;;
    match u_is_starred b with Some s => broadcast (MessageStarred i s) | None => mret tt end;;
    match u_tags b with Some tags => broadcast (MessageTags i tags) | None => mret tt end;;
    mret NO_CONTENT
  end.

Definition delete_message (i : bytes) : Handler :=
  call Storage (Repo.delete i);;
  broadcast (MessageDelete i);;
  mret NO_CONTENT.

Definition delete_all_messages : Handler :=
  count ← call Storage Repo.delete_all;
  broadcast MessagesClear;;
  reclaim_after_delete_all;;
  mret {| status := 200; headers := []; body := DeletedBody count |}.

(** ** Reading the source and the attachments *)

Definition sanitize_filename (name : bytes) : bytes :=
  flat_map (λ c, match c with
    | [b] => if is_ascii_alphanumeric b || existsb (Ascii.eqb b) ["."; "_"; "-"]%char then [b] else ["_"%char]
    | _ => ["_"%char]
    end) (chars name).

Definition list_attachments (i : bytes) : Handler :=
  l ← call Storage (get_attachments i);
  mret {| status := 200; headers := [(CACHE_CONTROL, IMMUTABLE_MESSAGE_CACHE)]; body := AttachmentsBody l |}.

Definition DOWNLOAD_CONTENT_TYPE : bytes := b#"application/octet-stream".
Definition NOSNIFF : bytes * bytes := (b#"x-content-type-options", b#"nosniff").

Definition get_attachment (message_id attachment_id : bytes) : Handler :=
  a ← call Storage (Repo.get_attachment message_id attachment_id);
  let filename := sanitize_filename (default b#"attachment" (as_filename (att a))) in
  mret {| status := 200;
          headers := [(CONTENT_TYPE, DOWNLOAD_CONTENT_TYPE);
                      (CONTENT_DISPOSITION, b#"attachment; filename=" ++ quote ++ filename ++ quote);
                      (CACHE_CONTROL, IMMUTABLE_MESSAGE_CACHE); NOSNIFF];
          body := RawBody (att_content a) |}.

Definition SAFE_IMAGE_TYPES : list bytes :=
  [b#"image/png"; b#"image/jpeg"; b#"image/gif"; b#"image/webp"; b#"image/avif"; b#"image/bmp"].
Definition inline_content_type (content_type : option bytes) : bytes :=
  match content_type with
  | Some ct => if existsb (eq_ignore_ascii_case ct) SAFE_IMAGE_TYPES then ct else b#"application/octet-stream"
  | None => b#"application/octet-stream"
  end.
Definition get_inline_attachment (message_id content_id : bytes) : Handler :=
  a ← call Storage (get_attachment_by_content_id message_id content_id);
  mret {| status := 200;
          headers := [(CONTENT_TYPE, inline_content_type (as_content_type (att a)));
                      (CACHE_CONTROL, IMMUTABLE_MESSAGE_CACHE); NOSNIFF;
                      (b#"content-security-policy", b#"default-src 'none'")];
          body := RawBody (att_content a) |}.

Definition RAW_LIMIT_ERROR : bytes := b#"limit must be a positive number of bytes".
Definition source_response (raw : bytes) : Response :=
  {| status := 200;
     headers := [(CONTENT_TYPE, b#"message/rfc822"); (CACHE_CONTROL, IMMUTABLE_MESSAGE_CACHE)];
     body := RawBody raw |}.
Definition get_raw_message (i : bytes) (limit : option bytes) : Handler :=
  match limit with
  | Some text =>
    match parse_i64 text with
    | Ok limit =>
      if (0 <? limit)%Z then raw ← call Storage (get_raw_prefix i limit); mret (source_response raw)
      else mret (error_response 400 RAW_LIMIT_ERROR)
    | Err _ => mret (error_response 400 RAW_LIMIT_ERROR)
    end
  | None => raw ← call Storage (get_raw i); mret (source_response raw)
  end.

Definition HEADER_SECTION_PREFIX_BYTES : Z := 64 * 1024.
(** Whether some window of the bytes is the pattern. *)
Fixpoint has_window (p s : bytes) : bool :=
  starts_with p s || match s with [] => false | _ :: s => has_window p s end.
Definition ends_header_section (raw : bytes) : bool :=
  has_window (crlf ++ crlf) raw || has_window [LF; LF] raw.
Definition read_header_section {E} (from : StorageError → E) (i : bytes) : M App E bytes :=
  prefix ← call from (get_raw_prefix i HEADER_SECTION_PREFIX_BYTES);
  if (Z.of_nat (length prefix) <? HEADER_SECTION_PREFIX_BYTES)%Z || ends_header_section prefix
  then mret prefix
  else call from (get_raw i).

(** ** Assertions and exports *)

Definition assert_count (min max : option Z) (subject sender recipient : option bytes) : Handler :=
  count ← call Storage (count_matching subject sender recipient);
  let min := default 1%Z min in
  let max := default I64_MAX max in
  if (min <=? count)%Z && (count <=? max)%Z
  then mret {| status := 200; headers := []; body := AssertBody count None |}
  else mret {| status := 417; headers := []; body := AssertBody count (Some (min, max)) |}.

(** [ServerInfo], when the state was given one. *)
Record ServerInfo := { version : bytes; smtp_port : Z }.
Definition get_info (server_info : option ServerInfo) : Handler :=
  match server_info with
  | Some info => mret {| status := 200; headers := []; body := InfoBody (version info) (smtp_port info) |}
  | None => mret (error_response 404 b#"Server info is not configured")
  end.

(** The JSON of a message, which cannot fail to print. *)
Definition export_message (i : bytes) (format : option bytes) : Handler :=
  let format := default b#"eml" format in
  if beqb format b#"eml" then
    raw ← call Storage (get_raw i);
    mret {| status := 200;
            headers := [(CONTENT_TYPE, b#"message/rfc822");
                        (CONTENT_DISPOSITION,
                         b#"attachment; filename=" ++ quote ++ sanitize_filename i ++ b#".eml" ++ quote);
                        (CACHE_CONTROL, IMMUTABLE_MESSAGE_CACHE)];
            body := RawBody raw |}
  else if beqb format b#"json" then
    m ← call Storage (get i);
    mret {| status := 200;
            headers := [(CONTENT_TYPE, b#"application/json");
                        (CONTENT_DISPOSITION,
                         b#"attachment; filename=" ++ quote ++ sanitize_filename i ++ b#".json" ++ quote);
                        (CACHE_CONTROL, MUTABLE_MESSAGE_CACHE)];
            body := MessageBody m |}
  else mret (error_response 400 b#"format must be 'eml' or 'json'").
End handlers.
