(* ===== verification/Headers.v ===== *)
(** The headers of a captured message as the API lists them, and the results of
    the authentication checks found in them: [get_headers] and [get_auth_results]
    of [crates/rustmail-api/src/handlers.rs]. *)
From S2P Require Import Prelude RustStd SmtpSession StorageError Content MailParser Locator Prepared Query Database Store Repo Reclaim AppState Retention Handlers.

(** What the program reads of a header that mail-parser found: its name, by the
    variants it tells apart, its value and where the value's bytes are. *)
Inductive HeaderName := ArcAuthenticationResults | DkimSignature | OtherName (name : bytes) | KnownName (name : bytes).
Inductive HeaderValue := HvText (t : bytes) | HvOther.
Record Header := { name : HeaderName; value : HeaderValue; offset_start : Z; offset_end : Z }.
(** [MessageParser::parse_headers]: nothing, or the headers of the root part if
    there is one; and [HeaderName::as_str]. *)
Class HeaderParser := {
  parse_headers : bytes → option (option (list Header));
  as_str : HeaderName → bytes;
}.

Definition unfold_header_value (value : bytes) : bytes :=
  join [" "%char]
    (List.filter nonempty (map trim (split_on (λ c, Ascii.eqb c CR || Ascii.eqb c LF) (from_utf8_lossy value)))).

Definition parse_method_result (segment : bytes) : bytes * bytes * bytes :=
  let segment := trim segment in
  let '(method, rest) := default ([], segment) (split_once "=" segment) in
  (trim method, default b#"unknown" (head (split_whitespace rest)), segment).

(** The three lists an [Authentication-Results] value is sorted into. *)
Abbreviation Checks := (list AuthCheck * list AuthCheck * list AuthCheck)%type.
Definition push_segment (acc : Checks) (segment : bytes) : Checks :=
  let '(dkim, spf, dmarc) := acc in
  let segment := trim segment in
  if nonempty segment then
    let '(method, status, details) := parse_method_result segment in
    let check := {| check_status := status; details := details |} in
    if beqb method b#"dkim" then (dkim ++ [check], spf, dmarc)
    else if beqb method b#"spf" then (dkim, spf ++ [check], dmarc)
    else if beqb method b#"dmarc" then (dkim, spf, dmarc ++ [check])
    else acc
  else acc.
Definition parse_auth_results_header (value : bytes) (acc : Checks) : Checks :=
  match split_once ";" value with
  | Some (_, checks) => fold_left push_segment (split ";" checks) acc
  | None => acc
  end.

Definition push_tag (acc : bytes * bytes * bytes) (part : bytes) : bytes * bytes * bytes :=
  let '(domain, selector, algorithm) := acc in
  match split_once "=" (trim part) with
  | Some (tag, val) =>
    if beqb (trim tag) b#"d" then (trim val, selector, algorithm)
    else if beqb (trim tag) b#"s" then (domain, trim val, algorithm)
    else if beqb (trim tag) b#"a" then (domain, selector, trim val)
    else acc
  | None => acc
  end.
Definition parse_dkim_signature (value : bytes) : AuthCheck :=
  let '(domain, selector, algorithm) := fold_left push_tag (split ";" value) ([], [], []) in
  {| check_status := b#"info"; details := b#"d=" ++ domain ++ b#" s=" ++ selector ++ b#" a=" ++ algorithm |}.

Definition parse_received_spf (value : bytes) : AuthCheck :=
  {| check_status := to_ascii_lowercase (default b#"unknown" (head (split_whitespace value))); details := value |}.

Definition sealed (c : AuthCheck) : AuthCheck :=
  {| check_status := b#"arc:" ++ check_status c; details := details c |}.
(** One turn of the loop over the headers. *)
Definition push_header (acc : AuthResults) (h : Header) : AuthResults :=
  match value h with
  | HvOther => acc
  | HvText v =>
    match name h with
    | OtherName n =>
      if eq_ignore_ascii_case n b#"Authentication-Results" then
        let '(dkim, spf, dmarc) := parse_auth_results_header v (dkim acc, spf acc, dmarc acc) in
        {| dkim := dkim; spf := spf; dmarc := dmarc; arc := arc acc |}
      else if eq_ignore_ascii_case n b#"Received-SPF" then
        {| dkim := dkim acc; spf := spf acc ++ [parse_received_spf v]; dmarc := dmarc acc; arc := arc acc |}
      else acc
    | ArcAuthenticationResults =>
      let '(arc_dkim, arc_spf, arc_dmarc) := parse_auth_results_header v ([], [], []) in
      {| dkim := dkim acc; spf := spf acc; dmarc := dmarc acc;
         arc := arc acc ++ map sealed (arc_dkim ++ arc_spf ++ arc_dmarc) |}
    | DkimSignature =>
      {| dkim := dkim acc ++ [parse_dkim_signature v]; spf := spf acc; dmarc := dmarc acc; arc := arc acc |}
    | KnownName _ => acc
    end
  end.
Definition no_results : AuthResults := {| dkim := []; spf := []; dmarc := []; arc := [] |}.

Section headers.
Context `{Json, Zstd, MailParser, Sqlite, Platform, HeaderParser}.

(** The headers of the root part, or none. *)
Definition root_headers (raw : bytes) : list Header := default [] (default None (parse_headers raw)).

Definition get_headers (i : bytes) : Handler :=
  raw ← read_header_section Storage i;
  let headers := map (λ h,
    {| h_name := as_str (name h);
       h_value := unfold_header_value
         (default [] (get_range (Z.to_nat (offset_start h)) (Z.to_nat (offset_end h)) raw)) |}) (root_headers raw) in
  mret {| status := 200; headers := [(CACHE_CONTROL, IMMUTABLE_MESSAGE_CACHE)]; body := HeadersBody headers |}.

Definition get_auth_results (i : bytes) : Handler :=
  raw ← read_header_section Storage i;
  mret {| status := 200; headers := [(CACHE_CONTROL, IMMUTABLE_MESSAGE_CACHE)];
          body := AuthBody (fold_left push_header (root_headers raw) no_results) |}.
End headers.

Example auth_results_example :
  parse_auth_results_header b#"mx.example.net; dkim=pass header.d=a.example; spf = softfail ; dmarc=; x" ([], [], []) =
    ([{| check_status := b#"pass"; details := b#"dkim=pass header.d=a.example" |}],
     [{| check_status := b#"softfail"; details := b#"spf = softfail" |}],
     [{| check_status := b#"unknown"; details := b#"dmarc=" |}]).
Proof. vm_compute. reflexivity. Qed.
Example dkim_signature_example :
  details (parse_dkim_signature b#"v=1; a=rsa-sha256; d=x.example; s=sel; bh=a=b") =
    b#"d=x.example s=sel a=rsa-sha256".
Proof. vm_compute. reflexivity. Qed.
Example unfolded : unfold_header_value (b#" one" ++ crlf ++ ["009"%char] ++ b#"two  " ++ crlf ++ b#" " ++ crlf) = b#"one two".
Proof. vm_compute. reflexivity. Qed.

(** ** Laws *)

(** The result of one check as a receiving server stamps it. *)
Record Stamp := { method : bytes; result_text : bytes; props : bytes }.
Definition stamped (s : Stamp) : bytes := method s ++ b#"=" ++ result_text s ++ props s.
(** The parts of a header value between its semicolons: a stamp with white space around
    it, or anything without an equals sign, such as [none], an empty part or the name
    of the server in [i=1; mx.example.com; dkim=pass]. *)
Inductive Segment := Stamped (pre post : bytes) (s : Stamp) | Remark (t : bytes).
Definition segment_text (g : Segment) : bytes :=
  match g with Stamped pre post s => pre ++ stamped s ++ post | Remark t => t end.
Definition stamps_of : list Segment → list Stamp :=
  omap (λ g, match g with Stamped _ _ s => Some s | Remark _ => None end).
(** [Authentication-Results: serv; method=result props; ...]. *)
Definition print_results (first : bytes) (segments : list Segment) : bytes :=
  first ++ concat (map (λ g, ";"%char :: segment_text g) segments).
Definition stamp_ok (s : Stamp) : Prop :=
  (method s ≠ [] ∧ forallb visible (method s) = true ∧ "="%char ∉ method s) ∧
  (result_text s ≠ [] ∧ forallb visible (result_text s) = true) ∧
  (props s = [] ∨ ∃ p, props s = " "%char :: p ∧ framed p) ∧
  ";"%char ∉ stamped s.
Definition segment_ok (g : Segment) : Prop :=
  match g with
  | Stamped pre post s => stamp_ok s ∧ forallb blank pre = true ∧ forallb blank post = true
  | Remark t => ";"%char ∉ t ∧ "="%char ∉ t
  end.
Definition check_of (s : Stamp) : AuthCheck := {| check_status := result_text s; details := stamped s |}.
Definition checks (m : bytes) (stamps : list Stamp) : list AuthCheck :=
  map check_of (List.filter (λ s, beqb (method s) m) stamps).

Lemma framed_visible s : s ≠ [] → forallb visible s = true → framed s.
Proof.
  intros Hne Hv. rewrite forallb_forall in Hv. split.
  - destruct s as [|c s]; [done|]. exists c. split; [done|]. apply Hv. by left.
  - destruct (last s) as [c|] eqn:Hl; [|by apply last_None in Hl]. exists c. split; [done|].
    apply last_Some in Hl as [l ->]. apply Hv, in_app_iff. right. by left.
Qed.
Lemma framed_app s t : framed s → (t = [] ∨ ∃ p, t = " "%char :: p ∧ framed p) → framed (s ++ t).
Proof.
  intros [(c & Hc & Hvc) Hl] [->|(p & -> & _ & d & Hd & Hvd)]; [rewrite app_nil_r; split; [by eexists|done]|].
  split.
  - exists c. by destruct s.
  - exists d. split; [|done]. rewrite last_app, last_cons, Hd. done.
Qed.
Lemma stamped_framed s : stamp_ok s → framed (stamped s).
Proof.
  intros ((Hm & Hvm & _) & (Hr & Hvr) & Hp & _). unfold stamped. rewrite !app_assoc.
  apply framed_app; [|done]. apply framed_visible; [by destruct (method s)|].
  by rewrite !forallb_app, Hvm, Hvr.
Qed.
Lemma blank_props s : stamp_ok s → props s = [] ∨ ∃ c r, props s = c :: r ∧ blank c = true.
Proof. intros (_ & _ & [->|(p & -> & _)] & _); [by left|]. right. by eexists _, _. Qed.

Lemma parse_stamped s : stamp_ok s → parse_method_result (stamped s) = (method s, result_text s, stamped s).
Proof.
  intros Hs. pose proof (stamped_framed _ Hs) as Hf. pose proof (blank_props _ Hs) as Hb.
  destruct Hs as ((Hm & Hvm & He) & (Hr & Hvr) & _). unfold parse_method_result.
  rewrite (trim_framed (stamped s)) by done.
  replace (split_once "=" (stamped s)) with (Some (method s, result_text s ++ props s));
    [|symmetry; by apply split_once_spec].
  simpl. rewrite trim_framed by by apply framed_visible.
  destruct (first_word (result_text s) (props s) Hr Hvr Hb) as (ws & ->). done.
Qed.

Lemma trim_while_elem n ws c s : c ∈ trim_while n ws s → c ∈ s.
Proof. destruct (trim_while_suffix n ws s) as [p Hp]. rewrite Hp at 2. rewrite elem_of_app. by right. Qed.
Lemma trim_elem c s : c ∈ trim s → c ∈ s.
Proof.
  unfold trim, trim_end, trim_start. intros Hc%list_elem_of_In%in_rev%list_elem_of_In%trim_while_elem.
  apply list_elem_of_In, in_rev, list_elem_of_In in Hc. by apply trim_while_elem in Hc.
Qed.
Definition push_checks (acc : Checks) (stamps : list Stamp) : Checks :=
  let '(d, p, m) := acc in (d ++ checks b#"dkim" stamps, p ++ checks b#"spf" stamps, m ++ checks b#"dmarc" stamps).
Lemma push_remark t acc : "="%char ∉ t → push_segment acc t = acc.
Proof.
  intros Ht. destruct acc as [[d p] m]. unfold push_segment. destruct (nonempty (trim t)); [|done].
  unfold parse_method_result. replace (split_once "=" (trim (trim t))) with (@None (bytes * bytes)); [done|].
  symmetry. apply split_once_None. by intros ?%trim_elem%trim_elem.
Qed.
Lemma push_stamped pre post s acc : stamp_ok s → forallb blank pre = true → forallb blank post = true →
  push_segment acc (pre ++ stamped s ++ post) = push_checks acc [s].
Proof.
  intros Hs Hpre Hpost. destruct acc as [[d p] m]. unfold push_segment, push_checks.
  rewrite (trim_blanks pre (stamped s) post), parse_stamped by (try done; by apply stamped_framed).
  assert (Hn : nonempty (stamped s) = true).
  { destruct Hs as ((Hm & _) & _). unfold stamped. by destruct (method s). }
  rewrite Hn. unfold checks. cbn [List.filter].
  assert (Hexcl : ∀ a b, beqb a b = false → beqb (method s) a = true → beqb (method s) b = false).
  { intros a b Hab Ha. by apply beqb_spec in Ha as ->. }
  destruct (beqb (method s) b#"dkim") eqn:Hd.
  { rewrite (Hexcl b#"dkim" b#"spf"), (Hexcl b#"dkim" b#"dmarc") by done. by rewrite !app_nil_r. }
  destruct (beqb (method s) b#"spf") eqn:Hp.
  { rewrite (Hexcl b#"spf" b#"dmarc") by done. by rewrite !app_nil_r. }
  by destruct (beqb (method s) b#"dmarc"); rewrite !app_nil_r.
Qed.

Lemma segment_whole g : segment_ok g → ";"%char ∉ segment_text g.
Proof.
  destruct g as [pre post s|t]; [|by intros [? _]]. intros ((_ & _ & _ & Hn) & Hpre & Hpost). simpl.
  assert (Hb : ∀ l, forallb blank l = true → ";"%char ∉ l).
  { intros l Hl Hin%list_elem_of_In. rewrite forallb_forall in Hl. by specialize (Hl _ Hin). }
  rewrite !elem_of_app. intros [Hin|[Hin|Hin]]; [exact (Hb pre Hpre Hin)|exact (Hn Hin)|exact (Hb post Hpost Hin)].
Qed.
Lemma segments_from w segments : ";"%char ∉ w → Forall segment_ok segments →
  split ";" (w ++ concat (map (λ g, ";"%char :: segment_text g) segments)) = w :: map segment_text segments.
Proof.
  intros Hw Hs. revert w Hw. unfold split.
  assert (Hno : ∀ w, ";"%char ∉ w → forallb (λ c, negb (Ascii.eqb c ";")) w = true).
  { intros w Hw. apply forallb_forall. intros c Hc%list_elem_of_In. apply negb_true_iff, Ascii.eqb_neq. by intros ->. }
  induction Hs as [|g segments Hg _ IH]; intros w Hw; cbn [map concat].
  - rewrite app_nil_r. by apply split_on_none, Hno.
  - rewrite <- app_comm_cons, split_on_app by (done || by apply Hno).
    f_equal. by apply IH, segment_whole.
Qed.
Lemma push_segments segments acc : Forall segment_ok segments →
  fold_left push_segment (map segment_text segments) acc = push_checks acc (stamps_of segments).
Proof.
  intros Hs. revert acc. induction Hs as [|g segments Hg _ IH]; intros acc; cbn [map fold_left].
  { destruct acc as [[d p] m]. unfold push_checks, stamps_of, checks. simpl. by rewrite !app_nil_r. }
  destruct g as [pre post s|t]; cbn [segment_text] in *.
  - destruct Hg as (Hs & Hpre & Hpost). rewrite push_stamped, IH by done. destruct acc as [[d p] m].
    unfold push_checks, stamps_of, checks. cbn [omap list_omap List.filter]. rewrite <- !app_assoc.
    by repeat match goal with |- context [beqb (method s) ?x] => destruct (beqb (method s) x) end.
  - by rewrite push_remark, IH by apply Hg.
Qed.
Lemma parse_printed first segments acc :
  ";"%char ∉ first → Forall segment_ok segments →
  parse_auth_results_header (print_results first segments) acc = push_checks acc (stamps_of segments).
Proof.
  intros Hfirst Hs. unfold parse_auth_results_header, print_results.
  destruct segments as [|g segments].
  { simpl. rewrite app_nil_r, (proj2 (split_once_None ";" first)) by done.
    destruct acc as [[d p] m]. unfold push_checks, checks. simpl. by rewrite !app_nil_r. }
  cbn [map concat]. rewrite <- app_comm_cons, (proj2 (split_once_spec ";" _ first _)) by by split.
  pose proof Hs as [Hg Hgs]%Forall_cons.
  by rewrite segments_from, <- push_segments by first [done|by apply segment_whole].
Qed.

(** The lines of a folded value: each with white space around it and its line
    end. *)
Lemma unfold_lines lines rest :
  Forall (λ l, framed l ∧ CR ∉ l ∧ LF ∉ l) lines →
  List.filter nonempty (map trim (split_on (λ c, Ascii.eqb c CR || Ascii.eqb c LF)
    (concat (map (λ l, b#" " ++ l ++ crlf) lines) ++ rest))) =
  lines ++ List.filter nonempty (map trim (split_on (λ c, Ascii.eqb c CR || Ascii.eqb c LF) rest)).
Proof.
  intros Hl. induction Hl as [|l lines (Hf & Hcr & Hlf) _ IH]; [done|]. cbn [map concat].
  rewrite <- !app_assoc. change (crlf ++ ?x) with (CR :: LF :: x).
  rewrite (app_assoc b#" "), split_on_app; [|apply forallb_forall|done].
  - cbn [split_on]. change (Ascii.eqb LF CR || Ascii.eqb LF LF) with true. cbn [map List.filter].
    assert (Ht : trim (b#" " ++ l) = l).
    { rewrite <- (app_nil_r l) at 1. by apply (trim_blanks b#" "). }
    rewrite Ht, IH. destruct Hf as [(c & Hc & _) _]. by destruct l.
  - intros c [Hc|Hc]%in_app_iff.
    + destruct Hc as [<-|[]]. done.
    + apply list_elem_of_In in Hc. apply negb_true_iff, orb_false_iff.
      split; apply Ascii.eqb_neq; by intros ->.
Qed.

(** ** Properties *)

(** A header folded over several lines is listed as one line, its parts separated
    by single spaces. *)
Theorem folded_header_unfolds lines :
  let folded := concat (map (λ l, b#" " ++ l ++ crlf) lines) in
  Forall (λ l, framed l ∧ CR ∉ l ∧ LF ∉ l) lines → from_utf8_lossy folded = folded →
  unfold_header_value folded = join [" "%char] lines.
Proof.
  intros folded Hl Hu. unfold unfold_header_value. rewrite Hu. subst folded.
  rewrite <- (app_nil_r (concat _)), unfold_lines by done. by rewrite app_nil_r.
Qed.
Lemma folded_header_unfolds_witness :
  unfold_header_value (concat (map (λ l, b#" " ++ l ++ crlf) [b#"from a.example"; b#"by b.example"])) =
    join [" "%char] [b#"from a.example"; b#"by b.example"].
Proof.
  apply folded_header_unfolds; [|reflexivity].
  repeat (apply Forall_cons_2; [split; [split; eexists; split; reflexivity|split; refine (bool_decide_unpack _ _); vm_compute; exact I]|]).
  constructor.
Defined.

(** C35: roundtrip. What a server stamped in an [Authentication-Results] header is
    reported as it was stamped: each check under its own method, in order, with
    its result and its text, however the header is spaced, and neither the checks of
    other methods nor what is no check at all, such as [none]. The same stamps in an
    [ARC-Authentication-Results] header, [i=1; mx.example.com; dkim=pass ...], which an
    earlier hop vouches for, are reported apart: none of them among the direct
    results, each with its result marked. *)
Theorem auth_results_read_back acc serv segments first last :
  ";"%char ∉ serv → Forall segment_ok segments →
  let stamps := stamps_of segments in
  let header n := {| name := n; value := HvText (print_results serv segments); offset_start := first; offset_end := last |} in
  (∀ n, eq_ignore_ascii_case n b#"Authentication-Results" = true →
    push_header acc (header (OtherName n)) =
      {| dkim := dkim acc ++ checks b#"dkim" stamps; spf := spf acc ++ checks b#"spf" stamps;
         dmarc := dmarc acc ++ checks b#"dmarc" stamps; arc := arc acc |}) ∧
  push_header acc (header ArcAuthenticationResults) =
    {| dkim := dkim acc; spf := spf acc; dmarc := dmarc acc;
       arc := arc acc ++ map sealed (checks b#"dkim" stamps ++ checks b#"spf" stamps ++ checks b#"dmarc" stamps) |}.
Proof.
  intros Hserv Hs stamps header. unfold push_header. subst header. cbn [value name]. split.
  - intros n ->. by rewrite parse_printed.
  - by rewrite parse_printed.
Qed.
(** The header of an earlier hop, its server's name a part of its own. *)
Lemma auth_results_read_back_witness :
  let value := b#"i=1; mx.example.com; spf=pass smtp.mailfrom=a.example;  dkim=fail; none; iprev=pass;" in
  push_header no_results {| name := ArcAuthenticationResults; value := HvText value; offset_start := 22; offset_end := 90 |} =
    {| dkim := []; spf := []; dmarc := [];
       arc := [{| check_status := b#"arc:fail"; details := b#"dkim=fail" |};
               {| check_status := b#"arc:pass"; details := b#"spf=pass smtp.mailfrom=a.example" |}] |}.
Proof.
  refine (proj2 (auth_results_read_back no_results b#"i=1"
    [Remark b#" mx.example.com";
     Stamped b#" " [] {| method := b#"spf"; result_text := b#"pass"; props := b#" smtp.mailfrom=a.example" |};
     Stamped b#"  " [] {| method := b#"dkim"; result_text := b#"fail"; props := [] |}; Remark b#" none";
     Stamped b#" " [] {| method := b#"iprev"; result_text := b#"pass"; props := [] |}; Remark []] 22 90 _ _)).
  - refine (bool_decide_unpack _ _). vm_compute. exact I.
  - repeat (apply Forall_cons_2; [unfold segment_ok, stamp_ok; split_and!|]); try done;
      try (refine (bool_decide_unpack _ _); vm_compute; exact I); try by left.
    right. eexists. split; [reflexivity|]. split; eexists; split; reflexivity.
Defined.
