(* ===== verification/Router.v ===== *)
(** What surrounds the handlers of the API: the time limit on reads, the headers
    every response carries and the order of the layers, of
    [crates/rustmail-api/src/lib.rs], and the embedded UI of
    [crates/rustmail-api/src/static_files.rs]. *)
From S2P Require Import Prelude RustStd SmtpSession StorageError MailParser Query Database Store Repo AppState Origin Host Handlers.

(** ** The embedded UI *)

(** A file of [rust_embed] and the lookup in it, and the media type that mime_guess
    takes from a path's extension. *)
Record EmbeddedFile := { data : bytes; sha256_hash : bytes }.
Class Assets := {
  get_asset : bytes → option EmbeddedFile;
  mime_of : bytes → bytes;
}.

Definition HASHED_ASSET_PREFIX : bytes := b#"assets/".
Definition IMMUTABLE_CACHE_CONTROL : bytes := b#"public, max-age=31536000, immutable".
Definition REVALIDATE_CACHE_CONTROL : bytes := b#"no-cache".
Definition HTML_CONTENT_TYPE : bytes := b#"text/html; charset=utf-8".
Definition WEAK_PREFIX : bytes := b#"W/".
Definition ANY_ETAG : bytes := b#"*".
Definition API_PREFIX : bytes := b#"api/".
Definition ETAG : bytes := b#"etag".
Definition IF_NONE_MATCH : bytes := b#"if-none-match".

(** [trim_start_matches] of a pattern that is not empty. *)
Definition trim_start_matches (p s : bytes) : bytes := trim_while (length s) [p] s.

Definition etag_of (file : EmbeddedFile) : bytes :=
  WEAK_PREFIX ++ quote ++ concat (map hex_byte (sha256_hash file)) ++ quote.

Section static.
Context `{HeaderText, Assets}.

Definition holds_current (headers : HeaderMap) (etag : bytes) : bool :=
  let opaque := trim_start_matches WEAK_PREFIX etag in
  existsb (λ candidate, beqb candidate ANY_ETAG || beqb (trim_start_matches WEAK_PREFIX candidate) opaque)
    (map trim (concat (map (split ",")
      (omap to_str (map snd (List.filter (λ h, beqb (fst h) IF_NONE_MATCH) headers)))))).

Definition revalidated (file : EmbeddedFile) (content_type : bytes) (headers : HeaderMap) : Response :=
  let etag := etag_of file in
  if holds_current headers etag then
    {| status := 304; Handlers.headers := [(ETAG, etag); (CACHE_CONTROL, REVALIDATE_CACHE_CONTROL)]; body := NoBody |}
  else
    {| status := 200;
       Handlers.headers := [(CONTENT_TYPE, content_type); (CACHE_CONTROL, REVALIDATE_CACHE_CONTROL); (ETAG, etag)];
       body := RawBody (data file) |}.

Definition NOT_FOUND : Response := {| status := 404; headers := []; body := RawBody b#"Not found" |}.
Definition static_handler (uri_path : bytes) (headers : HeaderMap) : Response :=
  let path := trim_start_matches b#"/" uri_path in
  if starts_with API_PREFIX path then error_response 404 b#"Unknown API endpoint"
  else
    match get_asset path with
    | Some file =>
      if starts_with HASHED_ASSET_PREFIX path then
        {| status := 200;
           Handlers.headers := [(CONTENT_TYPE, mime_of path); (CACHE_CONTROL, IMMUTABLE_CACHE_CONTROL)];
           body := RawBody (data file) |}
      else revalidated file (mime_of path) headers
    | None =>
      if starts_with HASHED_ASSET_PREFIX path then NOT_FOUND
      else match get_asset b#"index.html" with
           | Some index => revalidated index HTML_CONTENT_TYPE headers
           | None => NOT_FOUND
           end
    end.
End static.

(** ** The layers *)

Definition is_read (method : bytes) : bool := beqb method b#"GET" || beqb method b#"HEAD".
(** [in_time] says whether the handler's response came within the limit. *)
Definition time_out_reads (method : bytes) (in_time : bool) (response : Response) : Response :=
  if negb (is_read method) then response
  else if in_time then response else into_response TimedOut.

Definition SECURITY_HEADERS : HeaderMap :=
  [(b#"x-content-type-options", b#"nosniff");
   (b#"x-frame-options", b#"DENY");
   (b#"content-security-policy",
    b#"default-src 'self'; script-src 'self'; style-src 'self' 'unsafe-inline'; img-src 'self' data: blob: http: https:; connect-src 'self' ws: wss:; frame-src 'self'");
   (b#"referrer-policy", b#"no-referrer")].
(** [SetResponseHeaderLayer::if_not_present]. *)
Definition if_not_present (r : Response) (h : bytes * bytes) : Response :=
  if contains_key (fst h) (headers r) then r
  else {| status := status r; Handlers.headers := headers r ++ [h]; body := body r |}.
(** The outermost layers, on whatever response. *)
Definition secured (r : Response) : Response := fold_left if_not_present SECURITY_HEADERS r.

(** ** Laws *)

Lemma hex_digit_visible n : (n < 16)%N → visible (hex_digit n) = true ∧ hex_digit n ≠ ","%char ∧ hex_digit n ≠ "*"%char.
Proof.
  intros Hn. assert (Hall : forallb (λ n, let c := hex_digit (N.of_nat n) in
    visible c && negb (Ascii.eqb c ",") && negb (Ascii.eqb c "*")) (List.seq 0 16) = true) by reflexivity.
  rewrite forallb_forall in Hall. specialize (Hall (N.to_nat n)). rewrite N2Nat.id in Hall.
  assert (Hin : In (N.to_nat n) (List.seq 0 16)) by (apply in_seq; lia). apply Hall in Hin.
  rewrite !andb_true_iff, !negb_true_iff, !Ascii.eqb_neq in Hin. naive_solver.
Qed.
Lemma hex_chars h : Forall (λ c, visible c = true ∧ c ≠ ","%char ∧ c ≠ "*"%char) (concat (map hex_byte h)).
Proof.
  induction h as [|x h IH]; cbn; [constructor|]. pose proof (byte_nibbles x) as [? ?].
  repeat apply Forall_cons_2; [by apply hex_digit_visible..|done].
Qed.
Lemma etag_inj f g : etag_of f = etag_of g → sha256_hash f = sha256_hash g.
Proof.
  unfold etag_of. intros Heq%(app_inv_head WEAK_PREFIX)%(app_inv_head quote)%(app_inv_tail quote). by apply hex_inj.
Qed.
Lemma etag_framed f : framed (etag_of f).
Proof.
  unfold etag_of. split; [by eexists|]. exists "034"%char. rewrite !last_app. done.
Qed.
Lemma etag_no_comma f : forallb (λ c, negb (Ascii.eqb c ",")) (etag_of f) = true.
Proof.
  unfold etag_of. rewrite !forallb_app. pose proof (hex_chars (sha256_hash f)) as Hh.
  replace (forallb _ (concat _)) with true; [done|]. symmetry. apply forallb_forall.
  intros c Hc%list_elem_of_In. rewrite Forall_forall in Hh. apply negb_true_iff, Ascii.eqb_neq. by apply Hh.
Qed.
(** What is left of an etag without the weak prefix. *)
Lemma etag_opaque f : trim_start_matches WEAK_PREFIX (etag_of f) =
  quote ++ concat (map hex_byte (sha256_hash f)) ++ quote.
Proof.
  unfold trim_start_matches, etag_of.
  assert (Hgen : ∀ n l, trim_while (S n) [WEAK_PREFIX] (WEAK_PREFIX ++ quote ++ l) = quote ++ l).
  { intros n l. cbn. destruct n; done. }
  rewrite length_app. simpl (length WEAK_PREFIX). by rewrite Nat.add_succ_l, Hgen.
Qed.

(** ** Properties *)

(** A browser that sends back the etag it was given is told that
    nothing changed exactly when the file embedded now is byte for byte the one it
    holds, as far as the hash tells; otherwise it gets the file with its own etag.
    So an upgrade of the server is never hidden by the browser's cache. *)
Theorem revalidation_exact `{HeaderText} (held file : EmbeddedFile) content_type :
  to_str (etag_of held) = Some (etag_of held) →
  revalidated file content_type [(IF_NONE_MATCH, etag_of held)] =
    if bool_decide (sha256_hash held = sha256_hash file)
    then {| status := 304; headers := [(ETAG, etag_of file); (CACHE_CONTROL, REVALIDATE_CACHE_CONTROL)]; body := NoBody |}
    else {| status := 200;
            headers := [(CONTENT_TYPE, content_type); (CACHE_CONTROL, REVALIDATE_CACHE_CONTROL); (ETAG, etag_of file)];
            body := RawBody (data file) |}.
Proof.
  intros Ht. unfold revalidated.
  assert (Hh : holds_current [(IF_NONE_MATCH, etag_of held)] (etag_of file) =
    bool_decide (sha256_hash held = sha256_hash file)); [|by rewrite Hh].
  unfold holds_current. cbn [List.filter map omap list_omap fst snd]. rewrite beqb_refl. cbn [map omap list_omap snd].
  rewrite Ht. cbn [map concat]. unfold split. rewrite split_on_none by apply etag_no_comma. cbn [app map existsb].
  rewrite trim_framed by apply etag_framed. rewrite orb_false_r, !etag_opaque.
  replace (beqb (etag_of held) ANY_ETAG) with false by done. cbn [orb].
  apply eq_true_iff_eq. rewrite beqb_spec, bool_decide_eq_true. split; [|by intros ->].
  intros Heq. apply etag_inj. unfold etag_of. by rewrite Heq.
Qed.
Lemma revalidation_exact_witness :
  let held := {| data := b#"<old>"; sha256_hash := ["001"; "254"]%char |} in
  let file := {| data := b#"<new>"; sha256_hash := ["001"; "255"]%char |} in
  revalidated file HTML_CONTENT_TYPE [(IF_NONE_MATCH, etag_of held)] =
    if bool_decide (sha256_hash held = sha256_hash file)
    then {| status := 304; headers := [(ETAG, etag_of file); (CACHE_CONTROL, REVALIDATE_CACHE_CONTROL)]; body := NoBody |}
    else {| status := 200;
            headers := [(CONTENT_TYPE, HTML_CONTENT_TYPE); (CACHE_CONTROL, REVALIDATE_CACHE_CONTROL); (ETAG, etag_of file)];
            body := RawBody (data file) |}.
Proof. apply revalidation_exact. reflexivity. Defined.

(** The fallback to the single page never answers an API path or a hashed asset,
    and what may be cached forever is the hashed assets alone. *)
Theorem fallback_confined `{HeaderText, Assets} uri_path request :
  let path := trim_start_matches b#"/" uri_path in
  let r := static_handler uri_path request in
  (starts_with API_PREFIX path = true → status r = 404%Z) ∧
  (get_asset path = None → starts_with HASHED_ASSET_PREFIX path = true → status r = 404%Z) ∧
  ((CACHE_CONTROL, IMMUTABLE_CACHE_CONTROL) ∈ headers r →
    ∃ f, get_asset path = Some f ∧ starts_with HASHED_ASSET_PREFIX path = true ∧ body r = RawBody (data f)).
Proof.
  intros path r. subst r. unfold static_handler. fold path.
  assert (Hr : ∀ f ct, (CACHE_CONTROL, IMMUTABLE_CACHE_CONTROL) ∉ headers (revalidated f ct request)).
  { intros f ct. unfold revalidated. destruct (holds_current _ _); cbn [headers];
      intros Hin; repeat (apply elem_of_cons in Hin as [[=]|Hin]); by apply elem_of_nil in Hin. }
  destruct (starts_with API_PREFIX path).
  { split_and!; [done|done|]. intros Hin. by apply elem_of_nil in Hin. }
  destruct (get_asset path) as [f|], (starts_with HASHED_ASSET_PREFIX path); split_and!; try done.
  - intros _. by exists f.
  - intros Hin. by apply Hr in Hin.
  - intros Hin. by apply elem_of_nil in Hin.
  - destruct (get_asset b#"index.html"); intros Hin; [by apply Hr in Hin|by apply elem_of_nil in Hin].
Qed.

(** Every response carries each of the security headers. *)
Lemma every_response_secured r h : h ∈ SECURITY_HEADERS → contains_key (fst h) (headers (secured r)) = true.
Proof.
  unfold secured. revert r.
  assert (Hkeep : ∀ r x k, contains_key k (headers r) = true → contains_key k (headers (if_not_present r x)) = true).
  { intros r x k Hk. unfold if_not_present. destruct (contains_key (fst x) (headers r)); [done|]. simpl.
    unfold contains_key in *. by rewrite existsb_app, Hk. }
  assert (Hfold : ∀ l r k, contains_key k (headers r) = true → contains_key k (headers (fold_left if_not_present l r)) = true).
  { induction l as [|x l IH]; simpl; [done|]. intros r k Hk. by apply IH, Hkeep. }
  induction SECURITY_HEADERS as [|x l IH]; intros r; [by intros ?%elem_of_nil|].
  intros [->|Hin]%elem_of_cons; [|by apply IH]. simpl. apply Hfold. unfold if_not_present.
  destruct (contains_key (fst x) (headers r)) eqn:Hx; [done|]. simpl. unfold contains_key.
  rewrite existsb_app. simpl. by rewrite beqb_refl, orb_true_r.
Qed.
