(* ===== verification/TuiState.v ===== *)
(** The state of the terminal client: [App] of [crates/rustmail-tui/src/app.rs]
    with the types of [api.rs] and [event.rs], the operations on its list of
    messages and its cursor. *)
From S2P Require Import Prelude RustStd.

(** ** What the API answers and announces *)

Record MessageSummary := {
  id : bytes;
  sender : bytes;
  recipients : list bytes;
  subject : option bytes;
  size : Z;
  has_attachments : bool;
  is_read : bool;
  is_starred : bool;
  tags : list bytes;
  created_at : bytes;
}.
#[export] Instance eta_MessageSummary : Eta MessageSummary := λ m,
  {| id := id m; sender := sender m; recipients := recipients m; subject := subject m; size := size m;
     has_attachments := has_attachments m; is_read := is_read m; is_starred := is_starred m;
     tags := tags m; created_at := created_at m |}.
#[export] Instance MessageSummary_eq_dec : EqDecision MessageSummary.
Proof. solve_decision. Defined.

Record Message := { summary : MessageSummary; text_body : option bytes; html_body : option bytes }.
Record ListResponse := { page : list MessageSummary; page_total : Z }.

Inductive WsEvent :=
| MessageNew (m : MessageSummary)
| MessageDelete (i : bytes)
| MessageRead (i : bytes) (read : bool)
| MessageStarred (i : bytes) (starred : bool)
| MessageTags (i : bytes) (tags : list bytes)
| MessagesClear.

Inductive RawTarget := RawPreview | FullView.
#[export] Instance RawTarget_eq_dec : EqDecision RawTarget.
Proof. solve_decision. Defined.

(** The requests the client makes, in the place of the tasks it spawns: each runs
    one call of [ApiClient] and sends its result back as an event. *)
Inductive Request :=
| ListMessages (query : option bytes) (limit offset : Z) (generation : nat)
| GetMessage (request : nat) (i : bytes) (was_unread : bool)
| UpdateMessage (i : bytes) (read starred : option bool)
| DeleteMessage (i : bytes)
| DeleteAllMessages
| GetRawMessage (target : RawTarget) (request : nat) (i : bytes) (size limit : Z).

(** ** The state

    The fields of [App], grouped by what they concern. *)

Inductive Mode := Normal | Search | RawView | Confirm | Help.
#[export] Instance Mode_eq_dec : EqDecision Mode.
Proof. solve_decision. Defined.
Inductive Focus := FocusList | FocusPreview.
Inductive PreviewTab := TabText | TabHeaders | TabRaw.
#[export] Instance PreviewTab_eq_dec : EqDecision PreviewTab.
Proof. solve_decision. Defined.

Definition STALE_VIEW_REFETCH_INTERVAL : nat := 2 * 1000.
Definition PENDING_DELTA_CAPACITY : nat := 256.
#[global] Arguments PENDING_DELTA_CAPACITY : simpl never.
Definition SPINNER_LENGTH : nat := 10.
Definition RAW_PREVIEW_LIMIT_BYTES : Z := 128 * 1024.

Record PendingDeltas := { deltas : list WsEvent; overflowed : bool }.
Definition no_deltas : PendingDeltas := {| deltas := []; overflowed := false |}.
Definition record (delta : WsEvent) (p : PendingDeltas) : PendingDeltas :=
  if overflowed p then p
  else if PENDING_DELTA_CAPACITY <=? length (deltas p) then {| deltas := []; overflowed := true |}
  else {| deltas := deltas p ++ [delta]; overflowed := false |}.

(** The page of messages and the fetch that replaces it. [row] is the row
    [list_state] highlights. *)
Record ListView := {
  messages : list MessageSummary;
  total : Z;
  selected : nat;
  row : option nat;
  offset : Z;
  page_size : Z;
  loading : bool;
  view_stale : bool;
  view_changed : bool;
  last_fetch_at : option nat;
  fetch_generation : nat;
  pending_deltas : PendingDeltas;
}.
#[export] Instance eta_ListView : Eta ListView := λ l,
  {| messages := messages l; total := total l; selected := selected l; row := row l; offset := offset l;
     page_size := page_size l; loading := loading l; view_stale := view_stale l;
     view_changed := view_changed l; last_fetch_at := last_fetch_at l;
     fetch_generation := fetch_generation l; pending_deltas := pending_deltas l |}.

Record Pane := {
  preview : option Message;
  preview_scroll : nat;
  preview_loading : bool;
  preview_tab : PreviewTab;
  preview_raw : option bytes;
  preview_raw_notice : option bytes;
  last_preview_id : option bytes;
  pending_preview : option nat;
  pending_raw : option (RawTarget * nat);
}.
#[export] Instance eta_Pane : Eta Pane := λ p,
  {| preview := preview p; preview_scroll := preview_scroll p; preview_loading := preview_loading p;
     preview_tab := preview_tab p; preview_raw := preview_raw p; preview_raw_notice := preview_raw_notice p;
     last_preview_id := last_preview_id p; pending_preview := pending_preview p; pending_raw := pending_raw p |}.

(** Where the last frame drew what, and the first row it drew. *)
Record Rect := { x : Z; y : Z; width : Z; height : Z }.
Record Screen := {
  list_area : Rect;
  list_table_area : Rect;
  preview_area : Rect;
  tab_area : Rect;
  tab_ranges : list (Z * Z);
  first_row : nat;
}.

Record App := {
  running : bool;
  mode : Mode;
  focus : Focus;
  lists : ListView;
  pane : Pane;
  raw_content : option bytes;
  raw_notice : option bytes;
  raw_scroll : nat;
  search_query : bytes;
  search_input : bytes;
  confirm_action : option bytes;
  error : option bytes;
  error_ticks : nat;
  ws_connected : bool;
  ws_ever_connected : bool;
  spinner_frame : nat;
  screen : Screen;
  last_request_id : nat;
  base_url : bytes;
  (* what was asked of the server so far, and the clock *)
  requests : list Request;
  now : nat;
}.
#[export] Instance eta_App : Eta App := λ s,
  {| running := running s; mode := mode s; focus := focus s; lists := lists s; pane := pane s;
     raw_content := raw_content s; raw_notice := raw_notice s; raw_scroll := raw_scroll s;
     search_query := search_query s; search_input := search_input s; confirm_action := confirm_action s;
     error := error s; error_ticks := error_ticks s; ws_connected := ws_connected s;
     ws_ever_connected := ws_ever_connected s; spinner_frame := spinner_frame s; screen := screen s;
     last_request_id := last_request_id s; base_url := base_url s; requests := requests s; now := now s |}.

Definition no_rect : Rect := {| x := 0; y := 0; width := 0; height := 0 |}.
Definition new (url : bytes) : App :=
  {| running := true; mode := Normal; focus := FocusList;
     lists := {| messages := []; total := 0; selected := 0; row := Some 0; offset := 0; page_size := 50;
                 loading := false; view_stale := false; view_changed := false; last_fetch_at := None;
                 fetch_generation := 0; pending_deltas := no_deltas |};
     pane := {| preview := None; preview_scroll := 0; preview_loading := false; preview_tab := TabText;
                preview_raw := None; preview_raw_notice := None; last_preview_id := None;
                pending_preview := None; pending_raw := None |};
     raw_content := None; raw_notice := None; raw_scroll := 0; search_query := []; search_input := [];
     confirm_action := None; error := None; error_ticks := 0; ws_connected := false;
     ws_ever_connected := false; spinner_frame := 0;
     screen := {| list_area := no_rect; list_table_area := no_rect; preview_area := no_rect;
                  tab_area := no_rect; tab_ranges := replicate 3 (0%Z, 0%Z); first_row := 0 |};
     last_request_id := 0; base_url := url; requests := []; now := 0 |}.

Definition on_lists (f : ListView → ListView) (s : App) : App := s <| lists := f (lists s) |>.
Definition on_pane (f : Pane → Pane) (s : App) : App := s <| pane := f (pane s) |>.
Definition spawn (r : Request) (s : App) : App := s <| requests := requests s ++ [r] |>.

(** ** The list and the cursor *)

Fixpoint position {A} (p : A → bool) (l : list A) : option nat :=
  match l with
  | [] => None
  | x :: l => if p x then Some 0 else S <$> position p l
  end.
Fixpoint rposition {A} (p : A → bool) (l : list A) : option nat :=
  match l with
  | [] => None
  | x :: l => match rposition p l with
              | Some i => Some (S i)
              | None => if p x then Some 0 else None
              end
  end.
Fixpoint find_map {A B} (f : A → option B) (l : list A) : option B :=
  match l with
  | [] => None
  | x :: l => match f x with Some b => Some b | None => find_map f l end
  end.

Definition has_id (i : bytes) (m : MessageSummary) : bool := beqb (id m) i.
Definition is_listed (i : bytes) (l : list MessageSummary) : bool := existsb (has_id i) l.
Definition selected_message (l : ListView) : option MessageSummary := messages l !! selected l.
Definition selected_id (l : ListView) : option bytes := id <$> selected_message l.
Definition is_selected (i : bytes) (l : ListView) : bool :=
  match selected_message l with Some m => has_id i m | None => false end.

(** Of several positions of an id, the map keeps the last. *)
Definition resolve_selection (old : list bytes) (index : nat) (new : list MessageSummary) : nat :=
  let position_of i := rposition (has_id i) new in
  let above := take (index `min` length old) old in
  let from_anchor := drop (index `min` length old) old in
  match find_map position_of from_anchor with
  | Some i => i
  | None =>
    match find_map position_of (rev above) with
    | Some i => i
    | None => index `min` (length new - 1)
    end
  end.

Record SelectionAnchor := { ids : list bytes; index : nat }.
Definition capture_selection (l : ListView) : SelectionAnchor :=
  {| ids := map id (messages l); index := selected l |}.
Definition capture_selected_only (l : ListView) : SelectionAnchor :=
  {| ids := match selected_id l with Some i => [i] | None => [] end; index := 0 |}.

Definition sync_list_state (l : ListView) : ListView := l <| row := Some (selected l) |>.

(** Whether the cursor now rests on a different message, and the list. *)
Definition reanchor_selection (a : SelectionAnchor) (l : ListView) : bool * ListView :=
  let previous := ids a !! index a in
  let l := sync_list_state (l <| selected := resolve_selection (ids a) (index a) (messages l) |>) in
  (negb (bool_decide (selected_id l = previous)), l).

Definition select_message (idx : nat) (l : ListView) : bool * ListView :=
  if (idx <? length (messages l)) && negb (idx =? selected l)
  then (true, sync_list_state (l <| selected := idx |>)) else (false, l).
Definition select_next (l : ListView) : bool * ListView :=
  match messages l with
  | [] => (false, l)
  | _ => select_message ((selected l + 1) `min` (length (messages l) - 1)) l
  end.
Definition select_prev (l : ListView) : bool * ListView :=
  match messages l with
  | [] => (false, l)
  | _ => select_message (selected l - 1) l
  end.

(** [Vec::insert(0, ..)] and [truncate]. *)
Definition push_front (m : MessageSummary) (l : ListView) : ListView :=
  l <| messages := take (Z.to_nat (page_size l)) (m :: messages l) |>.
(** The first message with the id, through a mutable reference. *)
Fixpoint update_first (i : bytes) (f : MessageSummary → MessageSummary) (l : list MessageSummary) :
    list MessageSummary :=
  match l with
  | [] => []
  | m :: l => if has_id i m then f m :: l else m :: update_first i f l
  end.
Definition remove_at {A} (i : nat) (l : list A) : list A := take i l ++ drop (S i) l.

Definition apply_update (update : WsEvent) (l : ListView) : ListView :=
  match update with
  | MessageRead i v => l <| messages := update_first i (λ m, m <| is_read := v |>) (messages l) |>
  | MessageStarred i v => l <| messages := update_first i (λ m, m <| is_starred := v |>) (messages l) |>
  | MessageTags i v => l <| messages := update_first i (λ m, m <| tags := v |>) (messages l) |>
  | MessageNew _ | MessageDelete _ | MessagesClear => l
  end.

(** ** Replaying what arrived during a fetch onto its snapshot *)

Definition replay_delta (query : bytes) (delta : WsEvent) (l : ListView) : ListView :=
  match delta with
  | MessageNew m =>
    if is_listed (id m) (messages l) then l
    else if nonempty query || negb (offset l =? 0)%Z then l <| view_stale := true |>
    else push_front m (l <| total := (total l + 1)%Z |>)
  | MessageDelete i =>
    match position (has_id i) (messages l) with
    | Some pos => l <| messages := remove_at pos (messages l) |> <| total := Z.max 0 (total l - 1) |>
    | None => l <| view_stale := true |>
    end
  | MessagesClear => l <| messages := [] |> <| total := 0%Z |>
  | update => apply_update update l
  end.
Fixpoint replay_from (query : bytes) (listed_through : option nat) (n : nat) (ds : list WsEvent) (l : ListView) :
    ListView :=
  match ds with
  | [] => l
  | d :: ds =>
    let in_snapshot := match listed_through with Some last => n <=? last | None => false end in
    replay_from query listed_through (S n) ds
      match d with
      | MessageNew _ => if in_snapshot then l else replay_delta query d l
      | _ => replay_delta query d l
      end
  end.
Definition replay_deltas (query : bytes) (ds : list WsEvent) (l : ListView) : ListView :=
  let listed_through :=
    rposition (λ d, match d with MessageNew m => is_listed (id m) (messages l) | _ => false end) ds in
  replay_from query listed_through 0 ds l.

(** ** What the status lines show *)

Definition current_page (l : ListView) : Z := (offset l ÷ page_size l + 1)%Z.
(** Exact as long as the total is a float without loss. *)
Definition total_pages (l : ListView) : Z := (- (- total l / page_size l))%Z.
Definition unread_count (l : ListView) : nat := length (List.filter (λ m, negb (is_read m)) (messages l)).
