(* ===== verification/TuiApp.v ===== *)
(** What the terminal client does on each event: the handlers of [App] in
    [crates/rustmail-tui/src/app.rs], its event loop and [pump_ws_frames]. *)
From S2P Require Import Prelude RustStd TuiState.

(** The keys and mouse events the client tells apart; a character is its UTF-8
    bytes. *)
Inductive KeyCode :=
| Char (c : bytes) | Enter | Esc | Tab | BackTab | Up | Down | Left | Right | Backspace | OtherKey.
Record KeyEvent := { code : KeyCode; control : bool }.
Inductive MouseKind := DownLeft | ScrollDown | ScrollUp | OtherMouse.
Record MouseEvent := { kind : MouseKind; column : Z; mouse_row : Z }.

Inductive Event :=
| Key (k : KeyEvent)
| Mouse (m : MouseEvent)
| Resize
| Tick
| WsMessage (text : bytes)
| WsStatus (connected : bool)
| WsOverflow
| MessagesFetched (generation : nat) (res : result bytes ListResponse)
| PreviewLoaded (request : nat) (i : bytes) (was_unread : bool) (res : result bytes Message)
| RawLoaded (target : RawTarget) (request : nat) (i : bytes) (size : Z) (res : result bytes bytes)
| Patched (i : bytes) (read starred : option bool) (res : result bytes unit)
| Deleted (i : bytes) (res : result bytes unit)
| AllDeleted (res : result bytes unit).

(** [serde_json::from_str] of a frame. *)
Class Frames := parse_frame : bytes → option WsEvent.

Definition PAST : nat := 65535.
(** [u16::saturating_add]. *)
Definition scroll_down (by_ n : nat) : nat := (n + by_) `min` PAST.
#[global] Arguments PAST : simpl never.

(** ** Requests *)

Definition set_error (message : bytes) (s : App) : App :=
  s <| error := Some message |> <| error_ticks := 0 |>.
Definition clear_error (s : App) : App := s <| error := None |> <| error_ticks := 0 |>.

(** The number of the next request, which is also the last one given. *)
Definition next_request_id (s : App) : App := s <| last_request_id := S (last_request_id s) |>.

Definition fetch_messages (s : App) : App :=
  let s := on_lists (λ l, l <| loading := true |> <| last_fetch_at := Some (now s) |>
                            <| fetch_generation := S (fetch_generation l) |>) s in
  spawn (ListMessages (if nonempty (search_query s) then Some (search_query s) else None)
           (page_size (lists s)) (offset (lists s)) (fetch_generation (lists s))) s.

Definition refetch_if_stale (s : App) : App :=
  let throttle_elapsed :=
    match last_fetch_at (lists s) with
    | Some at_ => STALE_VIEW_REFETCH_INTERVAL <=? now s - at_
    | None => true
    end in
  if view_stale (lists s) && negb (loading (lists s)) && throttle_elapsed then fetch_messages s else s.

Definition drop_preview (p : Pane) : Pane :=
  p <| preview := None |> <| last_preview_id := None |> <| pending_preview := None |>
    <| preview_raw := None |> <| preview_raw_notice := None |> <| pending_raw := None |>.
Definition load_preview (s : App) : App :=
  match selected_message (lists s) with
  | None => on_pane drop_preview s
  | Some m =>
    if bool_decide (last_preview_id (pane s) = Some (id m))
    then on_pane (λ p, p <| pending_preview := None |> <| preview_loading := false |>) s
    else
      let s := next_request_id (on_pane (λ p, p <| preview_loading := true |> <| preview_scroll := 0 |>
        <| preview_raw := None |> <| preview_raw_notice := None |> <| preview_tab := TabText |>) s) in
      let s := on_pane (λ p, p <| pending_preview := Some (last_request_id s) |> <| pending_raw := None |>) s in
      spawn (GetMessage (last_request_id s) (id m) (negb (is_read m))) s
  end.
Definition retarget_preview (s : App) : App := load_preview (on_pane drop_preview s).

Definition restore_selection (a : SelectionAnchor) (s : App) : App :=
  let '(moved, l) := reanchor_selection a (lists s) in
  let s := s <| lists := l |> in
  if moved && negb (loading (lists s)) then retarget_preview s else s.

Definition preview_matches_selection (s : App) : bool :=
  bool_decide (last_preview_id (pane s) = selected_id (lists s)).

(** [selecting move]: the move, and the preview of the message it reached. *)
Definition selecting (move : ListView → bool * ListView) (s : App) : App :=
  let '(moved, l) := move (lists s) in
  let s := s <| lists := l |> in
  if moved then load_preview s else s.

Definition get_raw (target : RawTarget) (m : MessageSummary) (s : App) : App :=
  let s := next_request_id s in
  let s := on_pane (λ p, p <| pending_raw := Some (target, last_request_id s) |>) s in
  spawn (GetRawMessage target (last_request_id s) (id m) (size m) RAW_PREVIEW_LIMIT_BYTES) s.
Definition ensure_raw_loaded (s : App) : App :=
  match preview_raw (pane s), selected_message (lists s) with
  | None, Some m => get_raw RawPreview m s
  | _, _ => s
  end.
Definition show_raw (s : App) : App :=
  match selected_message (lists s) with Some m => get_raw FullView m s | None => s end.

Definition toggle_read (s : App) : App :=
  match selected_message (lists s) with
  | Some m => spawn (UpdateMessage (id m) (Some (negb (is_read m))) None) s
  | None => s
  end.
Definition toggle_star (s : App) : App :=
  match selected_message (lists s) with
  | Some m => spawn (UpdateMessage (id m) None (Some (negb (is_starred m)))) s
  | None => s
  end.
Definition delete_selected (s : App) : App :=
  match selected_message (lists s) with Some m => spawn (DeleteMessage (id m)) s | None => s end.
Definition delete_all (s : App) : App := spawn DeleteAllMessages s.

Definition change_view (s : App) : App :=
  fetch_messages (on_lists (λ l, l <| view_changed := true |>) s).
Definition next_page (s : App) : App :=
  let new_offset := (offset (lists s) + page_size (lists s))%Z in
  if (new_offset <? total (lists s))%Z
  then change_view (on_lists (λ l, l <| offset := new_offset |>) s) else s.
Definition prev_page (s : App) : App :=
  if (0 <? offset (lists s))%Z
  then change_view (on_lists (λ l, l <| offset := Z.max 0 (offset l - page_size l) |>) s) else s.

(** ** Keys *)

Definition switch_preview_tab (tab : PreviewTab) (s : App) : App :=
  on_pane (λ p, p <| preview_tab := tab |> <| preview_scroll := 0 |>) s.
Definition quit (s : App) : App := s <| running := false |>.
Definition scroll_preview (f : nat → nat) (s : App) : App :=
  on_pane (λ p, p <| preview_scroll := f (preview_scroll p) |>) s.

(** The key is one of these characters. *)
Definition is_char (cs : list bytes) (c : bytes) : bool := existsb (beqb c) cs.

Definition handle_list_key (k : KeyCode) (s : App) : App :=
  match k with
  | Down => selecting select_next s
  | Up => selecting select_prev s
  | Enter | Right | Tab => s <| focus := FocusPreview |>
  | Char c =>
    if is_char [b#"q"] c then quit s
    else if is_char [b#"j"] c then selecting select_next s
    else if is_char [b#"k"] c then selecting select_prev s
    else if is_char [b#"g"] c then selecting (select_message 0) s
    else if is_char [b#"G"] c then selecting (select_message (length (messages (lists s)) - 1)) s
    else if is_char [b#"l"] c then s <| focus := FocusPreview |>
    else if is_char [b#"/"] c then s <| mode := Search |> <| search_input := search_query s |>
    else if is_char [b#"r"] c then toggle_read s
    else if is_char [b#"s"] c then toggle_star s
    else if is_char [b#"d"] c then delete_selected s
    else if is_char [b#"D"] c then s <| mode := Confirm |> <| confirm_action := Some b#"delete_all" |>
    else if is_char [b#"R"] c then show_raw s
    else if is_char [b#"]"] c then next_page s
    else if is_char [b#"["] c then prev_page s
    else if is_char [b#"?"] c then s <| mode := Help |>
    else s
  | _ => s
  end.

Definition handle_preview_key (k : KeyCode) (s : App) : App :=
  match k with
  | Esc | Left | Tab | BackTab => s <| focus := FocusList |>
  | Down => scroll_preview (scroll_down 1) s
  | Up => scroll_preview (λ n, n - 1) s
  | Char c =>
    if is_char [b#"q"] c then quit s
    else if is_char [b#"h"] c then s <| focus := FocusList |>
    else if is_char [b#"j"] c then scroll_preview (scroll_down 1) s
    else if is_char [b#"k"] c then scroll_preview (λ n, n - 1) s
    else if is_char [b#"1"] c then switch_preview_tab TabText s
    else if is_char [b#"2"] c then switch_preview_tab TabHeaders s
    else if is_char [b#"3"] c then ensure_raw_loaded (switch_preview_tab TabRaw s)
    else if is_char [b#"r"] c then toggle_read s
    else if is_char [b#"s"] c then toggle_star s
    else if is_char [b#"d"] c then delete_selected s
    else if is_char [b#"R"] c then show_raw s
    else s
  | _ => s
  end.
Definition handle_normal_key (k : KeyCode) (s : App) : App :=
  match focus s with FocusList => handle_list_key k s | FocusPreview => handle_preview_key k s end.

(** [String::pop]. *)
Definition pop (s : bytes) : bytes := concat (removelast (chars s)).
Definition first_page (s : App) : App := on_lists (λ l, l <| offset := 0%Z |>) s.
Definition handle_search_key (k : KeyCode) (s : App) : App :=
  match k with
  | Enter => change_view (first_page (s <| search_query := search_input s |> <| mode := Normal |>))
  | Esc =>
    if negb (nonempty (search_input s)) && nonempty (search_query s)
    then change_view (first_page (s <| search_query := [] |> <| mode := Normal |>))
    else s <| mode := Normal |>
  | Backspace => s <| search_input := pop (search_input s) |>
  | Char c => s <| search_input := search_input s ++ c |>
  | _ => s
  end.

Definition close_raw (s : App) : App :=
  s <| mode := Normal |> <| raw_content := None |> <| raw_notice := None |> <| raw_scroll := 0 |>.
Definition handle_raw_view_key (k : KeyCode) (s : App) : App :=
  match k with
  | Esc => close_raw s
  | Down => s <| raw_scroll := scroll_down 1 (raw_scroll s) |>
  | Up => s <| raw_scroll := raw_scroll s - 1 |>
  | Char c =>
    if is_char [b#"q"] c then close_raw s
    else if is_char [b#"j"] c then s <| raw_scroll := scroll_down 1 (raw_scroll s) |>
    else if is_char [b#"k"] c then s <| raw_scroll := raw_scroll s - 1 |>
    else s
  | _ => s
  end.

Definition handle_confirm_key (k : KeyCode) (s : App) : App :=
  let yes := match k with Char c => is_char [b#"y"; b#"Y"] c | _ => false end in
  let s := if yes && bool_decide (confirm_action s = Some b#"delete_all") then delete_all s else s in
  s <| mode := Normal |> <| confirm_action := None |>.

Definition handle_help_key (k : KeyCode) (s : App) : App :=
  match k with
  | Esc | Enter => s <| mode := Normal |>
  | Char c => if is_char [b#"q"; b#"?"] c then s <| mode := Normal |> else s
  | _ => s
  end.

Definition handle_key (k : KeyEvent) (s : App) : App :=
  if control k && match code k with Char c => beqb c b#"c" | _ => false end then quit s
  else
    match mode s with
    | Search => handle_search_key (code k) s
    | RawView => handle_raw_view_key (code k) s
    | Confirm => handle_confirm_key (code k) s
    | Help => handle_help_key (code k) s
    | Normal => handle_normal_key (code k) s
    end.

(** ** The mouse *)

(** [Rect::contains]: the right and bottom edges are outside, and saturate. *)
Definition contains (r : Rect) (m : MouseEvent) : bool :=
  ((x r <=? column m) && (column m <? Z.min U16_MAX (x r + width r)) &&
   (y r <=? mouse_row m) && (mouse_row m <? Z.min U16_MAX (y r + height r)))%Z.
Fixpoint clicked_tab (abs_x area_x : Z) (tabs : list PreviewTab) (ranges : list (Z * Z)) : option PreviewTab :=
  match tabs, ranges with
  | tab :: tabs, (start, stop) :: ranges =>
    if ((area_x + start <=? abs_x) && (abs_x <? area_x + stop))%Z then Some tab
    else clicked_tab abs_x area_x tabs ranges
  | _, _ => None
  end.
Definition handle_mouse (m : MouseEvent) (s : App) : App :=
  let sc := screen s in
  match kind m with
  | DownLeft =>
    if contains (tab_area sc) m then
      let s :=
        match clicked_tab (column m) (x (tab_area sc)) [TabText; TabHeaders; TabRaw] (tab_ranges sc) with
        | Some TabRaw => ensure_raw_loaded (switch_preview_tab TabRaw s)
        | Some tab => switch_preview_tab tab s
        | None => s
        end in
      s <| focus := FocusPreview |>
    else if contains (list_table_area sc) m then
      let s := s <| focus := FocusList |> in
      let row_offset := Z.max 0 (mouse_row m - y (list_table_area sc)) in
      selecting (select_message (first_row sc + Z.to_nat (row_offset / 2))) s
    else if contains (list_area sc) m then s <| focus := FocusList |>
    else if contains (preview_area sc) m then s <| focus := FocusPreview |>
    else s
  | ScrollDown =>
    if contains (list_area sc) m then selecting select_next s
    else if contains (preview_area sc) m then scroll_preview (scroll_down 3) s
    else s
  | ScrollUp =>
    if contains (list_area sc) m then selecting select_prev s
    else if contains (preview_area sc) m then scroll_preview (λ n, n - 3) s
    else s
  | OtherMouse => s
  end.

(** ** Ticks and connection *)

Definition expire_error (s : App) : App :=
  match error s with
  | Some _ =>
    let s := s <| error_ticks := S (error_ticks s) |> in
    if 50 <=? error_ticks s then clear_error s else s
  | None => s
  end.
Definition on_tick (s : App) : App :=
  let s := expire_error s in
  if loading (lists s) || preview_loading (pane s)
  then s <| spinner_frame := (spinner_frame s + 1) mod SPINNER_LENGTH |> else s.

Definition handle_ws_overflow (s : App) : App :=
  on_lists (λ l,
    let l := l <| view_stale := true |> in
    if loading l
    then l <| pending_deltas := {| deltas := deltas (pending_deltas l); overflowed := true |} |> else l) s.

Definition handle_ws_status (connected : bool) (s : App) : App :=
  let reconnected := connected && negb (ws_connected s) && ws_ever_connected s in
  let s := s <| ws_connected := connected |> <| ws_ever_connected := ws_ever_connected s || connected |> in
  if reconnected then fetch_messages s else s.

(** ** What comes back from the server *)

Definition handle_messages_fetched (generation : nat) (res : result bytes ListResponse) (s : App) : App :=
  if negb (generation =? fetch_generation (lists s)) then s
  else
    let pending := pending_deltas (lists s) in
    let changed := view_changed (lists s) in
    let s := on_lists (λ l, l <| loading := false |> <| pending_deltas := no_deltas |> <| view_changed := false |>) s in
    match res with
    | Ok resp =>
      let anchor := if changed then capture_selected_only (lists s) else capture_selection (lists s) in
      let s := on_lists (λ l,
        replay_deltas (search_query s) (deltas pending)
          (l <| messages := page resp |> <| total := page_total resp |> <| view_stale := overflowed pending |>)) s in
      let s := clear_error s in
      let '(moved, l) := reanchor_selection anchor (lists s) in
      let s := s <| lists := l |> in
      if moved || negb (preview_matches_selection s) then retarget_preview s else s
    | Err e => set_error (b#"Failed to fetch messages: " ++ e) s
    end.

Definition handle_preview_loaded (request : nat) (i : bytes) (was_unread : bool) (res : result bytes Message)
    (s : App) : App :=
  if negb (bool_decide (pending_preview (pane s) = Some request)) || negb (is_selected i (lists s)) then s
  else
    let s := on_pane (λ p, p <| pending_preview := None |> <| preview_loading := false |>) s in
    match res with
    | Ok detail =>
      let s := on_pane (λ p, p <| last_preview_id := Some i |> <| preview := Some detail |>) s in
      if was_unread then spawn (UpdateMessage i (Some true) None) s else s
    | Err e => set_error (b#"Failed to load message: " ++ e) s
    end.

(** [{:.1}] of [n / d] as a float: to the nearest tenth, a tie to the even one. *)
Definition tenths (n d : Z) : Z :=
  let q := (10 * n / d)%Z in
  let r := (10 * n mod d)%Z in
  if (2 * r <? d)%Z || ((2 * r =? d)%Z && Z.even q) then q else (q + 1)%Z.
Definition show_tenths (t : Z) : bytes := display_Z (t / 10) ++ b#"." ++ display_Z (t mod 10).
(** Sizes are not negative. *)
Definition format_size (n : Z) : bytes :=
  if (n <? 1024)%Z then display_Z n ++ b#"B"
  else if (n <? 1024 * 1024)%Z then show_tenths (tenths n 1024) ++ b#"K"
  else show_tenths (tenths n (1024 * 1024)) ++ b#"M".
Definition export_url (s : App) (i : bytes) : bytes := base_url s ++ b#"/api/v1/messages/" ++ i ++ b#"/export".
Definition raw_truncation_notice (size : Z) (export_url : bytes) : option bytes :=
  if (RAW_PREVIEW_LIMIT_BYTES <? size)%Z
  then Some (b#"Showing the first " ++ format_size RAW_PREVIEW_LIMIT_BYTES ++ b#" of " ++ format_size size ++
             b#". Full source: " ++ export_url)
  else None.

Definition handle_raw_loaded (target : RawTarget) (request : nat) (i : bytes) (size : Z) (res : result bytes bytes)
    (s : App) : App :=
  let for_another_message := bool_decide (target = RawPreview) && negb (is_selected i (lists s)) in
  if negb (bool_decide (pending_raw (pane s) = Some (target, request))) || for_another_message then s
  else
    let s := on_pane (λ p, p <| pending_raw := None |>) s in
    match res with
    | Ok raw =>
      let notice := raw_truncation_notice size (export_url s i) in
      match target with
      | FullView => s <| raw_content := Some raw |> <| raw_notice := notice |> <| raw_scroll := 0 |> <| mode := RawView |>
      | RawPreview => on_pane (λ p, p <| preview_raw := Some raw |> <| preview_raw_notice := notice |>) s
      end
    | Err e =>
      set_error (match target with
                 | FullView => b#"Failed to load raw message: "
                 | RawPreview => b#"Failed to load raw: "
                 end ++ e) s
    end.

Definition patch (read starred : option bool) (m : MessageSummary) : MessageSummary :=
  let m := match read with Some v => m <| is_read := v |> | None => m end in
  match starred with Some v => m <| is_starred := v |> | None => m end.
Definition handle_patched (i : bytes) (read starred : option bool) (res : result bytes unit) (s : App) : App :=
  match res with
  | Err _ => s
  | Ok _ => on_lists (λ l, l <| messages := update_first i (patch read starred) (messages l) |>) s
  end.

Definition handle_deleted (i : bytes) (res : result bytes unit) (s : App) : App :=
  match res with
  | Err _ => s
  | Ok _ =>
    let anchor := capture_selection (lists s) in
    restore_selection anchor
      (on_lists (λ l, l <| messages := List.filter (λ m, negb (has_id i m)) (messages l) |>) s)
  end.
Definition handle_all_deleted (res : result bytes unit) (s : App) : App :=
  match res with
  | Err _ => s
  | Ok _ =>
    let anchor := capture_selection (lists s) in
    restore_selection anchor (on_lists (λ l, l <| messages := [] |>) s)
  end.

(** ** What the server announces *)

Definition handle_delta (event : WsEvent) (s : App) : App :=
  match event with
  | MessageNew m =>
    if is_listed (id m) (messages (lists s)) then s
    else if nonempty (search_query s) then on_lists (λ l, l <| view_stale := true |>) s
    else
      let s := on_lists (λ l, l <| total := (total l + 1)%Z |>) s in
      if (offset (lists s) =? 0)%Z then
        let anchor := capture_selection (lists s) in
        restore_selection anchor (on_lists (push_front m) s)
      else s
  | MessageDelete i =>
    let pos := position (has_id i) (messages (lists s)) in
    let s :=
      if bool_decide (is_Some pos) || negb (nonempty (search_query s))
      then on_lists (λ l, l <| total := Z.max 0 (total l - 1) |>) s
      else on_lists (λ l, l <| view_stale := true |>) s in
    match pos with
    | Some pos =>
      let anchor := capture_selection (lists s) in
      restore_selection anchor (on_lists (λ l, l <| messages := remove_at pos (messages l) |>) s)
    | None => s
    end
  | MessagesClear =>
    let anchor := capture_selection (lists s) in
    restore_selection anchor (on_lists (λ l, l <| messages := [] |> <| total := 0%Z |>) s)
  | update => on_lists (apply_update update) s
  end.
Definition handle_ws_message `{Frames} (text : bytes) (s : App) : App :=
  match parse_frame text with
  | None => s
  | Some event =>
    handle_delta event
      (if loading (lists s)
       then on_lists (λ l, l <| pending_deltas := record event (pending_deltas l) |>) s else s)
  end.

(** ** The event loop *)

Definition dispatch `{Frames} (e : Event) (s : App) : App :=
  match e with
  | Key k => handle_key k s
  | Mouse m => handle_mouse m s
  | Resize => s
  | Tick => refetch_if_stale (on_tick s)
  | WsMessage text => handle_ws_message text s
  | WsStatus connected => handle_ws_status connected s
  | WsOverflow => handle_ws_overflow s
  | MessagesFetched generation res => handle_messages_fetched generation res s
  | PreviewLoaded request i was_unread res => handle_preview_loaded request i was_unread res s
  | RawLoaded target request i size res => handle_raw_loaded target request i size res s
  | Patched i read starred res => handle_patched i read starred res s
  | Deleted i res => handle_deleted i res s
  | AllDeleted res => handle_all_deleted res s
  end.

(** The events one turn finds in the queue, after the time it waited. *)
Fixpoint drain `{Frames} (es : list Event) (s : App) : App :=
  match es with
  | e :: es => if running s then drain es (dispatch e s) else s
  | [] => s
  end.
(** Drawing a frame notes where everything is and keeps the preview's scroll
    within its text. *)
Definition draw (at_ : Screen) (max_scroll : nat) (s : App) : App :=
  on_pane (λ p, p <| preview_scroll := preview_scroll p `min` max_scroll |>) (s <| screen := at_ |>).
Record Turn := { waited : nat; found : list Event; drawn : Screen; text_end : nat }.
Fixpoint event_loop `{Frames} (turns : list Turn) (s : App) : App :=
  match turns with
  | [] => s
  | t :: turns =>
    if running s then
      let s := drain (found t) (s <| now := now s + waited t |>) in
      if running s then event_loop turns (draw (drawn t) (text_end t) s) else s
    else s
  end.
(** [run], its WebSocket task apart. *)
Definition run `{Frames} (url : bytes) (turns : list Turn) : App := event_loop turns (fetch_messages (new url)).
