(* ===== verification/TuiLists.v ===== *)
(** The list and the cursor of the terminal client: where the cursor lands when the
    list changes under it. *)
From S2P Require Import Prelude RustStd TuiState.

(** ** Searching lists *)

Lemma has_id_spec i m : has_id i m = true ↔ id m = i.
Proof. apply beqb_spec. Qed.
Lemma is_listed_spec i l : is_listed i l = true ↔ i ∈ map id l.
Proof.
  unfold is_listed. rewrite existsb_exists, list_elem_of_fmap. split.
  - intros (m & Hm & Hi%has_id_spec). exists m. split; [done|]. by apply list_elem_of_In.
  - intros (m & -> & Hm). exists m. split; [by apply list_elem_of_In|by apply has_id_spec].
Qed.
Lemma is_listed_false i l : is_listed i l = false ↔ i ∉ map id l.
Proof. rewrite <- not_true_iff_false. by rewrite is_listed_spec. Qed.

Lemma position_None {A} (p : A → bool) l : position p l = None ↔ ∀ x, x ∈ l → p x = false.
Proof.
  induction l as [|x l IH]; simpl.
  - split; [intros _ y Hy; by apply elem_of_nil in Hy|done].
  - destruct (p x) eqn:Hx; [split; [done|]; intros Hall; by rewrite Hall in Hx by left|].
    rewrite fmap_None, IH. split; [intros Hall y [->|Hy]%elem_of_cons; auto|intros Hall y Hy; apply Hall; by right].
Qed.
Lemma position_Some {A} (p : A → bool) l i : position p l = Some i →
  ∃ x, l !! i = Some x ∧ p x = true ∧ ∀ y, y ∈ take i l → p y = false.
Proof.
  revert i. induction l as [|x l IH]; intros i Hi; simpl in Hi; [done|].
  destruct (p x) eqn:Hx; simplify_eq.
  - exists x. split_and!; [done|done|]. intros y Hy. by apply elem_of_nil in Hy.
  - apply fmap_Some in Hi as (j & Hj & ->). apply IH in Hj as (z & Hz & Hpz & Ht). exists z.
    split_and!; [done|done|]. simpl. intros y [->|Hy]%elem_of_cons; auto.
Qed.
Lemma rposition_Some {A} (p : A → bool) l i : rposition p l = Some i →
  ∃ x, l !! i = Some x ∧ p x = true.
Proof.
  revert i. induction l as [|x l IH]; intros i Hi; simpl in Hi; [done|].
  destruct (rposition p l) as [j|]; simplify_eq; [by apply IH|].
  destruct (p x) eqn:Hx; simplify_eq. by exists x.
Qed.
Lemma rposition_None {A} (p : A → bool) l : rposition p l = None ↔ ∀ x, x ∈ l → p x = false.
Proof.
  induction l as [|x l IH]; simpl.
  - split; [intros _ y Hy; by apply elem_of_nil in Hy|done].
  - destruct (rposition p l) as [j|] eqn:Hj.
    + split; [done|]. intros Hall. exfalso. assert (Hn : Some j = None); [|done]. apply IH. intros y Hy. apply Hall. by right.
    + destruct (p x) eqn:Hx; [split; [done|]; intros Hall; by rewrite Hall in Hx by left|].
      split; [|done]. intros _ y [->|Hy]%elem_of_cons; [done|]. by apply IH.
Qed.
(** Nothing after the last match matches. *)
Lemma rposition_last {A} (p : A → bool) l i j x :
  rposition p l = Some i → l !! j = Some x → i < j → p x = false.
Proof.
  revert i j. induction l as [|y l IH]; intros i j Hi Hj Hlt; simpl in Hi; [done|].
  destruct j as [|j]; [lia|]. simpl in Hj. destruct (rposition p l) as [k|] eqn:Hk; simplify_eq.
  - eapply IH; [done|done|lia].
  - apply (proj1 (rposition_None p l) Hk). by eapply list_elem_of_lookup_2.
Qed.
Lemma find_map_Some {A B} (f : A → option B) l b : find_map f l = Some b →
  ∃ pre x post, l = pre ++ x :: post ∧ f x = Some b ∧ ∀ y, y ∈ pre → f y = None.
Proof.
  induction l as [|x l IH]; simpl; [done|]. destruct (f x) as [c|] eqn:Hx.
  - intros [= ->]. exists [], x, l. split_and!; [done|done|]. intros y Hy. by apply elem_of_nil in Hy.
  - intros (pre & y & post & -> & Hy & Hpre)%IH. exists (x :: pre), y, post.
    split_and!; [done|done|]. intros z [->|Hz]%elem_of_cons; auto.
Qed.
Lemma find_map_None {A B} (f : A → option B) l : find_map f l = None → ∀ x, x ∈ l → f x = None.
Proof.
  induction l as [|y l IH]; simpl; intros Hn x Hx; [by apply elem_of_nil in Hx|].
  destruct (f y) eqn:Hy; [done|]. apply elem_of_cons in Hx as [->|Hx]; auto.
Qed.

(** ** The cursor *)

(** The cursor is on a message, or at the top of an empty list. *)
Definition cursor_ok (l : ListView) : Prop :=
  (selected l < length (messages l) ∨ messages l = [] ∧ selected l = 0) ∧ row l = Some (selected l).

Definition in_range (i : nat) (new : list MessageSummary) : Prop := i < length new ∨ new = [] ∧ i = 0.
Lemma found_in_range (f : bytes → option nat) old new i :
  (∀ x j, f x = Some j → j < length new) → find_map f old = Some i → in_range i new.
Proof. intros Hf (pre & x & post & _ & Hx & _)%find_map_Some. left. by eapply Hf. Qed.
Lemma resolve_in_range old i new : in_range (resolve_selection old i new) new.
Proof.
  unfold resolve_selection. cbv zeta.
  assert (Hf : ∀ x j, rposition (has_id x) new = Some j → j < length new).
  { intros x j (y & Hy & _)%rposition_Some. by apply lookup_lt_Some in Hy. }
  destruct (find_map _ (drop _ _)) eqn:H1; [exact (found_in_range _ _ _ _ Hf H1)|].
  destruct (find_map _ (rev _)) eqn:H2; [exact (found_in_range _ _ _ _ Hf H2)|].
  unfold in_range. destruct new; simpl; [right; split; [done|lia]|left; lia].
Qed.
Lemma reanchor_cursor a l : cursor_ok (snd (reanchor_selection a l)).
Proof.
  unfold reanchor_selection, cursor_ok. simpl. split; [|done]. apply resolve_in_range.
Qed.
Lemma reanchor_moved a l moved l' :
  reanchor_selection a l = (moved, l') → moved = negb (bool_decide (selected_id l' = ids a !! index a)) ∧
  messages l' = messages l.
Proof. unfold reanchor_selection. by intros [= <- <-]. Qed.

(** The cursor's message as the anchor remembers it. *)
Lemma anchor_previous l : ids (capture_selection l) !! index (capture_selection l) = selected_id l.
Proof. simpl. unfold selected_id, selected_message. by rewrite list_lookup_fmap. Qed.
Lemma anchor_previous_only l : ids (capture_selected_only l) !! index (capture_selected_only l) = selected_id l.
Proof. simpl. by destruct (selected_id l). Qed.

(** ** Properties *)

(** When the list changes under it, the cursor stays on its
    message if that is still listed; else it goes to the first that followed it and
    is; else to the nearest above that is; else to the same row, or the last one
    of a shorter list. *)
Theorem cursor_follows_message l new_list :
  cursor_ok l → NoDup (map id new_list) →
  let a := capture_selection l in
  let at_ := new_list !! resolve_selection (ids a) (index a) new_list in
  let survives m := id m ∈ map id new_list in
  let after := drop (selected l) (messages l) in
  let above := take (selected l) (messages l) in
  (∀ pre m post, after = pre ++ m :: post → survives m → (∀ x, x ∈ pre → ¬ survives x) → id <$> at_ = Some (id m)) ∧
  (∀ pre m post, above = pre ++ m :: post → survives m → (∀ x, x ∈ post ∨ x ∈ after → ¬ survives x) →
    id <$> at_ = Some (id m)) ∧
  ((∀ x, x ∈ messages l → ¬ survives x) →
    resolve_selection (ids a) (index a) new_list = selected l `min` (length new_list - 1)).
Proof.
  intros [Hsel _] Hnd a at_ survives after above. subst a at_. simpl. unfold resolve_selection.
  assert (Hmin : selected l `min` length (map id (messages l)) = selected l).
  { rewrite length_fmap. destruct Hsel as [|[-> ->]]; simpl; lia. }
  rewrite Hmin, <- fmap_drop, <- fmap_take. fold after above.
  set (pos := λ i, rposition (has_id i) new_list).
  assert (Hpos : ∀ m, survives m → ∃ j, pos (id m) = Some j ∧ id <$> new_list !! j = Some (id m)).
  { intros m Hm. unfold pos. destruct (rposition (has_id (id m)) new_list) as [j|] eqn:Hj.
    - exists j. split; [done|]. apply rposition_Some in Hj as (x & Hx & Hid%has_id_spec). by rewrite Hx, <- Hid.
    - exfalso. unfold survives in Hm. apply list_elem_of_fmap in Hm as (x & Hx & Hin).
      pose proof (proj1 (rposition_None _ _) Hj x Hin) as Hn. by rewrite Hx, (proj2 (has_id_spec _ _)) in Hn. }
  assert (Hnone : ∀ m, ¬ survives m → pos (id m) = None).
  { intros m Hm. apply rposition_None. intros x Hx. apply not_true_iff_false. intros Hid%has_id_spec.
    apply Hm. unfold survives. rewrite <- Hid. by apply list_elem_of_fmap_2. }
  assert (Hfind : ∀ pre m post, survives m → (∀ x, x ∈ pre → ¬ survives x) →
    ∃ j, find_map pos (id <$> pre ++ m :: post) = Some j ∧ id <$> new_list !! j = Some (id m)).
  { intros pre m post Hm Hpre. destruct (Hpos m Hm) as (j & Hj & Hat). exists j. split; [|done].
    induction pre as [|x pre IH]; simpl; [by rewrite Hj|].
    rewrite Hnone by (apply Hpre; by left). apply IH. intros y Hy. apply Hpre. by right. }
  assert (Hskip : ∀ xs, (∀ x, x ∈ xs → ¬ survives x) → find_map pos (id <$> xs) = None).
  { induction xs as [|x xs IH]; intros Hxs; simpl; [done|]. rewrite Hnone by (apply Hxs; by left).
    apply IH. intros y Hy. apply Hxs. by right. }
  assert (Hrev : ∀ xs : list MessageSummary, rev (id <$> xs) = id <$> rev xs) by (intros; symmetry; apply map_rev).
  split_and!.
  - intros pre m post Ha Hm Hpre. destruct (Hfind pre m post Hm Hpre) as (j & Hj & Hat). by rewrite Ha, Hj.
  - intros pre m post Ha Hm Hpost. rewrite Hskip by auto.
    destruct (Hfind (rev post) m (rev pre) Hm) as (j & Hj & Hat).
    { intros x Hx. apply Hpost. left. by apply list_elem_of_In, in_rev, list_elem_of_In. }
    rewrite Ha, Hrev, rev_app_distr. simpl (rev (m :: post)). rewrite <- app_assoc. simpl app. by rewrite Hj.
  - intros Hall. rewrite Hskip.
    + rewrite Hrev, Hskip; [done|]. intros x Hx%list_elem_of_In%in_rev%list_elem_of_In.
      apply Hall. subst above. rewrite <- (take_drop (selected l) (messages l)). apply elem_of_app. by left.
    + intros x Hx. apply Hall. subst after. rewrite <- (take_drop (selected l) (messages l)). apply elem_of_app. by right.
Qed.
