(* ===== verification/TuiSafety.v ===== *)
(** What holds of the terminal client after any sequence of events. *)
From S2P Require Import Prelude RustStd TuiState TuiApp TuiLists.

(** ** Well-formed states *)

Record list_base (l : ListView) : Prop := {
  ok_page : page_size l = 50%Z;
  ok_offset : (0 ≤ offset l ∧ offset l mod 50 = 0)%Z;
  ok_deltas : length (deltas (pending_deltas l)) ≤ PENDING_DELTA_CAPACITY;
}.
(** [n] is the number of the last request. *)
Record pane_ok (n : nat) (p : Pane) : Prop := {
  ok_shown : is_Some (preview p) ↔ is_Some (last_preview_id p);
  ok_pending : ∀ r, pending_preview p = Some r → r ≤ n ∧ preview_loading p = true;
  ok_raw : ∀ t r, pending_raw p = Some (t, r) → r ≤ n;
}.
(** Everything but the cursor. *)
Record base (s : App) : Prop := {
  ok_lists : list_base (lists s);
  ok_pane : pane_ok (last_request_id s) (pane s);
  ok_raw_view : mode s = RawView → is_Some (raw_content s);
  ok_confirm : mode s = Confirm → confirm_action s = Some b#"delete_all";
  ok_spinner : spinner_frame s < SPINNER_LENGTH;
  ok_error : error_ticks s < 50;
}.
Definition wf (s : App) : Prop := base s ∧ cursor_ok (lists s).

Lemma base_same s s' :
  base s → list_base (lists s') → pane_ok (last_request_id s') (pane s') →
  mode s' = mode s → raw_content s' = raw_content s → confirm_action s' = confirm_action s →
  spinner_frame s' = spinner_frame s → (error_ticks s' = error_ticks s ∨ error_ticks s' = 0) → base s'.
Proof.
  intros [] Hl Hp Hm Hr Hc Hs He. split; try done; rewrite ?Hm, ?Hr, ?Hc, ?Hs; try done.
  destruct He as [-> | ->]; lia.
Qed.
(** [frame]: the goal is [base] of a state whose list and pane stay well formed and
    whose other fields are those of one known to be. *)
Ltac frame := eapply base_same; try eassumption; simpl; try done; try (by left); try (by right).

Lemma wf_new url : wf (new url).
Proof.
  assert (Hl : list_base (lists (new url))).
  { split; [done|done|]. simpl. unfold PENDING_DELTA_CAPACITY. lia. }
  assert (Hp : pane_ok 0 (pane (new url))) by (split; [split; by intros []|done|done]).
  split; [|by split; [right|]]. split; try done; unfold SPINNER_LENGTH; simpl; lia.
Qed.

(** *** Requests and previews *)

Lemma wf_spawn r s : wf s → wf (spawn r s).
Proof. intros [[] Hc]. by split. Qed.
Lemma wf_error e s : wf s → wf (set_error e s).
Proof. intros [Hb Hc]. split; [|done]. destruct Hb. by frame. Qed.
Lemma wf_pane f s : (∀ n p, pane_ok n p → pane_ok n (f p)) → wf s → wf (on_pane f s).
Proof. intros Hf [Hb Hc]. split; [|done]. destruct Hb. frame. auto. Qed.
Lemma pane_drop n p : pane_ok n p → pane_ok n (drop_preview p).
Proof. intros []. split; simpl; done. Qed.

Lemma wf_fetch s : wf s → wf (fetch_messages s).
Proof.
  intros [Hb [Hc Hr]]. apply wf_spawn. split; [|by split]. destruct Hb as [[] Hp]. by frame.
Qed.
Lemma base_load s : base s → base (load_preview s) ∧ lists (load_preview s) = lists s.
Proof.
  intros Hb. unfold load_preview. destruct (selected_message (lists s)) as [m|].
  - destruct (bool_decide _); (split; [|done]); destruct Hb as [? [Hsh Hpe Hra]]; frame;
      (split; simpl; [done| |]); try done.
    + by intros r [= <-].
  - split; [|done]. destruct Hb. frame. by apply pane_drop.
Qed.
Lemma wf_load s : wf s → wf (load_preview s).
Proof. intros [Hb Hc]. destruct (base_load s Hb) as [? Hl]. split; [done|]. by rewrite Hl. Qed.
Lemma wf_retarget s : wf s → wf (retarget_preview s).
Proof. intros Hs. apply wf_load, wf_pane; [|done]. intros n p. apply pane_drop. Qed.

(** The cursor is put back whatever happened to the list. *)
Lemma wf_restore a s : base s → wf (restore_selection a s).
Proof.
  intros Hb. unfold restore_selection. destruct (reanchor_selection a (lists s)) as [moved l] eqn:Hr.
  assert (Hw : wf (s <| lists := l |>)).
  { pose proof (reanchor_cursor a (lists s)) as Hc. rewrite Hr in Hc. split; [|done].
    destruct Hb as [[] ?]. frame. unfold reanchor_selection in Hr. injection Hr as _ <-. by split. }
  destruct (moved && _); [by apply wf_retarget|done].
Qed.
Lemma wf_moved move s :
  (∀ l, list_base l → cursor_ok l → list_base (move l).2 ∧ cursor_ok (move l).2) →
  wf s → wf (selecting move s).
Proof.
  intros Hm [Hb Hc]. unfold selecting. destruct (move (lists s)) as [moved l] eqn:He.
  assert (Hw : wf (s <| lists := l |>)).
  { destruct (Hm (lists s)) as [Hl Hcl]; [apply Hb|done|]. rewrite He in *. split; [|done]. destruct Hb. by frame. }
  destruct moved; [by apply wf_load|done].
Qed.
Lemma select_message_ok i l : list_base l → cursor_ok l →
  list_base (select_message i l).2 ∧ cursor_ok (select_message i l).2.
Proof.
  intros Hl Hc. unfold select_message. destruct (Nat.ltb_spec i (length (messages l))); simpl; [|done].
  destruct (i =? selected l); simpl; [done|]. split; [destruct Hl; by split|]. split; [by left|done].
Qed.
Lemma select_next_ok l : list_base l → cursor_ok l → list_base (select_next l).2 ∧ cursor_ok (select_next l).2.
Proof. intros. unfold select_next. destruct (messages l); [done|by apply select_message_ok]. Qed.
Lemma select_prev_ok l : list_base l → cursor_ok l → list_base (select_prev l).2 ∧ cursor_ok (select_prev l).2.
Proof. intros. unfold select_prev. destruct (messages l); [done|by apply select_message_ok]. Qed.

Lemma wf_get_raw t m s : wf s → wf (get_raw t m s).
Proof.
  intros [Hb Hc]. unfold get_raw. apply wf_spawn. split; [|done]. destruct Hb as [? [Hsh Hpe Hra]]. frame.
  split; simpl; [done| |].
  - intros r Hr. apply Hpe in Hr as [? ?]. split; [lia|done].
  - by intros t' r [= _ <-].
Qed.
Lemma wf_ensure_raw s : wf s → wf (ensure_raw_loaded s).
Proof.
  intros. unfold ensure_raw_loaded.
  destruct (preview_raw (pane s)), (selected_message (lists s)); auto using wf_get_raw.
Qed.
Lemma wf_show_raw s : wf s → wf (show_raw s).
Proof. intros. unfold show_raw. destruct (selected_message (lists s)); auto using wf_get_raw. Qed.
Lemma wf_change s : wf s → wf (change_view s).
Proof.
  intros [Hb Hc]. apply wf_fetch. split; [|done]. destruct Hb as [[] ?]. by frame.
Qed.
(** Moving to the first page or to a neighbour. *)
Lemma wf_offset o s : (0 ≤ o ∧ o mod 50 = 0)%Z → wf s → wf (on_lists (λ l, l <| offset := o |>) s).
Proof. intros Ho [Hb Hc]. split; [|done]. destruct Hb as [[] ?]. by frame. Qed.
Lemma wf_next_page s : wf s → wf (next_page s).
Proof.
  intros Hs. unfold next_page. destruct (_ <? _)%Z; [|done]. apply wf_change, wf_offset; [|done].
  destruct Hs as [[[Hp [Ho Hm]]] _]. rewrite Hp. split; [lia|]. by rewrite <- Zplus_mod_idemp_l, Hm.
Qed.
Lemma wf_prev_page s : wf s → wf (prev_page s).
Proof.
  intros Hs. unfold prev_page. destruct (_ <? _)%Z; [|done]. apply wf_change.
  change (wf (on_lists (λ l, l <| offset := Z.max 0 (offset (lists s) - page_size (lists s)) |>) s)).
  apply wf_offset; [|done]. destruct Hs as [[[Hp [Ho Hm]]] _]. rewrite Hp. split; [lia|].
  destruct (Z.max_spec 0 (offset (lists s) - 50)) as [[_ ->]|[_ ->]]; [|done].
  by rewrite <- Zminus_mod_idemp_l, Hm.
Qed.

(** *** Changes of the list *)

Lemma wf_messages f s :
  (∀ l, length (f l) = length l) → wf s → wf (on_lists (λ l, l <| messages := f (messages l) |>) s).
Proof.
  intros Hf [Hb [Hc Hr]]. split; [destruct Hb as [[] ?]; by frame|]. split; [|done]. simpl. rewrite Hf.
  destruct Hc as [?|[Hm Hs]]; [by left|right]. split; [|done]. apply nil_length_inv. by rewrite Hf, Hm.
Qed.
Lemma update_first_length i f l : length (update_first i f l) = length l.
Proof. induction l as [|m l IH]; simpl; [done|]. destruct (has_id i m); simpl; congruence. Qed.
Lemma wf_update u s : wf s → wf (on_lists (apply_update u) s).
Proof.
  intros Hs. assert (Hid : wf (on_lists (λ l, l) s)).
  { destruct Hs as [Hb Hc]. split; [|done]. destruct Hb. by frame. }
  destruct u; try exact Hid; refine (wf_messages _ s _ Hs); intros; apply update_first_length.
Qed.
Lemma base_lists f s : (∀ l, list_base l → list_base (f l)) → base s → base (on_lists f s).
Proof. intros Hf []. frame. auto. Qed.
(** A change that leaves the list of messages and the cursor alone. *)
Lemma wf_lists f s :
  (∀ l, list_base l → list_base (f l) ∧ messages (f l) = messages l ∧ selected (f l) = selected l ∧ row (f l) = row l) →
  wf s → wf (on_lists f s).
Proof.
  intros Hf [Hb [Hc Hr]]. destruct (Hf (lists s)) as (? & Hm & Hs & Hrow); [apply Hb|].
  split; [destruct Hb; by frame|]. unfold cursor_ok. simpl. by rewrite Hm, Hs, Hrow.
Qed.
Ltac list_frame := intros ? []; try split_and!; try split; simpl; try done.

Lemma base_replay q d l : list_base l → list_base (replay_delta q d l).
Proof.
  intros Hl. destruct d as [m|i|i v|i v|i v|]; simpl.
  - destruct (is_listed _ _); [done|]. destruct (_ || _); destruct Hl; by split.
  - destruct (position _ _); destruct Hl; by split.
  - destruct Hl; by split.
  - destruct Hl; by split.
  - destruct Hl; by split.
  - destruct Hl; by split.
Qed.
Lemma base_replay_from q t ds n l : list_base l → list_base (replay_from q t n ds l).
Proof.
  revert n l. induction ds as [|d ds IH]; intros n l Hl; simpl; [done|]. apply IH.
  destruct d; try by apply base_replay. by destruct (match t with Some _ => _ | None => _ end); [|apply base_replay].
Qed.
Lemma record_bound e p :
  length (deltas p) ≤ PENDING_DELTA_CAPACITY → length (deltas (record e p)) ≤ PENDING_DELTA_CAPACITY.
Proof.
  intros Hp. unfold record. destruct (overflowed p); [done|].
  destruct (Nat.leb_spec PENDING_DELTA_CAPACITY (length (deltas p))); simpl; [lia|]. rewrite length_app. simpl. lia.
Qed.

Lemma wf_fetched g res s : wf s → wf (handle_messages_fetched g res s).
Proof.
  intros Hs. unfold handle_messages_fetched. destruct (negb _); [done|].
  assert (H1 : wf (on_lists (λ l, l <| loading := false |> <| pending_deltas := no_deltas |> <| view_changed := false |>) s)).
  { apply wf_lists; [|done]. intros l []. split_and!; try done. split; try done. simpl. lia. }
  destruct res as [resp|e]; [|by apply wf_error]. revert H1.
  generalize (on_lists (λ l, l <| loading := false |> <| pending_deltas := no_deltas |> <| view_changed := false |>) s).
  intros s1 H1. cbv zeta.
  match goal with |- context [reanchor_selection ?a ?l] => set (anchor := a); set (l1 := l) end.
  assert (Hb : base (clear_error (on_lists (λ l, replay_deltas (search_query s1) (deltas (pending_deltas (lists s)))
    (l <| messages := page resp |> <| total := page_total resp |>
       <| view_stale := overflowed (pending_deltas (lists s)) |>)) s1))).
  { destruct H1 as [H1 _]. pose proof (base_lists (λ l, replay_deltas (search_query s1) (deltas (pending_deltas (lists s)))
      (l <| messages := page resp |> <| total := page_total resp |>
         <| view_stale := overflowed (pending_deltas (lists s)) |>)) s1) as H2.
    destruct H2; [|done|]; [|by frame]. intros l Hl. apply base_replay_from. destruct Hl. by split. }
  destruct (reanchor_selection anchor l1) as [moved l] eqn:Hr.
  assert (Hl : list_base l ∧ cursor_ok l).
  { pose proof (reanchor_cursor anchor l1) as Hc. rewrite Hr in Hc. split; [|done].
    unfold reanchor_selection in Hr. injection Hr as _ <-. destruct (ok_lists _ Hb). by split. }
  match goal with |- wf (if _ then retarget_preview ?x else _) => assert (Hw : wf x) end.
  { split; [|apply Hl]. destruct Hb. by frame; apply Hl. }
  destruct (_ || _); [by apply wf_retarget|done].
Qed.
Lemma wf_preview_loaded r i u res s : wf s → wf (handle_preview_loaded r i u res s).
Proof.
  intros Hs. unfold handle_preview_loaded. destruct (_ || _); [done|].
  assert (H1 : wf (on_pane (λ p, p <| pending_preview := None |> <| preview_loading := false |>) s)).
  { apply wf_pane; [|done]. intros n p []. by split. }
  destruct res as [detail|e]; [|by apply wf_error].
  assert (H2 : wf (on_pane (λ p, p <| last_preview_id := Some i |> <| preview := Some detail |>)
    (on_pane (λ p, p <| pending_preview := None |> <| preview_loading := false |>) s))).
  { destruct H1 as [[? [Hsh Hpe Hra] ? ? ? ?] Hc]. split; [|done]. split; try done. }
  destruct u; [by apply wf_spawn|done].
Qed.
Lemma wf_raw_loaded t r i z res s : wf s → wf (handle_raw_loaded t r i z res s).
Proof.
  intros Hs. unfold handle_raw_loaded. destruct (_ || _); [done|].
  assert (H1 : wf (on_pane (λ p, p <| pending_raw := None |>) s)).
  { apply wf_pane; [|done]. intros n p []. by split. }
  destruct res as [raw|e]; [|by apply wf_error]. destruct t.
  - apply wf_pane; [|done]. intros n p []. by split.
  - destruct H1 as [[] Hc]. split; [|done]. split; simpl in *; try done.
Qed.
Lemma wf_patched i rd st res s : wf s → wf (handle_patched i rd st res s).
Proof. intros. destruct res; [|done]. apply wf_messages; [|done]. intros. apply update_first_length. Qed.

(** A change of the list of messages that the cursor is restored after. *)
Lemma wf_restored a f s :
  (∀ l, page_size (f l) = page_size l ∧ offset (f l) = offset l ∧ pending_deltas (f l) = pending_deltas l) →
  wf s → wf (restore_selection a (on_lists f s)).
Proof.
  intros Hf [Hb _]. apply wf_restore, base_lists; [|done]. intros l []. destruct (Hf l) as (Hp & Ho & Hd).
  split; congruence || by rewrite ?Ho, ?Hd.
Qed.
Lemma wf_deleted i res s : wf s → wf (handle_deleted i res s).
Proof. intros. destruct res; [|done]. by apply wf_restored. Qed.
Lemma wf_all_deleted res s : wf s → wf (handle_all_deleted res s).
Proof. intros. destruct res; [|done]. by apply wf_restored. Qed.

Lemma wf_delta e s : wf s → wf (handle_delta e s).
Proof.
  assert (Hsame : ∀ f s, (∀ l, list_base l → list_base (f l) ∧ messages (f l) = messages l ∧ selected (f l) = selected l ∧ row (f l) = row l) →
    wf s → wf (on_lists f s)) by apply wf_lists.
  intros Hs. unfold handle_delta. destruct e as [m|i|i v|i v|i v|]; try by apply wf_update.
  - destruct (is_listed _ _); [done|]. destruct (nonempty _); [apply Hsame; [|done]; intros l []; by split_and!|].
    assert (H1 : wf (on_lists (λ l, l <| total := (total l + 1)%Z |>) s)).
    { apply Hsame; [|done]. intros l []. by split_and!. }
    destruct (_ =? _)%Z; [|done]. by apply wf_restored.
  - match goal with |- context [if ?b then on_lists ?f s else on_lists ?g s] =>
      assert (H1 : wf (if b then on_lists f s else on_lists g s)) end.
    { destruct (_ || _); (apply Hsame; [|done]; intros l []; by split_and!). }
    destruct (position _ _); [|done]. by apply wf_restored.
  - by apply wf_restored.
Qed.
Lemma wf_ws_message `{Frames} text s : wf s → wf (handle_ws_message text s).
Proof.
  intros Hs. unfold handle_ws_message. destruct (parse_frame text) as [e|]; [|done]. apply wf_delta.
  destruct (loading _); [|done]. apply wf_lists; [|done]. intros l []. split_and!; try done. split; try done.
  simpl. by apply record_bound.
Qed.

(** *** Keys, mouse, ticks *)

Lemma wf_plain s s' :
  wf s → lists s' = lists s → pane s' = pane s → last_request_id s' = last_request_id s →
  (mode s' = RawView → is_Some (raw_content s')) → (mode s' = Confirm → confirm_action s' = Some b#"delete_all") →
  spinner_frame s' < SPINNER_LENGTH → error_ticks s' < 50 → wf s'.
Proof. intros [[] Hc] Hl Hp Hr ? ? ? ?. split; [|by rewrite Hl]. split; rewrite ?Hl, ?Hp, ?Hr; done. Qed.
Ltac plain s := eapply (wf_plain s); [assumption|..]; simpl; try done; try apply ok_raw_view; try apply ok_confirm;
  try apply ok_spinner; try apply ok_error.
Lemma wf_base s : wf s → base s. Proof. by intros []. Qed.
#[local] Hint Resolve wf_base : core.
Lemma wf_scroll f s : wf s → wf (scroll_preview f s).
Proof. intros. apply wf_pane; [|done]. intros n p []. by split. Qed.
Lemma wf_tab t s : wf s → wf (switch_preview_tab t s).
Proof. intros. apply wf_pane; [|done]. intros n p []. by split. Qed.
Lemma wf_focus f s : wf s → wf (s <| focus := f |>).
Proof. intros. by (plain s; auto). Qed.
Lemma wf_quit s : wf s → wf (quit s).
Proof. intros. by (plain s; auto). Qed.
Lemma wf_toggles s : wf s → wf (toggle_read s) ∧ wf (toggle_star s) ∧ wf (delete_selected s).
Proof.
  intros. unfold toggle_read, toggle_star, delete_selected.
  destruct (selected_message (lists s)); auto using wf_spawn.
Qed.
(** A mode other than the two that need something. *)
Lemma wf_mode md s : md ≠ RawView → md ≠ Confirm → wf s → wf (s <| mode := md |>).
Proof. intros. by (plain s; auto). Qed.
Lemma wf_search md q i s : md ≠ RawView → md ≠ Confirm → wf s →
  wf (s <| search_query := q |> <| search_input := i |> <| mode := md |>).
Proof. intros. by (plain s; auto). Qed.

#[local] Hint Resolve wf_spawn wf_scroll wf_tab wf_focus wf_quit wf_ensure_raw wf_show_raw wf_next_page wf_prev_page
  wf_change wf_moved select_message_ok select_next_ok select_prev_ok : core.
Lemma wf_list_key k s : wf s → wf (handle_list_key k s).
Proof.
  intros Hs. destruct (wf_toggles s Hs) as (? & ? & ?).
  assert (Hm : ∀ i, wf (selecting (select_message i) s)) by (intros; auto).
  assert (Hn : wf (selecting select_next s) ∧ wf (selecting select_prev s)) by auto. destruct Hn as [? ?].
  destruct k as [c| | | | | | | | | |]; cbn [handle_list_key]; auto.
  repeat (case_match; [solve [auto | plain s; auto]|]). done.
Qed.
Lemma wf_preview_key k s : wf s → wf (handle_preview_key k s).
Proof.
  intros Hs. destruct (wf_toggles s Hs) as (? & ? & ?).
  destruct k as [c| | | | | | | | | |]; cbn [handle_preview_key]; auto.
  repeat (case_match; [solve [auto]|]). done.
Qed.
Lemma wf_search_key k s : wf s → wf (handle_search_key k s).
Proof.
  intros Hs. assert (Hf : ∀ s, wf s → wf (first_page s)) by (intros; by apply wf_offset).
  destruct k as [c| | | | | | | | | |]; cbn [handle_search_key]; try done; try by (plain s; auto).
  - apply wf_change, Hf. by (plain s; auto).
  - destruct (_ && _); [apply wf_change, Hf|]; by (plain s; auto).
Qed.
Lemma wf_raw_view_key k s : wf s → mode s = RawView → wf (handle_raw_view_key k s).
Proof.
  intros Hs Hm. assert (Hc : wf (close_raw s)) by (plain s; auto).
  assert (Hd : ∀ n, wf (s <| raw_scroll := n |>)) by (intros; by (plain s; auto)).
  destruct k as [c| | | | | | | | | |]; cbn [handle_raw_view_key]; try done; try apply Hd.
  repeat (case_match; [solve [done|apply Hd]|]). done.
Qed.
Lemma wf_confirm_key k s : wf s → wf (handle_confirm_key k s).
Proof.
  intros Hs. unfold handle_confirm_key.
  match goal with |- wf (set_field _ _ (set_field _ _ ?x)) => assert (Hx : wf x); [|generalize dependent x] end.
  { destruct (_ && _); [by apply wf_spawn|done]. }
  intros s1 Hs1. by (plain s1; auto).
Qed.
Lemma wf_help_key k s : wf s → wf (handle_help_key k s).
Proof.
  intros Hs. destruct k as [c| | | | | | | | | |]; cbn [handle_help_key]; try done; try by apply wf_mode.
  destruct (is_char _ _); [by apply wf_mode|done].
Qed.
Lemma wf_key k s : wf s → wf (handle_key k s).
Proof.
  intros Hs. unfold handle_key. destruct (_ && _); [auto|].
  destruct (mode s) eqn:Hm; auto using wf_search_key, wf_raw_view_key, wf_confirm_key, wf_help_key.
  unfold handle_normal_key. destruct (focus s); auto using wf_list_key, wf_preview_key.
Qed.
Lemma wf_mouse m s : wf s → wf (handle_mouse m s).
Proof.
  intros Hs. assert (Hn : wf (selecting select_next s) ∧ wf (selecting select_prev s)) by auto. destruct Hn.
  unfold handle_mouse. destruct (kind m); [|destruct (contains _ _); [auto|destruct (contains _ _); auto]..|done].
  destruct (contains (tab_area (screen s)) m).
  { apply wf_focus. destruct (clicked_tab _ _ _ _) as [[]|]; auto. }
  destruct (contains (list_table_area (screen s)) m).
  { apply wf_moved; [intros; auto|auto]. }
  destruct (contains (list_area (screen s)) m); [auto|]. destruct (contains (preview_area (screen s)) m); auto.
Qed.

Lemma wf_expire s : wf s → wf (expire_error s).
Proof.
  intros Hs. unfold expire_error. destruct (error s); [|done].
  destruct (Nat.leb_spec 50 (error_ticks (s <| error_ticks := S (error_ticks s) |>))) as [|Hlt]; plain s; auto. lia.
Qed.
Lemma wf_tick s : wf s → wf (on_tick s).
Proof.
  intros Hs%wf_expire. unfold on_tick. revert Hs. generalize (expire_error s). intros s1 Hs1. cbv zeta.
  destruct (_ || _); [|done].
  assert (Hlt : (spinner_frame s1 + 1) mod SPINNER_LENGTH < SPINNER_LENGTH) by by apply Nat.mod_upper_bound.
  revert Hlt. generalize ((spinner_frame s1 + 1) mod SPINNER_LENGTH). intros n Hn. plain s1; auto.
Qed.
Lemma wf_refetch s : wf s → wf (refetch_if_stale s).
Proof. intros. unfold refetch_if_stale. destruct (_ && _); [by apply wf_fetch|done]. Qed.
Lemma wf_status c s : wf s → wf (handle_ws_status c s).
Proof.
  intros Hs. unfold handle_ws_status. cbv zeta.
  assert (Hx : wf (s <| ws_connected := c |> <| ws_ever_connected := ws_ever_connected s || c |>)) by (plain s; auto).
  destruct (_ && _); [by apply wf_fetch|done].
Qed.
Lemma wf_overflow s : wf s → wf (handle_ws_overflow s).
Proof.
  intros. apply wf_lists; [|done]. intros l []. simpl. destruct (loading l); split_and!; try done; by split.
Qed.

Lemma wf_dispatch `{Frames} e s : wf s → wf (dispatch e s).
Proof.
  intros Hs. destruct e; simpl; auto using wf_key, wf_mouse, wf_refetch, wf_tick, wf_ws_message, wf_status, wf_overflow,
    wf_fetched, wf_preview_loaded, wf_raw_loaded, wf_patched, wf_deleted, wf_all_deleted.
Qed.
Lemma wf_drain `{Frames} es s : wf s → wf (drain es s).
Proof. revert s. induction es as [|e es IH]; intros s Hs; simpl; [done|]. destruct (running s); auto using wf_dispatch. Qed.
Lemma wf_draw a n s : wf s → wf (draw a n s).
Proof. intros. apply wf_pane; [intros ? p []; by split|]. by (plain s; auto). Qed.
Lemma wf_event_loop `{Frames} ts s : wf s → wf (event_loop ts s).
Proof.
  revert s. induction ts as [|t ts IH]; intros s Hs; cbn [event_loop]; [done|]. destruct (running s); [|done].
  assert (Hd : wf (drain (found t) (s <| now := now s + waited t |>))) by (apply wf_drain; by (plain s; auto)).
  cbv zeta. destruct (running _); [|done]. by apply IH, wf_draw.
Qed.

(** C37: type. Whatever is pressed, clicked, announced or answered, in any order and
    at any pace, the state stays well formed: the cursor is on a listed message, or
    at the top of an empty list, and its row is the one highlighted; the page is
    aligned; at most 256 announcements are held back; a preview belongs to a known
    message and a pending answer to a request that was made; the raw view has
    something to show, and only a confirmed deletion can be pending. *)
Theorem client_stays_well_formed `{Frames} url turns : wf (run url turns).
Proof. apply wf_event_loop, wf_fetch, wf_new. Qed.
