(* ===== verification/TuiPreview.v ===== *)
(** Which message the terminal client previews: the one under the cursor. *)
From S2P Require Import Prelude RustStd TuiState TuiApp TuiLists TuiSafety.

(** The preview is of the message under the cursor, or that message has been asked
    for and its answer is awaited; nothing is previewed of an empty list. *)
Definition follows (s : App) : Prop :=
  last_preview_id (pane s) = selected_id (lists s) ∨
  ∃ r i u, pending_preview (pane s) = Some r ∧ selected_id (lists s) = Some i ∧ GetMessage r i u ∈ requests s.
(** While a list fetch is in flight, its snapshot will settle the preview. *)
Definition settled (s : App) : Prop := loading (lists s) = false → follows s.

(** ** Laws *)

Lemma follows_same s s' :
  follows s → selected_id (lists s') = selected_id (lists s) →
  last_preview_id (pane s') = last_preview_id (pane s) → pending_preview (pane s') = pending_preview (pane s) →
  (∀ r, r ∈ requests s → r ∈ requests s') → follows s'.
Proof.
  intros [Hf|(r & i & u & Hp & Hi & Hr)] Hs Hl Hpe Hq; [left; congruence|].
  right. exists r, i, u. split_and!; [congruence|congruence|auto].
Qed.
Lemma settled_same s s' :
  settled s → (loading (lists s') = false → loading (lists s) = false) → selected_id (lists s') = selected_id (lists s) →
  last_preview_id (pane s') = last_preview_id (pane s) → pending_preview (pane s') = pending_preview (pane s) →
  (∀ r, r ∈ requests s → r ∈ requests s') → settled s'.
Proof. intros Hs Hl ? ? ? ? Hl'. eapply follows_same; eauto. Qed.
Ltac same s := apply (settled_same s); [assumption|try done..]; try (simpl; intros; apply elem_of_app; by left).

Lemma follows_load s : follows (load_preview s).
Proof.
  unfold load_preview. destruct (selected_message (lists s)) as [m|] eqn:Hm.
  - destruct (bool_decide_reflect (last_preview_id (pane s) = Some (id m))) as [Hl|Hl].
    + left. simpl. unfold selected_id. by rewrite Hm.
    + right. eexists _, (id m), _. split_and!; [done| |apply elem_of_app; right; by left].
      simpl. unfold selected_id. by rewrite Hm.
  - left. simpl. unfold selected_id. by rewrite Hm.
Qed.
Lemma loading_load s : loading (lists (load_preview s)) = loading (lists s).
Proof. unfold load_preview. destruct (selected_message _); [destruct (bool_decide _)|]; done. Qed.
Lemma settled_load s : settled (load_preview s).
Proof. intros _. apply follows_load. Qed.
Lemma settled_retarget s : settled (retarget_preview s).
Proof. apply settled_load. Qed.

Lemma settled_restore s f :
  settled s → (∀ l, loading (f l) = loading l) →
  settled (restore_selection (capture_selection (lists s)) (on_lists f s)).
Proof.
  intros Hs Hf. unfold restore_selection.
  destruct (reanchor_selection _ _) as [moved l] eqn:Hr. pose proof (reanchor_moved _ _ _ _ Hr) as [Hm _].
  rewrite anchor_previous in Hm.
  assert (Hl : loading l = loading (lists s)).
  { unfold reanchor_selection in Hr. injection Hr as _ <-. simpl. apply Hf. }
  cbv zeta. change (loading (lists (_ <| lists := l |>))) with (loading l).
  destruct (moved && negb (loading l)) eqn:Hc; [apply settled_retarget|].
  apply andb_false_iff in Hc as [->|Hc].
  - symmetry in Hm. apply negb_false_iff, bool_decide_eq_true in Hm. same s. simpl. by rewrite Hl.
  - intros Hl'. simpl in Hl'. by rewrite Hl' in Hc.
Qed.
Lemma settled_move move s :
  (∀ l, (move l).1 = false → (move l).2 = l) → settled s → settled (selecting move s).
Proof.
  intros Hm Hs. unfold selecting. specialize (Hm (lists s)). destruct (move (lists s)) as [moved l].
  destruct moved; [apply settled_load|]. simpl in Hm. rewrite Hm by done. same s.
Qed.
Lemma select_still i l : (select_message i l).1 = false → (select_message i l).2 = l.
Proof. unfold select_message. by destruct (_ && _). Qed.
Lemma next_still l : (select_next l).1 = false → (select_next l).2 = l.
Proof. unfold select_next. destruct (messages l); [done|apply select_still]. Qed.
Lemma prev_still l : (select_prev l).1 = false → (select_prev l).2 = l.
Proof. unfold select_prev. destruct (messages l); [done|apply select_still]. Qed.

Lemma settled_fetch s : settled (fetch_messages s).
Proof. by intros [=]. Qed.
Lemma settled_get_raw t m s : settled s → settled (get_raw t m s).
Proof. intros. same s. Qed.
Lemma settled_ensure_raw s : settled s → settled (ensure_raw_loaded s).
Proof. intros. unfold ensure_raw_loaded. destruct (preview_raw (pane s)), (selected_message (lists s)); auto using settled_get_raw. Qed.
Lemma settled_show_raw s : settled s → settled (show_raw s).
Proof. intros. unfold show_raw. destruct (selected_message (lists s)); auto using settled_get_raw. Qed.
Lemma settled_spawn r s : settled s → settled (spawn r s).
Proof. intros. same s. Qed.
Lemma settled_toggles s : settled s → settled (toggle_read s) ∧ settled (toggle_star s) ∧ settled (delete_selected s).
Proof.
  intros. unfold toggle_read, toggle_star, delete_selected.
  destruct (selected_message (lists s)); auto using settled_spawn.
Qed.
Lemma settled_pages s : settled s → settled (next_page s) ∧ settled (prev_page s).
Proof.
  intros. unfold next_page, prev_page, change_view.
  split; [destruct (_ <? _)%Z|destruct (_ <? _)%Z]; auto using settled_fetch.
Qed.
Lemma settled_scroll f s : settled s → settled (scroll_preview f s).
Proof. intros. same s. Qed.
Lemma settled_tab t s : settled s → settled (switch_preview_tab t s).
Proof. intros. same s. Qed.

Lemma update_first_ids i f l : (∀ m, id (f m) = id m) → map id (update_first i f l) = map id l.
Proof.
  intros Hf. induction l as [|m l IH]; simpl; [done|]. destruct (has_id i m); simpl; [by rewrite Hf|by rewrite IH].
Qed.
Lemma selected_id_map l l' :
  map id (messages l') = map id (messages l) → selected l' = selected l → selected_id l' = selected_id l.
Proof.
  intros Hm Hs. unfold selected_id, selected_message.
  rewrite <- !list_lookup_fmap, Hs. change (map id (messages l') !! selected l = map id (messages l) !! selected l). by rewrite Hm.
Qed.
Lemma settled_update i f s : (∀ m, id (f m) = id m) → settled s →
  settled (on_lists (λ l, l <| messages := update_first i f (messages l) |>) s).
Proof. intros Hf Hs. same s. apply selected_id_map; [|done]. by apply update_first_ids. Qed.

(** ** Events *)

#[local] Hint Resolve settled_spawn settled_scroll settled_tab settled_ensure_raw settled_show_raw settled_fetch
  settled_move select_still next_still prev_still : core.

Lemma settled_plain s s' : settled s → lists s' = lists s → pane s' = pane s → requests s' = requests s → settled s'.
Proof. intros Hs Hl Hp Hr. apply (settled_same s); rewrite ?Hl, ?Hp, ?Hr; done. Qed.
Lemma settled_key k s : settled s → settled (handle_key k s).
Proof.
  intros Hs. destruct (settled_toggles s Hs) as (? & ? & ?). destruct (settled_pages s Hs).
  assert (Hp : ∀ s', lists s' = lists s → pane s' = pane s → requests s' = requests s → settled s')
    by (intros; by apply (settled_plain s)).
  assert (Hm : (∀ i, settled (selecting (select_message i) s)) ∧ settled (selecting select_next s) ∧
    settled (selecting select_prev s)) by auto. destruct Hm as (? & ? & ?).
  unfold handle_key. destruct (_ && _); [by apply Hp|].
  destruct (mode s).
  - unfold handle_normal_key. destruct (focus s); destruct (code k) as [c| | | | | | | | | |];
      cbn [handle_list_key handle_preview_key]; auto; try by apply Hp.
    all: repeat (case_match; [solve [auto | by apply Hp]|]); done.
  - destruct (code k) as [c| | | | | | | | | |]; cbn [handle_search_key]; auto; try by apply Hp.
    + apply settled_fetch.
    + destruct (_ && _); [apply settled_fetch|by apply Hp].
  - destruct (code k) as [c| | | | | | | | | |]; cbn [handle_raw_view_key]; auto; try by apply Hp.
    repeat (case_match; [solve [auto | by apply Hp]|]); done.
  - unfold handle_confirm_key. cbv zeta.
    assert (Hd : settled (delete_all s)) by by apply settled_spawn.
    destruct (_ && _); [by apply (settled_plain (delete_all s))|by apply Hp].
  - destruct (code k) as [c| | | | | | | | | |]; cbn [handle_help_key]; auto; try by apply Hp.
    destruct (is_char _ _); [by apply Hp|done].
Qed.
Lemma settled_focus f s : settled s → settled (s <| focus := f |>).
Proof. intros. by apply (settled_plain s). Qed.
Lemma settled_mouse m s : settled s → settled (handle_mouse m s).
Proof.
  intros Hs. assert (Hm : settled (selecting select_next s) ∧ settled (selecting select_prev s)) by auto.
  destruct Hm. unfold handle_mouse. cbv zeta.
  destruct (kind m); [|destruct (contains _ _); [auto|destruct (contains _ _); auto]..|done].
  destruct (contains (tab_area (screen s)) m).
  { apply settled_focus. destruct (clicked_tab _ _ _ _) as [[]|]; auto. }
  destruct (contains (list_table_area (screen s)) m); [apply settled_move; [auto|by apply settled_focus]|].
  destruct (contains (list_area (screen s)) m); [by apply settled_focus|].
  destruct (contains (preview_area (screen s)) m); [by apply settled_focus|done].
Qed.

Lemma settled_fetched g resp s : settled s → settled (handle_messages_fetched g (Ok resp) s).
Proof.
  intros Hs. unfold handle_messages_fetched. destruct (negb _); [done|]. cbv zeta.
  destruct (reanchor_selection _ _) as [moved l].
  match goal with |- settled (if _ || negb (preview_matches_selection ?x) then _ else _) =>
    destruct (moved || negb (preview_matches_selection x)) eqn:Hb; [apply settled_retarget|] end.
  apply orb_false_iff in Hb as [_ Hb]. apply negb_false_iff, bool_decide_eq_true in Hb. intros _. by left.
Qed.
Lemma settled_preview_loaded r i u d s : settled s → settled (handle_preview_loaded r i u (Ok d) s).
Proof.
  intros Hs. unfold handle_preview_loaded. destruct (_ || _) eqn:Hc; [done|]. cbv zeta.
  apply orb_false_iff in Hc as [_ Hi]. apply negb_false_iff in Hi.
  assert (Hf : ∀ s', lists s' = lists s → last_preview_id (pane s') = Some i → settled s').
  { intros s' Hl Hp _. left. rewrite Hl, Hp. unfold is_selected, selected_id in *.
    destruct (selected_message (lists s)) as [m|]; [|done]. apply has_id_spec in Hi. simpl. by rewrite Hi. }
  destruct u; by apply Hf.
Qed.
Lemma settled_raw_loaded t r i z res s : settled s → settled (handle_raw_loaded t r i z res s).
Proof.
  intros Hs. unfold handle_raw_loaded. destruct (_ || _); [done|]. cbv zeta.
  destruct res; [destruct t|]; same s.
Qed.
Lemma settled_delta e s : settled s → settled (handle_delta e s).
Proof.
  intros Hs. destruct e as [m|i|i v|i v|i v|]; cbn [handle_delta].
  - destruct (is_listed _ _); [done|]. destruct (nonempty _); [same s|]. cbv zeta.
    destruct (_ =? _)%Z; [|same s]. apply settled_restore; [same s|done].
  - cbv zeta. assert (Ht : ∀ f, (∀ l, loading (f l) = loading l ∧ messages (f l) = messages l ∧ selected (f l) = selected l) →
      settled (on_lists f s)).
    { intros f Hf. destruct (Hf (lists s)) as (Hl & Hm & Hse). same s; [simpl; by rewrite Hl|].
      apply selected_id_map; [simpl; by rewrite Hm|done]. }
    destruct (position _ _); [apply settled_restore; [|done]|]; destruct (_ || _); by apply Ht.
  - by apply settled_update.
  - by apply settled_update.
  - by apply settled_update.
  - by apply settled_restore.
Qed.

(** The answers of the server, errors apart. *)
Definition answered (e : Event) : Prop :=
  match e with
  | MessagesFetched _ (Err _) | PreviewLoaded _ _ _ (Err _) => False
  | _ => True
  end.
Lemma settled_dispatch `{Frames} e s : answered e → settled s → settled (dispatch e s).
Proof.
  intros Ha Hs. destruct e as [k|m| | |text|c| |g res|r i u res|t r i z res|i rd st res|i res|res]; simpl;
    auto using settled_key, settled_mouse, settled_raw_loaded.
  - unfold refetch_if_stale. destruct (_ && _); [apply settled_fetch|]. unfold on_tick, expire_error. cbv zeta.
    assert (Hp : ∀ s', lists s' = lists s → pane s' = pane s → requests s' = requests s → settled s')
      by (intros; by apply (settled_plain s)).
    repeat case_match; by apply Hp.
  - unfold handle_ws_message. destruct (parse_frame text); [|done]. apply settled_delta. destruct (loading _); [same s|done].
  - unfold handle_ws_status. cbv zeta. destruct (_ && _); [apply settled_fetch|]. same s.
  - unfold handle_ws_overflow. same s; simpl; by destruct (loading (lists s)).
  - destruct res; [by apply settled_fetched|done].
  - destruct res; [by apply settled_preview_loaded|done].
  - destruct res; [|done]. apply settled_update; [|done]. intros m. unfold patch. by destruct rd, st.
  - destruct res; [|done]. by apply settled_restore.
  - destruct res; [|done]. by apply settled_restore.
Qed.
Lemma settled_drain `{Frames} es s : Forall answered es → settled s → settled (drain es s).
Proof.
  intros Ha. revert s. induction Ha as [|e es He _ IH]; intros s Hs; simpl; [done|].
  destruct (running s); auto using settled_dispatch.
Qed.
Lemma settled_event_loop `{Frames} ts s :
  Forall (λ t, Forall answered (found t)) ts → settled s → settled (event_loop ts s).
Proof.
  intros Ha. revert s. induction Ha as [|t ts Ht _ IH]; intros s Hs; cbn [event_loop]; [done|].
  destruct (running s); [|done]. cbv zeta.
  assert (Hd : settled (drain (found t) (s <| now := now s + waited t |>))) by (apply settled_drain; [done|]; same s).
  destruct (running _); [|done]. apply IH. by same (drain (found t) (s <| now := now s + waited t |>)).
Qed.

(** ** Properties *)

(** C38: invariant. As long as no list fetch and no preview is answered with an error,
    then after any sequence of keys, clicks, announcements and answers, in any
    order, and whenever no list fetch is in flight, the message previewed is the one
    under the cursor, or that one has been asked for and its answer is awaited. *)
Theorem preview_follows_cursor `{Frames} url turns :
  Forall (λ t, Forall answered (found t)) turns →
  let s := run url turns in
  loading (lists s) = false →
  last_preview_id (pane s) = selected_id (lists s) ∨
  ∃ r i u, pending_preview (pane s) = Some r ∧ selected_id (lists s) = Some i ∧ GetMessage r i u ∈ requests s.
Proof. intros Ha s. apply settled_event_loop; [done|]. apply settled_fetch. Qed.

(** A frame is the letter of its event and an id. *)
#[local] Instance plain_frames : Frames := λ text,
  match text with
  | "c"%char :: _ => Some MessagesClear
  | "d"%char :: i => Some (MessageDelete i)
  | _ => None
  end.
Definition mail (i : bytes) : MessageSummary :=
  {| id := i; sender := b#"a@example"; recipients := []; subject := None; size := 9; has_attachments := false;
     is_read := true; is_starred := false; tags := []; created_at := [] |}.
Definition press (c : bytes) : Event := Key {| code := Char c; control := false |}.
Definition turn_of (es : list Event) : Turn :=
  {| waited := 100; found := es; drawn := screen (new []); text_end := 10 |}.
Definition fetched (g : nat) (ids : list bytes) : Event :=
  MessagesFetched g (Ok {| page := map mail ids; page_total := Z.of_nat (length ids) |}).
Definition detail (i : bytes) : Message := {| summary := mail i; text_body := None; html_body := None |}.
Definition two_mails : list Turn :=
  [turn_of [fetched 1 [b#"a"; b#"b"]]; turn_of [PreviewLoaded 1 b#"a" false (Ok (detail b#"a")); WsStatus true];
   turn_of [WsMessage b#"da"; press b#"j"]].
Lemma preview_follows_cursor_witness :
  let s := run b#"http://localhost:8025" two_mails in
  loading (lists s) = false ∧
  (last_preview_id (pane s) = selected_id (lists s) ∨
   ∃ r i u, pending_preview (pane s) = Some r ∧ selected_id (lists s) = Some i ∧ GetMessage r i u ∈ requests s).
Proof. split; [reflexivity|]. apply (preview_follows_cursor _ two_mails); [repeat constructor|reflexivity]. Defined.
Lemma two_mails_previewed :
  let s := run b#"http://localhost:8025" two_mails in
  loading (lists s) = false ∧ selected_id (lists s) = Some b#"b" ∧ pending_preview (pane s) = Some 2.
Proof. repeat split. Qed.

(** A fetch that fails does not settle the preview: the message under the cursor
    was deleted while it was in flight, and its preview stays. *)
Example failed_fetch_leaves_preview :
  let s := run [] [turn_of [fetched 1 [b#"a"; b#"b"]; PreviewLoaded 1 b#"a" false (Ok (detail b#"a")); WsStatus true;
                            WsStatus false; WsStatus true; WsMessage b#"da"; MessagesFetched 2 (Err b#"timeout")]] in
  (loading (lists s), selected_id (lists s), last_preview_id (pane s), pending_preview (pane s)) =
    (false, Some b#"b", Some b#"a", None).
Proof. vm_compute. reflexivity. Qed.
(** Emptying the list while a preview is loading leaves the spinner on: its answer
    is discarded, and nothing else turns it off. *)
Example spinner_stays_on :
  let s := run [] [turn_of [fetched 1 [b#"a"]; WsMessage b#"c"; PreviewLoaded 1 b#"a" false (Ok (detail b#"a"))]] in
  (preview_loading (pane s), pending_preview (pane s), messages (lists s)) = (true, None, []).
Proof. vm_compute. reflexivity. Qed.
(** The first connection to the server does not fetch again, also when the fetch at
    the start found no server: the list stays empty until something else asks. *)
Example first_connection_does_not_fetch :
  let s := run [] [turn_of [WsStatus false; MessagesFetched 1 (Err b#"refused")];
                   turn_of [WsStatus false; WsStatus true; Tick]] in
  (requests s, view_stale (lists s), ws_connected s) = ([ListMessages None 50 0 1], false, true).
Proof. vm_compute. reflexivity. Qed.
