(* ===== verification/TuiReplay.v ===== *)
(** The terminal client's view against the mailbox it shows: what a list fetch
    returns, what was announced while it was in flight, and what is announced
    after. *)
From S2P Require Import Prelude RustStd TuiState TuiApp TuiLists TuiSafety TuiPreview.

(** ** The mailbox: an abstract specification

    The messages the server holds, the newest first, and what each announcement
    did to them. *)

Definition update1 (d : WsEvent) (m : MessageSummary) : MessageSummary :=
  match d with
  | MessageRead i v => if has_id i m then m <| is_read := v |> else m
  | MessageStarred i v => if has_id i m then m <| is_starred := v |> else m
  | MessageTags i v => if has_id i m then m <| tags := v |> else m
  | _ => m
  end.
Definition announce (d : WsEvent) (t : list MessageSummary) : list MessageSummary :=
  match d with
  | MessageNew m => m :: t
  | MessageDelete i => List.filter (λ m, negb (has_id i m)) t
  | MessagesClear => []
  | _ => map (update1 d) t
  end.
Definition mailbox (ds : list WsEvent) (t : list MessageSummary) : list MessageSummary :=
  fold_left (λ t d, announce d t) ds t.

(** The view is the top of the mailbox, and counts all of it. *)
Definition tracks (l : ListView) (t : list MessageSummary) : Prop :=
  messages l `prefix_of` t ∧ total l = Z.of_nat (length t).

(** ** What a sequence of announcements comes to *)

Definition new_id (d : WsEvent) : option bytes := match d with MessageNew m => Some (id m) | _ => None end.
Definition new_ids (ds : list WsEvent) : list bytes := omap new_id ds.
(** The message an announcement other than an arrival is about. *)
Definition about (d : WsEvent) : option bytes :=
  match d with
  | MessageDelete i | MessageRead i _ | MessageStarred i _ | MessageTags i _ => Some i
  | MessageNew _ | MessagesClear => None
  end.
Definition deleted (ds : list WsEvent) : list bytes :=
  omap (λ d, match d with MessageDelete i => Some i | _ => None end) ds.
Definition is_deleted (ds : list WsEvent) (m : MessageSummary) : bool := bool_decide (id m ∈ deleted ds).

(** The last value announced for a message. *)
Fixpoint last_write {A} (f : WsEvent → option A) (ds : list WsEvent) : option A :=
  match ds with
  | [] => None
  | d :: ds => match last_write f ds with Some v => Some v | None => f d end
  end.
Definition read_of (i : bytes) (d : WsEvent) := match d with MessageRead j v => if beqb i j then Some v else None | _ => None end.
Definition star_of (i : bytes) (d : WsEvent) := match d with MessageStarred j v => if beqb i j then Some v else None | _ => None end.
Definition tags_of (i : bytes) (d : WsEvent) := match d with MessageTags j v => if beqb i j then Some v else None | _ => None end.
Definition touch (ds : list WsEvent) (m : MessageSummary) : MessageSummary :=
  m <| is_read := default (is_read m) (last_write (read_of (id m)) ds) |>
    <| is_starred := default (is_starred m) (last_write (star_of (id m)) ds) |>
    <| tags := default (tags m) (last_write (tags_of (id m)) ds) |>.
(** The arrivals that outlive the sequence, the newest first. *)
Fixpoint arrivals (ds : list WsEvent) : list MessageSummary :=
  match ds with
  | [] => []
  | d :: ds => arrivals ds ++ match d with
                              | MessageNew m => if is_deleted ds m then [] else [touch ds m]
                              | _ => []
                              end
  end.
Definition no_clear (ds : list WsEvent) : Prop := MessagesClear ∉ ds.

Lemma id_touch ds m : id (touch ds m) = id m. Proof. done. Qed.
Lemma id_update1 d m : id (update1 d m) = id m.
Proof. destruct d; simpl; try done; by destruct (has_id _ _). Qed.
Lemma has_id_sym i m : has_id i m = beqb (id m) i. Proof. done. Qed.
Lemma touch_nil m : touch [] m = m. Proof. by destruct m. Qed.
Lemma touch_cons d ds m : touch ds (update1 d m) = touch (d :: ds) m.
Proof.
  destruct m as [i ? ? ? ? ? r st tg ?]. unfold touch. rewrite id_update1.
  destruct d as [|j|j v|j v|j v|]; simpl; unfold has_id; simpl; try destruct (beqb i j);
    by destruct (last_write (read_of i) ds), (last_write (star_of i) ds), (last_write (tags_of i) ds).
Qed.
Lemma touch_idem ds m : touch ds (touch ds m) = touch ds m.
Proof.
  destruct m as [i ? ? ? ? ? r st tg ?]. unfold touch. simpl.
  by destruct (last_write (read_of i) ds), (last_write (star_of i) ds), (last_write (tags_of i) ds).
Qed.
Lemma last_write_app {A} (f : WsEvent → option A) ds1 ds2 :
  last_write f (ds1 ++ ds2) = match last_write f ds2 with Some v => Some v | None => last_write f ds1 end.
Proof.
  induction ds1 as [|d ds1 IH]; simpl; [by destruct (last_write f ds2)|]. rewrite IH. by destruct (last_write f ds2).
Qed.
Lemma last_write_none {A} (f : WsEvent → option A) ds : (∀ d, d ∈ ds → f d = None) → last_write f ds = None.
Proof.
  intros Hf. induction ds as [|d ds IH]; simpl; [done|]. rewrite IH, Hf; [done|by left|].
  intros x Hx. apply Hf. by right.
Qed.
(** What was announced of others before a message does not touch it. *)
Lemma touch_before ds1 ds2 m :
  (∀ d, d ∈ ds1 → about d ≠ Some (id m)) → touch (ds1 ++ ds2) m = touch ds2 m.
Proof.
  intros Ha. unfold touch. rewrite !last_write_app.
  assert (last_write (read_of (id m)) ds1 = None ∧ last_write (star_of (id m)) ds1 = None ∧
    last_write (tags_of (id m)) ds1 = None) as (-> & -> & ->).
  { split_and!; apply last_write_none; intros d Hd%Ha; destruct d as [|j|j v|j v|j v|]; simpl in *; try done;
      destruct (beqb (id m) j) eqn:He; try done; apply beqb_spec in He; congruence. }
  by destruct (last_write (read_of (id m)) ds2), (last_write (star_of (id m)) ds2), (last_write (tags_of (id m)) ds2).
Qed.

Lemma deleted_cons d ds m :
  is_deleted (d :: ds) m = is_deleted ds m || match d with MessageDelete i => has_id i m | _ => false end.
Proof.
  unfold is_deleted. destruct d as [|i|i v|i v|i v|]; csimpl; rewrite ?orb_false_r; try done.
  apply eq_true_iff_eq. rewrite orb_true_iff, !bool_decide_eq_true, has_id_spec, elem_of_cons. naive_solver.
Qed.
Lemma is_deleted_id ds m m' : id m = id m' → is_deleted ds m = is_deleted ds m'.
Proof. unfold is_deleted. by intros ->. Qed.
Lemma filter_map_comm {A B} (p : B → bool) (q : A → bool) (f : A → B) l :
  (∀ x, p (f x) = q x) → List.filter p (map f l) = map f (List.filter q l).
Proof. intros Hp. induction l as [|x l IH]; simpl; [done|]. rewrite Hp. destruct (q x); simpl; by rewrite IH. Qed.
Lemma filter_filter_bool {A} (p q r : A → bool) l :
  (∀ x, r x = p x && q x) → List.filter p (List.filter q l) = List.filter r l.
Proof.
  intros Hr. induction l as [|x l IH]; simpl; [done|]. rewrite Hr. destruct (q x); simpl.
  - destruct (p x); simpl; by rewrite IH.
  - by rewrite andb_false_r.
Qed.

(** A mailbox that is not cleared: what arrived and lived, on top of what was there
    and was not deleted, with the last value announced in every field. *)
Lemma mailbox_split ds t : no_clear ds →
  mailbox ds t = arrivals ds ++ map (touch ds) (List.filter (λ m, negb (is_deleted ds m)) t).
Proof.
  revert t. induction ds as [|d ds IH]; intros t Hc.
  - simpl. induction t as [|m t IHt]; [done|]. simpl. by rewrite touch_nil, <- IHt.
  - unfold no_clear in Hc. apply not_elem_of_cons in Hc as [Hd Hc].
    unfold mailbox. simpl. change (mailbox ds (announce d t) = (arrivals ds ++
      match d with MessageNew m => if is_deleted ds m then [] else [touch ds m] | _ => [] end) ++
      map (touch (d :: ds)) (List.filter (λ m, negb (is_deleted (d :: ds) m)) t)).
    rewrite IH by done. rewrite <- app_assoc. f_equal.
    assert (Hmap : ∀ l, map (touch (d :: ds)) l = map (touch ds) (map (update1 d) l)).
    { intros l. rewrite map_map. apply map_ext. intros m. by rewrite touch_cons. }
    rewrite Hmap.
    assert (Hsame : (∀ m, is_deleted (d :: ds) m = is_deleted ds m) →
      map (touch ds) (List.filter (λ m, negb (is_deleted ds m)) (map (update1 d) t)) =
      map (touch ds) (map (update1 d) (List.filter (λ m, negb (is_deleted (d :: ds) m)) t))).
    { intros He. f_equal. apply filter_map_comm. intros m. rewrite He.
      by rewrite (is_deleted_id ds (update1 d m) m) by apply id_update1. }
    destruct d as [m|i|i v|i v|i v|]; try done.
    + simpl. rewrite map_id. destruct (is_deleted ds m); simpl; [done|]. done.
    + simpl. rewrite map_id. f_equal. apply filter_filter_bool. intros m.
      rewrite deleted_cons. by rewrite negb_orb.
    + apply Hsame. intros m. by rewrite deleted_cons, orb_false_r.
    + apply Hsame. intros m. by rewrite deleted_cons, orb_false_r.
    + apply Hsame. intros m. by rewrite deleted_cons, orb_false_r.
Qed.

(** ** Sequences a server may announce

    Ids are never used twice, and what is announced of a message follows its
    arrival. *)
Fixpoint valid (used : list bytes) (ds : list WsEvent) : Prop :=
  match ds with
  | [] => True
  | MessageNew m :: ds => id m ∉ used ∧ valid (id m :: used) ds
  | d :: ds => (∀ i, about d = Some i → i ∈ used) ∧ valid used ds
  end.

Lemma valid_sub used used' ds : (∀ i, i ∈ used ↔ i ∈ used') → valid used ds → valid used' ds.
Proof.
  revert used used'. induction ds as [|d ds IH]; intros used used' Hu; [done|].
  destruct d; simpl; (intros [H1 H2]; split; [|eapply IH; [|exact H2]]); try set_solver.
Qed.
Lemma valid_app used ds1 ds2 : valid used (ds1 ++ ds2) → valid used ds1 ∧ valid (new_ids ds1 ++ used) ds2.
Proof.
  revert used. induction ds1 as [|d ds1 IH]; intros used; [done|].
  assert (Hnew : ∀ m, id m ∉ used ∧ valid (id m :: used) (ds1 ++ ds2) →
    (id m ∉ used ∧ valid (id m :: used) ds1) ∧ valid (id m :: new_ids ds1 ++ used) ds2).
  { intros m [Hn [H1 H2]%IH]. split_and!; [done..|]. eapply valid_sub; [|exact H2]. set_solver. }
  destruct d; simpl; try apply Hnew; intros [Ha [H1 H2]%IH]; by split_and!.
Qed.
Lemma valid_fresh used ds : valid used ds → NoDup (new_ids ds) ∧ ∀ i, i ∈ new_ids ds → i ∉ used.
Proof.
  revert used. induction ds as [|d ds IH]; intros used; simpl; [intros _; split; [constructor|set_solver]|].
  destruct d as [m|i|i v|i v|i v|]; csimpl; intros [Hn [Hd Hf]%IH]; try by split.
  split; [constructor; [|done]; intros Hin%Hf; set_solver|]. intros i [->|Hi]%elem_of_cons; [done|].
  apply Hf in Hi. set_solver.
Qed.
Lemma valid_about used ds d i : valid used ds → d ∈ ds → about d = Some i → i ∈ used ∨ i ∈ new_ids ds.
Proof.
  revert used. induction ds as [|d' ds IH]; intros used Hv Hd Ha; [by apply elem_of_nil in Hd|].
  apply elem_of_cons in Hd as [->|Hd].
  - destruct d' as [m|j|j v|j v|j v|]; try done; destruct Hv as [Hv _]; left; auto.
  - destruct d' as [m|j|j v|j v|j v|]; destruct Hv as [Hu Hv]; csimpl;
      destruct (IH _ Hv Hd Ha); set_solver.
Qed.
Lemma new_ids_app ds1 ds2 : new_ids (ds1 ++ ds2) = new_ids ds1 ++ new_ids ds2.
Proof. apply omap_app. Qed.
Lemma deleted_app ds1 ds2 : deleted (ds1 ++ ds2) = deleted ds1 ++ deleted ds2.
Proof. apply omap_app. Qed.
Lemma deleted_about ds i : i ∈ deleted ds → ∃ d, d ∈ ds ∧ about d = Some i.
Proof.
  intros (d & Hd & Hi)%list_elem_of_omap. exists d. split; [done|]. by destruct d.
Qed.

(** Nothing was announced of a message before it arrived. *)
Lemma valid_before used a m b : valid used (a ++ MessageNew m :: b) → ∀ d, d ∈ a → about d ≠ Some (id m).
Proof.
  intros Hv d Hd Ha. apply valid_app in Hv as [Hva [Hn _]].
  destruct (valid_about _ _ _ _ Hva Hd Ha); set_solver.
Qed.

Lemma arrivals_app ds1 ds2 : ∃ l, arrivals (ds1 ++ ds2) = arrivals ds2 ++ l ∧ ∀ m, m ∈ l → id m ∈ new_ids ds1.
Proof.
  induction ds1 as [|d ds1 (l & Hl & Hin)]; [exists []; split; [by rewrite app_nil_r|set_solver]|]. simpl.
  rewrite Hl, <- app_assoc. eexists. split; [done|]. intros m [Hm|Hm]%elem_of_app.
  - apply Hin in Hm. destruct d; csimpl; set_solver.
  - destruct d as [m'|i|i v|i v|i v|]; csimpl; try by apply elem_of_nil in Hm.
    destruct (is_deleted _ m'); [by apply elem_of_nil in Hm|]. apply list_elem_of_singleton in Hm as ->. left.
Qed.
Lemma arrivals_elem ds m : m ∈ arrivals ds →
  ∃ a m0 b, ds = a ++ MessageNew m0 :: b ∧ m = touch b m0 ∧ is_deleted b m0 = false.
Proof.
  induction ds as [|d ds IH]; simpl; [by intros ?%elem_of_nil|]. intros [Hm|Hm]%elem_of_app.
  - apply IH in Hm as (a & m0 & b & -> & Hm). by exists (d :: a), m0, b.
  - destruct d as [m'|i|i v|i v|i v|]; try by apply elem_of_nil in Hm.
    destruct (is_deleted ds m') eqn:Hd; [by apply elem_of_nil in Hm|]. apply list_elem_of_singleton in Hm as ->.
    by exists [], m', ds.
Qed.

(** ** The mailbox at the snapshot *)

Section snapshot.
Variables (used : list bytes) (t0 : list MessageSummary) (pre : list WsEvent).
Hypotheses (Hv : valid used pre) (Hc : no_clear pre) (Hu : ∀ m, m ∈ t0 → id m ∈ used).
Let t1 := mailbox pre t0.

Lemma snapshot_elem m : m ∈ t1 →
  (∃ a m0 b, pre = a ++ MessageNew m0 :: b ∧ m = touch b m0 ∧ is_deleted b m0 = false) ∨
  (∃ m0, m0 ∈ t0 ∧ m = touch pre m0 ∧ is_deleted pre m0 = false).
Proof.
  unfold t1. rewrite mailbox_split by done. intros [Hm%arrivals_elem|Hm]%elem_of_app; [by left|right].
  apply list_elem_of_In, in_map_iff in Hm as (m0 & <- & [Hm Hd]%filter_In). exists m0.
  split_and!; [by apply list_elem_of_In|done|by apply negb_true_iff in Hd].
Qed.
(** What was announced before the snapshot is in it already. *)
Lemma snapshot_settled m : m ∈ t1 → is_deleted pre m = false ∧ touch pre m = m.
Proof.
  intros [(a & m0 & b & Hp & -> & Hd)|(m0 & _ & -> & Hd)]%snapshot_elem; [|by rewrite touch_idem].
  assert (Hb : ∀ d, d ∈ a → about d ≠ Some (id m0)) by (eapply valid_before; rewrite <- Hp; exact Hv).
  split.
  - rewrite (is_deleted_id pre (touch b m0) m0) by done. apply bool_decide_eq_false.
    rewrite Hp, deleted_app. csimpl. apply bool_decide_eq_false in Hd. rewrite elem_of_app.
    intros [(d & Hd1 & Hd2)%deleted_about|?]; [by eapply Hb|done].
  - rewrite Hp, touch_before by done. rewrite <- touch_cons. apply touch_idem.
Qed.
Lemma mailbox_settled ds : no_clear ds → arrivals ds = [] → deleted ds = deleted pre →
  (∀ m, touch ds m = touch pre m) → mailbox ds t1 = t1.
Proof.
  intros Hds Ha Hd Ht. rewrite mailbox_split, Ha by done. simpl.
  assert (Hall : ∀ m, m ∈ t1 → is_deleted ds m = false ∧ touch ds m = m).
  { intros m Hm. unfold is_deleted. rewrite Hd, Ht. by apply snapshot_settled. }
  clear -Hall. induction t1 as [|m t IH]; simpl; [done|].
  destruct (Hall m) as [-> Htm]; [by left|]. simpl. rewrite Htm, IH; [done|]. intros x Hx. apply Hall. by right.
Qed.

(** *** The announcements that are replayed onto the page *)

Fixpoint unlisted (through : option nat) (n : nat) (ds : list WsEvent) : list WsEvent :=
  match ds with
  | [] => []
  | d :: ds =>
    let in_snapshot := match through with Some last => n <=? last | None => false end in
    match d with
    | MessageNew _ => if in_snapshot then unlisted through (S n) ds else d :: unlisted through (S n) ds
    | _ => d :: unlisted through (S n) ds
    end
  end.
Lemma unlisted_deleted t n ds : deleted (unlisted t n ds) = deleted ds.
Proof.
  revert n. induction ds as [|d ds IH]; intros n; [done|].
  destruct d; csimpl; rewrite ?IH; try done. destruct (match t with Some _ => _ | None => _ end); csimpl; by rewrite IH.
Qed.
Lemma unlisted_write {A} (f : WsEvent → option A) t n ds :
  (∀ m, f (MessageNew m) = None) → last_write f (unlisted t n ds) = last_write f ds.
Proof.
  intros Hf. revert n. induction ds as [|d ds IH]; intros n; [done|].
  destruct d as [m| | | | |]; simpl; rewrite ?IH; try done.
  destruct (match t with Some _ => _ | None => _ end); simpl; rewrite IH, ?Hf; by destruct (last_write f ds).
Qed.
Lemma unlisted_touch t n ds m : touch (unlisted t n ds) m = touch ds m.
Proof. unfold touch. by rewrite !unlisted_write. Qed.
Lemma unlisted_clear t n ds : no_clear ds → no_clear (unlisted t n ds).
Proof.
  unfold no_clear. revert n. induction ds as [|d ds IH]; intros n Hn; [done|].
  apply not_elem_of_cons in Hn as [Hd Hn]. specialize (IH (S n) Hn).
  destruct d; simpl; try (apply not_elem_of_cons; by split).
  destruct (match t with Some _ => _ | None => _ end); [done|apply not_elem_of_cons; by split].
Qed.
(** Past the last listed arrival, all of them. *)
Definition past (through : option nat) (ds : list WsEvent) : list WsEvent :=
  match through with Some j => drop (S j) ds | None => ds end.
Lemma unlisted_none n ds : unlisted None n ds = ds.
Proof. revert n. induction ds as [|d ds IH]; intros n; simpl; [done|]. destruct d; by rewrite IH. Qed.
Lemma unlisted_past j n ds : j < n → unlisted (Some j) n ds = ds.
Proof.
  revert n. induction ds as [|d ds IH]; intros n Hn; simpl; [done|].
  destruct (Nat.leb_spec n j); [lia|]. destruct d; rewrite IH by lia; done.
Qed.
Lemma unlisted_arrivals t n ds : arrivals (unlisted t n ds) = arrivals (past (t ≫= λ j, if n <=? j then Some (j - n) else None) ds) ∧
  new_ids (unlisted t n ds) = new_ids (past (t ≫= λ j, if n <=? j then Some (j - n) else None) ds).
Proof.
  destruct t as [j|]; simpl; [|by rewrite unlisted_none].
  destruct (Nat.leb_spec n j) as [Hle|Hlt]; simpl; [|by rewrite unlisted_past].
  revert n Hle. induction ds as [|d ds IH]; intros n Hle; [by rewrite drop_nil|].
  assert (Hrest : arrivals (unlisted (Some j) (S n) ds) = arrivals (drop (j - n) ds) ∧
    new_ids (unlisted (Some j) (S n) ds) = new_ids (drop (j - n) ds)).
  { destruct (decide (n = j)) as [->|Hne].
    - rewrite unlisted_past by lia. by rewrite Nat.sub_diag.
    - replace (j - n) with (S (j - S n)) by lia. apply IH. lia. }
  destruct Hrest as [H1 H2]. simpl. destruct (Nat.leb_spec n j) as [_|]; [|lia].
  destruct d; csimpl; rewrite ?app_nil_r; by split.
Qed.

(** The replayed arrivals are gone again by the end, and none is in the snapshot. *)
Variables (n : nat) (post : list WsEvent).
Hypotheses (Hn : 0 < n) (Hpost : ∀ i, i ∈ new_ids post → i ∉ map id t1).
Definition listed (d : WsEvent) : bool :=
  match d with MessageNew m => is_listed (id m) (take n t1) | _ => false end.
Let through := rposition listed (pre ++ post).

Lemma through_before : ∀ j, through = Some j → j < length pre.
Proof.
  intros j Hj. destruct (le_lt_dec (length pre) j) as [Hge|]; [exfalso|done].
  apply rposition_Some in Hj as (d & Hd & Hl). rewrite lookup_app_r in Hd by done.
  destruct d as [m| | | | |]; try done. apply (Hpost (id m)).
  - apply list_elem_of_omap. exists (MessageNew m). split; [by eapply list_elem_of_lookup_2|done].
  - apply is_listed_spec in Hl. apply list_elem_of_fmap in Hl as (m' & -> & Hm'). apply list_elem_of_fmap_2.
    rewrite <- (take_drop n t1). apply elem_of_app. by left.
Qed.
Lemma past_not_listed d : d ∈ past through pre → listed d = false.
Proof.
  intros Hd. unfold past in Hd. destruct through as [j|] eqn:Hj.
  - apply list_elem_of_lookup in Hd as (k & Hk). rewrite lookup_drop in Hk.
    eapply (rposition_last listed (pre ++ post) j (S j + k)); [done| |lia].
    rewrite lookup_app_l; [done|]. by apply lookup_lt_Some in Hk.
  - apply (proj1 (rposition_None listed (pre ++ post)) Hj). apply elem_of_app. by left.
Qed.
Lemma pre_past : ∃ a, pre = a ++ past through pre.
Proof.
  unfold past. destruct through as [j|]; [exists (take (S j) pre); by rewrite take_drop|by exists []].
Qed.
Lemma past_gone : arrivals (past through pre) = [].
Proof.
  destruct (arrivals (past through pre)) as [|h l] eqn:Ha; [done|exfalso].
  assert (Hh : h ∈ arrivals (past through pre)) by (rewrite Ha; by left).
  apply arrivals_elem in Hh as (a & m0 & b & Hp & -> & Hd).
  assert (Hlist : listed (MessageNew m0) = false).
  { apply past_not_listed. rewrite Hp. apply elem_of_app. right. by left. }
  simpl in Hlist. apply is_listed_false in Hlist. apply Hlist.
  destruct pre_past as [a' Hpre]. destruct (arrivals_app a' (past through pre)) as (l' & Hl' & _).
  rewrite <- Hpre, Ha in Hl'. unfold t1. rewrite mailbox_split, Hl' by done.
  destruct n as [|n']; [lia|]. simpl. left.
Qed.
Lemma past_fresh i : i ∈ new_ids (past through pre) → i ∉ map id t1.
Proof.
  intros Hi Hin. destruct pre_past as [a Hpre].
  destruct (valid_fresh _ _ Hv) as [Hnd Hf].
  apply list_elem_of_fmap in Hin as (m & -> & Hm). unfold t1 in Hm. rewrite mailbox_split in Hm by done.
  apply elem_of_app in Hm as [Hm|Hm].
  - destruct (arrivals_app a (past through pre)) as (l & Hl & Hal). rewrite <- Hpre, past_gone in Hl.
    rewrite Hl in Hm. apply Hal in Hm. rewrite Hpre, new_ids_app in Hnd.
    apply NoDup_app in Hnd as (_ & Hdis & _). by eapply Hdis.
  - apply list_elem_of_In, in_map_iff in Hm as (m0 & <- & [Hm _]%filter_In). rewrite id_touch in Hi.
    apply (Hf (id m0)); [rewrite Hpre, new_ids_app; apply elem_of_app; by right|]. by apply Hu, list_elem_of_In.
Qed.

(** Announcing again what came before the snapshot, its listed arrivals apart,
    changes nothing. *)
Lemma mailbox_replayed :
  mailbox (unlisted through 0 pre) t1 = t1 ∧
  NoDup (new_ids (unlisted through 0 pre)) ∧ ∀ i, i ∈ new_ids (unlisted through 0 pre) → i ∉ map id t1.
Proof.
  destruct (unlisted_arrivals through 0 pre) as [Ha Hi].
  replace (through ≫= _) with through in Ha, Hi by (destruct through; simpl; by rewrite ?Nat.sub_0_r).
  split_and!.
  - apply mailbox_settled; [by apply unlisted_clear|by rewrite Ha, past_gone|apply unlisted_deleted|].
    intros m. apply unlisted_touch.
  - rewrite Hi. destruct pre_past as [a Hpre]. destruct (valid_fresh _ _ Hv) as [Hnd _].
    rewrite Hpre, new_ids_app in Hnd. by apply NoDup_app in Hnd as (_ & _ & Hnd).
  - rewrite Hi. apply past_fresh.
Qed.
End snapshot.

(** ** The view *)

(** Arrivals that are new to the mailbox each time. *)
Lemma announce_ids d t i : i ∈ map id (announce d t) → i ∈ map id t ∨ new_id d = Some i.
Proof.
  assert (Hup : ∀ d, map id (map (update1 d) t) = map id t).
  { intros d'. rewrite map_map. apply map_ext. intros m. apply id_update1. }
  destruct d as [m|j|j v|j v|j v|]; cbn [announce new_id]; rewrite ?Hup; auto.
  - intros [->|?]%elem_of_cons; auto.
  - intros (m & -> & [Hm _]%list_elem_of_In%filter_In)%list_elem_of_fmap. left.
    by apply list_elem_of_fmap_2, list_elem_of_In.
  - intros Hi. by apply elem_of_nil in Hi.
Qed.
Lemma mailbox_ids ds t i : i ∈ map id (mailbox ds t) → i ∈ map id t ∨ i ∈ new_ids ds.
Proof.
  revert t. induction ds as [|d ds IH]; intros t Hi; [by left|]. simpl in Hi. apply IH in Hi as [Hi|Hi].
  - apply announce_ids in Hi as [Hi|Hi]; [by left|right]. csimpl. rewrite Hi. left.
  - right. csimpl. destruct (new_id d); [by right|done].
Qed.
Lemma announce_nodup d t : NoDup (map id t) → (∀ i, new_id d = Some i → i ∉ map id t) → NoDup (map id (announce d t)).
Proof.
  intros Hnd Hf.
  assert (Hup : ∀ d, map id (map (update1 d) t) = map id t).
  { intros d'. rewrite map_map. apply map_ext. intros m. apply id_update1. }
  destruct d as [m|j|j v|j v|j v|]; cbn [announce]; rewrite ?Hup; try done.
  - constructor; [by apply Hf|done].
  - clear -Hnd. induction t as [|m t IH]; [done|]. apply NoDup_cons in Hnd as [Hm Hnd]. simpl.
    destruct (negb _); simpl; [|by apply IH]. constructor; [|by apply IH].
    intros (x & Hx & [Hin _]%list_elem_of_In%filter_In)%list_elem_of_fmap. apply Hm. rewrite Hx.
    by apply list_elem_of_fmap_2, list_elem_of_In.
  - constructor.
Qed.
Lemma fresh_next d ds t : NoDup (new_ids (d :: ds)) → (∀ i, i ∈ new_ids (d :: ds) → i ∉ map id t) →
  NoDup (new_ids ds) ∧ (∀ i, i ∈ new_ids ds → i ∉ map id (announce d t)) ∧ (∀ i, new_id d = Some i → i ∉ map id t).
Proof.
  intros Hnd Hf. split_and!.
  - destruct d; csimpl; try done. by apply NoDup_cons in Hnd as [_ ?].
  - intros i Hi Hin. apply announce_ids in Hin as [Hin|Hin].
    + eapply Hf; [|exact Hin]. destruct d; csimpl; try done. by right.
    + destruct d; csimpl; try done. injection Hin as <-. by apply NoDup_cons in Hnd as [? _].
  - intros i Hi. apply Hf. destruct d; simplify_eq/=. csimpl. left.
Qed.

Lemma position_prefix i l t : l `prefix_of` t → NoDup (map id t) →
  match position (has_id i) l with
  | Some p => remove_at p l `prefix_of` List.filter (λ m, negb (has_id i m)) t ∧
      length t = S (length (List.filter (λ m, negb (has_id i m)) t))
  | None => True
  end.
Proof.
  intros Hp Hnd. destruct (position (has_id i) l) as [p|] eqn:Hpos; [|done].
  apply position_Some in Hpos as (m & Hm & Hid & Hbefore).
  assert (Hno : ∀ xs, (∀ y, y ∈ xs → has_id i y = false) → List.filter (λ m, negb (has_id i m)) xs = xs).
  { induction xs as [|y xs IH]; intros Hxs; simpl; [done|]. rewrite Hxs by by left. simpl. f_equal.
    apply IH. intros z Hz. apply Hxs. by right. }
  destruct Hp as [rest ->]. pose proof (take_drop_middle l p m Hm) as Hl.
  assert (Hafter : ∀ y, y ∈ drop (S p) l ++ rest → has_id i y = false).
  { intros y Hy. apply not_true_iff_false. intros Hy'%has_id_spec. apply has_id_spec in Hid.
    rewrite <- Hl, <- app_assoc, map_app in Hnd. apply NoDup_app in Hnd as (_ & _ & Hnd). simpl in Hnd.
    apply NoDup_cons in Hnd as [Hn _]. apply Hn. rewrite Hid, <- Hy'. by apply list_elem_of_fmap_2. }
  assert (Hf : List.filter (λ m, negb (has_id i m)) (l ++ rest) = remove_at p l ++ rest).
  { rewrite <- Hl at 1. rewrite <- app_assoc, List.filter_app, (Hno (take p l)) by done. simpl. rewrite Hid. simpl.
    rewrite Hno by done. unfold remove_at. by rewrite <- app_assoc. }
  rewrite Hf. split; [by eexists|]. rewrite <- Hl at 1. unfold remove_at. rewrite !length_app. simpl. lia.
Qed.
Lemma update_prefix d i f l t :
  (∀ m, update1 d m = if has_id i m then f m else m) → l `prefix_of` t → NoDup (map id t) →
  update_first i f l `prefix_of` map (update1 d) t.
Proof.
  intros Hd [rest ->] Hnd. rewrite map_app in Hnd. apply NoDup_app in Hnd as (Hnd & _ & _).
  exists (map (update1 d) rest). rewrite map_app. f_equal. induction l as [|m l IH]; simpl; [done|].
  apply NoDup_cons in Hnd as [Hm Hnd]. rewrite Hd. destruct (has_id i m) eqn:Hi.
  - f_equal. rewrite <- (map_id l) at 2. apply map_ext_in. intros x Hx%list_elem_of_In. rewrite Hd.
    replace (has_id i x) with false; [done|]. symmetry. apply not_true_iff_false. intros Hx'%has_id_spec.
    apply has_id_spec in Hi. apply Hm. rewrite Hi, <- Hx'. by apply list_elem_of_fmap_2.
  - by rewrite IH.
Qed.
Lemma tracks_update d l t : (∃ i, about d = Some i) → (∀ i, d ≠ MessageDelete i) →
  tracks l t → NoDup (map id t) → tracks (apply_update d l) (announce d t).
Proof.
  intros [i Ha] Hd [Hp Ht] Hnd.
  destruct d as [m|j|j v|j v|j v|]; try done; [by destruct (Hd j)|..];
    (split; [|simpl; by rewrite length_map]); simpl;
    (eapply update_prefix; [intros m; simpl; by destruct (has_id _ m)|done|done]).
Qed.
Lemma take_prefix {A} n (l t : list A) : l `prefix_of` t → take n l `prefix_of` t.
Proof. intros [k ->]. exists (drop n l ++ k). by rewrite app_assoc, take_drop. Qed.
Lemma tracks_push m l t : tracks l t → tracks (push_front m (l <| total := (total l + 1)%Z |>)) (m :: t).
Proof.
  intros [Hp Ht]. split; simpl; [|rewrite Ht; lia]. by apply take_prefix, prefix_cons.
Qed.

(** A replayed announcement is followed, or the view is known to be stale. *)
Definition tracks_or_stale (l : ListView) (t : list MessageSummary) : Prop :=
  offset l = 0%Z ∧ (view_stale l = true ∨ tracks l t).
Lemma replay_tracks d l t :
  tracks_or_stale l t → NoDup (map id t) → (∀ i, new_id d = Some i → i ∉ map id t) →
  tracks_or_stale (replay_delta [] d l) (announce d t).
Proof.
  intros [Ho Hs] Hnd Hf. destruct d as [m|i|i v|i v|i v|].
  - cbn [replay_delta announce]. destruct (is_listed (id m) (messages l)) eqn:Hl.
    { split; [done|]. destruct Hs as [?|[Hp _]]; [by left|exfalso]. apply is_listed_spec in Hl.
      apply (Hf (id m)); [done|]. destruct Hp as [k ->]. rewrite map_app. apply elem_of_app. by left. }
    rewrite Ho. cbn [nonempty orb negb Z.eqb]. split; [done|].
    destruct Hs as [?|Ht]; [by left|right]. by apply tracks_push.
  - cbn [replay_delta announce]. destruct (position (has_id i) (messages l)) as [p|] eqn:Hp; (split; [done|]); [|by left].
    destruct Hs as [?|[Hpre Ht]]; [by left|right]. pose proof (position_prefix i _ _ Hpre Hnd) as Hpp. rewrite Hp in Hpp.
    destruct Hpp as [H1 H2]. split; [done|]. simpl. rewrite Ht. lia.
  - split; [done|]. destruct Hs as [?|?]; [by left|right]. apply tracks_update; [by eexists|done..].
  - split; [done|]. destruct Hs as [?|?]; [by left|right]. apply tracks_update; [by eexists|done..].
  - split; [done|]. destruct Hs as [?|?]; [by left|right]. apply tracks_update; [by eexists|done..].
  - split; [done|]. destruct Hs as [?|?]; [by left|right]. by split.
Qed.
Lemma replays_track ds l t :
  tracks_or_stale l t → NoDup (map id t) → NoDup (new_ids ds) → (∀ i, i ∈ new_ids ds → i ∉ map id t) →
  tracks_or_stale (fold_left (λ l d, replay_delta [] d l) ds l) (mailbox ds t) ∧ NoDup (map id (mailbox ds t)).
Proof.
  revert l t. induction ds as [|d ds IH]; intros l t Hs Hnd Hnew Hf; [done|].
  destruct (fresh_next _ _ _ Hnew Hf) as (H1 & H2 & H3). simpl. apply IH; [|by apply announce_nodup|done|done].
  by apply replay_tracks.
Qed.
Lemma replay_unlisted q t n ds l :
  replay_from q t n ds l = fold_left (λ l d, replay_delta q d l) (unlisted t n ds) l.
Proof.
  revert n l. induction ds as [|d ds IH]; intros n l; [done|].
  destruct d; simpl; rewrite IH; try done. by destruct (match t with Some _ => _ | None => _ end).
Qed.
Lemma unlisted_app t n ds1 ds2 : (∀ j, t = Some j → j < n + length ds1) →
  unlisted t n (ds1 ++ ds2) = unlisted t n ds1 ++ ds2.
Proof.
  revert n. induction ds1 as [|d ds1 IH]; intros n Ht; simpl.
  - destruct t as [j|]; [|apply unlisted_none]. apply unlisted_past. specialize (Ht j eq_refl). simpl in Ht. lia.
  - rewrite IH by (intros j Hj%Ht; simpl in *; lia).
    destruct d; try done. by destruct (match t with Some _ => _ | None => _ end).
Qed.

(** A snapshot of the mailbox, with what was announced around it. *)
Lemma snapshot_tracks used t0 pre post l :
  valid used (pre ++ post) → no_clear pre → NoDup (map id t0) → (∀ m, m ∈ t0 → id m ∈ used) →
  let t1 := mailbox pre t0 in
  offset l = 0%Z → (0 < page_size l)%Z → messages l = take (Z.to_nat (page_size l)) t1 → total l = Z.of_nat (length t1) →
  tracks_or_stale (replay_deltas [] (pre ++ post) l) (mailbox post t1) ∧ NoDup (map id (mailbox post t1)).
Proof.
  intros Hv Hc Hnd Hu t1 Ho Hpos Hm Ht.
  destruct (valid_app _ _ _ Hv) as [Hvpre Hvpost]. destruct (valid_fresh _ _ Hvpre) as [Hn1 Hf1].
  destruct (valid_fresh _ _ Hvpost) as [Hn2 Hf2].
  assert (Hnd1 : NoDup (map id t1)).
  { assert (Hd : ∀ ds t, NoDup (map id t) → NoDup (new_ids ds) → (∀ i, i ∈ new_ids ds → i ∉ map id t) →
      NoDup (map id (mailbox ds t))).
    { induction ds as [|d ds IH]; intros t H1 H2 H3; [done|]. destruct (fresh_next _ _ _ H2 H3) as (? & ? & ?).
      simpl. apply IH; [by apply announce_nodup|done|done]. }
    apply Hd; [done|done|]. intros i Hi (m & -> & Hin)%list_elem_of_fmap. by eapply Hf1, Hu. }
  assert (Hpost : ∀ i, i ∈ new_ids post → i ∉ map id t1).
  { intros i Hi Hin. apply Hf2 in Hi. apply Hi, elem_of_app. apply mailbox_ids in Hin as [(m & -> & Hin)%list_elem_of_fmap|?]; [right; auto|by left]. }
  assert (Hpg : 0 < Z.to_nat (page_size l)) by lia.
  unfold replay_deltas. rewrite Hm. rewrite replay_unlisted.
  set (through := rposition _ (pre ++ post)).
  change through with (rposition (listed t0 pre (Z.to_nat (page_size l))) (pre ++ post)) in *.
  pose proof (through_before t0 pre (Z.to_nat (page_size l)) post Hpost) as Hthr.
  destruct (mailbox_replayed used t0 pre Hvpre Hc Hu (Z.to_nat (page_size l)) post Hpg) as (Hsame & Hn3 & Hf3).
  rewrite unlisted_app by (simpl; apply Hthr). rewrite fold_left_app.
  assert (Htr : tracks_or_stale l t1).
  { split; [done|]. right. split; [|done]. rewrite Hm. apply take_prefix. by exists []; rewrite app_nil_r. }
  destruct (replays_track _ _ _ Htr Hnd1 Hn3 Hf3) as [H1 H2].
  unfold t1 in H1, H2. rewrite Hsame in H1, H2. by apply replays_track.
Qed.

(** ** Live announcements *)

(** What handling an announcement leaves of the view. *)
Record same_view (l l' : ListView) : Prop := {
  same_messages : messages l' = messages l;
  same_total : total l' = total l;
  same_offset : offset l' = offset l;
  same_stale : view_stale l' = view_stale l;
  same_loading : loading l' = loading l;
}.
Lemma load_view s : lists (load_preview s) = lists s ∧ search_query (load_preview s) = search_query s.
Proof. unfold load_preview. destruct (selected_message _); [destruct (bool_decide _)|]; done. Qed.
Lemma restore_view a s :
  same_view (lists s) (lists (restore_selection a s)) ∧ search_query (restore_selection a s) = search_query s.
Proof.
  unfold restore_selection. destruct (reanchor_selection a (lists s)) as [moved l] eqn:Hr. cbv zeta.
  assert (Hl : same_view (lists s) l) by (unfold reanchor_selection in Hr; by injection Hr as _ <-).
  destruct (_ && _); [|done]. unfold retarget_preview.
  by destruct (load_view (on_pane drop_preview (s <| lists := l |>))) as [-> ->].
Qed.

Definition watching (s : App) : Prop :=
  offset (lists s) = 0%Z ∧ search_query s = [] ∧ loading (lists s) = false.
Lemma watching_restore a f s : (∀ l, offset (f l) = offset l ∧ loading (f l) = loading l) →
  watching s → watching (restore_selection a (on_lists f s)).
Proof.
  intros Hf (Ho & Hq & Hl). destruct (restore_view a (on_lists f s)) as [[] Hq'].
  destruct (Hf (lists s)) as [Hfo Hfl]. simpl in *. split_and!; simpl; congruence.
Qed.
Lemma tracks_restore a s t : tracks (lists s) t → tracks (lists (restore_selection a s)) t.
Proof. destruct (restore_view a s) as [[Hm Ht _ _ _] _]. unfold tracks. by rewrite Hm, Ht. Qed.
Lemma stale_restore a s : view_stale (lists (restore_selection a s)) = view_stale (lists s).
Proof. by destruct (restore_view a s) as [[] _]. Qed.

Lemma filter_gone i t : i ∈ map id t → NoDup (map id t) →
  length t = S (length (List.filter (λ m, negb (has_id i m)) t)).
Proof.
  intros Hi Hnd. pose proof (position_prefix i t t) as Hp. destruct (position (has_id i) t) as [p|] eqn:Hpos.
  - by apply Hp.
  - apply list_elem_of_fmap in Hi as (m & -> & Hm). pose proof (proj1 (position_None _ _) Hpos m Hm) as Hf.
    by rewrite (proj2 (has_id_spec _ _)) in Hf.
Qed.
Lemma filter_absent i l t : l `prefix_of` t → position (has_id i) l = None →
  l `prefix_of` List.filter (λ m, negb (has_id i m)) t.
Proof.
  intros [k ->] Hn. rewrite List.filter_app. exists (List.filter (λ m, negb (has_id i m)) k). f_equal.
  pose proof (proj1 (position_None _ _) Hn) as Hall. clear Hn.
  induction l as [|m l IH]; simpl; [done|]. rewrite Hall by by left. simpl. f_equal. apply IH.
  intros x Hx. apply Hall. by right.
Qed.

Lemma live_tracks d s t :
  watching s → view_stale (lists s) = true ∨ tracks (lists s) t → NoDup (map id t) →
  (∀ i, new_id d = Some i → i ∉ map id t) → (∀ i, d = MessageDelete i → i ∈ map id t) →
  watching (handle_delta d s) ∧
  (view_stale (lists (handle_delta d s)) = true ∨ tracks (lists (handle_delta d s)) (announce d t)).
Proof.
  intros Hw Hs Hnd Hf Hd. pose proof Hw as (Ho & Hq & Hl). destruct d as [m|i|i v|i v|i v|]; cbn [handle_delta announce].
  - destruct (is_listed (id m) (messages (lists s))) eqn:Hli.
    { split; [done|]. destruct Hs as [?|[[k ->] _]]; [by left|exfalso]. apply is_listed_spec in Hli.
      apply (Hf (id m)); [done|]. rewrite map_app. apply elem_of_app. by left. }
    rewrite Hq. cbn [nonempty]. cbv zeta. change (offset (lists (on_lists _ s))) with (offset (lists s)). rewrite Ho.
    cbn [Z.eqb]. split; [apply (watching_restore _ (push_front m) (on_lists (λ l, l <| total := (total l + 1)%Z |>) s)); [done|by split_and!]|].
    rewrite stale_restore. destruct Hs as [?|Ht]; [by left|right]. apply tracks_restore.
    by apply (tracks_push m (lists s) t).
  - cbv zeta. rewrite Hq. cbn [nonempty negb]. rewrite orb_true_r.
    destruct (position (has_id i) (messages (lists s))) as [p|] eqn:Hp.
    + split; [apply watching_restore; [done|by split_and!]|].
      rewrite stale_restore. destruct Hs as [?|[Hpre Ht]]; [by left|right]. apply tracks_restore.
      pose proof (position_prefix i _ _ Hpre Hnd) as Hpp. rewrite Hp in Hpp. destruct Hpp as [H1 H2].
      split; simpl; [done|]. rewrite Ht. lia.
    + split; [by split_and!|]. destruct Hs as [?|[Hpre Ht]]; [by left|right]. split; simpl; [by apply filter_absent|].
      rewrite Ht, (filter_gone i t) by (done || by apply Hd). lia.
  - split; [by split_and!|]. destruct Hs as [?|?]; [by left|right]. apply (tracks_update (MessageRead i v)); [by eexists|done..].
  - split; [by split_and!|]. destruct Hs as [?|?]; [by left|right]. apply (tracks_update (MessageStarred i v)); [by eexists|done..].
  - split; [by split_and!|]. destruct Hs as [?|?]; [by left|right]. apply (tracks_update (MessageTags i v)); [by eexists|done..].
  - split; [apply watching_restore; [done|by split_and!]|].
    rewrite stale_restore. destruct Hs as [?|Ht]; [by left|right]. by apply tracks_restore.
Qed.

(** What is announced names messages the mailbox has. *)
Fixpoint real (ds : list WsEvent) (t : list MessageSummary) : Prop :=
  match ds with
  | [] => True
  | d :: ds => (∀ i, d = MessageDelete i → i ∈ map id t) ∧ real ds (announce d t)
  end.
Lemma live_run `{Frames} texts ds s t :
  map parse_frame texts = map Some ds → watching s → view_stale (lists s) = true ∨ tracks (lists s) t →
  NoDup (map id t) → NoDup (new_ids ds) → (∀ i, i ∈ new_ids ds → i ∉ map id t) → real ds t →
  let s' := fold_left (λ s text, handle_ws_message text s) texts s in
  view_stale (lists s') = true ∨ tracks (lists s') (mailbox ds t).
Proof.
  revert ds s t. induction texts as [|x texts IH]; intros [|d ds] s t Hp Hw Hs Hnd Hn Hf Hr; try done.
  injection Hp as Hx Hp. destruct Hr as [Hd Hr]. destruct (fresh_next _ _ _ Hn Hf) as (H1 & H2 & H3).
  assert (Hh : handle_ws_message x s = handle_delta d s).
  { unfold handle_ws_message. rewrite Hx. by destruct Hw as (_ & _ & ->). }
  destruct (live_tracks d s t Hw Hs Hnd H3 Hd) as [Hw' Hs']. simpl. rewrite Hh.
  apply IH; auto. by apply announce_nodup.
Qed.

Lemma replay_loading q ds l : loading (replay_deltas q ds l) = loading l.
Proof.
  unfold replay_deltas. rewrite replay_unlisted. generalize (unlisted (rposition
    (λ d, match d with MessageNew m => is_listed (id m) (messages l) | _ => false end) ds) 0 ds). clear ds.
  intros ds. revert l. induction ds as [|d ds IH]; intros l; [done|]. simpl. rewrite IH.
  destruct d as [m|i|i v|i v|i v|]; cbn [replay_delta]; try done.
  - destruct (is_listed _ _); [done|]. by destruct (_ || _).
  - by destruct (position _ _).
Qed.

(** ** Properties *)


Section examples.
#[local] Instance letters : Frames := λ text,
  match text with
  | "n"%char :: i => Some (MessageNew (mail i))
  | "d"%char :: i => Some (MessageDelete i)
  | "r"%char :: i => Some (MessageRead i false)
  | "c"%char :: _ => Some MessagesClear
  | _ => None
  end.
(** A client whose first fetch is in flight when these frames come. *)
Definition fetching (frames : list bytes) : App := run [] [turn_of (map WsMessage frames)].


(** Mail that arrives after the mailbox was emptied, while a fetch is in flight: the
    snapshot has the message, and replaying the announcement that the mailbox was
    emptied takes it off the view again. Nothing marks the view stale. *)
Example emptied_before_snapshot :
  let frames := [b#"c"; b#"nx"] in
  let server := mailbox [MessagesClear; MessageNew (mail b#"x")] [mail b#"a"] in
  let s := handle_messages_fetched 1 (Ok {| page := server; page_total := 1 |}) (fetching frames) in
  server = [mail b#"x"] ∧ messages (lists s) = [] ∧ total (lists s) = 0%Z ∧ view_stale (lists s) = false.
Proof. repeat split. Qed.
(** A deletion the snapshot has already and that is announced after it is counted
    again. *)
Example deletion_announced_late :
  let s := handle_messages_fetched 1 (Ok {| page := [mail b#"a"]; page_total := 1 |}) (fetching []) in
  let s := handle_ws_message b#"db" s in
  length (messages (lists s)) = 1 ∧ total (lists s) = 0%Z ∧ view_stale (lists s) = false.
Proof. repeat split. Qed.
End examples.
