(* ===== verification/TuiPump.v ===== *)
(** How announcements reach the terminal client's queue: [pump_ws_frames] and the
    reconnection of [connect_websocket] in [crates/rustmail-tui/src/app.rs]. *)
From S2P Require Import Prelude RustStd TuiState TuiApp.

(** What wakes the [select!]: a frame, and whether the queue has room for it and
    then for the marker in its place; the end of the stream, and whether the queue
    still has a receiver; room for the marker; the queue closed. *)
Inductive wake :=
| FrameReady (text : bytes) (room marker_room : bool)
| StreamEnded (open : bool)
| RoomFound
| QueueClosed.

(** What became of each frame, and when the marker was queued. *)
Inductive entry := Delivered (text : bytes) | Dropped (text : bytes) | Resync.
Record Pump := { log : list entry; overflow_owed : bool; returned : bool }.
Definition pumping : Pump := {| log := []; overflow_owed := false; returned := false |}.

(** A branch whose condition does not hold is not polled. *)
Definition pump_step (w : wake) (p : Pump) : option Pump :=
  if returned p then None
  else
    match w with
    | FrameReady text room marker_room =>
      Some
        (if overflow_owed p then {| log := log p ++ [Dropped text]; overflow_owed := true; returned := false |}
         else if room then {| log := log p ++ [Delivered text]; overflow_owed := false; returned := false |}
         else if marker_room
         then {| log := log p ++ [Dropped text; Resync]; overflow_owed := false; returned := false |}
         else {| log := log p ++ [Dropped text]; overflow_owed := true; returned := false |})
    | StreamEnded open =>
      Some {| log := log p ++ (if overflow_owed p && open then [Resync] else []);
              overflow_owed := overflow_owed p && negb open; returned := true |}
    | RoomFound =>
      if overflow_owed p then Some {| log := log p ++ [Resync]; overflow_owed := false; returned := false |} else None
    | QueueClosed =>
      if overflow_owed p then Some {| log := log p; overflow_owed := true; returned := true |} else None
    end.
Fixpoint pump_ws_frames (ws : list wake) (p : Pump) : option Pump :=
  match ws with [] => Some p | w :: ws => pump_step w p ≫= pump_ws_frames ws end.

(** What the queue got. *)
Definition queued (log : list entry) : list Event :=
  omap (λ e, match e with Delivered text => Some (WsMessage text) | Resync => Some WsOverflow | Dropped _ => None end) log.
Definition frames (log : list entry) : list bytes :=
  omap (λ e, match e with Delivered text | Dropped text => Some text | Resync => None end) log.
Definition arrived (ws : list wake) : list bytes :=
  omap (λ w, match w with FrameReady text _ _ => Some text | _ => None end) ws.

(** The pause before each connection, in seconds: [served] says whether each one
    came about. *)
Fixpoint reconnect_delays (delay : nat) (served : list bool) : list nat :=
  match served with
  | [] => []
  | ok :: served =>
    let delay := if ok then 2 else delay in
    delay :: reconnect_delays ((delay * 2) `min` 30) served
  end.

(** ** Laws *)

(** Whether a drop has not been made up for yet, read off the log. *)
Definition outstanding (l : list entry) : bool :=
  fold_left (λ b e, match e with Dropped _ => true | Resync => false | Delivered _ => b end) l false.
(** A frame is delivered only when none before it is outstanding. *)
Fixpoint in_sequence (b : bool) (l : list entry) : Prop :=
  match l with
  | [] => True
  | Dropped _ :: l => in_sequence true l
  | Resync :: l => in_sequence false l
  | Delivered _ :: l => b = false ∧ in_sequence b l
  end.

Lemma outstanding_app l1 l2 : outstanding (l1 ++ l2) =
  fold_left (λ b e, match e with Dropped _ => true | Resync => false | Delivered _ => b end) l2 (outstanding l1).
Proof. unfold outstanding. apply fold_left_app. Qed.
Lemma in_sequence_app b l1 l2 : in_sequence b (l1 ++ l2) ↔
  in_sequence b l1 ∧
  in_sequence (fold_left (λ b e, match e with Dropped _ => true | Resync => false | Delivered _ => b end) l1 b) l2.
Proof.
  revert b. induction l1 as [|e l1 IH]; intros b; simpl; [tauto|]. destruct e; rewrite IH; tauto.
Qed.
Definition pump_ok (p : Pump) : Prop := overflow_owed p = outstanding (log p) ∧ in_sequence false (log p).
Lemma pump_step_ok w p p' : pump_ok p → pump_step w p = Some p' → pump_ok p'.
Proof.
  intros [Ho Hs] Hp. unfold pump_step in Hp. destruct (returned p); [done|].
  assert (Happ : ∀ l, in_sequence (overflow_owed p) l → in_sequence false (log p ++ l)).
  { intros l Hl. apply in_sequence_app. split; [done|]. by rewrite Ho in Hl. }
  destruct w as [text room marker|open| |].
  - destruct (overflow_owed p) eqn:Hb; [|destruct room; [|destruct marker]]; simplify_eq; split; simpl;
      rewrite ?outstanding_app, <- ?Ho; try done; by apply Happ.
  - simplify_eq. split; simpl; rewrite ?outstanding_app, <- ?Ho.
    + by destruct (overflow_owed p), open.
    + destruct (overflow_owed p) eqn:Hb, open; by apply Happ.
  - destruct (overflow_owed p) eqn:Hb; simplify_eq. split; simpl; [by rewrite outstanding_app|by apply Happ].
  - destruct (overflow_owed p) eqn:Hb; simplify_eq. by split.
Qed.
Lemma pump_log w p p' : pump_step w p = Some p' → frames (log p') = frames (log p) ++ arrived [w].
Proof.
  unfold pump_step. destruct (returned p); [done|]. destruct w as [text room marker|open| |].
  - destruct (overflow_owed p); [|destruct room; [|destruct marker]]; intros [= <-]; unfold frames; simpl; by rewrite omap_app.
  - intros [= <-]. unfold frames. simpl. rewrite omap_app. by destruct (overflow_owed p && open).
  - destruct (overflow_owed p); intros [= <-]. unfold frames. simpl. by rewrite omap_app.
  - destruct (overflow_owed p); intros [= <-]. unfold frames. by rewrite app_nil_r.
Qed.
Lemma pump_run ws p p' : pump_ok p → pump_ws_frames ws p = Some p' →
  pump_ok p' ∧ frames (log p') = frames (log p) ++ arrived ws.
Proof.
  revert p. induction ws as [|w ws IH]; intros p Hok Hp; simpl in Hp; [simplify_eq; by rewrite app_nil_r|].
  apply bind_Some in Hp as (p1 & Hw & Hp). destruct (IH p1) as [Hok' Hf]; [by eapply pump_step_ok|done|].
  split; [done|]. rewrite Hf, (pump_log _ _ _ Hw), <- app_assoc. f_equal. unfold arrived. csimpl.
  by destruct w.
Qed.
Lemma sequence_gap b l1 t l2 u l3 :
  in_sequence b (l1 ++ Dropped t :: l2 ++ Delivered u :: l3) → Resync ∈ l2.
Proof.
  intros [_ Hs]%in_sequence_app. simpl in Hs. apply in_sequence_app in Hs as [_ [Hb _]].
  assert (Hgen : ∀ l b, fold_left (λ b e, match e with Dropped _ => true | Resync => false | Delivered _ => b end) l b = false →
    b = false ∨ Resync ∈ l).
  { induction l as [|e l IH]; intros b' He; [by left|]. simpl in He. destruct e; apply IH in He as [He|He]; try done;
      try (right; by right); [by left|right; left]. }
  by apply Hgen in Hb as [[=]|?].
Qed.
Lemma dropped_outstanding l t l2 : outstanding (l ++ Dropped t :: l2) = false → Resync ∈ l2.
Proof.
  rewrite outstanding_app. simpl. induction l2 as [|e l2 IH]; simpl; [done|].
  destruct e; intros He; try (right; by apply IH). left.
Qed.

(** ** Properties *)

(** C39: safety. A frame that finds the queue full is never lost silently: after it
    nothing is delivered before a marker that makes the client fetch again, and
    the marker is queued or still owed when the queue has been full since. When
    the stream ends while the client lives, nothing is owed. Frames keep their
    order, each delivered or dropped once. *)
Theorem no_frame_lost_silently ws p :
  pump_ws_frames ws pumping = Some p →
  frames (log p) = arrived ws ∧
  (∀ before t after, log p = before ++ Dropped t :: after → Resync ∈ after ∨ overflow_owed p = true) ∧
  (∀ before t between u after, log p = before ++ Dropped t :: between ++ Delivered u :: after → Resync ∈ between) ∧
  (∀ ws', ws = ws' ++ [StreamEnded true] → overflow_owed p = false).
Proof.
  intros Hp. destruct (pump_run ws pumping p) as [[Ho Hs] Hf]; [done|done|]. split_and!; [done| | |].
  - intros before t after Hl. destruct (overflow_owed p); [by right|left]. rewrite Hl in Ho.
    by eapply dropped_outstanding.
  - intros before t between u after Hl. rewrite Hl in Hs. by eapply sequence_gap.
  - intros ws' ->. assert (Hend : ∀ p0, pump_ws_frames (ws' ++ [StreamEnded true]) p0 = Some p → overflow_owed p = false).
    { clear. induction ws' as [|w ws' IH]; intros p0 Hp; simpl in Hp.
      - unfold pump_step in Hp. destruct (returned p0); [done|]. simplify_eq/=. by rewrite andb_false_r.
      - apply bind_Some in Hp as (p1 & _ & Hp). by eapply IH. }
    by eapply Hend.
Qed.
Lemma no_frame_lost_silently_witness :
  let ws := [FrameReady b#"1" true true; FrameReady b#"2" false false; FrameReady b#"3" true true; RoomFound;
             FrameReady b#"4" true true; FrameReady b#"5" false false; StreamEnded true] in
  let p := {| log := [Delivered b#"1"; Dropped b#"2"; Dropped b#"3"; Resync; Delivered b#"4"; Dropped b#"5"; Resync];
              overflow_owed := false; returned := true |} in
  frames (log p) = arrived ws ∧
  (∀ before t after, log p = before ++ Dropped t :: after → Resync ∈ after ∨ overflow_owed p = true) ∧
  (∀ before t between u after, log p = before ++ Dropped t :: between ++ Delivered u :: after → Resync ∈ between) ∧
  (∀ ws', ws = ws' ++ [StreamEnded true] → overflow_owed p = false).
Proof. intros ws p. apply (no_frame_lost_silently ws p). reflexivity. Defined.

(** A connection that lasted resets the pause; without one it doubles up to half a
    minute. *)
Lemma reconnect_bounds d served : 2 ≤ d ≤ 30 → Forall (λ n, 2 ≤ n ≤ 30) (reconnect_delays d served).
Proof.
  revert d. induction served as [|ok served IH]; intros d Hd; simpl; [constructor|].
  constructor; [destruct ok; lia|]. apply IH. destruct ok; lia.
Qed.
