(* ===== verification/TuiText.v ===== *)
(** What the terminal client writes on the screen: the texts of
    [crates/rustmail-tui/src/ui/util.rs], and the lines [ui/list.rs] and
    [ui/preview.rs] make of a message, without their colours. *)
From S2P Require Import Prelude RustStd TuiState TuiApp.

(** The columns a character and a text take, as the unicode-width crate counts. *)
Class Widths := { char_width : bytes → nat; str_width : bytes → nat }.
(** A printable ASCII character takes one. *)
Definition printable : bytes → bool := forallb (byte_in 32 126).
Class WidthsLaws `{Widths} : Prop := {
  char_width_ascii c : byte_in 32 126 c = true → char_width [c] = 1;
  str_width_ascii s : printable s = true → str_width s = length s;
}.
(** The text of an HTML body at a width, as html2text writes it. *)
Class Html := html_text : bytes → nat → option bytes.

(** ** Texts *)

(** [str::get] of a range: its ends lie in the text and between characters. *)
Definition char_boundary (n : nat) (s : bytes) : bool :=
  match s !! n with Some c => negb (is_cont c) | None => n =? length s end.
Definition get_range (lo hi : nat) (s : bytes) : option bytes :=
  if char_boundary lo s && char_boundary hi s then Some (slice lo hi s) else None.
Definition format_date (iso : bytes) : bytes :=
  match get_range 5 16 iso with
  | Some s => map (λ c, if Ascii.eqb c "T" then " "%char else c) s
  | None => iso
  end.

Fixpoint drop_char (c : ascii) (s : bytes) : bytes :=
  match s with x :: r => if Ascii.eqb x c then drop_char c r else s | [] => [] end.
(** [trim_end_matches] and [trim_matches] of a character. *)
Definition trim_end_matches (c : ascii) (s : bytes) : bytes := rev (drop_char c (rev s)).
Definition trim_matches (c : ascii) (s : bytes) : bytes := trim_end_matches c (drop_char c s).
Definition QUOTE : ascii := "034"%char.
Definition parse_sender (sender : bytes) : bytes :=
  match find "<" sender with
  | Some start =>
    let name := trim_matches QUOTE (trim (take start sender)) in
    match name with
    | [] => trim_end_matches ">" (drop (start + 1) sender)
    | _ => name
    end
  | None => sender
  end.

(** [str::lines]: a carriage return belongs to the line end only before a line
    feed. *)
Definition strip_cr (l : bytes) : bytes := default l (strip_suffix [CR] l).
Definition lines (s : bytes) : list bytes :=
  let ls := split LF s in
  map strip_cr (removelast ls) ++ match last ls with Some [] | None => [] | Some l => [l] end.

Section text.
Context `{Widths, Html}.

(** [take_while] over the characters, [w] the columns taken so far. *)
Fixpoint fitting (limit w : nat) (cs : list bytes) : bytes :=
  match cs with
  | [] => []
  | c :: cs =>
    let w := w + char_width c in
    if w <=? limit then c ++ fitting limit w cs else []
  end.
Definition truncate (s : bytes) (max : nat) : bytes :=
  if str_width s <=? max then s
  else if 2 <? max then fitting (max - 2) 0 (chars s) ++ b#".."
  else fitting max 0 (chars s).

(** ** A row of the list *)

(** A line with a text at its left and one at its right: what is shown of the left
    one, the columns between, the right one. *)
Definition row_line (content_width : nat) (left right : bytes) : bytes * nat * bytes :=
  let right_len := str_width right in
  let shown := truncate left (content_width - (right_len + 1)) in
  (shown, content_width - (str_width shown + right_len), right).
Definition STAR : bytes := ["226"; "152"; "133"]%char.
Definition icons (m : MessageSummary) : bytes :=
  (if is_starred m then STAR else []) ++
  (if has_attachments m then (if is_starred m then b#" " else []) ++ b#"@" else []).
Definition first_line (content_width : nat) (m : MessageSummary) : bytes * nat * bytes :=
  let date := format_date (created_at m) in
  row_line content_width (parse_sender (sender m))
    match icons m with [] => date | icons => icons ++ b#"  " ++ date end.
Definition second_line (content_width : nat) (m : MessageSummary) : bytes * nat * bytes :=
  row_line content_width (default b#"(no subject)" (subject m)) (b#"  " ++ format_size (size m)).

(** ** The preview *)

(** A line's label and its text. *)
Definition line : Type := bytes * bytes.
Definition plain (s : bytes) : line := ([], s).
Definition RULE : bytes := ["226"; "148"; "128"]%char.
Definition BAR : bytes := b#"  " ++ ["226"; "148"; "130"]%char ++ b#"  ".
Definition body_of (msg : Message) (width : nat) : bytes :=
  match text_body msg with
  | Some text => text
  | None =>
    match html_body msg with
    | Some html => default html (html_text html (Nat.max 40 (width - 2)))
    | None => b#"(no body)"
    end
  end.
Definition text_lines (msg : Message) (width : nat) : list line :=
  let m := summary msg in
  let meta := [format_size (size m)] ++ (if has_attachments m then [b#"@ attachments"] else []) ++
    (if is_starred m then [STAR ++ b#" starred"] else []) ++
    match tags m with [] => [] | ts => [b#"tags: " ++ join b#", " ts] end in
  [(b#"From: ", sender m); (b#"To:   ", join b#", " (recipients m))] ++
  match subject m with Some s => [(b#"Subj: ", s)] | None => [] end ++
  [(b#"Date: ", created_at m); (b#"Info: ", join BAR meta);
   plain (concat (replicate (width - 1) RULE)); plain []] ++
  map plain (lines (body_of msg width)).

Definition yes_no (b : bool) : bytes := if b then b#"Yes" else b#"No".
(** A label padded to twelve columns and a space. *)
Definition label (s : bytes) : bytes := s ++ replicate (12 - length s) " "%char ++ b#" ".
Definition body_lines (title : bytes) (body : option bytes) : list line :=
  match body with
  | Some text => [plain []; plain title; plain (b#"  " ++ display_N (N.of_nat (length text)) ++ b#" chars")]
  | None => []
  end.
Definition header_lines (msg : Message) : list line :=
  let m := summary msg in
  [(label b#"From", sender m); (label b#"To", join b#", " (recipients m));
   (label b#"Subject", default b#"(none)" (subject m)); (label b#"Date", created_at m);
   (label b#"Size", format_size (size m)); (label b#"Read", yes_no (is_read m));
   (label b#"Starred", yes_no (is_starred m)); (label b#"Attachments", yes_no (has_attachments m))] ++
  match tags m with [] => [] | ts => [(label b#"Tags", join b#", " ts)] end ++
  body_lines b#"Has text body" (text_body msg) ++ body_lines b#"Has HTML body" (html_body msg).
Definition raw_lines (p : Pane) (spinner : bytes) : list line :=
  match preview_raw p with
  | Some raw => map plain (match preview_raw_notice p with Some n => [n] | None => [] end ++ lines raw)
  | None => [plain (b#" " ++ spinner ++ b#" Loading raw content...")]
  end.

(** ** What fits *)

Context `{!WidthsLaws}.

Lemma decode_printable c r : byte_in 32 126 c = true → decode c r = (true, 0).
Proof.
  unfold byte_in, decode, is_ascii. intros [_ Hc%N.leb_le]%andb_true_iff. by rewrite (proj2 (N.ltb_lt _ _)) by lia.
Qed.
Lemma chars_printable s : printable s = true → chars s = map (λ c, [c]) s.
Proof.
  unfold chars. induction s as [|c s IH]; intros Hs; simpl in *; [done|]. apply andb_true_iff in Hs as [Hc Hs].
  rewrite decode_printable by done. simpl. rewrite drop_0. f_equal. by apply IH.
Qed.
Lemma fitting_printable limit s : printable s = true → ∀ w, w ≤ limit →
  fitting limit w (map (λ c, [c]) s) = take (limit - w) s.
Proof.
  induction s as [|c s IH]; intros Hs w Hw; simpl in *; [by rewrite take_nil|].
  apply andb_true_iff in Hs as [Hc Hs]. rewrite char_width_ascii by done. destruct (Nat.leb_spec (w + 1) limit).
  - replace (limit - w) with (S (limit - (w + 1))) by lia. simpl. f_equal. by apply IH.
  - by replace (limit - w) with 0 by lia.
Qed.
(** A printable text is cut at the width, its last two columns dots when there is
    room for them. *)
Lemma truncate_printable s max : printable s = true →
  truncate s max = if length s <=? max then s else if 2 <? max then take (max - 2) s ++ b#".." else take max s.
Proof.
  intros Hs. unfold truncate. rewrite str_width_ascii, (chars_printable s), !fitting_printable by (done || lia).
  by rewrite !Nat.sub_0_r.
Qed.
Lemma truncate_width s max : printable s = true → str_width (truncate s max) ≤ max.
Proof.
  intros Hs. rewrite truncate_printable by done.
  assert (Htake : ∀ n, printable (take n s) = true).
  { intros n. unfold printable in *. rewrite <- (take_drop n s), forallb_app in Hs. by apply andb_true_iff in Hs as [? _]. }
  destruct (Nat.leb_spec (length s) max); [by rewrite str_width_ascii|]. destruct (Nat.ltb_spec 2 max).
  - rewrite str_width_ascii, length_app, length_take; [simpl; lia|]. specialize (Htake (max - 2)). unfold printable in *. by rewrite forallb_app, Htake.
  - rewrite str_width_ascii, length_take by done. lia.
Qed.
(** A row's two texts and the columns between them fill the row exactly, however
    long the left one is, if the right one fits beside one column. *)
Theorem row_fills content_width l r :
  printable l = true → str_width r < content_width →
  let '(shown, padding, _) := row_line content_width l r in
  str_width shown + padding + str_width r = content_width ∧ 0 < padding.
Proof.
  intros Hl Hr. unfold row_line. assert (Hw := truncate_width l (content_width - (str_width r + 1)) Hl). lia.
Qed.
End text.

Example sender_name : parse_sender (QUOTE :: b#"Ann Example" ++ QUOTE :: b#" <ann@example.com>") = b#"Ann Example".
Proof. reflexivity. Qed.
Example bare_address : parse_sender b#"<ann@example.com>" = b#"ann@example.com".
Proof. reflexivity. Qed.
Example short_date : format_date b#"2026-01-02T03:04:05Z" = b#"01-02 03:04".
Proof. reflexivity. Qed.
