(* ===== verification/TuiLayout.v ===== *)
(** Where the terminal client draws what, and what it notes of it for the mouse:
    [render] of [crates/rustmail-tui/src/ui/mod.rs] with the layouts of [list.rs],
    [preview.rs] and [popups.rs]. *)
From S2P Require Import Prelude RustStd TuiState TuiApp TuiSafety TuiText.

#[export] Instance eta_Screen : Eta Screen := λ c,
  {| list_area := list_area c; list_table_area := list_table_area c; preview_area := preview_area c;
     tab_area := tab_area c; tab_ranges := tab_ranges c; first_row := first_row c |}.

(** The layout of the ratatui crate: an area split at a percentage of its width and
    below its first rows, the area inside a border, the first row a list of
    two-line items scrolls to, and the item it shows in a row of its area. *)
Class Layout := {
  split_columns : Z → Rect → Rect * Rect;
  split_rows : Z → Rect → Rect * Rect;
  inner : Rect → Rect;
  scroll_to : nat → option nat → nat → Z → nat;
  item_shown : nat → nat → Rect → Z → option nat;
}.
(** [r] lies in [area]. *)
Definition within (r area : Rect) : Prop :=
  (x area ≤ x r ∧ x r + width r ≤ x area + width area ∧ y area ≤ y r ∧ y r + height r ≤ y area + height area)%Z.
Definition sized (r : Rect) : Prop := (0 ≤ width r)%Z ∧ (0 ≤ height r)%Z.
Class LayoutLaws `{Layout} : Prop := {
  columns_tile percent r : (0 ≤ percent ≤ 100)%Z → sized r →
    let '(a, b) := split_columns percent r in
    within a r ∧ within b r ∧ sized a ∧ sized b ∧ (x a + width a ≤ x b)%Z;
  rows_tile n r : (0 ≤ n)%Z → sized r → let '(a, b) := split_rows n r in within a r ∧ within b r ∧ sized a ∧ sized b;
  inner_within r : sized r → within (inner r) r ∧ sized (inner r);
  (** Items are shown from the first on, two rows each. *)
  item_rows first len r row i : item_shown first len r row = Some i →
    (y r ≤ row)%Z ∧ i < len ∧ i = first + Z.to_nat ((row - y r) / 2);
}.

Section layout.
Context `{Layout, Widths, Html}.

(** ** The list *)

(** The rows of the search line and its divider come off the top. *)
Definition list_table (area : Rect) (s : App) : Rect :=
  if bool_decide (mode s = Search) || nonempty (search_query s) then snd (split_rows 2 (inner area)) else inner area.
Definition render_list (area : Rect) (s : App) : App :=
  let table := list_table area s in
  let s := s <| screen := (screen s) <| list_table_area := table |> |> in
  match messages (lists s) with
  | [] => s
  | ms => s <| screen := (screen s) <| first_row := scroll_to (first_row (screen s)) (row (lists s)) (length ms) (height table) |> |>
  end.
(** The columns of a row's texts, beside the accent, the margin and the scrollbar. *)
Definition content_width (table : Rect) (s : App) : Z :=
  let visible_items := (height table / 2)%Z in
  let has_scrollbar := (visible_items <? Z.of_nat (length (messages (lists s))))%Z in
  Z.max 0 (width table - (1 + 1 + (if has_scrollbar then 1 else 0))).

(** ** The preview *)

Definition tab_titles : list (bytes * PreviewTab) := [(b#"1 Text", TabText); (b#"2 Headers", TabHeaders); (b#"3 Raw", TabRaw)].
(** The edge of the active tab's pill: a text of no characters. *)
Definition PILL_EDGE : bytes := [].
(** The texts of the tab line, each with the tab it belongs to, and the ranges noted
    for the mouse, [offset] being the column reached. *)
Fixpoint tab_line (active : PreviewTab) (first : bool) (x_offset : Z) (tabs : list (bytes * PreviewTab))
    : list (bytes * option PreviewTab) * list (Z * Z) :=
  match tabs with
  | [] => ([], [])
  | (label, tab) :: tabs =>
    let gap := if first then [] else [(b#" ", None)] in
    let start := (if first then x_offset else x_offset + 1)%Z in
    let title := (b#" " ++ label ++ b#" ", Some tab) in
    let '(spans, stop) :=
      if bool_decide (active = tab)
      then ([(PILL_EDGE, Some tab); title; (PILL_EDGE, Some tab)], (start + (2 + Z.of_nat (length label) + 2))%Z)
      else ([title], (start + (Z.of_nat (length label) + 2))%Z) in
    let '(rest, ranges) := tab_line active false stop tabs in
    (gap ++ spans ++ rest, (start, stop) :: ranges)
  end.
Definition tabs_of (active : PreviewTab) : list (bytes * option PreviewTab) * list (Z * Z) := tab_line active true 0 tab_titles.

Definition wrap_u16 (z : Z) : Z := (z mod 2 ^ 16)%Z.
Definition preview_lines (msg : Message) (content : Rect) (spinner : bytes) (s : App) : list line :=
  match preview_tab (pane s) with
  | TabText => text_lines msg (Z.to_nat (width content))
  | TabHeaders => header_lines msg
  | TabRaw => raw_lines (pane s) spinner
  end.
(** [content_len.saturating_sub(height) as u16]. *)
Definition max_scroll (lines : list line) (content : Rect) : nat :=
  Z.to_nat (wrap_u16 (Z.max 0 (Z.of_nat (length lines) - height content))).
Definition render_preview (spinner : bytes) (area : Rect) (s : App) : App :=
  if preview_loading (pane s) then s
  else
    match preview (pane s) with
    | None => s
    | Some msg =>
      let '(tab, content) := split_rows 1 (inner area) in
      let s := s <| screen := (screen s) <| tab_area := tab |> <| tab_ranges := snd (tabs_of (preview_tab (pane s))) |> |> in
      on_pane (λ p, p <| preview_scroll := preview_scroll p `min` max_scroll (preview_lines msg content spinner s) content |>) s
    end.

(** ** The frame *)

Definition render_main (spinner : bytes) (area : Rect) (s : App) : App :=
  if (width area <? 80)%Z then
    match focus s with
    | FocusList => render_list area (s <| screen := (screen s) <| list_area := area |> <| preview_area := no_rect |> |>)
    | FocusPreview =>
      render_preview spinner area (s <| screen := (screen s) <| list_area := no_rect |> <| preview_area := area |> |>)
    end
  else
    let list_pct := (if 120 <=? width area then 35 else 40)%Z in
    let '(list_pane, preview_pane) := split_columns list_pct area in
    let s := s <| screen := (screen s) <| list_area := list_pane |> <| preview_area := preview_pane |> |> in
    render_preview spinner preview_pane (render_list list_pane s).
Definition render (spinner : bytes) (area : Rect) (s : App) : App :=
  match mode s with RawView => s | _ => render_main spinner area s end.

(** ** The popups *)

Definition popup (area : Rect) (w h : Z) : Rect :=
  {| x := Z.max 0 (width area - w) / 2; y := Z.max 0 (height area - h) / 2; width := w; height := h |}.
Definition confirm_area (area : Rect) : Rect := popup area (Z.min 40 (Z.max 0 (width area - 4))) 5.
Definition SHORTCUTS : Z := 13.
Definition help_area (area : Rect) : Rect :=
  popup area (Z.min (14 + 24 + 4) (Z.max 0 (width area - 4))) (Z.min (SHORTCUTS + 2) (Z.max 0 (height area - 4))).
Definition error_area (err : bytes) (area : Rect) : Rect :=
  let err_len := Z.min (Z.of_nat (length err)) U16_MAX in
  let w := Z.min (Z.min U16_MAX (err_len + 4)) (Z.max 0 (width area - 4)) in
  {| x := Z.max 0 (width area - w) / 2; y := 0; width := w; height := 3 |}.

(** ** What a frame does to the client *)

(** Drawing notes where everything is, and no more: the [draw] of the event loop. *)
Definition redrawn (s s' : App) : Prop := ∃ at_ n, s' = draw at_ n s.
Lemma redrawn_screen s at_ : redrawn s (s <| screen := at_ |>).
Proof.
  exists at_, (preview_scroll (pane s)). unfold draw, on_pane. simpl. rewrite Nat.min_id. by destruct s as [? ? ? ? []].
Qed.
Lemma redrawn_trans s1 s2 s3 : redrawn s1 s2 → redrawn s2 s3 → redrawn s1 s3.
Proof.
  intros (a & n & ->) (b & m & ->). exists b, (n `min` m). unfold draw, on_pane. simpl. by rewrite Nat.min_assoc.
Qed.
Lemma redrawn_list area s : redrawn s (render_list area s).
Proof.
  unfold render_list. destruct (messages _); [apply redrawn_screen|].
  eapply redrawn_trans; [apply redrawn_screen|]. apply redrawn_screen.
Qed.
Lemma redrawn_preview spinner area s : redrawn s (render_preview spinner area s).
Proof.
  unfold render_preview. assert (Hsame : redrawn s s).
  { eapply eq_ind; [apply (redrawn_screen s (screen s))|]. by destruct s. }
  destruct (preview_loading _); [done|]. destruct (preview _) as [msg|]; [|done].
  destruct (split_rows 1 (inner area)) as [tab content]. by eexists _, _.
Qed.
Lemma render_draws spinner area s : redrawn s (render spinner area s).
Proof.
  assert (Hmain : redrawn s (render_main spinner area s)).
  { unfold render_main. destruct (_ <? _)%Z; [destruct (focus s)|].
    - eapply redrawn_trans; [apply redrawn_screen|apply redrawn_list].
    - eapply redrawn_trans; [apply redrawn_screen|apply redrawn_preview].
    - destruct (split_columns _ _) as [a b]. eapply redrawn_trans; [apply redrawn_screen|].
      eapply redrawn_trans; [apply redrawn_list|apply redrawn_preview]. }
  unfold render. destruct (mode s); try exact Hmain.
  exists (screen s), (preview_scroll (pane s)). unfold draw, on_pane. simpl. rewrite Nat.min_id. by destruct s as [? ? ? ? []].
Qed.

Context `{!LayoutLaws}.

Lemma within_trans a b c : within a b → within b c → within a c.
Proof. unfold within. lia. Qed.
Lemma table_within area s : sized area → within (list_table area s) area.
Proof.
  intros Hs. destruct (inner_within area Hs) as [Hin Hs']. unfold list_table. destruct (_ || _); [|done].
  assert (Hrows := rows_tile 2 (inner area) ltac:(lia) Hs'). destruct (split_rows 2 (inner area)) as [a b].
  eapply within_trans; [apply Hrows|done].
Qed.
Lemma tab_within area : sized area → within (fst (split_rows 1 (inner area))) area.
Proof.
  intros Hs. destruct (inner_within area Hs) as [Hin Hs'].
  assert (Hrows := rows_tile 1 (inner area) ltac:(lia) Hs'). destruct (split_rows 1 (inner area)) as [a b].
  eapply within_trans; [apply Hrows|done].
Qed.
(** What is in an area and what is left of it share no cell. *)
Lemma apart_columns r1 a r2 b m : within r1 a → within r2 b → (x a + width a ≤ x b)%Z →
  TuiApp.contains r1 m = true → TuiApp.contains r2 m = false.
Proof.
  intros Hr1 Hr2 Hab Hin. apply not_true_iff_false. intros Hin'. unfold TuiApp.contains, within in *.
  rewrite !andb_true_iff, !Z.leb_le, !Z.ltb_lt in Hin, Hin'. lia.
Qed.

(** The areas a wide frame with a preview notes. *)
Lemma wide_frame spinner area s : mode s ≠ RawView → (80 ≤ width area)%Z → preview_loading (pane s) = false →
  is_Some (preview (pane s)) →
  let s1 := render spinner area s in
  let '(a, b) := split_columns (if 120 <=? width area then 35 else 40)%Z area in
  lists s1 = lists s ∧ list_table_area (screen s1) = list_table a s ∧ tab_area (screen s1) = fst (split_rows 1 (inner b)).
Proof.
  intros Hm Hw Hl [msg Hp]. simpl. destruct (split_columns _ _) as [a b] eqn:Hs. unfold render.
  assert (Hmain : match mode s with RawView => s | _ => render_main spinner area s end = render_main spinner area s) by by destruct (mode s).
  rewrite Hmain. unfold render_main. rewrite (proj2 (Z.ltb_ge _ _)) by done. rewrite Hs. unfold render_preview, render_list.
  destruct (split_rows 1 (inner b)) as [tab content]. simpl.
  destruct (messages (lists s)); simpl; rewrite Hl, Hp; by split_and!.
Qed.

Lemma load_keeps s : lists (load_preview s) = lists s ∧ focus (load_preview s) = focus s.
Proof. unfold load_preview. destruct (selected_message _); [destruct (bool_decide _)|]; done. Qed.

End layout.

(** ** The popups *)

Definition screen_of (w h : Z) : Rect := {| x := 0; y := 0; width := w; height := h |}.
(** The help fits any screen. *)
Theorem help_fits w h : (0 ≤ w)%Z → (0 ≤ h)%Z → within (help_area (screen_of w h)) (screen_of w h).
Proof.
  intros Hw Hh. unfold within, help_area, popup, screen_of, SHORTCUTS. simpl.
  Z.to_euclidean_division_equations. lia.
Qed.
(** The confirmation and an error have a fixed height: they fit a screen of five
    rows, of three, and no lower one. *)
Theorem confirm_fits w h : (0 ≤ w)%Z → (0 ≤ h)%Z →
  within (confirm_area (screen_of w h)) (screen_of w h) ↔ (5 ≤ h)%Z.
Proof.
  intros Hw Hh. unfold within, confirm_area, popup, screen_of. simpl.
  Z.to_euclidean_division_equations. lia.
Qed.
Theorem error_fits err w h : (0 ≤ w)%Z → (0 ≤ h)%Z →
  within (error_area err (screen_of w h)) (screen_of w h) ↔ (3 ≤ h)%Z.
Proof.
  intros Hw Hh. unfold within, error_area, screen_of. simpl.
  set (e := Z.min U16_MAX (Z.min (Z.of_nat (length err)) U16_MAX + 4)). assert (0 ≤ e)%Z by (unfold e, U16_MAX; lia).
  Z.to_euclidean_division_equations. lia.
Qed.

(** ** A screen *)

#[local] Instance grid : Layout := {|
  split_columns percent r :=
    let w := (width r * percent / 100)%Z in
    ({| x := x r; y := y r; width := w; height := height r |},
     {| x := x r + w; y := y r; width := width r - w; height := height r |});
  split_rows n r :=
    let h := Z.max 0 (Z.min n (height r)) in
    ({| x := x r; y := y r; width := width r; height := h |},
     {| x := x r; y := y r + h; width := width r; height := height r - h |});
  inner r :=
    if ((2 <=? width r) && (2 <=? height r))%Z
    then {| x := x r + 1; y := y r + 1; width := width r - 2; height := height r - 2 |}
    else {| x := x r; y := y r; width := 0; height := 0 |};
  scroll_to first sel len h :=
    let visible := Z.to_nat (h / 2) in
    match sel with
    | Some i => if i <? first then i else if first + visible <=? i then S i - visible else first
    | None => first
    end;
  item_shown first len r row :=
    let i := first + Z.to_nat ((row - y r) / 2) in
    if ((y r <=? row)%Z && (row <? y r + 2 * (height r / 2))%Z && (i <? len)) then Some i else None;
|}.
#[local] Instance grid_widths : Widths := {| char_width _ := 1; str_width s := length (chars s) |}.
#[local] Instance grid_html : Html := λ _ _, None.

Definition letter_of (n : nat) : MessageSummary :=
  {| id := display_N (N.of_nat n); sender := b#"a@x"; recipients := []; subject := None; size := 1; has_attachments := false;
     is_read := false; is_starred := false; tags := []; created_at := b#"2026-01-02T03:04:05Z" |}.
(** Nine messages, the second one previewed. *)
Definition reading : App :=
  let s := new b#"http://localhost" in
  s <| lists := (lists s) <| messages := map letter_of (seq 0 9) |> <| selected := 1 |> <| row := Some 1 |> |>
    <| pane := (pane s) <| preview := Some {| summary := letter_of 1; text_body := Some b#"hello"; html_body := None |} |> |>.
Definition click (c r : Z) : MouseEvent := {| kind := DownLeft; column := c; mouse_row := r |}.

#[local] Instance grid_laws : LayoutLaws.
Proof.
  split.
  - intros percent r Hp [Hw Hh]. cbn [split_columns grid]. unfold within, sized. simpl.
    assert (0 ≤ width r * percent / 100 ≤ width r)%Z; [|lia]. split; [apply Z.div_pos; lia|].
    apply Z.div_le_upper_bound; [lia|]. rewrite (Z.mul_comm 100). apply Z.mul_le_mono_nonneg_l; lia.
  - intros n r Hn [Hw Hh]. cbn [split_rows grid]. unfold within, sized. simpl. lia.
  - intros r [Hw Hh]. cbn [inner grid]. unfold within, sized.
    destruct (Z.leb_spec 2 (width r)), (Z.leb_spec 2 (height r)); simpl; lia.
  - intros first len r row i. cbn [item_shown grid]. cbv zeta.
    destruct (_ && _) eqn:Hb; [|done]. intros [= <-]. rewrite !andb_true_iff, Z.leb_le, Nat.ltb_lt in Hb. lia.
Qed.


(** On a narrow screen the tab line of a preview once drawn stays noted when the list
    is drawn in its place: a click on the first message of the list goes to the
    preview and selects nothing. *)
Definition narrow : Rect := screen_of 60 12.
Definition back_on_list : App :=
  (render b#"-" narrow (reading <| focus := FocusPreview |>)) <| focus := FocusList |>.
Example click_hits_stale_tabs :
  let s1 := render b#"-" narrow back_on_list in
  item_shown (first_row (screen s1)) 9 (list_table_area (screen s1)) 1 = Some 0 ∧
  TuiApp.contains (list_table_area (screen s1)) (click 3 1) = true ∧
  let s2 := handle_mouse (click 3 1) s1 in selected (lists s2) = 1 ∧ focus s2 = FocusPreview.
Proof. vm_compute. by split_and!. Qed.

(** The tab a column of the tab line shows. *)
Fixpoint tab_at (column : Z) (spans : list (bytes * option PreviewTab)) : option PreviewTab :=
  match spans with
  | [] => None
  | (text, tab) :: spans =>
    let w := Z.of_nat (str_width text) in
    if (column <? w)%Z then tab else tab_at (column - w) spans
  end.
(** The ranges count two columns for the active tab's edges, which are empty: the
    ranges of the tabs right of it begin two columns late. *)
Example click_on_next_tab :
  let '(spans, ranges) := tabs_of TabText in
  tab_at 9 spans = Some TabHeaders ∧ clicked_tab 9 0 [TabText; TabHeaders; TabRaw] ranges = Some TabText.
Proof. vm_compute. by split. Qed.

(** A preview of exactly 65,536 lines more than its area shows cannot be scrolled. *)
Lemma long_text_stays (ls : list line) content : (0 ≤ height content)%Z →
  Z.of_nat (length ls) = (height content + 2 ^ 16)%Z → max_scroll ls content = 0.
Proof. intros Hh Hl. unfold max_scroll. rewrite Hl, Z.max_r by lia. replace (_ + _ - _)%Z with (2 ^ 16)%Z by lia. reflexivity. Qed.
