(* ===== verification/Release.v ===== *)
(** Releasing a captured message to a relay: [release_message] of
    [crates/rustmail-api/src/handlers.rs]. *)
From S2P Require Import Prelude RustStd SmtpSession StorageError Content MailParser Locator Prepared Query Database Store Repo Tables RepoWrites Instances RepoProperties RepoReads Reclaim AppState Retention Handlers.

Definition ALLOWED_SMTP_PORTS : list Z := [25; 465; 587; 2525]%Z.
Definition IMPLICIT_TLS_SMTP_PORT : Z := 465.
Definition for_port (port : Z) : RelaySecurity :=
  if (port =? IMPLICIT_TLS_SMTP_PORT)%Z then ImplicitTls else RequiredStartTls.

(** The lettre crate: the addresses it reads, the envelopes it refuses with a
    reason, whether it can set TLS up for a host, and what comes of sending. *)
Class Lettre := {
  is_address : bytes → bool;
  envelope_refusal : option bytes → list bytes → option bytes;
  transport_builds : bytes → bool;
  relay_accepts : bytes → Z → bool;
}.

Record ReleaseBody := { r_host : bytes; r_port : option Z }.

Section release.
Context `{Json, Zstd, MailParser, Sqlite, Platform, Lettre}.

Definition release_envelope (sender recipients : bytes) : result bytes (option bytes * list bytes) :=
  from ← (if nonempty sender
          then if is_address sender then Ok (Some sender)
               else Err b#"the captured sender is not an address a relay accepts"
          else Ok None);
  to ← ok_or b#"the captured recipients could not be read" (json_from_str recipients);
  if forallb is_address to then
    match envelope_refusal from to with Some e => Err e | None => Ok (from, to) end
  else Err b#"a captured recipient is not an address a relay accepts".

(** Once the host and the port are allowed. *)
Definition release_to (i host : bytes) (port : Z) : Handler :=
  raw ← call Storage (get_raw i);
  m ← call Storage (get i);
  match release_envelope (s_sender (msg m)) (s_recipients (msg m)) with
  | Ok (from, to) =>
    if transport_builds host then
      modify (noting (Relayed host port (for_port port) from to raw));;
      if relay_accepts host port
      then mret {| status := 200; headers := []; body := ReleasedBody |}
      else mret (error_response 502 b#"SMTP delivery failed")
    else mret (error_response 502 b#"Failed to establish TLS connection to relay host")
  | Err reason => mret (error_response 400 (b#"Invalid envelope: " ++ reason))
  end.
Definition release_message (release_host : option bytes) (release_port : option Z) (i : bytes) (b : ReleaseBody)
    : Handler :=
  match release_host with
  | None => mret (error_response 403 b#"Email release is disabled. Configure --release-host to enable.")
  | Some allowed_host =>
    if negb (beqb (r_host b) allowed_host)
    then mret (error_response 403 (b#"Release only allowed to configured host: " ++ allowed_host))
    else
      let port := default (default 587%Z release_port) (r_port b) in
      if match release_port with Some p => negb (port =? p)%Z | None => false end
      then mret (error_response 403 (b#"Release only allowed on configured port: " ++ display_Z (default 587%Z release_port)))
      else if negb (existsb (Z.eqb port) ALLOWED_SMTP_PORTS)
      then mret (error_response 400 (b#"Port " ++ display_Z port ++ b#" is not an allowed SMTP port (25, 465, 587, 2525)"))
      else release_to i (r_host b) port
  end.

(** ** Properties *)

(** A read that answers leaves the tables alone and its answer is what they say. *)
Lemma lift_spec {A} (r : result StorageError A) Q w : Q r w → wp (lift r : DB A) Q w.
Proof. destruct r; by eexists _, _. Qed.
Lemma get_raw_spec i Q w :
  (∀ r w', harmless w w' →
    match r with
    | Ok raw => ∃ m frame, content_row i (db w) = Some (m, frame) ∧ decompress frame (m_size m) i = Ok raw
    | Err _ => True
    end → Q r w') → wp (get_raw i) Q w.
Proof.
  intros HQ. unfold get_raw. apply wp_bind, exec_spec. intros [row|e] w' Hl Hs.
  2: { apply HQ; [|done]. by split; [destruct Hs|]. }
  injection Hs as <- Hd. assert (Hh : harmless w w') by done.
  destruct (content_row i (db w)) as [[m frame]|]; [|by eexists _, _; split; [|apply HQ]].
  apply lift_spec, HQ; [done|]. destruct (decompress frame _ i) eqn:Hdec; [|done]. by exists m, frame.
Qed.
Lemma get_spec i Q w :
  (∀ r w', harmless w w' →
    match r with
    | Ok m => ∃ row frame, content_row i (db w) = Some (row, frame) ∧ msg m = summary row
    | Err _ => True
    end → Q r w') → wp (get i) Q w.
Proof.
  intros HQ. unfold get. apply wp_bind, exec_spec. intros [row|e] w' Hl Hs.
  2: { apply HQ; [|done]. by split; [destruct Hs|]. }
  injection Hs as <- Hd. assert (Hh : harmless w w') by done.
  destruct (content_row i (db w)) as [[m frame]|]; [|by eexists _, _; split; [|apply HQ]].
  apply lift_spec, HQ; [done|]. unfold into_message. destruct (decompress frame _ _); simpl; [|done]. by exists m, frame.
Qed.
Lemma wp_call {E A} (from : StorageError → E) (op : DB A) Q s :
  wp op (λ r w, Q (map_err from r) (set_world w s)) (world s) → wp (call from op) Q s.
Proof.
  intros Hop. apply wp_bind, wp_try. eapply wp_mono; [exact Hop|]. intros [a|e] w HQ; [by apply wp_ret|].
  by eexists _, _.
Qed.

(** What a release may send: the stored source of the message, in the envelope it
    was captured with, to the configured relay on an allowed port, over TLS. *)
Definition confined (release_host : option bytes) (release_port : option Z) (i : bytes) (t : Tables) (n : note) : Prop :=
  ∃ host port from to raw m frame,
    n = Relayed host port (if (port =? 465)%Z then ImplicitTls else RequiredStartTls) from to raw ∧
    release_host = Some host ∧ (release_port = None ∨ release_port = Some port) ∧
    port ∈ [25; 465; 587; 2525]%Z ∧
    content_row i t = Some (m, frame) ∧ decompress frame (m_size m) i = Ok raw ∧
    from = (if nonempty (m_sender m) then Some (m_sender m) else None) ∧
    json_from_str (m_recipients m) = Some to.

Lemma release_envelope_spec sender recipients from to :
  release_envelope sender recipients = Ok (from, to) →
  from = (if nonempty sender then Some sender else None) ∧ json_from_str recipients = Some to.
Proof.
  unfold release_envelope. destruct (nonempty sender); [destruct (is_address sender); [|done]|]; simpl;
    (destruct (json_from_str recipients); [|done]; simpl; destruct (forallb _ _); [|done];
     by destruct (envelope_refusal _ _); intros; simplify_eq).
Qed.

(** C27: safety. Whatever a client asks and whatever fails, a release sends at most
    one message: to the host and on the port the server was configured with, over
    TLS from the first byte on 465 and by a required upgrade elsewhere, with the
    whole captured source and exactly the captured sender and recipients. The
    tables do not change, and only a message sent is answered [200]. *)
Theorem release_is_confined release_host release_port i b s :
  ∃ r s' h, release_message release_host release_port i b s = Some (r, s') ∧ history s' = history s ++ h ∧
    db (world s') = db (world s) ∧
    (h = [] ∨ ∃ n, map fst h = [n] ∧ confined release_host release_port i (db (world s)) n) ∧
    (∀ resp, r = Ok resp → status resp = 200%Z → h ≠ []).
Proof.
  cut (wp (release_message release_host release_port i b) (λ r s', ∃ h, history s' = history s ++ h ∧
    db (world s') = db (world s) ∧
    (h = [] ∨ ∃ n, map fst h = [n] ∧ confined release_host release_port i (db (world s)) n) ∧
    (∀ resp, r = Ok resp → status resp = 200%Z → h ≠ [])) s).
  { intros (r & s' & Hrun & h & Hh). by exists r, s', h. }
  assert (Hnone : ∀ (r : result AppError Response) (s' : App), world s' = world s ∨ db (world s') = db (world s) → history s' = history s →
    (∀ resp, r = Ok resp → status resp ≠ 200%Z) → ∃ h, history s' = history s ++ h ∧
    db (world s') = db (world s) ∧
    (h = [] ∨ ∃ n, map fst h = [n] ∧ confined release_host release_port i (db (world s)) n) ∧
    (∀ resp, r = Ok resp → status resp = 200%Z → h ≠ [])).
  { intros r s' Hw Hh Hr. exists []. rewrite app_nil_r. split_and!; [done|by destruct Hw as [->|]|by left|].
    intros resp -> Hst. by destruct (Hr resp). }
  unfold release_message. destruct release_host as [allowed|]; [|apply wp_ret, Hnone; auto; by intros ? [= <-]].
  destruct (beqb (r_host b) allowed) eqn:Hhost; cbn [negb]; [|apply wp_ret, Hnone; auto; by intros ? [= <-]].
  apply beqb_spec in Hhost as <-. set (port := default (default 587%Z release_port) (r_port b)).
  destruct (match release_port with Some p => negb (port =? p)%Z | None => false end) eqn:Hport;
    [apply wp_ret, Hnone; auto; by intros ? [= <-]|].
  destruct (existsb (Z.eqb port) ALLOWED_SMTP_PORTS) eqn:Hal; cbn [negb]; [|apply wp_ret, Hnone; auto; by intros ? [= <-]].
  unfold release_to. apply wp_bind, wp_call, get_raw_spec. intros [raw|e] w1 [Hd1 _] Hraw; cbn [map_err];
    [|by apply Hnone; [right|..]].
  destruct Hraw as (m & frame & Hrow & Hdec).
  apply wp_bind, wp_call, get_spec. intros [ms|e] w2 [Hd2 _] Hget; cbn [map_err];
    [|by apply Hnone; [right; simpl in *; congruence|..]].
  simpl in Hd2, Hget.
  rewrite Hd1 in *. destruct Hget as (m' & frame' & Hrow' & Hmsg). rewrite Hrow in Hrow'. simplify_eq.
  destruct (release_envelope _ _) as [[from to]|reason] eqn:Henv;
    [|apply wp_ret, Hnone; [right; simpl in *; congruence|done|by intros ? [= <-]]].
  apply release_envelope_spec in Henv as [Hfrom Hto]. rewrite Hmsg in Hfrom, Hto.
  destruct (transport_builds _); [|apply wp_ret, Hnone; [right; simpl in *; congruence|done|by intros ? [= <-]]].
  apply wp_modify.
  assert (Hconf : confined (Some (r_host b)) release_port i (db (world s))
    (Relayed (r_host b) port (for_port port) from to raw)).
  { exists (r_host b), port, from, to, raw, m', frame'. split_and!; try done.
    - destruct release_port as [p|]; [right|by left]. apply negb_false_iff, Z.eqb_eq in Hport. by rewrite Hport.
    - apply existsb_exists in Hal as (x & Hx & ->%Z.eqb_eq). by apply list_elem_of_In. }
  destruct (relay_accepts _ _); apply wp_ret; eexists; simpl;
    (split_and!; [done|congruence|right; by eexists|done]).
Qed.
End release.
