(* ===== verification/Api.v ===== *)
(** The API as a whole: the routes of [router] in [crates/rustmail-api/src/lib.rs],
    what a request becomes on its way to a handler, and what its response becomes
    on its way back. *)
From S2P Require Import Prelude RustStd SmtpSession StorageError Content MailParser Locator Prepared Query Database Store Repo Tables RepoWrites Instances RepoProperties RepoReads Reclaim AppState Retention Origin Host Handlers Headers Release Router.

Record Request := {
  method : bytes;
  path : bytes;
  query_string : bytes;
  request_headers : HeaderMap;
  request_body : bytes;
}.
(** The fields of [AppState] that no request changes. *)
Record ApiState := {
  release_host : option bytes;
  release_port : option Z;
  allowed_origins : list Origin;
  allowed_hosts : list Hostname;
  server_info : option ServerInfo;
}.
#[export] Instance eta_ApiState : Eta ApiState := λ s,
  {| release_host := release_host s; release_port := release_port s; allowed_origins := allowed_origins s;
     allowed_hosts := allowed_hosts s; server_info := server_info s |}.
(** [AppState::new] and what is set on it afterwards. *)
Definition new_state (host : option bytes) (port : option Z) : ApiState :=
  {| release_host := host; release_port := port; allowed_origins := []; allowed_hosts := []; server_info := None |}.
Definition with_allowed_origins (origins : list Origin) (s : ApiState) : ApiState := s <| allowed_origins := origins |>.
Definition with_allowed_hosts (hosts : list Hostname) (s : ApiState) : ApiState := s <| allowed_hosts := hosts |>.
Definition with_server_info (info : ServerInfo) (s : ApiState) : ApiState := s <| server_info := Some info |>.

(** ** Routes *)

(** The handlers, with the parts of the path they are given. *)
Inductive Endpoint :=
| ListMessages
| DeleteAllMessages
| GetMessage (id : bytes)
| UpdateMessage (id : bytes)
| DeleteMessage (id : bytes)
| GetRawMessage (id : bytes)
| GetHeaders (id : bytes)
| ListAttachments (id : bytes)
| GetAttachment (id aid : bytes)
| GetInlineAttachment (id cid : bytes)
| GetAuthResults (id : bytes)
| ExportMessage (id : bytes)
| ReleaseMessage (id : bytes)
| AssertCount
| GetInfo
| OpenWebSocket.

(** A segment of a path: one to match as it is, or any that is not empty. *)
Inductive Piece := Exactly (s : bytes) | Any.
Record Route := { route_pieces : list Piece; methods : list (bytes * (list bytes → Endpoint)) }.
Definition part (n : nat) (params : list bytes) : bytes := nth n params [].
Definition of_message (below : list Piece) (m : bytes) (e : bytes → bytes → Endpoint) : Route :=
  {| route_pieces := Exactly b#"messages" :: Any :: below; methods := [(m, λ ps, e (part 0 ps) (part 1 ps))] |}.
Definition api_routes : list Route :=
  [{| route_pieces := [Exactly b#"messages"]; methods := [(b#"GET", λ _, ListMessages); (b#"DELETE", λ _, DeleteAllMessages)] |};
   {| route_pieces := [Exactly b#"messages"; Any];
      methods := [(b#"GET", λ ps, GetMessage (part 0 ps)); (b#"PATCH", λ ps, UpdateMessage (part 0 ps));
                  (b#"DELETE", λ ps, DeleteMessage (part 0 ps))] |};
   of_message [Exactly b#"raw"] b#"GET" (λ i _, GetRawMessage i);
   of_message [Exactly b#"headers"] b#"GET" (λ i _, GetHeaders i);
   of_message [Exactly b#"attachments"] b#"GET" (λ i _, ListAttachments i);
   of_message [Exactly b#"attachments"; Any] b#"GET" GetAttachment;
   of_message [Exactly b#"inline"; Any] b#"GET" GetInlineAttachment;
   of_message [Exactly b#"auth"] b#"GET" (λ i _, GetAuthResults i);
   of_message [Exactly b#"export"] b#"GET" (λ i _, ExportMessage i);
   of_message [Exactly b#"release"] b#"POST" (λ i _, ReleaseMessage i);
   {| route_pieces := [Exactly b#"assert"; Exactly b#"count"]; methods := [(b#"GET", λ _, AssertCount)] |};
   {| route_pieces := [Exactly b#"info"]; methods := [(b#"GET", λ _, GetInfo)] |};
   {| route_pieces := [Exactly b#"ws"]; methods := [(b#"GET", λ _, OpenWebSocket)] |}].
(** [nest("/api/v1", api)]. *)
Definition nested (r : Route) : Route :=
  {| route_pieces := Exactly b#"api" :: Exactly b#"v1" :: route_pieces r; methods := methods r |}.
Definition routes : list Route := map nested api_routes.

(** axum: the parameters of a path that matches a route, whether a method of a route
    takes a request of a method, and the answer to a method a path does not take. *)
Class Axum := {
  match_path : list Piece → bytes → option (list bytes);
  takes : bytes → bytes → bool;
  not_allowed : Route → Response;
}.
Definition no_slash (s : bytes) : bool := forallb (λ c, negb (Ascii.eqb c "/")) s.
(** The path a route spells with its parameters, a parameter being any segment that
    is not empty. *)
Fixpoint spelled (ps : list Piece) (params : list bytes) : option bytes :=
  match ps, params with
  | [], [] => Some []
  | Exactly s :: ps, _ => r ← spelled ps params; Some ("/"%char :: s ++ r)
  | Any :: ps, x :: params => if nonempty x && no_slash x then r ← spelled ps params; Some ("/"%char :: x ++ r) else None
  | _, _ => None
  end.
Definition plain_piece (p : Piece) : bool := match p with Exactly s => no_slash s | Any => true end.
Definition plain_route (ps : list Piece) : bool := forallb plain_piece ps && match ps with [] => false | _ => true end.
(** As the crate documents it: a route matches the paths it spells, and [get] also
    answers [HEAD]. *)
Class AxumLaws `{Axum} : Prop := {
  match_path_spec ps path params : plain_route ps = true → match_path ps path = Some params ↔ spelled ps params = Some path;
  takes_spec x m : takes x m = true ↔ x = m ∨ (x = b#"GET" ∧ m = b#"HEAD");
}.

Inductive Routed := To (e : list bytes → Endpoint) (params : list bytes) | WrongMethod (r : Route) | Unrouted.
Fixpoint route_in `{Axum} (rs : list Route) (method path : bytes) : Routed :=
  match rs with
  | [] => Unrouted
  | r :: rs =>
    match match_path (route_pieces r) path with
    | Some params =>
      match List.find (λ x, takes (fst x) method) (methods r) with
      | Some (_, e) => To e params
      | None => WrongMethod r
      end
    | None => route_in rs method path
    end
  end.
Definition route `{Axum} : bytes → bytes → Routed := route_in routes.

(** ** Handlers *)

(** What axum and serde make of the parts of a request, or the response that says
    they could not. *)
Record AssertParams := {
  min : option Z; max : option Z; subject : option bytes; sender : option bytes; recipient : option bytes;
}.
Class Extract := {
  percent_decode : bytes → result Response bytes;
  query_pairs : bytes → result Response (list (bytes * bytes));
  raw_limit : bytes → result Response (option bytes);
  export_format : bytes → result Response (option bytes);
  assert_params : bytes → result Response AssertParams;
  update_body : HeaderMap → bytes → result Response UpdateBody;
  release_body : HeaderMap → bytes → result Response ReleaseBody;
}.
Definition extracted {A} (r : result Response A) (k : A → Handler) : Handler :=
  match r with Ok a => k a | Err rejection => mret rejection end.
Fixpoint decoded `{Extract} (params : list bytes) : result Response (list bytes) :=
  match params with
  | [] => Ok []
  | p :: ps => p ← percent_decode p; ps ← decoded ps; mret (p :: ps)
  end.

Section api.
Context `{Json, Zstd, MailParser, Sqlite, Platform, Pager, HeaderParser, Lettre, HeaderText, Assets, Extract, Axum}.
(** [WebSocket.ws_handler] answers a handshake. *)
Context (st : ApiState) (ws_handler : Request → Response).

Definition handle (e : Endpoint) (r : Request) : Handler :=
  match e with
  | ListMessages => extracted (query_pairs (query_string r)) list_messages
  | DeleteAllMessages => delete_all_messages
  | GetMessage i => get_message i
  | UpdateMessage i => extracted (update_body (request_headers r) (request_body r)) (update_message i)
  | DeleteMessage i => delete_message i
  | GetRawMessage i => extracted (raw_limit (query_string r)) (get_raw_message i)
  | GetHeaders i => get_headers i
  | ListAttachments i => list_attachments i
  | GetAttachment i aid => get_attachment i aid
  | GetInlineAttachment i cid => get_inline_attachment i cid
  | GetAuthResults i => get_auth_results i
  | ExportMessage i => extracted (export_format (query_string r)) (export_message i)
  | ReleaseMessage i =>
    extracted (release_body (request_headers r) (request_body r)) (release_message (release_host st) (release_port st) i)
  | AssertCount =>
    extracted (assert_params (query_string r))
      (λ p, assert_count (min p) (max p) (subject p) (sender p) (recipient p))
  | GetInfo => get_info (server_info st)
  | OpenWebSocket => mret (ws_handler r)
  end.

(** [in_time] says whether the handler ends within the limit. A read that is cut off
    is run to its end here, which changes nothing either. *)
Definition routed (in_time : bool) (r : Request) (s : App) : option (Response * App) :=
  match route (method r) (path r) with
  | To e params =>
    let e' := extracted (decoded params) (λ ps, handle (e ps) r) in
    '(response, s) ← respond e' s;
    Some (match e params with OpenWebSocket => response | _ => time_out_reads (method r) in_time response end, s)
  | WrongMethod x => Some (not_allowed x, s)
  | Unrouted => Some (static_handler (path r) (request_headers r), s)
  end.
Definition refusal (status : Z) (reason : bytes) : Response :=
  {| status := status; Handlers.headers := []; body := RawBody reason |}.
Definition bodiless (method : bytes) (r : Response) : Response :=
  if beqb method b#"HEAD" then {| status := status r; Handlers.headers := headers r; body := NoBody |} else r.
(** The layers, outside in: the security headers, the guard of the host, the routes.
    Compression and tracing do not change what a response says. *)
Definition router (in_time : bool) (r : Request) (s : App) : option (Response * App) :=
  '(response, s) ← guard_host (λ status reason, Some (refusal status reason, s)) (request_headers r)
    (allowed_hosts st) (allowed_origins st) (routed in_time r s);
  Some (bodiless (method r) (secured response), s).
End api.

Definition routed_to `{Axum} (method path : bytes) : option Endpoint :=
  match route method path with To e params => Some (e params) | _ => None end.

(** ** Matching paths *)

(** A matcher by the segments of the path. *)
Fixpoint match_pieces (ps : list Piece) (segments : list bytes) : option (list bytes) :=
  match ps, segments with
  | [], [] => Some []
  | Exactly s :: ps, x :: xs => if beqb s x then match_pieces ps xs else None
  | Any :: ps, x :: xs => if nonempty x then (x ::.) <$> match_pieces ps xs else None
  | _, _ => None
  end.
Definition match_segments (ps : list Piece) (path : bytes) : option (list bytes) :=
  rest ← strip_prefix b#"/" path; match_pieces ps (split "/" rest).

Lemma split_cases rest : (no_slash rest = true ∧ split "/" rest = [rest]) ∨
  ∃ x r, rest = x ++ "/"%char :: r ∧ no_slash x = true ∧ split "/" rest = x :: split "/" r.
Proof.
  destruct (no_slash rest) eqn:Hn; [left; split; [done|by apply split_on_none]|right].
  induction rest as [|c rest IH]; [done|]. unfold no_slash in *. simpl in Hn. destruct (Ascii.eqb_spec c "/") as [->|Hc].
  - by exists [], rest.
  - simpl in Hn. destruct (IH Hn) as (x & r & -> & Hx & _). exists (c :: x), r.
    assert (Hcx : no_slash (c :: x) = true) by (unfold no_slash; simpl; rewrite Hx; by destruct (Ascii.eqb_spec c "/")).
    split_and!; [done|exact Hcx|]. change (c :: x ++ "/"%char :: r) with ((c :: x) ++ "/"%char :: r). by apply split_on_app.
Qed.
Lemma spelled_slash ps params path : ps ≠ [] → spelled ps params = Some path → ∃ r, path = "/"%char :: r.
Proof.
  destruct ps as [|[s|] ps]; simpl; [done| |].
  - intros _ Hs. destruct (spelled ps params); [|done]. injection Hs as <-. by eexists.
  - intros _ Hs. destruct params as [|x params]; [done|]. destruct (nonempty x && no_slash x); [|done].
    destruct (spelled ps params); [|done]. injection Hs as <-. by eexists.
Qed.
(** A segment fits a piece, and is a parameter or not. *)
Definition fits (p : Piece) (x : bytes) (params rest : list bytes) : Prop :=
  match p with Exactly s => s = x ∧ params = rest | Any => x ≠ [] ∧ params = x :: rest end.
Lemma spelled_cons p ps params rest : plain_piece p = true →
  spelled (p :: ps) params = Some ("/"%char :: rest) ↔
  ∃ x params' r, rest = x ++ r ∧ no_slash x = true ∧ fits p x params params' ∧ spelled ps params' = Some r.
Proof.
  intros Hp. split.
  - destruct p as [s|]; simpl.
    + destruct (spelled ps params) as [r|] eqn:Hs; [|done]. intros [= <-]. by exists s, params, r.
    + destruct params as [|x params]; [done|]. destruct (nonempty x && no_slash x) eqn:Hx; [|done].
      destruct (spelled ps params) as [r|] eqn:Hs; [|done]. intros [= <-]. apply andb_true_iff in Hx as [Hne Hx].
      exists x, params, r. split_and!; try done. by destruct x.
  - intros (x & params' & r & -> & Hx & Hf & Hs). destruct p as [s|]; simpl in *.
    + destruct Hf as [-> ->]. by rewrite Hs.
    + destruct Hf as [Hne ->]. rewrite Hs. destruct x; [done|]. by rewrite Hx.
Qed.
Lemma match_pieces_cons p ps x xs params :
  match_pieces (p :: ps) (x :: xs) = Some params ↔ ∃ params', fits p x params params' ∧ match_pieces ps xs = Some params'.
Proof.
  destruct p as [s|]; simpl.
  - destruct (beqb s x) eqn:Hs; [apply beqb_spec in Hs as ->|apply beqb_false in Hs]; naive_solver.
  - destruct x as [|c x]; simpl; [naive_solver|]. rewrite fmap_Some. naive_solver.
Qed.
Lemma slash_unique x y r t : no_slash x = true → no_slash y = true → x ++ "/"%char :: r = y ++ "/"%char :: t → x = y ∧ r = t.
Proof.
  intros Hx Hy Heq. assert (Hs : split "/" (x ++ "/"%char :: r) = split "/" (y ++ "/"%char :: t)) by by rewrite Heq.
  unfold split in Hs. rewrite !split_on_app in Hs by done. injection Hs as -> _. by apply app_inv_head in Heq as [= ->].
Qed.
Lemma slash_app x r t : no_slash t = true → t ≠ x ++ "/"%char :: r.
Proof. intros Ht ->. unfold no_slash in Ht. rewrite forallb_app in Ht. simpl in Ht. by rewrite andb_false_r in Ht. Qed.
Lemma match_pieces_nil xs ps params : match_pieces ps xs = Some params → (ps = [] ↔ xs = []).
Proof. by destruct ps as [|[s|] ps], xs. Qed.
Lemma split_not_nil rest : split "/" rest ≠ [].
Proof. by destruct (split_cases rest) as [[_ ->]|(x & r & _ & _ & ->)]. Qed.
Lemma match_pieces_spec ps rest params : plain_route ps = true →
  match_pieces ps (split "/" rest) = Some params ↔ spelled ps params = Some ("/"%char :: rest).
Proof.
  revert rest params. induction ps as [|p ps IH]; intros rest params [Hall Hne]%andb_true_iff; [done|].
  simpl in Hall. apply andb_true_iff in Hall as [Hp Hps]. rewrite spelled_cons by done.
  assert (Hlast : ∀ params' r, ps ≠ [] → spelled ps params' = Some r → ∃ t, r = "/"%char :: t)
    by (intros params' r; apply spelled_slash).
  destruct (split_cases rest) as [[Hn ->]|(x & r & -> & Hx & ->)]; rewrite match_pieces_cons; split.
  - intros (params' & Hf & Hm). pose proof (match_pieces_nil _ _ _ Hm) as [_ Hnil]. rewrite (Hnil eq_refl) in *.
    injection Hm as <-. exists rest, [], []. by rewrite app_nil_r.
  - intros (x & params' & r & -> & Hx & Hf & Hs). destruct (decide (ps = [])) as [->|Hnil].
    + destruct params'; [|done]. injection Hs as <-. rewrite app_nil_r. by exists [].
    + destruct (Hlast _ _ Hnil Hs) as [t ->]. by destruct (slash_app x t _ Hn).
  - intros (params' & Hf & Hm). assert (Hnil : ps ≠ []).
    { intros ->. pose proof (match_pieces_nil _ _ _ Hm) as [He _]. by apply (split_not_nil r), He. }
    exists x, params', ("/"%char :: r). split_and!; [done..|]. apply IH; [|done]. unfold plain_route. rewrite Hps. by destruct ps.
  - intros (y & params' & t & Heq & Hy & Hf & Hs). destruct (decide (ps = [])) as [->|Hnil].
    + destruct params'; [|done]. injection Hs as <-. rewrite app_nil_r in Heq. symmetry in Heq. by destruct (slash_app x r y Hy).
    + destruct (Hlast _ _ Hnil Hs) as [u ->]. apply slash_unique in Heq as [-> ->]; [|done..]. exists params'. split; [done|].
      apply IH; [|done]. unfold plain_route. rewrite Hps. by destruct ps.
Qed.
Lemma match_segments_spec ps path params : plain_route ps = true →
  match_segments ps path = Some params ↔ spelled ps params = Some path.
Proof.
  intros Hps. assert (Hne : ps ≠ []) by (intros ->; done). unfold match_segments. destruct path as [|c path].
  - simpl. split; [done|]. intros Hs. by destruct (spelled_slash _ _ _ Hne Hs) as [r [=]].
  - change (strip_prefix b#"/" (c :: path)) with (if Ascii.eqb "/" c then Some path else None).
    destruct (Ascii.eqb_spec "/" c) as [<-|Hc]; cbn [mbind option_bind].
    + by apply match_pieces_spec.
    + split; [done|]. intros Hs. destruct (spelled_slash _ _ _ Hne Hs) as [r [= ->]]; done.
Qed.

(** ** What a request can do *)

(** A read of the repository; a computation that reads only; one that keeps a sound
    store sound. *)
Definition reads {A} (op : DB A) : Prop := ∀ w, wp op (λ _ w', harmless w w') w.
Definition silent {E A} (c : M App E A) : Prop :=
  ∀ s, wp c (λ _ s', harmless (world s) (world s') ∧ history s' = history s) s.
Definition tame `{Json} {E A} (c : M App E A) : Prop :=
  ∀ s, sound (world s) → wp c (λ _ s', sound (world s')) s.

Lemma harmless_refl w : harmless w w.
Proof. by split. Qed.
Lemma harmless_trans w1 w2 w3 : harmless w1 w2 → harmless w2 w3 → harmless w1 w3.
Proof. intros [Hd1 Hl1] [Hd2 Hl2]. split; [congruence|by apply (locked_trans w1 w2 w3)]. Qed.

Lemma reads_query {A} (f : Tables → A) : reads (query f).
Proof. intros w. by apply query_harmless. Qed.
Lemma reads_ret {A} (a : A) : reads (mret a).
Proof. intros w. by apply wp_ret. Qed.
Lemma reads_fail {A} e : reads (fail e : DB A).
Proof. intros w. by eexists _, _. Qed.
Lemma reads_lift {A} (r : result StorageError A) : reads (Repo.lift r).
Proof. destruct r; [apply reads_ret|apply reads_fail]. Qed.
Lemma reads_bind {A B} (op : DB A) (k : A → DB B) : reads op → (∀ a, reads (k a)) → reads (op ≫= k).
Proof.
  intros Ho Hk w. apply wp_bind. eapply wp_mono; [apply Ho|]. intros [a|e] w1 Hh; [|done].
  eapply wp_mono; [apply Hk|]. intros r2 w2. by apply harmless_trans.
Qed.
Lemma silent_ret {E A} (a : A) : silent (mret a : M App E A).
Proof. intros s. by apply wp_ret. Qed.
Lemma silent_fail {E A} e : silent (fail e : M App E A).
Proof. intros s. by eexists _, _. Qed.
Lemma silent_try {E A} (op : DB A) : reads op → silent (try op : M App E _).
Proof. intros Ho s. apply wp_try. eapply wp_mono; [apply Ho|]. by intros r w Hh. Qed.
Lemma silent_bind {E A B} (c : M App E A) (k : A → M App E B) : silent c → (∀ a, silent (k a)) → silent (c ≫= k).
Proof.
  intros Hc Hk s. apply wp_bind. eapply wp_mono; [apply Hc|]. intros [a|e] s1 [Hh1 He1]; [|done].
  eapply wp_mono; [apply Hk|]. intros r2 s2 [Hh2 He2]. split; [by eapply harmless_trans|congruence].
Qed.
Lemma silent_call {E A} (from : StorageError → E) (op : DB A) : reads op → silent (call from op).
Proof.
  intros Ho. apply silent_bind; [by apply silent_try|]. intros []; [apply silent_ret|apply silent_fail].
Qed.
Lemma silent_raise {A} (r : result AppError A) : silent (raise r).
Proof. destruct r; [apply silent_ret|apply silent_fail]. Qed.

(** The reads of the handlers, step by step. *)
Ltac reading :=
  repeat first
    [ apply reads_query | apply reads_ret | apply reads_fail | apply reads_lift
    | apply silent_ret | apply silent_fail | apply silent_raise | apply silent_call | apply silent_try
    | apply reads_bind; [|intros ?] | apply silent_bind; [|intros ?]
    | case_match ].

Section reading.
Context `{Json, Zstd, MailParser, Sqlite, Platform, Pager, HeaderParser, Lettre, Extract, Axum}.

Lemma silent_extracted {A} (r : result Response A) (k : A → Handler) : (∀ a, silent (k a)) → silent (extracted r k).
Proof. intros Hk. destruct r; [apply Hk|apply silent_ret]. Qed.
Lemma list_messages_silent pairs : silent (Handlers.list_messages pairs).
Proof.
  unfold Handlers.list_messages, page_start, cursor, search_page, search_count_filtered, search_count, list_page, count_filtered, count.
  reading.
Qed.

Context `{HeaderText, Assets} (st : ApiState) (ws_handler : Request → Response).

Definition writes (e : Endpoint) : bool :=
  match e with DeleteAllMessages | UpdateMessage _ | DeleteMessage _ | ReleaseMessage _ => true | _ => false end.
Lemma handle_silent e r : writes e = false → silent (handle st ws_handler e r).
Proof.
  intros Hw. destruct e; try discriminate Hw; cbn [handle]; try (apply silent_extracted; intros ?); try apply list_messages_silent;
    unfold Handlers.get_message, get_raw_message, get_headers, Handlers.list_attachments, Handlers.get_attachment,
      Handlers.get_inline_attachment, get_auth_results, export_message, assert_count, get_info, read_header_section,
      Repo.get, get_raw, get_raw_prefix, get_attachments, Repo.get_attachment, get_attachment_by_content_id, count_matching;
    reading.
Qed.

Context `{!JsonLaws}.

Lemma harmless_sound w w' : harmless w w' → sound w → sound w'.
Proof. intros [Hd [Hr _]] [Hwf Hrs]. split; [by rewrite Hd|by rewrite Hr]. Qed.
Lemma silent_tame {E A} (c : M App E A) : silent c → tame c.
Proof. intros Hc s Hs. eapply wp_mono; [apply Hc|]. intros r s' [Hh _]. by eapply harmless_sound. Qed.
Lemma tame_bind {E A B} (c : M App E A) (k : A → M App E B) : tame c → (∀ a, tame (k a)) → tame (c ≫= k).
Proof. intros Hc Hk s Hs. apply wp_bind. eapply wp_mono; [by apply Hc|]. intros [a|e] s1 Hs1; [by apply Hk|done]. Qed.
Lemma tame_call {E A} (from : StorageError → E) (op : DB A) : (∀ w, sound w → wp op (λ _ w', sound w') w) → tame (call from op).
Proof.
  intros Ho s Hs. apply wp_call. eapply wp_mono; [by apply Ho|]. by intros r w Hw.
Qed.
Lemma tame_broadcast {E} e : tame (broadcast e : M App E unit).
Proof. intros s Hs. by eexists _, _. Qed.
Lemma tame_ret {E A} (a : A) : tame (mret a : M App E A).
Proof. apply silent_tame, silent_ret. Qed.
Lemma reclaim_silent {E} : silent (reclaim_after_delete_all : M App E unit).
Proof. unfold reclaim_after_delete_all. apply silent_bind; [apply silent_try; intros w; apply reclaim_harmless|intros; apply silent_ret]. Qed.
Lemma delete_all_sound w : sound w → wp Repo.delete_all (λ _ w', sound w') w.
Proof.
  intros Hs. eapply atomic_sound; [apply delete_all_atomic| |done]. intros a t t' [_ ->] _. apply empty_wf.
Qed.
Lemma release_to_tame i host port : tame (release_to i host port).
Proof.
  unfold release_to. apply tame_bind; [apply silent_tame; unfold get_raw; reading|intros raw].
  apply tame_bind; [apply silent_tame; unfold Repo.get; reading|intros m].
  repeat case_match; try apply tame_ret; (apply tame_bind; [intros s0 Hs0; by eexists _, _|intros; apply tame_ret]).
Qed.
Lemma release_tame i b : tame (release_message (release_host st) (release_port st) i b).
Proof. unfold release_message. repeat case_match; first [apply tame_ret|apply release_to_tame]. Qed.
Lemma handle_tame e r : tame (handle st ws_handler e r).
Proof.
  destruct (writes e) eqn:Hw; [|by apply silent_tame, handle_silent].
  destruct e; try discriminate Hw; cbn [handle]; try (unfold extracted; case_match; [|apply tame_ret]).
  - unfold delete_all_messages. apply tame_bind; [apply tame_call, delete_all_sound|intros n].
    apply tame_bind; [apply tame_broadcast|intros []]. apply tame_bind; [apply silent_tame, reclaim_silent|intros []; apply tame_ret].
  - unfold update_message. case_match; [apply tame_ret|]. apply tame_bind.
    { apply tame_call. intros w Hs. apply (perform_sound (RepoProperties.UpdateMessage _ _ _ _) w Hs). }
    intros []. repeat (apply tame_bind; [case_match; first [apply tame_broadcast|apply tame_ret]|intros []]). apply tame_ret.
  - unfold delete_message. apply tame_bind; [apply tame_call; intros w Hs; apply (perform_sound (RepoProperties.Delete _) w Hs)|].
    intros []. apply tame_bind; [apply tame_broadcast|intros []; apply tame_ret].
  - apply release_tame.
Qed.

(** ** Requests *)

Context `{!AxumLaws}.
Lemma routed_route rs m p e ps : route_in rs m p = To e ps →
  ∃ r x, r ∈ rs ∧ (x : bytes * (list bytes → Endpoint)) ∈ methods r ∧ takes (fst x) m = true ∧ snd x = e.
Proof.
  induction rs as [|r rs IH]; simpl; [done|]. destruct (match_path (route_pieces r) p) as [params|].
  - destruct (List.find _ (methods r)) as [[a f]|] eqn:Hf; [|done]. intros [= <- <-].
    apply List.find_some in Hf as [Hin%list_elem_of_In Ht]. exists r, (a, f). by split_and!; [left| | |].
  - intros (r' & x & Hr & Hx)%IH. exists r', x. by split; [right|].
Qed.
(** The routes of [GET] only read; of the others a parameter makes no difference. *)
Lemma routes_checked : Forall (λ r, Forall (λ x,
  (∀ ps, writes (snd x ps) = negb (beqb (fst x) b#"GET")) ∧ fst x ≠ b#"HEAD") (methods r)) routes.
Proof. repeat constructor; simpl; congruence. Qed.
Lemma route_writes m p e ps : route m p = To e ps →
  (∀ xs, writes (e xs) = writes (e ps)) ∧ (is_read m = true → writes (e ps) = false).
Proof.
  intros (r & x & Hr & Hx & Ht & <-)%routed_route. pose proof routes_checked as Hall. rewrite Forall_forall in Hall.
  specialize (Hall r Hr). rewrite Forall_forall in Hall. destruct (Hall x Hx) as [Hw Hh]. split; [intros xs; by rewrite !Hw|].
  rewrite Hw. unfold is_read. intros [Hm|Hm]%orb_true_iff; apply beqb_spec in Hm as ->;
    apply takes_spec in Ht as [Hf|[Hf Hm]]; rewrite Hf in *; first [done|by vm_compute in Hm|by rewrite beqb_refl].
Qed.

(** The store a request finds and leaves, and what it announced. *)
Definition unchanged (s s' : App) : Prop := db (world s') = db (world s) ∧ history s' = history s.
Lemma respond_spec e r s : sound (world s) →
  ∃ resp s', respond (handle st ws_handler e r) s = Some (resp, s') ∧ sound (world s') ∧ (writes e = false → unchanged s s').
Proof.
  intros Hs. unfold respond. destruct (handle_tame e r s Hs) as (res & s' & Hrun & Hs'). rewrite Hrun.
  assert (Hq : writes e = false → unchanged s s').
  { intros Hw. destruct (handle_silent e r Hw s) as (r2 & s2 & Hrun2 & [Hd _] & Hh). rewrite Hrun in Hrun2. by simplify_eq. }
  destruct res; by eexists _, _.
Qed.
Lemma routed_spec in_time r s : sound (world s) →
  ∃ resp s', routed st ws_handler in_time r s = Some (resp, s') ∧ sound (world s') ∧
    (unchanged s s' ∨ ∃ e, routed_to (method r) (path r) = Some e ∧ writes e = true ∧ is_read (method r) = false).
Proof.
  intros Hs. unfold routed, routed_to. destruct (route (method r) (path r)) as [e params| |] eqn:Hr;
    [|eexists _, s; split_and!; [reflexivity|done|by left; split]..].
  destruct (route_writes _ _ _ _ Hr) as [Hparams Hread]. unfold extracted. destruct (decoded params) as [ps|rejection].
  - destruct (respond_spec (e ps) r s Hs) as (resp & s' & -> & Hs' & Hq). eexists _, s'. split_and!; [reflexivity|done|].
    destruct (writes (e params)) eqn:Hw; [right|left; apply Hq; by rewrite Hparams].
    exists (e params). split_and!; [done|done|]. destruct (is_read (method r)); [|done]. by specialize (Hread eq_refl).
  - eexists _, s. split_and!; [reflexivity|done|by left; split].
Qed.

Lemma layers_keep_status m resp : status (bodiless m (secured resp)) = status resp.
Proof.
  unfold bodiless, secured. assert (Hf : ∀ l x, status (fold_left if_not_present l x) = status x).
  { induction l as [|h l IH]; intros x; simpl; [done|]. rewrite IH. unfold if_not_present. by destruct (contains_key _ _). }
  rewrite <- (Hf SECURITY_HEADERS resp). by destruct (beqb m b#"HEAD").
Qed.

(** C28: safety. Every request is answered, with the security headers, and leaves a
    consistent store. A [GET] or a [HEAD] changes no message and announces nothing,
    whatever its path and its parameters; what changes something is a request of
    another method on one of the four routes that write. A browser's request under
    a name that is not served does nothing at all and is answered [403]. *)
Theorem requests_are_safe in_time r s : sound (world s) →
  ∃ resp s', router st ws_handler in_time r s = Some (resp, s') ∧ sound (world s') ∧
    (∀ h, h ∈ SECURITY_HEADERS → contains_key (fst h) (headers resp) = true) ∧
    (unchanged s s' ∨ ∃ e, routed_to (method r) (path r) = Some e ∧ writes e = true ∧ is_read (method r) = false) ∧
    (is_browser_request (request_headers r) = true →
     host_allowed (request_headers r) (allowed_hosts st) (allowed_origins st) = false →
     s' = s ∧ status resp = FORBIDDEN).
Proof.
  intros Hs. unfold router, guard_host.
  assert (Hsec : ∀ x h, h ∈ SECURITY_HEADERS → contains_key (fst h) (headers (bodiless (method r) (secured x))) = true).
  { intros x h Hin. unfold bodiless. destruct (beqb _ _); by apply every_response_secured. }
  destruct (is_browser_request (request_headers r)), (host_allowed (request_headers r) (allowed_hosts st) (allowed_origins st)); cbn [andb negb].
  2: { eexists _, s. split_and!; [reflexivity|done|apply Hsec|by left; split|]. intros _ _. split; [done|]. by rewrite layers_keep_status. }
  all: destruct (routed_spec in_time r s Hs) as (resp & s' & -> & Hs' & Hu); eexists _, s'; split_and!; [reflexivity|done|apply Hsec|done|done].
Qed.

(** A request for the source of a message, by its identifier, that is not refused. *)
Record asks_source (r : Request) (i : bytes) : Prop := {
  as_method : method r = b#"GET";
  as_path : ∃ text, path r = b#"/api/v1/messages/" ++ text ++ b#"/raw" ∧ text ≠ [] ∧ "/"%char ∉ text ∧ percent_decode text = Ok i;
  as_query : raw_limit (query_string r) = Ok None;
  as_host : is_browser_request (request_headers r) = true →
    host_allowed (request_headers r) (allowed_hosts st) (allowed_origins st) = true;
}.
Lemma routes_plain : Forall (λ r, plain_route (route_pieces r) = true) routes.
Proof. repeat constructor. Qed.
Lemma match_is r path : r ∈ routes → match_path (route_pieces r) path = match_segments (route_pieces r) path.
Proof.
  intros Hr. pose proof routes_plain as Hall. rewrite Forall_forall in Hall. specialize (Hall r Hr). apply option_eq.
  intros params. by rewrite match_path_spec, match_segments_spec.
Qed.
Lemma source_routed r i : asks_source r i →
  ∃ text, route (method r) (path r) = To (λ ps, GetRawMessage (part 0 ps)) [text] ∧ decoded [text] = Ok [i].
Proof.
  intros [-> (text & -> & Hne & Hno & Hdec) _ _]. exists text. split; [|simpl; by rewrite Hdec].
  assert (Hall : no_slash text = true).
  { apply forallb_forall. intros c Hc%list_elem_of_In. apply negb_true_iff, Ascii.eqb_neq. by intros ->. }
  assert (Hsplit : split "/" (b#"api/v1/messages/" ++ text ++ b#"/raw") = [b#"api"; b#"v1"; b#"messages"; text; b#"raw"]).
  { unfold split, lit. cbn. by rewrite split_on_app. }
  assert (Hmatch : ∀ x, x ∈ routes → match_path (route_pieces x) (b#"/api/v1/messages/" ++ text ++ b#"/raw") =
    match_pieces (route_pieces x) [b#"api"; b#"v1"; b#"messages"; text; b#"raw"]).
  { intros x Hx. rewrite match_is by done. by rewrite <- Hsplit. }
  assert (Hget : takes b#"GET" b#"GET" = true) by (apply takes_spec; by left).
  unfold route. destruct text as [|c text]; [done|].
  assert (Hroutes : ∃ x y z rest, routes = x :: y :: z :: rest ∧
    match_pieces (route_pieces x) [b#"api"; b#"v1"; b#"messages"; c :: text; b#"raw"] = None ∧
    match_pieces (route_pieces y) [b#"api"; b#"v1"; b#"messages"; c :: text; b#"raw"] = None ∧
    match_pieces (route_pieces z) [b#"api"; b#"v1"; b#"messages"; c :: text; b#"raw"] = Some [c :: text] ∧
    methods z = [(b#"GET", λ ps, GetRawMessage (part 0 ps))]) by (eexists _, _, _, _; split_and!; reflexivity).
  destruct Hroutes as (x & y & z & others & Hrs & Hx & Hy & Hz & Hm). rewrite Hrs in *. cbn [route_in].
  rewrite !Hmatch by set_solver. rewrite Hx, Hy, Hz, Hm. cbn [List.find fst]. by rewrite Hget.
Qed.
Lemma source_answered r i raw s : asks_source r i → get_raw_message i None s = Some (Ok (source_response raw), s) →
  router st ws_handler true r s = Some (secured (source_response raw), s).
Proof.
  intros Hr Hraw. destruct (source_routed r i Hr) as (text & Hroute & Hdec). unfold router, guard_host.
  assert (is_browser_request (request_headers r) && negb (host_allowed (request_headers r) (allowed_hosts st) (allowed_origins st)) = false) as ->.
  { destruct (is_browser_request _) eqn:Hb; [|done]. by rewrite (as_host _ _ Hr Hb). }
  unfold routed. rewrite Hroute, Hdec. cbn [extracted handle part nth]. rewrite (as_query _ _ Hr). cbn [extracted].
  unfold respond. rewrite Hraw. simpl. by rewrite (as_method _ _ Hr).
Qed.
End reading.

(** ** Requests *)

(** Stand-ins for what the extractors, the relay, the parser of headers, the pager
    and the embedded files may be. *)
Module PlainApi.
#[export] Instance pager : Pager := {|
  page_stats _ := {| page_size := 4096; page_count := 10; freelist_count := 2 |};
  vacuum _ _ := {| before_deadline := true; step := Ok 0%Z |};
  checkpoint _ := Ok 0%Z;
|}.
#[export] Instance no_headers : HeaderParser := {| parse_headers _ := None; as_str _ := [] |}.
#[export] Instance no_relay : Lettre :=
  {| is_address _ := true; envelope_refusal _ _ := None; transport_builds _ := false; relay_accepts _ _ := false |}.
#[export] Instance no_assets : Assets := {| get_asset _ := None; mime_of _ := b#"text/plain" |}.
#[export] Instance plain_extract : Extract := {|
  percent_decode s := Ok s;
  query_pairs _ := Ok [];
  raw_limit _ := Ok None;
  export_format _ := Ok None;
  assert_params _ := Ok {| min := None; max := None; subject := None; sender := None; recipient := None |};
  update_body _ _ := Ok {| u_is_read := Some true; u_is_starred := None; u_tags := None |};
  release_body _ _ := Err (error_response 422 b#"missing field");
|}.
#[export] Instance segments : Axum := {|
  match_path := match_segments;
  takes x m := beqb x m || (beqb x b#"GET" && beqb m b#"HEAD");
  not_allowed _ := error_response 405 b#"method not allowed";
|}.
#[export] Instance segments_laws : AxumLaws.
Proof.
  split; [intros ps path params; apply match_segments_spec|]. intros x m. unfold takes, segments.
  rewrite orb_true_iff, andb_true_iff, !beqb_spec. naive_solver.
Qed.
Definition plain_state : ApiState := with_server_info {| version := b#"1.2.3"; smtp_port := 1025 |} (new_state None None).
Definition no_sockets (_ : Request) : Response := error_response 503 b#"full".
End PlainApi.
Import PlainApi PlainZstd.

Definition request (m p : bytes) (hs : HeaderMap) : Request :=
  {| method := m; path := p; query_string := []; request_headers := hs; request_body := [] |}.
Definition contended_app : App := {| world := contended; history := []; abandonments := []; overdue := [] |}.
(** A page under a foreign name asks for every message to be deleted. *)
Definition rebound : Request := request b#"DELETE" b#"/api/v1/messages" [(b#"host", b#"evil.example"); (b#"origin", b#"http://evil.example")].
Lemma requests_are_safe_witness :
  ∃ resp s', router plain_state no_sockets true rebound contended_app = Some (resp, s') ∧ s' = contended_app ∧ status resp = FORBIDDEN.
Proof.
  destruct (requests_are_safe plain_state no_sockets true rebound contended_app contended_sound)
    as (resp & s' & Hrun & _ & _ & _ & Hno).
  exists resp, s'. split; [exact Hrun|]. apply Hno; vm_compute; reflexivity.
Defined.

Definition asked (m p : bytes) : option Z :=
  '(resp, _) ← router plain_state no_sockets true (request m p []) {| world := calm empty_tables; history := []; abandonments := []; overdue := [] |};
  Some (status resp).
Example answers :
  map (λ x, asked (fst x) (snd x))
    [(b#"GET", b#"/api/v1/messages"); (b#"GET", b#"/api/v1/messages/01A"); (b#"PUT", b#"/api/v1/messages/01A");
     (b#"DELETE", b#"/api/v1/messages"); (b#"POST", b#"/api/v1/messages/01A/release"); (b#"GET", b#"/api/v1/info");
     (b#"GET", b#"/api/v1/nothing"); (b#"GET", b#"/inbox"); (b#"GET", b#"/api/v1/ws")] =
  [Some 200; Some 404; Some 405; Some 200; Some 422; Some 200; Some 404; Some 404; Some 503]%Z.
Proof. vm_compute. reflexivity. Qed.
(** A read that passes the limit is answered [503]. *)
Example too_slow :
  (λ x, status (fst x)) <$> router plain_state no_sockets false (request b#"GET" b#"/api/v1/messages" []) contended_app = Some 503%Z.
Proof. vm_compute. reflexivity. Qed.
