(* ===== verification/Serve.v ===== *)
(** What [run_serve] of [crates/rustmail-server/src/main.rs] does before it serves:
    the settings it checks, the database it opens, and the shared state and the
    SMTP configuration it makes of both. *)
From S2P Require Import Prelude RustStd Net StorageError Content MailParser Locator Prepared Query Database Store Repo Tables OldDb Fingerprint MigrateDisk MigrateBuild Migrate MigrateLogic Instances RepoProperties RepoReads MigrateProperties Startup Restart Origin Host.
From S2P Require Schema SmtpServer Config AppState Retention Handlers Headers Release Router Api.

(** The arguments as clap gives them: the lists are split at the commas. *)
Record ServeArgs := {
  bind : bytes;
  smtp_port : nat;
  http_port : nat;
  db_path : option bytes;
  ephemeral : bool;
  max_message_size : nat;
  smtp_tls_cert : option bytes;
  smtp_tls_key : option bytes;
  retention : Z;
  max_messages : Z;
  log_level : bytes;
  webhook_url : option bytes;
  arg_release_host : option bytes;
  arg_allowed_origins : list bytes;
  ws_buffer : nat;
  arg_allowed_hosts : list bytes;
  config : option bytes;
}.
Definition default_args : ServeArgs :=
  {| bind := b#"127.0.0.1"; smtp_port := 1025; http_port := 8025; db_path := None; ephemeral := false;
     max_message_size := 10485760; smtp_tls_cert := None; smtp_tls_key := None; retention := 0; max_messages := 0;
     log_level := b#"info"; webhook_url := None; arg_release_host := None; arg_allowed_origins := [];
     ws_buffer := 4096; arg_allowed_hosts := []; config := None |}.

(** [Path::join] of a relative path. *)
Definition path_join (p q : bytes) : bytes :=
  if negb (nonempty p) || ends_with b#"/" p then p ++ q else p ++ b#"/" ++ q.
(** Whether [Path::parent] gives one: not for the root, nor for no path at all. *)
Definition has_parent (p : bytes) : bool :=
  if starts_with b#"/" p then existsb (λ c, nonempty c && negb (beqb c b#".")) (split "/" p) else nonempty p.
Definition default_db_path (data_dir : option bytes) : bytes :=
  path_join (path_join (default b#"." data_dir) b#"rustmail") b#"rustmail.db".

(** Why [run_serve] ends with an error before it serves. *)
Inductive Exit :=
| BadSetting (e : Config.ConfigError)
| NoSignals
| NoDirectory
| NoStore (h : halt).

(** What the server runs on: the repository and the state of the API, what the SMTP
    server is given, the frames the event channel holds, and what the tasks keep. *)
Record Running := {
  served_store : Tables;
  state : Api.ApiState;
  smtp_config : SmtpServer.SmtpServerConfig;
  ws_capacity : nat;
  hook : option bytes;
  retention_hours : Z;
  retention_messages : Z;
}.

Section serve.
Context `{Json, Zstd, MailParser, Machine, Config.UrlParser, Config.Rustls}.
(** The directory of the user's data, the version built in, whether the signal
    handlers can be set, and opening the files of the certificate and the key. *)
Context (data_dir : option bytes) (build_version : bytes) (listens : bool).
Context (open_file : bytes → option bytes).

Abbreviation SetUp := (M Disk Exit).
Definition checked {A} (r : result Config.ConfigError A) : SetUp A :=
  match r with Ok a => mret a | Err e => fail (BadSetting e) end.
Definition on_disk {A} (exit : halt → Exit) (c : FS A) : SetUp A := λ w,
  match c w with Some (r, w) => Some (map_err exit r, w) | None => None end.
(** Directories are no part of the disk; making one is a step that may fail. *)
Definition create_dir_all (p : bytes) : SetUp unit := on_disk (λ _, NoDirectory) (blocking b#"create" p).

(** [open_repository(IN_MEMORY_DB_URL, true)]: a database of its own, in no file. *)
Definition open_in_memory : FS Tables :=
  sql;;
  f ← lift (with_schema (empty_file default_mode));
  sql;;
  match contents f with Schema2 t => mret t | _ => refuse NO_SUCH_TABLE end.
Definition database_path (args : ServeArgs) : bytes := default (default_db_path data_dir) (db_path args).
(** [None]: a stop was asked for first. *)
Definition open_store (args : ServeArgs) : SetUp (option Tables) :=
  if ephemeral args then on_disk NoStore (t ← open_in_memory; mret (Some t))
  else
    (if has_parent (database_path args) then create_dir_all (database_path args) else mret tt);;
    on_disk NoStore (start_store (database_path args)).

(** The checks before the database is touched, in their order. *)
Record Settings := { bind_addr : IpAddr; origins : list Origin; hosts : list Hostname; smtp_tls : option Config.TlsConfig }.
Definition check_settings (args : ServeArgs) : result Config.ConfigError Settings :=
  addr ← Config.parse_bind_addr (bind args);
  origins ← Config.parse_allowed_origins (arg_allowed_origins args);
  hosts ← Config.parse_allowed_hosts (arg_allowed_hosts args);
  tls ← Config.build_smtp_tls_config open_file (smtp_tls_cert args) (smtp_tls_key args);
  mret {| bind_addr := addr; origins := origins; hosts := hosts; smtp_tls := tls |}.
Definition assemble (args : ServeArgs) (s : Settings) (repo : Tables) : Running :=
  let release := Config.parse_release_host <$> arg_release_host args in
  {| served_store := repo;
     state :=
       Api.with_server_info {| Handlers.version := build_version; Handlers.smtp_port := Z.of_nat (smtp_port args) |}
         (Api.with_allowed_hosts (hosts s)
           (Api.with_allowed_origins (origins s) (Api.new_state (fst <$> release) (release ≫= snd))));
     smtp_config := {| SmtpServer.host := bind_addr s; SmtpServer.port := smtp_port args;
                       SmtpServer.config_max_message_size := max_message_size args;
                       SmtpServer.config_tls := match smtp_tls s with Some _ => true | None => false end |};
     ws_capacity := ws_buffer args;
     hook := webhook_url args;
     retention_hours := retention args;
     retention_messages := max_messages args |}.
Definition check_webhook (args : ServeArgs) : result Config.ConfigError unit :=
  match webhook_url args with Some url => Config.validate_webhook_url url | None => Ok tt end.
Definition set_up (args : ServeArgs) : SetUp (option Running) :=
  s ← checked (check_settings args);
  (if listens then mret tt else fail NoSignals);;
  repo ← open_store args;
  match repo with
  | None => mret None
  | Some repo =>
    checked (check_webhook args);;
    mret (Some (assemble args s repo))
  end.

(** ** Laws *)

(** The store the arguments name: none yet when it is kept in memory. *)
Definition the_store (args : ServeArgs) (t : Tables) (w : Disk) : Prop :=
  if ephemeral args then t = empty_tables else store_disk (database_path args) t w.
Definition store_kept (args : ServeArgs) (t : Tables) (w w2 : Disk) : Prop :=
  if ephemeral args then files w2 = files w else store_is (database_path args) (files w) t (files w2).

Lemma meet_spec failed w :
  wp (meet failed) (λ r w', files w' = files w ∧ sides w' = sides w ∧ meddling w' = meddling w ∧
    (lucky w → r = Ok tt ∧ lucky w')) w.
Proof.
  unfold wp, meet. destruct (dead w) eqn:Hd.
  { eexists _, _. split_and!; try reflexivity. intros Hl. pose proof (l_alive _ Hl); congruence. }
  destruct (mishaps w) as [|m ms] eqn:Hm; [|destruct m as [[| |]|]].
  all: eexists _, _; (split; [reflexivity|]); (split_and!; [reflexivity..|]).
  all: intros Hl; pose proof (l_mishaps _ Hl) as Hn; rewrite Hm in Hn; try (by inversion Hn).
  all: (split; [done|]); destruct Hl; split; simpl; try done; first [by apply Forall_nil_2|by inversion Hn].
Qed.
Lemma store_disk_same path t w w' : files w' = files w → sides w' = sides w → meddling w' = meddling w →
  store_disk path t w → store_disk path t w'.
Proof. intros Hf Hs Hm [S1 S2 S3 S4]. by split; unfold tidy in *; rewrite ?Hf, ?Hs, ?Hm. Qed.
Lemma wp_on_disk {A} exit (c : FS A) Q w :
  wp c (λ r w', Q (map_err exit r) w') w → wp (on_disk exit c) Q w.
Proof. intros (r & w' & Hc & HQ). unfold wp, on_disk. rewrite Hc. by eexists _, _. Qed.

Definition no_setting {A} (r : result Exit A) : Prop := ∀ e, r ≠ Err (BadSetting e).
Lemma open_store_spec args t w : the_store args t w →
  wp (open_store args) (λ r w', store_kept args t w w' ∧ no_setting r ∧ (∀ t', r = Ok (Some t') → t' = t) ∧
    (lucky w → r = Ok (Some t))) w.
Proof.
  unfold the_store, store_kept, open_store. destruct (ephemeral args).
  - intros ->. apply wp_on_disk, wp_bind, wp_bind. eapply wp_mono; [apply meet_spec|]. intros r w1 (Hf1 & _ & _ & Hl1).
    destruct r as [[]|h]; [|split_and!; [done..|]; intros Hl; by destruct (Hl1 Hl)].
    apply wp_bind. assert (Hw : with_schema (empty_file default_mode) =
      Ok ((empty_file default_mode) <| contents := Schema2 empty_tables |> <| user_version := Schema.SCHEMA_VERSION |>)) by reflexivity.
    rewrite Hw. apply wp_ret, wp_bind. eapply wp_mono; [apply meet_spec|]. intros r w2 (Hf2 & _ & _ & Hl2).
    destruct r as [[]|h].
    + apply wp_ret, wp_ret. split_and!; [congruence|done|by intros t' [= <-]|done].
    + split_and!; [congruence|done..|]. intros Hl. destruct (Hl1 Hl) as [_ Hl']. by destruct (Hl2 Hl').
  - intros Hs. apply wp_bind. assert (Hdir : wp (if has_parent (database_path args) then create_dir_all (database_path args) else mret tt)
      (λ r w1, files w1 = files w ∧ no_setting r ∧ store_disk (database_path args) t w1 ∧ (lucky w → r = Ok tt ∧ lucky w1)) w).
    { destruct (has_parent _); [|apply wp_ret; split_and!; [done..|auto]]. apply wp_on_disk. eapply wp_mono; [apply meet_spec|].
      intros r w1 (Hf & Hsd & Hm & Hl). split_and!; [done| |by apply (store_disk_same _ _ w)|].
      - by destruct r.
      - intros Hlw. by destruct (Hl Hlw) as [-> ?]. }
    eapply wp_mono; [exact Hdir|]. intros r w1 (Hf & Hn & Hs1 & Hl). destruct r as [[]|e].
    + apply wp_on_disk. destruct (start_serves_the_store _ _ _ Hs1) as (r & w2 & Hrun & Hst & _ & _ & Ht & Hl2).
      exists r, w2. split; [done|]. rewrite Hf in Hst. split_and!; [done|by destruct r| |].
      * intros t' Hr. destruct r as [r|h]; [|done]. simplify_eq/=. by destruct (Ht t' eq_refl).
      * intros Hlw. destruct (Hl Hlw) as [_ Hl1]. by rewrite (Hl2 Hl1).
    + split_and!; [rewrite Hf; apply Hs|by intros e' [= ->]; apply (Hn e')|done|]. intros Hlw. by destruct (Hl Hlw).
Qed.

End serve.

(** ** The names of the settings *)

Section names.
Context `{Json, Zstd, MailParser, Machine, Config.UrlParser, Config.Rustls, HeaderText}.
Context (data_dir : option bytes) (build_version : bytes) (listens : bool).
Context (open_file : bytes → option bytes).
Abbreviation set_up' := (set_up data_dir build_version listens open_file).

Lemma set_up_settings args w s w2 : set_up' args w = Some (Ok (Some s), w2) →
  Config.parse_allowed_hosts (arg_allowed_hosts args) = Ok (Api.allowed_hosts (state s)) ∧
  Config.parse_allowed_origins (arg_allowed_origins args) = Ok (Api.allowed_origins (state s)).
Proof.
  unfold set_up, checked. destruct (check_settings _ args) as [st|] eqn:Hst; [|done]. unfold mbind at 1, M_mbind at 1. simpl.
  destruct listens; [|done]. unfold mbind, M_mbind. simpl. destruct (open_store data_dir args w) as [[[[repo|]|] w1]|]; try done.
  destruct (check_webhook args); [|done]. simpl. intros [= <- <-]. unfold check_settings in Hst.
  destruct (Config.parse_bind_addr _); [|done]. destruct (Config.parse_allowed_origins _); [|done].
  destruct (Config.parse_allowed_hosts _); [|done]. destruct (Config.build_smtp_tls_config _ _ _); [|done].
  by injection Hst as <-.
Qed.

(** The names a server is configured for: a value of [--allowed-host] but for the
    case and the space around it, or the host of a value of [--allowed-origin]. *)
Definition configured (args : ServeArgs) (n : bytes) : Prop :=
  (∃ v, v ∈ arg_allowed_hosts args ∧ to_ascii_lowercase (trim v) = n) ∨
  (∃ v o, v ∈ arg_allowed_origins args ∧ from_str v = Ok o ∧ hostname_of (authority o) = n).
Lemma hostname_from_trimmed v n : n ≠ [] →
  (trim v ≠ [] ∧ map_err Config.InvalidHost (hostname_from_str (trim v)) = Ok n) → to_ascii_lowercase (trim v) = n.
Proof.
  intros Hn [Hv Hp]. unfold hostname_from_str in Hp. rewrite trim_idem in Hp. destruct (trim v) as [|c t]; [done|].
  cbn [negb nonempty] in Hp. destruct (forallb _ _); [|done]. by injection Hp.
Qed.
Lemma hostname_nonempty v : map_err Config.InvalidHost (hostname_from_str v) ≠ Ok [].
Proof.
  unfold hostname_from_str. destruct (trim v) as [|c t]; [done|]. cbn [negb nonempty]. by destruct (forallb _ _).
Qed.
Lemma from_str_trim v : from_str (trim v) = from_str v.
Proof. unfold from_str. by rewrite trim_idem. Qed.
Lemma from_str_blank v o : from_str v = Ok o → trim v ≠ [].
Proof. unfold from_str. by destruct (trim v). Qed.

Lemma served_is_configured args w s w2 headers name :
  set_up' args w = Some (Ok (Some s), w2) → names_host headers name →
  let n := to_ascii_lowercase name in
  host_allowed headers (Api.allowed_hosts (state s)) (Api.allowed_origins (state s)) = true ↔
    dotted_quad n ∨ n = LOCALHOST ∨ (∃ sub, n = sub ++ LOCALHOST_SUFFIX) ∨ configured args n.
Proof.
  intros Hup Hname n. apply set_up_settings in Hup as [Hh Ho]. rewrite (host_allowed_iff headers name) by done. fold n.
  assert (Hn : n ≠ []) by (pose proof (nh_name _ _ Hname); unfold n; by destruct name).
  unfold served_name, configured. rewrite (Config.parse_values_spec _ _ _ Hh n), list_elem_of_fmap.
  setoid_rewrite (Config.parse_values_spec _ _ _ Ho).
  assert (Hhost : (∃ v, v ∈ arg_allowed_hosts args ∧ trim v ≠ [] ∧ map_err Config.InvalidHost (hostname_from_str (trim v)) = Ok n) ↔
    ∃ v, v ∈ arg_allowed_hosts args ∧ to_ascii_lowercase (trim v) = n).
  { split; intros (v & Hv & Hp); exists v; (split; [done|]); [by apply hostname_from_trimmed|].
    assert (Ht : trim v ≠ []) by (intros Ht; apply Hn; rewrite <- Hp, Ht; done). split; [done|].
    destruct (Config.parse_values_all _ _ _ v Hh Hv Ht) as [a Ha].
    assert (Ha' := hostname_from_trimmed v a ltac:(intros ->; by apply hostname_nonempty in Ha) (conj Ht Ha)). congruence. }
  assert (Horigin : (∃ o, n = hostname_of (authority o) ∧ ∃ v, v ∈ arg_allowed_origins args ∧ trim v ≠ [] ∧
      map_err Config.InvalidOrigin (from_str (trim v)) = Ok o) ↔
    ∃ v o, v ∈ arg_allowed_origins args ∧ from_str v = Ok o ∧ hostname_of (authority o) = n).
  { setoid_rewrite from_str_trim. split.
    - intros (o & -> & v & Hv & _ & Hp). exists v, o. destruct (from_str v); [|done]. by injection Hp as ->.
    - intros (v & o & Hv & Hp & <-). exists o. split; [done|]. exists v. rewrite Hp. split_and!; [done|by eapply from_str_blank|done]. }
  by rewrite Hhost, Horigin.
Qed.

Context `{Sqlite, Platform, Retention.Pager, Headers.HeaderParser, Release.Lettre, Router.Assets, Api.Extract, Api.Axum}.
Context (ws_handler : Api.Request → Handlers.Response).

(** C32: safety. From the settings to the API: a browser reaches a server that was set up
    by an IPv4 address, by [localhost] and its subdomains and by the names of the
    server's arguments, and by no other name, were it spelled with hexadecimal digits
    and dots alone (an IPv6 address, which has colons, is no name), whatever the case
    and the port of the [Host] it sends and the case and the space of the arguments.
    Under one of these names it is answered what the routes answer; under any other
    it is answered [403], and nothing else happens. *)
Theorem configured_names_are_served args w s w2 in_time r a name :
  set_up' args w = Some (Ok (Some s), w2) → names_host (Api.request_headers r) name →
  let n := to_ascii_lowercase name in
  let ours := dotted_quad n ∨ n = LOCALHOST ∨ (∃ sub, n = sub ++ LOCALHOST_SUFFIX) ∨ configured args n in
  (ours → Api.router (state s) ws_handler in_time r a =
    '(response, a) ← Api.routed (state s) ws_handler in_time r a;
    Some (Api.bodiless (Api.method r) (Router.secured response), a)) ∧
  (¬ ours → ∃ response, Api.router (state s) ws_handler in_time r a = Some (response, a) ∧
    Handlers.status response = FORBIDDEN).
Proof.
  intros Hup Hname n ours. pose proof (served_is_configured _ _ _ _ _ _ Hup Hname) as Hours. unfold Api.router.
  destruct (rebinding_refused (λ status reason, Some (Api.refusal status reason, a)) (Api.request_headers r) name
    (Api.allowed_hosts (state s)) (Api.allowed_origins (state s)) (Api.routed (state s) ws_handler in_time r a) Hname) as [Hyes Hno].
  rewrite <- (host_allowed_iff (Api.request_headers r) name) in Hyes, Hno by done. split.
  - intros Hs. rewrite Hyes; [done|]. by apply Hours.
  - intros Hs. rewrite Hno; [|by intros ?%Hours]. eexists. split; [reflexivity|]. apply Api.layers_keep_status.
Qed.
End names.

(** ** Set-ups *)

Import Api.PlainApi PlainZstd.
#[local] Existing Instance example_machine.
#[local] Instance example_urls : Config.UrlParser := λ url, Some (b#"http", strip_prefix b#"http://" url).
(** A file is its own certificate and key. *)
#[local] Instance example_rustls : Config.Rustls :=
  {| Config.Certificate := bytes; Config.PrivateKey := bytes; Config.ServerConfig := bytes;
     Config.pem_certificates file := [Ok file]; Config.pem_private_key := Ok; Config.with_single_cert _ key := Some key |}.
Abbreviation example_set_up := (set_up None b#"1.2.3" true (λ _, None)).

#[local] Ltac evaluated := apply (bool_decide_unpack _); vm_compute; exact I.

(** Two names and an origin of its own, on the store of two messages. *)
Definition named_args : ServeArgs :=
  {| bind := b#"0.0.0.0"; smtp_port := 1025; http_port := 8025; db_path := Some example_path; ephemeral := false;
     max_message_size := 1024; smtp_tls_cert := None; smtp_tls_key := None; retention := 24; max_messages := 0;
     log_level := b#"info"; webhook_url := Some b#"http://hooks.example.com"; arg_release_host := Some b#"relay.example.com:2525";
     arg_allowed_origins := [b#"https://Ui.Example.com:8443"]; ws_buffer := 16;
     arg_allowed_hosts := [b#" Mail.example.com"; b#" "]; config := None |}.
Definition named_state : Api.ApiState :=
  {| Api.release_host := Some b#"relay.example.com"; Api.release_port := Some 2525%Z;
     Api.allowed_origins := [{| scheme := HTTPS; authority := b#"ui.example.com:8443" |}];
     Api.allowed_hosts := [b#"mail.example.com"];
     Api.server_info := Some {| Handlers.version := b#"1.2.3"; Handlers.smtp_port := 1025 |} |}.
Definition named (store : Tables) : Running :=
  {| served_store := store; state := named_state;
     smtp_config := {| SmtpServer.host := V4 [0; 0; 0; 0]%N; SmtpServer.port := 1025;
                       SmtpServer.config_max_message_size := 1024; SmtpServer.config_tls := false |};
     ws_capacity := 16; hook := Some b#"http://hooks.example.com"; retention_hours := 24; retention_messages := 0 |}.
Definition named_settings : Settings :=
  {| bind_addr := V4 [0; 0; 0; 0]%N; origins := Api.allowed_origins named_state; hosts := Api.allowed_hosts named_state; smtp_tls := None |}.

Lemma named_run_new : ∃ w2, example_set_up named_args bare_disk = Some (Ok (Some (named empty_tables)), w2).
Proof. eexists. vm_compute. reflexivity. Defined.
(** A page of [MAIL.example.com] is answered, one of [Bad.cafe] is not. *)
Definition asks (host : bytes) : HeaderMap := [(b#"host", host); (b#"origin", b#"http://" ++ host)].
Lemma asks_names host name p : to_str host = Some host → trim host = host → host = name ++ p → port_suffix p →
  ":"%char ∉ name → "]"%char ∉ name → name ≠ [] → names_host (asks host) name.
Proof.
  intros Ht Htr -> Hp Hc Hb Hn. split; [reflexivity| |by split|done].
  exists (name ++ p), p. by split_and!.
Qed.
Lemma not_an_address n : ":"%char ∉ n → parse_ip n = None → ¬ dotted_quad n.
Proof. intros Hn Hp [ip Hip]%parse_ip_name; congruence. Qed.
Definition page (host : bytes) : Api.Request := Api.request b#"GET" b#"/api/v1/info" (asks host).
Definition quiet_app : AppState.App :=
  {| AppState.world := calm empty_tables; AppState.history := []; AppState.abandonments := []; AppState.overdue := [] |}.
Abbreviation serving := (Api.router (state (named empty_tables)) Api.PlainApi.no_sockets true).
Lemma configured_names_are_served_witness :
  (∃ a, (λ x, (Handlers.status (fst x), snd x)) <$> serving (page b#"MAIL.example.com:8025") quiet_app = Some (200%Z, a)) ∧
  ∃ response, serving (page b#"Bad.cafe:8025") quiet_app = Some (response, quiet_app) ∧ Handlers.status response = FORBIDDEN.
Proof.
  destruct named_run_new as [w2 Hrun].
  assert (Hport : port_suffix b#":8025") by (right; exists b#"8025"; split; [reflexivity|evaluated]).
  assert (Hmail : names_host (asks b#"MAIL.example.com:8025") b#"MAIL.example.com").
  { apply (asks_names _ _ b#":8025"); try reflexivity; [exact Hport|evaluated..|discriminate]. }
  assert (Hbad : names_host (asks b#"Bad.cafe:8025") b#"Bad.cafe").
  { apply (asks_names _ _ b#":8025"); try reflexivity; [exact Hport|evaluated..|discriminate]. }
  pose proof (configured_names_are_served None b#"1.2.3" true (λ _, None) Api.PlainApi.no_sockets named_args bare_disk
    (named empty_tables) w2 true (page b#"MAIL.example.com:8025") quiet_app _ Hrun Hmail) as [Hyes _].
  pose proof (configured_names_are_served None b#"1.2.3" true (λ _, None) Api.PlainApi.no_sockets named_args bare_disk
    (named empty_tables) w2 true (page b#"Bad.cafe:8025") quiet_app _ Hrun Hbad) as [_ Hno].
  split; [eexists; rewrite Hyes; [vm_compute; reflexivity|]|apply Hno].
  - right. right. right. left. exists b#" Mail.example.com". split; [evaluated|reflexivity].
  - intros [Hq|[Hl|[[sub Hs]|[(v & Hv & Hn)|(v & o & Hv & Ho & Hn)]]]].
    + revert Hq. apply not_an_address; [evaluated|vm_compute; reflexivity].
    + by vm_compute in Hl.
    + apply (f_equal (ends_with LOCALHOST_SUFFIX)) in Hs. assert (Ht : ends_with LOCALHOST_SUFFIX (sub ++ LOCALHOST_SUFFIX) = true)
        by (apply ends_with_spec; by eexists). rewrite Ht in Hs. by vm_compute in Hs.
    + repeat (apply elem_of_cons in Hv as [->|Hv]; [by vm_compute in Hn|]). by apply not_elem_of_nil in Hv.
    + repeat (apply elem_of_cons in Hv as [->|Hv]; [vm_compute in Ho; injection Ho as <-; by vm_compute in Hn|]).
      by apply not_elem_of_nil in Hv.
Defined.

(** A setting is refused before the database is looked at, the webhook's after the
    database was created. *)
Definition webhook_at (url : bytes) : ServeArgs :=
  {| bind := b#"127.0.0.1"; smtp_port := 1025; http_port := 8025; db_path := Some example_path; ephemeral := false;
     max_message_size := 1024; smtp_tls_cert := None; smtp_tls_key := None; retention := 0; max_messages := 0;
     log_level := b#"info"; webhook_url := Some url; arg_release_host := None; arg_allowed_origins := [];
     ws_buffer := 16; arg_allowed_hosts := []; config := None |}.
Example webhook_checked_late :
  match example_set_up (webhook_at b#"http://localhost") bare_disk with
  | Some (Err (BadSetting (Config.Localhost _)), w) => (user_version <$> files w !! example_path) = Some Schema.SCHEMA_VERSION
  | _ => False
  end.
Proof. vm_compute. reflexivity. Qed.
Example default_paths : map default_db_path [None; Some b#"/root/.local/share"; Some b#"/"] =
  [b#"./rustmail/rustmail.db"; b#"/root/.local/share/rustmail/rustmail.db"; b#"/rustmail/rustmail.db"].
Proof. reflexivity. Qed.
Example parents : map has_parent [b#"mail.db"; b#"/mail.db"; b#"/"; b#"//."; b#""; b#"."] = [true; true; false; false; false; true].
Proof. reflexivity. Qed.
