(* ===== verification/Downgrade.v ===== *)
(** Going back to an older rustmail: [run_restore_backup] of
    [crates/rustmail-server/src/main.rs], and what it makes of the database of a
    server that migrated it and then took mail. *)
From S2P Require Import Prelude RustStd StorageError Content MailParser Locator Prepared Query Database Store Repo Tables OldDb Fingerprint MigrateDisk MigrateBuild Migrate MigrateRestore MigrateWork MigrateCopies MigrateChecks MigrateLogic MigrateLucky MigrateStates MigrateRestored Instances RepoProperties RepoReads MigrateProperties Startup.
From S2P Require Schema Serve.

(** The arguments as clap gives them. *)
Record RestoreArgs := { db_path : option bytes; log_level : bytes; config : option bytes }.

Section downgrade.
Context `{Json, Zstd, MailParser, Machine}.
(** The directory of the user's data. *)
Context (data_dir : option bytes).

Definition restored_path (args : RestoreArgs) : bytes := default (Serve.default_db_path data_dir) (db_path args).
(** [Path::display]. *)
Definition shown (p : bytes) : bytes := from_utf8_lossy p.
Definition restore_context (p : bytes) : bytes := b#"failed to restore the backup of " ++ shown p.
(** What is printed of a report. *)
Definition restore_lines (report : RestoreReport) : list bytes :=
  [b#"Restored " ++ shown (restored_from report) ++ b#" to " ++ shown (database report) ++ b#".";
   b#"The migrated database is kept as " ++ shown (kept_as report) ++ b#".";
   b#"Mail received after the storage migration is only in " ++ shown (kept_as report) ++ b#"; the restored database does not have it.";
   b#"Starting this rustmail again migrates " ++ shown (database report) ++ b#" again; run the older rustmail to keep it as it is."].
(** The lines, or the error with its context. *)
Definition run_restore_backup (args : RestoreArgs) : M Disk (bytes * halt) (list bytes) := λ w,
  match restore_backup (restored_path args) w with
  | Some (r, w2) => Some (match r with Ok report => Ok (restore_lines report) | Err e => Err (restore_context (restored_path args), e) end, w2)
  | None => None
  end.

(** ** From the older database and back *)

Section back.
Context `{!JsonLaws}.
Context (path : bytes) (s : SourceSchema.t) (src : DbFile).

(** Nothing has the name the migrated database will be kept under. *)
Record never_restored (w : Disk) : Prop := {
  nr_kept q : is_kept path q = true → files w !! q = None;
  nr_sides x : x ∈ side_names (kept path) → files w !! x = None;
}.
(** A server took mail into the database until it held [t], and closed it. *)
Definition served_until (t : Tables) (w w' : Disk) : Prop :=
  ∃ f, files w !! path = Some f ∧ files w' = <[path := f <| contents := Schema2 t |>]> (files w) ∧ sides w' = ∅.

(** The files a migration and its mail are about: the copy has no side files left. *)
Abbreviation moved := ({[ path; migrating (paths_of path); backup (paths_of path) s; lock (paths_of path) ]} : gset bytes).
Lemma moved_names q : q ∈ moved → q ∈ path_names path.
Proof.
  pose proof (D_main path) as HD. pose proof (M_main path) as HM. pose proof (B_main path s) as HB. pose proof (lock_main path) as HL.
  rewrite !elem_of_union, !elem_of_singleton. intros [[[->| ->]| ->]| ->]; done.
Qed.
Lemma served_rest w0 w1 w2 t q :
  tidy (path_names path) w0 → tidy (path_names path) w1 → untouched path s (files w0) (files w1) → served_until t w1 w2 →
  q ∉ moved → files w2 !! q = files w0 !! q.
Proof.
  intros [_ Ht0] [_ Ht1] Hrest (f & _ & -> & _) Hq. rewrite lookup_insert_ne by (intros <-; apply Hq; set_solver).
  destruct (decide (q ∈ side_names (migrating (paths_of path)))) as [Hs|Hs].
  - by rewrite (Ht1 _ q (M_main path) Hs), (Ht0 _ q (M_main path) Hs).
  - apply Hrest. unfold own. by rewrite elem_of_union; intros [].
Qed.
Lemma served_is_migrated w0 past w1 w2 t :
  tidy (path_names path) w0 → is_timestamp utc_now = true → never_restored w0 → history path s w0 src past w1 →
  After path s src (print_of s (contents src)) (files w0) (files w1) → served_until t w1 w2 →
  ∃ grown, migrated_disk path s src grown w2 ∧ contents grown = Schema2 t ∧ ∀ q, q ∉ moved → files w2 !! q = files w0 !! q.
Proof.
  intros Ht0 Hclock [Hk Hx] Hh (f & Hf & Hdb & Hb & Hm & Hrest) Hserved. pose proof (hi_tidy _ _ _ _ _ _ Hh) as Ht1. pose proof Hserved as (f' & Hf' & Hfiles & Hsides).
  change (files w1 !! path = Some f) in Hdb. rewrite Hdb in Hf'. injection Hf' as <-. exists (f <| contents := Schema2 t |>).
  assert (Hother : ∀ q, q ∉ moved → files w2 !! q = files w0 !! q)
    by (intros q; apply (served_rest w0 w1 w2 t q Ht0 Ht1 Hrest Hserved)).
  split; [|by split]. split.
  - exact (history_source _ _ _ _ _ _ Hh).
  - exact (hi_version _ _ _ _ _ _ Hh).
  - by rewrite Hfiles, lookup_insert_eq.
  - by apply (finished_grown s src (print_of s (contents src))).
  - rewrite Hfiles, lookup_insert_ne; [done|]. intros Heq. by apply (B_not_D path s).
  - rewrite Hfiles, lookup_insert_ne; [done|]. intros Heq. by apply (M_not_D path).
  - intros q Hq. rewrite Hother; [by apply Hk|]. intros Hin%moved_names. by rewrite (is_kept_name path q Hin) in Hq.
  - split; [intros q _; rewrite Hsides; apply not_elem_of_empty|]. intros q x Hq Hin.
    assert (Hxn : x ∉ path_names path) by (intros Hp; by apply (restore_apart path Hclock q x Hq); [right|]).
    apply elem_of_cons in Hq as [->|Hq].
    + rewrite Hother by (by intros ?%moved_names). by apply Hx.
    + rewrite Hfiles, lookup_insert_ne by (intros <-; apply Hxn; apply (D_main path)). by apply (proj2 Ht1 q).
Qed.
End back.

(** C18: roundtrip. Going back undoes the upgrade and loses no mail: after a server
    has migrated an older database, however often it was interrupted, and taken any
    mail into it, [restore-backup] (however often it was interrupted too, once
    nothing goes wrong in it on files nobody has open) leaves the disk as it was
    before the upgrade: the older database in its place, as it was last, no backup, no
    copy, every other file as before. The migrated database is whole, with the mail
    taken since, under the name that is printed. *)
Theorem downgrade_gives_the_source_back `{!JsonLaws} args s src0 src past w0 w w' t w1 t2 w2 w3 w4 :
  let path := restored_path args in
  fresh_disk path s src0 w0 → never_restored path w0 → 0 < available_parallelism → is_timestamp utc_now = true → intact src = true →
  sessions path s src0 w0 src past w → restarted w w' → start_store path w' = Some (Ok (Some t), w1) → served_until path t2 w1 w2 →
  restores path w2 w3 → restarted w3 w4 → lucky w4 → sides w4 = ∅ →
  ∃ r w5 grown, run_restore_backup args w4 = Some (r, w5) ∧
    (r = Ok (restore_lines (the_report path s)) ∨ files w4 !! path = Some src) ∧
    fresh_disk path s src w5 ∧
    files w5 !! kept path = Some grown ∧ contents grown = Schema2 t2 ∧
    ∀ q, q ∉ restore_own path s → files w5 !! q = files w0 !! q.
Proof.
  intros path Hd Hnr Hcores Hclock Hwhole Hses Hre Hrun Hmail Hres Hre4 Hl Hsides.
  pose proof (sessions_history path s src0 w0 src past w Hd Hcores Hses) as Hh.
  destruct (wp_elim _ _ _ _ _ (history_starts False path s src past w0 w w' Hh Hcores (False_ind _) Hre (False_ind _)) Hrun) as (Hh1 & Ha & _).
  destruct (Ha t eq_refl) as [Ha1 _].
  destruct (served_is_migrated path s src w0 past w1 w2 t2 (fd_tidy _ _ _ _ Hd) Hclock Hnr Hh1 Ha1 Hmail) as (grown & Hmd & Hgrown & Hrest).
  destruct (restores_keep path s src grown w2 w3 Hmd Hclock Hres) as [Hsafe Ht3].
  destruct (lucky_restore path s src grown w2 w3 w4 Hmd Hclock Hsafe Ht3 Hre4 Hl Hsides Hwhole) as (r & w5 & Hrun5 & Hback & Hr).
  destruct (wp_elim _ _ _ _ _ (restore_step path s src grown w2 w3 w4 Hmd Hclock Hsafe Ht3 Hre4) Hrun5) as (_ & Ht5 & _).
  destruct Hback as (Hdb & Hb & Hk & Hm & Hstay).
  eexists _, w5, grown. split; [unfold run_restore_backup; fold path; by rewrite Hrun5|]. split_and!.
  - destruct Hr as [->|[[Hsrc _] _]]; [by left|by right].
  - split; [exact (history_source _ _ _ _ _ _ Hh)|exact (hi_version _ _ _ _ _ _ Hh)|exact Hdb|exact Hm|exact Hb|].
    destruct Ht5 as [Hs5 Hf5]. split; intros; [apply Hs5|eapply Hf5; [|done]]; by right.
  - exact Hk.
  - exact Hgrown.
  - intros q Hq. rewrite (Hstay q Hq). apply Hrest. intros Hin. apply Hq. revert Hin. unfold restore_own. set_solver.
Qed.
End downgrade.

(** ** A server going forth and back *)

Import PlainZstd.
#[local] Existing Instance example_machine.

Definition restore_args : RestoreArgs := {| db_path := Some example_path; log_level := b#"info"; config := None |}.
(** Started on the older database, it takes mail until it has these two. *)
Definition upgraded : Disk := match start_store example_path (example_disk []) with Some (_, w) => w | None => example_disk [] end.
Definition mail_taken (script : list (option mishap)) : Disk :=
  again (upgraded <| files := alter (λ f, f <| contents := Schema2 (Store.db two_stored) |>) example_path (files upgraded) |> <| sides := ∅ |>) script.
(** The first restore is killed between its renames; the next one ends. *)
Definition half_back : Disk := restored_by (mail_taken (killed_after 30)).

Lemma upgraded_runs : (match start_store example_path (example_disk []) with Some (Ok (Some _), _) => true | _ => false end) = true →
  ∃ t, start_store example_path (example_disk []) = Some (Ok (Some t), upgraded).
Proof. unfold upgraded. destruct (start_store _ _) as [[[[t|]|] w]|]; try done. by exists t. Qed.
Lemma mail_taken_served script : is_Some (files upgraded !! example_path) →
  served_until example_path (Store.db two_stored) upgraded (mail_taken script).
Proof.
  intros [f Hf]. exists f. split_and!; [done| |done]. unfold mail_taken. cbn [again files]. simpl. apply map_eq. intros q.
  destruct (decide (example_path = q)) as [<-|Hq].
  - by rewrite lookup_alter_eq, lookup_insert_eq, Hf.
  - by rewrite lookup_alter_ne, lookup_insert_ne.
Qed.
Lemma example_never_restored : never_restored example_path (example_disk (killed_after 60)).
Proof.
  assert (Hclock : is_timestamp utc_now = true) by (vm_compute; reflexivity).
  split; [intros q Hq|intros x Hx]; apply lookup_singleton_ne; intros <-.
  - by rewrite (is_kept_name example_path example_path (D_main _)) in Hq.
  - apply (restore_apart example_path Hclock (kept example_path) example_path); [by left|right; apply D_main|exact Hx].
Qed.
Lemma downgrade_gives_the_source_back_witness :
  ∃ w5 grown, run_restore_backup None restore_args (again half_back []) = Some (Ok (restore_lines (the_report example_path SourceSchema.Legacy)), w5) ∧
    files w5 !! example_path = Some example_source ∧
    files w5 !! kept example_path = Some grown ∧ contents grown = Schema2 (Store.db two_stored).
Proof.
  destruct upgraded_runs as [t Hstart]; [vm_compute; reflexivity|].
  destruct (restored_by_runs (mail_taken (killed_after 30))) as [r1 H1]; [vm_compute; reflexivity|].
  assert (Hrest : bool_decide (others half_back = ∅) && negb (locked_elsewhere half_back) && (length (stops half_back) =? 0) &&
    bool_decide (sides half_back = ∅) && bool_decide (meddling half_back = []) &&
    bool_decide (files half_back !! example_path = None) = true) by (vm_compute; reflexivity).
  apply andb_true_iff in Hrest as [[[[[Ho%bool_decide_eq_true Hk%negb_true_iff]%andb_true_iff Hs%Nat.eqb_eq]%andb_true_iff
    Hsd%bool_decide_eq_true]%andb_true_iff Hm%bool_decide_eq_true]%andb_true_iff Hgone%bool_decide_eq_true].
  destruct (downgrade_gives_the_source_back None restore_args SourceSchema.Legacy example_source example_source [] (example_disk (killed_after 60))
    (example_disk (killed_after 60)) (example_disk []) t upgraded (Store.db two_stored) (mail_taken (killed_after 30)) half_back (again half_back []))
    as (r & w5 & grown & Hrun & Hr & Hfresh & Hkept & Hgrown & _).
  - exact example_fresh.
  - exact example_never_restored.
  - repeat constructor.
  - reflexivity.
  - reflexivity.
  - apply no_session.
  - unfold restarted. by split_and!.
  - exact Hstart.
  - apply mail_taken_served, (proj1 (bool_decide_eq_true (is_Some _))). vm_compute. reflexivity.
  - refine (another _ _ _ _ _ _ (no_restore _ _) _ H1). split; [reflexivity|]. split; [reflexivity|]. vm_compute. reflexivity.
  - exact (restarted_again _ _ Hm).
  - apply lucky_again; [exact Ho|exact Hk|by apply length_zero_iff_nil].
  - exact (eq_trans (proj1 (again_same _ _)) Hsd).
  - destruct Hr as [->|Hback].
    + exists w5, grown. exact (conj Hrun (conj (fd_db _ _ _ _ Hfresh) (conj Hkept Hgrown))).
    + rewrite (proj2 (again_same _ _)) in Hback. pose proof (eq_trans (eq_sym Hgone) Hback) as Heq. discriminate Heq.
Defined.
(** What is printed. *)
Example printed : restore_lines (the_report example_path SourceSchema.Legacy) =
  [b#"Restored mail.db.schema0.bak to mail.db.";
   b#"The migrated database is kept as mail.db.schema2-20260101T000000Z.";
   b#"Mail received after the storage migration is only in mail.db.schema2-20260101T000000Z; the restored database does not have it.";
   b#"Starting this rustmail again migrates mail.db again; run the older rustmail to keep it as it is."].
Proof. vm_compute. reflexivity. Qed.
