(* ===== verification/EndToEnd.v ===== *)
(** From the socket to the API: a mail the client of
    [crates/rustmail-smtp/src/session.rs] was told is accepted is the one
    [crates/rustmail-api] serves. The theorems of the session, of
    the server's life and of the store meet here, over the channels of
    [crates/rustmail-smtp/src/message.rs] between them. *)
From S2P Require Import Prelude RustStd SmtpCommand SmtpStream SmtpSession SmtpDialogue StorageError Content MailParser Prepared Query Database Store Repo Tables RepoWrites Instances RepoProperties RepoReads AppState Ingest IngestProperties Healthy Consumer Lifecycle Reclaim Retention Origin Host Handlers Headers Router Release Api.

(** A session and the server it runs in, joined by the queue and the channels of the
    verdicts: every hand-off opens a channel of its own, and one that is answered was
    taken from the queue, with the verdict the consumer sent on its channel. *)
Record joined (said : list event) (s : Server) : Prop := {
  own_channels : NoDup (map ack (accepted (sys s)));
  carried m o : Submitted m (Verdict o) ∈ said →
    ∃ d t, d ∈ accepted (sys s) ∧ message d = m ∧ (Acked (ack d) o, t) ∈ history (app (sys s));
}.

Lemma replied_ok h : verdict_reply h = OK → h = Verdict Stored.
Proof. by destruct h as [|[]| |]. Qed.
Lemma zip_with_elem {A B C} (f : A → B → list C) (l : list A) (k : list B) i x y z :
  l !! i = Some x → k !! i = Some y → z ∈ f x y → z ∈ concat (zip_with f l k).
Proof.
  intros Hx Hy Hz. apply list_elem_of_In, in_concat. exists (f x y). split; [|by apply list_elem_of_In].
  apply list_elem_of_In, list_elem_of_lookup. exists i. rewrite lookup_zip_with. by rewrite Hx, Hy.
Qed.

Section end_to_end.
Context `{Json, !JsonLaws, Zstd, !ZstdLaws, MailParser, Sqlite, Platform, Pager, HeaderParser, Lettre, HeaderText, Assets, Extract, Axum, !AxumLaws}.
Context (webhook_url : option bytes) (st : ApiState) (ws_handler : Request → Response).

(** A read of the raw source answers what the store answers. *)
Lemma raw_served i raw a : get_raw i (world a) = Some (Ok raw, world a) →
  get_raw_message i None a = Some (Ok (source_response raw), a).
Proof.
  intros Hraw. unfold get_raw_message, call, try, mbind, M_mbind. rewrite Hraw. by destruct a.
Qed.

(** C1: safety. A [250] is a promise kept, from the socket to the API: when a client that
    follows the protocol is told that a mail is accepted, the database held, when
    it was told, a message with the mail's sender, recipients and size, and an HTTP
    request for that message's source is answered, on whatever names and origins
    the server is configured for, with exactly the bytes the client meant, the
    doubled dots taken off and however the network had cut them. The client's
    limit may be any of 64 bits: at the three largest ones, where the budget of a
    line wraps and a session takes next to nothing, this is said of the mails
    that the session did hand over. *)
Theorem accepted_mail_is_served max tls handshakes name mails hs more incoming rest e session server i mail h :
  host_name name → Forall (sendable max) mails → length hs = length mails →
  flat_events incoming = (conversation name mails ++ rest, e) →
  SmtpSession.handle (new incoming max tls [] (hs ++ more) handshakes) = Some (Ok tt, session) →
  server_reachable webhook_url server → joined (trace session) server →
  mails !! i = Some mail → hs !! i = Some h → verdict_reply h = OK →
  (Z.of_nat max + 3 ≤ U64_MAX)%Z ∨ Submitted (as_received mail) h ∈ trace session →
  ∃ a t row, (Acked a Stored, t) ∈ history (app (sys server)) ∧ wf t ∧ row ∈ messages t ∧
    m_sender row = from mail ∧ json_from_str (m_recipients row) = Some (to mail) ∧
    m_size row = Z.of_nat (length (content mail)) ∧
    ∀ s r, db (world s) = t → faults (world s) = [] → asks_source st r (id row) →
      router st ws_handler true r s = Some (secured (source_response (content mail)), s).
Proof.
  intros Hname Hms Hlen Hflat Hrun Hserver Hjoin Hmail Hh ->%replied_ok Hlimit.
  assert (Hsub : Submitted (as_received mail) (Verdict Stored) ∈ trace session).
  { destruct Hlimit as [Husable|]; [|done].
    destruct (conversation_run max tls handshakes name mails hs more incoming rest e Husable Hname Hms Hlen Hflat) as (r & _ & Hrun').
    rewrite Hrun in Hrun'. injection Hrun' as ->. cbn [trace talking]. do 3 right. apply elem_of_app. left.
    eapply zip_with_elem; [done..|]. unfold mail_events. rewrite !elem_of_app. right. right. by right; right; left. }
  destruct (carried _ _ Hjoin (as_received mail) Stored Hsub) as (d & t & Hd & Hmsg & Hack).
  destruct (told_truly webhook_url server (ack d) t Hserver Hack) as (d' & row & Hd' & Heq & Hwf & Hrow & p & Hp & Hst & _).
  assert (d' = d) as -> by (eapply (NoDup_key_inj ack); [apply Hjoin|done..]).
  unfold prepare in Hp. rewrite Hmsg in Hp.
  assert (Hread : ∀ w, db w = t → faults w = [] → get_raw (id row) w = Some (Ok (content mail), w) ∧
    m_size row = Z.of_nat (length (content mail)) ∧ m_sender row = from mail ∧ json_from_str (m_recipients row) = Some (to mail)).
  { intros w <- Hf. by destruct (row_reads_back (from mail) (to mail) (content mail) p row w 0) as (? & _ & ? & ? & ? & _). }
  destruct (Hread (calm t) eq_refl eq_refl) as (_ & Hsize & Hfrom & Hto).
  exists (ack d), t, row. split_and!; try done. intros s r' Hdb Hf Hasks. apply (source_answered st ws_handler r' (id row) _ s Hasks). by apply raw_served, Hread.
Qed.
End end_to_end.

(** ** A mail all the way *)

Import PlainZstd.
Definition verdicts : list handoff := [Verdict Stored; AckTimedOut].
Definition client_session : Session :=
  match SmtpSession.handle (new (pieces 200 example_wire) 1000 false [] (verdicts ++ []) []) with
  | Some (_, s) => s
  | None => new [] 0 false [] [] []
  end.
Definition first_delivery : Delivery := {| message := as_received first_mail; ack := 0 |}.
Definition taken : list MessageSummary * App :=
  match process_batch [first_delivery] (fresh_app (calm empty_tables)) with
  | Some (Ok stored, a) => (stored, a)
  | _ => ([], fresh_app (calm empty_tables))
  end.
Lemma taken_runs : process_batch [first_delivery] (fresh_app (calm empty_tables)) = Some (Ok (fst taken), snd taken).
Proof. vm_compute. reflexivity. Qed.
Definition serving : Server :=
  (started (fresh_app (calm empty_tables)))
    <| sys := (initial (snd taken)) <| accepted := [first_delivery] |> |>.
Lemma serving_reachable : server_reachable None serving.
Proof.
  exists (fresh_app (calm empty_tables)). split_and!; [apply calm_sound, empty_wf|done|].
  eapply rtc_l; [apply around; [done|by apply (hand_over _ first_delivery); [|unfold QUEUE_CAPACITY; simpl; lia]|done]|].
  eapply rtc_l; [apply consume; [done|by apply take_batch|done]|].
  eapply rtc_l; [eapply (batch_done None); [done|reflexivity|apply taken_runs]|]. apply rtc_refl.
Qed.

Definition only_stored (e : event) : bool :=
  match e with Submitted m (Verdict o) => bool_decide (m = as_received first_mail ∧ o = Stored) | _ => true end.
Lemma joined_example : joined (trace client_session) serving.
Proof.
  split; [apply NoDup_singleton|]. intros m o Hin.
  assert (Hall : forallb only_stored (trace client_session) = true) by (vm_compute; reflexivity).
  rewrite forallb_forall in Hall. apply list_elem_of_In, Hall, bool_decide_eq_true_1 in Hin as [-> ->].
  exists first_delivery, (db (world (snd taken))). split_and!; [by left|done|].
  apply list_elem_of_lookup. exists 0. vm_compute. reflexivity.
Qed.

Import PlainApi.
Definition by_browser (text : bytes) : Request :=
  request b#"GET" (b#"/api/v1/messages/" ++ text ++ b#"/raw") [(b#"host", b#"localhost:8025"); (b#"sec-fetch-mode", b#"cors")].
Lemma browser_asks text : text ≠ [] → "/"%char ∉ text → asks_source plain_state (by_browser text) text.
Proof. intros Hne Hno. split; [reflexivity|by exists text|reflexivity|reflexivity]. Qed.

Lemma accepted_mail_is_served_witness :
  ∃ a t row, (Acked a Stored, t) ∈ history (app (sys serving)) ∧ wf t ∧ row ∈ messages t ∧
    m_sender row = from first_mail ∧ json_from_str (m_recipients row) = Some (to first_mail) ∧
    m_size row = Z.of_nat (length (content first_mail)) ∧
    ∀ s r, db (world s) = t → faults (world s) = [] → asks_source plain_state r (id row) →
      router plain_state no_sockets true r s = Some (secured (source_response (content first_mail)), s).
Proof.
  apply (accepted_mail_is_served None plain_state no_sockets 1000 false [] b#"client.test" [first_mail; second_mail] verdicts []
    (pieces 200 example_wire) [] AtEof client_session serving 0 first_mail (Verdict Stored)).
  - split_and!; [done|done|apply Nat.leb_le; by vm_compute].
  - exact example_sendable.
  - done.
  - vm_compute. reflexivity.
  - vm_compute. reflexivity.
  - exact serving_reachable.
  - exact joined_example.
  - done.
  - done.
  - done.
  - left. by apply Z.leb_le; vm_compute.
Defined.
