(* ===== verification/ApiProperties.v ===== *)
(** What the request handlers guarantee to the clients of the API. *)
From S2P Require Import Prelude RustStd SmtpSession StorageError Content MailParser Locator Prepared Query Database Store Repo Tables RepoWrites Instances RepoProperties RepoReads Reclaim AppState Retention Handlers Release.

Section api.
Context `{Json, Zstd, MailParser, Sqlite, Platform, !JsonLaws}.

(** ** Updates *)

(** The events of an update, in the order they are sent. *)
Definition update_events (i : bytes) (b : UpdateBody) : list WsEvent :=
  match u_is_read b with Some r => [MessageRead i r] | None => [] end ++
  match u_is_starred b with Some s => [MessageStarred i s] | None => [] end ++
  match u_tags b with Some tags => [MessageTags i tags] | None => [] end.
Definition notify (es : list WsEvent) (s : App) : App :=
  {| world := world s; history := history s ++ map (λ e, (Sent e, db (world s))) es;
     abandonments := abandonments s; overdue := overdue s |}.

Lemma broadcasts_spec {E A} i b (a : A) s :
  (match u_is_read b with Some r => broadcast (MessageRead i r) | None => mret tt end;;
   match u_is_starred b with Some x => broadcast (MessageStarred i x) | None => mret tt end;;
   match u_tags b with Some tags => broadcast (MessageTags i tags) | None => mret tt end;;
   mret a : M App E A) s = Some (Ok a, notify (update_events i b) s).
Proof.
  unfold update_events, notify. destruct s as [w h ab ov].
  destruct (u_is_read b), (u_is_starred b), (u_tags b); unfold mbind, M_mbind, broadcast, modify, noting; cbn;
    rewrite ?app_nil_r, <- ?app_assoc; reflexivity.
Qed.

(** C30: functional. An update that is answered [204] changed exactly the fields it
    names of the message it names, and announces each of them once with the
    value stored; one that is refused changes and announces nothing, the tags it
    asked for being invalid, the message unknown or the database at fault. *)
Theorem update_announces_what_changed i b s :
  sound (world s) → ∃ r s' w0, update_message i b s = Some (r, s') ∧ quiet (world s) w0 ∧
    match r with
    | Ok resp =>
        (status resp = 400%Z ∧ s' = s ∧ ∃ tags, u_tags b = Some tags ∧ validate_tags tags ≠ None) ∨
        (resp = NO_CONTENT ∧ i ∈ map id (messages (db w0)) ∧
         changed i (u_is_read b) (u_is_starred b) (json_to_string <$> u_tags b) (db w0) (db (world s')) ∧
         history s' = history s ++ map (λ e, (Sent e, db (world s'))) (update_events i b))
    | Err e => history s' = history s ∧ messages (db (world s')) = messages (db w0) ∧
        ((∃ x, e = Storage x ∧ blamed x (world s)) ∨
         (e = Storage (NotFound i) ∧ i ∉ map id (messages (db w0))))
    end.
Proof.
  intros Hs. unfold update_message.
  destruct (tags ← u_tags b; validate_tags tags) as [refusal|] eqn:Hv.
  { exists (Ok refusal), s, (world s). split; [done|split; [done|]]. left.
    destruct (u_tags b) as [tags|]; simpl in Hv; [|done]. split_and!; [|done|exists tags; by rewrite Hv].
    unfold validate_tags in Hv. destruct (MAX_TAGS <? length tags); [by injection Hv as <-|].
    induction tags as [|t tags IH]; simpl in Hv; [done|].
    repeat case_match; try (by injection Hv as <-); by apply IH. }
  clear Hv.
  destruct (update_message_atomic i (u_is_read b) (u_is_starred b) (u_tags b) (world s))
    as (r & w' & Hrun & w0 & Hq & Hl & HR).
  assert (Hup : Repo.update_message i (u_is_read b) (u_is_starred b) (u_tags b) (world s) =
    match r with Ok n => (if n =? 0 then fail (NotFound i) else mret tt) w' | Err e => Some (Err e, w') end).
  { unfold Repo.update_message, mbind, M_mbind. rewrite Hrun. by destruct r. }
  destruct r as [n|e].
  - destruct HR as (Hn & Hch). destruct (Nat.eqb_spec n 0) as [->|Hne]; cbn beta in Hup.
    + exists (Err (Storage (NotFound i))), (set_world w' s), w0. split; [|split; [done|]].
      * unfold call, try, mbind, M_mbind. rewrite Hup. done.
      * assert (Hnone : i ∉ map id (messages (db w0))).
        { apply filter_id_none. by apply nil_length_inv. }
        split_and!; [done| |by right]. destruct Hch as [Hm _]. simpl. rewrite Hm.
        rewrite <- (map_id (messages (db w0))) at 2. apply map_ext_in. intros m Hin.
        destruct (has_id i m) eqn:Hid; [|done]. apply beqb_spec in Hid as <-. destruct Hnone.
        apply list_elem_of_fmap. exists m. split; [done|]. by apply list_elem_of_In.
    + exists (Ok NO_CONTENT), (notify (update_events i b) (set_world w' s)), w0. split; [|split; [done|]].
      * rewrite <- (broadcasts_spec i b). unfold call, try. unfold mbind at 1, M_mbind at 1.
        unfold mbind at 1, M_mbind at 1. rewrite Hup. done.
      * right. split; [done|]. split; [|by split].
        destruct (List.filter (has_id i) (messages (db w0))) as [|m l] eqn:Hf; [done|].
        assert (m ∈ List.filter (has_id i) (messages (db w0))) as Hm by (rewrite Hf; by left).
        apply elem_of_filter_b in Hm as [Hm Hid]. apply beqb_spec in Hid. apply list_elem_of_fmap. by exists m.
  - destruct HR as [Hd [Hb|[]]]. exists (Err (Storage e)), (set_world w' s), w0. split; [|split; [done|]].
    + unfold call, try, mbind, M_mbind. rewrite Hup. done.
    + simpl. rewrite Hd. split_and!; [done..|]. left. by exists e.
Qed.

(** ** Listing *)

(** The messages a list request goes through. *)
Definition selected (p : ListParams) (t : Tables) (m : MessageRecord) : bool :=
  match q p with
  | None => passes (filter p) (message_tags t) m
  | Some query =>
    match sanitize_fts_query query with
    | None => false
    | Some quoted => matches quoted (messages_fts t) m && passes (filter p) (message_tags t) m
    end
  end.
Definition page_limit (p : ListParams) : Z := Z.max 1 (Z.min MAX_PAGE_LIMIT (default DEFAULT_PAGE_LIMIT (limit p))).
(** Newest first. *)
Definition results (p : ListParams) (t : Tables) : list MessageRecord :=
  rev (List.filter (selected p t) (messages t)).

(** Following [next_cursor] from the first page until there is none: the messages
    of the pages, in order. *)
Fixpoint walk (fuel : nat) (pairs : list (bytes * bytes)) (at_cursor : option bytes) (s : App)
    : option (list MessageSummary) :=
  match fuel with
  | 0 => None
  | S fuel =>
    match list_messages (pairs ++ match at_cursor with Some c => [(b#"before", c)] | None => [] end) s with
    | Some (Ok {| body := PageBody messages _ next_cursor _ |}, s) =>
      match next_cursor with
      | Some c => app messages <$> walk fuel pairs (Some c) s
      | None => Some messages
      end
    | _ => None
    end
  end.

Lemma call_calm {E A} (from : StorageError → E) (op : DB A) a s :
  op (world s) = Some (Ok a, world s) → call from op s = Some (Ok a, s).
Proof. intros Hop. unfold call, try, mbind, M_mbind. rewrite Hop. by destruct s. Qed.

Lemma filter_false {A} (l : list A) : List.filter (λ _, false) l = [].
Proof. by induction l. Qed.

(** The two queries of a list request, on a database that does not fail. *)
Lemma list_queries p start s : faults (world s) = [] →
  ∃ total, (match q p with
    | Some query =>
      msgs ← call Storage (search_page query (filter p) start (page_limit p + 1));
      total ← call Storage (search_count_filtered query (filter p));
      mret (msgs, total)
    | None =>
      msgs ← call Storage (list_page (filter p) start (page_limit p + 1));
      total ← call Storage (count_filtered (filter p));
      mret (msgs, total)
    end : M App AppError _) s =
    Some (Ok (map summary (page start (page_limit p + 1)
      (List.filter (selected p (db (world s))) (messages (db (world s))))), total), s).
Proof.
  intros Hf. unfold selected. destruct (q p) as [query|].
  - unfold search_page, search_count_filtered, search_count.
    destruct (sanitize_fts_query query) as [quoted|].
    + destruct (filter_is_empty (filter p)); eexists; unfold mbind at 1, M_mbind at 1;
        (erewrite call_calm by by apply query_calm); unfold mbind at 1, M_mbind at 1;
        by erewrite call_calm by by apply query_calm.
    + exists 0%Z. unfold mbind at 1, M_mbind at 1. erewrite call_calm by done.
      unfold mbind at 1, M_mbind at 1. rewrite (call_calm _ _ 0%Z) by (by destruct (filter_is_empty (filter p))).
      rewrite filter_false. unfold page, sql_limit, sql_offset. destruct start; simpl;
        rewrite ?drop_nil; destruct (_ <? 0)%Z; by rewrite ?take_nil.
  - unfold list_page, count_filtered, count.
    destruct (filter_is_empty (filter p)); eexists; unfold mbind at 1, M_mbind at 1;
      (erewrite call_calm by by apply query_calm); unfold mbind at 1, M_mbind at 1;
      by erewrite call_calm by by apply query_calm.
Qed.

Lemma parse_pairs_snoc p pairs key value :
  parse_pairs p (pairs ++ [(key, value)]) = (p' ← parse_pairs p pairs; parse_pair p' key value).
Proof.
  revert p. induction pairs as [|[k v] pairs IH]; intros p; simpl.
  - by destruct (parse_pair p key value).
  - destruct (parse_pair p k v); simpl; [apply IH|done].
Qed.
Definition with_cursor (at_cursor : option bytes) (p : ListParams) : ListParams :=
  match at_cursor with
  | Some c => {| q := q p; limit := limit p; offset := offset p; before := Some c; filter := filter p |}
  | None => p
  end.
Lemma parse_with_cursor pairs p c : parse_params pairs = Ok p →
  parse_params (pairs ++ match c with Some c => [(b#"before", c)] | None => [] end) = Ok (with_cursor c p).
Proof.
  destruct c as [c|]; [|by rewrite app_nil_r]. unfold parse_params. rewrite parse_pairs_snoc.
  destruct (parse_pairs default_params pairs) as [p'|]; cbn -[MAX_TAGS Nat.ltb]; [|done].
  destruct (MAX_TAGS <? length (filter_tags (filter p'))) eqn:Hlen; [done|]. by intros [= ->].
Qed.

(** Where a page starts: after the messages of [a]. *)
Definition cursor_after (a : list MessageRecord) : option bytes := id <$> last a.

Lemma page_start_after p s a rest : sound (world s) → faults (world s) = [] →
  before p = None → offset p = None → results p (db (world s)) = a ++ rest →
  ∃ start, page_start (with_cursor (cursor_after a) p) s = Some (Ok start, s) ∧
    ∀ n, (0 ≤ n)%Z → page start n (List.filter (selected p (db (world s))) (messages (db (world s)))) = take (Z.to_nat n) rest.
Proof.
  intros [Hwf _] Hf Hb Ho Hres.
  assert (Hlim : ∀ A n (l : list A), (0 ≤ n)%Z → sql_limit n l = take (Z.to_nat n) l).
  { intros A n l Hn. unfold sql_limit. by destruct (Z.ltb_spec n 0); [lia|]. }
  unfold cursor_after. destruct (last a) as [x|] eqn:Hl; simpl.
  - apply last_Some in Hl as [a' ->]. rewrite <- app_assoc in Hres. simpl in Hres.
    assert (Hx : x ∈ messages (db (world s))).
    { assert (x ∈ results p (db (world s))) as Hin by (rewrite Hres; apply elem_of_app; right; by left).
      unfold results in Hin. rewrite list_elem_of_In, <- in_rev, <- list_elem_of_In in Hin.
      by apply elem_of_filter_b in Hin as [? _]. }
    exists (Before (Query.seq x)). split.
    + unfold page_start. simpl. rewrite Ho.
      unfold mbind, M_mbind, try, cursor. rewrite query_bind_calm by done.
      rewrite filter_by_id; [|apply Hwf|done]. simpl. by destruct s.
    + intros n Hn. rewrite (page_next n _ a' x rest); [by apply Hlim|apply ascending_filter, Hwf|exact Hres].
  - apply last_None in Hl as ->. simpl in Hres. exists (Offset 0). split.
    + unfold page_start. by rewrite Hb, Ho.
    + intros n Hn. unfold page, sql_offset. simpl. rewrite drop_0, Hlim by done. unfold results in Hres. by rewrite Hres.
Qed.

(** One page: the next messages up to the limit, and a cursor exactly when more
    follow. *)
Lemma list_one_page pairs p s a rest : sound (world s) → faults (world s) = [] →
  parse_params pairs = Ok p → before p = None → offset p = None → results p (db (world s)) = a ++ rest →
  let n := Z.to_nat (page_limit p) in
  ∃ total, list_messages (pairs ++ match cursor_after a with Some c => [(b#"before", c)] | None => [] end) s =
    Some (Ok {| status := 200; headers := [(CACHE_CONTROL, MUTABLE_MESSAGE_CACHE)];
      body := PageBody (map summary (take n rest)) total
                (match drop n rest with [] => None | _ => id <$> last (take n rest) end) (page_limit p) |}, s).
Proof.
  intros Hs Hf Hp Hb Ho Hres n.
  destruct (page_start_after p s a rest Hs Hf Hb Ho Hres) as (start & Hstart & Hpage).
  destruct (list_queries p start s Hf) as (total & Hq). exists total.
  assert (Hlim : (1 ≤ page_limit p)%Z) by (unfold page_limit; lia).
  unfold list_messages. rewrite (parse_with_cursor _ _ _ Hp).
  assert (Hsame : q (with_cursor (cursor_after a) p) = q p ∧ limit (with_cursor (cursor_after a) p) = limit p ∧
    filter (with_cursor (cursor_after a) p) = filter p) by (by destruct (cursor_after a)).
  unfold raise. unfold mbind at 1, M_mbind at 1. unfold mret at 1, M_mret at 1.
  destruct Hsame as (-> & -> & ->). fold (page_limit p).
  unfold mbind at 1, M_mbind at 1. rewrite Hstart.
  unfold mbind at 1, M_mbind at 1. rewrite Hq, Hpage by lia.
  assert (Hn : Z.to_nat (page_limit p + 1) = S n) by (unfold n; lia).
  assert (Htake : take n (map summary (take (S n) rest)) = map summary (take n rest)).
  { rewrite firstn_map, take_take. f_equal. f_equal. lia. }
  rewrite Hn. fold n. rewrite Htake, length_map, length_take.
  assert (Hlen : length (drop n rest) = length rest - n) by apply length_drop.
  assert (Hlast : s_id <$> last (map summary (take n rest)) = id <$> last (take n rest)).
  { clear. generalize (take n rest). intros l. by induction l as [|x [|y l] IH]. }
  rewrite Hlast. unfold mret, M_mret.
  destruct (Z.ltb_spec (page_limit p) (Z.of_nat (S n `min` length rest)));
    destruct (drop n rest); simpl in Hlen; (lia || done).
Qed.

Lemma walk_from pairs p s fuel a rest : sound (world s) → faults (world s) = [] →
  parse_params pairs = Ok p → before p = None → offset p = None → results p (db (world s)) = a ++ rest →
  length rest < fuel → walk fuel pairs (cursor_after a) s = Some (map summary rest).
Proof.
  intros Hs Hf Hp Hb Ho. revert a rest. induction fuel as [|fuel IH]; intros a rest Hres Hfuel; [lia|].
  cbn [walk]. destruct (list_one_page pairs p s a rest Hs Hf Hp Hb Ho Hres) as (total & ->).
  set (n := Z.to_nat (page_limit p)). assert (Hn : 1 ≤ n) by (unfold n, page_limit; lia).
  destruct (drop n rest) as [|y more] eqn:Hd.
  - f_equal. f_equal. apply firstn_all2. assert (length (drop n rest) = 0) by (by rewrite Hd).
    rewrite length_drop in *. lia.
  - destruct (last (take n rest)) as [x|] eqn:Hl.
    2: { apply last_None in Hl. assert (length (take n rest) = 0) by (by rewrite Hl).
         assert (length (drop n rest) ≠ 0) by (by rewrite Hd). rewrite length_take, length_drop in *. lia. }
    simpl. assert (Hcur : cursor_after (a ++ take n rest) = Some (id x)).
    { unfold cursor_after. by rewrite last_app, Hl. }
    rewrite <- Hcur, (IH (a ++ take n rest) (drop n rest)).
    + simpl. rewrite <- map_app. by rewrite take_drop.
    + by rewrite <- app_assoc, take_drop.
    + rewrite length_drop. assert (length (drop n rest) ≠ 0) by (by rewrite Hd). rewrite length_drop in *. lia.
Qed.

(** C29: functional. A client that follows [next_cursor] from the first page until
    there is none has seen every message its query and filters select, each once
    and newest first, whatever page size it asked for: pages neither skip nor
    repeat a message. *)
Theorem pages_cover_the_listing pairs p s fuel :
  sound (world s) → faults (world s) = [] →
  parse_params pairs = Ok p → before p = None → offset p = None →
  length (messages (db (world s))) < fuel →
  walk fuel pairs None s = Some (map summary (results p (db (world s)))).
Proof.
  intros Hs Hf Hp Hb Ho Hfuel.
  apply (walk_from pairs p s fuel [] (results p (db (world s))) Hs Hf Hp Hb Ho eq_refl).
  unfold results. rewrite length_rev. eapply Nat.le_lt_trans; [apply filter_length_le|done].
Qed.

(** ** The header section *)

(** A message's source up to its first blank line, which is included, or whole. *)
Fixpoint header_section (s : bytes) : bytes :=
  if starts_with (crlf ++ crlf) s then crlf ++ crlf
  else if starts_with [LF; LF] s then [LF; LF]
  else match s with [] => [] | c :: s => c :: header_section s end.

Lemma starts_with_app p s r : starts_with p s = true → starts_with p (s ++ r) = true.
Proof. rewrite !starts_with_spec. intros [t ->]. exists (t ++ r). by rewrite app_assoc. Qed.
Lemma starts_with_long p s r : length p ≤ length s → starts_with p (s ++ r) = starts_with p s.
Proof.
  unfold starts_with. revert s. induction p as [|x p IH]; intros [|y s] Hl; simpl in *; try done; [lia|].
  destruct (Ascii.eqb x y); [apply IH; lia|done].
Qed.
Lemma window_length p s : has_window p s = true → length p ≤ length s.
Proof.
  induction s as [|c s IH]; simpl; rewrite ?orb_false_r, ?orb_true_iff.
  - intros [r Hr]%starts_with_spec. destruct p; [done|discriminate].
  - intros [[r Hr]%starts_with_spec|Hw]; [|apply IH in Hw; lia].
    apply (f_equal length) in Hr. rewrite length_app in Hr. simpl in Hr. lia.
Qed.

(** What has its blank line settles the header section of anything it starts. *)
Lemma header_section_app s r : ends_header_section s = true → header_section (s ++ r) = header_section s.
Proof.
  unfold ends_header_section. induction s as [|c s IH]; intros Hw; [done|]. cbn [app header_section].
  destruct (starts_with (crlf ++ crlf) (c :: s)) eqn:Hcr; [by rewrite (starts_with_app _ (c :: s) r)|].
  destruct (starts_with [LF; LF] (c :: s)) eqn:Hlf.
  - by apply starts_with_spec in Hlf as [t [= -> ->]].
  - assert (Hs : ends_header_section s = true).
    { unfold ends_header_section. cbn [has_window] in Hw. by rewrite Hcr, Hlf in Hw. }
    assert (Hlen : 2 ≤ length s).
    { unfold ends_header_section in Hs. apply orb_true_iff in Hs as [Hs|Hs]; apply window_length in Hs; simpl in Hs; lia. }
    change (c :: s ++ r) with ((c :: s) ++ r).
    rewrite (starts_with_long [LF; LF]), Hlf by (simpl; lia).
    assert (Hno : starts_with (crlf ++ crlf) ((c :: s) ++ r) = false); [|rewrite Hno; f_equal; by apply IH].
    destruct (Nat.le_gt_cases 3 (length s)); [by rewrite starts_with_long by (simpl; lia)|].
    destruct s as [|x [|y [|z s]]]; simpl in *; try lia.
    unfold ends_header_section in Hs. apply orb_true_iff in Hs as [Hs|Hs]; [apply window_length in Hs; simpl in Hs; lia|].
    destruct (starts_with [LF; LF] [x; y]) eqn:Hxy; [|cbn [has_window] in Hs; rewrite Hxy in Hs].
    + apply starts_with_spec in Hxy as [t Ht]. injection Ht as -> -> _. unfold starts_with. simpl.
      destruct c as [[] [] [] [] [] [] [] []]; reflexivity.
    + destruct (starts_with [LF; LF] [y]) eqn:Hy; [apply starts_with_spec in Hy as [? ?]; discriminate|].
      simpl in Hs. by destruct (starts_with [LF; LF] []) eqn:Hnil in Hs.
Qed.

(** C31: equivalence. The header handlers read a short prefix of a message unless its
    header section is longer; either way what they parse has the whole header
    section of the source, so a field is never lost to the shortcut. *)
Theorem header_section_is_whole `{!ZstdLaws} {E} (from : StorageError → E) i s m frame raw :
  faults (world s) = [] → content_row i (db (world s)) = Some (m, frame) →
  compress raw = Ok frame → m_size m = Z.of_nat (length raw) →
  ∃ r, read_header_section from i s = Some (Ok r, s) ∧ header_section r = header_section raw ∧
    (r = raw ∨ length r = Z.to_nat HEADER_SECTION_PREFIX_BYTES).
Proof.
  intros Hf Hrow Hc Hsize. set (k := Z.to_nat HEADER_SECTION_PREFIX_BYTES).
  assert (Hpre : get_raw_prefix i HEADER_SECTION_PREFIX_BYTES (world s) = Some (Ok (take k raw), world s)).
  { unfold get_raw_prefix. rewrite query_bind_calm, Hrow by done. by rewrite (decompress_prefix_compress _ _ _ _ Hc). }
  assert (Hraw : get_raw i (world s) = Some (Ok raw, world s)).
  { unfold get_raw. rewrite query_bind_calm, Hrow by done. by rewrite Hsize, (decompress_compress _ _ _ Hc). }
  unfold read_header_section. unfold mbind, M_mbind. rewrite (call_calm _ _ _ _ Hpre).
  assert (Hk : HEADER_SECTION_PREFIX_BYTES = Z.of_nat k) by done. generalize dependent k. intros k _ Hk.
  destruct (Z.ltb_spec (Z.of_nat (length (take k raw))) HEADER_SECTION_PREFIX_BYTES) as [Hlt|Hge]; cbn [orb].
  - exists raw. rewrite length_take in Hlt. rewrite firstn_all2 by lia. split_and!; auto.
  - assert (Hl : length (take k raw) = k) by (rewrite length_take in *; lia).
    destruct (ends_header_section (take k raw)) eqn:He.
    + exists (take k raw). split_and!; [done| |right; by rewrite Hl].
      rewrite <- (take_drop k raw) at 2. by rewrite header_section_app.
    + exists raw. rewrite (call_calm _ _ _ _ Hraw). auto.
Qed.
End api.

(** ** Requests to run the theorems on *)

Import PlainZstd.
Definition served (w : World) : App := {| world := w; history := []; abandonments := []; overdue := [] |}.
Lemma update_announces_what_changed_witness :
  let b := {| u_is_read := Some true; u_is_starred := None; u_tags := Some [b#"ci"] |} in
  ∃ r s' w0, update_message b#"00" b (served two_stored) = Some (r, s') ∧ quiet (world (served two_stored)) w0 ∧
    match r with
    | Ok resp =>
        (status resp = 400%Z ∧ s' = served two_stored ∧ ∃ tags, u_tags b = Some tags ∧ validate_tags tags ≠ None) ∨
        (resp = NO_CONTENT ∧ b#"00" ∈ map id (messages (db w0)) ∧
         changed b#"00" (u_is_read b) (u_is_starred b) (json_to_string <$> u_tags b) (db w0) (db (world s')) ∧
         history s' = history (served two_stored) ++ map (λ e, (Sent e, db (world s'))) (update_events b#"00" b))
    | Err e => history s' = history (served two_stored) ∧ messages (db (world s')) = messages (db w0) ∧
        ((∃ x, e = Storage x ∧ blamed x (world (served two_stored))) ∨
         (e = Storage (NotFound b#"00") ∧ b#"00" ∉ map id (messages (db w0))))
    end.
Proof.
  apply (update_announces_what_changed b#"00"
    {| u_is_read := Some true; u_is_starred := None; u_tags := Some [b#"ci"] |} (served two_stored)), two_stored_sound.
Defined.
Example update_is_sent :
  match update_message b#"00" {| u_is_read := Some true; u_is_starred := None; u_tags := Some [b#"ci"] |} (served two_stored) with
  | Some (Ok r, s') => r = NO_CONTENT ∧ events (history s') = [MessageRead b#"00" true; MessageTags b#"00" [b#"ci"]]
  | _ => False
  end.
Proof. by vm_compute. Qed.

Definition one_per_page : ListParams :=
  {| q := None; limit := Some 1%Z; offset := None; before := None; filter := no_filter |}.
Lemma pages_cover_the_listing_witness :
  walk 5 [(b#"limit", b#"1")] None (served two_stored) = Some (map summary (results one_per_page (db two_stored))).
Proof.
  apply (pages_cover_the_listing [(b#"limit", b#"1")] one_per_page (served two_stored) 5); try reflexivity.
  - apply two_stored_sound.
  - apply Nat.ltb_lt. vm_compute. reflexivity.
Defined.
Example both_pages : length (results one_per_page (db two_stored)) = 2.
Proof. reflexivity. Qed.

Lemma header_section_is_whole_witness :
  ∃ r, read_header_section Storage b#"0" (served stored_world) = Some (Ok r, served stored_world) ∧
    header_section r = header_section b#"hi" ∧
    (r = b#"hi" ∨ length r = Z.to_nat HEADER_SECTION_PREFIX_BYTES).
Proof.
  apply (header_section_is_whole Storage b#"0" (served stored_world)
    (nth 0 (messages (db stored_world)) (message_record [] [] (example_mail []))) b#"hi" b#"hi"); reflexivity.
Defined.
